(* ===== verification/_CoqProject ===== *)
-Q . S2P
Prelude.v
Text.v
HashChain.v
Num.v
Formulas.v
SecurityEval.v
FixedPoint.v
FixedPointFacts.v
Evidence.v
Scores.v
EvidenceFacts.v
SettlementFacts.v
Shuffle.v
ShuffleList.v
BeaconProposer.v
ProposerFacts.v
BlockEvidence.v
BlockEvidenceFacts.v
ClientFacts.v
BlockProduction.v
SettlementHttp.v
Justification.v
JustificationFacts.v
MerkleProof.v
MerkleFacts.v
BodyProof.v
DepositTree.v
ProtoArray.v
ForkChoice.v
ProtoArrayFacts.v
ForkWeights.v
ForkScores.v
ForkGhost.v
ForkSteps.v
ForkHead.v
ForkTree.v
Registry.v
SinglePass.v
EpochProcessing.v
EpochStages.v
EpochEquiv.v
EpochClaims.v
EpochBalances.v
EpochTotals.v
Operations.v
Wallet.v
Transaction.v
Path.v
PathFacts.v
Block.v
Blockchain.v
Consensus.v
Baselines.v
TopoStake.v
TopoStakeFacts.v
Metrics.v
Graph.v
Network.v
Message.v
Sync.v
Shared.v
Ledger.v
SyncFacts.v
Node.v
NodeFacts.v
Packing.v
WorldReport.v
WorldState.v
WorldFacts.v
Production.v
Accounts.v
ReportFacts.v
System.v
Witnesses.v
WitnessesModel.v
WitnessesNetwork.v
WitnessesClient.v
WitnessesConsensus.v
WitnessesFork.v
WitnessesEpoch.v
