(* ===== verification/Prelude.v ===== *)
(** * TopoStake: a verification development

    TopoStake (src/) is a proof-of-stake protocol that pays and weights
    validators for relaying transactions, with a Rust simulator of a network of
    nodes that runs it next to three baselines, and a port of the protocol to a
    vendored Ethereum consensus client.  This library models the simulator's own
    logic and the protocol's part of the client, and proves the properties the
    protocol is built on.

    ** The program

    A wallet (src/src/wallet) holds an ECDSA key for transactions and a BLS key
    for paths; BLS keys are trusted through a process-wide registry.  A
    transaction (src/src/blockchain/transaction.rs) travels from node to node; each
    hop is signed by its sender and acknowledged by its receiver over a hash
    chain of the identities so far, and a receiver acknowledges one incoming
    edge per transaction and epoch (path.rs).  The proposer of a slot aggregates
    the signatures of the paths it received and packs transactions and path
    records in a block (block.rs), which every node appends to its chain
    (blockchain/mod.rs).  A consensus (src/src/consensus) selects the proposer of
    a slot from a combined random seed, distributes the block's rewards, and updates
    its state when an epoch ends: TopoStake (topostake.rs) freezes proposer weights
    from stake and from the relay scores of an earlier epoch, and splits fees
    between the proposer and the relays of valid paths; proof of stake, proof of
    work and Minotaur are baselines.  src/src/network builds a topology of nodes
    (node.rs) and a world state (world_state.rs), which exchange messages
    (message.rs): nodes relay transactions and acknowledge hops, the world state owns
    the clock, selects a proposer per slot, builds its block from the proposer's
    mempool, credits the rewards and reports every epoch; nodes that fell behind
    synchronise their chain.  src/src/metrics.rs measures a run;
    src/src/security_eval.rs checks the protocol's path padding claim exhaustively.

    The consensus client (src/ethereum-topostake/lighthouse) has the protocol in
    integer arithmetic.  A block carries path records with one aggregate signature;
    block processing (state_processing/src/per_block_processing.rs) verifies them
    against a registry of relay keys and records them in a process-wide evidence
    runtime (types/src/core/chain_spec.rs), which keeps credits and scores per epoch,
    settles them as epochs are finalized and submits the settlements to the
    execution client; proposer selection (types/src/state/beacon_state.rs) visits the
    validators in a shuffled order (swap_or_not_shuffle) and accepts them in
    proportion to the weights computed from the activated scores.  The evidence of a
    block comes with its execution payload and is packed by block production
    (beacon_chain/src/graffiti_calculator.rs); the finalized epoch that drives
    settlement is the outcome of justification and finalization
    (state_processing/src/per_epoch_processing), whose single pass over the validators
    (single_pass.rs) also updates balances, exits, deposits and the effective balances
    that proposer weights start from, and the head a block builds on that of
    the fork choice (proto_array); the body of a block, to which the
    protocol adds two fields, is committed to by a Merkle tree (merkle_proof), against
    which data columns, blobs and light clients check their proofs.

    ** The files

    - [Prelude]: outcomes with panics ([Outcome], [let!]), results ([Result],
      [let?]), machine integers with their wrap-around, bytes and hexadecimal
      digits, maps with default entries ([get_or], [entry_update], [collect_map]),
      the hint database and the tactics.
    - [Text]: the [str] methods the sources use.  [HashChain]: the chain of hashes
      both implementations sign, for any hash function.
    - [Num]: the interface [F64] of Rust's f64, its instances at the reals and at the kernel's
      64-bit floats, and sums of reals.
    - [Formulas]: the closed formulas of topostake.rs.  [SecurityEval]:
      security_eval.rs.
    - The consensus client.  [FixedPoint], [FixedPointFacts]: the integer formulas of
      chain_spec.rs.  [Evidence]: its configuration, records and recording of
      evidence; [Scores]: settlement, activation, weights and snapshots;
      [EvidenceFacts], [SettlementFacts]: runs of the operations ([run]).
      [Shuffle], [ShuffleList]: compute_shuffled_index.rs, shuffle_list.rs.  [BeaconProposer], [ProposerFacts]:
      proposer selection of beacon_state.rs.  [BlockEvidence]: the TopoStake part of
      per_block_processing.rs; [BlockEvidenceFacts], [ClientFacts]: signed paths,
      sequences of blocks and submissions.  [BlockProduction]: the evidence part of
      graffiti_calculator.rs and the settlement records of json_structures.rs;
      [SettlementHttp]: how a settlement is sent.  [Justification],
      [JustificationFacts]: finality.  [MerkleProof], [MerkleFacts]: the crate
      merkle_proof; [BodyProof]: proofs into a block body; [DepositTree]: the deposit
      tree and its snapshots.  [ProtoArray]: the array of block nodes, its scoring,
      pruning, payload validation and head search; [ForkChoice]: the votes, their deltas
      and the operations over both; [ProtoArrayFacts]: the invariant
      [BlockTree] of the array; [ForkWeights] (the specification: [lmd_weight],
      [viable_branch], [ghost]), [ForkScores] (deltas), [ForkGhost] (the scoring
      pass), [ForkSteps] (the step relation [fc_step] and its invariant), [ForkHead],
      [ForkTree]: its theorems.  [Registry]: validators, the exit and activation queues,
      and the caches of balances, rewards and keys; [SinglePass]: single_pass.rs up to
      the pass over the validators; [EpochProcessing]: the caches before it and the steps
      after it, composed to [process_epoch_single_pass] and [process_epoch];
      [EpochStages] (loops, one validator, the pass as a sequence of loops), [EpochEquiv]
      (states and contexts), [EpochClaims], [EpochBalances], [EpochTotals]: its theorems.
      [Operations]: the header, slashings and attestations of a block, and the caches along
      chains of blocks and epochs ([chain_step]); the committees of a slot, the proposer,
      signature checks and header roots are its parameters.
      The record [EpochEnv] stands for the tree hash, the check of deposit signatures and
      the proposers and payload committees of an epoch; the classes [EthHash], [Blst], [Env],
      [RegistrySource], [EvidenceJson], [AlloyPrimitives], [Sockets] and [RpcJson]
      stand for the hash and BLS libraries, the process environment, the file
      system, serde_json, the number and address types of alloy, and sockets.
    - [Wallet]: wallet/mod.rs, tools/mod.rs; the class [Crypto] and its laws stand
      for the cryptographic libraries, and [Wallet.Toy] instantiates both.
    - [Transaction]: transaction.rs.  [Path], [PathFacts]: path.rs, with the three
      process-wide caches as the explicit state [PathCaches].
    - [Block], [Blockchain]: block.rs, blockchain/mod.rs.
    - [Consensus]: consensus/mod.rs, the trait as the class [Consensus.Consensus].
      [Baselines]: pos.rs, pow.rs (the mining threads as the step relation
      [race_step]), minotaur.rs.
    - [TopoStake], [TopoStakeFacts]: topostake.rs; path records are checked through
      the class [PathVerifier], whose implementation is [registry_verifier].
    - [Metrics]: metrics.rs and the Gini coefficient of network/mod.rs.
      [Graph]: network/graph.rs.  [Network]: the set-up part of network/mod.rs.
    - [Message]: message.rs and the slot manager.  [Sync], [SyncFacts]: the fork
      search and chain replacement shared by the two participants' synchronisation
      handlers.  [Shared]: what tasks share through [Arc] (mempools, availability flags,
      forwarding counters, the BLS registry, the path caches) and the packing of
      a mempool into a block.  [Ledger]: the abstract ledger of all blocks.
      [Packing]: the selection from a mempool.
    - [Node], [NodeFacts]: node.rs; a handler maps a node, the shared state and
      a message to the new node, the new shared state and the messages sent.
    - [WorldReport]: the reports of world_state.rs; [WorldState]: its state, slot
      and epoch changes, block production and message handlers, over the
      class [Consensus.Consensus].  [WorldFacts] (clock, outages), [Production] (block
      production), [Accounts] (balances), [ReportFacts] (reports): their theorems.
    - [System]: nodes and world state composed, with messages in flight, as the
      step relation [System.step].
    - [Witnesses], [WitnessesModel], [WitnessesNetwork], [WitnessesClient],
      [WitnessesConsensus], [WitnessesFork], [WitnessesEpoch]: the theorems with
      hypotheses applied to concrete inputs, third-party interfaces instantiated by executable functions.

    ** What the theorems show

    - Paths: verification accepts exactly valid evidence, for whatever chain id the
      evidence names; an honest relay always produces evidence that verifies; a
      statement binds transaction, chain, epoch and prefix up to hash collisions;
      receipts are exclusive; the cache is transparent as long as no field contains the
      separators of its keys, and the keys collide otherwise.
    - Chain: [add_block] accepts exactly the verified children of the tip; the
      invariant (links, transaction index, window) is preserved by adding and by
      popping; no transaction enters two blocks; the Merkle root ends, and binds
      its leaves, except that a repeated last transaction goes unnoticed.
    - TopoStake: weights are a distribution, a coalition's weight is bounded by
      its stake whatever its scores, splitting an identity or padding a path
      never pays, fees are conserved, every reward is settled once and on time,
      and every selection is by weights frozen from the scores of the configured delay.
    - Baselines: selection by stake, winners that did the work, the best hash
      kept, agreement of the two difficulty measures, order-independent seeds.
    - Nodes and world state: in every reachable state of the whole system, under any
      interleaving and loss of messages, all chains and mempools are sound; the
      chain with its bounded window refines the ledger of all blocks; the clock
      refines a counter; a hop between two nodes succeeds, an
      available proposer produces a block of the best transactions, a node that is
      behind catches up; rewards reach the balances and the supply is accounted for;
      the epoch reports agree with the protocol and never flag the weight bound.
      Theorems of kind error record where the code falls short: crossing balance
      messages, snapshots that forget transactions, transactions stored unverified.
    - Consensus client: only paths that all their relays signed are credited, and a
      signed statement binds everything before it; a transaction is credited once;
      fees are conserved in every run of operations, and what is submitted to the
      execution client adds up to them, each epoch until every endpoint accepted it;
      scores are settled once,
      for finalized epochs, and are final; the integer shares are the simulator's
      formula up to a few units of 10^-9; the shuffle is a permutation, selection
      always finds a proposer, and a coalition's weight is bounded by its stake.
      Theorems of kind error show that the fees of records are not signed, that the
      first read of an epoch's scores decides them, and where the logarithm levels off.
    - Block production: evidence within the limits is packed, verified and credited
      in full; when a path does not fit, the signature over all paths is checked
      against those that are left; settlement records
      survive the engine API, and chunked responses are decoded, except that two chunk
      sizes panic.
    - Finality: justified and finalized epochs have two thirds of the votes, finality
      is monotone, and two supermajorities in a row finalize.  The list shuffle is
      the index shuffle at every position, and its directions are inverse.
    - Fork choice: in every state that blocks, votes, payload verdicts, pruning and head
      searches lead to, the incremental weights are the latest-message weights, the
      filter pass is the recursive definition of viability, the head is the greedy
      heaviest-subtree descent (before Gloas and without a boost), the search ends on
      every fork, and pruning changes nothing about the blocks it keeps.
    - End of an epoch: the single pass is equivalent to the parts of the transition run
      one by one in the order of the specification, effective balances apart; those are
      within the hysteresis of the balances at its end, added and consolidated validators
      included, and the cached effective balances and total active balance of the next
      epoch are the ones a recomputation would give;
      the balance of the validators it ejects stays within the churn of each epoch.
    - Blocks and epochs: along any chain of blocks with slashings and attestations, slots and
      ends of epochs, the caches of progressive balances, effective balances and
      slashed validators agree with the state they are caches of.
    - Merkle trees: the tree refines the list of its leaves through pushing,
      finalizing, snapshots and their resumption; proofs verify and bind the leaf.
      The proofs of blob commitments and of the execution payload into a block body
      are at indices that the two added fields have moved, and prove other fields.
    - Simulation: the Gini coefficient is the mean difference; generated networks
      are simple and connected; coalitions are reproducible and minimal; stakes are
      normalised; the fee ledger is exact; configurations are sanitised.

    ** Numbers, bounds and fuel

    [u64] and [u32] values are [Z] with the wrapping, saturating or checked operation the
    source uses (arithmetic wraps in the release profile); lengths and indices are [nat].  f64
    code is written once over [F64]; theorems about real quantities are at the instance [R], where
    rounding does not occur, those about control flow hold at every instance.
    Path lengths fit in [i32] ([path_fits]), as the exponent of [powi] does.

    Loops of known length are folds.  [merkle_loop] has as many rounds as leaves,
    which is proved enough.  Loops that redraw a random value have a budget of draws;
    for generators whose draws meet every value ([RngFair]) a sufficient budget is
    proved to exist where the source's loop ends, and the one that may not end is
    shown not to for any budget.  The candidate loops of proposer selection have a
    budget of tries; for the TopoStake selection one try per validator is proved enough.
    The loops of the fork choice over parents and children have a step for each state
    they can visit and end in the error [StepsExhausted], which the source does not
    have; [ForkTree.head_search_ends] shows that the head search never returns it.

    ** Time and concurrency

    A handler runs to its end as one step; the tasks it spawns to send messages
    are the messages it returns, delivered later in any order or lost.  Clock
    readings, random bytes and values other tasks may change while a handler runs
    (the availability flag before each forward, the generator's counters) are
    arguments.  What a timer decides (when the next slot change happens) is a
    choice of the step relation.

    ** Not modelled

    Third-party code is behind classes: cryptography, serde_json, rand, petgraph
    (a graph is the calls that build it).  Of the epoch transition, phase 0, sync
    committees, the resets of votes, RANDAO mixes and historical roots, the committee caches
    and fork upgrades are not modelled; of the operations of a block, deposits, voluntary
    exits, withdrawals, requests, payload attestations and sync aggregates are not; of the fork choice, the payload weights of Gloas are operations
    without an invariant, and the crate fork_choice, which feeds proto_array from blocks
    and the clock, is left out.  The betweenness approximation works on sampled shortest
    paths of petgraph; start_network and the task drivers of network/mod.rs spawn tasks
    and sleep.  The rest of Ethereum's own code in the vendored client (networking,
    storage, the HTTP and engine API, the validator client), command-line parsing, log
    lines, metrics, JSON bodies, writing the record files, benchmarks and the vendored Go
    client have no logic of the protocol. *)

From Stdlib Require Import Ascii.
From Stdlib Require Export ZArith Lia.
From stdpp Require Export strings gmap prelude.

(** * Rust results *)

(** [Result<T, E>]. *)
Inductive Result (A E : Type) : Type :=
  | Ok (a : A)
  | Err (e : E).
Arguments Ok {A E} a.
Arguments Err {A E} e.

Definition is_ok {A E} (r : Result A E) : bool :=
  match r with Ok _ => true | Err _ => false end.

(** A call that may panic. *)
Inductive Outcome (A : Type) : Type :=
  | Ret (a : A)
  | Panic.
Arguments Ret {A} a.
Arguments Panic {A}.

(** [opt.expect(..)] and [opt.unwrap()]. *)
Definition expect {A} (o : option A) : Outcome A :=
  match o with Some a => Ret a | None => Panic end.

Definition outcome_bind {A B} (o : Outcome A) (k : A -> Outcome B) : Outcome B :=
  match o with Ret a => k a | Panic => Panic end.

(** A boolean check that panics does not accept. *)
Definition accepts (o : Outcome bool) : bool :=
  match o with Ret b => b | Panic => false end.

(** The development's notations live in a scope of their own. *)
Declare Scope rust_scope.
Delimit Scope rust_scope with rust.

Notation "'let?' x ':=' r 'in' k" :=
  (match r with Ok x => k | Err e => Err e end)
  (at level 10, x pattern, r at level 100, k at level 200) : rust_scope.

Notation "'let!' x ':=' o 'in' k" := (outcome_bind o (fun x => k))
  (at level 10, x pattern, o at level 100, k at level 200) : rust_scope.

(** * Bytes and strings *)

Abbreviation bytes := (list Byte.byte).

#[export] Instance byte_eq_decision : EqDecision Byte.byte := Byte.byte_eq_dec.

#[export] Instance byte_countable : Countable Byte.byte.
Proof. refine (inj_countable' Byte.to_N (fun n => default Byte.x00 (Byte.of_N n)) _). by intros []. Defined.

Definition byte_of_Z (z : Z) : Byte.byte :=
  match Byte.of_N (Z.to_N (z mod 256)) with Some b => b | None => Byte.x00 end.

Definition Z_of_byte (b : Byte.byte) : Z := Z.of_N (Byte.to_N b).

(** [n.to_le_bytes()] and [n.to_be_bytes()] on [k] bytes. *)
Fixpoint to_le_bytes (k : nat) (n : Z) : bytes :=
  match k with
  | O => []
  | S k => byte_of_Z n :: to_le_bytes k (n / 256)
  end.

Definition to_be_bytes (k : nat) (n : Z) : bytes := rev (to_le_bytes k n).

(** [s.as_bytes()]. *)
Definition as_bytes (s : string) : bytes := String.list_byte_of_string s.

(** [s[a..b]] for in-range bounds, [None] for the panic of out-of-range ones. *)
Definition slice (s : string) (a b : nat) : option string :=
  if decide (a <= b <= String.length s) then Some (String.substring a (b - a) s) else None.

(** [s.starts_with("0x")], and the rest after it. *)
Definition strip_0x (s : string) : string :=
  match s with
  | String "0"%char (String "x"%char rest) => rest
  | _ => s
  end.

Definition hex_digit (z : Z) : Ascii.ascii :=
  if (z <? 10)%Z then Ascii.ascii_of_N (Z.to_N (48 + z)) else Ascii.ascii_of_N (Z.to_N (87 + z)).

(** [format!("{:02x}", v)] for a value of one byte. *)
Definition format_02x (v : Z) : string :=
  String (hex_digit (v / 16)) (String (hex_digit (v mod 16)) EmptyString).

Definition hex_value (c : Ascii.ascii) : option Z :=
  let n := Z.of_N (Ascii.N_of_ascii c) in
  if ((48 <=? n) && (n <=? 57))%Z then Some (n - 48)%Z
  else if ((97 <=? n) && (n <=? 102))%Z then Some (n - 87)%Z
  else if ((65 <=? n) && (n <=? 70))%Z then Some (n - 55)%Z
  else None.

(** [u8::from_str_radix(s, 16)] on two characters: a leading [+] is allowed, a
    value of two digits always fits. *)
Definition u8_from_str_radix16 (s : string) : option Z :=
  match s with
  | String a (String b EmptyString) =>
      if decide (a = "+"%char) then hex_value b
      else match hex_value a, hex_value b with
           | Some x, Some y => Some (16 * x + y)%Z
           | _, _ => None
           end
  | _ => None
  end.

Lemma Z_of_byte_bounds b : (0 <= Z_of_byte b < 256)%Z.
Proof. unfold Z_of_byte. pose proof (Byte.to_N_bounded b). lia. Qed.

Lemma Z_of_byte_of_Z z : (0 <= z < 256)%Z -> Z_of_byte (byte_of_Z z) = z.
Proof.
  intros Hz. unfold Z_of_byte, byte_of_Z. rewrite Z.mod_small by done.
  destruct (Byte.of_N (Z.to_N z)) eqn:E; [|apply Byte.of_N_None_iff in E; lia].
  apply Byte.to_of_N_iff in E. lia.
Qed.

Lemma byte_of_Z_of_byte b : byte_of_Z (Z_of_byte b) = b.
Proof. by destruct b. Qed.

Lemma length_to_le_bytes k n : length (to_le_bytes k n) = k.
Proof. revert n. induction k; intros; simpl; auto. Qed.

Lemma length_to_be_bytes k n : length (to_be_bytes k n) = k.
Proof. unfold to_be_bytes. by rewrite length_rev, length_to_le_bytes. Qed.

Lemma byte_of_Z_inj a b :
  (0 <= a < 256)%Z -> (0 <= b < 256)%Z -> byte_of_Z a = byte_of_Z b -> a = b.
Proof.
  intros Ha Hb. unfold byte_of_Z. rewrite !Z.mod_small by done.
  destruct (Byte.of_N (Z.to_N a)) eqn:Ea.
  2:{ apply Byte.of_N_None_iff in Ea. lia. }
  destruct (Byte.of_N (Z.to_N b)) eqn:Eb.
  2:{ apply Byte.of_N_None_iff in Eb. lia. }
  intros ->. apply Byte.to_of_N_iff in Ea, Eb. lia.
Qed.

Lemma byte_of_Z_mod a : byte_of_Z (a mod 256) = byte_of_Z a.
Proof. unfold byte_of_Z. by rewrite Z.mod_mod by lia. Qed.

(** Fixed-width encodings are injective on their range. *)
Lemma to_le_bytes_inj k a b :
  (0 <= a < 256 ^ Z.of_nat k)%Z -> (0 <= b < 256 ^ Z.of_nat k)%Z ->
  to_le_bytes k a = to_le_bytes k b -> a = b.
Proof.
  revert a b. induction k as [|k IH]; intros a b Ha Hb; [simpl in *; lia|].
  rewrite Nat2Z.inj_succ, Z.pow_succ_r in Ha, Hb by lia.
  simpl. intros [= Hh Ht].
  rewrite <- (byte_of_Z_mod a), <- (byte_of_Z_mod b) in Hh.
  apply byte_of_Z_inj in Hh; [|apply Z.mod_pos_bound; lia..].
  apply IH in Ht; [|split; [apply Z.div_pos; lia|apply Z.div_lt_upper_bound; lia]..].
  rewrite (Z.div_mod a 256), (Z.div_mod b 256) by lia. congruence.
Qed.

(** * Machine integers

    A [u64], a [usize] and a [u32] are integers of [Z] in their range.  A plain
    [+] or [*] wraps around (the release profile has no overflow checks);
    [saturating_*] and [checked_*] are written out. *)

Definition U32_MAX : Z := 2 ^ 32 - 1.
Definition U64_MAX : Z := 2 ^ 64 - 1.
Definition U128_MAX : Z := 2 ^ 128 - 1.

Definition is_u64 (z : Z) : Prop := (0 <= z <= U64_MAX)%Z.

Lemma to_be_bytes8_inj a b : is_u64 a -> is_u64 b -> to_be_bytes 8 a = to_be_bytes 8 b -> a = b.
Proof.
  unfold is_u64, U64_MAX, to_be_bytes. intros Ha Hb E. apply (f_equal (@rev _)) in E.
  rewrite !rev_involutive in E. apply to_le_bytes_inj in E; [done|..];
    change (256 ^ Z.of_nat 8)%Z with (2 ^ 64)%Z; lia.
Qed.

Definition wrap64 (z : Z) : Z := (z mod 2 ^ 64)%Z.
Definition u64_add (a b : Z) : Z := wrap64 (a + b).
Definition u64_sub (a b : Z) : Z := wrap64 (a - b).
Definition u64_mul (a b : Z) : Z := wrap64 (a * b).
Definition u64_sat_add (a b : Z) : Z := Z.min (a + b) U64_MAX.
Definition u64_sat_sub (a b : Z) : Z := Z.max 0 (a - b).
Definition u64_checked_sub (a b : Z) : option Z :=
  if (a <? b)%Z then None else Some (a - b)%Z.

(** [x as i32]: two's complement truncation. *)
Definition as_i32 (z : Z) : Z :=
  let w := (z mod 2 ^ 32)%Z in if (w <? 2 ^ 31)%Z then w else (w - 2 ^ 32)%Z.

(** [x as u8]: truncation. *)
Definition as_u8 (z : Z) : Z := (z mod 2 ^ 8)%Z.

Lemma wrap64_small z : is_u64 z -> wrap64 z = z.
Proof. unfold is_u64, U64_MAX, wrap64. intros H. apply Z.mod_small. lia. Qed.

Lemma wrap64_range z : is_u64 (wrap64 z).
Proof.
  unfold is_u64, U64_MAX, wrap64.
  pose proof (Z.mod_pos_bound z (2 ^ 64) ltac:(lia)). lia.
Qed.

Lemma u64_add_small a b : is_u64 a -> (0 <= b)%Z -> (a + b <= U64_MAX)%Z -> u64_add a b = (a + b)%Z.
Proof. intros [Ha _] Hb Hs. apply wrap64_small. split; lia. Qed.

Lemma as_i32_small z : (0 <= z < 2 ^ 31)%Z -> as_i32 z = z.
Proof.
  intros Hz. unfold as_i32. rewrite Z.mod_small by lia.
  destruct (Z.ltb_spec z (2 ^ 31)); lia.
Qed.

(** * Lists *)

(** [Vec::last] and [slice::first] are stdpp's [last] and [head]. *)

(** [collect()] of key/value pairs into a [HashMap]: later entries overwrite. *)
Definition collect_map {K V} `{Countable K} (l : list (K * V)) : gmap K V :=
  fold_left (fun m kv => <[kv.1 := kv.2]> m) l ∅.

(** [m.get(k).copied().unwrap_or(d)]. *)
Definition get_or {K V} `{Countable K} (d : V) (m : gmap K V) (k : K) : V :=
  default d (m !! k).

(** An entry read-modify-write: [let e = m.entry(k).or_insert(d); e := f e]. *)
Definition entry_update {K V} `{Countable K} (d : V) (f : V -> V) (k : K) (m : gmap K V)
    : gmap K V :=
  <[k := f (get_or d m k)]> m.

(** [m.values()] in the map's (unspecified) iteration order. *)
Definition map_values {K V} `{Countable K} (m : gmap K V) : list V := (map_to_list m).*2.

(** [m.keys()]. *)
Definition map_keys {K V} `{Countable K} (m : gmap K V) : list K := (map_to_list m).*1.

(** [iter().enumerate()]. *)
Definition enumerate {A} (l : list A) : list (nat * A) := imap pair l.

(** [iter().take_while(p)]. *)
Fixpoint take_while {A} (p : A -> bool) (xs : list A) : list A :=
  match xs with
  | x :: rest => if p x then x :: take_while p rest else []
  | [] => []
  end.

(** [iter().any(|x| !seen.insert(x))] with [seen] starting empty: some element
    occurs twice. *)
Fixpoint any_repeated {A} `{Countable A} (seen : gset A) (xs : list A) : bool :=
  match xs with
  | [] => false
  | x :: rest => if decide (x ∈ seen) then true else any_repeated ({[x]} ∪ seen) rest
  end.

Section lists.
Context {A : Type}.

Lemma take_while_Forall (p : A -> bool) l : Forall (fun x => p x = true) (take_while p l).
Proof.
  induction l as [|x l IH]; simpl; [constructor|].
  destruct (p x) eqn:E; constructor; auto.
Qed.

Lemma take_while_all (p : A -> bool) l :
  Forall (fun x => p x = true) l -> take_while p l = l.
Proof.
  induction 1 as [|x l Hx _ IH]; simpl; [done|]. by rewrite Hx, IH.
Qed.

Lemma take_while_app (p : A -> bool) l1 l2 :
  Forall (fun x => p x = true) l1 -> take_while p (l1 ++ l2) = l1 ++ take_while p l2.
Proof.
  induction 1 as [|x l Hx _ IH]; simpl; [done|]. by rewrite Hx, IH.
Qed.

Lemma take_while_prefix (p : A -> bool) l : exists k, l = take_while p l ++ k.
Proof.
  induction l as [|x l [k IH]]; simpl; [by exists []|].
  destruct (p x); [exists k; simpl; by f_equal|by exists (x :: l)].
Qed.

Lemma list_filter_all (P : A -> Prop) `{!forall x, Decision (P x)} (l : list A) :
  Forall P l -> filter P l = l.
Proof. induction 1 as [|x l Hx _ IH]; [done|]. by rewrite filter_cons_True, IH. Qed.

Lemma list_filter_none (P : A -> Prop) `{!forall x, Decision (P x)} (l : list A) :
  Forall (fun x => ~ P x) l -> filter P l = [].
Proof. induction 1 as [|x l Hx _ IH]; [done|]. by rewrite filter_cons_False, IH. Qed.

Lemma any_repeated_spec `{Countable A} (seen : gset A) l :
  any_repeated seen l = false <-> NoDup l /\ (forall x, x ∈ l -> x ∉ seen).
Proof.
  revert seen. induction l as [|x l IH]; intros seen; simpl.
  { split; [intros _; split; [constructor|set_solver]|done]. }
  case_decide as Hx.
  - split; [done|]. intros [_ Hs]. exfalso. by apply (Hs x); [left|].
  - split.
    + intros [Hnd Hs]%IH. split; [constructor; set_solver|set_solver].
    + intros [Hnd Hs]. inversion Hnd; subst. apply IH. split; [done|set_solver].
Qed.

Lemma any_repeated_NoDup `{Countable A} (l : list A) :
  any_repeated ∅ l = false <-> NoDup l.
Proof. rewrite any_repeated_spec. set_solver. Qed.

End lists.

Lemma nodup_keys_filter {A B} (P : A * B -> Prop) `{!forall x, Decision (P x)} (l : list (A * B)) :
  NoDup l.*1 -> NoDup (filter P l).*1.
Proof.
  induction l as [|x l IH]; [done|]. rewrite fmap_cons, NoDup_cons. intros [Hx Hl].
  destruct (decide (P x)); [rewrite filter_cons_True by done|rewrite filter_cons_False by done; auto].
  rewrite fmap_cons, NoDup_cons. split; [|auto].
  intros (y & Hy & [_ Hin]%list_elem_of_filter)%list_elem_of_fmap. apply Hx. rewrite Hy. by apply list_elem_of_fmap_2.
Qed.

Section maps.
Context {K V : Type} `{Countable K}.

Lemma fold_insert_notin (l : list (K * V)) (m : gmap K V) k :
  k ∉ l.*1 -> fold_left (fun m kv => <[kv.1 := kv.2]> m) l m !! k = m !! k.
Proof.
  revert m. induction l as [|[k' v'] l IH]; intros m Hk; simpl; [done|].
  rewrite IH by set_solver. rewrite lookup_insert_ne; [done|set_solver].
Qed.

Lemma collect_map_snoc (l : list (K * V)) k v :
  collect_map (l ++ [(k, v)]) = <[k := v]> (collect_map l).
Proof. unfold collect_map. by rewrite fold_left_app. Qed.

Lemma collect_map_lookup (l : list (K * V)) k v :
  NoDup l.*1 -> (k, v) ∈ l -> collect_map l !! k = Some v.
Proof.
  induction l as [|[k' v'] l IH] using rev_ind; [set_solver|].
  rewrite collect_map_snoc, fmap_app. intros Hnd Hin.
  apply NoDup_app in Hnd as (Hnd & Hdis & _).
  apply elem_of_app in Hin as [Hin|Hin].
  - rewrite lookup_insert_ne; [by apply IH|].
    intros ->. apply (Hdis k); [|set_solver].
    apply list_elem_of_fmap. by exists (k, v).
  - apply list_elem_of_singleton in Hin. simplify_eq. by rewrite lookup_insert_eq.
Qed.

Lemma collect_map_None (l : list (K * V)) k : k ∉ l.*1 -> collect_map l !! k = None.
Proof. intros Hk. unfold collect_map. by rewrite fold_insert_notin. Qed.

Lemma collect_map_dom (l : list (K * V)) k : is_Some (collect_map l !! k) <-> k ∈ l.*1.
Proof.
  induction l as [|[k' v'] l IH] using rev_ind.
  { split; [intros [? Hl]; unfold collect_map in Hl; simpl in Hl; by rewrite lookup_empty in Hl|set_solver]. }
  rewrite collect_map_snoc, fmap_app, elem_of_app. destruct (decide (k' = k)) as [->|Hne].
  - rewrite lookup_insert_eq. set_solver.
  - rewrite lookup_insert_ne by done. rewrite IH. set_solver.
Qed.

Lemma collect_map_to_list (l : list (K * V)) :
  NoDup l.*1 -> map_to_list (collect_map l) ≡ₚ l.
Proof.
  induction l as [|[k v] l IH] using rev_ind; intros Hnd.
  { unfold collect_map. simpl. by rewrite map_to_list_empty. }
  rewrite fmap_app in Hnd. apply NoDup_app in Hnd as (Hnd & Hdis & _).
  rewrite collect_map_snoc, map_to_list_insert.
  - rewrite IH by done. rewrite Permutation_app_comm. done.
  - apply collect_map_None. intros Hk. apply (Hdis k Hk). set_solver.
Qed.

Lemma get_or_insert_eq d (m : gmap K V) k v : get_or d (<[k := v]> m) k = v.
Proof. unfold get_or. by rewrite lookup_insert_eq. Qed.

Lemma get_or_insert_ne d (m : gmap K V) k k' v :
  k <> k' -> get_or d (<[k := v]> m) k' = get_or d m k'.
Proof. intros. unfold get_or. by rewrite lookup_insert_ne. Qed.

Lemma get_or_empty d k : get_or d (∅ : gmap K V) k = d.
Proof. done. Qed.

Lemma entry_update_eq d f (m : gmap K V) k :
  get_or d (entry_update d f k m) k = f (get_or d m k).
Proof. apply get_or_insert_eq. Qed.

Lemma entry_update_ne d f (m : gmap K V) k k' :
  k <> k' -> get_or d (entry_update d f k m) k' = get_or d m k'.
Proof. apply get_or_insert_ne. Qed.

End maps.

(** * Automation *)

(** Lemmas that rewrite map accesses, and lemmas on machine integers. *)
Create HintDb rust.
Create Rewrite HintDb rust.
#[export] Hint Rewrite @get_or_insert_eq @get_or_empty @entry_update_eq : rust.
#[export] Hint Rewrite @get_or_insert_ne @entry_update_ne using done : rust.
#[export] Hint Resolve wrap64_range : rust.

(** Splits every conditional, option and result the goal or a hypothesis
    branches on, and drops the impossible branches. *)
Ltac branches :=
  repeat (first
    [ progress simplify_eq/=
    | case_match
    | discriminate ]).
