(* ===== verification/Text.v ===== *)
(** * Text

    The [str] methods that the sources use.  A string is the list of its bytes;
    [trim] removes ASCII white space, which is all the white space of an ASCII
    string.  Text that comes as bytes from the network is decoded to the list of
    its [char]s by [from_utf8]; there [trim] removes every Unicode white space. *)

From Stdlib Require Import Ascii String.
From stdpp Require Import pretty.
From S2P Require Export Prelude.
Local Open Scope rust_scope.

(** ** Strings *)

(** ASCII white space, what [trim] removes from an ASCII string. *)
Definition is_space (c : ascii) : bool :=
  let n := N_of_ascii c in ((9 <=? n) && (n <=? 13) || (n =? 32))%N.

Fixpoint is_blank (s : string) : bool :=
  match s with
  | EmptyString => true
  | String c s => is_space c && is_blank s
  end.

(** [split(sep)]. *)
Fixpoint split_char (sep : ascii) (s : string) : list string :=
  match s with
  | EmptyString => [""]
  | String c s =>
      if decide (c = sep) then "" :: split_char sep s
      else match split_char sep s with
           | [] => [String c ""]
           | x :: l => String c x :: l
           end
  end.
Definition split_commas : string -> list string := split_char ",".

(** [split_once(sep)]. *)
Fixpoint split_once (sep : ascii) (s : string) : option (string * string) :=
  match s with
  | EmptyString => None
  | String c s =>
      if decide (c = sep) then Some ("", s)
      else match split_once sep s with
           | Some (a, b) => Some (String c a, b)
           | None => None
           end
  end.

Fixpoint trim_start (s : string) : string :=
  match s with
  | EmptyString => EmptyString
  | String c t => if is_space c then trim_start t else s
  end.
Definition trim (s : string) : string := String.rev (trim_start (String.rev (trim_start s))).

(** [parse::<uN>()]: an optional plus sign and decimal digits, [max] at most. *)
Definition digit_value (c : Z) : option Z :=
  if ((48 <=? c) && (c <=? 57))%Z then Some (c - 48)%Z else None.

Fixpoint parse_digits (max acc : Z) (s : list Z) : option Z :=
  match s with
  | [] => Some acc
  | c :: s =>
      match digit_value c with
      | None => None
      | Some d => let acc := (acc * 10 + d)%Z in
                  if (acc <=? max)%Z then parse_digits max acc s else None
      end
  end.

Definition parse_unsigned (max : Z) (s : list Z) : option Z :=
  match s with
  | [] => None
  | c :: t => if (c =? 43)%Z then (match t with [] => None | _ => parse_digits max 0 t end)
              else parse_digits max 0 s
  end.

Definition codes (s : string) : list Z := map (fun c => Z.of_nat (nat_of_ascii c)) (String.list_ascii_of_string s).

Definition parse_u32 (s : string) : option Z := parse_unsigned U32_MAX (codes s).
Definition parse_u64 (s : string) : option Z := parse_unsigned U64_MAX (codes s).

(** ** ASCII text *)

Definition code (c : ascii) : Z := Z.of_N (N_of_ascii c).
Definition char_of (z : Z) : ascii := ascii_of_N (Z.to_N z).

Fixpoint to_ascii_lowercase (s : string) : string :=
  match s with
  | EmptyString => EmptyString
  | String c s =>
      String (if ((65 <=? code c) && (code c <=? 90))%Z then char_of (code c + 32) else c) (to_ascii_lowercase s)
  end.

Fixpoint str_strip_prefix (prefix s : string) : option string :=
  match prefix, s with
  | EmptyString, _ => Some s
  | String p prefix, String c s => if decide (p = c) then str_strip_prefix prefix s else None
  | String _ _, EmptyString => None
  end.
Definition str_strip_suffix (suffix s : string) : option string :=
  String.rev <$> str_strip_prefix (String.rev suffix) (String.rev s).

(** The value of a hexadecimal digit, lower or upper case. *)
Definition hex_value (c : ascii) : option Z :=
  let z := code c in
  if ((48 <=? z) && (z <=? 57))%Z then Some (z - 48)%Z
  else if ((97 <=? z) && (z <=? 102))%Z then Some (z - 87)%Z
  else if ((65 <=? z) && (z <=? 70))%Z then Some (z - 55)%Z
  else None.

(** [chars().all(|c| c.is_ascii_hexdigit())]. *)
Fixpoint all_hex_digits (s : string) : bool :=
  match s with
  | EmptyString => true
  | String c s => bool_decide (is_Some (hex_value c)) && all_hex_digits s
  end.

(** ** Characters *)

Definition is_cont (b : Z) : bool := ((128 <=? b) && (b <=? 191))%Z.
Definition between (lo b hi : Z) : bool := ((lo <=? b) && (b <=? hi))%Z.

(** [std::str::from_utf8]: the characters of well-formed UTF-8 (no overlong forms,
    no surrogates, nothing above U+10FFFF). *)
Fixpoint from_utf8 (l : list Z) : option (list Z) :=
  match l with
  | [] => Some []
  | a :: l =>
      if (a <=? 127)%Z then (cons a) <$> from_utf8 l else
      match l with
      | [] => None
      | b :: l =>
          if between 194 a 223 then
            if is_cont b then (cons ((a - 192) * 64 + (b - 128))%Z) <$> from_utf8 l else None
          else
          match l with
          | [] => None
          | c :: l =>
              if between 224 a 239 then
                if (if (a =? 224)%Z then between 160 b 191 else if (a =? 237)%Z then between 128 b 159 else is_cont b)
                   && is_cont c
                then (cons ((a - 224) * 4096 + (b - 128) * 64 + (c - 128))%Z) <$> from_utf8 l else None
              else
              match l with
              | [] => None
              | d :: l =>
                  if between 240 a 244 then
                    if (if (a =? 240)%Z then between 144 b 191 else if (a =? 244)%Z then between 128 b 143 else is_cont b)
                       && is_cont c && is_cont d
                    then (cons ((a - 240) * 262144 + (b - 128) * 4096 + (c - 128) * 64 + (d - 128))%Z) <$> from_utf8 l
                    else None
                  else None
              end
          end
      end
  end.

(** [char::is_whitespace]: the Unicode property White_Space. *)
Definition is_whitespace (c : Z) : bool :=
  between 9 c 13 || (c =? 32)%Z || (c =? 133)%Z || (c =? 160)%Z || (c =? 5760)%Z || between 8192 c 8202
  || (c =? 8232)%Z || (c =? 8233)%Z || (c =? 8239)%Z || (c =? 8287)%Z || (c =? 12288)%Z.

Fixpoint drop_chars (p : Z -> bool) (s : list Z) : list Z :=
  match s with
  | [] => []
  | c :: t => if p c then drop_chars p t else s
  end.
Definition trim_matches (p : Z -> bool) (s : list Z) : list Z := rev (drop_chars p (rev (drop_chars p s))).

(** [strip_prefix] and [split(',')]. *)
Fixpoint strip_prefix_chars (prefix s : list Z) : option (list Z) :=
  match prefix, s with
  | [], _ => Some s
  | p :: prefix, c :: s => if (p =? c)%Z then strip_prefix_chars prefix s else None
  | _ :: _, [] => None
  end.

Fixpoint split_chars (sep : Z) (s : list Z) : list (list Z) :=
  match s with
  | [] => [[]]
  | c :: s =>
      if (c =? sep)%Z then [] :: split_chars sep s
      else match split_chars sep s with
           | [] => [[c]]
           | x :: l => (c :: x) :: l
           end
  end.
