(* ===== verification/HashChain.v ===== *)
(** * Chains of hashes over identities

    Both implementations of the protocol bind a path to its transaction by a chain
    of hashes: the hash of a prefix and the origin, then one link per relay.  This
    file holds the shape they share, for a hash function [H] with 32-byte digests:
    as long as no two of the strings hashed on the way collide, equal chains have
    the same prefix and the same identities. *)

From S2P Require Export Prelude.

Lemma fold_left_map {A B C} (f : A -> B -> A) (g : C -> B) (l : list C) : forall a,
  fold_left f (map g l) a = fold_left (fun a c => f a (g c)) l a.
Proof. induction l as [|c l IH]; intros a; simpl; [done|]. apply IH. Qed.

Section hash_chain.
Context (H : bytes -> bytes).

Definition chain_link (c id : bytes) : bytes := H (c ++ H id).

(** The chain over the encoded identities [ids], starting from [pre]. *)
Definition hash_chain (pre : bytes) (ids : list bytes) : bytes :=
  match ids with
  | [] => H pre
  | o :: rest => fold_left chain_link rest (H (pre ++ H o))
  end.

Fixpoint link_inputs (c : bytes) (rest : list bytes) : list bytes :=
  match rest with
  | [] => []
  | id :: rest => (c ++ H id) :: link_inputs (chain_link c id) rest
  end.

(** Every string hashed while computing the chain. *)
Definition hash_chain_inputs (pre : bytes) (ids : list bytes) : list bytes :=
  ids ++ match ids with
         | [] => []
         | o :: rest => (pre ++ H o) :: link_inputs (H (pre ++ H o)) rest
         end.

Definition no_collision (l : list bytes) : Prop := forall a b, a ∈ l -> b ∈ l -> H a = H b -> a = b.

Lemma no_collision_sub l l' : (forall a, a ∈ l -> a ∈ l') -> no_collision l' -> no_collision l.
Proof. intros Hs Hc a b Ha Hb. apply Hc; auto. Qed.

Lemma link_inputs_snoc rest : forall c id,
  link_inputs c (rest ++ [id]) = link_inputs c rest ++ [fold_left chain_link rest c ++ H id].
Proof. induction rest as [|x rest IH]; intros; simpl; [done|]. by rewrite IH. Qed.

Lemma hash_chain_snoc pre ids id : ids <> [] -> hash_chain pre (ids ++ [id]) = H (hash_chain pre ids ++ H id).
Proof. destruct ids as [|o rest]; [done|]. intros _. simpl. by rewrite fold_left_app. Qed.

Lemma hash_chain_inputs_snoc pre ids id a : ids <> [] ->
  a ∈ hash_chain_inputs pre (ids ++ [id]) <->
  a ∈ hash_chain_inputs pre ids \/ a = id \/ a = hash_chain pre ids ++ H id.
Proof.
  intros Hne. destruct ids as [|o rest]; [done|]. unfold hash_chain_inputs.
  rewrite <- app_comm_cons, link_inputs_snoc. cbn [hash_chain]. set_unfold. tauto.
Qed.

(** An executable check. *)
Definition collision_check (l : list bytes) : bool :=
  let hashed := map (fun a => (a, H a)) l in
  forallb (fun x => forallb (fun y => negb (bool_decide (x.2 = y.2)) || bool_decide (x.1 = y.1)) hashed) hashed.

Lemma collision_check_sound l : collision_check l = true -> no_collision l.
Proof.
  unfold collision_check. intros Hc a b Ha Hb E. rewrite forallb_forall in Hc.
  apply (list_elem_of_fmap_2 (fun a => (a, H a))), list_elem_of_In in Ha, Hb.
  specialize (Hc _ Ha). rewrite forallb_forall in Hc. specialize (Hc _ Hb). simpl in Hc.
  rewrite (bool_decide_true _ E) in Hc. simpl in Hc. by apply bool_decide_eq_true in Hc.
Qed.

Context (Hlen : forall x, length (H x) = 32).

Lemma hash_chain_length pre ids : length (hash_chain pre ids) = 32.
Proof.
  destruct ids as [|id ids _] using rev_ind; [apply Hlen|].
  destruct ids as [|o rest]; [apply Hlen|]. rewrite hash_chain_snoc by done. apply Hlen.
Qed.

(** A prefix is not mistaken for a link as long as it is not 32 bytes long. *)
Lemma hash_chain_inj pre1 pre2 l1 : length pre1 <> 32 -> length pre2 <> 32 -> forall l2,
  l1 <> [] -> l2 <> [] -> no_collision (hash_chain_inputs pre1 l1 ++ hash_chain_inputs pre2 l2) ->
  hash_chain pre1 l1 = hash_chain pre2 l2 -> pre1 = pre2 /\ l1 = l2.
Proof.
  intros Hp1 Hp2. induction l1 as [|n1 l1 IH] using rev_ind; [done|].
  intros l2 _ Hn2 Hcf E. destruct l2 as [|n2 l2 _] using rev_ind; [done|].
  assert (Hid : forall x y, x ∈ l1 ++ [n1] -> y ∈ l2 ++ [n2] -> H x = H y -> x = y).
  { intros x y Hx Hy. apply Hcf; apply elem_of_app; [left|right]; apply elem_of_app; by left. }
  assert (Hn : forall (l : list bytes) n, n ∈ l ++ [n]) by (intros; set_solver).
  assert (Htop : forall a b, a ∈ hash_chain_inputs pre1 (l1 ++ [n1]) -> b ∈ hash_chain_inputs pre2 (l2 ++ [n2]) ->
    H a = H b -> a = b) by (intros a b Ha Hb; apply Hcf; apply elem_of_app; auto).
  assert (Hend : forall pre l n, (if decide (l = []) then pre else hash_chain pre l) ++ H n
    ∈ hash_chain_inputs pre (l ++ [n])).
  { intros pre l n. case_decide as Hl; [subst; simpl; set_solver|]. rewrite hash_chain_inputs_snoc by done. auto. }
  assert (Hlast : forall pre l n, hash_chain pre (l ++ [n])
    = H ((if decide (l = []) then pre else hash_chain pre l) ++ H n)).
  { intros pre l n. case_decide as Hl; [by subst|]. by rewrite hash_chain_snoc. }
  rewrite !Hlast in E. apply Htop in E; [|apply Hend..].
  apply app_inj_2 in E as [E Eid]; [|by rewrite !Hlen]. apply Hid in Eid as ->; [|apply Hn..].
  destruct (decide (l1 = [])) as [->|Hl1], (decide (l2 = [])) as [->|Hl2].
  - done.
  - exfalso. apply Hp1. rewrite E. apply hash_chain_length.
  - exfalso. apply Hp2. rewrite <- E. apply hash_chain_length.
  - destruct (IH l2) as [-> ->]; [done|done| |done|done].
    eapply no_collision_sub; [|exact Hcf]. intros a. rewrite !elem_of_app, !hash_chain_inputs_snoc by done. tauto.
Qed.

End hash_chain.
