(* ===== verification/Num.v ===== *)
(** * Floating-point numbers

    The simulator computes with [f64].  Every definition of the development
    that handles an [f64] is written once against the class [F64], which lists
    the operations of [f64] the source uses, and is read at two instances:

    - [F64_float], IEEE binary64 (the kernel's primitive floats), the numbers of
      the program: it runs, and theorems about rounding, NaN and concrete
      inputs are stated there;
    - [F64_R], exact real arithmetic, which gives the formulas their
      mathematical meaning: identities and inequalities of the protocol
      (budgets, bounds, conservation) are stated there, free of rounding.

    Theorems that do not depend on arithmetic are proved for every instance. *)

From Stdlib Require Import Reals Lra.
From Stdlib Require Import Floats.
From S2P Require Export Prelude.

Class F64 (F : Type) := MkF64 {
  (** [n as f64] of an integer *)
  f_of_Z : Z -> F;
  (** the decimal literal [m * 10^-k] *)
  f_dec : Z -> nat -> F;
  f_add : F -> F -> F;
  f_sub : F -> F -> F;
  f_mul : F -> F -> F;
  f_div : F -> F -> F;
  f_neg : F -> F;
  (** [a < b], [a <= b], [a == b]: all false on a NaN *)
  f_ltb : F -> F -> bool;
  f_leb : F -> F -> bool;
  f_eqb : F -> F -> bool;
  (** [f64::max] and [f64::min], which ignore a NaN *)
  f_max : F -> F -> F;
  f_min : F -> F -> F;
  f_powi : F -> Z -> F;
  f_ln : F -> F;
  f_exp : F -> F;
  f_is_finite : F -> bool;
  (** the largest integer not above, the smallest not below, and the nearest
      (halves away from zero) *)
  f_floor : F -> Z;
  f_ceil : F -> Z;
  f_round : F -> Z;
  (** [f64::EPSILON] *)
  f_epsilon : F
}.

Declare Scope f64_scope.
Delimit Scope f64_scope with f64.
Notation "x + y" := (f_add x y) : f64_scope.
Notation "x - y" := (f_sub x y) : f64_scope.
Notation "x * y" := (f_mul x y) : f64_scope.
Notation "x / y" := (f_div x y) : f64_scope.
Notation "x <=? y" := (f_leb x y) : f64_scope.
Notation "x <? y" := (f_ltb x y) : f64_scope.
Notation "x =? y" := (f_eqb x y) : f64_scope.

Section ops.
Context {F : Type} `{F64 F}.

Definition f0 : F := f_of_Z 0.
Definition f1 : F := f_of_Z 1.
Definition f2 : F := f_of_Z 2.

(** [a >= b] and [a > b]. *)
Definition f_geb (a b : F) : bool := f_leb b a.
Definition f_gtb (a b : F) : bool := f_ltb b a.

(** [iter().sum::<f64>()]: a left fold. *)
Definition fsum (l : list F) : F := fold_left f_add l f0.

(** [x.clamp(lo, hi)]. *)
Definition f_clamp (x lo hi : F) : F :=
  if f_ltb x lo then lo else if f_ltb hi x then hi else x.

End ops.

(** * Binary64 *)

(** Round to nearest even of an integer. *)
Definition float_of_Z (z : Z) : float := SF2Prim (binary_normalize prec emax z 0 false).

Definition float_floor (x : float) : Z :=
  match Prim2SF x with
  | S754_finite s m e =>
      let v := if s then Z.neg m else Z.pos m in
      if (0 <=? e)%Z then (v * 2 ^ e)%Z else (v / 2 ^ (- e))%Z
  | _ => 0%Z
  end.

(** The nearest integer, halves away from zero, computed exactly. *)
Definition float_round (x : float) : Z :=
  match Prim2SF x with
  | S754_finite s m e =>
      let a := if (0 <=? e)%Z then (Z.pos m * 2 ^ e)%Z
               else ((2 * Z.pos m + 2 ^ (- e)) / 2 ^ (1 - e))%Z in
      if s then (- a)%Z else a
  | _ => 0%Z
  end.

Definition float_max (a b : float) : float :=
  if is_nan a then b else if is_nan b then a else if (a <? b)%float then b else a.
Definition float_min (a b : float) : float :=
  if is_nan a then b else if is_nan b then a else if (b <? a)%float then b else a.

(** Square and multiply, as compiler-rt's [__powidf2]. *)
Fixpoint float_pow_pos (x : float) (p : positive) : float :=
  match p with
  | xH => x
  | xO p => float_pow_pos (x * x) p
  | xI p => (x * float_pow_pos (x * x) p)%float
  end.

Definition float_powi (x : float) (z : Z) : float :=
  match z with
  | Z0 => 1%float
  | Zpos p => float_pow_pos x p
  | Zneg p => (1 / float_pow_pos x p)%float
  end.

(** [ln] and [exp] come from the platform's [libm], which IEEE 754 does not
    fix: they are arguments of the instance. *)
Definition F64_float (libm_ln libm_exp : float -> float) : F64 float := {|
  f_of_Z := float_of_Z;
  f_dec m k := (float_of_Z m / float_of_Z (10 ^ Z.of_nat k))%float;
  f_add := PrimFloat.add;
  f_sub := PrimFloat.sub;
  f_mul := PrimFloat.mul;
  f_div := PrimFloat.div;
  f_neg := PrimFloat.opp;
  f_ltb := PrimFloat.ltb;
  f_leb := PrimFloat.leb;
  f_eqb := PrimFloat.eqb;
  f_max := float_max;
  f_min := float_min;
  f_powi := float_powi;
  f_ln := libm_ln;
  f_exp := libm_exp;
  f_is_finite := is_finite;
  f_floor := float_floor;
  f_ceil x := (- float_floor (- x)%float)%Z;
  f_round := float_round;
  f_epsilon := (1 / float_of_Z (2 ^ 52))%float
|}.

(** * Exact reals *)

Definition Rleb (x y : R) : bool := if Rle_dec x y then true else false.
Definition Rltb (x y : R) : bool := if Rlt_dec x y then true else false.
Definition Reqb (x y : R) : bool := if Req_dec_T x y then true else false.

(** The largest integer not above [x]. *)
Definition Rfloor (x : R) : Z := (up x - 1)%Z.

#[export] Instance F64_R : F64 R := {|
  f_of_Z := IZR;
  f_dec m k := (IZR m / 10 ^ k)%R;
  f_add := Rplus;
  f_sub := Rminus;
  f_mul := Rmult;
  f_div := Rdiv;
  f_neg := Ropp;
  f_ltb := Rltb;
  f_leb := Rleb;
  f_eqb := Reqb;
  f_max := Rmax;
  f_min := Rmin;
  f_powi := powerRZ;
  f_ln := ln;
  f_exp := exp;
  f_is_finite _ := true;
  f_floor := Rfloor;
  f_ceil x := (- Rfloor (- x))%Z;
  f_round x := if Rlt_dec x 0 then (- Rfloor (- x + / 2))%Z else Rfloor (x + / 2);
  f_epsilon := (/ 2 ^ 52)%R
|}.

Lemma Rleb_le x y : Rleb x y = true <-> (x <= y)%R.
Proof. unfold Rleb. destruct (Rle_dec x y); split; done. Qed.
Lemma Rltb_lt x y : Rltb x y = true <-> (x < y)%R.
Proof. unfold Rltb. destruct (Rlt_dec x y); split; done. Qed.
Lemma Rleb_gt x y : Rleb x y = false <-> (y < x)%R.
Proof. unfold Rleb. destruct (Rle_dec x y); split; try done; lra. Qed.
Lemma Rltb_ge x y : Rltb x y = false <-> (y <= x)%R.
Proof. unfold Rltb. destruct (Rlt_dec x y); split; try done; lra. Qed.

(** Turns the [f64] tests of hypotheses, read at the reals, into inequalities. *)
Ltac f64_cases :=
  repeat match goal with
  | H : Rleb _ _ = true |- _ => apply Rleb_le in H
  | H : Rltb _ _ = true |- _ => apply Rltb_lt in H
  | H : Rleb _ _ = false |- _ => apply Rleb_gt in H
  | H : Rltb _ _ = false |- _ => apply Rltb_ge in H
  | |- context [Rleb ?x ?y] => destruct (Rleb x y) eqn:?
  | |- context [Rltb ?x ?y] => destruct (Rltb x y) eqn:?
  end.

(** * Sums of reals *)

Section Rsum.
Local Open Scope R_scope.

Lemma fold_Rplus_acc (l : list R) a : fold_left Rplus l a = a + fold_left Rplus l 0.
Proof.
  revert a. induction l as [|x l IH]; intros a; simpl; [lra|].
  rewrite (IH (a + x)), (IH (0 + x)). lra.
Qed.

Lemma fsum_nil : fsum (F := R) [] = 0.
Proof. done. Qed.

Lemma fsum_cons (x : R) l : fsum (x :: l) = x + fsum l.
Proof. unfold fsum, f0; simpl. rewrite fold_Rplus_acc. lra. Qed.

Lemma fsum_app (l1 l2 : list R) : fsum (l1 ++ l2) = fsum l1 + fsum l2.
Proof. induction l1 as [|x l IH]; simpl; rewrite ?fsum_cons, ?fsum_nil; [lra|]. rewrite IH. lra. Qed.

Lemma fsum_perm (l1 l2 : list R) : l1 ≡ₚ l2 -> fsum l1 = fsum l2.
Proof. induction 1; rewrite ?fsum_cons in *; try lra; congruence. Qed.

(** A sum of reals does not depend on the iteration order of the map summed. *)
#[export] Instance fsum_Permutation : Proper (Permutation ==> eq) (fsum (F := R)).
Proof. intros l1 l2. apply fsum_perm. Qed.

Lemma fsum_map_perm {A} (f : A -> R) l1 l2 : l1 ≡ₚ l2 -> fsum (map f l1) = fsum (map f l2).
Proof. intros Hp. apply fsum_perm. by apply Permutation_map. Qed.

Lemma fsum_scale (c : R) l : fsum (map (fun x => c * x) l) = c * fsum l.
Proof. induction l as [|x l IH]; simpl; rewrite ?fsum_cons, ?fsum_nil; [lra|]. rewrite IH. lra. Qed.

Lemma fsum_map_ext {A} (f g : A -> R) l :
  (forall x, x ∈ l -> f x = g x) -> fsum (map f l) = fsum (map g l).
Proof.
  induction l as [|x l IH]; intros Hfg; simpl; [done|].
  rewrite !fsum_cons, (Hfg x), IH; [done| |left]. intros; apply Hfg; by right.
Qed.

Lemma fsum_map_scale {A} (c : R) (f : A -> R) l :
  fsum (map (fun x => c * f x) l) = c * fsum (map f l).
Proof. rewrite <- fsum_scale. by rewrite map_map. Qed.

Lemma fsum_map_le {A} (f g : A -> R) l :
  (forall x, x ∈ l -> f x <= g x) -> fsum (map f l) <= fsum (map g l).
Proof.
  induction l as [|x l IH]; intros Hfg; simpl; [lra|].
  rewrite !fsum_cons. apply Rplus_le_compat; [apply Hfg; left|apply IH; intros; apply Hfg; by right].
Qed.

Lemma fsum_map_nonneg {A} (f : A -> R) l :
  (forall x, x ∈ l -> 0 <= f x) -> 0 <= fsum (map f l).
Proof.
  intros Hf. induction l as [|x l IH]; simpl; [rewrite fsum_nil; lra|].
  rewrite fsum_cons. assert (0 <= f x) by (apply Hf; left).
  assert (0 <= fsum (map f l)) by (apply IH; intros; apply Hf; by right). lra.
Qed.

Lemma fsum_map_plus {A} (f g : A -> R) l :
  fsum (map (fun x => f x + g x) l) = fsum (map f l) + fsum (map g l).
Proof. induction l as [|x l IH]; simpl; rewrite ?fsum_cons, ?fsum_nil; [lra|]. rewrite IH. lra. Qed.

Lemma Rdiv_le_of_mul x y z : 0 < y -> x <= z * y -> x / y <= z.
Proof.
  intros Hy Hxz. apply Rmult_le_reg_r with y; [done|]. unfold Rdiv.
  rewrite Rmult_assoc, Rinv_l by lra. lra.
Qed.

End Rsum.

Create Rewrite HintDb f64.
#[export] Hint Rewrite fsum_cons fsum_nil fsum_app @fsum_map_scale : f64.
