(* ===== verification/Formulas.v ===== *)
(** * The reward and score formulas of TopoStake

    The associated functions of [TopoStakeConsensus]
    (src/src/consensus/topostake.rs) that compute path budgets, relay shares,
    cost weights, bonuses and saturated contributions.  They are stated for any
    [F64] instance; their algebra is proved at the reals. *)

From Stdlib Require Import Reals Lra.
From S2P Require Export Num.

Section formulas.
Context {F : Type} `{F64 F}.
Local Open Scope f64_scope.

Definition f_of_nat (n : nat) : F := f_of_Z (Z.of_nat n).

(** [n as i32 - 1], the exponent handed to [powi]. *)
Definition powi_pred (n : nat) : Z := as_i32 (as_i32 (Z.of_nat n) - 1).

Definition lambda_for_depth (depth : nat) : F :=
  let d := f_of_nat depth in
  (f2 * d + f1) / (f_of_Z 3 * d + f1).

Definition r_for_depth (depth : nat) : F :=
  let d := f_of_nat depth in
  d / (f2 * d + f1).

Definition path_budget_for_depth (depth path_length : nat) : F :=
  if decide (path_length < 2) then f0 else
  let d := f_of_nat depth in
  let m := f_of_nat path_length in
  let lambda := lambda_for_depth depth in
  f_min d m / m * f_powi lambda (powi_pred path_length).

Definition alpha_for_depth (depth position path_length : nat) : F :=
  if decide (path_length < 2 \/ position = 0 \/ path_length <= position) then f0 else
  let r := r_for_depth depth in
  let numerator := (f1 - r) * f_powi r (powi_pred position) in
  let denominator := f1 - f_powi r (powi_pred path_length) in
  numerator / denominator.

Definition gamma_for_depth (depth position path_length : nat) : F :=
  path_budget_for_depth depth path_length * alpha_for_depth depth position path_length.

Definition transaction_credit_weight (irrecoverable_cost reference_cost : F) : F :=
  if (irrecoverable_cost <=? f0) || (reference_cost <=? f0) then f0
  else f_min (irrecoverable_cost / reference_cost) f1.

Definition propagation_bonus (score_to_stake bonus_cap zeta : F) : F :=
  if (score_to_stake <=? f0) || (bonus_cap <=? f0) || (zeta <=? f0) then f0
  else bonus_cap * score_to_stake / (zeta + score_to_stake).

Definition saturated_contribution (raw normalized_stake saturation_k : F) : F :=
  if (raw <=? f0) || (normalized_stake <=? f0) then f0
  else normalized_stake * f_ln (f1 + raw / (saturation_k * normalized_stake)).

End formulas.

(** The relay positions of a path of [path_length] edges: [1..path_length]. *)
Definition relay_positions (path_length : nat) : list nat := seq 1 (path_length - 1).

(** * The formulas over the reals *)

Section reals.
Local Open Scope R_scope.

(** Paths are far below the range of [i32], so the exponent does not wrap. *)
Definition path_fits (m : nat) : Prop := (Z.of_nat m < 2 ^ 31)%Z.

Lemma powi_pred_pos (x : R) (n : nat) :
  (1 <= n)%nat -> path_fits n -> f_powi x (powi_pred n) = x ^ (n - 1).
Proof.
  intros Hn Hf. unfold powi_pred, path_fits in *.
  rewrite (as_i32_small (Z.of_nat n)) by lia. rewrite as_i32_small by lia.
  replace (Z.of_nat n - 1)%Z with (Z.of_nat (n - 1)) by lia.
  simpl. by rewrite pow_powerRZ.
Qed.

Definition lam (D : nat) : R := (2 * INR D + 1) / (3 * INR D + 1).
Definition rr (D : nat) : R := INR D / (2 * INR D + 1).

Lemma lambda_R D : lambda_for_depth (F := R) D = lam D.
Proof. unfold lambda_for_depth, f_of_nat, lam, f2, f1; simpl. by rewrite <- INR_IZR_INZ. Qed.
Lemma r_R D : r_for_depth (F := R) D = rr D.
Proof. unfold r_for_depth, f_of_nat, rr, f2, f1; simpl. by rewrite <- INR_IZR_INZ. Qed.

Lemma rr_bounds D : 0 <= rr D < / 2.
Proof.
  unfold rr. pose proof (pos_INR D). split.
  - apply Rmult_le_pos; [lra|]. left. apply Rinv_0_lt_compat. lra.
  - apply Rmult_lt_reg_r with (2 * INR D + 1); [lra|].
    unfold Rdiv. rewrite Rmult_assoc, Rinv_l by lra. lra.
Qed.

Lemma rr_pos D : (1 <= D)%nat -> 0 < rr D.
Proof.
  intros HD. apply le_INR in HD. simpl in HD. unfold rr.
  apply Rdiv_lt_0_compat; lra.
Qed.

Lemma lam_rr D : lam D * (1 + rr D) = 1.
Proof. unfold lam, rr. pose proof (pos_INR D). field. lra. Qed.

Lemma lam_bounds D : 0 < lam D <= 1.
Proof.
  pose proof (lam_rr D). pose proof (rr_bounds D). unfold lam.
  pose proof (pos_INR D). split; [apply Rdiv_lt_0_compat; lra|].
  apply Rmult_le_reg_r with (3 * INR D + 1); [lra|].
  unfold Rdiv. rewrite Rmult_assoc, Rinv_l by lra. lra.
Qed.

(** The depth factor [min(D, m) / m]. *)
Definition depth_factor (D m : nat) : R := Rmin (INR D) (INR m) / INR m.

Lemma depth_factor_bounds D m : (1 <= m)%nat -> 0 <= depth_factor D m <= 1.
Proof.
  intros Hm. apply le_INR in Hm. simpl in Hm. unfold depth_factor.
  pose proof (pos_INR D). pose proof (Rmin_r (INR D) (INR m)).
  assert (0 <= Rmin (INR D) (INR m)) by (apply Rmin_glb; lra). split.
  - apply Rmult_le_pos; [done|]. left. apply Rinv_0_lt_compat. lra.
  - apply Rmult_le_reg_r with (INR m); [lra|].
    unfold Rdiv. rewrite Rmult_assoc, Rinv_l by lra. lra.
Qed.

Lemma depth_factor_pos D m : (1 <= D)%nat -> (1 <= m)%nat -> 0 < depth_factor D m.
Proof.
  intros HD Hm. apply le_INR in HD, Hm. simpl in *. unfold depth_factor.
  apply Rdiv_lt_0_compat; [|lra]. apply Rmin_glb_lt; lra.
Qed.

Lemma depth_factor_antitone D m k : (1 <= m)%nat -> depth_factor D (m + k) <= depth_factor D m.
Proof.
  intros Hm. apply le_INR in Hm. simpl in Hm. unfold depth_factor.
  rewrite plus_INR. pose proof (pos_INR D). pose proof (pos_INR k).
  assert (Hd : forall a b, 0 < a -> a <= b -> INR D / b <= INR D / a).
  { intros a b Ha Hab. unfold Rdiv. apply Rmult_le_compat_l; [lra|]. by apply Rinv_le_contravar. }
  unfold Rmin. destruct (Rle_dec (INR D) (INR m + INR k)), (Rle_dec (INR D) (INR m)).
  - apply Hd; lra.
  - replace (INR m / INR m) with 1 by (field; lra).
    apply Rmult_le_reg_r with (INR m + INR k); [lra|]. unfold Rdiv.
    rewrite Rmult_assoc, Rinv_l by lra. lra.
  - lra.
  - right. field. lra.
Qed.

Lemma budget_R D m : (2 <= m)%nat -> path_fits m ->
  path_budget_for_depth (F := R) D m = depth_factor D m * lam D ^ (m - 1).
Proof.
  intros Hm Hf. unfold path_budget_for_depth. rewrite decide_False by lia.
  rewrite powi_pred_pos by (done || lia). rewrite lambda_R.
  unfold f_of_nat, depth_factor; simpl. by rewrite <- !INR_IZR_INZ.
Qed.

Lemma pow_lt_1_rr D n : (1 <= n)%nat -> 0 <= rr D ^ n < 1.
Proof.
  intros Hn. pose proof (rr_bounds D). split; [apply pow_le; lra|].
  destruct n as [|n]; [lia|]. simpl.
  assert (rr D ^ n <= 1) by (rewrite <- (pow1 n); apply pow_incr; lra).
  assert (0 <= rr D ^ n) by (apply pow_le; lra).
  apply Rle_lt_trans with (rr D * 1); [apply Rmult_le_compat_l; lra|lra].
Qed.

Lemma alpha_R D i m : (1 <= i < m)%nat -> path_fits m ->
  alpha_for_depth (F := R) D i m = (1 - rr D) * rr D ^ (i - 1) / (1 - rr D ^ (m - 1)).
Proof.
  intros Hi Hf. unfold alpha_for_depth. rewrite decide_False by lia.
  assert (path_fits i) by (unfold path_fits in *; lia).
  rewrite !powi_pred_pos by (done || lia). by rewrite r_R.
Qed.

Lemma gamma_R D i m : (1 <= i < m)%nat -> path_fits m ->
  gamma_for_depth (F := R) D i m
  = depth_factor D m * lam D ^ (m - 1) * ((1 - rr D) / (1 - rr D ^ (m - 1))) * rr D ^ (i - 1).
Proof.
  intros Hi Hf. unfold gamma_for_depth. rewrite budget_R, alpha_R by (done || lia).
  pose proof (pow_lt_1_rr D (m - 1) ltac:(lia)). simpl. field. lra.
Qed.

(** The common factor of the relay shares of one path. *)
Definition relay_unit (D m : nat) : R :=
  depth_factor D m * lam D ^ (m - 1) * ((1 - rr D) / (1 - rr D ^ (m - 1))).

Lemma relay_unit_nonneg D m : (2 <= m)%nat -> 0 <= relay_unit D m.
Proof.
  intros Hm. unfold relay_unit. pose proof (depth_factor_bounds D m ltac:(lia)).
  pose proof (lam_bounds D). pose proof (rr_bounds D).
  pose proof (pow_lt_1_rr D (m - 1) ltac:(lia)).
  apply Rmult_le_pos; [apply Rmult_le_pos; [lra|apply pow_le; lra]|].
  apply Rmult_le_pos; [lra|]. left. apply Rinv_0_lt_compat. lra.
Qed.

Lemma gamma_unit D i m : (1 <= i < m)%nat -> path_fits m ->
  gamma_for_depth (F := R) D i m = relay_unit D m * rr D ^ (i - 1).
Proof. apply gamma_R. Qed.

Lemma gamma_outside D i m : ~ (1 <= i < m)%nat -> gamma_for_depth (F := R) D i m = 0.
Proof.
  intros Hi. unfold gamma_for_depth, alpha_for_depth. rewrite decide_True by lia.
  unfold f0; simpl. lra.
Qed.

Lemma gamma_nonneg D i m : path_fits m -> 0 <= gamma_for_depth (F := R) D i m.
Proof.
  intros Hf. destruct (decide (1 <= i < m)%nat) as [Hi|Hi].
  - rewrite gamma_unit by done. apply Rmult_le_pos; [apply relay_unit_nonneg; lia|].
    apply pow_le. apply rr_bounds.
  - rewrite gamma_outside by done. lra.
Qed.

(** Geometric sums over consecutive positions. *)
Lemma geom_sum (r : R) a n :
  (1 - r) * fsum (map (fun i => r ^ (i - 1)) (seq (S a) n)) = r ^ a * (1 - r ^ n).
Proof.
  revert a. induction n as [|n IH]; intros a; cbn [seq map].
  - rewrite fsum_nil. simpl. lra.
  - rewrite fsum_cons, Rmult_plus_distr_l, IH. rewrite Nat.sub_succ, Nat.sub_0_r.
    rewrite <- !tech_pow_Rmult. ring.
Qed.

End reals.

(** * Properties of the formulas *)

Section properties.
Local Open Scope R_scope.

Lemma relay_shares_sum D m : (2 <= m)%nat -> path_fits m ->
  fsum (map (fun i => gamma_for_depth (F := R) D i m) (relay_positions m))
  = path_budget_for_depth D m.
Proof.
  intros Hm Hf. unfold relay_positions.
  rewrite (fsum_map_ext _ (fun i => relay_unit D m * rr D ^ (i - 1))).
  2:{ intros i Hi%elem_of_seq. apply gamma_unit; [lia|done]. }
  rewrite fsum_map_scale. pose proof (geom_sum (rr D) 0 (m - 1)) as Hg.
  rewrite budget_R by done. unfold relay_unit.
  pose proof (pow_lt_1_rr D (m - 1) ltac:(lia)). pose proof (rr_bounds D).
  simpl in Hg. rewrite Rmult_1_l in Hg.
  apply (Rmult_eq_reg_l (1 - rr D)); [|lra].
  rewrite <- Rmult_assoc, (Rmult_comm (1 - rr D)), Rmult_assoc, Hg.
  field. lra.
Qed.

Lemma path_budget_bounds D m : path_fits m -> 0 <= path_budget_for_depth (F := R) D m <= 1.
Proof.
  intros Hf. destruct (decide (2 <= m)%nat) as [Hm|Hm].
  2:{ unfold path_budget_for_depth. rewrite decide_True by lia. unfold f0; simpl; lra. }
  rewrite budget_R by done. pose proof (depth_factor_bounds D m ltac:(lia)).
  pose proof (lam_bounds D).
  assert (0 <= lam D ^ (m - 1)) by (apply pow_le; lra).
  assert (lam D ^ (m - 1) <= 1) by (rewrite <- (pow1 (m - 1)); apply pow_incr; lra).
  split; [apply Rmult_le_pos; lra|].
  apply Rle_trans with (1 * 1); [apply Rmult_le_compat; lra|lra].
Qed.

Lemma gamma_le_budget D i m : path_fits m ->
  gamma_for_depth (F := R) D i m <= path_budget_for_depth D m.
Proof.
  intros Hf. destruct (decide (1 <= i < m)%nat) as [Hi|Hi].
  2:{ rewrite gamma_outside by done. by apply path_budget_bounds. }
  rewrite <- relay_shares_sum by (done || lia).
  assert (Hin : i ∈ relay_positions m) by (apply elem_of_seq; lia).
  apply elem_of_Permutation in Hin as [k ->].
  cbn [map]. rewrite fsum_cons.
  assert (0 <= fsum (map (fun i => gamma_for_depth (F := R) D i m) k)).
  { apply fsum_map_nonneg. intros; by apply gamma_nonneg. }
  lra.
Qed.

Lemma propagation_bonus_R x cap zeta :
  0 <= x -> 0 <= cap -> 0 < zeta -> propagation_bonus x cap zeta = cap * x / (zeta + x).
Proof.
  intros Hx Hc Hz. unfold propagation_bonus, f0; simpl.
  f64_cases; simpl; try lra;
    (assert (x = 0 \/ cap = 0) as [-> | ->] by lra; field; lra).
Qed.

Lemma propagation_bonus_bounds x cap zeta :
  0 <= cap -> 0 <= propagation_bonus x cap zeta <= cap.
Proof.
  intros Hc. unfold propagation_bonus, f0; simpl.
  f64_cases; simpl; try lra.
  assert (Hq : 0 < x / (zeta + x) <= 1).
  { split; [apply Rdiv_lt_0_compat; lra|].
    apply Rmult_le_reg_r with (zeta + x); [lra|].
    unfold Rdiv. rewrite Rmult_assoc, Rinv_l by lra. lra. }
  replace (cap * x / (zeta + x)) with (cap * (x / (zeta + x))) by (field; lra).
  split; [apply Rmult_le_pos; lra|].
  apply Rle_trans with (cap * 1); [apply Rmult_le_compat_l; lra|lra].
Qed.

Lemma credit_weight_bounds c q : 0 <= transaction_credit_weight (F := R) c q <= 1.
Proof.
  unfold transaction_credit_weight, f0, f1; simpl. f64_cases; simpl; try lra.
  split; [|apply Rmin_r]. apply Rmin_glb; [|lra].
  left. apply Rdiv_lt_0_compat; lra.
Qed.

(** [ln] lies below each of its tangents. *)
Lemma ln_tangent a x : 0 < a -> 0 < x -> ln x <= ln a + (x - a) / a.
Proof.
  intros Ha Hx. replace x with (a * (x / a)) at 1 by (field; lra).
  rewrite ln_mult; [|lra|by apply Rdiv_lt_0_compat].
  assert (Hy : 0 < x / a) by (by apply Rdiv_lt_0_compat).
  destruct (Req_dec (x / a) 1) as [E|E].
  - rewrite E, ln_1. replace ((x - a) / a) with (x / a - 1) by (field; lra). lra.
  - replace ((x - a) / a) with (x / a - 1) by (field; lra).
    pose proof (exp_ineq1 (x / a - 1) ltac:(lra)) as He.
    assert (Hl : ln (x / a) < ln (exp (x / a - 1))).
    { apply ln_increasing; lra. }
    rewrite ln_exp in Hl. lra.
Qed.

Lemma saturated_R raw s k :
  0 <= raw -> 0 < s -> 0 < k ->
  saturated_contribution (F := R) raw s k = s * ln (1 + raw / (k * s)).
Proof.
  intros Hr Hs Hk. unfold saturated_contribution, f0, f1; simpl.
  f64_cases; simpl; try lra. assert (raw = 0) as -> by lra.
  replace (1 + 0 / (k * s)) with 1 by (field; lra). rewrite ln_1. lra.
Qed.

(** Over a common point, the per-stake form lies below the tangent line. *)
Lemma saturated_tangent raw s k a :
  0 <= raw -> 0 < s -> 0 < k -> 0 < a ->
  saturated_contribution (F := R) raw s k <= s * ln a + (s + raw / k - s * a) / a.
Proof.
  intros Hr Hs Hk Ha. rewrite saturated_R by done.
  assert (0 < k * s) by (by apply Rmult_lt_0_compat).
  assert (0 <= raw / (k * s)).
  { apply Rmult_le_pos; [done|]. left. by apply Rinv_0_lt_compat. }
  pose proof (ln_tangent a (1 + raw / (k * s)) Ha ltac:(lra)) as Ht.
  apply (Rmult_le_compat_l s) in Ht; [|lra].
  eapply Rle_trans; [exact Ht|]. right. field. repeat split; lra.
Qed.

Lemma lam_lt_1 D : (1 <= D)%nat -> lam D < 1.
Proof. intros HD. pose proof (lam_rr D). pose proof (rr_pos D HD). pose proof (lam_bounds D). nra. Qed.

Lemma budget_pos D m : (1 <= D)%nat -> (2 <= m)%nat -> path_fits m -> 0 < path_budget_for_depth (F := R) D m.
Proof.
  intros HD Hm Hf. rewrite budget_R by done. apply Rmult_lt_0_compat; [by apply depth_factor_pos; lia|].
  apply pow_lt, lam_bounds.
Qed.

Lemma budget_decreasing D m : (1 <= D)%nat -> (2 <= m)%nat -> path_fits (m + 1) ->
  path_budget_for_depth (F := R) D (m + 1) < path_budget_for_depth D m.
Proof.
  intros HD Hm Hf. assert (path_fits m) by (unfold path_fits in *; lia).
  rewrite !budget_R by (done || lia). replace (m + 1 - 1)%nat with (S (m - 1)) by lia. simpl pow.
  pose proof (depth_factor_antitone D m 1 ltac:(lia)). pose proof (depth_factor_pos D m HD ltac:(lia)).
  pose proof (depth_factor_pos D (m + 1) HD ltac:(lia)). pose proof (lam_lt_1 D HD).
  assert (0 < lam D ^ (m - 1)) by apply pow_lt, lam_bounds.
  apply Rle_lt_trans with (depth_factor D m * (lam D * lam D ^ (m - 1))).
  - apply Rmult_le_compat_r; [|done]. apply Rmult_le_pos; [apply Rlt_le, lam_bounds|lra].
  - apply Rmult_lt_compat_l; [done|]. nra.
Qed.

(** The relay schedule: on a path of [m] identities the shares of the relays
    exhaust the path budget, which is positive and at most one, so relays never get
    more than the relay part of the fee; each relay earns less than half of what
    the one before it earns; and one more identity on the path strictly lowers the budget. *)
Theorem relay_schedule (D m : nat) :
  (1 <= D)%nat -> (2 <= m)%nat -> path_fits (m + 1) ->
  fsum (map (fun i => gamma_for_depth (F := R) D i m) (relay_positions m)) = path_budget_for_depth D m
  /\ 0 < path_budget_for_depth (F := R) D m <= 1
  /\ (forall i, (1 <= i)%nat -> (i + 1 < m)%nat ->
        0 < gamma_for_depth (F := R) D (i + 1) m < gamma_for_depth D i m / 2)
  /\ path_budget_for_depth (F := R) D (m + 1) < path_budget_for_depth D m.
Proof.
  intros HD Hm Hf. assert (Hfm : path_fits m) by (unfold path_fits in *; lia).
  split_and!; [by apply relay_shares_sum|by apply budget_pos|by apply path_budget_bounds| |by apply budget_decreasing].
  intros i Hi Him. rewrite !gamma_unit by (done || lia). replace (i + 1 - 1)%nat with (S (i - 1)) by lia. simpl pow.
  pose proof (rr_bounds D). pose proof (rr_pos D HD).
  assert (0 < rr D ^ (i - 1)) by (apply pow_lt; lra).
  assert (0 < relay_unit D m).
  { unfold relay_unit. pose proof (pow_lt_1_rr D (m - 1) ltac:(lia)).
    apply Rmult_lt_0_compat; [apply Rmult_lt_0_compat; [by apply depth_factor_pos; lia|apply pow_lt, lam_bounds]|].
    apply Rdiv_lt_0_compat; lra. }
  assert (0 < relay_unit D m * rr D ^ (i - 1)) by (by apply Rmult_lt_0_compat).
  split; [apply Rmult_lt_0_compat; [done|by apply Rmult_lt_0_compat]|]. nra.
Qed.

End properties.
