(* ===== verification/SecurityEval.v ===== *)
(** * Fixed-path padding evaluator

    src/src/security_eval.rs: the exhaustive check that replacing one relay of a
    path by consecutive identities never increases the credit of a coalition
    that contains it.  The evaluator is modelled as it runs (its masks, sorts
    and running maximum); over the reals it is proved to pass on every case, for
    every depth and path length and not only on the grid the tool enumerates. *)

From Stdlib Require Import Reals Lra.
From stdpp Require Import sorting pretty.
From S2P Require Import Formulas.

Section security_eval.
Context {F : Type} `{F64 F}.

Record PaddingCaseResult := {
  pc_depth : nat;
  pc_original_path_length : nat;
  pc_relay_position : nat;
  pc_inserted_identities : nat;
  pc_coalition_assignments : Z;
  pc_worst_original_positions : string;
  pc_base_credit : F;
  pc_padded_credit : F;
  pc_max_ratio : F;
  pc_passed : bool
}.

Definition credit (depth path_length : nat) (positions : list nat) : F :=
  fsum (map (fun position => gamma_for_depth depth position path_length) positions).

Definition positions_label (positions : list nat) : string :=
  String.concat ";" (map (fun position => pretty (position : nat)) positions).

(** The coalition a bit mask stands for: the relay and the selected others. *)
Definition original_positions_of (relay_position : nat) (other_positions : list nat) (mask : N)
    : list nat :=
  merge_sort (≤)
    (relay_position
     :: omap (fun ip => if N.testbit mask (N.of_nat ip.1) then Some ip.2 else None)
          (enumerate other_positions)).

(** Its positions after the padding: the relay becomes
    [relay_position..=relay_position + inserted]. *)
Definition padded_positions_of (relay_position inserted_identities : nat)
    (original_positions : list nat) : list nat :=
  merge_sort (≤)
    (seq relay_position (inserted_identities + 1)
     ++ omap (fun position =>
          if decide (position = relay_position) then None
          else if decide (position < relay_position) then Some position
          else Some (position + inserted_identities)) original_positions).

Record padding_state := {
  ps_maximum : F;
  ps_base : F;
  ps_padded : F;
  ps_positions : list nat
}.

(** One iteration of the mask loop. *)
Definition padding_step (depth original_path_length relay_position inserted_identities : nat)
    (other_positions : list nat) (st : padding_state) (mask : N) : padding_state :=
  let original_positions := original_positions_of relay_position other_positions mask in
  let padded_positions :=
    padded_positions_of relay_position inserted_identities original_positions in
  let base := credit depth original_path_length original_positions in
  let padded := credit depth (original_path_length + inserted_identities) padded_positions in
  let ratio := f_div padded base in
  if f_gtb ratio (ps_maximum st) then
    {| ps_maximum := ratio; ps_base := base; ps_padded := padded;
       ps_positions := original_positions |}
  else st.

(** [None] is a failed [assert!]. *)
Definition evaluate_padding_case
    (depth original_path_length relay_position inserted_identities : nat) (tolerance : F)
    : option PaddingCaseResult :=
  if negb (bool_decide (0 < depth)) then None else
  if negb (bool_decide (2 <= original_path_length)) then None else
  if negb (bool_decide (1 <= relay_position < original_path_length)) then None else
  if negb (bool_decide (0 < inserted_identities)) then None else
  let other_positions :=
    filter (fun position => position <> relay_position) (relay_positions original_path_length) in
  if negb (bool_decide (length other_positions < 63)) then None else
  let assignments := 2 ^ length other_positions in
  let final :=
    fold_left
      (padding_step depth original_path_length relay_position inserted_identities other_positions)
      (map N.of_nat (seq 0 assignments))
      {| ps_maximum := f_neg f1; ps_base := f0; ps_padded := f0; ps_positions := [] |} in
  Some {|
    pc_depth := depth;
    pc_original_path_length := original_path_length;
    pc_relay_position := relay_position;
    pc_inserted_identities := inserted_identities;
    pc_coalition_assignments := Z.of_nat assignments;
    pc_worst_original_positions := positions_label (ps_positions final);
    pc_base_credit := ps_base final;
    pc_padded_credit := ps_padded final;
    pc_max_ratio := ps_maximum final;
    pc_passed := f_leb (ps_maximum final) (f_add f1 tolerance)
  |}.

Definition evaluate_padding_grid (depths : list nat) (max_path_hops : nat) (tolerance : F)
    : option (list PaddingCaseResult) :=
  if negb (bool_decide (3 <= max_path_hops)) then None else
  mapM (fun '(depth, original_path_length, relay_position, inserted_identities) =>
          evaluate_padding_case depth original_path_length relay_position inserted_identities tolerance)
    (depth ← depths;
     original_path_length ← seq 2 (max_path_hops - 2);
     relay_position ← seq 1 (original_path_length - 1);
     inserted_identities ← seq 1 (max_path_hops - original_path_length);
     [(depth, original_path_length, relay_position, inserted_identities)]).

End security_eval.
Arguments PaddingCaseResult F : clear implicits.
Arguments padding_state F : clear implicits.

(** * Non-amplification over the reals *)

Section reals.
Local Open Scope R_scope.

Lemma credit_perm D m (l1 l2 : list nat) :
  l1 ≡ₚ l2 -> credit (F := R) D m l1 = credit D m l2.
Proof. intros Hp. unfold credit. by rewrite Hp. Qed.

Lemma credit_unit D m (l : list nat) : path_fits m ->
  Forall (fun i => (1 <= i < m)%nat) l ->
  credit (F := R) D m l = relay_unit D m * fsum (map (fun i => rr D ^ (i - 1)) l).
Proof.
  intros Hf Hl. unfold credit. rewrite <- fsum_map_scale. apply fsum_map_ext.
  intros i Hi. rewrite Forall_forall in Hl. apply gamma_unit; [by apply Hl|done].
Qed.

(** A run of [k + 1] consecutive identities weighs at most [(1 + r)^k] times the
    relay it replaces. *)
Lemma consecutive_run r j k : 0 <= r ->
  fsum (map (fun i => r ^ (i - 1)) (seq (S j) (k + 1))) <= (1 + r) ^ k * r ^ j.
Proof.
  intros Hr. induction k as [|k IH].
  - cbn [Nat.add seq map]. rewrite fsum_cons, fsum_nil, Nat.sub_succ, Nat.sub_0_r. simpl. lra.
  - replace (S k + 1)%nat with (S (k + 1)) by lia.
    rewrite seq_S, map_app, fsum_app. cbn [map]. rewrite fsum_cons, fsum_nil.
    replace (S j + (k + 1) - 1)%nat with (j + S k)%nat by lia.
    rewrite pow_add. rewrite <- (tech_pow_Rmult (1 + r)).
    assert (Hrj : 0 <= r ^ j) by (by apply pow_le).
    assert (Hk : r ^ k <= (1 + r) ^ k) by (apply pow_incr; lra).
    assert (r ^ j * r ^ S k <= r * (1 + r) ^ k * r ^ j).
    { rewrite <- tech_pow_Rmult. replace (r ^ j * (r * r ^ k)) with (r * r ^ j * r ^ k) by ring.
      replace (r * (1 + r) ^ k * r ^ j) with (r * r ^ j * (1 + r) ^ k) by ring.
      apply Rmult_le_compat_l; [by apply Rmult_le_pos|done]. }
    nra.
Qed.

(** Lengthening the path by [k] edges costs the common factor [lambda^k]. *)
Lemma relay_unit_lengthen D m k : (2 <= m)%nat ->
  relay_unit D (m + k) <= relay_unit D m * lam D ^ k.
Proof.
  intros Hm. unfold relay_unit. replace (m + k - 1)%nat with (m - 1 + k)%nat by lia.
  rewrite pow_add. pose proof (lam_bounds D). pose proof (rr_bounds D).
  pose proof (pow_lt_1_rr D (m - 1) ltac:(lia)) as H1.
  pose proof (depth_factor_antitone D m k ltac:(lia)).
  pose proof (depth_factor_bounds D (m + k) ltac:(lia)).
  assert (0 <= lam D ^ (m - 1)) by (apply pow_le; lra).
  assert (0 <= lam D ^ k) by (apply pow_le; lra).
  assert (Hp : rr D ^ (m - 1 + k) <= rr D ^ (m - 1)).
  { rewrite pow_add. assert (rr D ^ k <= 1) by (rewrite <- (pow1 k); apply pow_incr; lra).
    assert (0 <= rr D ^ k) by (apply pow_le; lra).
    apply Rle_trans with (rr D ^ (m - 1) * 1); [apply Rmult_le_compat_l; lra|lra]. }
  assert (0 <= rr D ^ (m - 1 + k)) by (apply pow_le; lra).
  assert (Hi : / (1 - rr D ^ (m - 1 + k)) <= / (1 - rr D ^ (m - 1))).
  { apply Rinv_le_contravar; lra. }
  assert (0 < / (1 - rr D ^ (m - 1 + k))) by (apply Rinv_0_lt_compat; lra).
  assert (HX : 0 <= lam D ^ (m - 1) * lam D ^ k * (1 - rr D)).
  { apply Rmult_le_pos; [by apply Rmult_le_pos|lra]. }
  set (X := lam D ^ (m - 1) * lam D ^ k * (1 - rr D)) in HX.
  replace (depth_factor D (m + k) * (lam D ^ (m - 1) * lam D ^ k)
           * ((1 - rr D) / (1 - rr D ^ (m - 1 + k))))
    with (depth_factor D (m + k) * X * / (1 - rr D ^ (m - 1 + k)))
    by (unfold X, Rdiv; ring).
  replace (depth_factor D m * lam D ^ (m - 1) * ((1 - rr D) / (1 - rr D ^ (m - 1))) * lam D ^ k)
    with (depth_factor D m * X * / (1 - rr D ^ (m - 1))) by (unfold X, Rdiv; ring).
  apply Rmult_le_compat; [apply Rmult_le_pos; lra|lra| |exact Hi].
  by apply Rmult_le_compat_r.
Qed.

(** The positions of the coalition other than the padded relay. *)
Definition shift_position (j k p : nat) : nat := if decide (p < j)%nat then p else (p + k)%nat.

Lemma shifted_weight r j k p : 0 <= r <= 1 ->
  r ^ (shift_position j k p - 1) <= (1 + r) ^ k * r ^ (p - 1).
Proof.
  intros Hr. assert (H0 : 0 <= r ^ (p - 1)) by (apply pow_le; lra).
  assert (1 <= (1 + r) ^ k) by (apply pow_R1_Rle; lra).
  assert (Hle : r ^ (shift_position j k p - 1) <= r ^ (p - 1)).
  { unfold shift_position. case_decide; [lra|].
    replace (p + k - 1)%nat with (p - 1 + (p + k - 1 - (p - 1)))%nat by lia.
    rewrite pow_add. set (n := (p + k - 1 - (p - 1))%nat).
    assert (r ^ n <= 1) by (rewrite <- (pow1 n); apply pow_incr; lra).
    apply Rle_trans with (r ^ (p - 1) * 1); [apply Rmult_le_compat_l; lra|lra]. }
  nra.
Qed.

(** The core inequality: the padded coalition earns at most what it earned. *)
Lemma padding_credit_le D m j k (S : list nat) :
  (2 <= m)%nat -> (1 <= j < m)%nat -> path_fits (m + k) ->
  Forall (fun p => (1 <= p < m)%nat) S ->
  credit (F := R) D (m + k) (seq j (k + 1) ++ map (shift_position j k) S)
  <= credit D m (j :: S).
Proof.
  intros Hm Hj Hf HS. pose proof (rr_bounds D) as Hr. pose proof (lam_bounds D) as Hl.
  assert (Hfm : path_fits m) by (unfold path_fits in *; lia).
  rewrite !credit_unit; try done.
  2:{ constructor; [lia|done]. }
  2:{ apply Forall_app; split; [|apply Forall_map]; apply Forall_forall.
      - intros i Hi%elem_of_seq. lia.
      - rewrite Forall_forall in HS. intros p Hp. specialize (HS p Hp).
        unfold shift_position; simpl. case_decide; lia. }
  rewrite map_app, fsum_app, map_map. cbn [map]. rewrite fsum_cons.
  set (c := (1 + rr D) ^ k).
  assert (Hrun : fsum (map (fun i => rr D ^ (i - 1)) (seq j (k + 1))) <= c * rr D ^ (j - 1)).
  { destruct j as [|j]; [lia|]. rewrite Nat.sub_succ, Nat.sub_0_r. apply consecutive_run. lra. }
  assert (Hrest : fsum (map (fun x => rr D ^ (shift_position j k x - 1)) S)
                  <= c * fsum (map (fun i => rr D ^ (i - 1)) S)).
  { rewrite <- fsum_map_scale. apply fsum_map_le. intros p _. apply shifted_weight. lra. }
  set (b := rr D ^ (j - 1) + fsum (map (fun i => rr D ^ (i - 1)) S)) in *.
  assert (0 <= b).
  { apply Rplus_le_le_0_compat; [apply pow_le; lra|].
    apply fsum_map_nonneg. intros; apply pow_le; lra. }
  pose proof (relay_unit_lengthen D m k Hm). pose proof (relay_unit_nonneg D m Hm).
  pose proof (relay_unit_nonneg D (m + k) ltac:(lia)).
  assert (Hc : lam D ^ k * c = 1).
  { unfold c. rewrite <- Rpow_mult_distr, lam_rr. apply pow1. }
  assert (0 <= c) by (apply pow_le; lra).
  apply Rle_trans with (relay_unit D (m + k) * (c * b)).
  { apply Rmult_le_compat_l; [done|]. unfold b. lra. }
  apply Rle_trans with (relay_unit D m * lam D ^ k * (c * b)).
  { apply Rmult_le_compat_r; [by apply Rmult_le_pos|done]. }
  right. replace (relay_unit D m * lam D ^ k * (c * b))
    with (relay_unit D m * (lam D ^ k * c) * b) by ring. rewrite Hc. ring.
Qed.

Lemma credit_relay_pos D m j (S : list nat) :
  (1 <= D)%nat -> (2 <= m)%nat -> (1 <= j < m)%nat -> path_fits m ->
  Forall (fun p => (1 <= p < m)%nat) S -> 0 < credit (F := R) D m (j :: S).
Proof.
  intros HD Hm Hj Hf HS. rewrite credit_unit; [|done|by constructor; [lia|]].
  cbn [map]. rewrite fsum_cons. pose proof (rr_pos D HD). pose proof (rr_bounds D).
  apply Rmult_lt_0_compat.
  - unfold relay_unit. pose proof (depth_factor_pos D m HD ltac:(lia)).
    pose proof (lam_bounds D). pose proof (pow_lt_1_rr D (m - 1) ltac:(lia)).
    apply Rmult_lt_0_compat; [apply Rmult_lt_0_compat; [done|apply pow_lt; lra]|].
    apply Rdiv_lt_0_compat; lra.
  - assert (0 < rr D ^ (j - 1)) by (by apply pow_lt).
    assert (0 <= fsum (map (fun i => rr D ^ (i - 1)) S)).
    { apply fsum_map_nonneg. intros; apply pow_le; lra. }
    lra.
Qed.

(** What the sorted position lists of one mask hold. *)
Lemma original_positions_spec j m mask :
  (1 <= j < m)%nat ->
  exists S, Forall (fun p => (1 <= p < m)%nat /\ p <> j) S
    /\ original_positions_of j (filter (fun p => p <> j) (relay_positions m)) mask ≡ₚ j :: S.
Proof.
  intros Hj. eexists. split; [|apply merge_sort_Permutation].
  apply Forall_forall. intros p (ip & Hip & Hp)%list_elem_of_omap.
  case_match; simplify_eq. unfold enumerate in Hip.
  apply elem_of_lookup_imap in Hip as (i & q & -> & Hq). simpl.
  apply list_elem_of_lookup_2, list_elem_of_filter in Hq as [Hne Hq].
  unfold relay_positions in Hq. apply elem_of_seq in Hq. split; [lia|done].
Qed.

Lemma padded_positions_spec j k (l S : list nat) :
  l ≡ₚ j :: S -> Forall (fun p => p <> j) S ->
  padded_positions_of j k l ≡ₚ seq j (k + 1) ++ map (shift_position j k) S.
Proof.
  intros Hp HS. unfold padded_positions_of. rewrite merge_sort_Permutation.
  apply Permutation_app_head. rewrite Hp. simpl. rewrite decide_True by done.
  clear Hp. induction HS as [|p S Hne HS IH]; [done|]. simpl. rewrite decide_False by done.
  unfold shift_position at 1. case_decide; by apply perm_skip.
Qed.

(** The ratio of any mask is at most one. *)
Lemma padding_ratio_le D m j k mask :
  (1 <= D)%nat -> (1 <= j < m)%nat -> path_fits (m + k) ->
  let orig := original_positions_of j (filter (fun p => p <> j) (relay_positions m)) mask in
  credit (F := R) D (m + k) (padded_positions_of j k orig) / credit D m orig <= 1.
Proof.
  intros HD Hj Hf orig.
  destruct (original_positions_spec j m mask Hj) as (S & HS & Hp). fold orig in Hp.
  rewrite (credit_perm D m _ _ Hp).
  rewrite (credit_perm D (m + k) _ (seq j (k + 1) ++ map (shift_position j k) S)).
  2:{ apply padded_positions_spec; [done|]. eapply Forall_impl; [exact HS|]. by intros ? []. }
  assert (HS' : Forall (fun p => (1 <= p < m)%nat) S).
  { eapply Forall_impl; [exact HS|]. by intros ? []. }
  pose proof (padding_credit_le D m j k S ltac:(lia) Hj Hf HS').
  assert (path_fits m) by (unfold path_fits in *; lia).
  pose proof (credit_relay_pos D m j S HD ltac:(lia) Hj ltac:(done) HS').
  apply Rmult_le_reg_r with (credit (F := R) D m (j :: S)); [done|].
  unfold Rdiv. rewrite Rmult_assoc, Rinv_l by lra. lra.
Qed.

Lemma padding_loop_le D m j k (masks : list N) (st : padding_state R) :
  (1 <= D)%nat -> (1 <= j < m)%nat -> path_fits (m + k) -> ps_maximum st <= 1 ->
  ps_maximum (fold_left
    (padding_step D m j k (filter (fun p => p <> j) (relay_positions m))) masks st) <= 1.
Proof.
  intros HD Hj Hf. revert st. induction masks as [|mask masks IH]; intros st Hst; [done|].
  cbn [fold_left]. apply IH. unfold padding_step.
  destruct (f_gtb _ _); [|done]. simpl ps_maximum. by apply padding_ratio_le.
Qed.

Lemma other_positions_length j m : (1 <= j < m)%nat ->
  length (filter (fun p => p <> j) (relay_positions m)) = (m - 2)%nat.
Proof.
  intros Hj. unfold relay_positions.
  replace (m - 1)%nat with ((j - 1) + S (m - 1 - j))%nat by lia.
  rewrite seq_app, filter_app, length_app. cbn [seq]. rewrite filter_cons_False by lia.
  rewrite !list_filter_all by (apply Forall_forall; intros ? ?%elem_of_seq; lia).
  rewrite !length_seq. lia.
Qed.

(** C36: Padding a relay with consecutive identities never amplifies: for every
    depth, path length, relay position and number of inserted identities the
    evaluator's assertions accept, the exhaustive search over all coalitions
    returns a row that passes, with a worst ratio of at most one, in exact
    arithmetic and for any nonnegative tolerance. *)
Theorem padding_never_amplifies (D m j k : nat) (tol : R) :
  (1 <= D)%nat -> (1 <= j < m)%nat -> (1 <= k)%nat -> (m <= 64)%nat -> path_fits (m + k) ->
  0 <= tol ->
  exists row, evaluate_padding_case D m j k tol = Some row
    /\ pc_passed row = true /\ pc_max_ratio row <= 1
    /\ pc_coalition_assignments row = (2 ^ (Z.of_nat m - 2))%Z.
Proof.
  intros HD Hj Hk Hm Hf Htol. unfold evaluate_padding_case.
  rewrite !bool_decide_eq_true_2 by (rewrite ?other_positions_length by done; lia). cbn [negb].
  eexists. split; [reflexivity|]. cbn [pc_passed pc_max_ratio pc_coalition_assignments].
  set (final := fold_left _ _ _).
  assert (ps_maximum final <= 1).
  { apply padding_loop_le; try done. simpl. unfold f1; simpl; lra. }
  split_and!.
  - apply Rleb_le. unfold f1; simpl. lra.
  - done.
  - rewrite other_positions_length, Nat2Z.inj_pow by done. f_equal. lia.
Qed.

(** A three-edge path, its middle relay replaced by three identities. *)
Lemma padding_never_amplifies_witness :
  exists row, evaluate_padding_case 4 3 2 2 0 = Some row
    /\ pc_passed row = true /\ pc_max_ratio row <= 1
    /\ pc_coalition_assignments row = 2%Z.
Proof.
  apply (padding_never_amplifies 4 3 2 2 0); [lia|lia|lia|lia|vm_compute; reflexivity|lra].
Defined.

End reals.
