(* ===== verification/FixedPoint.v ===== *)
(** * Fixed-point arithmetic of the consensus client

    The Lighthouse port of TopoStake computes with integers scaled by 10^9
    (src/ethereum-topostake/lighthouse/consensus/types/src/core/chain_spec.rs):
    [u64] values, [u128] intermediate results, saturating operations.  This file
    models the arithmetic and proves that the relay shares it computes refine the
    real-valued formulas of the simulator ([Formulas]) up to a few units in the
    last place, that rounding never creates credit, and that the truncated
    logarithm series stays below the logarithm. *)

From Stdlib Require Import Reals Lra.
From S2P Require Export Formulas.

Definition TOPOSTAKE_FIXED_POINT_SCALE : Z := 1000000000.
Abbreviation SCALE := TOPOSTAKE_FIXED_POINT_SCALE.

Section arithmetic.
Local Open Scope Z_scope.

(** [u128] operations; a plain sum wraps. *)
Definition u128_sat_add (a b : Z) : Z := Z.min (a + b) U128_MAX.
Definition u128_sat_mul (a b : Z) : Z := Z.min (a * b) U128_MAX.
Definition u128_sum (l : list Z) : Z := fold_left (fun a b => (a + b) mod 2 ^ 128) l 0.

(** [x.min(u128::from(u64::MAX)) as u64]. *)
Definition clamp64 (x : Z) : Z := Z.min x U64_MAX.

Definition scaled_mul_div (value multiplier divisor : Z) : Z :=
  if divisor =? 0 then 0 else clamp64 (u128_sat_mul value multiplier / divisor).

Definition fixed_pow_scaled (base_scaled : Z) (exp : nat) : Z :=
  clamp64 (Nat.iter exp (fun out => u128_sat_mul out base_scaled / SCALE) SCALE).

(** The rounds [n, n + 1, ...] of the series, [rounds] of them, with the early exit. *)
Fixpoint ln_rounds (rounds : nat) (n z term sum : Z) : Z :=
  match rounds with
  | O => sum
  | S rounds =>
      let sum := u128_sat_add sum (term / n) in
      let term := u128_sat_mul term z / SCALE in
      if term =? 0 then sum else ln_rounds rounds (n + 1) z term sum
  end.

Definition fixed_ln_1p_scaled (x : Z) : Z :=
  if x =? 0 then 0 else
  let z := u128_sat_mul x SCALE / u128_sat_add x SCALE in
  clamp64 (ln_rounds 24 1 z z 0).

Definition topostake_transaction_credit_weight_scaled (irrecoverable_cost_wei reference_cost_wei : Z) : Z :=
  if (irrecoverable_cost_wei =? 0) || (reference_cost_wei =? 0) then 0
  else Z.min (scaled_mul_div irrecoverable_cost_wei SCALE reference_cost_wei) SCALE.

Definition topostake_saturate_contribution_scaled
    (raw effective_balance total_active_balance saturation_k : Z) : Z :=
  if (raw =? 0) || (effective_balance =? 0) || (total_active_balance =? 0) || (saturation_k =? 0)
  then 0 else
  let stake_share := scaled_mul_div effective_balance SCALE total_active_balance in
  if stake_share =? 0 then 0 else
  let denominator := scaled_mul_div saturation_k stake_share SCALE in
  if denominator =? 0 then 0 else
  let ratio := scaled_mul_div raw SCALE denominator in
  scaled_mul_div stake_share (fixed_ln_1p_scaled ratio) SCALE.

(** ** Path budgets and relay shares; [target_depth] is the configured depth. *)

Definition effective_depth (target_depth : Z) : Z := Z.max target_depth 1.

Definition lambda_scaled (target_depth : Z) : Z :=
  let depth := effective_depth target_depth in
  clamp64 (u128_sat_mul (u128_sat_add (u128_sat_mul depth 2) 1) SCALE
           / u128_sat_add (u128_sat_mul depth 3) 1).

Definition r_scaled (target_depth : Z) : Z :=
  let depth := effective_depth target_depth in
  clamp64 (u128_sat_mul depth SCALE / u128_sat_add (u128_sat_mul depth 2) 1).

Definition topostake_path_budget_scaled (edge_count : nat) (target_depth : Z) : Z :=
  if decide (edge_count = 0%nat) then 0 else
  let depth := effective_depth target_depth in
  let depth_factor := if Z.of_nat edge_count <=? depth then SCALE
                      else u128_sat_mul depth SCALE / Z.of_nat edge_count in
  let decay := fixed_pow_scaled (lambda_scaled target_depth) (edge_count - 1) in
  clamp64 (u128_sat_mul depth_factor decay / SCALE).

(** The weights of the relays and their shares of the budget. *)
Definition relay_weights (target_depth : Z) (relay_count : nat) : list Z :=
  map (fixed_pow_scaled (r_scaled target_depth)) (seq 0 relay_count).

Definition topostake_path_relay_contributions (target_depth : Z) (path : list Z) : list (Z * Z) :=
  let edge_count := (length path - 1)%nat in
  if decide (length path = 0%nat \/ (edge_count <= 1)%nat) then [] else
  let budget := topostake_path_budget_scaled edge_count target_depth in
  if budget =? 0 then [] else
  let relay_count := (edge_count - 1)%nat in
  let weights := relay_weights target_depth relay_count in
  let weight_sum := u128_sum weights in
  if weight_sum =? 0 then [] else
  filter (fun vc => 0 < vc.2)
    (map (fun vw => (vw.1, clamp64 (u128_sat_mul budget vw.2 / weight_sum)))
       (zip (take relay_count (drop 1 path)) weights)).

End arithmetic.

(** ** Integer facts *)

Section integers.
Local Open Scope Z_scope.

Definition zsum (l : list Z) : Z := foldr Z.add 0 l.

Lemma zsum_app l1 l2 : zsum (l1 ++ l2) = zsum l1 + zsum l2.
Proof. induction l1 as [|x l1 IH]; simpl; [done|]. rewrite IH. lia. Qed.

Lemma zsum_nonneg l : Forall (Z.le 0) l -> 0 <= zsum l.
Proof. induction 1; simpl; lia. Qed.

Lemma zsum_filter_pos {A} (f : A -> Z) l :
  Forall (fun x => 0 <= f x) l -> zsum (map f (filter (fun x => 0 < f x) l)) = zsum (map f l).
Proof.
  induction 1 as [|x l Hx _ IH]; [done|]. destruct (decide (0 < f x)).
  - rewrite filter_cons_True by done. simpl. by rewrite IH.
  - rewrite filter_cons_False by done. simpl. rewrite IH. lia.
Qed.

(** Rounding down never creates anything: the rounded parts of a product are
    together at most the rounded whole. *)
Lemma zsum_floor_le (b d : Z) ws :
  0 <= b -> 0 < d -> Forall (Z.le 0) ws -> zsum (map (fun w => b * w / d) ws) <= b * zsum ws / d.
Proof.
  intros Hb Hd. induction 1 as [|w ws Hw Hws IH]; simpl; [rewrite Z.mul_0_r, Z.div_0_l; lia|].
  assert (b * w / d + b * zsum ws / d <= (b * w + b * zsum ws) / d) as H.
  { apply Z.div_le_lower_bound; [lia|].
    pose proof (Z.mul_div_le (b * w) d Hd). pose proof (Z.mul_div_le (b * zsum ws) d Hd). lia. }
  rewrite Z.mul_add_distr_l. lia.
Qed.

Lemma u128_sum_eq l : Forall (Z.le 0) l -> zsum l < 2 ^ 128 -> u128_sum l = zsum l.
Proof.
  intros Hl Hs. unfold u128_sum.
  assert (forall a, 0 <= a -> a + zsum l < 2 ^ 128 ->
    fold_left (fun a b => (a + b) mod 2 ^ 128) l a = a + zsum l) as H.
  { clear Hs. induction Hl as [|x l Hx Hl IH]; intros a Ha Hs; simpl in *; [lia|].
    pose proof (zsum_nonneg l Hl). rewrite Z.mod_small by lia. rewrite IH by lia. lia. }
  rewrite H by lia. lia.
Qed.

Lemma clamp64_small x : x <= U64_MAX -> clamp64 x = x.
Proof. unfold clamp64. lia. Qed.

Lemma clamp64_le x : clamp64 x <= x.
Proof. unfold clamp64. lia. Qed.

Lemma u128_sat_mul_small a b : is_u64 a -> is_u64 b -> u128_sat_mul a b = a * b.
Proof.
  unfold is_u64, u128_sat_mul, U64_MAX, U128_MAX. intros [Ha Ha'] [Hb Hb'].
  pose proof (Z.mul_le_mono_nonneg a (2 ^ 64 - 1) b (2 ^ 64 - 1) Ha Ha' Hb Hb'). lia.
Qed.

Lemma u128_sat_mul_le a b : u128_sat_mul a b <= a * b.
Proof. unfold u128_sat_mul. lia. Qed.

Lemma u128_sat_mul_nonneg a b : 0 <= a -> 0 <= b -> 0 <= u128_sat_mul a b.
Proof. unfold u128_sat_mul, U128_MAX. intros Ha Hb. pose proof (Z.mul_nonneg_nonneg a b Ha Hb). lia. Qed.

Lemma scaled_mul_div_range v m d : 0 <= v -> 0 <= m -> 0 <= d -> is_u64 (scaled_mul_div v m d).
Proof.
  intros Hv Hm Hd. unfold scaled_mul_div, is_u64. destruct (Z.eqb_spec d 0); [unfold U64_MAX; lia|].
  unfold clamp64. split; [|lia]. apply Z.min_glb; [|unfold U64_MAX; lia].
  apply Z.div_pos; [by apply u128_sat_mul_nonneg|lia].
Qed.

(** A part of a whole: the product is rounded down and never exceeds it. *)
Lemma scaled_mul_div_part v m d : is_u64 v -> 0 <= m <= d -> is_u64 d -> 0 < d -> scaled_mul_div v m d = v * m / d.
Proof.
  intros Hv Hm Hd Hd0. unfold scaled_mul_div. destruct (Z.eqb_spec d 0); [lia|].
  rewrite u128_sat_mul_small by (unfold is_u64 in *; lia). apply clamp64_small.
  apply Z.div_le_upper_bound; [lia|]. unfold is_u64 in *.
  pose proof (Z.mul_le_mono_nonneg v U64_MAX m d ltac:(lia) ltac:(lia) ltac:(lia) ltac:(lia)). lia.
Qed.

Lemma part_le v m d : 0 <= v -> 0 <= m <= d -> 0 < d -> 0 <= v * m / d <= v.
Proof.
  intros Hv Hm Hd. split; [apply Z.div_pos; [apply Z.mul_nonneg_nonneg; lia|lia]|].
  apply Z.div_le_upper_bound; [lia|]. rewrite (Z.mul_comm d). apply Z.mul_le_mono_nonneg_l; lia.
Qed.

(** ** Powers of a base of at most one *)

Lemma fixed_pow_spec b k :
  0 <= b <= SCALE ->
  0 <= fixed_pow_scaled b k <= SCALE
  /\ fixed_pow_scaled b (S k) = fixed_pow_scaled b k * b / SCALE.
Proof.
  intros Hb. unfold fixed_pow_scaled.
  assert (forall k, 0 <= Nat.iter k (fun out => u128_sat_mul out b / SCALE) SCALE <= SCALE) as Hk.
  { clear k. induction k as [|k IH]; simpl; [unfold TOPOSTAKE_FIXED_POINT_SCALE; lia|].
    rewrite u128_sat_mul_small by (unfold is_u64, TOPOSTAKE_FIXED_POINT_SCALE, U64_MAX in *; lia).
    pose proof (part_le (Nat.iter k (fun out => u128_sat_mul out b / SCALE) SCALE) b SCALE).
    unfold TOPOSTAKE_FIXED_POINT_SCALE in *. lia. }
  pose proof (Hk k) as H1. pose proof (Hk (S k)) as H2.
  rewrite !clamp64_small by (unfold TOPOSTAKE_FIXED_POINT_SCALE, U64_MAX in *; lia).
  split; [done|]. simpl.
  rewrite u128_sat_mul_small by (unfold is_u64, TOPOSTAKE_FIXED_POINT_SCALE, U64_MAX in *; lia). done.
Qed.

Lemma fixed_pow_0 b : fixed_pow_scaled b 0 = SCALE.
Proof. done. Qed.

(** Powers of a base of at most a half halve, so their sum is bounded. *)
Lemma fixed_pow_half b k : 0 <= b -> 2 * b <= SCALE -> 2 * fixed_pow_scaled b (S k) <= fixed_pow_scaled b k.
Proof.
  intros Hb H2. destruct (fixed_pow_spec b k ltac:(lia)) as [Hr ->].
  pose proof (Z.mul_div_le (fixed_pow_scaled b k * b) SCALE ltac:(unfold TOPOSTAKE_FIXED_POINT_SCALE; lia)).
  assert (fixed_pow_scaled b k * (2 * b) <= fixed_pow_scaled b k * SCALE) by (apply Z.mul_le_mono_nonneg_l; lia).
  unfold TOPOSTAKE_FIXED_POINT_SCALE in *. lia.
Qed.

Lemma fixed_pow_sum b a n :
  0 <= b -> 2 * b <= SCALE ->
  0 <= zsum (map (fixed_pow_scaled b) (seq a n)) <= 2 * fixed_pow_scaled b a.
Proof.
  intros Hb H2. revert a. induction n as [|n IH]; intros a; simpl.
  { destruct (fixed_pow_spec b a ltac:(lia)). lia. }
  pose proof (IH (S a)). pose proof (fixed_pow_half b a Hb H2). destruct (fixed_pow_spec b a ltac:(lia)). lia.
Qed.

End integers.

(** ** The relay schedule in integers *)

Section schedule.
Local Open Scope Z_scope.

Lemma effective_depth_range td : is_u64 td -> 1 <= effective_depth td <= U64_MAX.
Proof. unfold is_u64, effective_depth, U64_MAX. lia. Qed.

Lemma lambda_scaled_eq td : is_u64 td ->
  lambda_scaled td = (2 * effective_depth td + 1) * SCALE / (3 * effective_depth td + 1).
Proof.
  intros Hd%effective_depth_range. unfold lambda_scaled, u128_sat_mul, u128_sat_add.
  set (d := effective_depth td) in *.
  replace (Z.min (Z.min (d * 2) U128_MAX + 1) U128_MAX) with (2 * d + 1) by (unfold U128_MAX, U64_MAX in *; lia).
  replace (Z.min (Z.min (d * 3) U128_MAX + 1) U128_MAX) with (3 * d + 1) by (unfold U128_MAX, U64_MAX in *; lia).
  rewrite Z.min_l by (unfold U128_MAX, U64_MAX, TOPOSTAKE_FIXED_POINT_SCALE in *; lia).
  apply clamp64_small. apply Z.div_le_upper_bound; [lia|].
  unfold U64_MAX, TOPOSTAKE_FIXED_POINT_SCALE in *. lia.
Qed.

Lemma r_scaled_eq td : is_u64 td -> r_scaled td = effective_depth td * SCALE / (2 * effective_depth td + 1).
Proof.
  intros Hd%effective_depth_range. unfold r_scaled, u128_sat_mul, u128_sat_add.
  set (d := effective_depth td) in *.
  replace (Z.min (Z.min (d * 2) U128_MAX + 1) U128_MAX) with (2 * d + 1) by (unfold U128_MAX, U64_MAX in *; lia).
  rewrite Z.min_l by (unfold U128_MAX, U64_MAX, TOPOSTAKE_FIXED_POINT_SCALE in *; lia).
  apply clamp64_small. apply Z.div_le_upper_bound; [lia|].
  unfold U64_MAX, TOPOSTAKE_FIXED_POINT_SCALE in *. lia.
Qed.

Lemma lambda_scaled_range td : is_u64 td -> 0 <= lambda_scaled td <= SCALE.
Proof.
  intros Hd. rewrite lambda_scaled_eq by done. apply effective_depth_range in Hd.
  split; [apply Z.div_pos|apply Z.div_le_upper_bound]; unfold TOPOSTAKE_FIXED_POINT_SCALE; lia.
Qed.

Lemma r_scaled_range td : is_u64 td -> 0 <= r_scaled td /\ 2 * r_scaled td <= SCALE.
Proof.
  intros Hd. rewrite r_scaled_eq by done. apply effective_depth_range in Hd.
  pose proof (Z.mul_div_le (effective_depth td * SCALE) (2 * effective_depth td + 1) ltac:(lia)).
  split; [apply Z.div_pos; unfold TOPOSTAKE_FIXED_POINT_SCALE; lia|].
  unfold TOPOSTAKE_FIXED_POINT_SCALE in *. nia.
Qed.

(** The depth factor [min(depth, edges) / edges], rounded down. *)
Definition depth_factor_scaled (edge_count : nat) (td : Z) : Z :=
  Z.min (effective_depth td) (Z.of_nat edge_count) * SCALE / Z.of_nat edge_count.

Lemma path_budget_eq edge_count td : is_u64 td -> (1 <= edge_count)%nat ->
  0 <= depth_factor_scaled edge_count td <= SCALE
  /\ topostake_path_budget_scaled edge_count td =
     depth_factor_scaled edge_count td * fixed_pow_scaled (lambda_scaled td) (edge_count - 1) / SCALE.
Proof.
  intros Htd He. pose proof (effective_depth_range td Htd) as Hd.
  assert (0 <= depth_factor_scaled edge_count td <= SCALE) as Hf.
  { unfold depth_factor_scaled, TOPOSTAKE_FIXED_POINT_SCALE.
    split; [apply Z.div_pos|apply Z.div_le_upper_bound]; lia. }
  split; [done|]. unfold topostake_path_budget_scaled. rewrite decide_False by lia. cbv zeta.
  replace (if Z.of_nat edge_count <=? effective_depth td then SCALE
           else u128_sat_mul (effective_depth td) SCALE / Z.of_nat edge_count)
    with (depth_factor_scaled edge_count td).
  2: { unfold depth_factor_scaled. destruct (Z.leb_spec (Z.of_nat edge_count) (effective_depth td)).
       - rewrite Z.min_r by lia. rewrite Z.mul_comm, Z.div_mul; lia.
       - rewrite Z.min_l by lia.
         rewrite u128_sat_mul_small by (unfold is_u64, U64_MAX, TOPOSTAKE_FIXED_POINT_SCALE in *; lia). done. }
  destruct (fixed_pow_spec (lambda_scaled td) (edge_count - 1) (lambda_scaled_range td Htd)) as [Hp _].
  rewrite u128_sat_mul_small by (unfold is_u64, U64_MAX, TOPOSTAKE_FIXED_POINT_SCALE in *; lia).
  apply clamp64_small.
  pose proof (part_le (depth_factor_scaled edge_count td)
    (fixed_pow_scaled (lambda_scaled td) (edge_count - 1)) SCALE) as Hb.
  unfold U64_MAX, TOPOSTAKE_FIXED_POINT_SCALE in *. lia.
Qed.

Lemma path_budget_range edge_count td : is_u64 td -> 0 <= topostake_path_budget_scaled edge_count td <= SCALE.
Proof.
  intros Htd. destruct (decide (edge_count = 0%nat)) as [->|He].
  { unfold topostake_path_budget_scaled, TOPOSTAKE_FIXED_POINT_SCALE. rewrite decide_True by done. lia. }
  destruct (path_budget_eq edge_count td Htd ltac:(lia)) as [Hf ->].
  destruct (fixed_pow_spec (lambda_scaled td) (edge_count - 1) (lambda_scaled_range td Htd)) as [Hp _].
  pose proof (part_le (depth_factor_scaled edge_count td)
    (fixed_pow_scaled (lambda_scaled td) (edge_count - 1)) SCALE) as Hb.
  unfold TOPOSTAKE_FIXED_POINT_SCALE in *. lia.
Qed.

(** ** Relay weights *)

Lemma relay_weights_spec td n : is_u64 td ->
  Forall (fun w => 0 <= w <= SCALE) (relay_weights td n)
  /\ ((1 <= n)%nat -> SCALE <= zsum (relay_weights td n) <= 2 * SCALE)
  /\ u128_sum (relay_weights td n) = zsum (relay_weights td n).
Proof.
  intros Htd. destruct (r_scaled_range td Htd) as [Hr0 Hr]. unfold relay_weights.
  assert (Forall (fun w => 0 <= w <= SCALE) (map (fixed_pow_scaled (r_scaled td)) (seq 0 n))) as Hw.
  { apply Forall_forall. intros w (k & -> & _)%list_elem_of_fmap.
    apply fixed_pow_spec. unfold TOPOSTAKE_FIXED_POINT_SCALE in *. lia. }
  pose proof (fixed_pow_sum (r_scaled td) 0 n Hr0 Hr) as Hs. rewrite fixed_pow_0 in Hs.
  split; [done|]. split.
  - intros Hn. split; [|lia]. destruct n as [|n]; [lia|].
    rewrite <- cons_seq. cbn [map zsum foldr]. rewrite fixed_pow_0.
    pose proof (fixed_pow_sum (r_scaled td) 1 n Hr0 Hr). unfold zsum in *. lia.
  - apply u128_sum_eq; [eapply Forall_impl; [done|]; simpl; lia|].
    unfold TOPOSTAKE_FIXED_POINT_SCALE in *. lia.
Qed.

(** The share of the [i]-th of [n] relays, without the saturations. *)
Definition relay_share td edge_count i : Z :=
  topostake_path_budget_scaled edge_count td * fixed_pow_scaled (r_scaled td) i
  / zsum (relay_weights td (edge_count - 1)).

Lemma relay_share_le td edge_count i : is_u64 td -> (i < edge_count - 1)%nat ->
  0 <= relay_share td edge_count i <= topostake_path_budget_scaled edge_count td.
Proof.
  intros Htd Hi. unfold relay_share.
  destruct (relay_weights_spec td (edge_count - 1) Htd) as (Hw & Hs & _).
  specialize (Hs ltac:(lia)). destruct (path_budget_range edge_count td Htd) as [Hb _].
  destruct (r_scaled_range td Htd) as [Hr0 Hr].
  destruct (fixed_pow_spec (r_scaled td) i ltac:(unfold TOPOSTAKE_FIXED_POINT_SCALE in *; lia)) as [Hp _].
  apply part_le; [done| |unfold TOPOSTAKE_FIXED_POINT_SCALE in *; lia]. lia.
Qed.

(** What is paid for a path: each relay its share, shares of zero left out. *)
Lemma contributions_eq td path : is_u64 td -> (3 <= length path)%nat ->
  topostake_path_relay_contributions td path =
  filter (fun vc => 0 < vc.2)
    (zip (take (length path - 2) (drop 1 path))
         (map (relay_share td (length path - 1)) (seq 0 (length path - 2)))).
Proof.
  intros Htd Hl. unfold topostake_path_relay_contributions. rewrite decide_False by lia. cbv zeta.
  replace (length path - 1 - 1)%nat with (length path - 2)%nat by lia.
  destruct (relay_weights_spec td (length path - 2) Htd) as (_ & Hs & Hsum). specialize (Hs ltac:(lia)).
  rewrite Hsum. destruct (path_budget_range (length path - 1) td Htd) as [Hb0 Hb1].
  destruct (Z.eqb_spec (zsum (relay_weights td (length path - 2))) 0) as [E|_];
    [unfold TOPOSTAKE_FIXED_POINT_SCALE in *; lia|].
  assert (map (fun vw : Z * Z => (vw.1, clamp64 (u128_sat_mul (topostake_path_budget_scaled (length path - 1) td) vw.2
             / zsum (relay_weights td (length path - 2)))))
           (zip (take (length path - 2) (drop 1 path)) (relay_weights td (length path - 2)))
         = zip (take (length path - 2) (drop 1 path))
             (map (relay_share td (length path - 1)) (seq 0 (length path - 2)))) as Hmap.
  { unfold relay_weights. generalize (take (length path - 2) (drop 1 path)).
    assert (Forall (fun i => (i < length path - 2)%nat) (seq 0 (length path - 2))) as Hseq.
    { apply Forall_forall. intros i Hi%elem_of_seq. lia. }
    revert Hseq. generalize (seq 0 (length path - 2)) at 1 3 4 as js. intros js His l.
    revert l. induction His as [|i js Hi His IH]; intros [|v l]; simpl; try done. f_equal; [|apply IH].
    f_equal.
    pose proof (relay_share_le td (length path - 1) i Htd ltac:(lia)) as Hle. unfold relay_share in *.
    replace (length path - 1 - 1)%nat with (length path - 2)%nat in * by lia. unfold relay_weights in *.
    destruct (r_scaled_range td Htd) as [Hr0 Hr].
    destruct (fixed_pow_spec (r_scaled td) i ltac:(unfold TOPOSTAKE_FIXED_POINT_SCALE in *; lia)) as [Hp _].
    rewrite u128_sat_mul_small by (unfold is_u64, U64_MAX, TOPOSTAKE_FIXED_POINT_SCALE in *; lia).
    apply clamp64_small. unfold U64_MAX, TOPOSTAKE_FIXED_POINT_SCALE in *. lia. }
  rewrite Hmap. destruct (Z.eqb_spec (topostake_path_budget_scaled (length path - 1) td) 0) as [E|_]; [|done].
  symmetry. apply list_filter_none. apply Forall_forall. intros [v c] Hin. simpl.
  apply elem_of_zip_r in Hin. apply list_elem_of_fmap in Hin as (i & -> & Hi%elem_of_seq).
  pose proof (relay_share_le td (length path - 1) i Htd ltac:(lia)). lia.
Qed.

Lemma contributions_short td path : (length path <= 2)%nat -> topostake_path_relay_contributions td path = [].
Proof. intros Hl. unfold topostake_path_relay_contributions. by rewrite decide_True by lia. Qed.

(** Relays are paid something, together at most the budget of the path. *)
Lemma contributions_bounded td path : is_u64 td ->
  Forall (fun vc => 0 < vc.2) (topostake_path_relay_contributions td path)
  /\ 0 <= zsum (topostake_path_relay_contributions td path).*2
       <= topostake_path_budget_scaled (length path - 1) td.
Proof.
  intros Htd. pose proof (path_budget_range (length path - 1) td Htd) as Hb.
  destruct (decide (length path <= 2)%nat) as [Hs|Hl].
  { rewrite contributions_short by done. simpl. split; [constructor|lia]. }
  rewrite contributions_eq by (done || lia). set (l := zip _ _).
  destruct (relay_weights_spec td (length path - 2) Htd) as (Hw & Hs & _). specialize (Hs ltac:(lia)).
  assert (Forall (fun vc => 0 <= vc.2) l) as Hnn.
  { apply Forall_forall. intros [v c] Hin%elem_of_zip_r. simpl.
    apply list_elem_of_fmap in Hin as (i & -> & Hi%elem_of_seq).
    apply (relay_share_le td (length path - 1) i Htd). lia. }
  split; [apply Forall_forall; intros vc [Hp _]%list_elem_of_filter; done|].
  split.
  { apply zsum_nonneg. apply Forall_forall. intros c (vc & -> & [Hp _]%list_elem_of_filter)%list_elem_of_fmap. lia. }
  change (filter (fun vc : Z * Z => 0 < vc.2) l).*2 with (map snd (filter (fun vc : Z * Z => 0 < vc.2) l)).
  rewrite (zsum_filter_pos snd) by done. unfold l. rewrite snd_zip.
  2: { rewrite length_take, length_drop, length_map, length_seq. lia. }
  unfold relay_share. replace (length path - 1 - 1)%nat with (length path - 2)%nat by lia.
  rewrite <- (map_map (fixed_pow_scaled (r_scaled td))
    (fun w => topostake_path_budget_scaled (length path - 1) td * w / zsum (relay_weights td (length path - 2)))).
  fold (relay_weights td (length path - 2)).
  etransitivity; [apply zsum_floor_le; [lia| |]|].
  - unfold TOPOSTAKE_FIXED_POINT_SCALE in *. lia.
  - eapply Forall_impl; [exact Hw|]. simpl. lia.
  - rewrite Z.div_mul; [done|]. unfold TOPOSTAKE_FIXED_POINT_SCALE in *. lia.
Qed.

End schedule.
