(* ===== verification/FixedPointFacts.v ===== *)
(** * The fixed-point schedule refines the real-valued one

    The relay shares of [FixedPoint] against [gamma_for_depth] of [Formulas] at the
    reals, and the truncated logarithm series against the logarithm. *)

From Stdlib Require Import Reals Lra.
From S2P Require Export FixedPoint.

Section reals.
Local Open Scope R_scope.

Definition Sc : R := IZR SCALE.

Lemma Sc_eq : Sc = 1000000000.
Proof. done. Qed.

Lemma floor_R (a b : Z) : (0 < b)%Z -> IZR a / IZR b - 1 < IZR (a / b) <= IZR a / IZR b.
Proof.
  intros Hb. assert (0 < IZR b) by (by apply IZR_lt).
  pose proof (Z.mul_div_le a b Hb) as H1. pose proof (Z.mul_succ_div_gt a b Hb) as H2.
  apply IZR_le in H1. apply IZR_lt in H2. rewrite mult_IZR in H1, H2. rewrite succ_IZR in H2.
  split.
  - apply Rmult_lt_reg_l with (IZR b); [done|]. replace (IZR b * (IZR a / IZR b - 1)) with (IZR a - IZR b) by (field; lra).
    lra.
  - apply Rmult_le_reg_l with (IZR b); [done|]. replace (IZR b * (IZR a / IZR b)) with (IZR a) by (field; lra). lra.
Qed.

(** A scaled value: the real [x] rounded down to a multiple of 1e-9. *)
Definition near (e : R) (n : Z) (x : R) : Prop := Sc * x - e <= IZR n <= Sc * x.

Lemma near_pow (x e : R) (b : Z) (k : nat) :
  0 <= x <= 1 -> 0 <= e -> x * e + 2 <= e -> (0 <= b <= SCALE)%Z -> near 1 b x ->
  near e (fixed_pow_scaled b k) (x ^ k).
Proof.
  intros Hx He Hfix Hb Hn. induction k as [|k IH].
  { rewrite fixed_pow_0. unfold near. fold Sc. simpl. lra. }
  destruct (fixed_pow_spec b k Hb) as [Hp ->]. unfold near in *.
  destruct (floor_R (fixed_pow_scaled b k * b) SCALE ltac:(done)) as [Hlo Hhi].
  rewrite mult_IZR in Hlo, Hhi. fold Sc in Hlo, Hhi. set (p := IZR (fixed_pow_scaled b k)) in *.
  assert (0 <= p <= Sc) as Hps by (split; apply IZR_le; lia).
  assert (0 <= IZR b) by (apply IZR_le; lia). rewrite Sc_eq in *. simpl.
  assert (0 <= x ^ k) by (apply pow_le; lra).
  split.
  - apply Rle_trans with (p * x - 2); [|apply Rlt_le; apply Rle_lt_trans with (p * IZR b / 1000000000 - 1); [|done]].
    + assert ((1000000000 * x ^ k - e) * x <= p * x) by (apply Rmult_le_compat_r; lra). nra.
    + assert (p * (1000000000 * x - 1) <= p * IZR b) by (apply Rmult_le_compat_l; lra). lra.
  - etransitivity; [exact Hhi|]. apply Rmult_le_reg_r with 1000000000; [lra|].
    replace (p * IZR b / 1000000000 * 1000000000) with (p * IZR b) by field.
    assert (p * IZR b <= (1000000000 * x ^ k) * (1000000000 * x)) by (apply Rmult_le_compat; lra). nra.
Qed.

(** Rounding a share: [B] and [w] are a budget and a weight, [W] the sum of the
    weights, all rounded; [beta], [x] and [G] their real values. *)
Lemma share_bounds (B w W : Z) (g G beta x n : R) :
  (0 <= B <= SCALE)%Z -> (0 <= w <= SCALE /\ w <= W)%Z -> (0 < W)%Z ->
  near 10 B beta -> near 4 w x -> Sc * G - 4 * n <= IZR W <= Sc * G ->
  1 <= G -> 0 <= beta <= 1 -> 0 <= x -> g * G = beta * x -> 0 <= n ->
  Sc * g - 15 <= IZR (B * w / W) <= Sc * g + 4 * n.
Proof.
  intros HB [Hw HwW] HW [HB1 HB2] [Hw1 Hw2] [HW1 HW2] HG Hbeta Hx Hg Hn.
  pose proof (part_le B w W ltac:(lia) ltac:(lia) HW) as Hc.
  destruct (floor_R (B * w) W HW) as [Hlo Hhi]. rewrite mult_IZR in Hlo, Hhi.
  assert (0 <= IZR (B * w / W) <= Sc) as Hcr by (split; apply IZR_le; lia).
  assert (0 <= IZR B <= Sc) as HBr by (split; apply IZR_le; lia).
  assert (0 <= IZR w <= Sc) as Hwr by (split; apply IZR_le; lia).
  assert (0 < IZR W) as HWr by (by apply IZR_lt).
  set (c := IZR (B * w / W)) in *. set (b := IZR B) in *. set (v := IZR w) in *. set (V := IZR W) in *.
  assert (c * V <= b * v) as Hhi'.
  { apply (Rmult_le_compat_r V) in Hhi; [|lra]. replace (b * v / V * V) with (b * v) in Hhi by (field; lra). done. }
  assert (b * v < (c + 1) * V) as Hlo'.
  { assert (b * v / V < c + 1) as Hl by lra. apply (Rmult_lt_compat_r V) in Hl; [|lra].
    replace (b * v / V * V) with (b * v) in Hl by (field; lra). done. }
  clear Hlo Hhi. rewrite Sc_eq in *. split.
  - assert (b * v >= 1000000000 * (1000000000 * (beta * x)) - 14 * 1000000000) as H1.
    { assert ((1000000000 * beta - 10) * v <= b * v) by (apply Rmult_le_compat_r; lra).
      assert (beta * (1000000000 * x - 4) <= beta * v) by (apply Rmult_le_compat_l; lra). nra. }
    assert ((c + 1) * V <= (c + 1) * (1000000000 * G)) as H2 by (apply Rmult_le_compat_l; lra).
    rewrite <- Hg in H1. assert ((1000000000 * g - c - 1) * G <= 14) as H3 by lra.
    destruct (Rle_dec (1000000000 * g - c - 1) 0); [lra|].
    assert ((1000000000 * g - c - 1) * 1 <= (1000000000 * g - c - 1) * G) by (apply Rmult_le_compat_l; lra). lra.
  - assert (b * v <= (1000000000 * beta) * (1000000000 * x)) as H1 by (apply Rmult_le_compat; lra).
    assert (c * (1000000000 * G - 4 * n) <= c * V) as H2 by (apply Rmult_le_compat_l; lra).
    assert (c * n <= 1000000000 * n) as H3 by (apply Rmult_le_compat_r; lra).
    assert ((1000000000 * beta) * (1000000000 * x) = 1000000000 * (1000000000 * (g * G))) as H4 by (rewrite Hg; ring).
    assert ((c - 1000000000 * g) * G <= 4 * n) as H5 by lra.
    destruct (Rle_dec (c - 1000000000 * g) 0); [lra|].
    assert ((c - 1000000000 * g) * 1 <= (c - 1000000000 * g) * G) by (apply Rmult_le_compat_l; lra). lra.
Qed.

Section depth.
Context (D : nat) (HD : (1 <= D)%nat) (Htd : is_u64 (Z.of_nat D)).
Abbreviation td := (Z.of_nat D).

Lemma effective_depth_eq : effective_depth td = td.
Proof using HD. unfold effective_depth. lia. Qed.

Lemma D_ge_1 : 1 <= INR D.
Proof using HD. by apply (le_INR 1). Qed.

Lemma near_lambda : near 1 (lambda_scaled td) (lam D).
Proof using HD Htd.
  rewrite lambda_scaled_eq, effective_depth_eq by done. unfold near, lam.
  destruct (floor_R ((2 * td + 1) * SCALE) (3 * td + 1) ltac:(lia)) as [Hlo Hhi].
  rewrite !mult_IZR, !plus_IZR, !mult_IZR, <- !INR_IZR_INZ in *. fold Sc in *.
  pose proof D_ge_1.
  replace (Sc * ((2 * INR D + 1) / (3 * INR D + 1))) with ((2 * INR D + 1) * Sc / (3 * INR D + 1)) by (field; lra).
  lra.
Qed.

Lemma near_r : near 1 (r_scaled td) (rr D).
Proof using HD Htd.
  rewrite r_scaled_eq, effective_depth_eq by done. unfold near, rr.
  destruct (floor_R (td * SCALE) (2 * td + 1) ltac:(lia)) as [Hlo Hhi].
  rewrite !mult_IZR, !plus_IZR, !mult_IZR, <- !INR_IZR_INZ in *. fold Sc in *.
  pose proof D_ge_1.
  replace (Sc * (INR D / (2 * INR D + 1))) with (INR D * Sc / (2 * INR D + 1)) by (field; lra). lra.
Qed.

Lemma lam_le : lam D <= 3 / 4.
Proof using HD.
  pose proof D_ge_1. unfold lam. apply Rmult_le_reg_r with (3 * INR D + 1); [lra|].
  unfold Rdiv at 1. rewrite Rmult_assoc, Rinv_l by lra. lra.
Qed.

Lemma near_decay k : near 8 (fixed_pow_scaled (lambda_scaled td) k) (lam D ^ k).
Proof using HD Htd.
  pose proof lam_le. pose proof (lam_bounds D).
  apply near_pow; [lra|lra|lra|by apply lambda_scaled_range|apply near_lambda].
Qed.

Lemma near_weight k : near 4 (fixed_pow_scaled (r_scaled td) k) (rr D ^ k).
Proof using HD Htd.
  pose proof (rr_bounds D). destruct (r_scaled_range td Htd).
  apply near_pow; [lra|lra|lra|unfold TOPOSTAKE_FIXED_POINT_SCALE in *; lia|apply near_r].
Qed.

(** The budget of a path is the real one, rounded down, up to ten units. *)
Lemma near_budget m : (2 <= m)%nat -> path_fits m ->
  near 10 (topostake_path_budget_scaled m td) (path_budget_for_depth (F := R) D m).
Proof using HD Htd.
  intros Hm Hf. rewrite budget_R by done.
  destruct (path_budget_eq m td Htd ltac:(lia)) as [Hdf ->].
  pose proof (near_decay (m - 1)) as [Hp1 Hp2].
  destruct (fixed_pow_spec (lambda_scaled td) (m - 1) (lambda_scaled_range td Htd)) as [Hp _].
  assert (near 1 (depth_factor_scaled m td) (depth_factor D m)) as [Hd1 Hd2].
  { unfold near, depth_factor_scaled, depth_factor. rewrite effective_depth_eq.
    destruct (floor_R (Z.min td (Z.of_nat m) * SCALE) (Z.of_nat m) ltac:(lia)) as [Hlo Hhi].
    rewrite mult_IZR, <- Nat2Z.inj_min, <- !INR_IZR_INZ in *. fold Sc in *.
    assert (0 < INR m) by (apply (lt_INR 0); lia). 
    replace (Rmin (INR D) (INR m)) with (INR (D `min` m))
      by (unfold Rmin; destruct (Rle_dec (INR D) (INR m)) as [E|E];
          [apply INR_le in E; f_equal; lia|apply Rnot_le_lt, INR_lt in E; f_equal; lia]).
    replace (Sc * (INR (D `min` m) / INR m)) with (INR (D `min` m) * Sc / INR m) by (field; lra). lra. }
  destruct (depth_factor_bounds D m ltac:(lia)) as [Hf0 Hf1].
  destruct (floor_R (depth_factor_scaled m td * fixed_pow_scaled (lambda_scaled td) (m - 1)) SCALE ltac:(done))
    as [Hlo Hhi].
  rewrite mult_IZR in Hlo, Hhi. fold Sc in Hlo, Hhi.
  assert (0 <= IZR (fixed_pow_scaled (lambda_scaled td) (m - 1)) <= Sc) as Hpr by (split; apply IZR_le; lia).
  assert (0 <= IZR (depth_factor_scaled m td)) by (apply IZR_le; lia).
  set (p := IZR (fixed_pow_scaled _ _)) in *. set (f := IZR (depth_factor_scaled m td)) in *.
  assert (0 <= lam D ^ (m - 1)) by (apply pow_le; pose proof (lam_bounds D); lra).
  unfold near. rewrite Sc_eq in *. split.
  - assert ((1000000000 * depth_factor D m - 1) * p <= f * p) by (apply Rmult_le_compat_r; lra).
    assert (depth_factor D m * (1000000000 * lam D ^ (m - 1) - 8) <= depth_factor D m * p)
      by (apply Rmult_le_compat_l; lra). nra.
  - etransitivity; [exact Hhi|]. apply Rmult_le_reg_r with 1000000000; [lra|].
    replace (f * p / 1000000000 * 1000000000) with (f * p) by field.
    assert (f * p <= (1000000000 * depth_factor D m) * (1000000000 * lam D ^ (m - 1)))
      by (apply Rmult_le_compat; lra). nra.
Qed.

(** The sum of the relay weights against the geometric sum. *)
Lemma near_weight_sum n :
  Sc * fsum (map (fun k => rr D ^ k) (seq 0 n)) - 4 * INR n <= IZR (zsum (relay_weights td n))
    <= Sc * fsum (map (fun k => rr D ^ k) (seq 0 n)).
Proof using HD Htd.
  unfold relay_weights. generalize 0%nat. induction n as [|n IH]; intros a; [simpl; rewrite fsum_nil; lra|].
  rewrite <- cons_seq. cbn [map zsum foldr]. rewrite fsum_cons, plus_IZR, S_INR.
  fold (zsum (map (fixed_pow_scaled (r_scaled td)) (seq (S a) n))).
  pose proof (IH (S a)). pose proof (near_weight a) as [H1 H2]. lra.
Qed.

Lemma geom_ge_1 n : (1 <= n)%nat -> 1 <= fsum (map (fun k => rr D ^ k) (seq 0 n)).
Proof using HD.
  intros Hn. destruct n as [|n]; [lia|]. rewrite <- cons_seq. cbn [map]. rewrite fsum_cons. simpl.
  assert (0 <= fsum (map (fun k => rr D ^ k) (seq 1 n))).
  { apply fsum_map_nonneg. intros k _. apply pow_le. pose proof (rr_bounds D). lra. }
  lra.
Qed.

Lemma gamma_share i m : (1 <= i < m)%nat -> path_fits m ->
  gamma_for_depth (F := R) D i m * fsum (map (fun k => rr D ^ k) (seq 0 (m - 1)))
  = path_budget_for_depth (F := R) D m * rr D ^ (i - 1).
Proof using HD.
  intros Hi Hf. unfold gamma_for_depth. rewrite alpha_R by done.
  pose proof (pow_lt_1_rr D (m - 1) ltac:(lia)). pose proof (rr_bounds D).
  assert (fsum (map (fun k => rr D ^ k) (seq 0 (m - 1))) = (1 - rr D ^ (m - 1)) / (1 - rr D)) as ->.
  { pose proof (geom_sum (rr D) 0 (m - 1)) as Hs. rewrite <- seq_shift, map_map in Hs.
    rewrite (fsum_map_ext _ (fun k => rr D ^ k)) in Hs by (intros k _; f_equal; lia).
    simpl in Hs. apply (Rmult_eq_reg_l (1 - rr D)); [|lra]. rewrite Hs. field. lra. }
  simpl. field. lra.
Qed.

(** A relay's share is the real one up to rounding. *)
Lemma share_refines i m : (1 <= i < m)%nat -> path_fits m ->
  Sc * gamma_for_depth (F := R) D i m - 15 <= IZR (relay_share td m (i - 1))
    <= Sc * gamma_for_depth (F := R) D i m + 4 * INR m.
Proof using HD Htd.
  intros Hi Hf.
  pose proof (relay_share_le td m (i - 1) Htd ltac:(lia)) as Hc.
  pose proof (path_budget_range m td Htd) as HB.
  destruct (relay_weights_spec td (m - 1) Htd) as (_ & HWs & _). specialize (HWs ltac:(lia)).
  destruct (r_scaled_range td Htd) as [Hr0 Hr].
  destruct (fixed_pow_spec (r_scaled td) (i - 1) ltac:(unfold TOPOSTAKE_FIXED_POINT_SCALE in *; lia)) as [Hwr _].
  assert (0 < zsum (relay_weights td (m - 1)))%Z as HWp by (unfold TOPOSTAKE_FIXED_POINT_SCALE in *; lia).
  assert (INR (m - 1) <= INR m) as Hmm by (apply le_INR; lia).
  destruct (share_bounds (topostake_path_budget_scaled m td) (fixed_pow_scaled (r_scaled td) (i - 1))
    (zsum (relay_weights td (m - 1))) (gamma_for_depth D i m)
    (fsum (map (fun k => rr D ^ k) (seq 0 (m - 1)))) (path_budget_for_depth D m) (rr D ^ (i - 1)) (INR (m - 1)))
    as [Hlo Hhi].
  - split; lia.
  - unfold TOPOSTAKE_FIXED_POINT_SCALE in *. lia.
  - done.
  - by apply near_budget; [lia|].
  - apply near_weight.
  - apply near_weight_sum.
  - apply geom_ge_1. lia.
  - apply path_budget_bounds. done.
  - apply pow_le. apply rr_bounds.
  - by apply gamma_share.
  - apply pos_INR.
  - split; [exact Hlo|]. etransitivity; [exact Hhi|]. lra.
Qed.

End depth.
(** The share recorded for the validator at position [i] of a path. *)
Lemma contribution_at (td : Z) (path : list Z) (i : nat) (v : Z) :
  is_u64 td -> NoDup path -> path !! i = Some v ->
  get_or 0%Z (collect_map (topostake_path_relay_contributions td path)) v
  = if decide (1 <= i < length path - 1)%nat then relay_share td (length path - 1) (i - 1) else 0%Z.
Proof.
  intros Htd Hnd Hi. unfold get_or. pose proof (lookup_lt_Some _ _ _ Hi) as Hil.
  destruct (decide (length path <= 2)%nat).
  { rewrite contributions_short by done. rewrite decide_False by lia. done. }
  rewrite contributions_eq by (done || lia).
  set (nodes := take (length path - 2) (drop 1 path)).
  set (shares := map (relay_share td (length path - 1)) (seq 0 (length path - 2))).
  assert (forall j u, nodes !! j = Some u <-> path !! S j = Some u /\ (j < length path - 2)%nat) as Hnodes.
  { intros j u. unfold nodes. rewrite lookup_take_Some, lookup_drop. by replace (1 + j)%nat with (S j). }
  assert (NoDup nodes) as Hndn by (eapply sublist_NoDup; [exact Hnd|]; unfold nodes; etransitivity; [apply sublist_take|apply sublist_drop]).
  assert (NoDup (filter (fun vc : Z * Z => (0 < vc.2)%Z) (zip nodes shares)).*1) as Hndz.
  { apply nodup_keys_filter. rewrite fst_zip; [done|].
    unfold nodes, shares. rewrite length_take, length_drop, length_map, length_seq. lia. }
  destruct (collect_map _ !! v) as [c|] eqn:E; simpl.
  - rewrite <- elem_of_map_to_list, (collect_map_to_list _ Hndz) in E. apply list_elem_of_filter in E as [_ E].
    apply list_elem_of_lookup in E as [j Hj]. apply lookup_zip_Some in Hj as [Hj1 Hj2].
    apply Hnodes in Hj1 as [Hj1 Hj]. assert (i = S j) as -> by (exact (NoDup_lookup path i (S j) v Hnd Hi Hj1)).
    unfold shares in Hj2. rewrite list_lookup_fmap, lookup_seq_lt in Hj2 by lia. injection Hj2 as <-.
    rewrite decide_True by lia. f_equal. lia.
  - case_decide as Hd; [|done]. pose proof (relay_share_le td (length path - 1) (i - 1) Htd ltac:(lia)) as Hle.
    destruct (decide (0 < relay_share td (length path - 1) (i - 1))%Z); [|lia]. exfalso.
    apply eq_None_not_Some in E. apply E, collect_map_dom, list_elem_of_fmap.
    exists (v, relay_share td (length path - 1) (i - 1)). split; [done|]. apply list_elem_of_filter. split; [done|].
    apply list_elem_of_lookup. exists (i - 1)%nat. apply lookup_zip_Some. split.
    + apply Hnodes. replace (S (i - 1)) with i by lia. split; [done|lia].
    + unfold shares. rewrite list_lookup_fmap, lookup_seq_lt by lia. done.
Qed.

(** C35: The consensus client computes the simulator's relay shares.  For every path
    of distinct validators and every configured depth, the share the fixed-point
    code records for the validator at any position, end points and unpaid positions
    included, is the real-valued share of the simulator's formula scaled by 10^9, up
    to a rounding error of a few units: at most 15 plus 4 per edge of the path. *)
Theorem shares_refine_formula (D : nat) (path : list Z) (i : nat) (v : Z) :
  (1 <= D)%nat -> is_u64 (Z.of_nat D) -> NoDup path -> path_fits (length path) -> path !! i = Some v ->
  let c := get_or 0%Z (collect_map (topostake_path_relay_contributions (Z.of_nat D) path)) v in
  Rabs (IZR c - IZR SCALE * gamma_for_depth (F := R) D i (length path - 1)) <= 15 + 4 * INR (length path - 1).
Proof.
  intros HD Htd Hnd Hf Hi. cbv zeta. rewrite (contribution_at _ _ i) by done. fold Sc.
  pose proof (pos_INR (length path - 1)). case_decide as Hd.
  - pose proof (share_refines D HD Htd i (length path - 1) ltac:(lia) ltac:(unfold path_fits in *; lia)) as [H1 H2].
    apply Rabs_le. lra.
  - rewrite gamma_outside by lia. rewrite Rmult_0_r, Rminus_0_r, Rabs_R0. lra.
Qed.

End reals.

(** * The logarithm *)

Section logarithm.
Local Open Scope R_scope.

Definition ln_series (t : R) (n : nat) : R := fsum (map (fun k => t ^ S k / INR (S k)) (seq 0 n)).
Definition ln_series' (t : R) (n : nat) : R := fsum (map (fun k => t ^ k) (seq 0 n)).

Lemma fsum_seq_snoc (f : nat -> R) n : fsum (map f (seq 0 (S n))) = fsum (map f (seq 0 n)) + f n.
Proof. rewrite seq_S, map_app, fsum_app. simpl. rewrite fsum_cons, fsum_nil. lra. Qed.

Lemma ln_series_derivable n t : derivable_pt_lim (fun x => ln_series x n) t (ln_series' t n).
Proof.
  induction n as [|n IH].
  { apply (derivable_pt_lim_ext (fun _ => 0)); [intros; unfold ln_series; simpl; by rewrite fsum_nil|].
    unfold ln_series'. simpl. rewrite fsum_nil. apply derivable_pt_lim_const. }
  apply (derivable_pt_lim_ext (fun x => ln_series x n + / INR (S n) * x ^ S n)).
  { intros x. unfold ln_series. rewrite fsum_seq_snoc. unfold Rdiv. lra. }
  unfold ln_series'. rewrite fsum_seq_snoc.
  apply (derivable_pt_lim_plus (fun x => ln_series x n) (fun x => / INR (S n) * x ^ S n)); [exact IH|].
  assert (t ^ n = / INR (S n) * (INR (S n) * t ^ n)) as ->.
  { assert (INR (S n) <> 0) by (apply not_0_INR; lia). by field. }
  apply (derivable_pt_lim_scal (fun x => x ^ S n)). apply (derivable_pt_lim_pow t (S n)).
Qed.

Lemma geometric_le t n : 0 <= t < 1 -> ln_series' t n <= / (1 - t).
Proof.
  intros Ht. assert ((1 - t) * ln_series' t n = 1 - t ^ n) as H.
  { induction n as [|n IH]; [unfold ln_series'; simpl; rewrite fsum_nil; lra|].
    unfold ln_series' in *. rewrite fsum_seq_snoc, Rmult_plus_distr_l, IH. simpl. ring. }
  apply Rmult_le_reg_l with (1 - t); [lra|]. rewrite H, Rinv_r by lra.
  pose proof (pow_le t n ltac:(lra)). lra.
Qed.

Lemma ln_series_0 n : ln_series 0 n = 0.
Proof.
  unfold ln_series. rewrite (fsum_map_ext _ (fun _ => 0 * 0)) by (intros k _; simpl; unfold Rdiv; lra).
  rewrite fsum_map_scale. lra.
Qed.

(** Every partial sum of the series stays below the logarithm. *)
Lemma ln_series_le t n : 0 <= t < 1 -> ln_series t n <= - ln (1 - t).
Proof.
  intros Ht. destruct (Req_dec t 0) as [->|Hne].
  { rewrite Rminus_0_r, ln_1, ln_series_0. lra. }
  set (f := fun x => - ln (1 - x) - ln_series x n).
  destruct (MVT_cor2 f (fun x => / (1 - x) - ln_series' x n) 0 t ltac:(lra)) as (c & Hc & Hcb).
  { intros c Hc. unfold f. apply (derivable_pt_lim_minus (fun x => - ln (1 - x))); [|apply ln_series_derivable].
    assert (/ (1 - c) = - (/ (1 - c) * (0 - 1))) as -> by lra.
    apply (derivable_pt_lim_opp (fun x => ln (1 - x))).
    apply (derivable_pt_lim_comp (fun x => 1 - x) ln).
    - apply (derivable_pt_lim_minus (fun _ => 1) (fun x => x)); [apply derivable_pt_lim_const|apply derivable_pt_lim_id].
    - apply derivable_pt_lim_ln. lra. }
  assert (f 0 = 0) as H0 by (unfold f; rewrite Rminus_0_r, ln_1, ln_series_0; lra).
  pose proof (geometric_le c n ltac:(lra)) as Hg.
  assert (0 <= (/ (1 - c) - ln_series' c n) * (t - 0)) by (apply Rmult_le_pos; lra).
  rewrite H0 in Hc. unfold f in Hc. lra.
Qed.

(** ** The rounds of the code *)

Lemma Rdiv_nonneg a b : 0 <= a -> 0 < b -> 0 <= a / b.
Proof. intros. apply Rmult_le_pos; [done|]. left. by apply Rinv_0_lt_compat. Qed.

Lemma sat_mul_div_le (a b : Z) : (0 <= a)%Z -> (0 <= b)%Z -> (0 <= u128_sat_mul a b / SCALE)%Z /\
  IZR (u128_sat_mul a b / SCALE) <= IZR a * IZR b / Sc.
Proof.
  intros Ha Hb. split; [apply Z.div_pos; [by apply u128_sat_mul_nonneg|done]|].
  destruct (floor_R (u128_sat_mul a b) SCALE ltac:(done)) as [_ H]. etransitivity; [exact H|]. fold Sc.
  rewrite <- mult_IZR. unfold Rdiv. apply Rmult_le_compat_r; [rewrite Sc_eq; lra|].
  apply IZR_le, u128_sat_mul_le.
Qed.

Lemma ln_series_mono t n k : 0 <= t -> ln_series t n <= ln_series t (n + k).
Proof.
  intros Ht. induction k as [|k IH]; [rewrite Nat.add_0_r; lra|].
  rewrite Nat.add_succ_r. unfold ln_series in *. rewrite fsum_seq_snoc.
  assert (0 <= t ^ S (n + k) / INR (S (n + k))); [|lra].
  apply Rdiv_nonneg; [apply pow_le; lra|apply (lt_INR 0); lia].
Qed.

Lemma ln_rounds_le (t : R) rounds : forall (n : nat) (z term sum : Z),
  0 <= t -> (0 <= z)%Z -> (0 <= term)%Z -> IZR z <= Sc * t ->
  IZR term <= Sc * t ^ S n -> IZR sum <= Sc * ln_series t n ->
  IZR (ln_rounds rounds (Z.of_nat (S n)) z term sum) <= Sc * ln_series t (n + rounds).
Proof.
  induction rounds as [|rounds IH]; intros n z term sum Ht Hz Hterm Hzt Htt Hs; [by rewrite Nat.add_0_r|].
  cbn [ln_rounds]. destruct (sat_mul_div_le term z Hterm Hz) as [Hp Hle].
  assert (IZR (u128_sat_add sum (term / Z.of_nat (S n))) <= Sc * ln_series t (S n)) as Hs'.
  { apply Rle_trans with (IZR (sum + term / Z.of_nat (S n))); [apply IZR_le; unfold u128_sat_add; lia|].
    rewrite plus_IZR. unfold ln_series. rewrite fsum_seq_snoc, Rmult_plus_distr_l. apply Rplus_le_compat; [done|].
    destruct (floor_R term (Z.of_nat (S n)) ltac:(lia)) as [_ H]. etransitivity; [exact H|].
    rewrite <- INR_IZR_INZ. unfold Rdiv. rewrite <- Rmult_assoc. apply Rmult_le_compat_r; [|done].
    left. apply Rinv_0_lt_compat, (lt_INR 0). lia. }
  destruct (Z.eqb_spec (u128_sat_mul term z / SCALE) 0) as [_|Hne].
  - etransitivity; [exact Hs'|]. apply Rmult_le_compat_l; [rewrite Sc_eq; lra|].
    replace (n + S rounds)%nat with (S n + rounds)%nat by lia. by apply ln_series_mono.
  - replace (Z.of_nat (S n) + 1)%Z with (Z.of_nat (S (S n))) by lia.
    replace (n + S rounds)%nat with (S n + rounds)%nat by lia. apply IH; try done.
    etransitivity; [exact Hle|]. apply Rmult_le_reg_r with Sc; [rewrite Sc_eq; lra|].
    replace (IZR term * IZR z / Sc * Sc) with (IZR term * IZR z) by (field; rewrite Sc_eq; lra).
    apply Rle_trans with ((Sc * t ^ S n) * (Sc * t)).
    + apply Rmult_le_compat; [by apply IZR_le|by apply IZR_le|done|done].
    + simpl. right. ring.
Qed.

Lemma ln_rounds_ge rounds : forall n z term sum,
  (0 < n)%Z -> (0 <= z)%Z -> (0 <= term)%Z -> (0 <= sum <= U128_MAX)%Z ->
  (sum <= ln_rounds rounds n z term sum)%Z.
Proof.
  induction rounds as [|rounds IH]; intros n z term sum Hn Hz Ht Hs; [simpl; lia|]. cbn [ln_rounds].
  assert (0 <= term / n)%Z by (apply Z.div_pos; lia).
  assert (sum <= u128_sat_add sum (term / n) <= U128_MAX)%Z by (unfold u128_sat_add; lia).
  destruct (_ =? 0)%Z; [lia|]. etransitivity; [|apply IH]; try lia.
  apply Z.div_pos; [by apply u128_sat_mul_nonneg|done].
Qed.

(** More contribution never has a smaller logarithm. *)
Lemma ln_rounds_mono rounds : forall n z z' term term' sum sum',
  (0 < n)%Z -> (0 <= z <= z')%Z -> (0 <= term <= term')%Z -> (0 <= sum <= sum')%Z -> (sum' <= U128_MAX)%Z ->
  (ln_rounds rounds n z term sum <= ln_rounds rounds n z' term' sum')%Z.
Proof.
  induction rounds as [|rounds IH]; intros n z z' term term' sum sum' Hn Hz Ht Hs Hm; [simpl; lia|].
  cbn [ln_rounds].
  assert (term / n <= term' / n)%Z by (apply Z.div_le_mono; lia).
  assert (0 <= term / n)%Z by (apply Z.div_pos; lia).
  assert (u128_sat_add sum (term / n) <= u128_sat_add sum' (term' / n) <= U128_MAX)%Z by (unfold u128_sat_add; lia).
  assert (0 <= u128_sat_add sum (term / n))%Z by (unfold u128_sat_add, U128_MAX in *; lia).
  assert (0 <= u128_sat_mul term z <= u128_sat_mul term' z')%Z.
  { split; [apply u128_sat_mul_nonneg; lia|]. unfold u128_sat_mul.
    pose proof (Z.mul_le_mono_nonneg term term' z z' ltac:(lia) ltac:(lia) ltac:(lia) ltac:(lia)). lia. }
  assert (0 <= u128_sat_mul term z / SCALE <= u128_sat_mul term' z' / SCALE)%Z.
  { split; [apply Z.div_pos; [lia|done]|apply Z.div_le_mono; [done|lia]]. }
  destruct (Z.eqb_spec (u128_sat_mul term z / SCALE) 0), (Z.eqb_spec (u128_sat_mul term' z' / SCALE) 0); try lia.
  - etransitivity; [|apply ln_rounds_ge; lia]. lia.
  - apply IH; lia.
Qed.

(** The argument of the series: [x / (x + 1)] in fixed point. *)
Definition ln_arg (x : Z) : Z := u128_sat_mul x SCALE / u128_sat_add x SCALE.

Lemma ln_arg_eq x : is_u64 x -> ln_arg x = (x * SCALE / (x + SCALE))%Z /\ (0 <= ln_arg x <= SCALE)%Z.
Proof.
  intros Hx. unfold ln_arg. rewrite u128_sat_mul_small by (unfold is_u64, U64_MAX, TOPOSTAKE_FIXED_POINT_SCALE in *; lia).
  unfold u128_sat_add. rewrite Z.min_l by (unfold is_u64, U64_MAX, U128_MAX, TOPOSTAKE_FIXED_POINT_SCALE in *; lia).
  split; [done|]. unfold is_u64 in Hx.
  split; [apply Z.div_pos|apply Z.div_le_upper_bound]; unfold TOPOSTAKE_FIXED_POINT_SCALE; lia.
Qed.

Lemma ln_arg_mono x y : is_u64 x -> is_u64 y -> (x <= y)%Z -> (ln_arg x <= ln_arg y)%Z.
Proof.
  intros Hx Hy Hxy. destruct (ln_arg_eq x Hx) as [-> _], (ln_arg_eq y Hy) as [-> _]. unfold is_u64 in *.
  unfold TOPOSTAKE_FIXED_POINT_SCALE. apply Z.div_le_lower_bound; [lia|].
  pose proof (Z.mul_div_le (x * 1000000000) (x + 1000000000) ltac:(lia)).
  pose proof (part_le x 1000000000 (x + 1000000000) ltac:(lia) ltac:(lia) ltac:(lia)).
  set (q := (x * 1000000000 / (x + 1000000000))%Z) in *. nia.
Qed.

Lemma fixed_ln_mono a b : is_u64 a -> is_u64 b -> (a <= b)%Z -> (fixed_ln_1p_scaled a <= fixed_ln_1p_scaled b)%Z.
Proof.
  intros Ha Hb Hab. unfold fixed_ln_1p_scaled. fold (ln_arg a) (ln_arg b). cbv zeta.
  pose proof (ln_arg_mono a b Ha Hb Hab). destruct (ln_arg_eq a Ha) as [_ Hza], (ln_arg_eq b Hb) as [_ Hzb].
  pose proof (ln_rounds_ge 24 1 (ln_arg b) (ln_arg b) 0 ltac:(lia) ltac:(lia) ltac:(lia) ltac:(unfold U128_MAX; lia)).
  pose proof (ln_rounds_mono 24 1 (ln_arg a) (ln_arg b) (ln_arg a) (ln_arg b) 0 0
    ltac:(lia) ltac:(lia) ltac:(lia) ltac:(lia) ltac:(unfold U128_MAX; lia)).
  unfold is_u64 in *. destruct (Z.eqb_spec a 0), (Z.eqb_spec b 0); unfold clamp64, U64_MAX in *; lia.
Qed.

Lemma ln_le_compat a b : 0 < a -> a <= b -> ln a <= ln b.
Proof. intros Ha [Hab| ->]; [left; by apply ln_increasing|lra]. Qed.

(** The real value of the argument is at most [x / (1 + x)]. *)
Lemma ln_arg_le x : is_u64 x -> let t := IZR (ln_arg x) / Sc in
  0 <= t /\ Sc * t = IZR (ln_arg x) /\ / (1 + IZR x / Sc) <= 1 - t.
Proof.
  intros Hx. cbv zeta. destruct (ln_arg_eq x Hx) as [Heq Hz].
  assert (0 <= IZR x) by (apply IZR_le, Hx).
  assert (Sc * (IZR (ln_arg x) / Sc) = IZR (ln_arg x)) as Ht by (field; rewrite Sc_eq; lra).
  split_and!; [apply Rdiv_nonneg; [apply IZR_le; lia|rewrite Sc_eq; lra]|done|].
  replace (/ (1 + IZR x / Sc)) with (1 - IZR x / (IZR x + Sc)) by (rewrite Sc_eq; field; lra).
  apply Rplus_le_compat_l, Ropp_le_contravar, Rmult_le_reg_l with Sc; [rewrite Sc_eq; lra|]. rewrite Ht, Heq.
  destruct (floor_R (x * SCALE) (x + SCALE) ltac:(unfold is_u64, TOPOSTAKE_FIXED_POINT_SCALE in *; lia)) as [_ H1].
  rewrite mult_IZR, plus_IZR in H1. fold Sc in H1. unfold Rdiv in *. lra.
Qed.

Lemma fixed_ln_le_ln x : is_u64 x -> IZR (fixed_ln_1p_scaled x) <= Sc * ln (1 + IZR x / Sc).
Proof.
  intros Hx. unfold fixed_ln_1p_scaled. destruct (Z.eqb_spec x 0) as [->|Hne].
  { rewrite Rdiv_0_l, Rplus_0_r, ln_1. lra. }
  fold (ln_arg x). cbv zeta. destruct (ln_arg_eq x Hx) as [_ Hz]. destruct (ln_arg_le x Hx) as (Ht0 & Ht & Htx).
  set (t := IZR (ln_arg x) / Sc) in *.
  assert (0 < 1 + IZR x / Sc) as Hpos.
  { assert (0 <= IZR x / Sc) by (apply Rdiv_nonneg; [apply IZR_le, Hx|rewrite Sc_eq; lra]). lra. }
  pose proof (Rinv_0_lt_compat _ Hpos).
  apply Rle_trans with (IZR (ln_rounds 24 1 (ln_arg x) (ln_arg x) 0)); [apply IZR_le, clamp64_le|].
  etransitivity; [apply (ln_rounds_le t 24 0); try done; try lia|].
  - rewrite Ht. lra.
  - simpl. rewrite Rmult_1_r, Ht. lra.
  - unfold ln_series. simpl. rewrite fsum_nil. lra.
  - apply Rmult_le_compat_l; [rewrite Sc_eq; lra|]. etransitivity; [apply ln_series_le; lra|].
    rewrite <- (Rinv_inv (1 + IZR x / Sc)), ln_Rinv by done. apply Ropp_le_contravar. by apply ln_le_compat.
Qed.

(** The fixed-point logarithm is sound: for every [u64] argument it is at most
    the real [ln(1 + x)] (so rounding and truncation never inflate a contribution),
    it is monotone, and it levels off: no argument gives more than 3.775958144, the
    value of the 24-term series at its end, where the logarithm itself has no bound. *)
Theorem fixed_ln_below_ln (x y : Z) :
  is_u64 x -> is_u64 y -> (x <= y)%Z ->
  0 <= IZR (fixed_ln_1p_scaled x) <= IZR SCALE * ln (1 + IZR x / IZR SCALE)
  /\ (fixed_ln_1p_scaled x <= fixed_ln_1p_scaled y)%Z
  /\ (fixed_ln_1p_scaled x <= 3775958144)%Z.
Proof.
  intros Hx Hy Hxy. fold Sc. split_and!; [|by apply fixed_ln_le_ln|by apply fixed_ln_mono|].
  - apply IZR_le. change 0%Z with (fixed_ln_1p_scaled 0).
    apply fixed_ln_mono; unfold is_u64, U64_MAX in *; lia.
  - etransitivity; [apply (fixed_ln_mono x U64_MAX); unfold is_u64, U64_MAX in *; lia|]. by vm_compute.
Qed.

End logarithm.
