(* ===== verification/Evidence.v ===== *)
(** * Path evidence, scores and proposer weights of the consensus client

    The TopoStake part of the Lighthouse chain specification
    (src/ethereum-topostake/lighthouse/consensus/types/src/core/chain_spec.rs): its
    configuration with the overrides from the environment, the process-wide
    evidence runtime (paths recorded per epoch, credits, settled scores, the scores
    activated for a proposer epoch), and the proposer weights computed from it.

    Epochs, validator indices and amounts are [Z] in the range of [u64]; the runtime
    is explicit state.  Its lock is never poisoned: nothing panics while it is held.
    [Env] stands for the process environment. *)

From Stdlib Require Import Ascii.
From stdpp Require Import sorting pretty.
From S2P Require Export Text FixedPoint.
Local Open Scope rust_scope.
Local Open Scope Z_scope.

Class Env := env_var : string -> option string.

(** ** Configuration *)

Record TopoStakeScoreFixture := mkFixture { fx_validator_index : Z; fx_score_scaled : Z }.

Record TopoStakeConfig := mkSpecConfig {
  topostake_fork_epoch : option Z;
  eta_scaled : Z;
  bonus_cap_scaled : Z;
  score_ema_beta_scaled : Z;
  score_saturation_k_scaled : Z;
  score_target_depth : Z;
  score_cost_reference_wei : Z;
  score_floor_kappa_scaled : Z;
  bonus_zeta_scaled : Z;
  reward_settlement_depth : Z;
  max_path_evidence_len : Z;
  max_path_evidence_bytes : Z;
  max_paths_per_block : Z;
  proposer_fee_ratio_scaled : Z;
  cfg_evidence_finality_depth : Z;
  cfg_score_activation_delay_epochs : Z;
  evidence_work_limit : Z;
  challenge_work_limit : Z;
  score_fixture : list TopoStakeScoreFixture
}.

Definition disabled : TopoStakeConfig := {|
  topostake_fork_epoch := None;
  eta_scaled := SCALE / 2;
  bonus_cap_scaled := SCALE;
  score_ema_beta_scaled := SCALE * 8 / 10;
  score_saturation_k_scaled := SCALE;
  score_target_depth := 4;
  score_cost_reference_wei := 21000000000000;
  score_floor_kappa_scaled := SCALE;
  bonus_zeta_scaled := SCALE;
  reward_settlement_depth := 2;
  max_path_evidence_len := 16;
  max_path_evidence_bytes := 65536;
  max_paths_per_block := 1024;
  proposer_fee_ratio_scaled := SCALE / 2;
  cfg_evidence_finality_depth := 1;
  cfg_score_activation_delay_epochs := 2;
  evidence_work_limit := 4096;
  challenge_work_limit := 1024;
  score_fixture := []
|}.

(** [..Self::disabled()] with the fork epoch set. *)
Definition devnet_enabled_at (fork_epoch : Z) : TopoStakeConfig := {|
  topostake_fork_epoch := Some fork_epoch;
  eta_scaled := eta_scaled disabled;
  bonus_cap_scaled := bonus_cap_scaled disabled;
  score_ema_beta_scaled := score_ema_beta_scaled disabled;
  score_saturation_k_scaled := score_saturation_k_scaled disabled;
  score_target_depth := score_target_depth disabled;
  score_cost_reference_wei := score_cost_reference_wei disabled;
  score_floor_kappa_scaled := score_floor_kappa_scaled disabled;
  bonus_zeta_scaled := bonus_zeta_scaled disabled;
  reward_settlement_depth := reward_settlement_depth disabled;
  max_path_evidence_len := max_path_evidence_len disabled;
  max_path_evidence_bytes := max_path_evidence_bytes disabled;
  max_paths_per_block := max_paths_per_block disabled;
  proposer_fee_ratio_scaled := proposer_fee_ratio_scaled disabled;
  cfg_evidence_finality_depth := cfg_evidence_finality_depth disabled;
  cfg_score_activation_delay_epochs := cfg_score_activation_delay_epochs disabled;
  evidence_work_limit := evidence_work_limit disabled;
  challenge_work_limit := challenge_work_limit disabled;
  score_fixture := []
|}.

Section config.
Context `{Env}.
Implicit Types cfg : TopoStakeConfig.

Definition topostake_env_u64 (name : string) : option Z :=
  match env_var name with
  | Some value => parse_u64 (trim value)
  | None => None
  end.

Definition topostake_env_score_fixture : list (Z * Z) :=
  match env_var "TOPOSTAKE_SCORE_FIXTURE" with
  | None => []
  | Some value =>
      omap (fun entry =>
        match split_once ":"%char (trim entry) with
        | None => None
        | Some (validator_index, score_scaled) =>
            match parse_u64 (trim validator_index), parse_u64 (trim score_scaled) with
            | Some i, Some score => Some (i, score)
            | _, _ => None
            end
        end) (split_commas value)
  end.

Definition fork_epoch cfg : option Z :=
  match topostake_fork_epoch cfg with
  | Some epoch => Some epoch
  | None => topostake_env_u64 "TOPOSTAKE_FORK_EPOCH"
  end.

Definition is_disabled cfg : bool := bool_decide (fork_epoch cfg = None).

Definition is_enabled_at_epoch cfg (epoch : Z) : bool :=
  match fork_epoch cfg with Some e => e <=? epoch | None => false end.

Definition evidence_finality_depth cfg : Z :=
  default (cfg_evidence_finality_depth cfg) (topostake_env_u64 "TOPOSTAKE_EVIDENCE_FINALITY_DEPTH").

Definition score_activation_delay_epochs cfg : Z :=
  Z.max (default (cfg_score_activation_delay_epochs cfg)
           (topostake_env_u64 "TOPOSTAKE_SCORE_ACTIVATION_DELAY_EPOCHS")) 1.

(** [max().unwrap_or(0)] of [u64] values. *)
Definition max_or_zero (l : list Z) : Z := foldr Z.max 0 l.

Definition score_for_validator cfg (validator_index : Z) : Z :=
  max_or_zero
    (map fx_score_scaled (filter (fun f => fx_validator_index f = validator_index) (score_fixture cfg))
     ++ (filter (fun e => e.1 = validator_index) topostake_env_score_fixture).*2).

(** ** Bonus and weight of a validator, from its score *)

Definition concave_bonus_scaled cfg (score_to_stake_scaled : Z) : Z :=
  let bonus_denominator := u128_sat_add (bonus_zeta_scaled cfg) score_to_stake_scaled in
  if bonus_denominator =? 0 then 0
  else clamp64 (u128_sat_mul (bonus_cap_scaled cfg) score_to_stake_scaled / bonus_denominator).

Definition bonus_scaled cfg (score effective_balance total_active_balance active_score_total : Z) : Z :=
  if (score =? 0) || (effective_balance =? 0) || (total_active_balance =? 0) then 0 else
  let damped_denominator := u128_sat_add (score_floor_kappa_scaled cfg) active_score_total in
  if damped_denominator =? 0 then 0 else
  let damped_score_scaled := u128_sat_mul score SCALE / damped_denominator in
  let stake_share_scaled := u128_sat_mul effective_balance SCALE / total_active_balance in
  if stake_share_scaled =? 0 then 0 else
  let score_to_stake_scaled := u128_sat_mul damped_score_scaled SCALE / stake_share_scaled in
  concave_bonus_scaled cfg (clamp64 score_to_stake_scaled).

Definition bonus_multiplier_from_bonus_scaled cfg (bonus : Z) : Z :=
  let capped_bonus := Z.min bonus (bonus_cap_scaled cfg) in
  let eta := Z.min (default (eta_scaled cfg) (topostake_env_u64 "TOPOSTAKE_ETA_SCALED")) SCALE in
  clamp64 (u128_sat_add SCALE (u128_sat_mul eta capped_bonus / SCALE)).

Definition max_proposer_weight_scaled cfg (max_effective_balance : Z) : Z :=
  u128_sat_mul max_effective_balance (bonus_multiplier_from_bonus_scaled cfg (bonus_cap_scaled cfg)).

End config.

(** ** Records of the evidence runtime *)

Inductive TopoStakeEvidenceSource := InlineGraffiti | TxGossipMetadata.

Definition as_metrics_label (s : TopoStakeEvidenceSource) : string :=
  match s with InlineGraffiti => "inline_graffiti" | TxGossipMetadata => "tx_gossip_metadata" end.

Record TopoStakeEvidenceEpochSummary := mkSummary {
  sm_epoch : Z;
  sm_valid_paths : Z;
  sm_invalid_paths : Z;
  sm_duplicate_receiver_proofs : Z;
  sm_scored_validators : Z;
  sm_max_score_scaled : Z;
  sm_bound_violation : bool
}.

Record TopoStakePathEvidence := mkEvidence {
  ev_tx_hash : string;
  ev_path : list Z;
  ev_fee_budget_wei : Z;
  ev_irrecoverable_cost_wei : Z
}.

Record TopoStakeScoreUpdate := mkScoreUpdate {
  su_validator_index : Z;
  su_raw_contribution_scaled : Z;
  su_saturated_contribution_scaled : Z;
  su_score_scaled : Z
}.

Record TopoStakeSettledEpochScores := mkSettled {
  ss_epoch : Z;
  ss_score_total_scaled : Z;
  ss_updates : list TopoStakeScoreUpdate
}.

(** Credits of a validator, as (index, amount). *)
Record TopoStakeCreditEpochSummary := mkCreditSummary {
  cs_epoch : Z;
  cs_credit_records : Z;
  cs_pending_records : Z;
  cs_settled_records : Z;
  cs_total_budget_scaled : Z;
  cs_proposer_credit_scaled : Z;
  cs_relay_credit_scaled : Z;
  cs_burned_credit_scaled : Z;
  cs_conservation_violation : bool;
  cs_proposer_credits : list (Z * Z);
  cs_relay_credits : list (Z * Z)
}.

(** The same amounts under the names of the fee settlement. *)
Record TopoStakeFeeSettlementEpochSummary := mkFeeSummary {
  fs_epoch : Z;
  fs_settlement_records : Z;
  fs_pending_records : Z;
  fs_settled_records : Z;
  fs_total_amount_wei : Z;
  fs_proposer_amount_wei : Z;
  fs_relay_amount_wei : Z;
  fs_burned_amount_wei : Z;
  fs_conservation_violation : bool;
  fs_proposer_settlements : list (Z * Z);
  fs_relay_settlements : list (Z * Z)
}.

Inductive TopoStakeEvidenceRecordOutcome :=
  | Disabled
  | NoEvidence
  | Valid (epoch : Z) (source : TopoStakeEvidenceSource) (receiver : Z) (score_updates : list (Z * Z))
      (summary : TopoStakeEvidenceEpochSummary)
  | Invalid (epoch : Z) (summary : TopoStakeEvidenceEpochSummary)
  | DuplicateReceiver (epoch : Z) (source : TopoStakeEvidenceSource) (receiver : Z)
      (summary : TopoStakeEvidenceEpochSummary)
  | DuplicateTransaction (epoch : Z) (source : TopoStakeEvidenceSource) (tx_hash : string)
      (summary : TopoStakeEvidenceEpochSummary).

Record TopoStakeCreditRecordRuntime := mkCreditRecord { cr_settlement_epoch : Z; cr_settled : bool }.

Record TopoStakeEvidenceEpochRuntime := mkEpochRuntime {
  valid_paths : Z;
  invalid_paths : Z;
  duplicate_receiver_proofs : Z;
  raw_contributions : gmap Z Z;
  saturated_contributions : gmap Z Z;
  scores : gmap Z Z;
  score_settled : bool;
  epoch_accepted_tx_hashes : gset string;
  credit_records : list TopoStakeCreditRecordRuntime;
  proposer_credits : gmap Z Z;
  relay_credits : gmap Z Z;
  total_credit_budget_scaled : Z;
  burned_credit_scaled : Z
}.

Record TopoStakeEvidenceRuntime := mkRuntime {
  epochs : gmap Z TopoStakeEvidenceEpochRuntime;
  latest_settled_epoch : option Z;
  latest_scores : gmap Z Z;
  activated_scores_by_proposer_epoch : gmap Z (gmap Z Z);
  accepted_tx_hashes : gset string
}.

Definition empty_epoch : TopoStakeEvidenceEpochRuntime :=
  mkEpochRuntime 0 0 0 ∅ ∅ ∅ false ∅ [] ∅ ∅ 0 0.

Definition reset_topostake_evidence_runtime : TopoStakeEvidenceRuntime := mkRuntime ∅ None ∅ ∅ ∅.

(** [runtime.epochs.entry(epoch).or_default()], read and written back. *)
Definition epoch_runtime (rt : TopoStakeEvidenceRuntime) (epoch : Z) : TopoStakeEvidenceEpochRuntime :=
  get_or empty_epoch (epochs rt) epoch.
Definition set_epoch (rt : TopoStakeEvidenceRuntime) (epoch : Z) (er : TopoStakeEvidenceEpochRuntime)
    : TopoStakeEvidenceRuntime :=
  mkRuntime (<[epoch := er]> (epochs rt)) (latest_settled_epoch rt) (latest_scores rt)
    (activated_scores_by_proposer_epoch rt) (accepted_tx_hashes rt).

Section counters.
Implicit Types er : TopoStakeEvidenceEpochRuntime.

Definition count_invalid er : TopoStakeEvidenceEpochRuntime :=
  mkEpochRuntime (valid_paths er) (u64_sat_add (invalid_paths er) 1) (duplicate_receiver_proofs er)
    (raw_contributions er) (saturated_contributions er) (scores er) (score_settled er)
    (epoch_accepted_tx_hashes er) (credit_records er) (proposer_credits er) (relay_credits er)
    (total_credit_budget_scaled er) (burned_credit_scaled er).

Definition count_duplicate er : TopoStakeEvidenceEpochRuntime :=
  mkEpochRuntime (valid_paths er) (invalid_paths er) (u64_sat_add (duplicate_receiver_proofs er) 1)
    (raw_contributions er) (saturated_contributions er) (scores er) (score_settled er)
    (epoch_accepted_tx_hashes er) (credit_records er) (proposer_credits er) (relay_credits er)
    (total_credit_budget_scaled er) (burned_credit_scaled er).

(** A path was accepted: its identity is remembered and it counts as valid. *)
Definition count_valid er (tx_identity : string) : TopoStakeEvidenceEpochRuntime :=
  mkEpochRuntime (u64_sat_add (valid_paths er) 1) (invalid_paths er) (duplicate_receiver_proofs er)
    (raw_contributions er) (saturated_contributions er) (scores er) (score_settled er)
    ({[tx_identity]} ∪ epoch_accepted_tx_hashes er) (credit_records er) (proposer_credits er)
    (relay_credits er) (total_credit_budget_scaled er) (burned_credit_scaled er).

Definition set_raw er (raw : gmap Z Z) : TopoStakeEvidenceEpochRuntime :=
  mkEpochRuntime (valid_paths er) (invalid_paths er) (duplicate_receiver_proofs er)
    raw (saturated_contributions er) (scores er) (score_settled er)
    (epoch_accepted_tx_hashes er) (credit_records er) (proposer_credits er) (relay_credits er)
    (total_credit_budget_scaled er) (burned_credit_scaled er).

Definition set_credits er (records : list TopoStakeCreditRecordRuntime) (proposer relay : gmap Z Z)
    (total burned : Z) : TopoStakeEvidenceEpochRuntime :=
  mkEpochRuntime (valid_paths er) (invalid_paths er) (duplicate_receiver_proofs er)
    (raw_contributions er) (saturated_contributions er) (scores er) (score_settled er)
    (epoch_accepted_tx_hashes er) records proposer relay total burned.

Definition set_scores er (saturated new_scores : gmap Z Z) : TopoStakeEvidenceEpochRuntime :=
  mkEpochRuntime (valid_paths er) (invalid_paths er) (duplicate_receiver_proofs er)
    (raw_contributions er) saturated new_scores true
    (epoch_accepted_tx_hashes er) (credit_records er) (proposer_credits er) (relay_credits er)
    (total_credit_budget_scaled er) (burned_credit_scaled er).

(** ** Summaries *)

Definition summary er (epoch : Z) : TopoStakeEvidenceEpochSummary := {|
  sm_epoch := epoch;
  sm_valid_paths := valid_paths er;
  sm_invalid_paths := invalid_paths er;
  sm_duplicate_receiver_proofs := duplicate_receiver_proofs er;
  sm_scored_validators := Z.of_nat (size (dom (scores er) ∪ dom (raw_contributions er)));
  sm_max_score_scaled := max_or_zero (map_values (scores er) ++ map_values (raw_contributions er));
  sm_bound_violation := false
|}.

(** [sum::<u64>()]: a plain sum, which wraps. *)
Definition u64_sum (l : list Z) : Z := fold_left u64_add l 0.

(** The entries of a map by key. *)
Definition key_le (a b : Z * Z) : Prop := a.1 <= b.1.
#[export] Instance key_le_dec a b : Decision (key_le a b) := decide (a.1 <= b.1).
Definition sorted_topostake_credits (credits : gmap Z Z) : list (Z * Z) :=
  merge_sort key_le (map_to_list credits).

Definition credit_summary er (epoch : Z) : TopoStakeCreditEpochSummary :=
  let settled := Z.of_nat (length (filter (fun r => cr_settled r = true) (credit_records er))) in
  let count := Z.of_nat (length (credit_records er)) in
  let proposer := u64_sum (map_values (proposer_credits er)) in
  let relay := u64_sum (map_values (relay_credits er)) in
  let accounted := u64_sat_add (u64_sat_add proposer relay) (burned_credit_scaled er) in
  {| cs_epoch := epoch;
     cs_credit_records := count;
     cs_pending_records := u64_sat_sub count settled;
     cs_settled_records := settled;
     cs_total_budget_scaled := total_credit_budget_scaled er;
     cs_proposer_credit_scaled := proposer;
     cs_relay_credit_scaled := relay;
     cs_burned_credit_scaled := burned_credit_scaled er;
     cs_conservation_violation := bool_decide (accounted <> total_credit_budget_scaled er);
     cs_proposer_credits := sorted_topostake_credits (proposer_credits er);
     cs_relay_credits := sorted_topostake_credits (relay_credits er) |}.

Definition fee_settlement_summary er (epoch : Z) : TopoStakeFeeSettlementEpochSummary :=
  let credit := credit_summary er epoch in
  {| fs_epoch := epoch;
     fs_settlement_records := cs_credit_records credit;
     fs_pending_records := cs_pending_records credit;
     fs_settled_records := cs_settled_records credit;
     fs_total_amount_wei := cs_total_budget_scaled credit;
     fs_proposer_amount_wei := cs_proposer_credit_scaled credit;
     fs_relay_amount_wei := cs_relay_credit_scaled credit;
     fs_burned_amount_wei := cs_burned_credit_scaled credit;
     fs_conservation_violation := cs_conservation_violation credit;
     fs_proposer_settlements := cs_proposer_credits credit;
     fs_relay_settlements := cs_relay_credits credit |}.

End counters.

(** ** Recording paths *)

Inductive PathError :=
  | EmptyPath
  | InvalidIndex (item : list Z)
  | TooLong (len max : Z)
  | RepeatedIdentity (validator_index : Z)
  | NotUtf8.

Section recording.
Context `{Env}.
Implicit Types (cfg : TopoStakeConfig) (er : TopoStakeEvidenceEpochRuntime) (rt : TopoStakeEvidenceRuntime)
  (path : list Z).

(** The first element that occurred before. *)
Fixpoint first_repeated (seen : gset Z) path : option Z :=
  match path with
  | [] => None
  | v :: path => if decide (v ∈ seen) then Some v else first_repeated ({[v]} ∪ seen) path
  end.

Definition validate_topostake_validator_path cfg path : Result unit PathError :=
  if decide (path = []) then Err EmptyPath else
  if max_path_evidence_len cfg <? Z.of_nat (length path)
  then Err (TooLong (Z.of_nat (length path)) (max_path_evidence_len cfg)) else
  match first_repeated ∅ path with
  | Some v => Err (RepeatedIdentity v)
  | None => Ok ()
  end.

Fixpoint parse_items (items : list (list Z)) : Result (list Z) PathError :=
  match items with
  | [] => Ok []
  | item :: items =>
      match parse_unsigned U64_MAX (trim_matches is_whitespace item) with
      | None => Err (InvalidIndex item)
      | Some v => let? rest := parse_items items in Ok (v :: rest)
      end
  end.

Definition parse_topostake_validator_path cfg (path_csv : list Z) : Result (list Z) PathError :=
  if decide (path_csv = []) then Err EmptyPath else
  let? indices := parse_items (split_chars 44 path_csv) in
  let? _ := validate_topostake_validator_path cfg indices in
  Ok indices.

Definition TOPOSTAKE_GRAFFITI_EVIDENCE_PREFIX : list Z := codes "TPS1:".

Definition decode_topostake_graffiti_evidence cfg (graffiti : list Z) : Result (option (list Z)) PathError :=
  match from_utf8 graffiti with
  | None => Err NotUtf8
  | Some chars =>
      let raw := trim_matches is_whitespace (trim_matches (Z.eqb 0) chars) in
      match strip_prefix_chars TOPOSTAKE_GRAFFITI_EVIDENCE_PREFIX raw with
      | Some path_csv => let? indices := parse_topostake_validator_path cfg path_csv in Ok (Some indices)
      | None => Ok None
      end
  end.

(** Fees of a path: the proposer's part, the relays' parts, the rest burned. *)
Definition relay_amounts cfg path (relay_budget : Z) : list (Z * Z) :=
  filter (fun va => 0 < va.2)
    (map (fun vc => (vc.1, scaled_mul_div relay_budget vc.2 SCALE))
       (topostake_path_relay_contributions (score_target_depth cfg) path)).

Definition add_credit (m : gmap Z Z) (va : Z * Z) : gmap Z Z :=
  entry_update 0 (fun x => u64_sat_add x va.2) va.1 m.

Definition record_topostake_credit cfg er (evidence_epoch proposer_index : Z) path (fee_budget_wei : Z)
    : TopoStakeEvidenceEpochRuntime :=
  let budget := fee_budget_wei in
  if budget =? 0 then er else
  let proposer_credit := scaled_mul_div budget (proposer_fee_ratio_scaled cfg) SCALE in
  let relay_budget := u64_sat_sub budget proposer_credit in
  let amounts := relay_amounts cfg path relay_budget in
  let relay_distributed := u64_sum amounts.*2 in
  let burned_credit := u64_sat_sub relay_budget relay_distributed in
  set_credits er
    (credit_records er ++ [mkCreditRecord (u64_sat_add evidence_epoch (reward_settlement_depth cfg)) false])
    (add_credit (proposer_credits er) (proposer_index, proposer_credit))
    (fold_left add_credit amounts (relay_credits er))
    (u64_sat_add (total_credit_budget_scaled er) budget)
    (u64_sat_add (burned_credit_scaled er) burned_credit).

(** Contributions of a path, weighted by the cost of its transaction. *)
Definition weighted_contributions cfg path (irrecoverable_cost_wei : Z) : list (Z * Z) :=
  let credit_weight := topostake_transaction_credit_weight_scaled irrecoverable_cost_wei
                         (score_cost_reference_wei cfg) in
  filter (fun vc => 0 < vc.2)
    (map (fun vc => (vc.1, scaled_mul_div vc.2 credit_weight SCALE))
       (topostake_path_relay_contributions (score_target_depth cfg) path)).

(** The raw contributions after the path, and the totals reported on the way. *)
Definition add_contribution (acc : gmap Z Z * list (Z * Z)) (vc : Z * Z) : gmap Z Z * list (Z * Z) :=
  let total := u64_sat_add (get_or 0 acc.1 vc.1) vc.2 in
  (<[vc.1 := total]> acc.1, acc.2 ++ [(vc.1, total)]).

Definition inline_identity (source : TopoStakeEvidenceSource) path : string :=
  as_metrics_label source +:+ ":inline:" +:+ String.concat "-" (map pretty path).

Definition record_topostake_path cfg er (epoch : Z) (source : TopoStakeEvidenceSource)
    (tx_hash : option string) path (fee_budget_wei irrecoverable_cost_wei proposer_index : Z)
    : TopoStakeEvidenceEpochRuntime * TopoStakeEvidenceRecordOutcome :=
  match last path with
  | None => let er := count_invalid er in (er, Invalid epoch (summary er epoch))
  | Some receiver =>
      let tx_identity := default (inline_identity source path) tx_hash in
      if decide (tx_identity ∈ epoch_accepted_tx_hashes er) then
        let er := count_duplicate er in
        (er, DuplicateTransaction epoch source tx_identity (summary er epoch))
      else
      let er := count_valid er tx_identity in
      let '(raw, score_updates) :=
        fold_left add_contribution (weighted_contributions cfg path irrecoverable_cost_wei)
          (raw_contributions er, []) in
      let er := record_topostake_credit cfg (set_raw er raw) epoch proposer_index path fee_budget_wei in
      (er, Valid epoch source receiver score_updates (summary er epoch))
  end.

Definition record_topostake_graffiti_evidence cfg rt (epoch proposer_index : Z) (graffiti : list Z)
    : TopoStakeEvidenceRuntime * TopoStakeEvidenceRecordOutcome :=
  if negb (is_enabled_at_epoch cfg epoch) then (rt, Disabled) else
  let er := epoch_runtime rt epoch in
  match decode_topostake_graffiti_evidence cfg graffiti with
  | Ok (Some path) =>
      let '(er, outcome) := record_topostake_path cfg er epoch InlineGraffiti None path SCALE 0 proposer_index in
      (set_epoch rt epoch er, outcome)
  | Ok None => (set_epoch rt epoch er, NoEvidence)
  | Err _ => let er := count_invalid er in (set_epoch rt epoch er, Invalid epoch (summary er epoch))
  end.

Definition is_valid_outcome (o : TopoStakeEvidenceRecordOutcome) : bool :=
  match o with Valid _ _ _ _ _ => true | _ => false end.

(** One path of a block. *)
Definition record_evidence cfg rt (epoch proposer_index : Z) (p : TopoStakePathEvidence)
    : TopoStakeEvidenceRuntime * TopoStakeEvidenceRecordOutcome :=
  match validate_topostake_validator_path cfg (ev_path p) with
  | Err _ =>
      let er := count_invalid (epoch_runtime rt epoch) in
      (set_epoch rt epoch er, Invalid epoch (summary er epoch))
  | Ok _ =>
      if decide (ev_tx_hash p ∈ accepted_tx_hashes rt) then
        let er := count_duplicate (epoch_runtime rt epoch) in
        (set_epoch rt epoch er, DuplicateTransaction epoch TxGossipMetadata (ev_tx_hash p) (summary er epoch))
      else
      let '(er, outcome) := record_topostake_path cfg (epoch_runtime rt epoch) epoch TxGossipMetadata
        (Some (ev_tx_hash p)) (ev_path p) (ev_fee_budget_wei p) (ev_irrecoverable_cost_wei p) proposer_index in
      let rt := set_epoch rt epoch er in
      ((if is_valid_outcome outcome
        then mkRuntime (epochs rt) (latest_settled_epoch rt) (latest_scores rt)
               (activated_scores_by_proposer_epoch rt) ({[ev_tx_hash p]} ∪ accepted_tx_hashes rt)
        else rt), outcome)
  end.

Fixpoint record_all cfg rt (epoch proposer_index : Z) (paths : list TopoStakePathEvidence)
    : TopoStakeEvidenceRuntime * list TopoStakeEvidenceRecordOutcome :=
  match paths with
  | [] => (rt, [])
  | p :: paths =>
      let '(rt, outcome) := record_evidence cfg rt epoch proposer_index p in
      let '(rt, outcomes) := record_all cfg rt epoch proposer_index paths in
      (rt, outcome :: outcomes)
  end.

Definition record_topostake_tx_gossip_metadata_evidence cfg rt (epoch proposer_index : Z)
    (paths : list TopoStakePathEvidence) : TopoStakeEvidenceRuntime * list TopoStakeEvidenceRecordOutcome :=
  if negb (is_enabled_at_epoch cfg epoch) then (rt, [Disabled]) else
  if decide (paths = []) then (rt, [NoEvidence]) else
  record_all cfg rt epoch proposer_index (take (Z.to_nat (max_paths_per_block cfg)) paths).

(** [count] invalid paths, the summary taken after each. *)
Fixpoint count_invalids (count : nat) er (epoch : Z)
    : TopoStakeEvidenceEpochRuntime * list TopoStakeEvidenceRecordOutcome :=
  match count with
  | O => (er, [])
  | S count =>
      let er := count_invalid er in
      let '(er', outcomes) := count_invalids count er epoch in
      (er', Invalid epoch (summary er epoch) :: outcomes)
  end.

Definition record_topostake_invalid_tx_gossip_metadata_evidence cfg rt (epoch count : Z)
    : TopoStakeEvidenceRuntime * list TopoStakeEvidenceRecordOutcome :=
  if negb (is_enabled_at_epoch cfg epoch) then (rt, [Disabled]) else
  if count =? 0 then (rt, [NoEvidence]) else
  let capped_count := Z.min count (max_paths_per_block cfg) in
  let '(er, outcomes) := count_invalids (Z.to_nat capped_count) (epoch_runtime rt epoch) epoch in
  (set_epoch rt epoch er, outcomes).

End recording.
