(* ===== verification/Scores.v ===== *)
(** * Settlement and activation of scores, proposer weights, snapshots

    The second half of the TopoStake part of chain_spec.rs: settling the scores of
    finalized epochs ([topostake_settle_scores_through_epoch]), the scores a
    proposer epoch is selected with, which are fixed by the first read
    ([topostake_evidence_scores_for_epoch]), the weights computed from them, and
    the CSV snapshots of the runtime. *)

From Stdlib Require Import Ascii.
From stdpp Require Import sorting pretty.
From S2P Require Export Evidence.
Local Open Scope rust_scope.
Local Open Scope Z_scope.

(** The values of a map by key. *)
Definition sorted_keys {A} (m : gmap Z A) : list Z := merge_sort Z.le (map_keys m).

Section scores.
Context `{Env}.
Implicit Types (cfg : TopoStakeConfig) (er : TopoStakeEvidenceEpochRuntime) (rt : TopoStakeEvidenceRuntime).

(** ** Settlement *)

(** The new score of a validator. *)
Definition score_update cfg er (previous_scores balance_by_validator : gmap Z Z) (total_active_balance : Z)
    (validator_index : Z) : TopoStakeScoreUpdate :=
  let beta := Z.min (score_ema_beta_scaled cfg) SCALE in
  let one_minus_beta := u64_sat_sub SCALE beta in
  let raw := get_or 0 (raw_contributions er) validator_index in
  let effective_balance := get_or 0 balance_by_validator validator_index in
  let saturated := topostake_saturate_contribution_scaled raw effective_balance total_active_balance
                     (score_saturation_k_scaled cfg) in
  let previous := get_or 0 previous_scores validator_index in
  let score := u64_sat_add (scaled_mul_div saturated beta SCALE) (scaled_mul_div previous one_minus_beta SCALE) in
  mkScoreUpdate validator_index raw saturated score.

(** Positive amounts are inserted, zeros are left out. *)
Definition insert_positive (f : TopoStakeScoreUpdate -> Z) (m : gmap Z Z) (u : TopoStakeScoreUpdate) : gmap Z Z :=
  if 0 <? f u then <[su_validator_index u := f u]> m else m.

Definition epoch_updates cfg rt (balance_by_validator : gmap Z Z) (total_active_balance epoch : Z)
    : list TopoStakeScoreUpdate :=
  let er := epoch_runtime rt epoch in
  let validators := merge_sort Z.le (elements (dom (raw_contributions er) ∪ dom (latest_scores rt))) in
  map (score_update cfg er (latest_scores rt) balance_by_validator total_active_balance) validators.

Definition settle_epoch cfg rt (balance_by_validator : gmap Z Z) (total_active_balance epoch : Z)
    : TopoStakeEvidenceRuntime * TopoStakeSettledEpochScores :=
  let er := epoch_runtime rt epoch in
  let updates := epoch_updates cfg rt balance_by_validator total_active_balance epoch in
  let er := set_scores er
    (fold_left (insert_positive su_saturated_contribution_scaled) updates (saturated_contributions er))
    (fold_left (insert_positive su_score_scaled) updates (scores er)) in
  let next_scores := fold_left (insert_positive su_score_scaled) updates ∅ in
  (mkRuntime (<[epoch := er]> (epochs rt)) (Some epoch) next_scores
     (activated_scores_by_proposer_epoch rt) (accepted_tx_hashes rt),
   mkSettled epoch (u64_sum (map su_score_scaled updates)) updates).

Fixpoint settle_epochs cfg rt (balance_by_validator : gmap Z Z) (total_active_balance : Z) (l : list Z)
    : TopoStakeEvidenceRuntime * list TopoStakeSettledEpochScores :=
  match l with
  | [] => (rt, [])
  | epoch :: l =>
      let '(rt, s) := settle_epoch cfg rt balance_by_validator total_active_balance epoch in
      let '(rt, settled) := settle_epochs cfg rt balance_by_validator total_active_balance l in
      (rt, s :: settled)
  end.

(** The epochs to settle, oldest first. *)
Definition due_epochs rt (max_settle_epoch : Z) : list Z :=
  merge_sort Z.le
    (filter (fun ee => score_settled ee.2 = false /\ ee.1 <= max_settle_epoch) (map_to_list (epochs rt))).*1.

Definition topostake_settle_scores_through_epoch cfg rt (finalized_epoch : Z)
    (validator_effective_balances : list (Z * Z)) (total_active_balance : Z)
    : TopoStakeEvidenceRuntime * list TopoStakeSettledEpochScores :=
  if total_active_balance =? 0 then (rt, []) else
  match u64_checked_sub finalized_epoch (evidence_finality_depth cfg) with
  | None => (rt, [])
  | Some max_settle_epoch =>
      settle_epochs cfg rt (collect_map validator_effective_balances) total_active_balance
        (due_epochs rt max_settle_epoch)
  end.

Definition settle_record (finalized_epoch : Z) (r : TopoStakeCreditRecordRuntime) : TopoStakeCreditRecordRuntime :=
  if cr_settlement_epoch r <=? finalized_epoch then mkCreditRecord (cr_settlement_epoch r) true else r.

Definition topostake_settle_credits_through_epoch rt (finalized_epoch : Z) : TopoStakeEvidenceRuntime :=
  mkRuntime
    ((fun er => set_credits er (map (settle_record finalized_epoch) (credit_records er)) (proposer_credits er)
                  (relay_credits er) (total_credit_budget_scaled er) (burned_credit_scaled er)) <$> epochs rt)
    (latest_settled_epoch rt) (latest_scores rt) (activated_scores_by_proposer_epoch rt) (accepted_tx_hashes rt).

(** ** Activation *)

(** [max_by_key] over the settled epochs up to [eligible_epoch] that have scores. *)
Definition latest_eligible rt (eligible_epoch : Z) : option (Z * gmap Z Z) :=
  foldr (fun ee best =>
    let '(epoch, er) := ee in
    if decide (epoch <= eligible_epoch /\ score_settled er = true /\ scores er <> ∅) then
      match best with
      | Some (epoch', _) => if epoch' <=? epoch then Some (epoch, scores er) else best
      | None => Some (epoch, scores er)
      end
    else best) None (map_to_list (epochs rt)).

Definition scores_to_activate rt (eligible_epoch : Z) : gmap Z Z :=
  let fallback :=
    match latest_eligible rt eligible_epoch with
    | Some (epoch, s) => if decide (latest_settled_epoch rt = Some epoch) then latest_scores rt else s
    | None => ∅
    end in
  match epochs rt !! eligible_epoch with
  | Some er => if decide (score_settled er = true /\ scores er <> ∅) then scores er else fallback
  | None => fallback
  end.

Definition topostake_evidence_scores_for_epoch rt (proposer_epoch activation_delay_epochs : Z)
    : TopoStakeEvidenceRuntime * gmap Z Z :=
  match u64_checked_sub proposer_epoch (Z.max activation_delay_epochs 1) with
  | None => (rt, ∅)
  | Some eligible_epoch =>
      match activated_scores_by_proposer_epoch rt !! proposer_epoch with
      | Some s => (rt, s)
      | None =>
          let s := scores_to_activate rt eligible_epoch in
          (mkRuntime (epochs rt) (latest_settled_epoch rt) (latest_scores rt)
             (<[proposer_epoch := s]> (activated_scores_by_proposer_epoch rt)) (accepted_tx_hashes rt), s)
      end
  end.

Definition topostake_evidence_score_for_epoch rt (proposer_epoch validator_index activation_delay_epochs : Z)
    : TopoStakeEvidenceRuntime * Z :=
  let '(rt, s) := topostake_evidence_scores_for_epoch rt proposer_epoch activation_delay_epochs in
  (rt, get_or 0 s validator_index).

(** ** Scores and weights at an epoch *)

Definition score_for_validator_at_epoch cfg rt (epoch validator_index : Z) : TopoStakeEvidenceRuntime * Z :=
  let '(rt, s) := topostake_evidence_scores_for_epoch rt epoch (score_activation_delay_epochs cfg) in
  (rt, Z.max (score_for_validator cfg validator_index) (get_or 0 s validator_index)).

(** [entry = max(entry, score)]. *)
Definition raise_score (m : gmap Z Z) (vs : Z * Z) : gmap Z Z :=
  entry_update 0 (fun entry => Z.max entry vs.2) vs.1 m.

Definition score_total_at_epoch cfg rt (epoch : Z) : TopoStakeEvidenceRuntime * Z :=
  let m := fold_left raise_score
             (map (fun f => (fx_validator_index f, fx_score_scaled f)) (score_fixture cfg)) ∅ in
  let m := fold_left raise_score topostake_env_score_fixture m in
  let '(rt, s) := topostake_evidence_scores_for_epoch rt epoch (score_activation_delay_epochs cfg) in
  (rt, u64_sum (map_values (fold_left raise_score (map_to_list s) m))).

Fixpoint score_total_loop cfg rt (epoch : Z) (total : Z) (validator_indices : list Z)
    : TopoStakeEvidenceRuntime * Z :=
  match validator_indices with
  | [] => (rt, total)
  | v :: rest =>
      let '(rt, score) := score_for_validator_at_epoch cfg rt epoch v in
      score_total_loop cfg rt epoch (u64_sat_add total score) rest
  end.
Definition score_total_for_validators_at_epoch cfg rt (epoch : Z) (validator_indices : list Z) :=
  score_total_loop cfg rt epoch 0 validator_indices.

Definition bonus_scaled_at_epoch_with_score_total cfg rt (epoch effective_balance total_active_balance
    validator_index active_score_total : Z) : TopoStakeEvidenceRuntime * Z :=
  let '(rt, score) := score_for_validator_at_epoch cfg rt epoch validator_index in
  (rt, bonus_scaled cfg score effective_balance total_active_balance active_score_total).

Definition bonus_scaled_at_epoch cfg rt (epoch effective_balance total_active_balance validator_index : Z)
    : TopoStakeEvidenceRuntime * Z :=
  let '(rt, score_total) := score_total_at_epoch cfg rt epoch in
  bonus_scaled_at_epoch_with_score_total cfg rt epoch effective_balance total_active_balance validator_index
    score_total.

Definition proposer_weight_scaled_at_epoch_with_score_total cfg rt (epoch effective_balance
    total_active_balance validator_index active_score_total : Z) : TopoStakeEvidenceRuntime * Z :=
  let '(rt, bonus) := bonus_scaled_at_epoch_with_score_total cfg rt epoch effective_balance
                        total_active_balance validator_index active_score_total in
  (rt, u128_sat_mul effective_balance (bonus_multiplier_from_bonus_scaled cfg bonus)).

Definition bonus_multiplier_scaled_at_epoch cfg rt (epoch effective_balance total_active_balance
    validator_index : Z) : TopoStakeEvidenceRuntime * Z :=
  let '(rt, bonus) := bonus_scaled_at_epoch cfg rt epoch effective_balance total_active_balance validator_index in
  (rt, bonus_multiplier_from_bonus_scaled cfg bonus).

Definition proposer_weight_scaled_at_epoch cfg rt (epoch effective_balance total_active_balance
    validator_index : Z) : TopoStakeEvidenceRuntime * Z :=
  let '(rt, multiplier) := bonus_multiplier_scaled_at_epoch cfg rt epoch effective_balance
                             total_active_balance validator_index in
  (rt, u128_sat_mul effective_balance multiplier).

(** ** Summaries and snapshots *)

Definition topostake_evidence_epoch_summary rt (epoch : Z) : TopoStakeEvidenceEpochSummary :=
  match epochs rt !! epoch with
  | Some er => summary er epoch
  | None => mkSummary epoch 0 0 0 0 0 false
  end.

Definition topostake_credit_epoch_summaries rt : list TopoStakeCreditEpochSummary :=
  map (fun epoch => credit_summary (epoch_runtime rt epoch) epoch) (sorted_keys (epochs rt)).

Definition show_bool (b : bool) : string := if b then "true" else "false".
Definition csv_row (cells : list string) : string := String.concat "," cells.
Definition newline : string := String (ascii_of_nat 10) "".

Definition topostake_evidence_csv_snapshot rt : string :=
  String.concat newline
    ("epoch,valid_paths,invalid_paths,duplicate_receiver_proofs,scored_validators,max_score_scaled,bound_violation,raw_contribution_total_scaled,saturated_contribution_total_scaled,score_total_scaled"
     :: map (fun epoch =>
          let er := epoch_runtime rt epoch in
          let s := summary er epoch in
          csv_row [pretty (sm_epoch s); pretty (sm_valid_paths s); pretty (sm_invalid_paths s);
                   pretty (sm_duplicate_receiver_proofs s); pretty (sm_scored_validators s);
                   pretty (sm_max_score_scaled s); show_bool (sm_bound_violation s);
                   pretty (u64_sum (map_values (raw_contributions er)));
                   pretty (u64_sum (map_values (saturated_contributions er)));
                   pretty (u64_sum (map_values (scores er)))]) (sorted_keys (epochs rt))).

Definition credit_row (s : TopoStakeCreditEpochSummary) : string :=
  csv_row [pretty (cs_epoch s); pretty (cs_credit_records s); pretty (cs_pending_records s);
           pretty (cs_settled_records s); pretty (cs_total_budget_scaled s);
           pretty (cs_proposer_credit_scaled s); pretty (cs_relay_credit_scaled s);
           pretty (cs_burned_credit_scaled s); show_bool (cs_conservation_violation s)].

Definition topostake_credit_csv_snapshot rt : string :=
  String.concat newline
    ("epoch,credit_records,pending_records,settled_records,total_budget_scaled,proposer_credit_scaled,relay_credit_scaled,burned_credit_scaled,conservation_violation"
     :: map credit_row (topostake_credit_epoch_summaries rt)).

Definition topostake_fee_settlement_epoch_summaries rt : list TopoStakeFeeSettlementEpochSummary :=
  map (fun epoch => fee_settlement_summary (epoch_runtime rt epoch) epoch) (sorted_keys (epochs rt)).

Definition fee_settlement_row (s : TopoStakeFeeSettlementEpochSummary) : string :=
  csv_row [pretty (fs_epoch s); pretty (fs_settlement_records s); pretty (fs_pending_records s);
           pretty (fs_settled_records s); pretty (fs_total_amount_wei s);
           pretty (fs_proposer_amount_wei s); pretty (fs_relay_amount_wei s);
           pretty (fs_burned_amount_wei s); show_bool (fs_conservation_violation s)].

Definition topostake_fee_settlement_csv_snapshot rt : string :=
  String.concat newline
    ("epoch,settlement_records,pending_records,settled_records,total_amount_wei,proposer_amount_wei,relay_amount_wei,burned_amount_wei,conservation_violation"
     :: map fee_settlement_row (topostake_fee_settlement_epoch_summaries rt)).

End scores.
