(* ===== verification/SettlementFacts.v ===== *)
(** * Acceptance, settlement and activation in the evidence runtime

    A transaction is credited once, scores are settled once and only for finalized
    epochs, settled scores are final, and the first read of a proposer epoch
    decides its scores. *)

From stdpp Require Import sorting.
From S2P Require Export EvidenceFacts.
Local Open Scope rust_scope.
Local Open Scope Z_scope.

Section settlement.
Context `{Env} (cfg : TopoStakeConfig).
Implicit Types (er : TopoStakeEvidenceEpochRuntime) (rt : TopoStakeEvidenceRuntime) (op : Op).

(** ** Accepted transactions *)

Definition valid_hashes (paths : list TopoStakePathEvidence) (outcomes : list TopoStakeEvidenceRecordOutcome)
    : list string :=
  omap (fun po => if is_valid_outcome po.2 then Some (ev_tx_hash po.1) else None) (zip paths outcomes).

(** The hashes of the transactions an operation accepts. *)
Definition accepted_by rt op : list string :=
  match op with
  | RecordPaths epoch proposer paths =>
      valid_hashes paths (record_topostake_tx_gossip_metadata_evidence cfg rt epoch proposer paths).2
  | _ => []
  end.

Fixpoint accepted_run rt (ops : list Op) : list string :=
  match ops with
  | [] => []
  | op :: ops => accepted_by rt op ++ accepted_run (apply_op cfg rt op) ops
  end.

(** [l] are new hashes, remembered in [rt']. *)
Definition accepts_new rt rt' (l : list string) : Prop :=
  NoDup l /\ (forall h, h ∈ l -> h ∉ accepted_tx_hashes rt)
  /\ (forall h, h ∈ accepted_tx_hashes rt' <-> h ∈ accepted_tx_hashes rt \/ h ∈ l).

Lemma accepts_none rt rt' : accepted_tx_hashes rt' = accepted_tx_hashes rt -> accepts_new rt rt' [].
Proof. intros E. split_and!; [constructor|set_solver|]. intros h. rewrite E. set_solver. Qed.

Lemma accepts_app rt1 rt2 rt3 l1 l2 :
  accepts_new rt1 rt2 l1 -> accepts_new rt2 rt3 l2 -> accepts_new rt1 rt3 (l1 ++ l2).
Proof.
  intros (Hn1 & Hd1 & Ha1) (Hn2 & Hd2 & Ha2). split_and!.
  - apply NoDup_app. split_and!; [done| |done]. intros h Hh Hh2. apply (Hd2 h Hh2). apply Ha1. by right.
  - intros h [Hh|Hh]%elem_of_app; [by apply Hd1|]. intros Hin. apply (Hd2 h Hh). apply Ha1. by left.
  - intros h. rewrite Ha2, Ha1, elem_of_app. tauto.
Qed.

Lemma record_evidence_accepts rt epoch proposer p :
  let '(rt', o) := record_evidence cfg rt epoch proposer p in
  accepts_new rt rt' (if is_valid_outcome o then [ev_tx_hash p] else []).
Proof.
  unfold record_evidence. destruct (validate_topostake_validator_path cfg (ev_path p)); [|by apply accepts_none].
  case_decide as Hin; [by apply accepts_none|].
  destruct (record_topostake_path _ _ _ _ _ _ _ _ _) as [er o]. destruct (is_valid_outcome o); [|by apply accepts_none].
  split_and!; [apply NoDup_singleton|set_solver|set_solver].
Qed.

Lemma record_all_accepts epoch proposer paths : forall rt,
  let '(rt', os) := record_all cfg rt epoch proposer paths in
  length os = length paths /\ accepts_new rt rt' (valid_hashes paths os).
Proof.
  induction paths as [|p paths IH]; intros rt; [split; [done|by apply accepts_none]|]. cbn [record_all].
  pose proof (record_evidence_accepts rt epoch proposer p) as H1.
  destruct (record_evidence cfg rt epoch proposer p) as [rt1 o]. specialize (IH rt1).
  destruct (record_all cfg rt1 epoch proposer paths) as [rt2 os]. destruct IH as [Hlen H2].
  split; [simpl; by rewrite Hlen|].
  replace (valid_hashes (p :: paths) (o :: os))
    with ((if is_valid_outcome o then [ev_tx_hash p] else []) ++ valid_hashes paths os)
    by (unfold valid_hashes; simpl; by destruct (is_valid_outcome o)).
  by eapply accepts_app.
Qed.

Lemma zip_take {A B} (l : list A) (k : list B) n :
  length k = length (take n l) -> zip l k = zip (take n l) k.
Proof.
  revert k n. induction l as [|x l IH]; intros [|y k] [|n] Hl; simpl in *; try done. f_equal. apply IH. lia.
Qed.

Lemma settle_epochs_accepted balances total l : forall rt,
  accepted_tx_hashes (settle_epochs cfg rt balances total l).1 = accepted_tx_hashes rt.
Proof.
  induction l as [|e l IH]; intros rt; [done|]. cbn [settle_epochs].
  assert (accepted_tx_hashes (settle_epoch cfg rt balances total e).1 = accepted_tx_hashes rt) as E by done.
  destruct (settle_epoch cfg rt balances total e) as [rt1 s]. simpl in E. specialize (IH rt1).
  destruct (settle_epochs cfg rt1 balances total l). simpl in *. by rewrite IH.
Qed.

Lemma apply_op_accepts rt op : accepts_new rt (apply_op cfg rt op) (accepted_by rt op).
Proof.
  destruct op as [epoch proposer paths|epoch count|epoch proposer graffiti|fin balances total|fin|epoch delay]; simpl.
  - unfold record_topostake_tx_gossip_metadata_evidence. destruct (negb _).
    { replace (valid_hashes _ _) with (@nil string) by (by destruct paths as [|? []]). by apply accepts_none. }
    case_decide as Hp; [subst; by apply accepts_none|].
    pose proof (record_all_accepts epoch proposer (take (Z.to_nat (max_paths_per_block cfg)) paths) rt) as Hr.
    destruct (record_all _ _ _ _ _) as [rt' os]. destruct Hr as [Hlen Hr]. simpl.
    unfold valid_hashes. by rewrite (zip_take _ _ _ Hlen).
  - apply accepts_none. unfold record_topostake_invalid_tx_gossip_metadata_evidence.
    destruct (negb _); [done|]. destruct (count =? 0); [done|]. by destruct (count_invalids _ _ _).
  - apply accepts_none. unfold record_topostake_graffiti_evidence. destruct (negb _); [done|].
    destruct (decode_topostake_graffiti_evidence cfg graffiti) as [[path|]|]; [|done|done].
    by destruct (record_topostake_path _ _ _ _ _ _ _ _ _).
  - apply accepts_none. unfold topostake_settle_scores_through_epoch. destruct (total =? 0); [done|].
    destruct (u64_checked_sub _ _); [|done]. apply settle_epochs_accepted.
  - by apply accepts_none.
  - apply accepts_none. unfold topostake_evidence_scores_for_epoch. destruct (u64_checked_sub _ _); [|done].
    by destruct (activated_scores_by_proposer_epoch rt !! epoch).
Qed.

(** C34: A transaction is credited at most once by the consensus client: over any
    sequence of operations, in any order and over all epochs, no transaction hash
    is accepted twice, within one block, across blocks or across epochs. *)
Theorem transaction_credited_once (ops : list Op) : NoDup (accepted_run reset_topostake_evidence_runtime ops).
Proof.
  assert (forall rt, exists rt', accepts_new rt rt' (accepted_run rt ops)) as Ha.
  { induction ops as [|op ops IH]; intros rt; [exists rt; by apply accepts_none|].
    destruct (IH (apply_op cfg rt op)) as [rt' Hr]. exists rt'. eapply accepts_app; [apply apply_op_accepts|exact Hr]. }
  destruct (Ha reset_topostake_evidence_runtime) as (rt' & Hn & _). exact Hn.
Qed.

(** ** Settlement *)

Lemma change_keeps_scores x y : rtc (epoch_change cfg) x y -> score_settled x = true ->
  score_settled y = true /\ scores y = scores x.
Proof.
  induction 1 as [x|x y z Hxy _ IH]; intros Hs; [done|].
  assert (score_settled y = true /\ scores y = scores x) as [Hy Ey].
  { destruct Hxy; try done; [|congruence]. unfold record_topostake_credit. by destruct (_ =? 0). }
  destruct (IH Hy) as [Hz Ez]. split; [done|congruence].
Qed.

Lemma settle_epochs_spec balances total l : forall rt,
  let '(rt', settled) := settle_epochs cfg rt balances total l in
  map ss_epoch settled = l
  /\ (forall e, e ∈ l -> exists er, epochs rt' !! e = Some er /\ score_settled er = true)
  /\ (forall e, e ∉ l -> epochs rt' !! e = epochs rt !! e).
Proof.
  induction l as [|e l IH]; intros rt; [split_and!; [done|set_solver|done]|]. cbn [settle_epochs].
  assert (exists er, epochs (settle_epoch cfg rt balances total e).1 = <[e := er]> (epochs rt)
    /\ score_settled er = true /\ ss_epoch (settle_epoch cfg rt balances total e).2 = e) as (er & E & Hs & Hep)
    by (eexists; split_and!; done).
  destruct (settle_epoch cfg rt balances total e) as [rt1 s]. simpl in E, Hep. specialize (IH rt1).
  destruct (settle_epochs cfg rt1 balances total l) as [rt2 ss]. destruct IH as (Hm & Hin & Hout).
  split_and!; [simpl; by rewrite Hep, Hm| |].
  - intros e' He'. destruct (decide (e' ∈ l)) as [Hl|Hl]; [by apply Hin|].
    assert (e' = e) as -> by set_solver. exists er. rewrite (Hout e Hl), E, lookup_insert_eq. done.
  - intros e' He'. rewrite (Hout e') by set_solver. rewrite E, lookup_insert_ne; [done|set_solver].
Qed.

(** Scores are settled exactly once, exactly for finalized epochs, and are then
    final.  A settlement settles, oldest first, just the epochs with unsettled
    evidence that are at least the finality depth behind the finalized epoch; settling
    again, with whatever balances, settles nothing; and no operation ever changes the
    scores of a settled epoch. *)
Theorem settlement_is_final rt (finalized : Z) (balances : list (Z * Z)) (total : Z) rt' settled :
  total <> 0 ->
  topostake_settle_scores_through_epoch cfg rt finalized balances total = (rt', settled) ->
  (forall e, 0 <= finalized - evidence_finality_depth cfg ->
     (e ∈ map ss_epoch settled <-> exists er, epochs rt !! e = Some er /\ score_settled er = false
                                   /\ e + evidence_finality_depth cfg <= finalized))
  /\ StronglySorted Z.le (map ss_epoch settled) /\ NoDup (map ss_epoch settled)
  /\ (forall balances' total', topostake_settle_scores_through_epoch cfg rt' finalized balances' total' = (rt', []))
  /\ (forall ops e er, Forall typed_op ops -> epochs rt' !! e = Some er -> score_settled er = true ->
        exists er', epochs (run cfg rt' ops) !! e = Some er' /\ score_settled er' = true /\ scores er' = scores er).
Proof.
  intros Ht. unfold topostake_settle_scores_through_epoch. destruct (Z.eqb_spec total 0) as [|_]; [done|].
  assert (forall ops e er, Forall typed_op ops -> epochs rt' !! e = Some er -> score_settled er = true ->
    exists er', epochs (run cfg rt' ops) !! e = Some er' /\ score_settled er' = true /\ scores er' = scores er) as Hfinal.
  { intros ops e er Hops He Hs. pose proof (run_evolves cfg ops rt' Hops e) as Hev. rewrite He in Hev.
    destruct (epochs (run cfg rt' ops) !! e) as [er'|]; [|done]. exists er'. split; [done|].
    by apply change_keeps_scores. }
  unfold u64_checked_sub. destruct (Z.ltb_spec finalized (evidence_finality_depth cfg)) as [Hlt|Hge].
  { intros [= <- <-]. split_and!; [intros; lia|constructor|constructor| |done].
    intros balances' total'. by destruct (total' =? 0). }
  set (bound := finalized - evidence_finality_depth cfg) in *.
  destruct (due_epochs_spec rt bound) as (Hdue & Hnd & Hsort). intros Heq.
  pose proof (settle_epochs_spec (collect_map balances) total (due_epochs rt bound) rt) as Hspec.
  rewrite Heq in Hspec. destruct Hspec as (Hm & Hin & Hout). rewrite Hm.
  split_and!; [|done|done| |done].
  - intros e _. rewrite Hdue. unfold bound. split; intros (er & ? & ? & ?); exists er; split_and!; (done || lia).
  - intros balances' total'. destruct (total' =? 0); [done|].
    destruct (due_epochs_spec rt' bound) as (Hdue' & _ & _).
    destruct (due_epochs rt' bound) as [|e l] eqn:El; [done|]. exfalso.
    destruct (Hdue' e) as [Hd _]. destruct Hd as (er & He & Hs & Hb); [left|].
    destruct (decide (e ∈ due_epochs rt bound)) as [Hl|Hl].
    + destruct (Hin e Hl) as (er' & He' & Hs'). congruence.
    + apply Hl. apply Hdue. rewrite (Hout e Hl) in He. by exists er.
Qed.

(** ** Activation *)

Lemma settle_epochs_activated balances total l : forall rt,
  activated_scores_by_proposer_epoch (settle_epochs cfg rt balances total l).1 = activated_scores_by_proposer_epoch rt.
Proof.
  induction l as [|e l IH]; intros rt; [done|]. cbn [settle_epochs].
  assert (activated_scores_by_proposer_epoch (settle_epoch cfg rt balances total e).1
          = activated_scores_by_proposer_epoch rt) as E by done.
  destruct (settle_epoch cfg rt balances total e) as [rt1 s]. simpl in E. specialize (IH rt1).
  destruct (settle_epochs cfg rt1 balances total l). simpl in *. by rewrite IH.
Qed.

(** Recording evidence and settling credits touch only the epochs and the accepted hashes. *)
Definition framed {A} (f : TopoStakeEvidenceRuntime -> A) : Prop :=
  forall rt eps hashes, f (mkRuntime eps (latest_settled_epoch rt) (latest_scores rt)
                             (activated_scores_by_proposer_epoch rt) hashes) = f rt.

Lemma record_all_framed {A} (f : TopoStakeEvidenceRuntime -> A) epoch proposer paths : framed f ->
  forall rt, f (record_all cfg rt epoch proposer paths).1 = f rt.
Proof.
  intros Hf. induction paths as [|p paths IH]; intros rt; [done|]. cbn [record_all].
  assert (f (record_evidence cfg rt epoch proposer p).1 = f rt) as E.
  { unfold record_evidence. destruct (validate_topostake_validator_path cfg (ev_path p)); [|apply Hf].
    case_decide; [apply Hf|]. destruct (record_topostake_path _ _ _ _ _ _ _ _ _). simpl.
    destruct (is_valid_outcome _); apply Hf. }
  destruct (record_evidence cfg rt epoch proposer p) as [rt1 o]. simpl in E. specialize (IH rt1).
  destruct (record_all cfg rt1 epoch proposer paths). simpl in *. by rewrite IH.
Qed.

Lemma apply_op_framed {A} (f : TopoStakeEvidenceRuntime -> A) rt op : framed f ->
  match op with
  | SettleScores _ _ _ | ReadScores _ _ => True
  | _ => f (apply_op cfg rt op) = f rt
  end.
Proof.
  intros Hf. destruct op as [epoch proposer paths|epoch count|epoch proposer graffiti| |fin|]; simpl; [| | |done| |done].
  - unfold record_topostake_tx_gossip_metadata_evidence. destruct (negb _); [done|]. case_decide; [done|].
    by apply record_all_framed.
  - unfold record_topostake_invalid_tx_gossip_metadata_evidence.
    destruct (negb _); [done|]. destruct (count =? 0); [done|]. destruct (count_invalids _ _ _). apply Hf.
  - unfold record_topostake_graffiti_evidence. destruct (negb _); [done|].
    destruct (decode_topostake_graffiti_evidence cfg graffiti) as [[path|]|]; [|apply Hf..].
    destruct (record_topostake_path _ _ _ _ _ _ _ _ _). apply Hf.
  - apply Hf.
Qed.

(** Only reads change the activated scores. *)
Lemma apply_op_activates rt op :
  activated_scores_by_proposer_epoch (apply_op cfg rt op) = activated_scores_by_proposer_epoch rt
  \/ exists epoch delay, op = ReadScores epoch delay.
Proof.
  pose proof (apply_op_framed activated_scores_by_proposer_epoch rt op ltac:(done)) as Hf.
  destruct op as [| | |fin balances total| |epoch delay]; [by left..| |by left|right; eauto]. left. simpl.
  unfold topostake_settle_scores_through_epoch. destruct (total =? 0); [done|].
  destruct (u64_checked_sub _ _); [|done]. by rewrite settle_epochs_activated.
Qed.

Lemma apply_op_activated rt op e s :
  activated_scores_by_proposer_epoch rt !! e = Some s ->
  activated_scores_by_proposer_epoch (apply_op cfg rt op) !! e = Some s.
Proof.
  intros He. destruct (apply_op_activates rt op) as [->|(epoch & delay & ->)]; [done|].
  simpl. unfold topostake_evidence_scores_for_epoch. destruct (u64_checked_sub _ _); [|done].
  destruct (activated_scores_by_proposer_epoch rt !! epoch) eqn:E; [done|]. simpl.
  rewrite lookup_insert_ne; [done|congruence].
Qed.

Lemma run_activated ops e s : forall rt,
  activated_scores_by_proposer_epoch rt !! e = Some s ->
  activated_scores_by_proposer_epoch (run cfg rt ops) !! e = Some s.
Proof.
  induction ops as [|op ops IH]; intros rt He; [done|]. simpl. apply IH. by apply apply_op_activated.
Qed.

(** The first read decides the scores of a proposer epoch.  Once the scores of
    an epoch have been read they never change, whatever is recorded or settled
    later: every later read returns the scores that were eligible at the first.  A
    node that performed the same operations without the early read returns the
    scores eligible after them.  The two agree only if the early read came late
    enough, so the weights of an epoch depend on when a node first asked for them. *)
Theorem first_read_decides rt (epoch delay eligible : Z) (ops : list Op) :
  u64_checked_sub epoch (Z.max delay 1) = Some eligible ->
  activated_scores_by_proposer_epoch rt !! epoch = None ->
  activated_scores_by_proposer_epoch (run cfg rt ops) !! epoch = None ->
  let early := (topostake_evidence_scores_for_epoch rt epoch delay).1 in
  (topostake_evidence_scores_for_epoch (run cfg early ops) epoch delay).2 = scores_to_activate rt eligible
  /\ (topostake_evidence_scores_for_epoch (run cfg rt ops) epoch delay).2
     = scores_to_activate (run cfg rt ops) eligible.
Proof.
  intros Hel Hn Hn'. cbv zeta. unfold topostake_evidence_scores_for_epoch at 1 3. rewrite Hel, Hn'. split; [|done].
  assert (activated_scores_by_proposer_epoch (topostake_evidence_scores_for_epoch rt epoch delay).1 !! epoch
          = Some (scores_to_activate rt eligible)) as He.
  { unfold topostake_evidence_scores_for_epoch. rewrite Hel, Hn. simpl. apply lookup_insert_eq. }
  by rewrite (run_activated ops epoch _ _ He).
Qed.

(** ** Scores are never negative *)

Lemma insert_positive_nonneg f l : forall m, nonneg_map m -> nonneg_map (fold_left (insert_positive f) l m).
Proof.
  induction l as [|u l IH]; intros m Hm; [done|]. apply IH. unfold insert_positive.
  destruct (Z.ltb_spec 0 (f u)); [|done]. apply map_Forall_insert_2; [lia|done].
Qed.

Definition scores_ok rt : Prop :=
  (forall e er, epochs rt !! e = Some er -> nonneg_map (scores er))
  /\ nonneg_map (latest_scores rt)
  /\ (forall e s, activated_scores_by_proposer_epoch rt !! e = Some s -> nonneg_map s).

Lemma nonneg_empty : nonneg_map ∅.
Proof. apply map_Forall_empty. Qed.

Lemma latest_eligible_nonneg rt eligible e s :
  scores_ok rt -> latest_eligible rt eligible = Some (e, s) -> nonneg_map s.
Proof.
  intros (He & _ & _). unfold latest_eligible.
  assert (forall l, (forall x, x ∈ l -> nonneg_map (scores x.2)) ->
    forall e s, foldr (fun ee best => let '(epoch, er) := ee in
      if decide (epoch <= eligible /\ score_settled er = true /\ scores er <> ∅) then
        match best with
        | Some (epoch', _) => if epoch' <=? epoch then Some (epoch, scores er) else best
        | None => Some (epoch, scores er)
        end else best) None l = Some (e, s) -> nonneg_map s) as Hl.
  { intros l. induction l as [|[e1 er1] l IH]; intros Hl e0 s0; simpl; [done|].
    assert (nonneg_map (scores er1)) by (apply (Hl (e1, er1)); left).
    specialize (IH (fun x Hx => Hl x (list_elem_of_further _ _ _ Hx))). case_decide; [|by apply IH].
    destruct (foldr _ None l) as [[e2 s2]|]; [|by intros [= <- <-]].
    destruct (e2 <=? e1); intros [= <- <-]; [done|]. by eapply IH. }
  apply Hl. intros [e1 er1] Hin%elem_of_map_to_list. exact (He e1 er1 Hin).
Qed.

Lemma scores_to_activate_nonneg rt eligible : scores_ok rt -> nonneg_map (scores_to_activate rt eligible).
Proof.
  intros Hok. pose proof Hok as (He & Hl & _). unfold scores_to_activate.
  assert (nonneg_map match latest_eligible rt eligible with
    | Some (epoch, s) => if decide (latest_settled_epoch rt = Some epoch) then latest_scores rt else s
    | None => ∅ end) as Hf.
  { destruct (latest_eligible rt eligible) as [[e s]|] eqn:E; [|apply nonneg_empty].
    case_decide; [done|]. by eapply latest_eligible_nonneg. }
  destruct (epochs rt !! eligible) as [er|] eqn:E; [|done]. case_decide; [by eapply He|done].
Qed.

Lemma read_nonneg rt epoch delay : scores_ok rt ->
  nonneg_map (topostake_evidence_scores_for_epoch rt epoch delay).2
  /\ scores_ok (topostake_evidence_scores_for_epoch rt epoch delay).1.
Proof.
  intros Hok. pose proof Hok as (He & Hl & Ha). unfold topostake_evidence_scores_for_epoch.
  destruct (u64_checked_sub _ _); [|split; [apply nonneg_empty|done]].
  destruct (activated_scores_by_proposer_epoch rt !! epoch) as [s|] eqn:E; [split; [by eapply Ha|done]|].
  pose proof (scores_to_activate_nonneg rt z Hok) as Hs. split; [done|]. split_and!; [done|done|].
  intros e s. simpl. destruct (decide (e = epoch)) as [->|Hne].
  - rewrite lookup_insert_eq. by intros [= <-].
  - rewrite lookup_insert_ne by done. apply Ha.
Qed.

Lemma change_scores_nonneg x y : epoch_change cfg x y -> nonneg_map (scores x) -> nonneg_map (scores y).
Proof.
  destruct 1; intros Hx; try done.
  - unfold record_topostake_credit. by destruct (_ =? 0).
  - by apply insert_positive_nonneg.
Qed.

Lemma settle_epochs_latest balances total l : forall rt,
  nonneg_map (latest_scores rt) -> nonneg_map (latest_scores (settle_epochs cfg rt balances total l).1).
Proof.
  induction l as [|e l IH]; intros rt Hl; [done|]. cbn [settle_epochs].
  assert (nonneg_map (latest_scores (settle_epoch cfg rt balances total e).1)) as E
    by apply insert_positive_nonneg, nonneg_empty.
  destruct (settle_epoch cfg rt balances total e) as [rt1 s]. specialize (IH rt1 E).
  by destruct (settle_epochs cfg rt1 balances total l).
Qed.

Lemma apply_op_latest rt op : nonneg_map (latest_scores rt) -> nonneg_map (latest_scores (apply_op cfg rt op)).
Proof.
  intros Hl. pose proof (apply_op_framed latest_scores rt op ltac:(done)) as Hf.
  destruct op as [| | |fin balances total| |epoch delay]; try by rewrite Hf.
  - simpl. unfold topostake_settle_scores_through_epoch. destruct (total =? 0); [done|].
    destruct (u64_checked_sub _ _); [|done]. by apply settle_epochs_latest.
  - simpl. unfold topostake_evidence_scores_for_epoch. destruct (u64_checked_sub _ _); [|done].
    by destruct (activated_scores_by_proposer_epoch rt !! epoch).
Qed.

Lemma changes_scores_nonneg x y : rtc (epoch_change cfg) x y -> nonneg_map (scores x) -> nonneg_map (scores y).
Proof. induction 1 as [|x y z Hxy _ IH]; intros Hx; [done|]. apply IH. by eapply change_scores_nonneg. Qed.

Lemma apply_op_scores_ok rt op : typed_op op -> scores_ok rt -> scores_ok (apply_op cfg rt op).
Proof.
  intros Hop Hok. pose proof Hok as (He & Hl & Ha). split_and!; [|by apply apply_op_latest|].
  - intros e er E. pose proof (apply_op_evolves cfg rt op Hop e) as Hev. rewrite E in Hev.
    destruct (epochs rt !! e) as [er0|] eqn:E0; eapply changes_scores_nonneg; try exact Hev; [by eapply He|apply nonneg_empty].
  - intros e s E. destruct (apply_op_activates rt op) as [Eq|(epoch & delay & ->)]; [rewrite Eq in E; by eapply Ha|].
    destruct (read_nonneg rt epoch delay Hok) as [_ (_ & _ & Ha')]. by eapply Ha'.
Qed.

Lemma run_scores_ok ops : forall rt, Forall typed_op ops -> scores_ok rt -> scores_ok (run cfg rt ops).
Proof.
  induction ops as [|op ops IH]; intros rt Hops Hok; [done|]. apply Forall_cons in Hops as [Hop Hops].
  apply IH; [done|]. by apply apply_op_scores_ok.
Qed.

Lemma reset_scores_ok : scores_ok reset_topostake_evidence_runtime.
Proof. split_and!; [done|apply nonneg_empty|done]. Qed.

End settlement.
