(* ===== verification/Shuffle.v ===== *)
(** * The swap-or-not shuffle

    [compute_shuffled_index] of the Lighthouse crate swap_or_not_shuffle
    (src/ethereum-topostake/lighthouse/consensus/swap_or_not_shuffle/src/compute_shuffled_index.rs),
    which proposer selection uses to visit validators in a pseudorandom order.
    [EthHash] stands for the SHA-256 of the crate ethereum_hashing.  Whatever that
    function is, every round is an involution and the shuffle a permutation. *)

From S2P Require Export Prelude.

Class EthHash := eth_hash : bytes -> bytes.

(** SHA-256 digests have 32 bytes. *)
Definition hash_is_32_bytes `{EthHash} : Prop := forall preimage, length (eth_hash preimage) = 32.

(** [u64::from_le_bytes] and its inverse direction. *)
Fixpoint of_le_bytes (l : bytes) : Z :=
  match l with
  | [] => 0
  | b :: l => Z_of_byte b + 256 * of_le_bytes l
  end.

Section shuffle.
Context `{EthHash}.

Definition hash_with_round_and_position (seed : bytes) (round : nat) (position : nat) : bytes :=
  eth_hash (seed ++ [byte_of_Z (Z.of_nat round)] ++ take 4 (to_le_bytes 8 (Z.of_nat (position / 256)))).

Definition hash_with_round (seed : bytes) (round : nat) : bytes :=
  eth_hash (seed ++ [byte_of_Z (Z.of_nat round)]).

(** The first eight bytes. *)
Definition bytes_to_int64 (slice : bytes) : Z := of_le_bytes (take 8 slice).

(** [(byte >> (position % 8)) % 2], of the byte of [position] in its window. *)
Definition swap_bit (seed : bytes) (round position : nat) : bool :=
  let source := hash_with_round_and_position seed round position in
  let byte := nth ((position mod 256) / 8) source Byte.x00 in
  (Z.shiftr (Z_of_byte byte) (Z.of_nat (position mod 8)) mod 2 =? 1)%Z.

Definition do_round (seed : bytes) (index pivot round list_size : nat) : nat :=
  let flip := (pivot + (list_size - index)) mod list_size in
  let position := Nat.max index flip in
  if swap_bit seed round position then flip else index.

Definition pivot_of (seed : bytes) (round list_size : nat) : nat :=
  Z.to_nat (bytes_to_int64 (hash_with_round seed round) mod Z.of_nat list_size).

(** The rounds [round, round + 1, ...], [rounds] of them. *)
Fixpoint shuffle_rounds (seed : bytes) (list_size rounds round index : nat) : nat :=
  match rounds with
  | O => index
  | S rounds =>
      shuffle_rounds seed list_size rounds (S round)
        (do_round seed index (pivot_of seed round list_size) round list_size)
  end.

Definition compute_shuffled_index (index list_size : nat) (seed : bytes) (shuffle_round_count : nat) : option nat :=
  if decide (list_size = 0 \/ list_size <= index \/ (2 ^ 63 - 1 < Z.of_nat list_size)%Z
             \/ (2 ^ 24 < Z.of_nat list_size)%Z)
  then None
  else Some (shuffle_rounds seed list_size shuffle_round_count 0 index).

(** ** Rounds are involutions *)

Lemma flip_eq n p i : p < n -> i < n -> (p + (n - i)) mod n = if decide (i <= p) then p - i else p + n - i.
Proof.
  intros Hp Hi. case_decide.
  - replace (p + (n - i)) with (p - i + 1 * n) by lia. rewrite Nat.Div0.mod_add. apply Nat.mod_small. lia.
  - rewrite Nat.mod_small by lia. lia.
Qed.

Lemma flip_flip n p i : p < n -> i < n ->
  (p + (n - i)) mod n < n /\ (p + (n - (p + (n - i)) mod n)) mod n = i.
Proof.
  intros Hp Hi. assert ((p + (n - i)) mod n < n) by (apply Nat.mod_upper_bound; lia). split; [done|].
  rewrite (flip_eq n p ((p + (n - i)) mod n)) by done. rewrite (flip_eq n p i) by done.
  repeat case_decide; lia.
Qed.

Lemma pivot_lt seed round n : 0 < n -> pivot_of seed round n < n.
Proof.
  intros Hn. unfold pivot_of.
  pose proof (Z.mod_pos_bound (bytes_to_int64 (hash_with_round seed round)) (Z.of_nat n) ltac:(lia)). lia.
Qed.

Lemma do_round_involutive seed i p round n : p < n -> i < n ->
  do_round seed i p round n < n
  /\ do_round seed (do_round seed i p round n) p round n = i.
Proof.
  intros Hp Hi. destruct (flip_flip n p i Hp Hi) as [Hf Hff]. unfold do_round at 1 3.
  destruct (swap_bit seed round (i `max` ((p + (n - i)) mod n))) eqn:E; (split; [done|]); unfold do_round.
  - rewrite Hff, Nat.max_comm, E. done.
  - by rewrite E.
Qed.

Lemma shuffle_rounds_lt seed n rounds : forall round i, i < n -> shuffle_rounds seed n rounds round i < n.
Proof.
  induction rounds as [|rounds IH]; intros round i Hi; [done|]. simpl. apply IH.
  apply do_round_involutive; [apply pivot_lt; lia|done].
Qed.

Lemma shuffle_rounds_inj seed n rounds : forall round i j, i < n -> j < n ->
  shuffle_rounds seed n rounds round i = shuffle_rounds seed n rounds round j -> i = j.
Proof.
  induction rounds as [|rounds IH]; intros round i j Hi Hj E; [done|]. simpl in E.
  assert (pivot_of seed round n < n) as Hp by (apply pivot_lt; lia).
  destruct (do_round_involutive seed i _ round n Hp Hi) as [Hi1 Hi2].
  destruct (do_round_involutive seed j _ round n Hp Hj) as [Hj1 Hj2].
  apply IH in E; [|done..]. rewrite <- Hi2, <- Hj2. by rewrite E.
Qed.

(** Injective on a range of numbers: a permutation of it. *)
Lemma inj_seq_perm (f : nat -> nat) n :
  (forall i, i < n -> f i < n) -> (forall i j, i < n -> j < n -> f i = f j -> i = j) ->
  map f (seq 0 n) ≡ₚ seq 0 n.
Proof.
  intros Hlt Hinj.
  assert (NoDup (map f (seq 0 n))) as Hnd.
  { apply NoDup_fmap_2_strong; [|apply NoDup_seq]. intros i j Hi%elem_of_seq Hj%elem_of_seq. apply Hinj; lia. }
  apply submseteq_length_Permutation; [|rewrite length_map; lia].
  apply NoDup_submseteq; [done|]. intros k (i & -> & Hi%elem_of_seq)%list_elem_of_fmap.
  apply elem_of_seq. specialize (Hlt i). lia.
Qed.

(** The shuffle is a permutation: for every seed, number of rounds and hash
    function, and every list size it supports, [compute_shuffled_index] maps the
    indices [0..size] one-to-one onto themselves. *)
Theorem shuffle_is_permutation (seed : bytes) (rounds n : nat) :
  0 < n -> (Z.of_nat n <= 2 ^ 24)%Z ->
  exists f, (forall i, i < n -> compute_shuffled_index i n seed rounds = Some (f i))
            /\ map f (seq 0 n) ≡ₚ seq 0 n.
Proof.
  intros Hn Hmax. exists (shuffle_rounds seed n rounds 0). split.
  - intros i Hi. unfold compute_shuffled_index. rewrite decide_False by lia. done.
  - apply inj_seq_perm; [intros; by apply shuffle_rounds_lt|]. intros i j. apply shuffle_rounds_inj.
Qed.

End shuffle.
