(* ===== verification/ShuffleList.v ===== *)
(** * The list shuffle

    [shuffle_list] of the Lighthouse crate swap_or_not_shuffle
    (src/ethereum-topostake/lighthouse/consensus/swap_or_not_shuffle/src/shuffle_list.rs): the
    optimised shuffle of a whole list, which hashes once per 256 positions and
    reads the hash byte by byte.  It agrees with [compute_shuffled_index] at every
    position, and shuffling forwards undoes shuffling backwards. *)

From S2P Require Export Shuffle.
Local Open Scope rust_scope.

Section shuffle_list.
Context `{EthHash} {A : Type}.
Implicit Types (input : list A) (seed : bytes).

(** [Buf]: the seed, the round and the position window that is hashed. *)
Definition SEED_SIZE : nat := 32.
Definition POSITION_WINDOW_SIZE : nat := 4.

Record Buf := mkBuf { buf_seed : bytes; buf_round : Byte.byte; buf_position : bytes }.

Definition Buf_new seed : Outcome Buf :=
  if decide (length seed = SEED_SIZE) then Ret (mkBuf seed Byte.x00 (replicate POSITION_WINDOW_SIZE Byte.x00)) else Panic.
Definition set_round (buf : Buf) (round : nat) : Buf := mkBuf (buf_seed buf) (byte_of_Z (Z.of_nat round)) (buf_position buf).
Definition raw_pivot (buf : Buf) : Z := of_le_bytes (take 8 (eth_hash (buf_seed buf ++ [buf_round buf]))).
Definition mix_in_position (buf : Buf) (position : nat) : Buf :=
  mkBuf (buf_seed buf) (buf_round buf) (take POSITION_WINDOW_SIZE (to_le_bytes 8 (Z.of_nat position))).
Definition buf_hash (buf : Buf) : bytes := eth_hash (buf_seed buf ++ [buf_round buf] ++ buf_position buf).

(** [input.swap(i, j)], which panics outside of the list. *)
Definition swap (i j : nat) input : Outcome (list A) :=
  match input !! i, input !! j with
  | Some a, Some b => Ret (<[i := b]> (<[j := a]> input))
  | _, _ => Panic
  end.

(** [source[(j & 0xff) >> 3]]. *)
Definition byte_at (source : bytes) (j : nat) : Byte.byte := nth (Nat.shiftr (Nat.land j 255) 3) source Byte.x00.

(** One of the two loops of a round, over its pairs [(i, j)].  The position window
    is written before every hash that reads it, so the loop passes on the buffer of
    the round. *)
Fixpoint swap_loop (buf : Buf) (pairs : list (nat * nat)) (source : bytes) (byte_v : Byte.byte) input
    : Outcome (list A) :=
  match pairs with
  | [] => Ret input
  | (i, j) :: pairs =>
      let source := if Nat.eqb (Nat.land j 255) 255 then buf_hash (mix_in_position buf (Nat.shiftr j 8)) else source in
      let byte_v := if Nat.eqb (Nat.land j 7) 7 then byte_at source j else byte_v in
      let bit_v := Z.land (Z.shiftr (Z_of_byte byte_v) (Z.of_nat (Nat.land j 7))) 1 in
      let! input := if (bit_v =? 1)%Z then swap i j input else Ret input in
      swap_loop buf pairs source byte_v input
  end.

Definition start_loop (buf : Buf) (start : nat) (pairs : list (nat * nat)) input : Outcome (list A) :=
  let source := buf_hash (mix_in_position buf (Nat.shiftr start 8)) in
  swap_loop buf pairs source (byte_at source start) input.

Definition first_pairs (pivot : nat) : list (nat * nat) :=
  map (fun i => (i, pivot - i)) (seq 0 (Nat.shiftr (pivot + 1) 1)).
Definition second_pairs (pivot list_size : nat) : list (nat * nat) :=
  map (fun k => (pivot + 1 + k, list_size - 1 - k)) (seq 0 (Nat.shiftr (pivot + list_size + 1) 1 - (pivot + 1))).

Definition list_round (buf : Buf) (round : nat) input : Outcome (list A) :=
  let list_size := length input in
  let buf := set_round buf round in
  let pivot := Z.to_nat (raw_pivot buf mod Z.of_nat list_size) in
  let! input := start_loop buf pivot (first_pairs pivot) input in
  start_loop buf (list_size - 1) (second_pairs pivot list_size) input.

Fixpoint list_rounds (buf : Buf) (rounds : list nat) input : Outcome (list A) :=
  match rounds with
  | [] => Ret input
  | r :: rounds => let! input := list_round buf r input in list_rounds buf rounds input
  end.

Definition shuffle_list input (rounds : nat) seed (forwards : bool) : Outcome (option (list A)) :=
  let list_size := length input in
  if decide (input = [] \/ (2 ^ 63 - 1 < Z.of_nat list_size)%Z \/ (2 ^ 24 < Z.of_nat list_size)%Z \/ rounds = 0)
  then Ret None else
  let! buf := Buf_new seed in
  let! input := list_rounds buf (if forwards then seq 0 rounds else rev (seq 0 rounds)) input in
  Ret (Some input).

(** ** The loops read the swap bits *)

Lemma land_ones_mod j k : Nat.land j (2 ^ k - 1) = j mod 2 ^ k.
Proof. replace (2 ^ k - 1) with (Nat.ones k) by (rewrite Nat.ones_equiv; lia). apply Nat.land_ones. Qed.

Lemma land_255 j : Nat.land j 255 = j mod 256. Proof. exact (land_ones_mod j 8). Qed.
Lemma land_7 j : Nat.land j 7 = j mod 8. Proof. exact (land_ones_mod j 3). Qed.

Definition window (buf : Buf) (j : nat) : bytes := buf_hash (mix_in_position buf (j / 256)).
Definition bit_of (buf : Buf) (j : nat) : bool :=
  (Z.shiftr (Z_of_byte (byte_at (window buf j) j)) (Z.of_nat (j mod 8)) mod 2 =? 1)%Z.

Lemma bit_of_swap_bit seed position round j :
  bit_of (mkBuf seed (byte_of_Z (Z.of_nat round)) position) j = swap_bit seed round j.
Proof.
  unfold bit_of, swap_bit, byte_at. rewrite land_255, Nat.shiftr_div_pow2. reflexivity.
Qed.

(** The state of the loop before it reaches [j]. *)
Definition ready (buf : Buf) (j : nat) (source : bytes) (byte_v : Byte.byte) : Prop :=
  (j mod 256 <> 255 -> source = window buf j) /\ (j mod 8 <> 7 -> byte_v = byte_at (window buf j) j).

Lemma ready_next buf j : ready buf j (window buf (S j)) (byte_at (window buf (S j)) (S j)).
Proof.
  assert (forall k, S j mod k <> 0 -> k <> 0 -> S j / k = j / k /\ S j mod k = S (j mod k)) as Hs.
  { intros k Hm Hk. pose proof (Nat.div_mod_eq (S j) k). pose proof (Nat.mod_upper_bound (S j) k Hk).
    assert (j = k * (S j / k) + (S j mod k - 1)) as Ej by lia.
    pose proof (Nat.div_unique j k (S j / k) (S j mod k - 1) ltac:(lia) Ej).
    pose proof (Nat.mod_unique j k (S j / k) (S j mod k - 1) ltac:(lia) Ej). lia. }
  assert (forall k, k <> 0 -> S j mod k = 0 -> j mod k = k - 1) as Hz.
  { intros k Hk Hm. pose proof (Nat.div_mod_eq (S j) k). symmetry. apply (Nat.mod_unique j k (S j / k - 1)); [lia|].
    assert (1 <= S j / k) by (destruct (S j / k); lia). rewrite Nat.mul_sub_distr_l. nia. }
  split.
  - intros Hj. destruct (Nat.eq_dec (S j mod 256) 0) as [E|E]; [specialize (Hz 256 ltac:(lia) E); lia|].
    unfold window. destruct (Hs 256 E ltac:(lia)) as [-> _]. done.
  - intros Hj. destruct (Nat.eq_dec (S j mod 8) 0) as [E|E]; [specialize (Hz 8 ltac:(lia) E); lia|].
    destruct (Hs 8 E ltac:(lia)) as [E8 M8].
    assert (S j mod 256 <> 0) as E256.
    { intros E0. apply E. pose proof (Nat.div_mod_eq (S j) 256). symmetry.
      apply (Nat.mod_unique (S j) 8 (32 * (S j / 256))); lia. }
    destruct (Hs 256 E256 ltac:(lia)) as [D256 M256]. unfold byte_at, window.
    rewrite D256, !land_255, M256, !Nat.shiftr_div_pow2. f_equal. change (2 ^ 3) with 8.
    pose proof (Nat.div_mod_eq j 256). pose proof (Nat.mod_upper_bound j 256).
    assert (j mod 256 mod 8 = j mod 8) as Em.
    { apply (Nat.mod_unique j 8 (32 * (j / 256) + j mod 256 / 8)); [apply Nat.mod_upper_bound; lia|].
      pose proof (Nat.div_mod_eq (j mod 256) 8). lia. }
    pose proof (Nat.div_mod_eq (j mod 256) 8). pose proof (Nat.mod_upper_bound (S j) 8).
    symmetry. apply (Nat.div_unique _ 8 _ (S (j mod 256 mod 8))); lia.
Qed.

(** Descending pairs. *)
Fixpoint descending (start : nat) (pairs : list (nat * nat)) : Prop :=
  match pairs with
  | [] => True
  | (_, j) :: pairs => j = start /\ match pairs with [] => True | _ => 0 < start end /\ descending (start - 1) pairs
  end.

Fixpoint swap_pairs (bit : nat -> bool) (pairs : list (nat * nat)) input : Outcome (list A) :=
  match pairs with
  | [] => Ret input
  | (i, j) :: pairs => let! input := if bit j then swap i j input else Ret input in swap_pairs bit pairs input
  end.

Lemma swap_loop_eq buf pairs : forall start source byte_v input,
  descending start pairs -> ready buf start source byte_v ->
  swap_loop buf pairs source byte_v input = swap_pairs (bit_of buf) pairs input.
Proof.
  induction pairs as [|[i j] pairs IH]; intros start source byte_v input Hd Hr; [done|].
  cbn [descending] in Hd. destruct Hd as (-> & Hpos & Hd). cbn [swap_loop swap_pairs].
  destruct Hr as [Hs Hb]. rewrite land_255, land_7, !Nat.shiftr_div_pow2. change (2 ^ 8) with 256.
  set (source' := if _ =? 255 then _ else _). assert (source' = window buf start) as ->.
  { unfold source'. destruct (Nat.eqb_spec (start mod 256) 255); [done|]. by apply Hs. }
  set (byte' := if _ =? 7 then _ else _). assert (byte' = byte_at (window buf start) start) as ->.
  { unfold byte'. destruct (Nat.eqb_spec (start mod 8) 7); [done|]. by apply Hb. }
  assert ((Z.land (Z.shiftr (Z_of_byte (byte_at (window buf start) start)) (Z.of_nat (start mod 8))) 1 =? 1)%Z
    = bit_of buf start) as ->.
  { unfold bit_of. f_equal. exact (Z.land_ones _ 1 ltac:(lia)). }
  destruct (if bit_of buf start then _ else _) as [input'|]; [|done]. simpl.
  destruct pairs as [|p pairs]; [done|]. apply (IH (start - 1)); [done|].
  destruct start as [|start]; [lia|]. replace (S start - 1) with start by lia. apply ready_next.
Qed.

(** ** Disjoint swaps *)

Lemma swap_lookup i j input : i < j -> j < length input ->
  exists out, swap i j input = Ret out /\ length out = length input
    /\ out !! i = input !! j /\ out !! j = input !! i
    /\ forall x, x <> i -> x <> j -> out !! x = input !! x.
Proof.
  intros Hi Hj. unfold swap. destruct (lookup_lt_is_Some_2 input i ltac:(lia)) as [a Ea].
  destruct (lookup_lt_is_Some_2 input j Hj) as [b Eb]. rewrite Ea, Eb. eexists; split; [done|].
  rewrite !length_insert. split_and!; [done| | |].
  - apply list_lookup_insert_eq. rewrite length_insert. lia.
  - rewrite list_lookup_insert_ne by lia. by apply list_lookup_insert_eq.
  - intros x Hxi Hxj. by rewrite !list_lookup_insert_ne by done.
Qed.

Lemma swap_pairs_app bit l1 l2 : forall input,
  (let! input := swap_pairs bit l1 input in swap_pairs bit l2 input) = swap_pairs bit (l1 ++ l2) input.
Proof.
  induction l1 as [|[i j] l1 IH]; intros input; [done|]. cbn [swap_pairs app].
  destruct (if bit j then _ else _); [|done]. apply IH.
Qed.

(** The position whose element ends up at [x]. *)
Definition swapped (bit : nat -> bool) (f : nat -> nat) (firsts : list nat) (x : nat) : nat :=
  if decide (Nat.min x (f x) ∈ firsts) then (if bit (Nat.max x (f x)) then f x else x) else x.

Definition pair_ok (f : nat -> nat) (n : nat) (ij : nat * nat) : Prop := ij.1 < ij.2 /\ ij.2 = f ij.1 /\ ij.2 < n.

Lemma swap_pairs_lookup bit f n pairs : (forall x, x < n -> f x < n /\ f (f x) = x) ->
  forall input, length input = n -> NoDup pairs.*1 -> Forall (pair_ok f n) pairs ->
  exists out, swap_pairs bit pairs input = Ret out /\ length out = n
    /\ forall x, x < n -> out !! x = input !! swapped bit f pairs.*1 x.
Proof.
  intros Hf. induction pairs as [|[i j] pairs IH]; intros input Hn Hnd Hp.
  { exists input. split_and!; [done|done|]. intros x _. unfold swapped.
    by rewrite decide_False by (apply not_elem_of_nil). }
  rewrite fmap_cons in *. cbn [fst] in *. apply NoDup_cons in Hnd as [Hi Hnd].
  apply Forall_cons in Hp as [(Hij & Hj & Hjn) Hp]. cbn [fst snd] in *.
  assert (f j = i) as Hji by (rewrite Hj; apply Hf; lia).
  assert (exists input1, (if bit j then swap i j input else Ret input) = Ret input1 /\ length input1 = n
    /\ (forall x, x = i \/ x = j -> input1 !! x = input !! (if bit j then f x else x))
    /\ (forall x, x <> i -> x <> j -> input1 !! x = input !! x)) as (input1 & E1 & Hn1 & Hin & Hout).
  { destruct (bit j).
    - destruct (swap_lookup i j input Hij ltac:(lia)) as (out & E & Hl & Ei & Ej & Eo). exists out.
      split_and!; [done|lia| |done]. intros x [->| ->]; [by rewrite <- Hj|by rewrite Hji].
    - exists input. split_and!; done. }
  destruct (IH input1 Hn1 Hnd Hp) as (out & E & Hl & Hout2). exists out. cbn [swap_pairs]. rewrite E1. simpl.
  split_and!; [done|done|]. intros x Hx. rewrite (Hout2 x Hx). unfold swapped.
  assert (Nat.min x (f x) = i <-> x = i \/ x = j) as Hmin.
  { split.
    - intros Hm. destruct (Nat.min_spec x (f x)) as [[_ Em]|[_ Em]]; [left; congruence|right].
      destruct (Hf x Hx) as [_ <-]. congruence.
    - intros [->| ->]; [|rewrite Hji]; lia. }
  destruct (decide (x = i \/ x = j)) as [Hxij|Hxij].
  - assert (Nat.min x (f x) = i) as Em by (by apply Hmin). rewrite !Em.
    rewrite decide_False by done. rewrite decide_True by (left). rewrite (Hin x Hxij).
    assert (Nat.max x (f x) = j) as -> by (destruct Hxij as [->| ->]; [|rewrite Hji]; lia). done.
  - assert (Nat.min x (f x) <> i) as Hm by (by rewrite Hmin).
    assert (forall y, y = x \/ y = f x -> y <> i /\ y <> j) as Hy.
    { intros y [->| ->]; [split; intros ->; apply Hxij; auto|].
      destruct (Hf x Hx) as [_ Hff]. split; intros E0; rewrite E0 in Hff; apply Hxij; [right|left]; congruence. }
    destruct (decide (Nat.min x (f x) ∈ pairs.*1)) as [Hd|Hd].
    + rewrite decide_True by (by right).
      destruct (bit (Nat.max x (f x))); apply Hout; apply Hy; auto.
    + rewrite decide_False by (intros [?|?]%elem_of_cons; done). apply Hout; apply Hy; auto.
Qed.

(** ** A round of the list is a round of every index *)

Lemma descending_map (g : nat -> nat) (start k : nat) : forall m, k + m <= S start ->
  descending (start - k) (map (fun i => (g i, start - i)) (seq k m)).
Proof.
  intros m. revert k. induction m as [|m IH]; intros k Hk; [done|]. simpl. split; [done|]. split.
  - destruct m; simpl; [done|]. lia.
  - replace (start - k - 1) with (start - S k) by lia. apply IH. lia.
Qed.

Lemma half k : 2 * Nat.shiftr k 1 <= k < 2 * Nat.shiftr k 1 + 2.
Proof.
  rewrite Nat.shiftr_div_pow2. change (2 ^ 1) with 2.
  pose proof (Nat.div_mod_eq k 2). pose proof (Nat.mod_upper_bound k 2). lia.
Qed.

Section round.
Variables (p n : nat).
Hypothesis Hp : p < n.
Let f (x : nat) : nat := (p + (n - x)) mod n.
Let pairs : list (nat * nat) := first_pairs p ++ second_pairs p n.

Lemma round_firsts : pairs.*1 = seq 0 (Nat.shiftr (p + 1) 1) ++ seq (p + 1) (Nat.shiftr (p + n + 1) 1 - (p + 1)).
Proof.
  unfold pairs, first_pairs, second_pairs. rewrite fmap_app. f_equal; rewrite <- !list_fmap_compose.
  - by rewrite <- (list_fmap_id (seq 0 _)) at 2.
  - pose proof (fmap_add_seq (p + 1) 0 (Nat.shiftr (p + n + 1) 1 - (p + 1))) as E. rewrite Nat.add_0_r in E.
    rewrite <- E. by apply list_fmap_ext.
Qed.

Lemma round_pairs_ok : NoDup pairs.*1 /\ Forall (pair_ok f n) pairs.
Proof.
  pose proof (half (p + 1)). pose proof (half (p + n + 1)). split.
  - rewrite round_firsts. apply NoDup_app. split_and!; [apply NoDup_seq| |apply NoDup_seq].
    intros x Hx Hx'. rewrite elem_of_seq in Hx, Hx'. lia.
  - apply Forall_app. split; apply Forall_fmap, Forall_forall; intros k Hk%elem_of_seq; unfold pair_ok; cbn [fst snd compose].
    + unfold f. rewrite (flip_eq n p k) by lia. rewrite decide_True by lia. lia.
    + unfold f. rewrite (flip_eq n p (p + 1 + k)) by lia. rewrite decide_False by lia. lia.
Qed.

(** Every position is either in a pair or its own mirror. *)
Lemma round_swapped bit x : x < n -> swapped bit f pairs.*1 x = if bit (Nat.max x (f x)) then f x else x.
Proof.
  intros Hx. unfold swapped. case_decide as Hd; [done|].
  assert (f x = x) as ->; [|by destruct (bit _)]. destruct (Nat.eq_dec (f x) x) as [|Hne]; [done|]. exfalso. apply Hd.
  rewrite round_firsts, elem_of_app, !elem_of_seq. pose proof (half (p + 1)). pose proof (half (p + n + 1)).
  revert Hne. unfold f. rewrite (flip_eq n p x) by done. case_decide; lia.
Qed.
End round.

Lemma start_loop_eq seed round position start pairs input : descending start pairs ->
  start_loop (mkBuf seed (byte_of_Z (Z.of_nat round)) position) start pairs input
  = swap_pairs (swap_bit seed round) pairs input.
Proof.
  intros Hd. unfold start_loop. rewrite (swap_loop_eq _ pairs start); [|done|].
  - clear. revert input. induction pairs as [|[i j] pairs IH]; intros input; [done|]. cbn [swap_pairs].
    rewrite bit_of_swap_bit. destruct (if swap_bit seed round j then _ else _); [|done]. apply IH.
  - unfold window. rewrite Nat.shiftr_div_pow2. by split.
Qed.

Lemma list_round_lookup seed round position b0 input :
  input <> [] ->
  exists out, list_round (mkBuf seed b0 position) round input = Ret out /\ length out = length input
    /\ forall x, x < length input ->
       out !! x = input !! do_round seed x (pivot_of seed round (length input)) round (length input).
Proof.
  intros Hne. assert (0 < length input) as Hn by (destruct input; simpl; [done|lia]).
  unfold list_round. cbv zeta. set (n := length input) in *. unfold set_round. cbn [buf_seed buf_position].
  assert (Z.to_nat (raw_pivot (mkBuf seed (byte_of_Z (Z.of_nat round)) position) mod Z.of_nat n)
    = pivot_of seed round n) as -> by done.
  pose proof (pivot_lt seed round n Hn) as Hp. set (p := pivot_of seed round n) in *.
  pose proof (half (p + 1)). pose proof (half (p + n + 1)).
  rewrite start_loop_eq.
  2: { pose proof (descending_map id p 0 (Nat.shiftr (p + 1) 1) ltac:(lia)) as Hd. by rewrite Nat.sub_0_r in Hd. }
  destruct (round_pairs_ok p n Hp) as [Hnd Hok].
  destruct (swap_pairs_lookup (swap_bit seed round) (fun x => (p + (n - x)) mod n) n
    (first_pairs p ++ second_pairs p n) (fun x => flip_flip n p x Hp) input eq_refl Hnd Hok) as (out & E & Hl & Hout).
  exists out. rewrite <- swap_pairs_app in E. split_and!; [|done|].
  - rewrite <- E. destruct (swap_pairs _ (first_pairs p) input) as [mid|]; [|done]. simpl. apply start_loop_eq.
    pose proof (descending_map (Nat.add (p + 1)) (n - 1) 0 (Nat.shiftr (p + n + 1) 1 - (p + 1)) ltac:(lia)) as Hd.
    by rewrite Nat.sub_0_r in Hd.
  - intros x Hx. rewrite Hout by done. f_equal. by rewrite (round_swapped p n Hp).
Qed.

Lemma list_rounds_app buf l1 l2 : forall input,
  list_rounds buf (l1 ++ l2) input = let! input := list_rounds buf l1 input in list_rounds buf l2 input.
Proof. induction l1 as [|r l1 IH]; intros input; [done|]. simpl. destruct (list_round buf r input); [|done]. apply IH. Qed.

Definition applies (n : nat) (out : Outcome (list A)) (rel : list A -> Prop) : Prop :=
  exists l, out = Ret l /\ length l = n /\ rel l.

(** Backwards: every position takes the element of its shuffled index. *)
Lemma backwards_lookup seed position b0 rounds : forall round input, input <> [] ->
  applies (length input) (list_rounds (mkBuf seed b0 position) (rev (seq round rounds)) input)
    (fun l => forall x, x < length input -> l !! x = input !! shuffle_rounds seed (length input) rounds round x).
Proof.
  induction rounds as [|rounds IH]; intros round input Hne; [by exists input|].
  cbn [seq rev]. rewrite list_rounds_app. destruct (IH (S round) input Hne) as (mid & -> & Hl & Hmid). simpl.
  assert (mid <> []) as Hne' by (destruct mid, input; done).
  destruct (list_round_lookup seed round position b0 mid Hne') as (out & -> & Hlo & Hout). exists out. simpl.
  split_and!; [done|lia|]. intros x Hx. rewrite Hl in Hout. rewrite Hout by done. apply Hmid.
  apply do_round_involutive; [apply pivot_lt; lia|done].
Qed.

(** Forwards: every element moves to its shuffled index. *)
Lemma forwards_lookup seed position b0 rounds : forall round input, input <> [] ->
  applies (length input) (list_rounds (mkBuf seed b0 position) (seq round rounds) input)
    (fun l => forall x, x < length input -> l !! shuffle_rounds seed (length input) rounds round x = input !! x).
Proof.
  induction rounds as [|rounds IH]; intros round input Hne; [by exists input|]. cbn [seq list_rounds].
  destruct (list_round_lookup seed round position b0 input Hne) as (mid & -> & Hl & Hmid). simpl.
  assert (mid <> []) as Hne' by (destruct mid, input; done).
  destruct (IH (S round) mid Hne') as (out & -> & Hlo & Hout). exists out. split_and!; [done|lia|].
  intros x Hx. rewrite Hl in Hout.
  destruct (do_round_involutive seed x (pivot_of seed round (length input)) round (length input)
    ltac:(apply pivot_lt; lia) Hx) as [Hlt Hinv].
  rewrite Hout, Hmid by done. by rewrite Hinv.
Qed.

Lemma shuffle_list_run input rounds seed forwards :
  length seed = SEED_SIZE -> input <> [] -> (Z.of_nat (length input) <= 2 ^ 24)%Z -> 0 < rounds ->
  shuffle_list input rounds seed forwards =
    let! l := list_rounds (mkBuf seed Byte.x00 (replicate POSITION_WINDOW_SIZE Byte.x00))
      (if forwards then seq 0 rounds else rev (seq 0 rounds)) input in Ret (Some l).
Proof.
  intros Hs Hne Hmax Hr. unfold shuffle_list, Buf_new.
  rewrite decide_False by (intros [?|[?|[?|?]]]; [done|lia..]). by rewrite decide_True.
Qed.

(** C28: Shuffling a whole list agrees with shuffling its indices one by one, in
    both directions: for a 32-byte seed, a list of at most 2^24 elements and at
    least one round, [shuffle_list] returns a list of the same length, in which
    backwards position [x] holds the element of the shuffled index of [x], and
    forwards the shuffled index of [x] holds the element of [x]. *)
Theorem shuffle_list_agrees input (rounds : nat) seed :
  length seed = SEED_SIZE -> input <> [] -> (Z.of_nat (length input) <= 2 ^ 24)%Z -> 0 < rounds ->
  exists back fwd,
    shuffle_list input rounds seed false = Ret (Some back) /\ length back = length input
    /\ shuffle_list input rounds seed true = Ret (Some fwd) /\ length fwd = length input
    /\ forall x, x < length input -> exists y,
         compute_shuffled_index x (length input) seed rounds = Some y
         /\ back !! x = input !! y /\ fwd !! y = input !! x.
Proof.
  intros Hs Hne Hmax Hr. rewrite !shuffle_list_run by done.
  destruct (backwards_lookup seed (replicate POSITION_WINDOW_SIZE Byte.x00) Byte.x00 rounds 0 input Hne)
    as (back & -> & Hlb & Hb).
  destruct (forwards_lookup seed (replicate POSITION_WINDOW_SIZE Byte.x00) Byte.x00 rounds 0 input Hne)
    as (fwd & -> & Hlf & Hf).
  exists back, fwd. split_and!; [done..|]. intros x Hx. exists (shuffle_rounds seed (length input) rounds 0 x).
  split_and!; [|by apply Hb|by apply Hf]. unfold compute_shuffled_index. rewrite decide_False by lia. done.
Qed.

(** Shuffling forwards and backwards undo each other, in either order, as
    the comment on [shuffle_list] says. *)
Theorem shuffle_list_round_trip input (rounds : nat) seed (forwards : bool) :
  length seed = SEED_SIZE -> input <> [] -> (Z.of_nat (length input) <= 2 ^ 24)%Z -> 0 < rounds ->
  exists l, shuffle_list input rounds seed forwards = Ret (Some l)
    /\ shuffle_list l rounds seed (negb forwards) = Ret (Some input).
Proof.
  intros Hs Hne Hmax Hr. rewrite shuffle_list_run by done.
  set (pos := replicate POSITION_WINDOW_SIZE Byte.x00). set (n := length input).
  assert (0 < n) as Hn by (unfold n; destruct input; simpl; [done|lia]).
  set (sigma := shuffle_rounds seed n rounds 0).
  assert (forall y, y < n -> exists x, x < n /\ sigma x = y) as Hsurj.
  { intros y Hy. assert (y ∈ map sigma (seq 0 n)) as (x & -> & Hx%elem_of_seq)%list_elem_of_fmap.
    - rewrite (inj_seq_perm sigma n); [apply elem_of_seq; lia|intros; by apply shuffle_rounds_lt|].
      intros i j. apply shuffle_rounds_inj.
    - exists x. split; [lia|done]. }
  assert (forall l : list A, length l = n -> (forall x, x < n -> l !! x = input !! x) -> l = input) as Hext.
  { intros l Hl He. apply list_eq. intros i. destruct (decide (i < n)) as [Hi|Hi]; [by apply He|].
    by rewrite !lookup_ge_None_2 by lia. }
  destruct forwards; cbn [negb].
  - destruct (forwards_lookup seed pos Byte.x00 rounds 0 input Hne) as (mid & -> & Hl & Hm). exists mid. split; [done|].
    assert (mid <> []) as Hne' by (destruct mid, input; done).
    rewrite shuffle_list_run by (try done; lia). fold pos.
    destruct (backwards_lookup seed pos Byte.x00 rounds 0 mid Hne') as (out & -> & Hlo & Ho). simpl. do 2 f_equal.
    rewrite Hl in Ho. apply Hext; [lia|]. intros x Hx. rewrite Ho by done. by apply Hm.
  - destruct (backwards_lookup seed pos Byte.x00 rounds 0 input Hne) as (mid & -> & Hl & Hm). exists mid. split; [done|].
    assert (mid <> []) as Hne' by (destruct mid, input; done).
    rewrite shuffle_list_run by (try done; lia). fold pos.
    destruct (forwards_lookup seed pos Byte.x00 rounds 0 mid Hne') as (out & -> & Hlo & Ho). simpl. do 2 f_equal.
    rewrite Hl in Ho. apply Hext; [lia|]. intros y Hy. destruct (Hsurj y Hy) as (x & Hx & <-).
    unfold sigma, n. rewrite Ho by done. by apply Hm.
Qed.

End shuffle_list.
