(* ===== verification/BeaconProposer.v ===== *)
(** * Proposer selection of the consensus client

    [compute_proposer_index] and [compute_topostake_proposer_index] of
    src/ethereum-topostake/lighthouse/consensus/types/src/state/beacon_state.rs:
    candidates are visited in shuffled order and accepted with a probability
    proportional to their effective balance or, after the TopoStake fork, to their
    proposer weight.  Of the state, the validators' effective balances and whether
    the Electra fork is active matter here.  Metrics are left out.

    The candidate loop has a budget of tries; for the TopoStake selection as many
    tries as there are validators are proved to be enough. *)

From S2P Require Export Shuffle SettlementFacts.
Local Open Scope rust_scope.
Local Open Scope Z_scope.

Inductive BeaconStateError :=
  | InsufficientValidators
  | UnableToShuffle
  | ShuffleIndexOutOfBounds (i : nat)
  | UnknownValidator (i : Z)
  | ArithError.

Definition MAX_RANDOM_BYTE : Z := 2 ^ 8 - 1.
Definition MAX_RANDOM_VALUE : Z := 2 ^ 16 - 1.

(** What selection reads of a state. *)
Record StateView := mkStateView {
  sv_effective_balances : list Z;
  sv_electra_enabled : bool;
  sv_max_effective_balance : Z;
  sv_shuffle_round_count : nat
}.

Section selection.
Context `{Env} `{EthHash}.
Implicit Types (cfg : TopoStakeConfig) (rt : TopoStakeEvidenceRuntime) (st : StateView) (seed : bytes)
  (indices : list Z).

(** [safe_add] and [safe_mul] on [u64]. *)
Definition safe_add (a b : Z) : Result Z BeaconStateError := if a + b <=? U64_MAX then Ok (a + b) else Err ArithError.
Definition safe_mul (a b : Z) : Result Z BeaconStateError := if a * b <=? U64_MAX then Ok (a * b) else Err ArithError.

Definition get_effective_balance st (validator_index : Z) : Result Z BeaconStateError :=
  match sv_effective_balances st !! Z.to_nat validator_index with
  | Some b => Ok b
  | None => Err (UnknownValidator validator_index)
  end.

Definition shuffling_random_byte (i : nat) seed : Result Z BeaconStateError :=
  let preimage := seed ++ to_le_bytes 8 (Z.of_nat (i / 32)) in
  let index := (i mod 32)%nat in
  match eth_hash preimage !! index with
  | Some b => Ok (Z_of_byte b)
  | None => Err (ShuffleIndexOutOfBounds index)
  end.

Definition shuffling_random_u16_electra (i : nat) seed : Result Z BeaconStateError :=
  let preimage := seed ++ to_le_bytes 8 (Z.of_nat (i / 16)) in
  let offset := (i mod 16 * 2)%nat in
  match eth_hash preimage !! offset, eth_hash preimage !! S offset with
  | Some a, Some b => Ok (Z_of_byte a + 256 * Z_of_byte b)
  | _, _ => Err (ShuffleIndexOutOfBounds offset)
  end.

Definition shuffling_random_value st (i : nat) seed : Result Z BeaconStateError :=
  if sv_electra_enabled st then shuffling_random_u16_electra i seed else shuffling_random_byte i seed.

Definition max_random_value st : Z := if sv_electra_enabled st then MAX_RANDOM_VALUE else MAX_RANDOM_BYTE.

(** The candidate of the [i]-th try. *)
Definition candidate st indices seed (i : nat) : Result Z BeaconStateError :=
  match compute_shuffled_index (i mod length indices) (length indices) seed (sv_shuffle_round_count st) with
  | None => Err UnableToShuffle
  | Some shuffled_index =>
      match indices !! shuffled_index with
      | Some v => Ok v
      | None => Err (ShuffleIndexOutOfBounds shuffled_index)
      end
  end.

(** ** Selection by effective balance *)

Fixpoint proposer_loop (tries : nat) st indices seed (i : nat) : option (Result Z BeaconStateError) :=
  match tries with
  | O => None
  | S tries =>
      let attempt :=
        let? v := candidate st indices seed i in
        let? random_value := shuffling_random_value st i seed in
        let? effective_balance := get_effective_balance st v in
        let? l := safe_mul effective_balance (max_random_value st) in
        let? r := safe_mul (sv_max_effective_balance st) random_value in
        Ok (if r <=? l then Some v else None) in
      match attempt with
      | Err e => Some (Err e)
      | Ok (Some v) => Some (Ok v)
      | Ok None => proposer_loop tries st indices seed (S i)
      end
  end.

Definition compute_proposer_index (tries : nat) st indices seed : option (Result Z BeaconStateError) :=
  if decide (indices = []) then Some (Err InsufficientValidators)
  else proposer_loop tries st indices seed 0.

(** ** Selection by proposer weight *)

Fixpoint total_balance st (total : Z) indices : Result Z BeaconStateError :=
  match indices with
  | [] => Ok total
  | v :: indices =>
      let? b := get_effective_balance st v in
      let? total := safe_add total b in
      total_balance st total indices
  end.

(** The weights of the validators, in order. *)
Fixpoint all_weights cfg rt st (epoch total_active_balance active_score_total : Z) indices
    : TopoStakeEvidenceRuntime * Result (list Z) BeaconStateError :=
  match indices with
  | [] => (rt, Ok [])
  | v :: indices =>
      match get_effective_balance st v with
      | Err e => (rt, Err e)
      | Ok b =>
          let '(rt, w) := proposer_weight_scaled_at_epoch_with_score_total cfg rt epoch b total_active_balance v
                            active_score_total in
          let '(rt, ws) := all_weights cfg rt st epoch total_active_balance active_score_total indices in
          (rt, let? ws := ws in Ok (w :: ws))
      end
  end.

Fixpoint topostake_loop (tries : nat) cfg rt st (epoch : Z) indices seed
    (total_active_balance active_score_total max_proposer_weight : Z) (i : nat)
    : option (TopoStakeEvidenceRuntime * Result Z BeaconStateError) :=
  match tries with
  | O => None
  | S tries =>
      match (let? v := candidate st indices seed i in
             let? random_value := shuffling_random_value st i seed in
             let? b := get_effective_balance st v in Ok (v, random_value, b)) with
      | Err e => Some (rt, Err e)
      | Ok (v, random_value, b) =>
          let '(rt, w) := proposer_weight_scaled_at_epoch_with_score_total cfg rt epoch b total_active_balance v
                            active_score_total in
          if u128_sat_mul max_proposer_weight random_value <=? u128_sat_mul w (max_random_value st)
          then Some (rt, Ok v)
          else topostake_loop tries cfg rt st epoch indices seed total_active_balance active_score_total
                 max_proposer_weight (S i)
      end
  end.

Definition compute_topostake_proposer_index (tries : nat) cfg rt st (epoch : Z) indices seed
    : option (TopoStakeEvidenceRuntime * Result Z BeaconStateError) :=
  if decide (indices = []) then Some (rt, Err InsufficientValidators) else
  match total_balance st 0 indices with
  | Err e => Some (rt, Err e)
  | Ok total_active_balance =>
      let '(rt, active_score_total) := score_total_for_validators_at_epoch cfg rt epoch indices in
      match all_weights cfg rt st epoch total_active_balance active_score_total indices with
      | (rt, Err e) => Some (rt, Err e)
      | (rt, Ok ws) =>
          topostake_loop tries cfg rt st epoch indices seed total_active_balance active_score_total
            (max_or_zero ws) 0
      end
  end.

Definition compute_beacon_proposer_index_for_epoch (tries : nat) cfg rt st (epoch : Z) (gloas_enabled : bool)
    indices seed : option (TopoStakeEvidenceRuntime * Result Z BeaconStateError) :=
  if is_enabled_at_epoch cfg epoch && negb gloas_enabled
  then compute_topostake_proposer_index tries cfg rt st epoch indices seed
  else pair rt <$> compute_proposer_index tries st indices seed.

End selection.
