(* ===== verification/ProposerFacts.v ===== *)
(** * Properties of proposer selection in the consensus client

    Weights are bounded by the effective balance and the configured bonus, so a
    coalition's selection weight is bounded by its stake; and the candidate loop
    ends within one pass over the validators. *)

From S2P Require Export BeaconProposer.
Local Open Scope rust_scope.
Local Open Scope Z_scope.

(** ** Parsed numbers *)

Lemma parse_digits_range max s : forall acc z, 0 <= acc <= max -> parse_digits max acc s = Some z -> 0 <= z <= max.
Proof.
  induction s as [|c s IH]; intros acc z Hacc; simpl; [by intros [= <-]|].
  unfold digit_value. destruct ((48 <=? c) && (c <=? 57)) eqn:E; [|done].
  apply andb_true_iff in E as [E1%Z.leb_le E2%Z.leb_le].
  destruct (Z.leb_spec (acc * 10 + (c - 48)) max); [|done]. apply IH. lia.
Qed.

Lemma parse_u64_range s z : parse_u64 s = Some z -> is_u64 z.
Proof.
  assert (0 <= 0 <= U64_MAX) as H0 by (unfold U64_MAX; lia).
  unfold parse_u64, parse_unsigned, is_u64. destruct (codes s) as [|c t]; [done|].
  destruct (c =? 43); [destruct t; [done|]|]; by apply parse_digits_range.
Qed.

Section weights.
Context `{Env} (cfg : TopoStakeConfig).
Implicit Types (rt : TopoStakeEvidenceRuntime) (s : gmap Z Z).

(** The fields of the configuration that weights depend on, in the range of their type. *)
Definition weights_typed : Prop := is_u64 (eta_scaled cfg) /\ is_u64 (bonus_cap_scaled cfg).

Definition effective_eta : Z := Z.min (default (eta_scaled cfg) (topostake_env_u64 "TOPOSTAKE_ETA_SCALED")) SCALE.

(** The largest multiplier: [1 + eta * bonus_cap], scaled. *)
Definition max_multiplier : Z := bonus_multiplier_from_bonus_scaled cfg (bonus_cap_scaled cfg).

Lemma effective_eta_range : weights_typed -> 0 <= effective_eta <= SCALE.
Proof.
  intros [He _]. unfold effective_eta, topostake_env_u64. unfold is_u64, TOPOSTAKE_FIXED_POINT_SCALE in *.
  destruct (env_var "TOPOSTAKE_ETA_SCALED"); simpl; [|lia].
  destruct (parse_u64 _) as [z|] eqn:E; simpl; [|lia]. apply parse_u64_range in E. unfold is_u64 in E. lia.
Qed.

Lemma multiplier_mono b b' : weights_typed -> 0 <= b <= b' ->
  SCALE <= bonus_multiplier_from_bonus_scaled cfg b <= bonus_multiplier_from_bonus_scaled cfg b'
  /\ bonus_multiplier_from_bonus_scaled cfg b' <= U64_MAX.
Proof.
  intros Hty Hb. pose proof (effective_eta_range Hty) as He. destruct Hty as [_ Hcap].
  unfold bonus_multiplier_from_bonus_scaled. fold effective_eta. cbv zeta.
  assert (forall x y, 0 <= x <= y -> 0 <= u128_sat_mul effective_eta x / SCALE <= u128_sat_mul effective_eta y / SCALE) as Hm.
  { intros x y Hxy. split; [apply Z.div_pos; [apply u128_sat_mul_nonneg; lia|done]|]. apply Z.div_le_mono; [done|].
    unfold u128_sat_mul. pose proof (Z.mul_le_mono_nonneg_l x y effective_eta ltac:(lia) ltac:(lia)). lia. }
  unfold is_u64 in Hcap.
  specialize (Hm (Z.min b (bonus_cap_scaled cfg)) (Z.min b' (bonus_cap_scaled cfg)) ltac:(lia)).
  unfold clamp64, u128_sat_add, U64_MAX, U128_MAX, TOPOSTAKE_FIXED_POINT_SCALE in *. lia.
Qed.

Lemma multiplier_range b : weights_typed -> 0 <= b ->
  SCALE <= bonus_multiplier_from_bonus_scaled cfg b <= max_multiplier /\ max_multiplier <= U64_MAX.
Proof.
  intros Hty Hb. pose proof Hty as [_ Hcap]. unfold is_u64 in Hcap. unfold max_multiplier.
  assert (bonus_multiplier_from_bonus_scaled cfg b
          = bonus_multiplier_from_bonus_scaled cfg (Z.min b (bonus_cap_scaled cfg))) as ->.
  { unfold bonus_multiplier_from_bonus_scaled. by rewrite <- Z.min_assoc, Z.min_id. }
  apply multiplier_mono; [done|lia].
Qed.

(** ** The weight of a validator as a function of the activated scores *)

Definition score_of s (v : Z) : Z := Z.max (score_for_validator cfg v) (get_or 0 s v).

Definition weight_of s (total_active_balance active_score_total v b : Z) : Z :=
  u128_sat_mul b (bonus_multiplier_from_bonus_scaled cfg
    (bonus_scaled cfg (score_of s v) b total_active_balance active_score_total)).

Lemma clamp64_nonneg x : 0 <= x -> 0 <= clamp64 x.
Proof. unfold clamp64, U64_MAX. lia. Qed.

Lemma bonus_nonneg score b total active : 0 <= bonus_zeta_scaled cfg -> 0 <= score_floor_kappa_scaled cfg ->
  0 <= bonus_cap_scaled cfg -> 0 <= score -> 0 <= b -> 0 <= total -> 0 <= active ->
  0 <= bonus_scaled cfg score b total active.
Proof.
  intros Hz Hk Hc Hs Hb Ht Ha. unfold bonus_scaled.
  destruct ((score =? 0) || (b =? 0) || (total =? 0)); [lia|]. cbv zeta.
  assert (0 <= u128_sat_add (score_floor_kappa_scaled cfg) active) by (unfold u128_sat_add, U128_MAX; lia).
  destruct (Z.eqb_spec (u128_sat_add (score_floor_kappa_scaled cfg) active) 0); [lia|].
  assert (0 <= u128_sat_mul b SCALE / total).
  { destruct (decide (total = 0)) as [->|]; [by rewrite Z.div_0_r|].
    apply Z.div_pos; [apply u128_sat_mul_nonneg; [lia|done]|lia]. }
  destruct (Z.eqb_spec (u128_sat_mul b SCALE / total) 0); [lia|].
  unfold concave_bonus_scaled. cbv zeta. set (x := clamp64 _).
  assert (0 <= x).
  { apply clamp64_nonneg, Z.div_pos; [|lia]. apply u128_sat_mul_nonneg; [|done].
    apply Z.div_pos; [by apply u128_sat_mul_nonneg|lia]. }
  assert (0 <= u128_sat_add (bonus_zeta_scaled cfg) x) by (unfold u128_sat_add, U128_MAX; lia).
  destruct (Z.eqb_spec (u128_sat_add (bonus_zeta_scaled cfg) x) 0); [lia|].
  apply clamp64_nonneg, Z.div_pos; [by apply u128_sat_mul_nonneg|lia].
Qed.

(** The rest of the configuration and the runtime, in the range of their types. *)
Definition selection_typed : Prop :=
  weights_typed /\ 0 <= bonus_zeta_scaled cfg /\ 0 <= score_floor_kappa_scaled cfg.

Lemma score_of_nonneg s v : nonneg_map s -> 0 <= score_of s v.
Proof. intros Hs. pose proof (get_or_nonneg s v Hs). unfold score_of. lia. Qed.

(** A weight is the balance times a multiplier between one and the maximum. *)
Lemma client_weight_bounds s total active v b :
  selection_typed -> nonneg_map s -> is_u64 b -> 0 <= total -> 0 <= active ->
  b * SCALE <= weight_of s total active v b <= b * max_multiplier.
Proof.
  intros (Hty & Hz & Hk) Hs Hb Ht Ha. unfold weight_of.
  pose proof (bonus_nonneg (score_of s v) b total active Hz Hk (proj1 (proj2 Hty)) (score_of_nonneg s v Hs)
    (proj1 Hb) Ht Ha) as Hbn.
  destruct (multiplier_range _ Hty Hbn) as [[Hlo Hhi] Hmax]. unfold is_u64 in Hb.
  assert (0 <= SCALE) by done.
  rewrite u128_sat_mul_small by (unfold is_u64; lia). split; apply Z.mul_le_mono_nonneg_l; lia.
Qed.

End weights.

(** ** Selection reads the scores once *)

Section reads.
Context `{Env} (cfg : TopoStakeConfig) (epoch : Z).
Implicit Types (rt : TopoStakeEvidenceRuntime) (s : gmap Z Z) (st : StateView).

(** The scores selection uses, and the runtime after they were read. *)
Definition read rt : TopoStakeEvidenceRuntime * gmap Z Z :=
  topostake_evidence_scores_for_epoch rt epoch (score_activation_delay_epochs cfg).

Lemma read_again rt : read (read rt).1 = read rt.
Proof.
  unfold read, topostake_evidence_scores_for_epoch. destruct (u64_checked_sub _ _); [|done].
  destruct (activated_scores_by_proposer_epoch rt !! epoch) as [s|] eqn:E; simpl; [by rewrite E|].
  by rewrite lookup_insert_eq.
Qed.

Lemma weight_eq rt b total v active :
  proposer_weight_scaled_at_epoch_with_score_total cfg rt epoch b total v active
  = ((read rt).1, weight_of cfg (read rt).2 total active v b).
Proof.
  unfold proposer_weight_scaled_at_epoch_with_score_total, bonus_scaled_at_epoch_with_score_total,
    score_for_validator_at_epoch, weight_of, score_of, read.
  by destruct (topostake_evidence_scores_for_epoch rt epoch _).
Qed.

Lemma score_total_loop_eq l : forall rt total, nonneg_map (read rt).2 -> 0 <= total ->
  exists active, 0 <= active
    /\ score_total_loop cfg rt epoch total l = (if decide (l = []) then rt else (read rt).1, active).
Proof.
  induction l as [|v l IH]; intros rt total Hs Ht; [by exists total|]. cbn [score_total_loop].
  assert (score_for_validator_at_epoch cfg rt epoch v = ((read rt).1, score_of cfg (read rt).2 v)) as ->.
  { unfold score_for_validator_at_epoch, score_of, read. by destruct (topostake_evidence_scores_for_epoch rt epoch _). }
  pose proof (score_of_nonneg cfg _ v Hs).
  destruct (IH (read rt).1 (u64_sat_add total (score_of cfg (read rt).2 v))) as (active & Ha & E).
  - by rewrite read_again.
  - unfold u64_sat_add, U64_MAX. lia.
  - exists active. split; [done|]. rewrite E, read_again. rewrite (decide_False (P := v :: l = [])) by done.
    by destruct (decide (l = [])).
Qed.

(** ** Balances *)

Definition balance_of st (v : Z) : Z := default 0 (sv_effective_balances st !! Z.to_nat v).
Definition stake_of st (l : list Z) : Z := zsum (map (balance_of st) l).
Definition known st (v : Z) : Prop := get_effective_balance st v = Ok (balance_of st v).
Definition state_typed st : Prop := Forall is_u64 (sv_effective_balances st).

Lemma get_effective_balance_ok st v b : get_effective_balance st v = Ok b -> known st v /\ b = balance_of st v.
Proof.
  unfold known, get_effective_balance, balance_of. destruct (_ !! _); [|done]. by intros [= <-].
Qed.

Lemma balance_typed st v : state_typed st -> is_u64 (balance_of st v).
Proof.
  intros Hst. unfold balance_of. destruct (_ !! _) as [b|] eqn:E; simpl.
  - by eapply Forall_lookup_1.
  - unfold is_u64, U64_MAX. lia.
Qed.

Lemma total_balance_ok st l : state_typed st -> forall total total', 0 <= total ->
  total_balance st total l = Ok total' -> Forall (known st) l /\ 0 <= total'.
Proof.
  intros Hst. induction l as [|v l IH]; intros total total' Ht; simpl; [by intros [= <-]|].
  destruct (get_effective_balance st v) as [b|] eqn:E; [|done]. apply get_effective_balance_ok in E as [Hk ->]. simpl.
  unfold safe_add. destruct (_ <=? U64_MAX); [|done]. simpl. intros Hrest.
  pose proof (balance_typed st v Hst) as Hb. unfold is_u64 in Hb.
  destruct (IH (total + balance_of st v) total' ltac:(lia) Hrest). split; [by constructor|done].
Qed.

Lemma all_weights_eq st total active l : Forall (known st) l -> forall rt,
  all_weights cfg rt st epoch total active l
  = (if decide (l = []) then rt else (read rt).1,
     Ok (map (fun v => weight_of cfg (read rt).2 total active v (balance_of st v)) l)).
Proof.
  induction 1 as [|v l Hv _ IH]; intros rt; [done|]. cbn [all_weights map]. rewrite Hv, weight_eq, IH, read_again. simpl.
  by destruct (decide (l = [])).
Qed.

End reads.

(** ** Coalitions *)

Section coalition.
Context `{Env} (cfg : TopoStakeConfig).

Lemma weights_sum_bounds s st total active l :
  selection_typed cfg -> nonneg_map s -> 0 <= total -> 0 <= active -> state_typed st ->
  0 <= stake_of st l
  /\ stake_of st l * SCALE <= zsum (map (fun v => weight_of cfg s total active v (balance_of st v)) l)
     <= stake_of st l * max_multiplier cfg.
Proof.
  intros Hty Hs Ht Ha Hst. unfold stake_of. induction l as [|v l IH]; [simpl; lia|].
  cbn [map zsum foldr]. pose proof (balance_typed st v Hst) as Hb.
  pose proof (client_weight_bounds cfg s total active v _ Hty Hs Hb Ht Ha). unfold zsum, is_u64 in *. lia.
Qed.

(** C16: A coalition's selection weight in the consensus client is bounded by its
    stake.  Whatever evidence was recorded, settled and read before, and whatever the
    coalition did to earn its scores: if its validators hold the effective balance
    [B_A] and the others [B_N], its share of the weights that proposer selection
    computes for the epoch is at most [B_A * M / (B_A * M + B_N)], where [M] is the
    largest multiplier, [1 + eta * bonus_cap] (here in integers, scaled by 10^9): the
    bound [a (1 + c) / (1 + a c)] of the protocol, rounding included. *)
Theorem client_coalition_bound (ops : list Op) st (epoch total active : Z) (coalition others : list Z) rt rt' ws :
  selection_typed cfg -> Forall typed_op ops -> state_typed st ->
  total_balance st 0 (coalition ++ others) = Ok total ->
  score_total_for_validators_at_epoch cfg (run cfg reset_topostake_evidence_runtime ops) epoch (coalition ++ others)
    = (rt, active) ->
  all_weights cfg rt st epoch total active (coalition ++ others) = (rt', Ok ws) ->
  let B_A := stake_of st coalition in
  let B_N := stake_of st others in
  zsum (take (length coalition) ws) * (B_A * max_multiplier cfg + B_N * SCALE)
  <= B_A * max_multiplier cfg * zsum ws.
Proof.
  intros Hty Hops Hst Htot Hact Hws. cbv zeta.
  destruct (total_balance_ok st _ Hst 0 total ltac:(lia) Htot) as [Hk Ht].
  set (rt0 := run cfg _ ops) in *.
  pose proof (run_scores_ok cfg ops reset_topostake_evidence_runtime Hops reset_scores_ok) as Hok. fold rt0 in Hok.
  destruct (read_nonneg rt0 epoch (score_activation_delay_epochs cfg) Hok) as [Hs _].
  destruct (score_total_loop_eq cfg epoch (coalition ++ others) rt0 0 Hs ltac:(lia)) as (active' & Ha & E).
  unfold score_total_for_validators_at_epoch in Hact. rewrite E in Hact. injection Hact as <- <-. clear E.
  rewrite all_weights_eq in Hws by done. injection Hws as _ <-.
  set (s := (read cfg epoch _).2). assert (nonneg_map s) as Hs'.
  { unfold s. destruct (decide _); [done|]. by rewrite read_again. }
  rewrite map_app, zsum_app, take_app_length' by (by rewrite length_map).
  destruct (weights_sum_bounds s st total active' coalition) as (Hc0 & Hc1 & Hc2); [done..|].
  destruct (weights_sum_bounds s st total active' others) as (Ho0 & Ho1 & _); [done..|].
  set (WA := zsum (map _ coalition)) in *. set (WN := zsum (map _ others)) in *.
  set (BM := stake_of st coalition * max_multiplier cfg) in *. assert (0 <= SCALE) by done.
  pose proof (Z.mul_nonneg_nonneg _ _ Hc0 H0). pose proof (Z.mul_nonneg_nonneg _ _ Ho0 H0).
  set (BN := stake_of st others * SCALE) in *.
  pose proof (Z.mul_le_mono_nonneg WA BM BN WN ltac:(lia) ltac:(lia) ltac:(lia) ltac:(lia)). lia.
Qed.

End coalition.

(** ** Selection ends *)

Lemma max_or_zero_nonneg l : 0 <= max_or_zero l.
Proof. induction l as [|x l IH]; simpl; lia. Qed.

Lemma max_or_zero_elem l : l <> [] -> Forall (Z.le 0) l -> max_or_zero l ∈ l.
Proof.
  induction l as [|x l IH]; intros Hne Hl; [done|]. apply Forall_cons in Hl as [Hx Hl]. simpl.
  destruct (decide (l = [])) as [->|Hl']; [simpl; rewrite Z.max_l by lia; left|].
  destruct (Z.max_spec x (max_or_zero l)) as [[_ ->]|[_ ->]]; [right; by apply IH|left].
Qed.

Section liveness.
Context `{Env} `{EthHash} (cfg : TopoStakeConfig).
Implicit Types (rt : TopoStakeEvidenceRuntime) (st : StateView) (seed : bytes) (indices : list Z).

Lemma hash_byte preimage k : hash_is_32_bytes -> (k < 32)%nat -> exists b, eth_hash preimage !! k = Some b.
Proof. intros Hh Hk. apply lookup_lt_is_Some_2. by rewrite Hh. Qed.

Lemma random_value_ok st i seed : hash_is_32_bytes ->
  exists r, shuffling_random_value st i seed = Ok r /\ 0 <= r <= max_random_value st.
Proof.
  intros Hh. unfold shuffling_random_value, max_random_value, shuffling_random_u16_electra, shuffling_random_byte.
  pose proof (Nat.mod_upper_bound i 16). pose proof (Nat.mod_upper_bound i 32). destruct (sv_electra_enabled st).
  - set (p := seed ++ _). destruct (hash_byte p (i mod 16 * 2) Hh ltac:(lia)) as [a ->].
    destruct (hash_byte p (S (i mod 16 * 2)) Hh ltac:(lia)) as [b ->]. eexists; split; [done|].
    pose proof (Z_of_byte_bounds a). pose proof (Z_of_byte_bounds b). unfold MAX_RANDOM_VALUE. lia.
  - set (p := seed ++ _). destruct (hash_byte p (i mod 32) Hh ltac:(lia)) as [a ->]. eexists; split; [done|].
    pose proof (Z_of_byte_bounds a). unfold MAX_RANDOM_BYTE. lia.
Qed.

(** In the first pass every validator is a candidate once. *)
Lemma candidate_ok st indices seed i :
  (i < length indices)%nat -> Z.of_nat (length indices) <= 2 ^ 24 ->
  exists v, candidate st indices seed i = Ok v /\ v ∈ indices.
Proof.
  intros Hi Hmax. unfold candidate, compute_shuffled_index. rewrite Nat.mod_small by done.
  rewrite decide_False by lia.
  pose proof (shuffle_rounds_lt seed (length indices) (sv_shuffle_round_count st) 0 i Hi) as Hlt.
  destruct (lookup_lt_is_Some_2 _ _ Hlt) as [v E]. rewrite E. exists v. split; [done|]. by eapply list_elem_of_lookup_2.
Qed.

Lemma candidate_onto st indices seed v :
  v ∈ indices -> Z.of_nat (length indices) <= 2 ^ 24 ->
  exists i, (i < length indices)%nat /\ candidate st indices seed i = Ok v.
Proof.
  intros [k Hk]%list_elem_of_lookup Hmax. pose proof (lookup_lt_Some _ _ _ Hk) as Hlt.
  set (f := shuffle_rounds seed (length indices) (sv_shuffle_round_count st) 0).
  assert (map f (seq 0 (length indices)) ≡ₚ seq 0 (length indices)) as Hp.
  { apply inj_seq_perm; [intros; by apply shuffle_rounds_lt|]. intros i j. apply shuffle_rounds_inj. }
  assert (k ∈ map f (seq 0 (length indices))) as (i & -> & Hi%elem_of_seq)%list_elem_of_fmap
    by (rewrite Hp; apply elem_of_seq; lia).
  exists i. split; [lia|]. unfold candidate, compute_shuffled_index. rewrite Nat.mod_small by lia.
  rewrite decide_False by lia. fold (f i). by rewrite Hk.
Qed.

(** The loop ends at the latest at a candidate of the maximal weight. *)
Lemma topostake_loop_found rt st epoch indices seed total active best i0 v0 :
  hash_is_32_bytes -> Z.of_nat (length indices) <= 2 ^ 24 -> Forall (known st) indices ->
  (read cfg epoch rt).1 = rt -> (i0 < length indices)%nat -> candidate st indices seed i0 = Ok v0 ->
  weight_of cfg (read cfg epoch rt).2 total active v0 (balance_of st v0) = best -> 0 <= best ->
  forall tries i, (i <= i0 < i + tries)%nat ->
  exists v, topostake_loop tries cfg rt st epoch indices seed total active best i = Some (rt, Ok v) /\ v ∈ indices.
Proof.
  intros Hh Hmax Hk Hrt Hi0 Hc0 Hw Hbest. induction tries as [|tries IH]; intros i Hi; [lia|]. cbn [topostake_loop].
  destruct (candidate_ok st indices seed i ltac:(lia) Hmax) as (v & Hc & Hv). rewrite Hc.
  destruct (random_value_ok st i seed Hh) as (r & -> & Hr). rewrite Forall_forall in Hk. rewrite (Hk v Hv). simpl.
  rewrite weight_eq, Hrt. destruct (Z.leb_spec (u128_sat_mul best r)
    (u128_sat_mul (weight_of cfg (read cfg epoch rt).2 total active v (balance_of st v)) (max_random_value st)))
    as [_|Hlt]; [by exists v|]. apply IH.
  destruct (decide (i = i0)) as [->|]; [|lia]. exfalso. rewrite Hc in Hc0. injection Hc0 as ->. rewrite Hw in Hlt.
  unfold u128_sat_mul in Hlt. pose proof (Z.mul_le_mono_nonneg_l r (max_random_value st) best Hbest ltac:(lia)). lia.
Qed.

(** C15: Proposer selection of the consensus client always finds a proposer.  For
    every seed, and whatever evidence was recorded, settled and read before, if the
    validators are known, at most 2^24, and their balances add up without overflow,
    the candidate loop of the TopoStake selection, which has no bound in the code,
    ends within one pass over the validators and returns one of them. *)
Theorem topostake_proposer_found (ops : list Op) st (epoch : Z) indices seed (total : Z) :
  hash_is_32_bytes -> selection_typed cfg -> Forall typed_op ops -> state_typed st ->
  indices <> [] -> Z.of_nat (length indices) <= 2 ^ 24 -> total_balance st 0 indices = Ok total ->
  exists rt' v,
    compute_topostake_proposer_index (length indices) cfg (run cfg reset_topostake_evidence_runtime ops) st epoch
      indices seed = Some (rt', Ok v)
    /\ v ∈ indices.
Proof.
  intros Hh Hty Hops Hst Hne Hmax Htot.
  pose proof (run_scores_ok cfg ops reset_topostake_evidence_runtime Hops reset_scores_ok) as Hok.
  set (rt0 := run cfg _ ops) in *. destruct (read_nonneg rt0 epoch (score_activation_delay_epochs cfg) Hok) as [Hs _].
  destruct (total_balance_ok st _ Hst 0 total ltac:(lia) Htot) as [Hk Ht].
  destruct (score_total_loop_eq cfg epoch indices rt0 0 Hs ltac:(lia)) as (active & Ha & E).
  unfold compute_topostake_proposer_index, score_total_for_validators_at_epoch.
  rewrite decide_False by done. rewrite Htot, E, all_weights_eq by done. rewrite !decide_False by done.
  rewrite !read_again. fold (read cfg epoch rt0) in Hs. set (s := (read cfg epoch rt0).2) in *.
  set (w := fun v => weight_of cfg s total active v (balance_of st v)). set (best := max_or_zero _).
  assert (best ∈ map w indices) as (v0 & Hv0 & Hin)%list_elem_of_fmap.
  { apply max_or_zero_elem; [by destruct indices|]. apply Forall_map, Forall_forall. intros v _.
    pose proof (balance_typed st v Hst) as Hb. pose proof (client_weight_bounds cfg s total active v _ Hty Hs Hb Ht Ha) as Hw.
    assert (0 <= SCALE) by done. pose proof (Z.mul_nonneg_nonneg _ _ (proj1 Hb) H1). unfold w. lia. }
  destruct (candidate_onto st indices seed v0 Hin Hmax) as (i0 & Hi0 & Hc0).
  destruct (topostake_loop_found (read cfg epoch rt0).1 st epoch indices seed total active best i0 v0 Hh Hmax Hk)
    with (tries := length indices) (i := 0%nat) as (v & Hv & Hin'); [by rewrite read_again|done|done| | |lia|].
  - rewrite read_again. by rewrite Hv0.
  - apply max_or_zero_nonneg.
  - by exists (read cfg epoch rt0).1, v.
Qed.

End liveness.
