(* ===== verification/BlockEvidence.v ===== *)
(** * Block evidence in the consensus client

    The TopoStake part of block processing
    (src/ethereum-topostake/lighthouse/consensus/state_processing/src/per_block_processing.rs):
    the registry of relay keys, the statements that relays sign, the verification of
    the path records a block carries, their recording in the evidence runtime, and
    the settlement steps that follow each block.

    [EthHash] is the SHA-256 of ethereum_hashing, [Blst] the BLS library blst,
    [RegistrySource] the file system and serde_json, from which the registry is
    loaded once.  Metrics are left out; JSON bodies are left as their fields, and
    whether a submission succeeded is an argument. *)

From Stdlib Require Import Ascii.
From stdpp Require Import pretty.
From S2P Require Export Shuffle SettlementFacts.
Local Open Scope rust_scope.
Local Open Scope Z_scope.

(** blst's [min_sig] scheme. *)
Class Blst := {
  blst_pk : Type;
  blst_sig : Type;
  pk_from_bytes : bytes -> option blst_pk;
  sig_from_bytes : bytes -> option blst_sig;
  blst_aggregate_verify : blst_sig -> list bytes -> bytes -> list blst_pk -> bool
}.

(** ** Hexadecimal text *)

Definition hex_char (nibble : Z) : ascii :=
  if nibble <=? 9 then char_of (48 + nibble) else if nibble <=? 14 then char_of (87 + nibble) else "f"%char.

Fixpoint hex_digits (b : bytes) : string :=
  match b with
  | [] => ""
  | x :: b => String (hex_char (Z.shiftr (Z_of_byte x) 4)) (String (hex_char (Z.land (Z_of_byte x) 15)) (hex_digits b))
  end.
Definition hex_bytes (b : bytes) : string := "0x" +:+ hex_digits b.
Definition hash256_hex (root : bytes) : string := hex_bytes root.

(** [u8::from_str_radix] on each pair of digits. *)
Fixpoint parse_hex_pairs (s : string) : option bytes :=
  match s with
  | EmptyString => Some []
  | String a (String b s) =>
      match hex_value a, hex_value b, parse_hex_pairs s with
      | Some x, Some y, Some l => Some (byte_of_Z (x * 16 + y) :: l)
      | _, _, _ => None
      end
  | String _ EmptyString => None
  end.

Definition hex_bytes_exact (n : nat) (input : string) : option bytes :=
  let hex := default (trim input) (str_strip_prefix "0x" (trim input)) in
  if negb (Nat.eqb (String.length hex) (n * 2)) || negb (all_hex_digits hex) then None
  else parse_hex_pairs hex.

(** ** Relay addresses *)

Definition normalize_topostake_relay_address (address : string) : option string :=
  let trimmed := trim address in
  if decide (trimmed = "") then None else
  let hex := default trimmed (str_strip_prefix "0x" trimmed) in
  if Nat.eqb (String.length hex) 40 && all_hex_digits hex
  then Some ("0x" +:+ to_ascii_lowercase hex)
  else Some (to_ascii_lowercase trimmed).

Definition fallback_topostake_relay_address (validator_index : Z) : string :=
  "0x" +:+ hex_bytes (replicate 12 Byte.x00 ++ to_be_bytes 8 (u64_sat_add validator_index 1)).

Definition derive_topostake_cl_service_name (el_service_name : string) : option string :=
  match str_strip_prefix "el-" (trim el_service_name) with
  | None => None
  | Some rest =>
      match str_strip_suffix "-geth-lighthouse" rest with
      | None => None
      | Some node => Some ("cl-" +:+ node +:+ "-lighthouse-geth")
      end
  end.

(** ** The registry of relays *)

Record TopoStakeRelayPublicRegistryEntry := mkRegistryEntry {
  re_validator_index : Z;
  re_relay_address : option string;
  re_payout_address : option string;
  re_service_name : option string;
  re_cl_service_name : option string;
  re_relay_pubkey : string
}.

Record TopoStakeRelayPublicRegistry := mkRegistry {
  pubkeys_by_address : gmap string bytes;
  validator_addresses : gmap Z string;
  payout_addresses : gmap Z string;
  address_validators : gmap string Z;
  el_rpc_urls : gmap Z string;
  cl_http_urls : gmap Z string
}.

Definition empty_registry : TopoStakeRelayPublicRegistry := mkRegistry ∅ ∅ ∅ ∅ ∅ ∅.

Class RegistrySource := {
  read_to_string : string -> option string;
  registry_from_str : string -> option (list TopoStakeRelayPublicRegistryEntry)
}.

Section registry.
Implicit Types (reg : TopoStakeRelayPublicRegistry) (relay : TopoStakeRelayPublicRegistryEntry).

Definition insert_option {K} `{Countable K} {V} (k : K) (v : option V) (m : gmap K V) : gmap K V :=
  match v with Some v => <[k := v]> m | None => m end.

Definition non_blank (s : string) : option string := if decide (trim s = "") then None else Some (trim s).

(** One relay of the file; an entry with a malformed key is skipped. *)
Definition add_relay reg relay : TopoStakeRelayPublicRegistry :=
  match hex_bytes_exact 96 (re_relay_pubkey relay) with
  | None => reg
  | Some pubkey =>
      let i := re_validator_index relay in
      let given := match re_relay_address relay with Some a => Some a | None => re_payout_address relay end in
      let address := default (fallback_topostake_relay_address i)
                       (normalize_topostake_relay_address (default "" given)) in
      let cl_service_name :=
        match re_cl_service_name relay ≫= non_blank with
        | Some name => Some name
        | None => re_service_name relay ≫= derive_topostake_cl_service_name
        end in
      mkRegistry
        (<[address := pubkey]> (pubkeys_by_address reg))
        (<[i := address]> (validator_addresses reg))
        (insert_option i (re_payout_address relay ≫= normalize_topostake_relay_address) (payout_addresses reg))
        (<[address := i]> (address_validators reg))
        (insert_option i ((fun name => "http://" +:+ name +:+ ":8545") <$> (re_service_name relay ≫= non_blank))
           (el_rpc_urls reg))
        (insert_option i ((fun name => "http://" +:+ name +:+ ":4000") <$> cl_service_name) (cl_http_urls reg))
  end.

Definition load_topostake_relay_public_registry `{Env} `{RegistrySource} : TopoStakeRelayPublicRegistry :=
  let raw :=
    match env_var "TOPOSTAKE_RELAY_PUBLIC_REGISTRY_JSON" ≫= (fun v => if decide (trim v = "") then None else Some v) with
    | Some value => Some value
    | None => env_var "TOPOSTAKE_RELAY_PUBLIC_REGISTRY" ≫= read_to_string
    end in
  match raw ≫= registry_from_str with
  | None => empty_registry
  | Some relays => fold_left add_relay relays empty_registry
  end.

Definition pubkey reg (address : string) : option bytes :=
  normalize_topostake_relay_address address ≫= fun a => pubkeys_by_address reg !! a.

Definition validator_index reg (address : string) : option Z :=
  normalize_topostake_relay_address address ≫= fun a => address_validators reg !! a.

Definition address_for_validator reg (validator_index : Z) (address : option string) : string :=
  match normalize_topostake_relay_address (default "" address) with
  | Some a => a
  | None => default (fallback_topostake_relay_address validator_index) (validator_addresses reg !! validator_index)
  end.

Definition payout_address_for_validator reg (validator_index : Z) : string :=
  match payout_addresses reg !! validator_index with
  | Some a => a
  | None => default (fallback_topostake_relay_address validator_index) (validator_addresses reg !! validator_index)
  end.

Definition el_rpc_url reg (validator_index : Z) : option string := el_rpc_urls reg !! validator_index.
Definition cl_http_url reg (validator_index : Z) : option string := cl_http_urls reg !! validator_index.

End registry.

(** ** Statements *)

Definition TOPOSTAKE_TX_PATH_DOMAIN : bytes := as_bytes "TOPOSTAKE_TX_PATH_V1".

Section statements.
Context `{EthHash}.

Definition sha256_array (input : bytes) : bytes := eth_hash input.

(** The bytes that stand for an identity. *)
Definition identity_bytes (identity : string) : bytes :=
  as_bytes (default (to_ascii_lowercase (trim identity)) (normalize_topostake_relay_address identity)).
Definition hash_identity (identity : string) : bytes := sha256_array (identity_bytes identity).

Definition origin_statement (chain_id epoch : Z) (tx_hash : bytes) (address : string) : bytes :=
  sha256_array (TOPOSTAKE_TX_PATH_DOMAIN ++ to_be_bytes 8 chain_id ++ to_be_bytes 8 epoch ++ tx_hash
                ++ hash_identity address).

Definition chain_prefix (tx_hash : bytes) (chain_id epoch : Z) : bytes :=
  TOPOSTAKE_TX_PATH_DOMAIN ++ to_be_bytes 8 chain_id ++ tx_hash ++ to_be_bytes 8 epoch.

Definition chain_value (tx_hash : bytes) (chain_id epoch : Z) (nodes : list string) (node_idx : nat) : bytes :=
  let input := chain_prefix tx_hash chain_id epoch in
  match nodes with
  | [] => sha256_array input
  | origin :: _ =>
      let chain := sha256_array (input ++ hash_identity origin) in
      let capped := Nat.min node_idx (length nodes - 1) in
      fold_left (fun chain node => sha256_array (chain ++ hash_identity node)) (drop 1 (take (S capped) nodes)) chain
  end.

Definition edge_statement (prefix : bytes) (from to : string) : bytes :=
  sha256_array (TOPOSTAKE_TX_PATH_DOMAIN ++ prefix ++ hash_identity from ++ hash_identity to).

End statements.

(** ** Records of a block *)

(** [TopoStakeInlineEvidenceRecord]. *)
Record InlineEvidenceRecord := mkInlineRecord {
  ir_tx_hash : bytes;
  ir_epoch : Z;
  ir_priority_fee_wei : Z;
  ir_irrecoverable_cost_wei : Z;
  ir_relay_path : list Z;
  ir_aggregate_signature : bytes
}.

(** [TopoStakeSignatureRecord]; its signature field is always zero here. *)
Record TopoStakeSignatureRecord := mkSignatureRecord {
  sr_signer : string;
  sr_statement : bytes
}.

Definition topostake_path_evidence_from_inline_record (r : InlineEvidenceRecord) : option TopoStakePathEvidence :=
  if decide (ir_relay_path r = []) then None
  else Some (mkEvidence (hash256_hex (ir_tx_hash r)) (ir_relay_path r) (ir_priority_fee_wei r)
               (ir_irrecoverable_cost_wei r)).

Definition topostake_inline_record_requires_signature (r : InlineEvidenceRecord) : bool :=
  negb (bool_decide (ir_relay_path r = [])).

Definition topostake_inline_aggregate_signature (r : InlineEvidenceRecord) : option bytes :=
  if Nat.eqb (length (ir_aggregate_signature r)) 48 then Some (ir_aggregate_signature r) else None.

Section verification.
Context `{EthHash} `{Blst}.
Implicit Types (reg : TopoStakeRelayPublicRegistry) (r : InlineEvidenceRecord).

Definition relay_addresses reg (path : list Z) : list string :=
  map (fun i => address_for_validator reg i None) path.

(** The two signatures of the edge from position [i]. *)
Definition edge_records (tx_hash : bytes) (chain_id epoch : Z) (addresses : list string) (i : nat)
    : list TopoStakeSignatureRecord :=
  let prefix := chain_value tx_hash chain_id epoch addresses i in
  let from := nth i addresses "" in
  let to := nth (S i) addresses "" in
  let statement := edge_statement prefix from to in
  [mkSignatureRecord from statement; mkSignatureRecord to statement].

Definition topostake_inline_signature_records r reg (chain_id : Z) : option (list TopoStakeSignatureRecord) :=
  match relay_addresses reg (ir_relay_path r) with
  | [] => None
  | (origin :: _) as addresses =>
      if existsb (fun a => bool_decide (pubkey reg a = None)) addresses then None else
      let first := mkSignatureRecord origin (origin_statement chain_id (ir_epoch r) (ir_tx_hash r) origin) in
      Some (first :: concat (map (edge_records (ir_tx_hash r) chain_id (ir_epoch r) addresses)
                               (seq 0 (length addresses - 1))))
  end.

Fixpoint signer_keys reg (records : list TopoStakeSignatureRecord) : option (list blst_pk) :=
  match records with
  | [] => Some []
  | record :: records =>
      match pubkey reg (sr_signer record) ≫= pk_from_bytes with
      | None => None
      | Some pk => cons pk <$> signer_keys reg records
      end
  end.

Definition verify_topostake_aggregate_signature_bytes reg (signature : bytes)
    (records : list TopoStakeSignatureRecord) : bool :=
  match sig_from_bytes signature with
  | None => false
  | Some signature =>
      match signer_keys reg records with
      | None => false
      | Some pubkeys =>
          blst_aggregate_verify signature (map sr_statement records) TOPOSTAKE_TX_PATH_DOMAIN pubkeys
      end
  end.

(** The loop over the records: the one signature they share and all statements. *)
Fixpoint collect_statements reg (chain_id : Z) (records : list InlineEvidenceRecord)
    (aggregate_signature : option bytes) (signature_records : list TopoStakeSignatureRecord)
    : option (option bytes * list TopoStakeSignatureRecord) :=
  match records with
  | [] => Some (aggregate_signature, signature_records)
  | r :: records =>
      if negb (topostake_inline_record_requires_signature r)
      then collect_statements reg chain_id records aggregate_signature signature_records else
      match topostake_inline_aggregate_signature r with
      | None => None
      | Some record_signature =>
          if (match aggregate_signature with
              | Some expected => bool_decide (record_signature <> expected)
              | None => false
              end)
          then None else
          match topostake_inline_signature_records r reg chain_id with
          | None => None
          | Some per_tx =>
              collect_statements reg chain_id records
                (Some (default record_signature aggregate_signature)) (signature_records ++ per_tx)
          end
      end
  end.

Definition evidence_work_units (records : list InlineEvidenceRecord) : Z :=
  fold_left (fun work r => u64_sat_add work (Z.of_nat (length (ir_relay_path r)))) records 0.

Definition verify_topostake_inline_block_aggregate cfg (chain_id : Z) reg (records : list InlineEvidenceRecord) : bool :=
  if decide (records = []) then true else
  if evidence_work_limit cfg <? evidence_work_units records then false else
  match collect_statements reg chain_id records None [] with
  | None => false
  | Some (None, _) => true
  | Some (Some signature, signature_records) =>
      verify_topostake_aggregate_signature_bytes reg signature signature_records
  end.

(** ** Recording *)

Context `{Env}.

Definition record_topostake_tx_gossip_metadata_for_block cfg (chain_id slots_per_epoch : Z) reg
    (rt : TopoStakeEvidenceRuntime) (slot proposer_index : Z) (records : list InlineEvidenceRecord)
    : TopoStakeEvidenceRuntime * list TopoStakeEvidenceRecordOutcome :=
  let epoch := slot / slots_per_epoch in
  let count := Z.of_nat (length records) in
  if negb (is_enabled_at_epoch cfg epoch) then (rt, []) else
  if decide (records = []) then (rt, []) else
  if existsb (fun r => epoch <? ir_epoch r) records
  then record_topostake_invalid_tx_gossip_metadata_evidence cfg rt epoch count else
  if negb (verify_topostake_inline_block_aggregate cfg chain_id reg records)
  then record_topostake_invalid_tx_gossip_metadata_evidence cfg rt epoch count else
  let stale_count := Z.of_nat (length (filter (fun r => ir_epoch r < epoch) records)) in
  let inline_paths := omap topostake_path_evidence_from_inline_record (filter (fun r => ir_epoch r = epoch) records) in
  let '(rt, outcomes) :=
    if stale_count =? 0 then (rt, [])
    else record_topostake_invalid_tx_gossip_metadata_evidence cfg rt epoch stale_count in
  if decide (inline_paths = []) then (rt, outcomes) else
  let '(rt, more) := record_topostake_tx_gossip_metadata_evidence cfg rt epoch proposer_index inline_paths in
  (rt, outcomes ++ more).

End verification.

(** ** Settlement after a block *)

(** A record of a settlement submission; a burned amount has no address. *)
Record SettlementRecord := mkSettlementRecord {
  st_id : string;
  st_epoch : Z;
  st_role : string;
  st_validator_index : Z;
  st_payout_address : option string;
  st_amount_wei : Z
}.

Section settlement_submission.
Implicit Types (reg : TopoStakeRelayPublicRegistry) (summary : TopoStakeFeeSettlementEpochSummary).

Definition validator_record reg (epoch : Z) (role : string) (settlement : Z * Z) : SettlementRecord :=
  let payout_address := payout_address_for_validator reg settlement.1 in
  mkSettlementRecord
    (pretty epoch +:+ ":" +:+ role +:+ ":" +:+ pretty settlement.1 +:+ ":" +:+ payout_address +:+ ":"
     +:+ pretty settlement.2)
    epoch role settlement.1 (Some payout_address) settlement.2.

(** The records of [submit_topostake_settlement_summary]; without any it succeeds at once. *)
Definition settlement_records reg summary : list SettlementRecord :=
  let epoch := fs_epoch summary in
  map (validator_record reg epoch "proposer") (fs_proposer_settlements summary)
  ++ map (validator_record reg epoch "relay") (fs_relay_settlements summary)
  ++ if 0 <? fs_burned_amount_wei summary
     then [mkSettlementRecord (pretty epoch +:+ ":burned:0::" +:+ pretty (fs_burned_amount_wei summary)) epoch "burned" 0
             None (fs_burned_amount_wei summary)]
     else [].

(** Whether [submit_topostake_finalized_settlements] submits a summary. *)
Definition submittable (finalized_epoch : Z) (submitted : gset Z) summary : bool :=
  negb ((finalized_epoch <? fs_epoch summary) || (fs_settled_records summary =? 0)
        || negb (fs_pending_records summary =? 0) || fs_conservation_violation summary)
  && negb (bool_decide (fs_epoch summary ∈ submitted)).

(** [sent url records] tells whether the submission to [url] succeeded. *)
Fixpoint submit_summaries reg (rpc_urls : list string) (sent : string -> list SettlementRecord -> bool)
    (finalized_epoch : Z) (submitted : gset Z) (summaries : list TopoStakeFeeSettlementEpochSummary)
    : gset Z * list (string * list SettlementRecord) :=
  match summaries with
  | [] => (submitted, [])
  | summary :: summaries =>
      if negb (submittable finalized_epoch submitted summary)
      then submit_summaries reg rpc_urls sent finalized_epoch submitted summaries else
      let records := settlement_records reg summary in
      let ok url := bool_decide (records = []) || sent url records in
      let requests := if decide (records = []) then [] else map (fun url => (url, records)) rpc_urls in
      let submitted := if forallb ok rpc_urls then {[fs_epoch summary]} ∪ submitted else submitted in
      let '(submitted, more) := submit_summaries reg rpc_urls sent finalized_epoch submitted summaries in
      (submitted, requests ++ more)
  end.

Definition submit_topostake_finalized_settlements reg (rpc_urls : list string)
    (sent : string -> list SettlementRecord -> bool) (rt : TopoStakeEvidenceRuntime) (finalized_epoch : Z)
    (submitted : gset Z) : gset Z * list (string * list SettlementRecord) :=
  if decide (rpc_urls = []) then (submitted, [])
  else submit_summaries reg rpc_urls sent finalized_epoch submitted (topostake_fee_settlement_epoch_summaries rt).

Definition update_topostake_settled_score_metrics `{Env} cfg (rt : TopoStakeEvidenceRuntime) (finalized_epoch : Z)
    (effective_balances : list Z) (total_active_balance : option Z) : TopoStakeEvidenceRuntime :=
  (topostake_settle_scores_through_epoch cfg rt finalized_epoch
     (imap (fun i b => (Z.of_nat i, b)) effective_balances)
     (default (u64_sum effective_balances) total_active_balance)).1.

End settlement_submission.

(** ** A block *)

(** What processing a block reads of the block and the state. *)
Record BlockInput := mkBlockInput {
  bi_slot : Z;
  bi_proposer_index : Z;
  bi_records : list InlineEvidenceRecord;
  bi_finalized_epoch : Z;
  bi_effective_balances : list Z;
  bi_total_active_balance : option Z;
  bi_rpc_urls : list string;
  bi_sent : string -> list SettlementRecord -> bool
}.

(** The two process-wide states: the evidence runtime and the submitted epochs. *)
Definition ClientState : Type := TopoStakeEvidenceRuntime * gset Z.

Section block.
Context `{EthHash} `{Blst} `{Env}.

(** The TopoStake calls of [per_block_processing], in order. *)
Definition process_block_evidence cfg (chain_id slots_per_epoch : Z) (reg : TopoStakeRelayPublicRegistry)
    (s : ClientState) (b : BlockInput) : ClientState * list (string * list SettlementRecord) :=
  let '(rt, _) := record_topostake_tx_gossip_metadata_for_block cfg chain_id slots_per_epoch reg s.1
                    (bi_slot b) (bi_proposer_index b) (bi_records b) in
  let rt := topostake_settle_credits_through_epoch rt (bi_finalized_epoch b) in
  let '(submitted, requests) := submit_topostake_finalized_settlements reg (bi_rpc_urls b) (bi_sent b) rt
                                  (bi_finalized_epoch b) s.2 in
  let rt := update_topostake_settled_score_metrics cfg rt (bi_finalized_epoch b) (bi_effective_balances b)
              (bi_total_active_balance b) in
  ((rt, submitted), requests).

End block.
