(* ===== verification/BlockEvidenceFacts.v ===== *)
(** * Properties of block evidence

    Hexadecimal text round-trips; the evidence of a block is recorded only when every
    relay of every path signed it, and a signed statement binds the transaction and
    the path before it.  The address made up for a validator without a registered one
    carries its prefix twice. *)

From Stdlib Require Import Ascii String.
From stdpp Require Import sorting pretty.
From S2P Require Export HashChain BlockEvidence.
Local Open Scope rust_scope.
Local Open Scope Z_scope.

(** ** Hexadecimal text *)

Notation chars s := (list_ascii_of_string s).

Lemma chars_inj s t : chars s = chars t -> s = t.
Proof. intros E. by rewrite <- (string_of_list_ascii_of_string s), E, string_of_list_ascii_of_string. Qed.

Lemma chars_rev_app s : forall t, chars (String.rev_app s t) = rev (chars s) ++ chars t.
Proof.
  induction s as [|c s IH]; intros t; simpl; [done|]. rewrite IH. simpl. by rewrite <- app_assoc.
Qed.

Lemma chars_rev s : chars (String.rev s) = rev (chars s).
Proof. unfold String.rev. rewrite chars_rev_app. simpl. by rewrite app_nil_r. Qed.

Definition no_space (s : string) : Prop := Forall (fun c => is_space c = false) (chars s).

Lemma trim_start_no_space s : no_space s -> trim_start s = s.
Proof. destruct s as [|c s]; [done|]. intros [Hc _]%Forall_cons. simpl. by rewrite Hc. Qed.

Lemma trim_no_space s : no_space s -> trim s = s.
Proof.
  intros Hs. unfold trim. rewrite (trim_start_no_space s Hs), trim_start_no_space.
  - apply chars_inj. by rewrite !chars_rev, rev_involutive.
  - unfold no_space. rewrite chars_rev. by apply Forall_rev.
Qed.

(** A nibble, its digit and back. *)
Lemma hex_char_ok n : 0 <= n < 16 -> hex_value (hex_char n) = Some n /\ is_space (hex_char n) = false.
Proof.
  intros Hn.
  assert (forallb (fun k => bool_decide (hex_value (hex_char k) = Some k) && negb (is_space (hex_char k)))
    (map Z.of_nat (seq 0 16)) = true) as Hall by (vm_compute; reflexivity).
  rewrite forallb_forall in Hall. specialize (Hall n).
  assert (In n (map Z.of_nat (seq 0 16))) as Hin.
  { apply in_map_iff. exists (Z.to_nat n). rewrite in_seq. lia. }
  apply Hall in Hin as [Hv Hs]%andb_true_iff. split; [by apply bool_decide_eq_true in Hv|by apply negb_true_iff in Hs].
Qed.

Lemma nibbles b :
  0 <= Z.shiftr (Z_of_byte b) 4 < 16 /\ 0 <= Z.land (Z_of_byte b) 15 < 16
  /\ Z.shiftr (Z_of_byte b) 4 * 16 + Z.land (Z_of_byte b) 15 = Z_of_byte b.
Proof.
  pose proof (Z_of_byte_bounds b). change 15 with (Z.ones 4). rewrite Z.land_ones, Z.shiftr_div_pow2 by lia.
  change (2 ^ 4) with 16. pose proof (Z.div_mod (Z_of_byte b) 16). pose proof (Z.mod_pos_bound (Z_of_byte b) 16). lia.
Qed.

Lemma hex_digits_ok b :
  parse_hex_pairs (hex_digits b) = Some b /\ all_hex_digits (hex_digits b) = true
  /\ String.length (hex_digits b) = (length b * 2)%nat /\ no_space (hex_digits b).
Proof.
  induction b as [|x b (IHp & IHh & IHl & IHs)]; [split_and!; done || constructor|].
  destruct (nibbles x) as (Hh & Hl & Hx).
  destruct (hex_char_ok _ Hh) as [Vh Sh], (hex_char_ok _ Hl) as [Vl Sl]. cbn [hex_digits]. split_and!.
  - simpl. rewrite Vh, Vl, IHp, Hx, byte_of_Z_of_byte. done.
  - simpl. rewrite IHh, !bool_decide_true by (rewrite ?Vh, ?Vl; eauto). done.
  - simpl. rewrite IHl. lia.
  - by repeat constructor.
Qed.

(** Hashes, keys and signatures survive their textual form: parsing the
    hexadecimal text of any byte string gives the same bytes back. *)
Theorem hex_round_trip (b : bytes) : hex_bytes_exact (length b) (hex_bytes b) = Some b.
Proof.
  destruct (hex_digits_ok b) as (Hp & Hh & Hl & Hs). unfold hex_bytes_exact.
  rewrite trim_no_space by (repeat constructor; exact Hs).
  replace (str_strip_prefix "0x" (hex_bytes b)) with (Some (hex_digits b)) by (by destruct b). simpl.
  by rewrite Hl, Nat.eqb_refl, Hh.
Qed.

Lemma hex_char_lower n : 0 <= n < 16 -> (65 <=? code (hex_char n)) && (code (hex_char n) <=? 90) = false.
Proof.
  intros Hn. assert (forallb (fun k => negb ((65 <=? code (hex_char k)) && (code (hex_char k) <=? 90)))
    (map Z.of_nat (seq 0 16)) = true) as Hall by (vm_compute; reflexivity).
  rewrite forallb_forall in Hall. apply negb_true_iff, Hall, in_map_iff.
  exists (Z.to_nat n). rewrite in_seq. lia.
Qed.

Lemma hex_digits_lower b : to_ascii_lowercase (hex_digits b) = hex_digits b.
Proof.
  induction b as [|x b IH]; [done|]. destruct (nibbles x) as (Hh & Hl & _). simpl.
  by rewrite !hex_char_lower, IH.
Qed.

(** [format!] writes "0x" in front of [hex_bytes], which has written it already: the
    address made up for a validator without a registered one has 44 characters, is
    not a hexadecimal address, and is hashed as it is, while the 20-byte address
    itself, which the execution client makes up, normalises to "0x" and 40 digits. *)
Lemma fallback_address_doubles_prefix (i : Z) :
  let address := hex_bytes (replicate 12 Byte.x00 ++ to_be_bytes 8 (u64_sat_add i 1)) in
  fallback_topostake_relay_address i = "0x" +:+ address
  /\ String.length (fallback_topostake_relay_address i) = 44%nat
  /\ normalize_topostake_relay_address address = Some address
  /\ normalize_topostake_relay_address (fallback_topostake_relay_address i) = Some ("0x" +:+ address)
  /\ "0x" +:+ address <> address.
Proof.
  intros address. unfold fallback_topostake_relay_address. fold address.
  destruct (hex_digits_ok (replicate 12 Byte.x00 ++ to_be_bytes 8 (u64_sat_add i 1))) as (_ & Hh & Hl & Hs).
  pose proof (hex_digits_lower (replicate 12 Byte.x00 ++ to_be_bytes 8 (u64_sat_add i 1))) as Hlow.
  rewrite length_app, length_replicate, length_to_be_bytes in Hl. unfold address, hex_bytes.
  generalize dependent (hex_digits (replicate 12 Byte.x00 ++ to_be_bytes 8 (u64_sat_add i 1))).
  intros d Hh Hl Hs Hlow. unfold normalize_topostake_relay_address.
  rewrite !trim_no_space by (repeat constructor; exact Hs). rewrite !decide_False by done.
  split_and!; [done| | | |].
  - change (4 + String.length d = 44)%nat. by rewrite Hl.
  - replace (str_strip_prefix "0x" ("0x" +:+ d)) with (Some d) by (by destruct d). simpl.
    by rewrite Hl, Hh, Hlow.
  - replace (str_strip_prefix "0x" ("0x" +:+ "0x" +:+ d)) with (Some ("0x" +:+ d)) by done.
    cbn [default from_option id]. change (String.length ("0x" +:+ d)) with (2 + String.length d)%nat.
    rewrite Hl. change (Some ("0x" +:+ "0x" +:+ to_ascii_lowercase d) = Some ("0x" +:+ "0x" +:+ d)). by rewrite Hlow.
  - intros E%(f_equal String.length). change (4 + String.length d = 2 + String.length d)%nat in E. lia.
Qed.

(** ** Verified records are signed *)

Section signatures.
Context `{EthHash} `{Blst}.
Implicit Types (reg : TopoStakeRelayPublicRegistry) (r : InlineEvidenceRecord).

(** [signed pk m]: the holder of [pk] signed [m]. *)
Context (signed : blst_pk -> bytes -> Prop).

(** Unforgeability of aggregates: an aggregate verifies only for messages that the
    keys' holders signed. *)
Definition aggregate_sound : Prop := forall sig msgs pks,
  blst_aggregate_verify sig msgs TOPOSTAKE_TX_PATH_DOMAIN pks = true -> Forall2 signed pks msgs.

(** The relay registered under [address] signed [m]. *)
Definition signed_by reg (address : string) (m : bytes) : Prop :=
  exists pk, pubkey reg address ≫= pk_from_bytes = Some pk /\ signed pk m.

Definition record_signed reg (sr : TopoStakeSignatureRecord) : Prop := signed_by reg (sr_signer sr) (sr_statement sr).

Lemma aggregate_signed reg signature records :
  aggregate_sound -> verify_topostake_aggregate_signature_bytes reg signature records = true ->
  Forall (record_signed reg) records.
Proof.
  intros Hs. unfold verify_topostake_aggregate_signature_bytes.
  destruct (sig_from_bytes signature) as [sig|]; [|done].
  destruct (signer_keys reg records) as [pks|] eqn:Ek; [|done]. intros Hv%Hs. revert pks Ek Hv.
  induction records as [|sr records IH]; intros pks Ek Hv; [constructor|]. simpl in Ek.
  destruct (pubkey reg (sr_signer sr) ≫= pk_from_bytes) as [pk|] eqn:E; [|done].
  destruct (signer_keys reg records) as [pks'|]; [|done]. injection Ek as <-.
  apply Forall2_cons in Hv as [Hpk Hv]. constructor; [by exists pk|]. by eapply IH.
Qed.

Lemma collect_spec reg cid records : forall agg acc agg' out,
  collect_statements reg cid records agg acc = Some (agg', out) ->
  (forall sr, sr ∈ acc -> sr ∈ out)
  /\ (agg' = None -> agg = None)
  /\ (forall r, r ∈ records -> ir_relay_path r <> [] ->
        agg' <> None /\ exists per, topostake_inline_signature_records r reg cid = Some per /\ forall sr, sr ∈ per -> sr ∈ out).
Proof.
  induction records as [|r records IH]; intros agg acc agg' out; simpl.
  { intros [= <- <-]. split_and!; [done|done|]. by intros r ?%not_elem_of_nil. }
  unfold topostake_inline_record_requires_signature. case_bool_decide as Hp; simpl.
  { intros Hc. destruct (IH _ _ _ _ Hc) as (Ha & Hn & Hr). split_and!; [done|done|].
    intros r' [->|Hin]%elem_of_cons Hne; [done|by apply Hr]. }
  destruct (topostake_inline_aggregate_signature r) as [sig|]; [|done].
  destruct (match agg with Some expected => _ | None => false end); [done|].
  destruct (topostake_inline_signature_records r reg cid) as [per|] eqn:E; [|done].
  intros Hc. destruct (IH _ _ _ _ Hc) as (Ha & Hn & Hr). split_and!.
  - intros sr Hin. apply Ha, elem_of_app. by left.
  - intros Hnone. specialize (Hn Hnone). done.
  - intros r' [->|Hin]%elem_of_cons Hne; [|by apply Hr]. split; [intros Hnone; by specialize (Hn Hnone)|].
    exists per. split; [done|]. intros sr Hin. apply Ha, elem_of_app. by right.
Qed.

Lemma verified_records_signed cfg cid reg records r :
  aggregate_sound -> verify_topostake_inline_block_aggregate cfg cid reg records = true ->
  r ∈ records -> ir_relay_path r <> [] ->
  exists per, topostake_inline_signature_records r reg cid = Some per /\ Forall (record_signed reg) per.
Proof.
  intros Hs. unfold verify_topostake_inline_block_aggregate.
  case_decide as Hd; [subst; by intros _ ?%not_elem_of_nil|]. destruct (_ <? _); [done|].
  destruct (collect_statements reg cid records None []) as [[agg out]|] eqn:E; [|done].
  destruct (collect_spec _ _ _ _ _ _ _ E) as (_ & _ & Hr). intros Hv Hin Hne.
  destruct (Hr r Hin Hne) as (Hagg & per & Hper & Hsub). destruct agg as [sig|]; [|done].
  pose proof (aggregate_signed _ _ _ Hs Hv) as Hall. exists per. split; [done|].
  rewrite Forall_forall in Hall |- *. auto.
Qed.

(** Everything on the path of [r] is signed by the relays it names: the origin by
    the first relay, each edge by both ends. *)
Definition path_signed reg (cid : Z) r : Prop :=
  let a := relay_addresses reg (ir_relay_path r) in
  signed_by reg (nth 0 a "") (origin_statement cid (ir_epoch r) (ir_tx_hash r) (nth 0 a ""))
  /\ forall i, (S i < length a)%nat ->
       let statement := edge_statement (chain_value (ir_tx_hash r) cid (ir_epoch r) a i) (nth i a "") (nth (S i) a "") in
       signed_by reg (nth i a "") statement /\ signed_by reg (nth (S i) a "") statement.

Lemma signature_records_path reg cid r per :
  topostake_inline_signature_records r reg cid = Some per -> Forall (record_signed reg) per -> path_signed reg cid r.
Proof.
  unfold topostake_inline_signature_records, path_signed. cbv zeta.
  destruct (relay_addresses reg (ir_relay_path r)) as [|o a] eqn:Ea; [done|].
  destruct (existsb _ _); [done|]. intros [= <-]. intros [Ho He]%Forall_cons. split; [exact Ho|].
  intros i Hi. rewrite Forall_forall in He.
  assert (forall sr, sr ∈ edge_records (ir_tx_hash r) cid (ir_epoch r) (o :: a) i -> record_signed reg sr) as Hrec.
  { intros sr Hsr. apply He. apply list_elem_of_In, in_concat. exists (edge_records (ir_tx_hash r) cid (ir_epoch r) (o :: a) i).
    split; [|by apply list_elem_of_In]. apply in_map, list_elem_of_In, elem_of_seq. simpl in *. lia. }
  unfold edge_records in Hrec. cbv zeta in Hrec. split.
  - exact (Hrec _ (list_elem_of_here _ _)).
  - exact (Hrec _ (list_elem_of_further _ _ _ (list_elem_of_here _ _))).
Qed.

End signatures.

(** ** Recording a block *)

Lemma first_repeated_none path : forall seen, first_repeated seen path = None ->
  NoDup path /\ forall v, v ∈ path -> v ∉ seen.
Proof.
  induction path as [|v path IH]; intros seen; simpl; [by intros _; split; [constructor|intros v ?%not_elem_of_nil]|].
  case_decide as Hv; [done|]. intros [Hnd Hs]%IH. split.
  - constructor; [|done]. intros Hin. apply (Hs v Hin). set_solver.
  - intros w [->|Hw]%elem_of_cons; [done|]. specialize (Hs w Hw). set_solver.
Qed.

Section recording.
Context `{EthHash} `{Blst} `{Env} (cfg : TopoStakeConfig).
Implicit Types (rt : TopoStakeEvidenceRuntime) (reg : TopoStakeRelayPublicRegistry) (r : InlineEvidenceRecord).

Lemma valid_path_ok path : validate_topostake_validator_path cfg path = Ok () -> NoDup path.
Proof.
  unfold validate_topostake_validator_path. case_decide; [done|]. destruct (_ <? _); [done|].
  destruct (first_repeated ∅ path) eqn:E; [done|]. intros _. by apply (first_repeated_none path ∅).
Qed.

Lemma record_all_new epoch proposer h paths : forall rt,
  h ∈ accepted_tx_hashes (record_all cfg rt epoch proposer paths).1 ->
  h ∈ accepted_tx_hashes rt
  \/ exists p, p ∈ paths /\ ev_tx_hash p = h /\ validate_topostake_validator_path cfg (ev_path p) = Ok ().
Proof.
  induction paths as [|p paths IH]; intros rt; [by left|]. cbn [record_all].
  assert (h ∈ accepted_tx_hashes (record_evidence cfg rt epoch proposer p).1 ->
    h ∈ accepted_tx_hashes rt \/ (ev_tx_hash p = h /\ validate_topostake_validator_path cfg (ev_path p) = Ok ())) as H2.
  { unfold record_evidence. destruct (validate_topostake_validator_path cfg (ev_path p)) as [[]|]; [|by left].
    case_decide; [by left|]. destruct (record_topostake_path _ _ _ _ _ _ _ _ _) as [er o]. simpl.
    destruct (is_valid_outcome o); simpl; [|by left]. set_solver. }
  destruct (record_evidence cfg rt epoch proposer p) as [rt1 o]. specialize (IH rt1).
  destruct (record_all cfg rt1 epoch proposer paths) as [rt2 os]. simpl in *. intros Hh.
  destruct (IH Hh) as [Hin|(p' & Hp' & E)]; [|right; exists p'; split; [by right|done]].
  destruct (H2 Hin) as [|E]; [by left|]. right. exists p. split; [by left|done].
Qed.

Lemma record_invalid_accepted rt epoch count :
  accepted_tx_hashes (record_topostake_invalid_tx_gossip_metadata_evidence cfg rt epoch count).1 = accepted_tx_hashes rt.
Proof.
  unfold record_topostake_invalid_tx_gossip_metadata_evidence.
  destruct (negb _); [done|]. destruct (count =? 0); [done|]. by destruct (count_invalids _ _ _).
Qed.

Lemma inline_paths_elem (epoch : Z) (records : list InlineEvidenceRecord) p :
  p ∈ omap topostake_path_evidence_from_inline_record (filter (fun r => ir_epoch r = epoch) records) ->
  exists r, r ∈ records /\ ir_epoch r = epoch /\ ir_relay_path r <> []
    /\ ev_tx_hash p = hash256_hex (ir_tx_hash r) /\ ev_path p = ir_relay_path r
    /\ ev_fee_budget_wei p = ir_priority_fee_wei r.
Proof.
  intros (r & [He Hr]%list_elem_of_filter & E)%list_elem_of_omap. exists r.
  unfold topostake_path_evidence_from_inline_record in E. case_decide; [done|]. by injection E as <-.
Qed.

(** C13: The consensus client credits only paths whose relays signed them.  If
    processing the evidence of a block makes the client accept a transaction, then
    the block carries a record of it, of the block's own epoch, with distinct
    validators on its path, the first of which signed the transaction, and both ends
    of every edge of which signed the edge together with everything before it.
    Aggregate signatures are assumed unforgeable. *)
Theorem credited_paths_signed (signed : blst_pk -> bytes -> Prop) (chain_id slots_per_epoch : Z) reg rt
    (slot proposer_index : Z) (records : list InlineEvidenceRecord) (h : string) :
  aggregate_sound signed ->
  h ∈ accepted_tx_hashes (record_topostake_tx_gossip_metadata_for_block cfg chain_id slots_per_epoch reg rt slot
                            proposer_index records).1 ->
  h ∉ accepted_tx_hashes rt ->
  exists r, r ∈ records /\ h = hash256_hex (ir_tx_hash r) /\ ir_epoch r = slot / slots_per_epoch
    /\ NoDup (ir_relay_path r) /\ path_signed signed reg chain_id r.
Proof.
  intros Hs Hin Hnew. unfold record_topostake_tx_gossip_metadata_for_block in Hin. cbv zeta in Hin.
  set (epoch := slot / slots_per_epoch) in *. destruct (negb (is_enabled_at_epoch cfg epoch)); [done|].
  case_decide; [done|]. destruct (existsb _ _); [by rewrite record_invalid_accepted in Hin|].
  destruct (verify_topostake_inline_block_aggregate cfg chain_id reg records) eqn:Ev; simpl in Hin;
    [|by rewrite record_invalid_accepted in Hin].
  set (paths := omap _ _) in Hin. set (base := if _ =? 0 then _ else _) in Hin.
  assert (accepted_tx_hashes base.1 = accepted_tx_hashes rt) as Eb.
  { unfold base. destruct (_ =? 0); [done|]. apply record_invalid_accepted. }
  destruct base as [rt1 os]. simpl in Eb. case_decide as Hp; [simpl in Hin; by rewrite Eb in Hin|].
  assert (h ∈ accepted_tx_hashes rt1 \/ exists p, p ∈ paths /\ ev_tx_hash p = h
    /\ validate_topostake_validator_path cfg (ev_path p) = Ok ()) as [|(p & Hpp & <- & Hval)].
  { revert Hin. unfold record_topostake_tx_gossip_metadata_evidence. destruct (negb _); [by left|].
    rewrite decide_False by done. pose proof (record_all_new epoch proposer_index h
      (take (Z.to_nat (max_paths_per_block cfg)) paths) rt1) as Hr.
    destruct (record_all _ _ _ _ _) as [rt2 more]. simpl in *. intros Hin.
    destruct (Hr Hin) as [|(p & Hpp & E)]; [by left|]. right. exists p. split; [|done].
    apply elem_of_take in Hpp as (k & Hk & _). by eapply list_elem_of_lookup_2. }
  { congruence. }
  destruct (inline_paths_elem epoch records p Hpp) as (r & Hr & He & Hne & Eh & Epath & _).
  exists r. split_and!; [done|done|done|rewrite <- Epath; by apply valid_path_ok|].
  destruct (verified_records_signed signed cfg chain_id reg records r Hs Ev Hr Hne) as (per & Eper & Hper).
  by eapply signature_records_path.
Qed.

End recording.

(** ** Statements bind the path *)

Section binding.
Context `{EthHash}.

Lemma chain_value_eq tx cid ep nodes i : (i < length nodes)%nat ->
  chain_value tx cid ep nodes i = hash_chain eth_hash (chain_prefix tx cid ep) (map identity_bytes (take (S i) nodes)).
Proof.
  intros Hi. destruct nodes as [|o rest]; [simpl in Hi; lia|]. unfold chain_value. cbv zeta.
  rewrite Nat.min_l by (simpl in *; lia). cbn [take map hash_chain drop]. by rewrite fold_left_map.
Qed.

(** The statement of the edge from position [i], and every string hashed to compute it. *)
Definition edge_at (tx : bytes) (cid ep : Z) (nodes : list string) (i : nat) : bytes :=
  edge_statement (chain_value tx cid ep nodes i) (nth i nodes "") (nth (S i) nodes "").
Definition edge_inputs (tx : bytes) (cid ep : Z) (nodes : list string) (i : nat) : list bytes :=
  (TOPOSTAKE_TX_PATH_DOMAIN ++ chain_value tx cid ep nodes i ++ hash_identity (nth i nodes "")
     ++ hash_identity (nth (S i) nodes ""))
  :: hash_chain_inputs eth_hash (chain_prefix tx cid ep) (map identity_bytes (take (i + 2) nodes)).

Lemma take_edge (nodes : list string) i : (S i < length nodes)%nat ->
  take (i + 2) nodes = take (S i) nodes ++ [nth (S i) nodes ""] /\ take (S i) nodes <> [].
Proof.
  intros Hi. split; [|by destruct nodes; simpl in *; [lia|]].
  destruct (lookup_lt_is_Some_2 nodes (S i) Hi) as [x Hx]. rewrite (nth_lookup_Some _ _ _ _ Hx).
  replace (i + 2)%nat with (S (S i)) by lia. by apply take_S_r.
Qed.

Lemma chain_prefix_inj tx1 c1 e1 tx2 c2 e2 :
  is_u64 c1 -> is_u64 c2 -> is_u64 e1 -> is_u64 e2 -> chain_prefix tx1 c1 e1 = chain_prefix tx2 c2 e2 ->
  tx1 = tx2 /\ c1 = c2 /\ e1 = e2.
Proof.
  intros Hc1 Hc2 He1 He2 Ep. unfold chain_prefix in Ep. apply app_inv_head in Ep.
  apply app_inj_1 in Ep as [Ec Ep]; [|by rewrite !length_to_be_bytes].
  apply app_inj_2 in Ep as [Et Ee]; [|by rewrite !length_to_be_bytes]. split_and!; auto using to_be_bytes8_inj.
Qed.

(** A statement that relays sign in the consensus client binds the whole
    path before it: as long as no two of the strings hashed on the way collide, two
    edges with the same statement, of whatever transactions, chains, epochs and paths,
    have the same transaction hash, chain id and epoch, and the same relays, up to the
    normalisation of addresses, from the origin to the receiver of the edge. *)
Theorem client_statement_binds (tx1 tx2 : bytes) (c1 c2 e1 e2 : Z) (n1 n2 : list string) (i1 i2 : nat) :
  hash_is_32_bytes -> is_u64 c1 -> is_u64 c2 -> is_u64 e1 -> is_u64 e2 ->
  (S i1 < length n1)%nat -> (S i2 < length n2)%nat ->
  no_collision eth_hash (edge_inputs tx1 c1 e1 n1 i1 ++ edge_inputs tx2 c2 e2 n2 i2) ->
  edge_at tx1 c1 e1 n1 i1 = edge_at tx2 c2 e2 n2 i2 ->
  tx1 = tx2 /\ c1 = c2 /\ e1 = e2 /\ map identity_bytes (take (i1 + 2) n1) = map identity_bytes (take (i2 + 2) n2).
Proof.
  intros Hlen Hc1 Hc2 He1 He2 Hi1 Hi2 Hcf E. unfold edge_at, edge_statement in E.
  apply Hcf in E; [|apply elem_of_app; left; left|apply elem_of_app; right; left].
  apply app_inv_head in E. apply app_inj_1 in E as [Ech E];
    [|rewrite !chain_value_eq by lia; by rewrite !hash_chain_length].
  apply app_inj_2 in E as [_ Eto]; [|unfold hash_identity, sha256_array; by rewrite !Hlen].
  destruct (take_edge n1 i1 Hi1) as [T1 N1], (take_edge n2 i2 Hi2) as [T2 N2].
  rewrite T1, T2, !map_app. simpl.
  assert (forall tx c e, length (chain_prefix tx c e) <> 32%nat) as Hp.
  { intros tx c e. unfold chain_prefix. rewrite !length_app, !length_to_be_bytes.
    change (length TOPOSTAKE_TX_PATH_DOMAIN) with 20%nat. lia. }
  rewrite !chain_value_eq in Ech by lia.
  apply (hash_chain_inj eth_hash Hlen) in Ech as [Ep El]; [|done|done|by destruct n1|by destruct n2|].
  - destruct (chain_prefix_inj _ _ _ _ _ _ Hc1 Hc2 He1 He2 Ep) as (-> & -> & ->). split_and!; [done..|]. rewrite El. f_equal. f_equal.
    apply Hcf; [..|exact Eto]; apply elem_of_app; [left|right]; right; apply elem_of_app; left;
      rewrite ?T1, ?T2, map_app; apply elem_of_app; right; left.
  - eapply no_collision_sub; [|exact Hcf]. unfold edge_inputs. rewrite T1, T2, !map_app.
    intros a [Ha|Ha]%elem_of_app; apply elem_of_app; [left|right]; right;
      (apply hash_chain_inputs_snoc; [by destruct n1, n2|by left]).
Qed.

End binding.
