(* ===== verification/ClientFacts.v ===== *)
(** * Sequences of blocks in the consensus client

    Processing a block is a sequence of operations on the evidence runtime, so what
    holds of every run of operations holds of every sequence of blocks.  New
    evidence of a verified block is credited with the fees it claims; what is
    submitted to the execution client adds up to the fees recorded, and an epoch is
    sent until every endpoint has accepted it and then no more. *)

From stdpp Require Import sorting pretty.
From S2P Require Export BlockEvidenceFacts.
Local Open Scope rust_scope.
Local Open Scope Z_scope.

Section client.
Context `{EthHash} `{Blst} `{Env} (cfg : TopoStakeConfig) (chain_id slots_per_epoch : Z)
  (reg : TopoStakeRelayPublicRegistry).
Implicit Types (rt : TopoStakeEvidenceRuntime) (r : InlineEvidenceRecord) (b : BlockInput) (s : ClientState).

(** ** Amounts are not signed *)

Definition set_amounts (fee cost : Z) r : InlineEvidenceRecord :=
  mkInlineRecord (ir_tx_hash r) (ir_epoch r) fee cost (ir_relay_path r) (ir_aggregate_signature r).

Lemma collect_ignores_amounts (f g : InlineEvidenceRecord -> Z) records : forall agg acc,
  collect_statements reg chain_id (map (fun r => set_amounts (f r) (g r) r) records) agg acc
  = collect_statements reg chain_id records agg acc.
Proof.
  induction records as [|r records IH]; intros agg acc; [done|]. cbn [map collect_statements].
  change (topostake_inline_record_requires_signature (set_amounts (f r) (g r) r))
    with (topostake_inline_record_requires_signature r).
  change (topostake_inline_aggregate_signature (set_amounts (f r) (g r) r))
    with (topostake_inline_aggregate_signature r).
  change (topostake_inline_signature_records (set_amounts (f r) (g r) r) reg chain_id)
    with (topostake_inline_signature_records r reg chain_id).
  destruct (negb _); [apply IH|]. destruct (topostake_inline_aggregate_signature r); [|done].
  destruct (match agg with Some expected => _ | None => false end); [done|].
  destruct (topostake_inline_signature_records r reg chain_id); [|done]. apply IH.
Qed.

Lemma verify_ignores_amounts (f g : InlineEvidenceRecord -> Z) records :
  verify_topostake_inline_block_aggregate cfg chain_id reg (map (fun r => set_amounts (f r) (g r) r) records)
  = verify_topostake_inline_block_aggregate cfg chain_id reg records.
Proof.
  unfold verify_topostake_inline_block_aggregate, evidence_work_units. rewrite fold_left_map, collect_ignores_amounts.
  by destruct records.
Qed.

Lemma epoch_runtime_insert eps e er a sc ac hs : epoch_runtime (mkRuntime (<[e := er]> eps) a sc ac hs) e = er.
Proof. unfold epoch_runtime. apply get_or_insert_eq. Qed.

(** ** New evidence is credited *)

(** The evidence of a record that has a path. *)
Definition evidence_of_record r : TopoStakePathEvidence :=
  mkEvidence (hash256_hex (ir_tx_hash r)) (ir_relay_path r) (ir_priority_fee_wei r) (ir_irrecoverable_cost_wei r).

(** Valid paths of distinct transactions that the runtime has not accepted. *)
Definition new_evidence rt (epoch : Z) (paths : list TopoStakePathEvidence) : Prop :=
  Forall (fun p => validate_topostake_validator_path cfg (ev_path p) = Ok ()) paths
  /\ NoDup (map ev_tx_hash paths)
  /\ Forall (fun p => (ev_tx_hash p ∉ accepted_tx_hashes rt)
                      /\ (ev_tx_hash p ∉ epoch_accepted_tx_hashes (epoch_runtime rt epoch))) paths.

(** From [rt] to [rt'] exactly [hashes] are accepted; the fees of the epoch grow by
    [fees] and the credit of the proposer by its part of each, in order and up to
    [u64::MAX]. *)
Definition credited rt rt' (epoch proposer_index : Z) (hashes : list string) (fees : list Z) : Prop :=
  accepted_tx_hashes rt' = list_to_set hashes ∪ accepted_tx_hashes rt
  /\ total_credit_budget_scaled (epoch_runtime rt' epoch)
     = fold_left u64_sat_add fees (total_credit_budget_scaled (epoch_runtime rt epoch))
  /\ get_or 0 (proposer_credits (epoch_runtime rt' epoch)) proposer_index
     = fold_left u64_sat_add (map (fun fee => scaled_mul_div fee (proposer_fee_ratio_scaled cfg) SCALE) fees)
         (get_or 0 (proposer_credits (epoch_runtime rt epoch)) proposer_index).

(** A record without a fee opens no credit. *)
Definition charged (fees : list Z) : list Z := filter (fun fee => fee <> 0) fees.

Lemma record_evidence_new rt epoch proposer_index p paths : new_evidence rt epoch (p :: paths) ->
  let rt' := (record_evidence cfg rt epoch proposer_index p).1 in
  credited rt rt' epoch proposer_index [ev_tx_hash p] (charged [ev_fee_budget_wei p]) /\ new_evidence rt' epoch paths.
Proof.
  intros (Hv & Hnd & Hn). cbn [map] in Hnd. apply Forall_cons in Hv as [Hp Hv], Hn as [[Ha He] Hn].
  apply NoDup_cons in Hnd as [Hfresh Hnd]. cbv zeta. unfold record_evidence. rewrite Hp, decide_False by done.
  unfold record_topostake_path.
  destruct (last (ev_path p)) as [receiver|] eqn:El;
    [|apply last_None in El; by rewrite El in Hp].
  cbn [default from_option]. rewrite decide_False by done.
  destruct (fold_left add_contribution _ _) as [raw updates]. cbn [is_valid_outcome fst].
  unfold set_epoch. cbn [accepted_tx_hashes epochs latest_settled_epoch latest_scores activated_scores_by_proposer_epoch].
  unfold credited, new_evidence, charged. rewrite !epoch_runtime_insert. unfold record_topostake_credit.
  cbn [accepted_tx_hashes list_to_set]. split.
  - split; [set_solver|]. rewrite filter_cons, filter_nil.
    destruct (Z.eqb_spec (ev_fee_budget_wei p) 0) as [E|E].
    + rewrite decide_False by (intros Hx; by apply Hx). done.
    + rewrite decide_True by done. split; [done|]. cbn [set_credits proposer_credits]. unfold add_credit.
      by rewrite entry_update_eq.
  - split_and!; [done|done|]. rewrite Forall_forall in Hn |- *. intros q Hq. destruct (Hn q Hq) as [Hqa Hqe].
    assert (ev_tx_hash q <> ev_tx_hash p) as Hne.
    { intros E. apply Hfresh. rewrite <- E. apply list_elem_of_fmap. by exists q. }
    split; [set_solver|]. destruct (_ =? 0); cbn; set_solver.
Qed.

Lemma charged_cons fee fees : charged (fee :: fees) = charged [fee] ++ charged fees.
Proof. unfold charged. by rewrite <- filter_app. Qed.

Lemma record_all_credited epoch proposer_index paths : forall rt, new_evidence rt epoch paths ->
  credited rt (record_all cfg rt epoch proposer_index paths).1 epoch proposer_index
    (map ev_tx_hash paths) (charged (map ev_fee_budget_wei paths)).
Proof.
  induction paths as [|p paths IH]; intros rt Hn; [split; [set_solver|done]|].
  destruct (record_evidence_new rt epoch proposer_index p paths Hn) as [(A1 & T1 & P1) Hn1]. cbn [record_all].
  destruct (record_evidence cfg rt epoch proposer_index p) as [rt1 o]. cbn [fst] in *.
  specialize (IH rt1 Hn1). destruct (record_all cfg rt1 epoch proposer_index paths) as [rt2 os]. cbn [fst] in *.
  destruct IH as (A2 & T2 & P2). cbn [map]. rewrite charged_cons. unfold credited.
  rewrite map_app, !fold_left_app, <- T1, <- P1. split_and!; [|done|done]. rewrite A2, A1. set_solver.
Qed.

(** A verified block of records of its own epoch, within the limit, is credited. *)
Lemma block_credited rt (slot proposer_index : Z) records :
  let epoch := slot / slots_per_epoch in
  is_enabled_at_epoch cfg epoch = true -> Z.of_nat (length records) <= max_paths_per_block cfg ->
  Forall (fun r => ir_epoch r = epoch) records ->
  new_evidence rt epoch (map evidence_of_record records) ->
  verify_topostake_inline_block_aggregate cfg chain_id reg records = true ->
  credited rt
    (record_topostake_tx_gossip_metadata_for_block cfg chain_id slots_per_epoch reg rt slot proposer_index records).1
    epoch proposer_index (map (fun r => hash256_hex (ir_tx_hash r)) records) (charged (map ir_priority_fee_wei records)).
Proof.
  intros epoch Hen Hmax Hep Hn Hv. unfold record_topostake_tx_gossip_metadata_for_block. cbv zeta. fold epoch.
  rewrite Hen, Hv. cbn [negb]. destruct (decide (records = [])) as [->|Hne]; [split; [set_solver|done]|].
  assert (existsb (fun r => epoch <? ir_epoch r) records = false) as ->.
  { clear - Hep. induction Hep as [|r l Hr _ IH]; [done|]. simpl. by rewrite Hr, Z.ltb_irrefl. }
  assert (filter (fun r => ir_epoch r < epoch) records = []) as ->.
  { clear - Hep. induction Hep as [|r l Hr _ IH]; [done|]. rewrite filter_cons, decide_False by lia. done. }
  rewrite (list_filter_all (fun r => ir_epoch r = epoch)) by done. change (Z.of_nat (length []) =? 0) with true. cbv iota beta.
  assert (omap topostake_path_evidence_from_inline_record records = map evidence_of_record records) as ->.
  { destruct Hn as [Hval _]. clear - Hval. induction records as [|r l IH]; [done|]. cbn [map] in Hval.
    apply Forall_cons in Hval as [Hr Hval]. cbn [omap list_omap map]. specialize (IH Hval).
    unfold topostake_path_evidence_from_inline_record at 1.
    rewrite decide_False by (intros E; simpl in Hr; by rewrite E in Hr). by f_equal. }
  rewrite decide_False by (by destruct records). unfold record_topostake_tx_gossip_metadata_evidence. rewrite Hen. cbn [negb].
  rewrite decide_False by (by destruct records). rewrite take_ge by (rewrite length_map; lia).
  pose proof (record_all_credited epoch proposer_index _ rt Hn) as Hc. rewrite !map_map in Hc.
  by destruct (record_all _ _ _ _ _).
Qed.

(** C40: Fees are credited as claimed.  No signature covers the fee and the cost of a
    block's evidence records.  Take the records of a block that verify: of its own
    epoch, no more than a block may carry, with valid paths, of distinct transactions
    that were not accepted before.  Whatever fee [f r] and cost [g r] its proposer
    writes into each record [r] instead, processing the block accepts all of them,
    adds the claimed fees to the fees of the epoch and the proposer's part of each to
    the proposer's credit (a fee of zero opens no credit; sums stop at [u64::MAX]). *)
Theorem claimed_fee_is_credited rt (slot proposer_index : Z) records (f g : InlineEvidenceRecord -> Z) :
  let epoch := slot / slots_per_epoch in
  is_enabled_at_epoch cfg epoch = true -> Z.of_nat (length records) <= max_paths_per_block cfg ->
  Forall (fun r => ir_epoch r = epoch) records ->
  new_evidence rt epoch (map evidence_of_record records) ->
  verify_topostake_inline_block_aggregate cfg chain_id reg records = true ->
  credited rt
    (record_topostake_tx_gossip_metadata_for_block cfg chain_id slots_per_epoch reg rt slot proposer_index
       (map (fun r => set_amounts (f r) (g r) r) records)).1
    epoch proposer_index (map (fun r => hash256_hex (ir_tx_hash r)) records) (charged (map f records)).
Proof.
  intros epoch Hen Hmax Hep (Hval & Hnd & Hn) Hv.
  pose proof (block_credited rt slot proposer_index (map (fun r => set_amounts (f r) (g r) r) records)) as Hb.
  cbv zeta in Hb. fold epoch in Hb. rewrite verify_ignores_amounts, length_map, !map_map in Hb.
  apply Hb; [done|done|by apply Forall_map| |done]. rewrite map_map in Hnd.
  split_and!; [|by rewrite map_map|]; rewrite Forall_map in *; done.
Qed.

(** ** Blocks are runs of operations *)

Definition typed_block b : Prop := Forall (fun r => is_u64 (ir_priority_fee_wei r)) (bi_records b).

Lemma record_block_run rt b : typed_block b ->
  exists ops, Forall typed_op ops
    /\ (record_topostake_tx_gossip_metadata_for_block cfg chain_id slots_per_epoch reg rt (bi_slot b)
          (bi_proposer_index b) (bi_records b)).1 = run cfg rt ops.
Proof.
  intros Hb. unfold record_topostake_tx_gossip_metadata_for_block. cbv zeta.
  set (epoch := bi_slot b / slots_per_epoch).
  assert (forall count, exists ops, Forall typed_op ops
    /\ (record_topostake_invalid_tx_gossip_metadata_evidence cfg rt epoch count).1 = run cfg rt ops) as Hinv.
  { intros count. exists [RecordInvalid epoch count]. split; [|done]. by repeat constructor. }
  destruct (negb _); [by exists []|]. case_decide; [by exists []|].
  destruct (existsb _ _); [apply Hinv|]. destruct (negb _); [apply Hinv|].
  set (paths := omap _ _).
  assert (typed_op (RecordPaths epoch (bi_proposer_index b) paths)) as Hp.
  { apply Forall_forall. intros p (r & Hr & _ & _ & _ & _ & Ef)%inline_paths_elem. rewrite Ef.
    unfold typed_block in Hb. rewrite Forall_forall in Hb. by apply Hb. }
  set (base := if _ =? 0 then _ else _).
  assert (exists ops, Forall typed_op ops /\ base.1 = run cfg rt ops) as (ops & Hops & Eb).
  { unfold base. destruct (_ =? 0); [by exists []|apply Hinv]. }
  destruct base as [rt1 os]. simpl in Eb. case_decide; [by exists ops|].
  exists (ops ++ [RecordPaths epoch (bi_proposer_index b) paths]). split; [apply Forall_app; split; [done|]; by repeat constructor|].
  unfold run. rewrite fold_left_app. fold (run cfg rt ops). rewrite <- Eb. simpl.
  by destruct (record_topostake_tx_gossip_metadata_evidence _ _ _ _ _).
Qed.

(** A runtime that blocks can lead to. *)
Definition reached rt : Prop := exists ops, Forall typed_op ops /\ rt = run cfg reset_topostake_evidence_runtime ops.

Lemma reached_step rt ops : reached rt -> Forall typed_op ops -> reached (run cfg rt ops).
Proof.
  intros (ops0 & H2 & ->) Hops. exists (ops0 ++ ops). split; [by apply Forall_app|].
  unfold run. by rewrite fold_left_app.
Qed.

(** The runtime when settlements are submitted. *)
Definition recorded s b : TopoStakeEvidenceRuntime :=
  topostake_settle_credits_through_epoch
    (record_topostake_tx_gossip_metadata_for_block cfg chain_id slots_per_epoch reg s.1 (bi_slot b)
       (bi_proposer_index b) (bi_records b)).1 (bi_finalized_epoch b).

Lemma recorded_reached s b : reached s.1 -> typed_block b -> reached (recorded s b).
Proof.
  intros Hr Hb. unfold recorded. destruct (record_block_run s.1 b Hb) as (ops & Hops & ->).
  apply (reached_step _ [SettleCredits (bi_finalized_epoch b)]); [by apply reached_step|by repeat constructor].
Qed.

Lemma process_block_eq s b :
  process_block_evidence cfg chain_id slots_per_epoch reg s b
  = let sub := submit_topostake_finalized_settlements reg (bi_rpc_urls b) (bi_sent b) (recorded s b)
                 (bi_finalized_epoch b) s.2 in
    ((update_topostake_settled_score_metrics cfg (recorded s b) (bi_finalized_epoch b) (bi_effective_balances b)
        (bi_total_active_balance b), sub.1), sub.2).
Proof.
  unfold process_block_evidence, recorded.
  destruct (record_topostake_tx_gossip_metadata_for_block _ _ _ _ _ _ _ _) as [rt os]. simpl.
  by destruct (submit_topostake_finalized_settlements _ _ _ _ _ _).
Qed.

Lemma process_block_reached s b :
  reached s.1 -> typed_block b -> reached (process_block_evidence cfg chain_id slots_per_epoch reg s b).1.1.
Proof.
  intros Hr Hb. rewrite process_block_eq. cbn [fst].
  apply (reached_step _ [SettleScores (bi_finalized_epoch b) _ _]); [by apply recorded_reached|by repeat constructor].
Qed.

(** The state after a sequence of blocks. *)
Definition process_blocks (bs : list BlockInput) : ClientState :=
  fold_left (fun s b => (process_block_evidence cfg chain_id slots_per_epoch reg s b).1) bs
    (reset_topostake_evidence_runtime, ∅).

Lemma process_blocks_reached bs : Forall typed_block bs -> reached (process_blocks bs).1.
Proof.
  intros Hbs. unfold process_blocks.
  assert (reached (reset_topostake_evidence_runtime, (∅ : gset Z)).1) as Hr by (by exists []).
  revert Hr. generalize (reset_topostake_evidence_runtime, (∅ : gset Z)) as s.
  induction Hbs as [|b bs Hb _ IH]; intros s Hr; [done|]. simpl. apply IH. by apply process_block_reached.
Qed.

(** ** Submissions *)

(** What one request tells of the settlement it is part of. *)
Record submission (urls : list string) (sent : string -> list SettlementRecord -> bool) (fin : Z)
    (submitted submitted' : gset Z) (requests : list (string * list SettlementRecord)) (url : string) (records : list SettlementRecord) (summary : TopoStakeFeeSettlementEpochSummary) : Prop := {
  sb_records : records = settlement_records reg summary;
  sb_finalized : fs_epoch summary <= fin;
  sb_settled : fs_pending_records summary = 0;
  sb_unmarked : fs_epoch summary ∉ submitted;
  sb_endpoints : url ∈ urls /\ forall u, u ∈ urls -> (u, records) ∈ requests;
  sb_marked : fs_epoch summary ∈ submitted' <-> forall u, u ∈ urls -> sent u records = true
}.

Lemma submittable_true fin submitted summary : submittable fin submitted summary = true ->
  fs_epoch summary <= fin /\ fs_pending_records summary = 0 /\ fs_epoch summary ∉ submitted.
Proof.
  unfold submittable. rewrite andb_true_iff, !negb_true_iff, !orb_false_iff, bool_decide_eq_false.
  intros ((((Hf & _) & Hp) & _) & Hn). apply Z.ltb_ge in Hf. by apply negb_false_iff, Z.eqb_eq in Hp.
Qed.

Lemma submit_summaries_spec urls sent fin summaries : forall submitted submitted' requests,
  NoDup (map fs_epoch summaries) ->
  submit_summaries reg urls sent fin submitted summaries = (submitted', requests) ->
  submitted ⊆ submitted' /\ (forall e, e ∈ submitted' -> e ∈ submitted \/ e ∈ map fs_epoch summaries)
  /\ forall url records, (url, records) ∈ requests ->
     exists summary, summary ∈ summaries /\ submission urls sent fin submitted submitted' requests url records summary.
Proof.
  induction summaries as [|summary summaries IH]; intros submitted submitted' requests Hnd.
  { intros [= <- <-]. split_and!; [done|by left|]. by intros url records ?%not_elem_of_nil. }
  cbn [map] in Hnd. apply NoDup_cons in Hnd as [Hfresh Hnd]. cbn [submit_summaries].
  destruct (submittable fin submitted summary) eqn:Es; cbn [negb].
  - set (next := if forallb _ _ then _ else submitted).
    destruct (submit_summaries reg urls sent fin next summaries) as [sub' more] eqn:Er. intros [= <- <-].
    destruct (IH _ _ _ Hnd Er) as (Hsub & Hmem & Hreq). apply submittable_true in Es as (Hf & Hp & Hn).
    assert (submitted ⊆ next) as Hnext by (unfold next; destruct (forallb _ _); set_solver).
    assert (forall e, e ∈ next -> e ∈ submitted \/ e = fs_epoch summary) as Hback
      by (unfold next; destruct (forallb _ _); set_solver).
    split_and!; [set_solver| |].
    { intros e [[?| ->]%Hback|?]%Hmem; [by left|right; left|right; by right]. }
    intros url records [Hin|Hin]%elem_of_app.
    + exists summary. split; [left|]. destruct (decide (settlement_records reg summary = [])) as [|Hrec];
        [by apply not_elem_of_nil in Hin|].
      apply list_elem_of_fmap in Hin as (u & [= -> ->] & Hu). split; try done.
      { split; [done|]. intros u' Hu'. apply elem_of_app. left. apply list_elem_of_fmap. by exists u'. }
      assert (forallb (fun u => bool_decide (settlement_records reg summary = []) || sent u (settlement_records reg summary))
        urls = true <-> forall u, u ∈ urls -> sent u (settlement_records reg summary) = true) as Hall.
      { rewrite forallb_forall. rewrite bool_decide_false by done. by setoid_rewrite list_elem_of_In. }
      rewrite <- Hall. unfold next in *. split.
      * intros [Hin|Hin]%Hmem; [|done]. destruct (forallb _ _); [done|]. done.
      * intros E. apply Hsub. rewrite E. set_solver.
    + destruct (Hreq _ _ Hin) as (sm & Hsm & []). exists sm. split; [by right|]. split; try done; [set_solver|].
      split; [naive_solver|]. intros u Hu. apply elem_of_app. right. naive_solver.
  - intros Er. destruct (IH _ _ _ Hnd Er) as (Hsub & Hmem & Hreq). split_and!; [done|set_solver|].
    intros url records Hin. destruct (Hreq _ _ Hin) as (sm & Hsm & Hs). exists sm. split; [by right|done].
Qed.

Lemma sorted_credits_sum m : zsum (sorted_topostake_credits m).*2 = zsum (map_values m).
Proof. apply zsum_perm. unfold map_values. apply fmap_Permutation. apply merge_sort_Permutation. Qed.

Lemma settlement_records_sum er epoch : 0 <= burned_credit_scaled er ->
  zsum (map st_amount_wei (settlement_records reg (fee_settlement_summary er epoch)))
  = zsum (map_values (proposer_credits er)) + zsum (map_values (relay_credits er)) + burned_credit_scaled er
  /\ Forall (fun st => st_epoch st = epoch) (settlement_records reg (fee_settlement_summary er epoch)).
Proof.
  intros Hb. unfold settlement_records. cbn [fee_settlement_summary fs_epoch fs_proposer_settlements fs_relay_settlements
    fs_burned_amount_wei credit_summary cs_proposer_credits cs_relay_credits cs_burned_credit_scaled]. split.
  - assert (forall role l, zsum (map st_amount_wei (map (validator_record reg epoch role) l)) = zsum l.*2) as Hsum
      by (intros role l; by rewrite map_map).
    rewrite !map_app, !zsum_app, !Hsum, !sorted_credits_sum.
    destruct (Z.ltb_spec 0 (burned_credit_scaled er)); simpl; lia.
  - apply Forall_app; split; [|apply Forall_app; split].
    + by apply Forall_map, Forall_forall.
    + by apply Forall_map, Forall_forall.
    + destruct (0 <? burned_credit_scaled er); by repeat constructor.
Qed.

Lemma summaries_nodup rt : NoDup (map fs_epoch (topostake_fee_settlement_epoch_summaries rt)).
Proof.
  unfold topostake_fee_settlement_epoch_summaries. rewrite map_map. cbn [fee_settlement_summary fs_epoch].
  rewrite map_id. unfold sorted_keys. rewrite merge_sort_Permutation. apply NoDup_fst_map_to_list.
Qed.

Lemma pending_none er epoch : fs_pending_records (fee_settlement_summary er epoch) = 0 ->
  Forall (fun c => cr_settled c = true) (credit_records er).
Proof.
  cbn [fee_settlement_summary fs_pending_records credit_summary cs_pending_records]. unfold u64_sat_sub. intros Hp.
  pose proof (length_filter (fun c => cr_settled c = true) (credit_records er)) as Hle.
  assert (length (filter (fun c => cr_settled c = true) (credit_records er)) = length (credit_records er)) as E by lia.
  clear Hp Hle. induction (credit_records er) as [|c l IH]; [constructor|].
  pose proof (length_filter (fun c => cr_settled c = true) l). rewrite filter_cons in E. case_decide; simpl in E; [|lia].
  constructor; [done|]. apply IH. lia.
Qed.

(** C14: What the client submits to the execution client adds up.  Let the fee ratio
    be at most the scale and the fees of the records be 64-bit numbers.  After any
    sequence of blocks, in whatever order their evidence, finalized epochs and failed
    submissions come, a settlement that processing the next block sends to an endpoint
    is of one finalized epoch, with no credit pending, that is not marked as submitted;
    it is sent to every endpoint; its payments to proposers and relays and its burned
    remainder add up to exactly the fees recorded in that epoch, if these stayed
    below [u64::MAX]; and the block marks the epoch as submitted exactly if every
    endpoint accepted it, so that after a failure at one endpoint a later block sends
    it to all of them again, while a marked epoch stays marked and is never sent. *)
Theorem submissions_add_up (bs : list BlockInput) b (url : string) (records : list SettlementRecord) :
  fees_configured cfg -> Forall typed_block (bs ++ [b]) ->
  let s := process_blocks bs in
  let result := process_block_evidence cfg chain_id slots_per_epoch reg s b in
  (url, records) ∈ result.2 ->
  exists epoch er,
    epochs (recorded s b) !! epoch = Some er /\ Forall (fun st => st_epoch st = epoch) records
    /\ epoch <= bi_finalized_epoch b /\ Forall (fun c => cr_settled c = true) (credit_records er)
    /\ (epoch ∉ s.2) /\ s.2 ⊆ result.1.2
    /\ (total_credit_budget_scaled er < U64_MAX ->
        zsum (map st_amount_wei records) = total_credit_budget_scaled er)
    /\ (forall u, u ∈ bi_rpc_urls b -> (u, records) ∈ result.2)
    /\ (epoch ∈ result.1.2 <-> forall u, u ∈ bi_rpc_urls b -> bi_sent b u records = true).
Proof.
  intros Hcfg [Hbs Hb]%Forall_app. cbv zeta. apply Forall_cons in Hb as [Hb _]. rewrite process_block_eq. cbn [fst snd].
  set (s := process_blocks bs). pose proof (process_blocks_reached bs Hbs) as Hr. fold s in Hr.
  destruct (recorded_reached s b Hr Hb) as (ops & Hops & Ert).
  unfold submit_topostake_finalized_settlements. case_decide; [by intros ?%not_elem_of_nil|].
  destruct (submit_summaries _ _ _ _ _ _) as [submitted requests] eqn:Es. cbn [fst snd]. intros Hin.
  destruct (submit_summaries_spec _ _ _ _ _ _ _ (summaries_nodup _) Es) as (Hsub & _ & Hreq).
  destruct (Hreq _ _ Hin) as (summary & Hsm & [-> Hfin Hpend Hnew [_ Hall] Hmark]).
  apply list_elem_of_fmap in Hsm as (epoch & -> & Hk). cbn [fee_settlement_summary fs_epoch] in *.
  unfold sorted_keys in Hk. rewrite merge_sort_Permutation in Hk.
  apply list_elem_of_fmap in Hk as ([epoch' er] & -> & Her%elem_of_map_to_list). cbn [fst] in *.
  assert (epoch_runtime (recorded s b) epoch' = er) as Eer by (unfold epoch_runtime, get_or; by rewrite Her).
  rewrite Eer in *. rewrite Ert in Her.
  destruct (run_balanced cfg ops epoch' er Hcfg Hops Her) as (_ & _ & Hburn & _ & Hsum).
  destruct (settlement_records_sum er epoch' Hburn) as [Esum Hep].
  exists epoch', er. split_and!; [by rewrite Ert|done|done| |done|done| |done|done].
  - by eapply pending_none.
  - intros Hlt. rewrite Esum. by apply Hsum.
Qed.

End client.
