(* ===== verification/BlockProduction.v ===== *)
(** * Block production in the consensus client

    Two places where the beacon node exchanges TopoStake data with its execution
    client:
    - graffiti_calculator.rs
      (src/ethereum-topostake/lighthouse/beacon_node/beacon_chain/src/graffiti_calculator.rs)
      packs the path evidence that comes with an execution payload into the records
      of the block to be proposed;
    - json_structures.rs
      (src/ethereum-topostake/lighthouse/beacon_node/execution_layer/src/engine_api/json_structures.rs)
      converts settlement records to and from the engine API's JSON.

    [EvidenceJson] stands for serde_json and the hash type's parser,
    [AlloyPrimitives] for the 160-bit addresses and 256-bit integers of the crate
    alloy_primitives.  The graffiti text itself is left out. *)

From Stdlib Require Import Ascii.
From S2P Require Export ClientFacts.
Local Open Scope rust_scope.
Local Open Scope Z_scope.

(** The list bounds of an [EthSpec]: [MaxValidatorsPerCommittee] and
    [MaxBlobCommitmentsPerBlock]. *)
Record EthSpecBounds := mkBounds { MaxValidatorsPerCommittee : nat; MaxBlobCommitmentsPerBlock : nat }.
Definition MainnetEthSpec : EthSpecBounds := mkBounds 2048 4096.

(** [VariableList::new] and [FixedVector::new]. *)
Definition variable_list {A} (max : nat) (l : list A) : Result (list A) string :=
  if Nat.leb (length l) max then Ok l else Err "out of bounds".
Definition fixed_vector {A} (len : nat) (l : list A) : Result (list A) string :=
  if Nat.eqb (length l) len then Ok l else Err "out of bounds".

(** ** Evidence of an execution payload *)

Record TopoStakeTxPathEdge := mkTxPathEdge { edge_to : Z }.

Record TopoStakeTxMetadata := mkTxMetadata {
  tm_epoch : Z;
  tm_tx_hash : string;
  tm_origin_relay_validator_index : Z;
  tm_paths : list TopoStakeTxPathEdge
}.

Record TopoStakeTxEvidence := mkTxEvidence {
  te_tx_hash : option string;
  te_priority_fee_wei : option string;
  te_irrecoverable_cost_wei : option string;
  te_metadata : TopoStakeTxMetadata
}.

Record TopoStakeBlockEvidence := mkBlockEvidence {
  be_evidence_root : option string;
  be_aggregate_signature : option string;
  be_transactions : list TopoStakeTxEvidence
}.

Class EvidenceJson := {
  json_value : Type;
  evidence_from_value : json_value -> option TopoStakeBlockEvidence;
  hash256_from_str : string -> option bytes
}.

Definition parse_u64_decimal (input : string) : option Z :=
  (fun value => Z.min value U64_MAX) <$> parse_unsigned U128_MAX (codes (trim input)).

Definition amount_or_zero (text : option string) : Z := default 0 (text ≫= parse_u64_decimal).

Section packing.
Implicit Types (tx : TopoStakeTxEvidence) (ev : TopoStakeBlockEvidence) (spec : EthSpecBounds).

Definition tx_path tx : list Z :=
  tm_origin_relay_validator_index (te_metadata tx) :: map edge_to (tm_paths (te_metadata tx)).

Definition tx_hash_text tx : string := default (tm_tx_hash (te_metadata tx)) (te_tx_hash tx).

Definition inline_record spec (aggregate_signature : bytes) (max_len : nat) tx
    : Result (option InlineEvidenceRecord) string :=
  match hex_bytes_exact 32 (tx_hash_text tx) with
  | None => Err "invalid TopoStake tx hash"
  | Some tx_hash =>
      let path := tx_path tx in
      if bool_decide (path = []) || Nat.ltb max_len (length path) then Ok None else
      let? relay_path := variable_list (MaxValidatorsPerCommittee spec) path in
      Ok (Some (mkInlineRecord tx_hash (tm_epoch (te_metadata tx)) (amount_or_zero (te_priority_fee_wei tx))
                  (amount_or_zero (te_irrecoverable_cost_wei tx)) relay_path aggregate_signature))
  end.

Fixpoint pack_transactions spec (aggregate_signature : bytes) (max_len : nat) (txs : list TopoStakeTxEvidence)
    : Result (list InlineEvidenceRecord) string :=
  match txs with
  | [] => Ok []
  | tx :: txs =>
      let? record := inline_record spec aggregate_signature max_len tx in
      let? records := pack_transactions spec aggregate_signature max_len txs in
      Ok (match record with Some record => record :: records | None => records end)
  end.

Definition inline_records spec cfg ev : Result (list InlineEvidenceRecord) string :=
  let aggregate_signature := default (replicate 48 Byte.x00) (be_aggregate_signature ev ≫= hex_bytes_exact 48) in
  let? aggregate_signature := fixed_vector 48 aggregate_signature in
  let max_paths := Z.to_nat (max_paths_per_block cfg) in
  let max_len := Z.to_nat (max_path_evidence_len cfg) in
  pack_transactions spec aggregate_signature max_len (take max_paths (be_transactions ev)).

Context `{EvidenceJson}.

Definition topostake_tx_evidence_records_from_json spec cfg (evidence : option json_value)
    : list InlineEvidenceRecord :=
  match evidence with
  | None => []
  | Some evidence =>
      match evidence_from_value evidence with
      | None => []
      | Some ev =>
          match inline_records spec cfg ev with
          | Err _ => []
          | Ok records =>
              match variable_list (MaxBlobCommitmentsPerBlock spec) records with Ok l => l | Err _ => [] end
          end
      end
  end.

Definition topostake_tx_evidence_root_from_json (evidence : option json_value) : option bytes :=
  ((evidence ≫= evidence_from_value) ≫= be_evidence_root) ≫= hash256_from_str.

(** The two fields of the block body, as [complete_partial_beacon_block] sets them. *)
Definition packed_evidence spec cfg (evidence : option json_value) : bytes * list InlineEvidenceRecord :=
  (default (replicate 32 Byte.x00) (topostake_tx_evidence_root_from_json evidence),
   topostake_tx_evidence_records_from_json spec cfg evidence).

End packing.

(** ** Packed evidence is verified and credited *)

Section produced.
Context `{EthHash} `{Blst} `{Env} `{EvidenceJson} (cfg : TopoStakeConfig) (spec : EthSpecBounds).
Context (reg : TopoStakeRelayPublicRegistry) (chain_id : Z).
Implicit Types (tx : TopoStakeTxEvidence) (ev : TopoStakeBlockEvidence) (r : InlineEvidenceRecord).

Let max_len : nat := Z.to_nat (max_path_evidence_len cfg).

(** The record of a transaction. *)
Definition packed_record (signature : bytes) tx : InlineEvidenceRecord :=
  mkInlineRecord (default [] (hex_bytes_exact 32 (tx_hash_text tx))) (tm_epoch (te_metadata tx))
    (amount_or_zero (te_priority_fee_wei tx)) (amount_or_zero (te_irrecoverable_cost_wei tx)) (tx_path tx) signature.

(** What the relays of a transaction sign, in the order of the path. *)
Definition statements (signature : bytes) tx : list TopoStakeSignatureRecord :=
  default [] (topostake_inline_signature_records (packed_record signature tx) reg chain_id).

(** A transaction with a well-formed hash whose relays all have keys. *)
Definition signed_tx tx : Prop :=
  is_Some (hex_bytes_exact 32 (tx_hash_text tx))
  /\ Forall (fun v => is_Some (pubkey reg (address_for_validator reg v None))) (tx_path tx).

Definition fits tx : Prop := (length (tx_path tx) <= max_len)%nat.
#[local] Instance fits_dec tx : Decision (fits tx) := decide ((length (tx_path tx) <= max_len)%nat).

Lemma pack_eq signature txs : (max_len <= MaxValidatorsPerCommittee spec)%nat ->
  Forall (fun tx => is_Some (hex_bytes_exact 32 (tx_hash_text tx))) txs ->
  pack_transactions spec signature max_len txs = Ok (map (packed_record signature) (filter fits txs)).
Proof.
  intros Hmax. induction 1 as [|tx txs [h Hh] _ IH]; [done|]. cbn [pack_transactions].
  unfold inline_record. rewrite Hh. rewrite bool_decide_false by done. cbn [orb].
  rewrite filter_cons. unfold fits at 1. destruct (Nat.ltb_spec max_len (length (tx_path tx))) as [Hl|Hl].
  - simpl. rewrite IH. rewrite decide_False by (unfold fits; lia). done.
  - unfold variable_list. destruct (Nat.leb_spec (length (tx_path tx)) (MaxValidatorsPerCommittee spec)); [|lia].
    simpl. rewrite IH. simpl. rewrite decide_True by (unfold fits; lia). simpl. do 2 f_equal.
    unfold packed_record. by rewrite Hh.
Qed.

Lemma signature_records_some tx signature : signed_tx tx ->
  topostake_inline_signature_records (packed_record signature tx) reg chain_id = Some (statements signature tx)
  /\ statements signature tx <> [].
Proof.
  intros [_ Hk]. unfold statements, topostake_inline_signature_records. cbn [ir_relay_path packed_record].
  destruct (relay_addresses reg (tx_path tx)) as [|a addresses] eqn:Ea; [done|].
  destruct (existsb _ (a :: addresses)) eqn:Ex; [|done]. exfalso.
  apply existsb_exists in Ex as (x & Hx & Hb%bool_decide_eq_true). rewrite <- Ea in Hx.
  apply in_map_iff in Hx as (v & <- & Hv%list_elem_of_In). rewrite Forall_forall in Hk.
  destruct (Hk v Hv) as [k Ek]. congruence.
Qed.

(** The statements collected from the records are those of the transactions. *)
Lemma collect_packed signature txs : length signature = 48%nat -> Forall signed_tx txs ->
  forall agg acc, agg = None \/ agg = Some signature ->
  collect_statements reg chain_id (map (packed_record signature) txs) agg acc
  = Some (if decide (txs = []) then agg else Some signature, acc ++ concat (map (statements signature) txs)).
Proof.
  intros Hl. induction 1 as [|tx txs Htx _ IH]; intros agg acc Hagg; simpl; [by rewrite app_nil_r|].
  unfold topostake_inline_aggregate_signature.
  cbn [ir_aggregate_signature packed_record]. rewrite Hl. simpl.
  destruct (signature_records_some tx signature Htx) as [-> _].
  assert ((match agg with Some expected => bool_decide (signature <> expected) | None => false end) = false) as ->.
  { destruct Hagg as [->| ->]; [done|]. apply bool_decide_false. auto. }
  rewrite IH by (right; by destruct Hagg as [->| ->]). rewrite <- app_assoc. f_equal. f_equal.
  destruct (decide (txs = [])); by destruct Hagg as [->| ->].
Qed.

Definition work (txs : list TopoStakeTxEvidence) : Z := zsum (map (fun tx => Z.of_nat (length (tx_path tx))) txs).

Lemma work_units_packed signature txs : work txs <= evidence_work_limit cfg -> evidence_work_limit cfg <= U64_MAX ->
  evidence_work_units (map (packed_record signature) txs) = work txs.
Proof.
  intros Hw Hmax. unfold evidence_work_units.
  assert (forall acc, 0 <= acc -> acc + work txs <= U64_MAX ->
    fold_left (fun w r => u64_sat_add w (Z.of_nat (length (ir_relay_path r)))) (map (packed_record signature) txs) acc
    = acc + work txs) as Hgen.
  { clear Hw Hmax. induction txs as [|tx txs IH]; intros acc Hacc Hle; unfold work, zsum in *; cbn [map foldr fold_left] in *; [lia|].
    assert (0 <= foldr Z.add 0 (map (fun tx => Z.of_nat (length (tx_path tx))) txs)).
    { clear. induction txs as [|tx txs IH]; cbn [map foldr]; lia. }
    cbn [ir_relay_path packed_record].
    unfold u64_sat_add at 2. rewrite Z.min_l by lia. rewrite IH by lia. lia. }
  rewrite Hgen; lia.
Qed.

Lemma verify_packed signature txs : length signature = 48%nat -> txs <> [] -> Forall signed_tx txs ->
  work txs <= evidence_work_limit cfg -> evidence_work_limit cfg <= U64_MAX ->
  verify_topostake_inline_block_aggregate cfg chain_id reg (map (packed_record signature) txs)
  = verify_topostake_aggregate_signature_bytes reg signature (concat (map (statements signature) txs)).
Proof.
  intros Hl Hne Hs Hw Hmax. unfold verify_topostake_inline_block_aggregate.
  rewrite decide_False by (by destruct txs). rewrite work_units_packed by done.
  destruct (Z.ltb_spec (evidence_work_limit cfg) (work txs)); [lia|].
  rewrite collect_packed by auto. by rewrite decide_False.
Qed.

Lemma parse_hex_pairs_length s : forall b, parse_hex_pairs s = Some b -> String.length s = (length b * 2)%nat.
Proof.
  assert (forall k s b, (String.length s <= k)%nat -> parse_hex_pairs s = Some b -> String.length s = (length b * 2)%nat)
    as Hgen; [|intros b; by apply (Hgen (String.length s))].
  clear s. intros k. induction k as [|k IH]; intros s b Hk E; destruct s as [|x [|y t]]; simpl in *; simplify_eq;
    try done; try lia.
  destruct (hex_value x), (hex_value y), (parse_hex_pairs t) as [l|] eqn:El; simplify_eq. simpl.
  rewrite (IH t l); [lia|lia|done].
Qed.

Lemma hex_bytes_exact_length n s b : hex_bytes_exact n s = Some b -> length b = n.
Proof.
  unfold hex_bytes_exact. set (hex := default _ _). destruct (Nat.eqb_spec (String.length hex) (n * 2)) as [E|]; [|done].
  destruct (all_hex_digits hex); [|done]. simpl. intros Hb%parse_hex_pairs_length. lia.
Qed.

Lemma records_eq json ev text signature :
  evidence_from_value json = Some ev -> be_aggregate_signature ev = Some text ->
  hex_bytes_exact 48 text = Some signature -> (max_len <= MaxValidatorsPerCommittee spec)%nat ->
  Forall signed_tx (be_transactions ev) ->
  let kept := filter fits (take (Z.to_nat (max_paths_per_block cfg)) (be_transactions ev)) in
  topostake_tx_evidence_records_from_json spec cfg (Some json)
  = if Nat.leb (length kept) (MaxBlobCommitmentsPerBlock spec) then map (packed_record signature) kept else [].
Proof.
  intros Ej Et Es Hmax Hs kept. unfold topostake_tx_evidence_records_from_json, inline_records. rewrite Ej, Et. simpl.
  rewrite Es. simpl. unfold fixed_vector. rewrite (hex_bytes_exact_length _ _ _ Es). simpl. fold max_len.
  rewrite pack_eq; [|done|].
  - unfold variable_list. rewrite length_map. fold kept. by destruct (_ <=? _)%nat.
  - apply Forall_take. eapply Forall_impl; [exact Hs|]. by intros tx [Hh _].
Qed.

(** A signed transaction of epoch [e] whose path is short enough and has no cycle. *)
Definition creditable (e : Z) tx : Prop := signed_tx tx /\ tm_epoch (te_metadata tx) = e /\ NoDup (tx_path tx) /\ fits tx.

Definition evidence_hash tx : string := hash256_hex (default [] (hex_bytes_exact 32 (tx_hash_text tx))).

Lemma first_repeated_nodup path : forall seen, NoDup path -> (forall v, v ∈ path -> v ∉ seen) -> first_repeated seen path = None.
Proof.
  induction path as [|v path IH]; intros seen Hnd Hs; [done|]. apply NoDup_cons in Hnd as [Hv Hnd]. simpl.
  rewrite decide_False by (apply Hs; left). apply IH; [done|]. intros w Hw. specialize (Hs w ltac:(by right)).
  assert (w <> v) by (by intros ->). set_solver.
Qed.

Lemma creditable_valid e tx : creditable e tx -> validate_topostake_validator_path cfg (tx_path tx) = Ok ().
Proof.
  intros (_ & _ & Hnd & Hf). unfold validate_topostake_validator_path. rewrite decide_False by done.
  destruct (Z.ltb_spec (max_path_evidence_len cfg) (Z.of_nat (length (tx_path tx)))) as [Hl|].
  - exfalso. unfold fits, max_len in Hf. assert (0 < length (tx_path tx))%nat by (simpl; lia). lia.
  - rewrite first_repeated_nodup; [done|done|]. set_solver.
Qed.

(** C18: What a proposer packs is verified and credited.  Take the evidence that
    comes with an execution payload: no more transactions than a block may carry,
    each of the block's epoch, with a well-formed hash, a path that is short enough,
    has no cycle and has registered relays only, and an aggregate signature that
    verifies for the statements of all of them; and a client that has accepted none of
    these transactions, whose hashes are distinct.  Then the block carries one record
    per transaction, and processing it adds exactly these transactions to the accepted
    ones, their priority fees to the fees of the epoch and the proposer's part of each
    to the proposer's credit. *)
Theorem produced_evidence_credited json ev text signature rt (slot slots_per_epoch proposer_index : Z) :
  let txs := be_transactions ev in
  let epoch := slot / slots_per_epoch in
  evidence_from_value json = Some ev ->
  be_aggregate_signature ev = Some text -> hex_bytes_exact 48 text = Some signature ->
  Forall (creditable epoch) txs -> NoDup (map evidence_hash txs) ->
  Z.of_nat (length txs) <= max_paths_per_block cfg ->
  (length txs <= MaxBlobCommitmentsPerBlock spec)%nat ->
  (Z.to_nat (max_path_evidence_len cfg) <= MaxValidatorsPerCommittee spec)%nat ->
  work txs <= evidence_work_limit cfg -> evidence_work_limit cfg <= U64_MAX -> txs <> [] ->
  verify_topostake_aggregate_signature_bytes reg signature (concat (map (statements signature) txs)) = true ->
  is_enabled_at_epoch cfg epoch = true ->
  Forall (fun tx => (evidence_hash tx ∉ accepted_tx_hashes rt)
                    /\ (evidence_hash tx ∉ epoch_accepted_tx_hashes (epoch_runtime rt epoch))) txs ->
  let records := topostake_tx_evidence_records_from_json spec cfg (Some json) in
  length records = length txs
  /\ credited cfg rt
       (record_topostake_tx_gossip_metadata_for_block cfg chain_id slots_per_epoch reg rt slot proposer_index records).1
       epoch proposer_index (map evidence_hash txs)
       (charged (map (fun tx => amount_or_zero (te_priority_fee_wei tx)) txs)).
Proof.
  intros txs epoch Ej Et Es Hc Hnd Hp Hb Hmax Hw Hlim Hne Hv Hen Hnew.
  assert (Forall signed_tx txs) as Hs by (eapply Forall_impl; [exact Hc|]; by intros tx [? _]).
  pose proof (records_eq json ev text signature Ej Et Es Hmax Hs) as Hr. cbv zeta in Hr |- *. rewrite Hr. clear Hr.
  fold txs. rewrite take_ge by lia.
  assert (filter fits txs = txs) as ->.
  { apply list_filter_all. eapply Forall_impl; [exact Hc|]. by intros tx (_ & _ & _ & ?). }
  destruct (Nat.leb_spec (length txs) (MaxBlobCommitmentsPerBlock spec)); [|lia].
  split; [by rewrite length_map|].
  pose proof (block_credited cfg chain_id slots_per_epoch reg rt slot proposer_index (map (packed_record signature) txs))
    as Hcr. cbv zeta in Hcr. fold epoch in Hcr. rewrite length_map, !map_map in Hcr.
  apply Hcr; [done|done| | |rewrite verify_packed, Hv; try done; by eapply hex_bytes_exact_length].
  { apply Forall_map. eapply Forall_impl; [exact Hc|]. by intros tx (_ & ? & _). }
  split_and!; rewrite ?map_map; [|done|]; apply Forall_map; [|done].
  eapply Forall_impl; [exact Hc|]. intros tx. apply creditable_valid.
Qed.

Lemma sublist_concat_le {A B} (f : A -> list B) k l : k `sublist_of` l ->
  (length (concat (map f k)) <= length (concat (map f l)))%nat.
Proof. induction 1; simpl; rewrite ?length_app; lia. Qed.

Lemma sublist_concat_lt {A B} (f : A -> list B) k l : k `sublist_of` l -> k <> l -> Forall (fun x => f x <> []) l ->
  (length (concat (map f k)) < length (concat (map f l)))%nat.
Proof.
  induction 1 as [|x k l Hs IH|x k l Hs IH]; intros Hne Hl; [done| |]; apply Forall_cons in Hl as [Hx Hl];
    cbn [map concat]; rewrite ?length_app.
  - assert (k <> l) as Hkl by congruence. specialize (IH Hkl Hl). lia.
  - pose proof (sublist_concat_le f k l Hs). destruct (f x); simpl; [done|lia].
Qed.

Lemma kept_differs txs :
  (exists tx, tx ∈ txs /\ (Z.to_nat (max_path_evidence_len cfg) < length (tx_path tx))%nat)
  \/ (Z.to_nat (max_paths_per_block cfg) < length txs)%nat ->
  filter fits (take (Z.to_nat (max_paths_per_block cfg)) txs) <> txs.
Proof.
  intros Hdrop E. destruct Hdrop as [(tx & Htx & Hl)|Hl].
  - rewrite <- E in Htx. apply list_elem_of_filter in Htx as [Hf _]. unfold fits, max_len in Hf. lia.
  - pose proof (length_filter fits (take (Z.to_nat (max_paths_per_block cfg)) txs)) as Hlen.
    rewrite E, length_take in Hlen. lia.
Qed.

Lemma Forall_sublist {A} (P : A -> Prop) k l : k `sublist_of` l -> Forall P l -> Forall P k.
Proof. induction 1; rewrite ?Forall_cons; naive_solver. Qed.

(** C33: The records of a block and its signature drift apart.  The records leave out
    the transactions of the payload whose path is too long or that come after the
    largest number a block may carry, but carry the signature that was aggregated
    over all of them.  If one is left out and one is kept, processing the block checks
    that signature against the statements of the kept transactions only, which are
    strictly fewer than those it was made for; and unless it verifies for these too,
    not one of the records, however good, is accepted. *)
Theorem dropped_path_spoils_block json ev text signature rt (slot slots_per_epoch proposer_index : Z) :
  let txs := be_transactions ev in
  let kept := filter fits (take (Z.to_nat (max_paths_per_block cfg)) txs) in
  evidence_from_value json = Some ev ->
  be_aggregate_signature ev = Some text -> hex_bytes_exact 48 text = Some signature ->
  Forall signed_tx txs -> (Z.to_nat (max_path_evidence_len cfg) <= MaxValidatorsPerCommittee spec)%nat ->
  (length kept <= MaxBlobCommitmentsPerBlock spec)%nat ->
  work kept <= evidence_work_limit cfg -> evidence_work_limit cfg <= U64_MAX -> kept <> [] ->
  (exists tx, tx ∈ txs /\ (Z.to_nat (max_path_evidence_len cfg) < length (tx_path tx))%nat)
  \/ (Z.to_nat (max_paths_per_block cfg) < length txs)%nat ->
  let records := topostake_tx_evidence_records_from_json spec cfg (Some json) in
  records = map (packed_record signature) kept
  /\ verify_topostake_inline_block_aggregate cfg chain_id reg records
     = verify_topostake_aggregate_signature_bytes reg signature (concat (map (statements signature) kept))
  /\ (length (concat (map (statements signature) kept)) < length (concat (map (statements signature) txs)))%nat
  /\ (verify_topostake_aggregate_signature_bytes reg signature (concat (map (statements signature) kept)) = false ->
      accepted_tx_hashes
        (record_topostake_tx_gossip_metadata_for_block cfg chain_id slots_per_epoch reg rt slot proposer_index records).1
      = accepted_tx_hashes rt).
Proof.
  intros txs kept Ej Et Es Hs Hmax Hb Hw Hlim Hk Hdrop.
  pose proof (records_eq json ev text signature Ej Et Es Hmax Hs) as Hr. cbv zeta in Hr |- *. fold txs kept in Hr.
  destruct (Nat.leb_spec (length kept) (MaxBlobCommitmentsPerBlock spec)); [|lia]. rewrite Hr.
  assert (kept `sublist_of` txs) as Hsub by (unfold kept; by rewrite sublist_filter, sublist_take).
  assert (kept <> txs) as Hne by (by apply kept_differs).
  assert (Forall signed_tx kept) as Hsk by (by eapply Forall_sublist).
  assert (Hv := verify_packed signature kept (hex_bytes_exact_length _ _ _ Es) Hk Hsk Hw Hlim).
  split_and!; [done|done| |].
  - apply sublist_concat_lt; [done|done|]. eapply Forall_impl; [exact Hs|]. intros tx Htx.
    by apply signature_records_some.
  - intros Hfail. unfold record_topostake_tx_gossip_metadata_for_block. cbv zeta.
    destruct (negb (is_enabled_at_epoch cfg _)); [done|]. case_decide; [done|].
    destruct (existsb _ _); [by rewrite record_invalid_accepted|]. rewrite Hv, Hfail. apply record_invalid_accepted.
Qed.
End produced.

(** ** Settlement records of the engine API *)

Record TopoStakeSettlementRecord := mkPayloadSettlement {
  ps_finalized_epoch : Z;
  ps_epoch : Z;
  ps_role : Z;
  ps_validator_index : Z;
  ps_payout_address : bytes;
  ps_amount_wei : Z
}.

Record JsonTopoStakeSettlementRecord := mkJsonSettlement {
  js_finalized_epoch : Z;
  js_epoch : Z;
  js_role : string;
  js_validator_index : Z;
  js_payout_address : string;
  js_amount_wei : string
}.

(** [Address::from_str], [format!("{:#x}", address)], [Uint256::from_str_radix(_, 10)]
    and [Uint256::to_string]. *)
Class AlloyPrimitives := {
  address_from_str : string -> option bytes;
  address_text : bytes -> string;
  uint256_from_decimal : string -> option Z;
  uint256_text : Z -> string
}.

Definition Address_ZERO : bytes := replicate 20 Byte.x00.

Definition topostake_settlement_role_code (role : string) : Z :=
  let name := to_ascii_lowercase (trim role) in
  if decide (name = "relay") then 1 else if decide (name = "burned") then 2 else 0.

Definition topostake_settlement_role_name (role : Z) : string :=
  if role =? 1 then "relay" else if role =? 2 then "burned" else "proposer".

Section settlement_json.
Context `{AlloyPrimitives}.

Definition settlement_from_json (record : JsonTopoStakeSettlementRecord) : TopoStakeSettlementRecord :=
  mkPayloadSettlement (js_finalized_epoch record) (js_epoch record) (topostake_settlement_role_code (js_role record))
    (js_validator_index record) (default Address_ZERO (address_from_str (trim (js_payout_address record))))
    (default 0 (uint256_from_decimal (trim (js_amount_wei record)))).

Definition settlement_to_json (record : TopoStakeSettlementRecord) : JsonTopoStakeSettlementRecord :=
  let payout_address :=
    if (ps_role record =? 2) && bool_decide (ps_payout_address record = Address_ZERO) then ""
    else address_text (ps_payout_address record) in
  mkJsonSettlement (ps_finalized_epoch record) (ps_epoch record) (topostake_settlement_role_name (ps_role record))
    (ps_validator_index record) payout_address (uint256_text (ps_amount_wei record)).

Definition topostake_settlements_from_json (spec : EthSpecBounds) (records : list JsonTopoStakeSettlementRecord)
    : Result (list TopoStakeSettlementRecord) string :=
  variable_list (MaxValidatorsPerCommittee spec) (map settlement_from_json records).

Definition topostake_settlements_to_json (spec : EthSpecBounds) (records : list TopoStakeSettlementRecord)
    : Result (list JsonTopoStakeSettlementRecord) string :=
  variable_list (MaxValidatorsPerCommittee spec) (map settlement_to_json records).

(** Addresses and amounts are parsed as they are printed, without surrounding white
    space; no address is the empty text. *)
Definition addresses_print : Prop :=
  address_from_str "" = None
  /\ forall a, length a = 20%nat -> address_from_str (trim (address_text a)) = Some a.
Definition amounts_print : Prop :=
  forall n, 0 <= n < 2 ^ 256 -> uint256_from_decimal (trim (uint256_text n)) = Some n.

(** A record of one of the three roles. *)
Definition settlement_typed (r : TopoStakeSettlementRecord) : Prop :=
  0 <= ps_role r <= 2 /\ length (ps_payout_address r) = 20%nat /\ 0 <= ps_amount_wei r < 2 ^ 256.

(** Settlement records survive the engine API.  The settlement records of a
    payload, converted to JSON and back, are the same records, in the same order:
    roles, the empty address of burned amounts, addresses and 256-bit amounts. *)
Theorem settlement_json_round_trip (spec : EthSpecBounds) (records : list TopoStakeSettlementRecord) :
  addresses_print -> amounts_print -> Forall settlement_typed records ->
  (length records <= MaxValidatorsPerCommittee spec)%nat ->
  exists json, topostake_settlements_to_json spec records = Ok json
    /\ topostake_settlements_from_json spec json = Ok records.
Proof.
  intros [He Ha] Hn Ht Hl. exists (map settlement_to_json records).
  unfold topostake_settlements_to_json, topostake_settlements_from_json, variable_list. rewrite !length_map.
  destruct (Nat.leb_spec (length records) (MaxValidatorsPerCommittee spec)); [|lia]. split; [done|]. f_equal.
  clear - He Ha Hn Ht. induction Ht as [|r records (Hr & Hp & Hm) _ IH]; [done|]. cbn [map]. rewrite IH. f_equal.
  destruct r as [fe e role v a n]. cbn [ps_role ps_payout_address ps_amount_wei] in *.
  unfold settlement_from_json, settlement_to_json.
  cbn [ps_finalized_epoch ps_epoch ps_role ps_validator_index ps_payout_address ps_amount_wei
       js_finalized_epoch js_epoch js_role js_validator_index js_payout_address js_amount_wei].
  rewrite (Hn n Hm). f_equal.
  - assert (role = 0 \/ role = 1 \/ role = 2) as [->|[->| ->]] by lia; done.
  - destruct ((role =? 2) && bool_decide (a = Address_ZERO)) eqn:E.
    + apply andb_true_iff in E as [_ ->%bool_decide_eq_true]. change (trim "") with "". by rewrite He.
    + by rewrite (Ha a Hp).
Qed.

End settlement_json.
