(* ===== verification/SettlementHttp.v ===== *)
(** * Settlement submission over HTTP

    How a settlement reaches the execution clients
    (src/ethereum-topostake/lighthouse/consensus/state_processing/src/per_block_processing.rs):
    the choice of the endpoints, their URLs, the JSON-RPC request over a plain socket
    and the reading of the response, chunked bodies included.

    [Sockets] stands for the operating system's sockets and name resolution,
    [RpcJson] for serde_json.  A connection that cannot be opened, written or read
    is an error of [exchange]. *)

From Stdlib Require Import Ascii String.
From stdpp Require Import pretty.
From S2P Require Export ClientFacts.
Local Open Scope rust_scope.
Local Open Scope Z_scope.

(** ** Text *)

Definition CRLF : string := String (ascii_of_nat 13) (String (ascii_of_nat 10) "").

(** [split_once] with a string, [rsplit_once] with a character, [contains]. *)
Fixpoint split_once_str (sep s : string) : option (string * string) :=
  match str_strip_prefix sep s with
  | Some rest => Some ("", rest)
  | None =>
      match s with
      | EmptyString => None
      | String c s => (fun ab => (String c ab.1, ab.2)) <$> split_once_str sep s
      end
  end.

Fixpoint rsplit_once (sep : ascii) (s : string) : option (string * string) :=
  match s with
  | EmptyString => None
  | String c s =>
      match rsplit_once sep s with
      | Some (a, b) => Some (String c a, b)
      | None => if decide (c = sep) then Some ("", s) else None
      end
  end.

Definition str_contains (needle s : string) : bool := bool_decide (is_Some (split_once_str needle s)).
Definition starts_with (prefix s : string) : bool := bool_decide (is_Some (str_strip_prefix prefix s)).

(** [usize::from_str_radix(_, 16)]. *)
Fixpoint parse_hex_digits (acc : Z) (s : string) : option Z :=
  match s with
  | EmptyString => Some acc
  | String c s =>
      match hex_value c with
      | None => None
      | Some d => let acc := acc * 16 + d in if acc <=? U64_MAX then parse_hex_digits acc s else None
      end
  end.

Definition usize_from_hex (s : string) : option Z :=
  match s with
  | EmptyString => None
  | String c t =>
      if decide (c = "+"%char) then (if decide (t = "") then None else parse_hex_digits 0 t) else parse_hex_digits 0 s
  end.

(** [&s[..n]] and [&s[n..]]: both panic off a character boundary. *)
Definition is_char_boundary (s : string) (n : nat) : bool :=
  match String.get n s with
  | Some c => negb (is_cont (code c))
  | None => Nat.eqb n (String.length s)
  end.

Fixpoint str_take (n : nat) (s : string) : string :=
  match n, s with
  | S n, String c s => String c (str_take n s)
  | _, _ => ""
  end.
Fixpoint str_drop (n : nat) (s : string) : string :=
  match n, s with
  | S n, String _ s => str_drop n s
  | _, _ => s
  end.

Definition slice_to (s : string) (n : nat) : Outcome string :=
  if is_char_boundary s n then Ret (str_take n s) else Panic.
Definition slice_from (s : string) (n : nat) : Outcome string :=
  if is_char_boundary s n then Ret (str_drop n s) else Panic.

(** ** Chunked bodies *)

(** The loop of [decode_chunked_http_body]; each turn consumes some of [rest], so
    that its length bounds the number of turns.  [size + 2] overflows for the two
    largest sizes. *)
Fixpoint decode_chunks (fuel : nat) (decoded rest : string) : Outcome (Result string string) :=
  match fuel with
  | O => Ret (Err "out of fuel")
  | S fuel =>
      match split_once_str CRLF rest with
      | None => Ret (Err "invalid chunked response: missing chunk size")
      | Some (size_hex, after_size) =>
          match usize_from_hex (trim size_hex) with
          | None => Ret (Err "invalid chunked response: bad chunk size")
          | Some size =>
              if size =? 0 then Ret (Ok decoded) else
              if U64_MAX <? size + 2 then Panic else
              if Z.of_nat (String.length after_size) <? size + 2
              then Ret (Err "invalid chunked response: truncated chunk") else
              let! chunk := slice_to after_size (Z.to_nat size) in
              let! rest := slice_from after_size (Z.to_nat size + 2) in
              decode_chunks fuel (decoded +:+ chunk) rest
          end
      end
  end.

Definition decode_chunked_http_body (body : string) : Outcome (Result string string) :=
  decode_chunks (S (String.length body)) "" body.

(** ** Endpoints *)

Record TopoStakeHttpEndpoint := mkEndpoint { ep_host : string; ep_port : Z; ep_path : string }.

Definition U16_MAX : Z := 2 ^ 16 - 1.

Definition endpoint_parse (raw : string) : Result TopoStakeHttpEndpoint string :=
  match str_strip_prefix "http://" raw with
  | None => Err "TOPOSTAKE_EL_RPC_URL must use http://"
  | Some without_scheme =>
      let '(authority, path) :=
        match split_once "/"%char without_scheme with
        | Some (authority, path) => (authority, "/" +:+ path)
        | None => (without_scheme, "/")
        end in
      if decide (authority = "") then Err "TOPOSTAKE_EL_RPC_URL is missing host" else
      let? authority_parts :=
        match rsplit_once ":"%char authority with
        | Some (host, port) =>
            match parse_unsigned U16_MAX (codes port) with
            | Some port => Ok (host, port)
            | None => Err "TOPOSTAKE_EL_RPC_URL has invalid port"
            end
        | None => Ok (authority, 8545)
        end in
      let '(host, port) := authority_parts in
      if decide (host = "") then Err "TOPOSTAKE_EL_RPC_URL is missing host" else
      Ok (mkEndpoint host port path)
  end.

Definition host_header (e : TopoStakeHttpEndpoint) : string := ep_host e +:+ ":" +:+ pretty (ep_port e).

Record TopoStakeElRpcEndpoint := mkElRpc { er_cl_service_name : string; er_el_rpc_url : string }.

Class Sockets := {
  ip_addr : Type;
  ip_eq_dec :: EqDecision ip_addr;
  local_ip_towards : string -> Z -> option ip_addr;
  resolve_ips : string -> list ip_addr;
  exchange : string -> Z -> string -> Result string string
}.

Class RpcJson := {
  el_registry_from_str : string -> option (list TopoStakeElRpcEndpoint);
  (** whether the value has a field "error" and a field "result" *)
  response_from_str : string -> option (bool * bool)
}.

Section endpoints.
Context `{Env} `{Sockets} `{RpcJson}.
Implicit Types endpoints : list TopoStakeElRpcEndpoint.

Fixpoint local_ip_for_registry endpoints : Result ip_addr string :=
  match endpoints with
  | [] => Err "could not determine local CL IP for TopoStake EL RPC registry"
  | endpoint :: endpoints =>
      let? parsed := endpoint_parse (er_el_rpc_url endpoint) in
      match local_ip_towards (ep_host parsed) (ep_port parsed) with
      | Some ip => Ok ip
      | None => local_ip_for_registry endpoints
      end
  end.

Definition find_endpoint (p : TopoStakeElRpcEndpoint -> bool) endpoints : option string :=
  er_el_rpc_url <$> List.find p endpoints.

Definition select_topostake_el_rpc_url_from_registry (raw : string) : Result string string :=
  match el_registry_from_str raw with
  | None => Err "invalid EL RPC registry json"
  | Some endpoints =>
      let by_name :=
        match env_var "TOPOSTAKE_CL_SERVICE_NAME" with
        | None => None
        | Some name =>
            if decide (trim name = "") then None
            else find_endpoint (fun e => bool_decide (er_cl_service_name e = trim name)) endpoints
        end in
      match by_name with
      | Some url => Ok url
      | None =>
          let? local_ip := local_ip_for_registry endpoints in
          match find_endpoint (fun e => bool_decide (local_ip ∈ resolve_ips (er_cl_service_name e))) endpoints with
          | Some url => Ok url
          | None => Err "no matching TopoStake EL RPC registry endpoint for local CL"
          end
      end
  end.

Definition given_url : option string := env_var "TOPOSTAKE_EL_RPC_URL" ≫= non_blank.

Definition topostake_el_rpc_url : option string :=
  match given_url with
  | Some url => Some url
  | None =>
      env_var "TOPOSTAKE_EL_RPC_REGISTRY_JSON" ≫= fun registry =>
        match select_topostake_el_rpc_url_from_registry registry with Ok url => Some url | Err _ => None end
  end.

Definition add_url (urls : list string) (endpoint : TopoStakeElRpcEndpoint) : list string :=
  let url := er_el_rpc_url endpoint in
  if decide (trim url <> "" /\ url ∉ urls) then urls ++ [url] else urls.

Definition topostake_el_rpc_urls : list string :=
  match given_url with
  | Some url => [url]
  | None =>
      match env_var "TOPOSTAKE_EL_RPC_REGISTRY_JSON" ≫= el_registry_from_str with
      | None => option_list topostake_el_rpc_url
      | Some endpoints =>
          match fold_left add_url endpoints [] with
          | [] => option_list topostake_el_rpc_url
          | urls => urls
          end
      end
  end.

(** ** A request *)

Definition http_request (endpoint : TopoStakeHttpEndpoint) (body : string) : string :=
  "POST " +:+ ep_path endpoint +:+ " HTTP/1.1" +:+ CRLF
  +:+ "Host: " +:+ host_header endpoint +:+ CRLF
  +:+ "Content-Type: application/json" +:+ CRLF
  +:+ "Content-Length: " +:+ pretty (String.length body) +:+ CRLF
  +:+ "Connection: close" +:+ CRLF +:+ CRLF +:+ body.

Definition read_response (response : string) : Outcome (Result unit string) :=
  match split_once_str (CRLF +:+ CRLF) response with
  | None => Ret (Err "missing HTTP response body")
  | Some (headers, json_body) =>
      if negb (starts_with "HTTP/1.1 200" headers) && negb (starts_with "HTTP/1.0 200" headers)
      then Ret (Err "TopoStake settlement RPC returned non-200") else
      let! json_body :=
        if str_contains "transfer-encoding: chunked" (to_ascii_lowercase headers)
        then decode_chunked_http_body json_body else Ret (Ok json_body) in
      Ret (let? json_body := json_body in
           match response_from_str json_body with
           | None => Err "invalid settlement json"
           | Some (true, _) => Err "TopoStake settlement RPC returned error"
           | Some (false, false) => Err "TopoStake settlement RPC missing result"
           | Some (false, true) => Ok ()
           end)
  end.

Definition submit_topostake_json_rpc (rpc_url body : string) : Outcome (Result unit string) :=
  match endpoint_parse rpc_url with
  | Err e => Ret (Err e)
  | Ok endpoint =>
      match exchange (ep_host endpoint) (ep_port endpoint) (http_request endpoint body) with
      | Err e => Ret (Err e)
      | Ok response => read_response response
      end
  end.

End endpoints.

(** ** Chunked bodies are decoded *)

(** ASCII text without a carriage return. *)
Definition line_char (c : ascii) : Prop := code c < 128 /\ code c <> 13.
Definition line (s : string) : Prop := Forall line_char (chars s).

Lemma chars_app s t : chars (s +:+ t) = chars s ++ chars t.
Proof. induction s as [|c s IH]; [done|]. simpl. by rewrite IH. Qed.

Lemma length_chars s : String.length s = length (chars s).
Proof. induction s as [|c s IH]; [done|]. simpl. by rewrite IH. Qed.

Lemma length_str_app s t : String.length (s +:+ t) = (String.length s + String.length t)%nat.
Proof. by rewrite !length_chars, chars_app, length_app. Qed.

Lemma str_app_assoc (s t u : string) : (s +:+ t) +:+ u = s +:+ t +:+ u.
Proof. apply chars_inj. by rewrite !chars_app, app_assoc. Qed.

Lemma split_line s rest : line s -> split_once_str CRLF (s +:+ CRLF +:+ rest) = Some (s, rest).
Proof.
  induction s as [|c s IH]; [done|]. intros [[_ Hc] Hs]%Forall_cons.
  change (String c s +:+ CRLF +:+ rest) with (String c (s +:+ CRLF +:+ rest)). cbn [split_once_str].
  assert (str_strip_prefix CRLF (String c (s +:+ CRLF +:+ rest)) = None) as ->.
  { cbn [CRLF str_strip_prefix]. rewrite decide_False; [done|]. intros <-. by apply Hc. }
  rewrite IH by done. done.
Qed.

Lemma str_take_app s t : str_take (String.length s) (s +:+ t) = s.
Proof. induction s as [|c s IH]; simpl; [done|]. by rewrite IH. Qed.

Lemma str_drop_app s t n : str_drop (String.length s + n) (s +:+ t) = str_drop n t.
Proof. induction s as [|c s IH]; simpl; [done|]. exact IH. Qed.

Lemma get_app s t n : String.get (String.length s + n) (s +:+ t) = String.get n t.
Proof. induction s as [|c s IH]; simpl; [done|]. exact IH. Qed.

(** A chunk: its size line and its data. *)
Definition chunk_text (c : string * string) : string := c.1 +:+ CRLF +:+ c.2 +:+ CRLF.
Definition chunk_ok (c : string * string) : Prop :=
  line c.1 /\ usize_from_hex (trim c.1) = Some (Z.of_nat (String.length c.2))
  /\ 0 < Z.of_nat (String.length c.2) /\ Z.of_nat (String.length c.2) + 2 <= U64_MAX.

Definition body_text (chunks : list (string * string)) (last trailer : string) : string :=
  foldr (fun c rest => chunk_text c +:+ rest) (last +:+ CRLF +:+ trailer) chunks.

(** A body starts with a size line, so at a character boundary. *)
Lemma body_starts chunks last trailer : line last -> Forall chunk_ok chunks ->
  exists c rest, body_text chunks last trailer = String c rest /\ code c < 128.
Proof.
  assert (forall s rest, line s -> exists c t, s +:+ CRLF +:+ rest = String c t /\ code c < 128) as Hline.
  { intros [|c s] rest Hs; [by eexists _, _|]. apply Forall_cons in Hs as [[Hc _] _]. by eexists _, _. }
  intros Hl [|c chunks' [Hc _] _]; [by apply Hline|]. cbn [body_text foldr]. unfold chunk_text.
  rewrite str_app_assoc. rewrite str_app_assoc. by apply Hline.
Qed.

Lemma decode_chunk c rest fuel decoded : chunk_ok c -> (exists a t, rest = String a t /\ code a < 128) ->
  decode_chunks (S fuel) decoded (chunk_text c +:+ rest) = decode_chunks fuel (decoded +:+ c.2) rest.
Proof.
  intros (Hl & Hs & Hpos & Hmax) (a & t & -> & Ha). cbn [decode_chunks]. unfold chunk_text.
  rewrite !str_app_assoc, (split_line _ _ Hl), Hs. set (n := String.length c.2) in *.
  destruct (Z.eqb_spec (Z.of_nat n) 0); [lia|]. destruct (Z.ltb_spec U64_MAX (Z.of_nat n + 2)); [lia|].
  assert (String.length (c.2 +:+ CRLF +:+ String a t) = n + 2 + S (String.length t))%nat as ->.
  { rewrite length_str_app. simpl. unfold n. lia. }
  destruct (Z.ltb_spec (Z.of_nat (n + 2 + S (String.length t))) (Z.of_nat n + 2)); [lia|].
  rewrite Nat2Z.id. unfold slice_to, slice_from, is_char_boundary.
  pose proof (get_app c.2 (CRLF +:+ String a t) 0) as G0. pose proof (get_app c.2 (CRLF +:+ String a t) 2) as G2.
  pose proof (str_drop_app c.2 (CRLF +:+ String a t) 2) as D2.
  fold n in G0, G2, D2. rewrite Nat.add_0_r in G0. rewrite G0, G2. simpl String.get. cbn beta iota.
  assert (is_cont (code a) = false) as -> by (unfold is_cont; lia). simpl.
  unfold n. rewrite str_take_app. fold n. rewrite D2. done.
Qed.

(** A chunked response is decoded to its content: for any sequence of chunks,
    each with a size line in any spelling that reads as its length, ended by a chunk
    of size zero and whatever follows it, decoding gives the chunks' data joined
    together, and the loop ends within the turns that the body's length allows. *)
Theorem chunked_round_trip (chunks : list (string * string)) (last trailer : string) :
  Forall chunk_ok chunks -> line last -> usize_from_hex (trim last) = Some 0 ->
  decode_chunked_http_body (body_text chunks last trailer) = Ret (Ok (foldr String.append "" chunks.*2)).
Proof.
  intros Hc Hl H0. unfold decode_chunked_http_body.
  assert (forall decoded fuel, (length chunks < fuel)%nat ->
    decode_chunks fuel decoded (body_text chunks last trailer) = Ret (Ok (decoded +:+ foldr String.append "" chunks.*2)))
    as Hgen.
  { induction Hc as [|c chunks Hc Hcs IH]; intros decoded [|fuel] Hf; simpl in Hf; try lia.
    - cbn [decode_chunks body_text foldr]. rewrite split_line, H0 by done. simpl. f_equal. f_equal.
      apply chars_inj. by rewrite chars_app, app_nil_r.
    - change (body_text (c :: chunks) last trailer) with (chunk_text c +:+ body_text chunks last trailer).
      rewrite decode_chunk by (try done; by apply body_starts). rewrite IH by lia. f_equal. f_equal.
      rewrite fmap_cons. simpl. by rewrite str_app_assoc. }
  rewrite Hgen; [done|]. clear - Hc. induction Hc as [|c chunks (_ & _ & Hp & _) _ IH].
  - simpl; lia.
  - change (body_text (c :: chunks) last trailer) with (chunk_text c +:+ body_text chunks last trailer).
    unfold chunk_text. rewrite !length_str_app. simpl length. lia.
Qed.

(** A response can bring block processing down.  The two largest chunk sizes
    overflow the addition that should reject a truncated chunk, so that a body that
    starts with one of them makes decoding panic instead of return an error. *)
Theorem huge_chunk_panics (size_line rest : string) (size : Z) :
  line size_line -> usize_from_hex (trim size_line) = Some size -> U64_MAX - 2 < size ->
  decode_chunked_http_body (size_line +:+ CRLF +:+ rest) = Panic.
Proof.
  intros Hl Hs Hb. unfold decode_chunked_http_body. cbn [decode_chunks]. rewrite split_line, Hs by done.
  destruct (Z.eqb_spec size 0); [unfold U64_MAX in *; lia|]. destruct (Z.ltb_spec U64_MAX (size + 2)); [done|lia].
Qed.
