(* ===== verification/Justification.v ===== *)
(** * Justification and finalization

    The part of the epoch transition that decides which epochs are justified and
    finalized
    (src/ethereum-topostake/lighthouse/consensus/state_processing/src/per_epoch_processing/:
    weigh_justification_and_finalization.rs, justification_and_finalization_state.rs,
    altair/justification_and_finalization.rs, base/justification_and_finalization.rs).
    TopoStake settles scores and fees by the finalized epoch that comes out of it.

    The balances and the block roots of an epoch are inputs; the checked arithmetic
    of the crate safe_arith and the [BitVector] of ssz_types are written out. *)

From S2P Require Export Prelude.
Local Open Scope rust_scope.
Local Open Scope Z_scope.

Record Checkpoint := mkCheckpoint { cp_epoch : Z; cp_root : bytes }.

(** The variants of [EpochProcessingError] that the modelled operations construct. *)
Inductive EpochError :=
  | ArithError
  | SlotOutOfBounds
  | InvalidBitfield
  | BeaconStateError (what : string)
  | EpochCacheError (what : string)
  | InvalidFlagIndex (flag : nat)
  | SinglePassMissingActivationQueue
  | MissingEarliestExitEpoch
  | MissingExitBalanceToConsume
  | PendingDepositsLogicError
  | ProposerLookaheadOutOfBounds (index : nat).

(** safe_arith on [u64]. *)
Definition safe_add (a b : Z) : Result Z EpochError := if a + b <=? U64_MAX then Ok (a + b) else Err ArithError.
Definition safe_mul (a b : Z) : Result Z EpochError := if a * b <=? U64_MAX then Ok (a * b) else Err ArithError.

(** [BitVector<JustificationBitsLength>], four bits. *)
Definition bit_get (bits : list bool) (i : nat) : Result bool EpochError :=
  match bits !! i with Some b => Ok b | None => Err InvalidBitfield end.
Definition bit_set (bits : list bool) (i : nat) : Result (list bool) EpochError :=
  if Nat.ltb i (length bits) then Ok (<[i := true]> bits) else Err InvalidBitfield.
Definition shift_up (bits : list bool) : Result (list bool) EpochError :=
  if Nat.leb 1 (length bits) then Ok (take (length bits) (false :: bits)) else Err InvalidBitfield.

(** The fields of the beacon state that take part. *)
Record FinalityState := mkFinality {
  fs_current_epoch : Z;
  previous_justified_checkpoint : Checkpoint;
  current_justified_checkpoint : Checkpoint;
  finalized_checkpoint : Checkpoint;
  justification_bits : list bool
}.

(** [JustificationAndFinalizationState]: those fields and the roots of the two epochs. *)
Record JustificationAndFinalizationState := mkJF {
  jf_previous_epoch : Z;
  jf_previous_epoch_target_root : Result bytes EpochError;
  jf_current_epoch : Z;
  jf_current_epoch_target_root : Result bytes EpochError;
  jf_previous_justified_checkpoint : Checkpoint;
  jf_current_justified_checkpoint : Checkpoint;
  jf_finalized_checkpoint : Checkpoint;
  jf_justification_bits : list bool
}.

(** What the end of an epoch reads: block roots by epoch and the three balances. *)
Record EpochVotes := mkVotes {
  ev_root : Z -> Result bytes EpochError;
  ev_total_active_balance : Z;
  ev_previous_target_balance : Z;
  ev_current_target_balance : Z
}.

Section justification.
Implicit Types v : EpochVotes.

Definition previous_epoch (s : FinalityState) : Z := if 1 <=? fs_current_epoch s then fs_current_epoch s - 1 else fs_current_epoch s.

Definition JF_new (s : FinalityState) v : JustificationAndFinalizationState :=
  mkJF (previous_epoch s) (ev_root v (previous_epoch s)) (fs_current_epoch s) (ev_root v (fs_current_epoch s))
    (previous_justified_checkpoint s) (current_justified_checkpoint s) (finalized_checkpoint s) (justification_bits s).

Definition apply_changes_to_state (st : JustificationAndFinalizationState) (s : FinalityState) : FinalityState :=
  mkFinality (fs_current_epoch s) (jf_previous_justified_checkpoint st) (jf_current_justified_checkpoint st)
    (jf_finalized_checkpoint st) (jf_justification_bits st).

Definition get_block_root_at_epoch (st : JustificationAndFinalizationState) (epoch : Z) : Result bytes EpochError :=
  if epoch =? jf_previous_epoch st then jf_previous_epoch_target_root st
  else if epoch =? jf_current_epoch st then jf_current_epoch_target_root st
  else Err SlotOutOfBounds.

Definition set_justification (st : JustificationAndFinalizationState) (previous current : Checkpoint) (bits : list bool) : JustificationAndFinalizationState :=
  mkJF (jf_previous_epoch st) (jf_previous_epoch_target_root st) (jf_current_epoch st) (jf_current_epoch_target_root st)
    previous current (jf_finalized_checkpoint st) bits.

Definition set_finalized (st : JustificationAndFinalizationState) (c : Checkpoint) : JustificationAndFinalizationState :=
  mkJF (jf_previous_epoch st) (jf_previous_epoch_target_root st) (jf_current_epoch st) (jf_current_epoch_target_root st)
    (jf_previous_justified_checkpoint st) (jf_current_justified_checkpoint st) c (jf_justification_bits st).

(** One of the two "justify" steps: [epoch] if its balance is two thirds, with bit [i]. *)
Definition justify (st : JustificationAndFinalizationState) (epoch : Z) (i : nat) (target_balance total_active_balance : Z)
    : Result JustificationAndFinalizationState EpochError :=
  let? three := safe_mul target_balance 3 in
  let? two := safe_mul total_active_balance 2 in
  if two <=? three then
    let? root := get_block_root_at_epoch st epoch in
    let? bits := bit_set (jf_justification_bits st) i in
    Ok (set_justification st (jf_previous_justified_checkpoint st) (mkCheckpoint epoch root) bits)
  else Ok st.

Fixpoint all_bits_set (bits : list bool) (range : list nat) : Result bool EpochError :=
  match range with
  | [] => Ok true
  | i :: range => let? b := bit_get bits i in if b then all_bits_set bits range else Ok false
  end.

(** One of the four "finalize" steps; [&&] adds the epochs only when the bits are set. *)
Definition finalize (st : JustificationAndFinalizationState) (range : list nat) (source : Checkpoint) (distance : Z)
    : Result JustificationAndFinalizationState EpochError :=
  let? all := all_bits_set (jf_justification_bits st) range in
  if all then
    let? e := safe_add (cp_epoch source) distance in
    Ok (if e =? jf_current_epoch st then set_finalized st source else st)
  else Ok st.

Definition weigh_justification_and_finalization (st : JustificationAndFinalizationState)
    (total_active_balance previous_target_balance current_target_balance : Z)
    : Result JustificationAndFinalizationState EpochError :=
  let old_previous := jf_previous_justified_checkpoint st in
  let old_current := jf_current_justified_checkpoint st in
  let? bits := shift_up (jf_justification_bits st) in
  let st := set_justification st old_current old_current bits in
  let? st := justify st (jf_previous_epoch st) 1 previous_target_balance total_active_balance in
  let? st := justify st (jf_current_epoch st) 0 current_target_balance total_active_balance in
  let? st := finalize st [1; 2; 3]%nat old_previous 3 in
  let? st := finalize st [1; 2]%nat old_previous 2 in
  let? st := finalize st [0; 1; 2]%nat old_current 2 in
  finalize st [0; 1]%nat old_current 1.

Definition process_justification_and_finalization (s : FinalityState) v : Result JustificationAndFinalizationState EpochError :=
  let st := JF_new s v in
  let? first := safe_add 0 1 in
  if fs_current_epoch s <=? first then Ok st
  else weigh_justification_and_finalization st (ev_total_active_balance v) (ev_previous_target_balance v)
         (ev_current_target_balance v).

(** The end of an epoch: the changes are applied and the next epoch begins. *)
Definition end_epoch (s : FinalityState) v : Result FinalityState EpochError :=
  let? st := process_justification_and_finalization s v in
  let s := apply_changes_to_state st s in
  Ok (mkFinality (fs_current_epoch s + 1) (previous_justified_checkpoint s) (current_justified_checkpoint s)
        (finalized_checkpoint s) (justification_bits s)).

End justification.

(** * Checked arithmetic that succeeds *)

Lemma safe_add_ok a b c : safe_add a b = Ok c -> c = a + b /\ c <= U64_MAX.
Proof. unfold safe_add. destruct (Z.leb_spec (a + b) U64_MAX); [|done]. intros [= <-]. lia. Qed.

Lemma safe_mul_ok a b c : safe_mul a b = Ok c -> c = a * b /\ c <= U64_MAX.
Proof. unfold safe_mul. destruct (Z.leb_spec (a * b) U64_MAX); [|done]. intros [= <-]. lia. Qed.
