(* ===== verification/JustificationFacts.v ===== *)
(** * Properties of justification and finalization

    Only epochs that two thirds of the stake voted for are justified, only justified
    epochs whose successor is justified are finalized, finality never goes back, and
    two epochs in a row with two thirds finalize the first of them. *)

From S2P Require Export Justification.
Local Open Scope rust_scope.
Local Open Scope Z_scope.

(** ** One epoch *)

Definition two_thirds (target total : Z) : bool := 2 * total <=? 3 * target.

Lemma justify_ok st e i target total st' : justify st e i target total = Ok st' ->
  exists root, st' = if two_thirds target total
    then set_justification st (jf_previous_justified_checkpoint st) (mkCheckpoint e root)
           (<[i := true]> (jf_justification_bits st))
    else st.
Proof.
  unfold justify. destruct (safe_mul target 3) as [three|] eqn:E3; [|done].
  destruct (safe_mul total 2) as [two|] eqn:E2; [|done]. apply safe_mul_ok in E3 as [-> _], E2 as [-> _]. simpl.
  replace (total * 2 <=? target * 3) with (two_thirds target total) by (unfold two_thirds; f_equal; lia).
  destruct (two_thirds target total); [|intros [= <-]; by exists []].
  destruct (get_block_root_at_epoch st e) as [root|]; [|done]. simpl. unfold bit_set.
  destruct (_ <? _)%nat; [|done]. intros [= <-]. by exists root.
Qed.

Lemma all_bits_set_eq bits range : Forall (fun i => i < length bits)%nat range ->
  all_bits_set bits range = Ok (forallb (fun i => nth i bits false) range).
Proof.
  induction 1 as [|i range Hi _ IH]; [done|]. cbn [all_bits_set forallb]. unfold bit_get.
  destruct (lookup_lt_is_Some_2 bits i Hi) as [b Hb]. rewrite Hb, (nth_lookup_Some _ _ _ _ Hb). by destruct b.
Qed.

(** A finalize step changes only the finalized checkpoint. *)
Lemma finalize_ok st range source d st' : length (jf_justification_bits st) = 4%nat ->
  Forall (fun i => i < 4)%nat range -> finalize st range source d = Ok st' ->
  jf_justification_bits st' = jf_justification_bits st
  /\ jf_previous_justified_checkpoint st' = jf_previous_justified_checkpoint st
  /\ jf_current_justified_checkpoint st' = jf_current_justified_checkpoint st
  /\ jf_current_epoch st' = jf_current_epoch st
  /\ jf_finalized_checkpoint st' =
     if forallb (fun i => nth i (jf_justification_bits st) false) range
        && (cp_epoch source + d =? jf_current_epoch st)
     then source else jf_finalized_checkpoint st.
Proof.
  intros Hl Hr. unfold finalize. rewrite all_bits_set_eq by (by rewrite Hl). cbn [fst].
  destruct (forallb _ range); simpl; [|by intros [= <-]].
  destruct (safe_add (cp_epoch source) d) as [e|] eqn:Es; [|done]. apply safe_add_ok in Es as [-> _].
  intros [= <-]. by destruct (_ =? _).
Qed.

(** What [weigh_justification_and_finalization] returns. *)
Definition weighed st (b0 b1 b2 : bool) (total previous current : Z) st' : Prop :=
  let E := jf_current_epoch st in
  let p := two_thirds previous total in
  let c := two_thirds current total in
  let oldp := jf_previous_justified_checkpoint st in
  let oldc := jf_current_justified_checkpoint st in
  jf_justification_bits st' = [c; p || b0; b1; b2]
  /\ jf_previous_justified_checkpoint st' = oldc
  /\ cp_epoch (jf_current_justified_checkpoint st')
     = (if c then E else if p then jf_previous_epoch st else cp_epoch oldc)
  /\ jf_finalized_checkpoint st' =
     if c && (p || b0) && (cp_epoch oldc + 1 =? E) then oldc
     else if c && (p || b0) && b1 && (cp_epoch oldc + 2 =? E) then oldc
     else if (p || b0) && b1 && (cp_epoch oldp + 2 =? E) then oldp
     else if (p || b0) && b1 && b2 && (cp_epoch oldp + 3 =? E) then oldp
     else jf_finalized_checkpoint st.

Lemma weigh_ok st b0 b1 b2 b3 total previous current st' :
  jf_justification_bits st = [b0; b1; b2; b3] ->
  weigh_justification_and_finalization st total previous current = Ok st' ->
  weighed st b0 b1 b2 total previous current st'.
Proof.
  intros Hb. unfold weigh_justification_and_finalization. rewrite Hb. cbn [shift_up length Nat.leb].
  set (st0 := set_justification st _ _ _).
  destruct (justify st0 _ 1 previous total) as [st1|] eqn:E1; [|done].
  destruct (justify st1 _ 0 current total) as [st2|] eqn:E2; [|done].
  assert (jf_justification_bits st2 = [two_thirds current total; two_thirds previous total || b0; b1; b2]
    /\ jf_previous_justified_checkpoint st2 = jf_current_justified_checkpoint st
    /\ jf_current_epoch st2 = jf_current_epoch st /\ jf_finalized_checkpoint st2 = jf_finalized_checkpoint st
    /\ cp_epoch (jf_current_justified_checkpoint st2)
       = (if two_thirds current total then jf_current_epoch st else if two_thirds previous total
          then jf_previous_epoch st else cp_epoch (jf_current_justified_checkpoint st))) as (B2 & P2 & C2 & F2 & J2).
  { apply justify_ok in E1 as [r1 ->]. apply justify_ok in E2 as [r2 ->].
    by destruct (two_thirds current total), (two_thirds previous total). }
  clear E1 E2. set (bits := [_; _; _; _]) in B2. assert (length bits = 4%nat) as Hl by done.
  destruct (finalize st2 _ _ 3) as [st3|] eqn:E3; [|done].
  apply finalize_ok in E3 as (B3 & P3 & J3 & C3 & F3); [|by rewrite B2|repeat constructor; lia]. rewrite B2 in *.
  destruct (finalize st3 _ _ 2) as [st4|] eqn:E4; [|done].
  apply finalize_ok in E4 as (B4 & P4 & J4 & C4 & F4); [|by rewrite B3|repeat constructor; lia]. rewrite B3 in *.
  destruct (finalize st4 _ _ 2) as [st5|] eqn:E5; [|done].
  apply finalize_ok in E5 as (B5 & P5 & J5 & C5 & F5); [|by rewrite B4|repeat constructor; lia]. rewrite B4 in *.
  intros E6. apply finalize_ok in E6 as (B6 & P6 & J6 & C6 & F6); [|by rewrite B5|repeat constructor; lia]. rewrite B5 in *.
  unfold weighed. cbv zeta. split_and!; [done|congruence|congruence|].
  rewrite F6, C5, F5, C4, F4, C3, F3, C2, F2. unfold bits. cbn [forallb nth]. rewrite !andb_true_r.
  rewrite !andb_assoc. done.
Qed.

(** ** Histories *)

Definition genesis (root : bytes) : FinalityState :=
  mkFinality 0 (mkCheckpoint 0 root) (mkCheckpoint 0 root) (mkCheckpoint 0 root) [false; false; false; false].

(** The states at the beginning of an epoch, with the votes of the epochs before it. *)
Inductive reach (root : bytes) : FinalityState -> list (Z * EpochVotes) -> Prop :=
  | reach_genesis : reach root (genesis root) []
  | reach_epoch s s' v h :
      reach root s h -> end_epoch s v = Ok s' -> reach root s' ((fs_current_epoch s, v) :: h).

(** Two thirds of the active balance voted for epoch [e]: counted at its own end, or
    at the end of the next epoch. *)
Definition supermajority (h : list (Z * EpochVotes)) (e : Z) : Prop :=
  exists E v, (E, v) ∈ h
    /\ (E = e /\ two_thirds (ev_current_target_balance v) (ev_total_active_balance v) = true
        \/ E = e + 1 /\ two_thirds (ev_previous_target_balance v) (ev_total_active_balance v) = true).

Lemma supermajority_cons x h e : supermajority h e -> supermajority (x :: h) e.
Proof. intros (E & v & Hin & Hv). exists E, v. split; [by right|done]. Qed.

Lemma supermajority_now E v h b : two_thirds (ev_current_target_balance v) (ev_total_active_balance v) = true ->
  b = E -> supermajority ((E, v) :: h) b.
Proof. intros Hv ->. exists E, v. split; [by left|by left]. Qed.

Lemma supermajority_previous E v h b : two_thirds (ev_previous_target_balance v) (ev_total_active_balance v) = true ->
  b = E - 1 -> supermajority ((E, v) :: h) b.
Proof. intros Hv ->. exists E, v. split; [by left|]. right. split; [lia|done]. Qed.

Create HintDb finality.
#[local] Hint Resolve supermajority_cons supermajority_now supermajority_previous : finality.

(** What holds at the beginning of every epoch: the bits tell which of the last four
    epochs have a supermajority, and the checkpoints are in order. *)
Record finality_inv (s : FinalityState) (h : list (Z * EpochVotes)) : Prop := {
  inv_bits : exists b0 b1 b2 b3, justification_bits s = [b0; b1; b2; b3]
    /\ (b0 = true -> supermajority h (fs_current_epoch s - 1))
    /\ (b1 = true -> supermajority h (fs_current_epoch s - 2))
    /\ (b2 = true -> supermajority h (fs_current_epoch s - 3))
    /\ (fs_current_epoch s <= 2 -> b0 = false /\ b1 = false /\ b2 = false);
  inv_order : 0 <= cp_epoch (finalized_checkpoint s) <= cp_epoch (previous_justified_checkpoint s)
    /\ cp_epoch (previous_justified_checkpoint s) <= cp_epoch (current_justified_checkpoint s)
    /\ cp_epoch (current_justified_checkpoint s) <= Z.max 0 (fs_current_epoch s - 1) /\ 0 <= fs_current_epoch s;
  inv_justified : cp_epoch (current_justified_checkpoint s) <> 0 -> supermajority h (cp_epoch (current_justified_checkpoint s));
  inv_finalized : cp_epoch (finalized_checkpoint s) <> 0 ->
    supermajority h (cp_epoch (finalized_checkpoint s)) /\ supermajority h (cp_epoch (finalized_checkpoint s) + 1)
}.

(** The end of an epoch: nothing but the clock in the first two, the weighing after. *)
Lemma end_epoch_cases s v s' b0 b1 b2 b3 : justification_bits s = [b0; b1; b2; b3] -> end_epoch s v = Ok s' ->
  fs_current_epoch s' = fs_current_epoch s + 1
  /\ (fs_current_epoch s <= 1 /\ s' = mkFinality (fs_current_epoch s + 1) (previous_justified_checkpoint s)
        (current_justified_checkpoint s) (finalized_checkpoint s) (justification_bits s)
      \/ 2 <= fs_current_epoch s /\ exists st', weighed (JF_new s v) b0 b1 b2 (ev_total_active_balance v)
           (ev_previous_target_balance v) (ev_current_target_balance v) st'
         /\ previous_justified_checkpoint s' = jf_previous_justified_checkpoint st'
         /\ current_justified_checkpoint s' = jf_current_justified_checkpoint st'
         /\ finalized_checkpoint s' = jf_finalized_checkpoint st'
         /\ justification_bits s' = jf_justification_bits st').
Proof.
  intros Hb. unfold end_epoch, process_justification_and_finalization. change (safe_add 0 1) with (@Ok Z EpochError 1).
  cbv beta iota zeta. destruct (Z.leb_spec (fs_current_epoch s) 1) as [Hle|Hgt].
  - intros [= <-]. split; [done|]. left. split; [done|]. done.
  - destruct (weigh_justification_and_finalization _ _ _ _) as [st'|] eqn:Ew; [|done]. intros [= <-].
    split; [done|]. right. split; [lia|]. exists st'. split; [|done]. by eapply weigh_ok.
Qed.

Lemma finality_step s v s' h : finality_inv s h -> end_epoch s v = Ok s' ->
  finality_inv s' ((fs_current_epoch s, v) :: h)
  /\ cp_epoch (finalized_checkpoint s) <= cp_epoch (finalized_checkpoint s')
  /\ cp_epoch (current_justified_checkpoint s) <= cp_epoch (current_justified_checkpoint s').
Proof.
  intros [(b0 & b1 & b2 & b3 & Hb & H0 & H1 & H2 & Hnone) Hord Hj Hf] Hs.
  destruct (end_epoch_cases s v s' b0 b1 b2 b3 Hb Hs) as [HE [[Hle ->]|[Hge (st' & Hw & Ep & Ec & Ef & Eb)]]].
  { destruct (Hnone ltac:(lia)) as (-> & -> & ->). cbn [finalized_checkpoint current_justified_checkpoint].
    split; [|lia]. split; cbn [justification_bits fs_current_epoch finalized_checkpoint current_justified_checkpoint
      previous_justified_checkpoint].
    - exists false, false, false, b3. split_and!; done.
    - lia.
    - auto with finality.
    - intros Hne. destruct (Hf Hne). auto with finality. }
  destruct Hw as (Wb & Wp & Wc & Wf).
  assert (jf_previous_epoch (JF_new s v) = fs_current_epoch s - 1) as Epe.
  { cbn. unfold previous_epoch. destruct (Z.leb_spec 1 (fs_current_epoch s)); lia. }
  rewrite Epe in Wc. cbn [JF_new jf_current_epoch jf_previous_justified_checkpoint jf_current_justified_checkpoint
    jf_finalized_checkpoint] in Wb, Wp, Wc, Wf.
  rewrite <- Ef in Wf. rewrite <- Ep in Wp. rewrite <- Ec in Wc. rewrite <- Eb in Wb. clear Ef Ep Ec Eb.
  set (E := fs_current_epoch s) in *. set (h' := (E, v) :: h).
  set (c := two_thirds (ev_current_target_balance v) (ev_total_active_balance v)) in *.
  set (p := two_thirds (ev_previous_target_balance v) (ev_total_active_balance v)) in *.
  assert (c = true -> supermajority h' E) as Sc by (unfold h'; eauto with finality).
  assert (p || b0 = true -> supermajority h' (E - 1)) as Sp.
  { intros [Hp|Hp]%orb_true_iff; unfold h'; eauto with finality. }
  assert (b1 = true -> supermajority h' (E - 2)) as S1 by (unfold h'; auto with finality).
  assert (b2 = true -> supermajority h' (E - 3)) as S2 by (unfold h'; auto with finality).
  assert (finalized_checkpoint s' = finalized_checkpoint s
    \/ (finalized_checkpoint s' = current_justified_checkpoint s \/ finalized_checkpoint s' = previous_justified_checkpoint s)
       /\ supermajority h' (cp_epoch (finalized_checkpoint s'))
       /\ supermajority h' (cp_epoch (finalized_checkpoint s') + 1)) as Hfin.
  { rewrite Wf. repeat match goal with |- context [if ?b then _ else _] => destruct b eqn:? end; [right..|by left];
      repeat match goal with Hx : _ && _ = true |- _ => apply andb_true_iff in Hx as [? ?] end;
      match goal with Hx : (_ =? _) = true |- _ => apply Z.eqb_eq in Hx end;
      (split; [by auto|]).
    - replace (cp_epoch _) with (E - 1) by lia. replace (E - 1 + 1) with E by lia. auto.
    - replace (cp_epoch _) with (E - 2) by lia. replace (E - 2 + 1) with (E - 1) by lia. auto.
    - replace (cp_epoch _) with (E - 2) by lia. replace (E - 2 + 1) with (E - 1) by lia. auto.
    - replace (cp_epoch _) with (E - 3) by lia. replace (E - 3 + 1) with (E - 2) by lia. auto. }
  assert (cp_epoch (current_justified_checkpoint s) <= cp_epoch (current_justified_checkpoint s') <= E) as Hcur.
  { rewrite Wc. destruct c, p; lia. }
  assert (cp_epoch (finalized_checkpoint s) <= cp_epoch (finalized_checkpoint s')
    <= cp_epoch (current_justified_checkpoint s)) as Hmono by (destruct Hfin as [->|[[->| ->] _]]; lia).
  split; [|lia]. split.
  - exists c, (p || b0), b1, b2. rewrite HE. split_and!; [done| | | |lia].
    + intros Hc. replace (E + 1 - 1) with E by lia. auto.
    + intros Hp. replace (E + 1 - 2) with (E - 1) by lia. auto.
    + intros Hp. replace (E + 1 - 3) with (E - 2) by lia. auto.
  - rewrite HE, Wp. lia.
  - rewrite Wc. destruct c eqn:Ec; [by auto|]. destruct p eqn:Ep; [by intros _; apply Sp|].
    unfold h'. auto with finality.
  - destruct Hfin as [->|[_ [? ?]]]; [|done]. intros Hne. destruct (Hf Hne). unfold h'. auto with finality.
Qed.

Lemma reach_inv root s h : reach root s h -> finality_inv s h.
Proof.
  induction 1 as [|s s' v h _ IH Hs]; [|by eapply finality_step].
  split; [exists false, false, false, false; split_and!; done|cbn; lia|done|done].
Qed.

(** C19: An epoch is finalized only by two supermajorities in a row.  In every state
    that any sequence of epochs leads to from genesis, whatever the votes were, a
    finalized epoch other than the first, and the epoch after it, each had two thirds
    of the active balance vote for them, counted at their own end or at the end of
    the epoch after; and so had every justified epoch. *)
Theorem finalized_epochs_justified root s h : reach root s h ->
  (cp_epoch (finalized_checkpoint s) <> 0 ->
     supermajority h (cp_epoch (finalized_checkpoint s)) /\ supermajority h (cp_epoch (finalized_checkpoint s) + 1))
  /\ (cp_epoch (current_justified_checkpoint s) <> 0 -> supermajority h (cp_epoch (current_justified_checkpoint s))).
Proof. intros [_ _ Hj Hf]%reach_inv. auto. Qed.

(** Finality never goes back.  In every reachable state the finalized epoch is
    at most the previous justified one, that one at most the current justified one,
    which is in the past; and no end of an epoch lowers the finalized or the
    justified epoch. *)
Theorem finality_monotone root s h v s' : reach root s h -> end_epoch s v = Ok s' ->
  0 <= cp_epoch (finalized_checkpoint s) <= cp_epoch (previous_justified_checkpoint s)
  /\ cp_epoch (previous_justified_checkpoint s) <= cp_epoch (current_justified_checkpoint s)
     <= Z.max 0 (fs_current_epoch s - 1)
  /\ cp_epoch (finalized_checkpoint s) <= cp_epoch (finalized_checkpoint s')
  /\ cp_epoch (current_justified_checkpoint s) <= cp_epoch (current_justified_checkpoint s').
Proof.
  intros Hi%reach_inv Hs. destruct (finality_step s v s' h Hi Hs) as (_ & Hf & Hc). destruct Hi as [_ Hord _ _]. lia.
Qed.

(** ** Progress *)

(** Votes that do not overflow, with the block roots at hand. *)
Definition votes_ok (E : Z) (v : EpochVotes) : Prop :=
  is_ok (ev_root v E) = true /\ is_ok (ev_root v (E - 1)) = true
  /\ 2 * ev_total_active_balance v <= U64_MAX
  /\ 3 * ev_previous_target_balance v <= U64_MAX /\ 3 * ev_current_target_balance v <= U64_MAX.

(** Everything a step needs to succeed. *)
Definition weighable (st : JustificationAndFinalizationState) : Prop :=
  is_ok (jf_previous_epoch_target_root st) = true /\ is_ok (jf_current_epoch_target_root st) = true
  /\ length (jf_justification_bits st) = 4%nat.

Lemma justify_runs st e i target total :
  weighable st -> e = jf_previous_epoch st \/ e = jf_current_epoch st -> (i < 4)%nat ->
  3 * target <= U64_MAX -> 2 * total <= U64_MAX ->
  exists st', justify st e i target total = Ok st' /\ weighable st'
    /\ jf_previous_epoch st' = jf_previous_epoch st /\ jf_current_epoch st' = jf_current_epoch st.
Proof.
  intros (Hp & Hc & Hb) He Hi Ht Htot. unfold justify, safe_mul.
  destruct (Z.leb_spec (target * 3) U64_MAX); [|lia]. destruct (Z.leb_spec (total * 2) U64_MAX); [|lia].
  destruct (_ <=? _); [|by eexists]. unfold get_block_root_at_epoch, bit_set. rewrite Hb.
  destruct (Nat.ltb_spec i 4); [|lia].
  assert (exists root, (if e =? jf_previous_epoch st then jf_previous_epoch_target_root st
    else if e =? jf_current_epoch st then jf_current_epoch_target_root st else Err SlotOutOfBounds) = Ok root)
    as [root ->].
  { destruct (Z.eqb_spec e (jf_previous_epoch st)); [by destruct (jf_previous_epoch_target_root st); eauto|].
    destruct (Z.eqb_spec e (jf_current_epoch st)); [by destruct (jf_current_epoch_target_root st); eauto|lia]. }
  eexists. split; [done|]. split; [|done]. split_and!; [done|done|]. cbn. by rewrite length_insert.
Qed.

Lemma finalize_runs st range source d : weighable st -> Forall (fun i => i < 4)%nat range ->
  cp_epoch source + d <= U64_MAX -> exists st', finalize st range source d = Ok st' /\ weighable st'.
Proof.
  intros (Hp & Hc & Hb) Hr Hs. unfold finalize. rewrite all_bits_set_eq by (by rewrite Hb).
  destruct (forallb _ _); [|by eexists]. unfold safe_add. destruct (Z.leb_spec (cp_epoch source + d) U64_MAX); [|lia].
  eexists. split; [done|]. by destruct (_ =? _).
Qed.

Lemma weigh_runs st total previous current : weighable st ->
  2 * total <= U64_MAX -> 3 * previous <= U64_MAX -> 3 * current <= U64_MAX ->
  cp_epoch (jf_previous_justified_checkpoint st) + 3 <= U64_MAX ->
  cp_epoch (jf_current_justified_checkpoint st) + 3 <= U64_MAX ->
  exists st', weigh_justification_and_finalization st total previous current = Ok st'.
Proof.
  intros (Hp & Hc & Hb) Ht Hpr Hcu He1 He2. unfold weigh_justification_and_finalization. unfold shift_up. rewrite Hb.
  cbn [Nat.leb]. set (st0 := set_justification _ _ _ _).
  assert (weighable st0) as W0.
  { split_and!; [done|done|]. unfold st0. cbn [jf_justification_bits set_justification].
    rewrite length_take. simpl. rewrite Hb. done. }
  destruct (justify_runs st0 (jf_previous_epoch st0) 1 previous total W0) as (st1 & -> & W1 & P1 & C1); [auto|lia|lia|lia|].
  destruct (justify_runs st1 (jf_current_epoch st1) 0 current total W1) as (st2 & -> & W2 & P2 & C2); [auto|lia|lia|lia|].
  destruct (finalize_runs st2 [1; 2; 3]%nat (jf_previous_justified_checkpoint st) 3 W2) as (st3 & -> & W3);
    [repeat constructor; lia|lia|].
  destruct (finalize_runs st3 [1; 2]%nat (jf_previous_justified_checkpoint st) 2 W3) as (st4 & -> & W4);
    [repeat constructor; lia|lia|].
  destruct (finalize_runs st4 [0; 1; 2]%nat (jf_current_justified_checkpoint st) 2 W4) as (st5 & -> & W5);
    [repeat constructor; lia|lia|].
  destruct (finalize_runs st5 [0; 1]%nat (jf_current_justified_checkpoint st) 1 W5) as (st6 & -> & _);
    [repeat constructor; lia|lia|by eexists].
Qed.

Lemma end_epoch_runs s h v : finality_inv s h -> 2 <= fs_current_epoch s -> fs_current_epoch s + 3 <= U64_MAX ->
  votes_ok (fs_current_epoch s) v -> exists s', end_epoch s v = Ok s'.
Proof.
  intros [(b0 & b1 & b2 & b3 & Hb & _) Hord _ _] Hge Hmax (Hr & Hr' & Ht & Hp & Hc).
  unfold end_epoch, process_justification_and_finalization. change (safe_add 0 1) with (@Ok Z EpochError 1).
  cbv beta iota zeta. destruct (Z.leb_spec (fs_current_epoch s) 1); [lia|].
  destruct (weigh_runs (JF_new s v) (ev_total_active_balance v) (ev_previous_target_balance v)
    (ev_current_target_balance v)) as [st' ->]; [|lia|lia|lia|cbn; lia|cbn; lia|by eexists].
  split_and!; cbn; [|done|by rewrite Hb]. unfold previous_epoch. destruct (Z.leb_spec 1 (fs_current_epoch s)); [done|lia].
Qed.

(** C38: Two epochs in a row with two thirds of the votes finalize the first of them.
    From any reachable state of an epoch [E] after the first two, if at the end of [E]
    and of [E + 1] two thirds of the active balance voted for the epoch just ending,
    no balance overflows and the block roots are at hand, then both transitions
    succeed and [E] is finalized, whatever happened before. *)
Theorem two_supermajorities_finalize root s h v1 v2 :
  reach root s h -> 2 <= fs_current_epoch s -> fs_current_epoch s + 4 <= U64_MAX ->
  votes_ok (fs_current_epoch s) v1 -> votes_ok (fs_current_epoch s + 1) v2 ->
  2 * ev_total_active_balance v1 <= 3 * ev_current_target_balance v1 ->
  2 * ev_total_active_balance v2 <= 3 * ev_current_target_balance v2 ->
  exists s1 s2, end_epoch s v1 = Ok s1 /\ end_epoch s1 v2 = Ok s2
    /\ cp_epoch (finalized_checkpoint s2) = fs_current_epoch s.
Proof.
  intros Hi%reach_inv Hge Hmax V1 V2 T1 T2.
  assert (forall v, 2 * ev_total_active_balance v <= 3 * ev_current_target_balance v ->
    two_thirds (ev_current_target_balance v) (ev_total_active_balance v) = true) as Htt by (intros v; apply Z.leb_le).
  destruct (end_epoch_runs s h v1 Hi Hge ltac:(lia) V1) as [s1 E1]. exists s1.
  destruct (finality_step s v1 s1 h Hi E1) as [Hi1 _].
  pose proof Hi as [(b0 & b1 & b2 & b3 & Hb & _) _ _ _].
  destruct (end_epoch_cases s v1 s1 _ _ _ _ Hb E1) as [He1 [[Hle _]|[_ (st1 & (Wb & _ & Wc & _) & _ & Ec & _ & Eb)]]]; [lia|].
  rewrite Htt in Wb, Wc by done. rewrite <- Eb in Wb. rewrite <- Ec in Wc. cbn [JF_new jf_current_epoch] in Wc.
  destruct (end_epoch_runs s1 _ v2 Hi1) as [s2 E2]; [lia|lia|by rewrite He1|]. exists s2. split_and!; [done|done|].
  destruct (end_epoch_cases s1 v2 s2 _ _ _ _ Wb E2) as [_ [[Hle _]|[_ (st2 & (_ & _ & _ & Wf) & _ & _ & Ef & _)]]]; [lia|].
  rewrite Htt in Wf by done. rewrite Ef, Wf. cbn [JF_new jf_current_justified_checkpoint jf_current_epoch].
  rewrite He1, Wc, orb_true_r, Z.eqb_refl. done.
Qed.
