(* ===== verification/MerkleProof.v ===== *)
(** * Merkle trees and proofs

    The crate merkle_proof
    (src/ethereum-topostake/lighthouse/consensus/merkle_proof/src/lib.rs): the
    right-sparse Merkle tree of fixed depth, with which the client proves that a
    field belongs to a block body and keeps the deposit tree, and the deposit tree
    itself (state_processing/src/common/deposit_data_tree.rs).

    [EthHash] is SHA-256; [hash32_concat] and the zero hashes are those of the crate
    ethereum_hashing.  Depths are at most [MAX_TREE_DEPTH], so that no shift
    overflows.  Printing a tree is left out. *)

From S2P Require Export Shuffle.
Local Open Scope rust_scope.

Definition MAX_TREE_DEPTH : nat := 32.

Inductive MerkleTree :=
  | Finalized (hash : bytes)
  | Leaf (hash : bytes)
  | Node (hash : bytes) (l r : MerkleTree)
  | Zero (depth : nat).

Inductive InvalidSnapshot := EmptyBranchWithNonZeroDeposits (count : nat) | EndOfTree.

Inductive MerkleTreeError :=
  | LeafReached
  | NonLeafProof
  | MerkleTreeFull
  | InvalidTree
  | DepthTooSmall
  | MerkleArithError
  | ZeroNodeFinalized
  | FinalizedNodePushed
  | InvalidSnapshotError (e : InvalidSnapshot)
  | ProofEncounteredFinalizedNode
  | PleaseNotifyTheDevs.

Section merkle.
Context `{EthHash}.
Implicit Types (t : MerkleTree) (leaves proof branch : list bytes).

Definition hash32_concat (a b : bytes) : bytes := eth_hash (a ++ b).

(** [ZERO_HASHES]. *)
Fixpoint zero_hash (depth : nat) : bytes :=
  match depth with
  | O => replicate 32 Byte.x00
  | S depth => hash32_concat (zero_hash depth) (zero_hash depth)
  end.

Definition tree_hash t : bytes :=
  match t with
  | Finalized h | Leaf h | Node h _ _ => h
  | Zero depth => zero_hash depth
  end.

Definition node (l r : MerkleTree) : MerkleTree := Node (hash32_concat (tree_hash l) (tree_hash r)) l r.

Fixpoint create (depth : nat) leaves : MerkleTree :=
  match leaves with
  | [] => Zero depth
  | leaf :: _ =>
      match depth with
      | O => Leaf leaf
      | S depth =>
          let subtree_capacity := 2 ^ depth in
          let '(left_leaves, right_leaves) :=
            if Nat.leb (length leaves) subtree_capacity then (leaves, [])
            else (take subtree_capacity leaves, drop subtree_capacity leaves) in
          node (create depth left_leaves) (create depth right_leaves)
      end
  end.

Fixpoint push_leaf t (elem : bytes) (depth : nat) : Result MerkleTree MerkleTreeError :=
  match depth with
  | O => Err DepthTooSmall
  | S d =>
      match t with
      | Leaf _ => Err LeafReached
      | Zero _ => Ok (create depth [elem])
      | Finalized _ => Err FinalizedNodePushed
      | Node _ l r =>
          match l, r with
          | Leaf _, Leaf _ | Finalized _, Leaf _ => Err MerkleTreeFull
          | Node _ _ _, Node _ _ _ | Finalized _, Node _ _ _ =>
              let? r := push_leaf r elem d in Ok (node l r)
          | Zero _, Zero _ => Ok (node (create d [elem]) r)
          | Leaf _, Zero _ | Finalized _, Zero _ => Ok (node l (create d [elem]))
          | Node _ _ _, Zero _ =>
              match push_leaf l elem d with
              | Ok l => Ok (node l r)
              | Err MerkleTreeFull => Ok (node l (create d [elem]))
              | Err e => Err e
              end
          | _, _ => Err InvalidTree
          end
      end
  end.

Definition left_and_right_branches t : option (MerkleTree * MerkleTree) :=
  match t with
  | Finalized _ | Leaf _ | Zero O => None
  | Node _ l r => Some (l, r)
  | Zero (S depth) => Some (Zero depth, Zero depth)
  end.

Definition is_leaf t : bool := match t with Leaf _ => true | _ => false end.

(** The tree afterwards, also when an error stops it half way. *)
Fixpoint finalize_deposits t (deposits_to_finalize level : nat) : MerkleTree * Result unit MerkleTreeError :=
  match t with
  | Finalized _ => (t, Ok ())
  | Zero _ => (t, Err ZeroNodeFinalized)
  | Leaf hash => if Nat.eqb level 0 then (Finalized hash, Ok ()) else (t, Err PleaseNotifyTheDevs)
  | Node hash l r =>
      match level with
      | O => (t, Err PleaseNotifyTheDevs)
      | S level =>
          let deposits := 2 * 2 ^ level in
          if Nat.leb deposits deposits_to_finalize then (Finalized hash, Ok ()) else
          let '(l, result) := finalize_deposits l deposits_to_finalize level in
          match result with
          | Err e => (Node hash l r, Err e)
          | Ok _ =>
              if Nat.ltb (deposits / 2) deposits_to_finalize then
                let '(r, result) := finalize_deposits r (deposits_to_finalize - deposits / 2) level in
                (Node hash l r, result)
              else (Node hash l r, Ok ())
          end
      end
  end.

Fixpoint get_finalized_hashes t : list bytes :=
  match t with
  | Zero _ | Leaf _ => []
  | Finalized h => [h]
  | Node _ l r => get_finalized_hashes l ++ get_finalized_hashes r
  end.

Fixpoint from_finalized_snapshot (level : nat) (finalized_branch : list bytes) (deposit_count : nat)
    : Result MerkleTree MerkleTreeError :=
  match finalized_branch with
  | [] =>
      if Nat.eqb deposit_count 0 then Ok (Zero level)
      else Err (InvalidSnapshotError (EmptyBranchWithNonZeroDeposits deposit_count))
  | first :: rest =>
      if Nat.eqb deposit_count (2 ^ level) then Ok (Finalized first) else
      match level with
      | O => Err (InvalidSnapshotError EndOfTree)
      | S level =>
          if Nat.leb (2 ^ level) deposit_count then
            let? r := from_finalized_snapshot level rest (deposit_count - 2 ^ level) in
            Ok (node (Finalized first) r)
          else
            let? l := from_finalized_snapshot level finalized_branch deposit_count in
            Ok (node l (Zero level))
      end
  end.

(** [(index >> i) & 0x01 == 1]. *)
Definition ith_bit (index i : nat) : bool := Nat.eqb (Nat.land (Nat.shiftr index i) 1) 1.

(** The descent of [generate_proof]: the node at the bottom and the proof, bottom
    first.  [unwrap] panics where a node has no children. *)
Fixpoint descend t (index current_depth : nat) proof : Outcome (Result (MerkleTree * list bytes) MerkleTreeError) :=
  match current_depth with
  | O => Ret (Ok (t, proof))
  | S d =>
      match t with
      | Finalized _ => Ret (Err ProofEncounteredFinalizedNode)
      | _ =>
          match left_and_right_branches t with
          | None => Panic
          | Some (l, r) =>
              if ith_bit index d then descend r index d (tree_hash l :: proof)
              else descend l index d (tree_hash r :: proof)
          end
      end
  end.

Definition generate_proof t (index depth : nat) : Outcome (Result (bytes * list bytes) MerkleTreeError) :=
  let! bottom := descend t index depth [] in
  Ret (let? bottom := bottom in
       let '(current_node, proof) := bottom in
       if negb (Nat.eqb (length proof) depth) then Err PleaseNotifyTheDevs else
       if negb (is_leaf current_node) then Err NonLeafProof else
       Ok (tree_hash current_node, proof)).

Definition mix_branch (index : nat) (acc : nat * bytes) (branch_node : bytes) : nat * bytes :=
  let '(i, merkle_root) := acc in
  (S i, if ith_bit index i then hash32_concat branch_node merkle_root else hash32_concat merkle_root branch_node).

Definition merkle_root_from_branch (leaf : bytes) branch (depth index : nat) : Outcome bytes :=
  if negb (Nat.eqb (length branch) depth) then Panic
  else Ret (fold_left (mix_branch index) (take depth branch) (0, leaf)).2.

Definition verify_merkle_proof (leaf : bytes) branch (depth index : nat) (root : bytes) : bool :=
  if Nat.eqb (length branch) depth then
    match merkle_root_from_branch leaf branch depth index with
    | Ret computed => bool_decide (computed = root)
    | Panic => false
    end
  else false.

End merkle.
