(* ===== verification/MerkleFacts.v ===== *)
(** * Properties of Merkle trees

    The tree refines the list of its leaves: its hash is the Merkle root of the
    list, pushing a leaf appends to the list and fails exactly when the tree is full,
    and finalizing and snapshots keep the leaves.  Generated proofs verify, and a proof
    that verifies for a root proves the leaf of the list, up to hash collisions. *)

From S2P Require Export HashChain MerkleProof.
Local Open Scope rust_scope.

Section facts.
Context `{EthHash}.
Implicit Types (t : MerkleTree) (leaves : list bytes).

(** ** The list of leaves *)

(** The Merkle root of a list, padded with zero leaves. *)
Fixpoint root (depth : nat) leaves : bytes :=
  match depth with
  | O => default (zero_hash 0) (leaves !! 0)
  | S d => hash32_concat (root d (take (2 ^ d) leaves)) (root d (drop (2 ^ d) leaves))
  end.

Lemma root_nil d : root d [] = zero_hash d.
Proof. induction d as [|d IH]; [done|]. simpl. by rewrite take_nil, drop_nil, IH. Qed.

Definition unfinalized t : Prop := match t with Finalized _ => False | _ => True end.

(** A tree of depth [d] represents [leaves]: filled from the left, hashes right. *)
Inductive represents : nat -> list bytes -> MerkleTree -> Prop :=
  | rep_zero d : represents d [] (Zero d)
  | rep_leaf x : represents 0 [x] (Leaf x)
  | rep_finalized d l : length l = 2 ^ d -> represents d l (Finalized (root d l))
  | rep_node d l1 l2 t1 t2 :
      represents d l1 t1 -> represents d l2 t2 -> l1 <> [] -> l2 = [] \/ length l1 = 2 ^ d -> unfinalized t2 ->
      represents (S d) (l1 ++ l2) (node t1 t2).

Lemma pow2_pos d : 0 < 2 ^ d.
Proof. induction d; simpl; lia. Qed.

Lemma represents_length d l t : represents d l t -> length l <= 2 ^ d.
Proof.
  induction 1 as [d|x|d l Hl|d l1 l2 t1 t2 _ IH1 _ IH2 _ _ _]; simpl; try lia.
  rewrite length_app. lia.
Qed.

Lemma represents_split d (l1 l2 : list bytes) : length l1 <= 2 ^ d -> l2 = [] \/ length l1 = 2 ^ d ->
  take (2 ^ d) (l1 ++ l2) = l1 /\ drop (2 ^ d) (l1 ++ l2) = l2.
Proof.
  intros Hl [->|E].
  - rewrite app_nil_r, take_ge, drop_ge by lia. done.
  - by rewrite <- E, take_app_length, drop_app_length.
Qed.

Lemma represents_hash d l t : represents d l t -> tree_hash t = root d l.
Proof.
  induction 1 as [d|x|d l Hl|d l1 l2 t1 t2 H1 IH1 H2 IH2 _ Hf _]; simpl; [by rewrite root_nil|done|done|].
  destruct (represents_split d l1 l2 (represents_length _ _ _ H1) Hf) as [-> ->]. by rewrite IH1, IH2.
Qed.

Lemma create_unfinalized d l : unfinalized (create d l).
Proof. destruct l as [|x l], d as [|d]; try done. cbn [create]. by destruct (Nat.leb _ _). Qed.

Lemma create_represents d : forall leaves, length leaves <= 2 ^ d -> represents d leaves (create d leaves).
Proof.
  induction d as [|d IH]; intros [|x leaves] Hl; try constructor.
  - destruct leaves; simpl in *; [constructor|lia].
  - cbn [create]. destruct (Nat.leb_spec (length (x :: leaves)) (2 ^ d)) as [Hle|Hgt].
    + rewrite <- (app_nil_r (x :: leaves)) at 1. constructor; auto using create_unfinalized.
      apply IH. simpl. lia.
    + rewrite <- (take_drop (2 ^ d) (x :: leaves)) at 1.
      assert (length (take (2 ^ d) (x :: leaves)) = 2 ^ d) as Et by (rewrite length_take; lia).
      constructor; auto using create_unfinalized.
      * apply IH. lia.
      * apply IH. rewrite length_drop. simpl in *. lia.
      * intros E. rewrite E in Et. pose proof (pow2_pos d). simpl in Et. lia.
Qed.

(** ** Pushing *)

Lemma represents_nil d t : represents d [] t -> t = Zero d.
Proof.
  inversion 1 as [| |d' l Hl|d' l1 l2 t1 t2 H1 H2 Hne _ _ E]; subst; [done| |].
  - pose proof (pow2_pos d). simpl in *. lia.
  - by destruct l1.
Qed.

(** The shape of a tree tells about its leaves. *)
Lemma represents_shape d l t : represents d l t ->
  match t with
  | Zero k => l = [] /\ k = d
  | Leaf h => d = 0 /\ l = [h]
  | Finalized h => length l = 2 ^ d
  | Node _ _ _ => 0 < d /\ l <> []
  end.
Proof.
  destruct 1 as [d|x|d l Hl|d l1 l2 t1 t2 H1 H2 Hne _ _]; simpl; [done..|]. split; [lia|by destruct l1].
Qed.

Definition pushed d l (x : bytes) (result : Result MerkleTree MerkleTreeError) : Prop :=
  if decide (length l = 2 ^ d) then result = Err MerkleTreeFull
  else exists t', result = Ok t' /\ represents d (l ++ [x]) t' /\ unfinalized t'.

Lemma create_one d x : represents d [x] (create d [x]).
Proof. apply create_represents. pose proof (pow2_pos d). simpl. lia. Qed.

(** A push into the right half, which fails only when it is full. *)
Lemma pushed_right d l1 l2 t1 x result : represents d l1 t1 -> length l1 = 2 ^ d -> pushed d l2 x result ->
  pushed (S d) (l1 ++ l2) x (let? r := result in Ok (node t1 r)).
Proof.
  intros H1 E1 Hp. unfold pushed in *. rewrite length_app, E1. cbn [Nat.pow].
  destruct (decide (length l2 = 2 ^ d)) as [Hf|Hf].
  - rewrite decide_True by lia. by rewrite Hp.
  - rewrite decide_False by lia. destruct Hp as (t' & -> & Hr & Hu). exists (node t1 t'). split; [done|].
    split; [|done]. rewrite <- app_assoc. constructor; auto. intros ->. pose proof (pow2_pos d). simpl in *. lia.
Qed.

(** A push that opens the right half. *)
Lemma pushed_open d l1 t1 x : represents d l1 t1 -> length l1 = 2 ^ d ->
  pushed (S d) (l1 ++ []) x (Ok (node t1 (create d [x]))).
Proof.
  intros H1 E1. pose proof (pow2_pos d). unfold pushed. rewrite app_nil_r, decide_False by (simpl; lia).
  eexists. split; [done|]. split; [|done]. constructor; auto using create_one, create_unfinalized.
  intros ->. simpl in *. lia.
Qed.

(** Pushing a leaf appends it; a full tree, and nothing else, is refused. *)
Lemma push_represents d l t x : represents d l t -> 0 < d -> unfinalized t -> pushed d l x (push_leaf t x d).
Proof.
  induction 1 as [d|y|d l Hl|d l1 l2 t1 t2 H1 IH1 H2 IH2 Hne Hf Hu2]; intros Hd Hu; [|lia|done|].
  - destruct d as [|d]; [lia|]. unfold pushed. rewrite decide_False by (simpl; pose proof (pow2_pos d); lia).
    exists (create (S d) [x]). split; [done|]. split; [apply create_one|apply create_unfinalized].
  - pose proof (represents_shape _ _ _ H1) as S1. pose proof (represents_shape _ _ _ H2) as S2.
    cbn [push_leaf node]. fold (node t1 t2).
    assert (l2 <> [] -> length l1 = 2 ^ d) as Hfull by (by destruct Hf).
    destruct t1 as [h1|h1|h1 a1 b1|k1], t2 as [h2|h2|h2 a2 b2|k2]; try done;
      try (by destruct S1; subst); try (destruct S1, S2; lia).
    + destruct S2 as [-> ->]. unfold pushed. rewrite decide_True; [done|]. rewrite length_app, S1. done.
    + destruct S2 as [Hd' Hne2]. apply pushed_right; auto.
    + destruct S2 as [-> ->]. by apply pushed_open.
    + destruct S1 as [-> ->], S2 as [_ ->]. unfold pushed. by rewrite decide_True.
    + destruct S1 as [-> ->], S2 as [-> ->]. by apply (pushed_open 0 [h1]).
    + destruct S2 as [Hd' Hne2]. apply pushed_right; auto.
    + destruct S2 as [-> ->]. destruct S1 as [Hd' _]. specialize (IH1 Hd' I). unfold pushed in IH1.
      case_decide as Hl.
      * rewrite IH1. by apply pushed_open.
      * destruct IH1 as (t' & -> & Hr & Hu'). unfold pushed. rewrite app_nil_r.
        pose proof (represents_length _ _ _ H1). rewrite decide_False by (simpl; lia).
        exists (node t' (Zero d)). split; [done|]. split; [|done].
        rewrite <- (app_nil_r (l1 ++ [x])). constructor; auto using rep_zero; by destruct l1.
Qed.

(** ** Finalizing and snapshots *)

Lemma two_halves d : 2 * 2 ^ d / 2 = 2 ^ d.
Proof. rewrite Nat.mul_comm. apply Nat.div_mul. lia. Qed.

(** The hashes of the subtrees that are full with the first [n] leaves. *)
Fixpoint finalized_hashes (d : nat) leaves (n : nat) : list bytes :=
  if Nat.eqb n 0 then [] else
  if Nat.leb (2 ^ d) n then [root d leaves] else
  match d with
  | O => []
  | S d => finalized_hashes d (take (2 ^ d) leaves) n ++ finalized_hashes d (drop (2 ^ d) leaves) (n - 2 ^ d)
  end.

Lemma finalized_hashes_0 d l : finalized_hashes d l 0 = [].
Proof. by destruct d. Qed.

Lemma finalized_hashes_full d l n : 2 ^ d <= n -> finalized_hashes d l n = [root d l].
Proof.
  intros Hn. pose proof (pow2_pos d). destruct d as [|d]; cbn [finalized_hashes];
    (destruct (Nat.eqb_spec n 0); [lia|]); rewrite (proj2 (Nat.leb_le _ _) Hn); done.
Qed.

(** Finalizing keeps the leaves, and with them the root. *)
Lemma finalize_represents d l t : represents d l t -> forall n, 0 < n -> n <= length l \/ length l = 2 ^ d ->
  exists t', finalize_deposits t n d = (t', Ok ()) /\ represents d l t'
    /\ (n < 2 ^ d -> unfinalized t -> unfinalized t')
    /\ (get_finalized_hashes t = [] -> get_finalized_hashes t' = finalized_hashes d l n).
Proof.
  induction 1 as [d|x|d l Hl|d l1 l2 t1 t2 H1 IH1 H2 IH2 Hne Hf Hu2]; intros n Hpos Hn.
  - pose proof (pow2_pos d). simpl in Hn. lia.
  - exists (Finalized x). simpl in *. split_and!; [done| |lia|].
    + by apply (rep_finalized 0 [x]).
    + intros _. by destruct n as [|n]; [lia|].
  - eexists. split_and!; [done|by constructor|done|done].
  - pose proof (represents_length _ _ _ H1) as L1. pose proof (represents_length _ _ _ H2) as L2.
    destruct (represents_split d l1 l2 L1 Hf) as [Et Ed].
    assert (represents (S d) (l1 ++ l2) (node t1 t2)) as Hnode by (by constructor).
    cbn [finalize_deposits node]. rewrite two_halves. rewrite length_app in Hn.
    assert (2 ^ S d = 2 * 2 ^ d) as Epow by done.
    cbn [finalized_hashes]. rewrite Epow in *. destruct (Nat.eqb_spec n 0); [lia|]. rewrite Et, Ed.
    destruct (Nat.leb_spec (2 * 2 ^ d) n) as [Hall|Hpart].
    { eexists. split; [done|]. change (hash32_concat (tree_hash t1) (tree_hash t2)) with (tree_hash (node t1 t2)).
      rewrite (represents_hash _ _ _ Hnode). split_and!; [|lia|done].
      apply rep_finalized. rewrite length_app, Epow. lia. }
    assert (forall t1' t2', represents d l1 t1' -> represents d l2 t2' ->
      Node (hash32_concat (tree_hash t1) (tree_hash t2)) t1' t2' = node t1' t2') as Hsame.
    { intros t1' t2' R1 R2. unfold node. by rewrite (represents_hash _ _ _ H1), (represents_hash _ _ _ H2),
        (represents_hash _ _ _ R1), (represents_hash _ _ _ R2). }
    assert (l2 = [] \/ length l1 = 2 ^ d /\ 0 < length l2) as Hf2.
    { destruct l2; [by left|]. right. destruct Hf; [done|]. simpl. lia. }
    destruct (IH1 n Hpos) as (t1' & E1 & R1 & _ & G1).
    { destruct Hf2 as [->|[? ?]]; simpl in *; lia. }
    rewrite E1. destruct (Nat.ltb_spec (2 ^ d) n) as [Hr|Hr].
    + destruct (IH2 (n - 2 ^ d)) as (t2' & E2 & R2 & U2 & G2); [lia|destruct Hf2 as [->|[? ?]]; simpl in *; lia|].
      rewrite E2. exists (node t1' t2'). rewrite Hsame by done. split_and!; [done|constructor; auto; apply U2; [lia|done]|done|].
      cbn [get_finalized_hashes node]. intros [Z1 Z2]%app_eq_nil. rewrite G1, G2 by done. done.
    + exists (node t1' t2). rewrite Hsame by done. split_and!; [done|by constructor|done|].
      cbn [get_finalized_hashes node]. intros [Z1 Z2]%app_eq_nil. rewrite G1, Z2 by done.
      replace (n - 2 ^ d) with 0 by lia. by rewrite finalized_hashes_0.
Qed.

Lemma finalized_hashes_nonempty d : forall l n, 0 < n -> finalized_hashes d l n <> [].
Proof.
  induction d as [|d IH]; intros l n Hn; cbn [finalized_hashes]; (destruct (Nat.eqb_spec n 0); [lia|]).
  - destruct (Nat.leb_spec (2 ^ 0) n); [done|]. simpl in *. lia.
  - destruct (Nat.leb _ _); [done|]. intros [E _]%app_eq_nil. by apply IH in E.
Qed.

(** A snapshot rebuilds the tree of the finalized leaves. *)
Lemma snapshot_represents d : forall l n, n <= length l -> length l <= 2 ^ d ->
  exists t, from_finalized_snapshot d (finalized_hashes d l n) n = Ok t /\ represents d (take n l) t
    /\ (n < 2 ^ d -> unfinalized t).
Proof.
  induction d as [|d IH]; intros l n Hn Hl; cbn [finalized_hashes].
  - destruct (Nat.eqb_spec n 0) as [->|]; [exists (Zero 0); split_and!; [done|constructor|done]|].
    assert (n = 1) as -> by (simpl in *; lia). destruct l as [|x [|y l]]; simpl in *; try lia.
    eexists. split_and!; [done|by apply (rep_finalized 0 [x])|lia].
  - destruct (Nat.eqb_spec n 0) as [->|Hne]; [exists (Zero (S d)); split_and!; [done|constructor|done]|].
    assert (2 ^ S d = 2 * 2 ^ d) as Epow by done.
    destruct (Nat.leb_spec (2 ^ S d) n) as [Hall|Hpart].
    { assert (n = 2 ^ S d) as -> by lia. cbn [from_finalized_snapshot]. rewrite Nat.eqb_refl.
      eexists. split_and!; [done| |lia]. rewrite take_ge by lia. apply rep_finalized. lia. }
    destruct (Nat.leb_spec (2 ^ d) n) as [Hr|Hr].
    + rewrite (finalized_hashes_full d (take (2 ^ d) l) n) by done.
      cbn [app from_finalized_snapshot]. destruct (Nat.eqb_spec n (2 ^ S d)); [lia|].
      destruct (Nat.leb_spec (2 ^ d) n); [|lia].
      destruct (IH (drop (2 ^ d) l) (n - 2 ^ d)) as (r & -> & Rr & Ur); [rewrite length_drop; lia..|].
      eexists. split; [done|]. split; [|done]. replace n with (2 ^ d + (n - 2 ^ d)) at 1 by lia.
      rewrite <- (take_drop (2 ^ d) l) at 1. rewrite take_app_add'; [|rewrite length_take; lia].
      assert (length (take (2 ^ d) l) = 2 ^ d) as Et by (rewrite length_take; lia).
      constructor; [by constructor|done| |by right|apply Ur; lia].
      intros E. rewrite E in Et. pose proof (pow2_pos d). simpl in Et. lia.
    + replace (n - 2 ^ d) with 0 by lia. rewrite finalized_hashes_0, app_nil_r.
      destruct (IH (take (2 ^ d) l) n) as (t & E & R & _); [rewrite length_take; lia..|].
      pose proof (finalized_hashes_nonempty d (take (2 ^ d) l) n ltac:(lia)) as Hh.
      destruct (finalized_hashes d (take (2 ^ d) l) n) as [|h hs]; [done|]. cbn [from_finalized_snapshot].
      destruct (Nat.eqb_spec n (2 ^ S d)); [lia|]. destruct (Nat.leb_spec (2 ^ d) n); [lia|]. rewrite E.
      eexists. split; [done|]. split; [|done]. rewrite take_take, Nat.min_l in R by lia.
      rewrite <- (app_nil_r (take n l)). constructor; [done|constructor| |by left|done].
      intros E0. apply (f_equal length) in E0. rewrite length_take in E0. simpl in E0. lia.
Qed.

Fixpoint push_all t (elems : list bytes) (depth : nat) : Result MerkleTree MerkleTreeError :=
  match elems with
  | [] => Ok t
  | x :: elems => let? next := push_leaf t x depth in push_all next elems depth
  end.

Lemma push_all_represents d elems : 0 < d -> forall l t, represents d l t -> length l + length elems <= 2 ^ d ->
  elems = [] \/ unfinalized t -> exists t', push_all t elems d = Ok t' /\ represents d (l ++ elems) t'.
Proof.
  intros Hd. induction elems as [|x elems IH]; intros l t Hr Hl Hu; [exists t; by rewrite app_nil_r|].
  destruct Hu as [|Hu]; [done|]. pose proof (push_represents d l t x Hr Hd Hu) as Hp. unfold pushed in Hp.
  simpl in Hl. rewrite decide_False in Hp by lia. destruct Hp as (t1 & E1 & R1 & U1). cbn [push_all]. rewrite E1.
  destruct (IH _ _ R1) as (t' & E' & R'); [rewrite length_app; simpl; lia|by right|]. exists t'.
  split; [done|]. by rewrite <- app_assoc in R'.
Qed.

Lemma create_no_finalized d l : get_finalized_hashes (create d l) = [].
Proof.
  revert l. induction d as [|d IH]; intros [|x l]; try done. cbn [create].
  destruct (Nat.leb _ _); cbn [get_finalized_hashes node]; by rewrite !IH.
Qed.

(** Pushing a leaf into a Merkle tree is appending to the list of its leaves: the
    tree of a list that has room becomes a tree with the hash of the longer list, and
    a full tree is refused with [MerkleTreeFull]. *)
Theorem push_leaf_appends (d : nat) leaves (x : bytes) : 0 < d -> length leaves <= 2 ^ d ->
  if decide (length leaves = 2 ^ d) then push_leaf (create d leaves) x d = Err MerkleTreeFull
  else exists t, push_leaf (create d leaves) x d = Ok t /\ tree_hash t = tree_hash (create d (leaves ++ [x])).
Proof.
  intros Hd Hl. pose proof (push_represents d leaves (create d leaves) x (create_represents d leaves Hl) Hd
    (create_unfinalized d leaves)) as Hp. unfold pushed in Hp.
  destruct (decide (length leaves = 2 ^ d)) as [|Hne]; [done|].
  destruct Hp as (t & E & R & _). exists t. split; [done|]. rewrite (represents_hash _ _ _ R). symmetry.
  apply represents_hash, create_represents. rewrite length_app. simpl. lia.
Qed.

(** ** Proofs *)

Lemma ith_bit_mod i d : i mod 2 ^ S d = if ith_bit i d then 2 ^ d + i mod 2 ^ d else i mod 2 ^ d.
Proof.
  unfold ith_bit. rewrite Nat.shiftr_div_pow2.
  assert (Nat.land (i / 2 ^ d) 1 = (i / 2 ^ d) mod 2) as -> by exact (Nat.land_ones _ 1). change (2 ^ S d) with (2 * 2 ^ d). rewrite Nat.mul_comm.
  rewrite Nat.Div0.mod_mul_r. pose proof (Nat.mod_upper_bound (i / 2 ^ d) 2 ltac:(lia)).
  destruct (Nat.eqb_spec ((i / 2 ^ d) mod 2) 1) as [->|Hne]; [lia|].
  replace ((i / 2 ^ d) mod 2) with 0 by lia. lia.
Qed.

(** The half of the leaves that the bit selects. *)
Definition half (i d : nat) leaves : list bytes := if ith_bit i d then drop (2 ^ d) leaves else take (2 ^ d) leaves.
Definition other_half (i d : nat) leaves : list bytes := if ith_bit i d then take (2 ^ d) leaves else drop (2 ^ d) leaves.

Lemma half_lookup i d leaves : half i d leaves !! (i mod 2 ^ d) = leaves !! (i mod 2 ^ S d).
Proof.
  unfold half. rewrite ith_bit_mod. pose proof (Nat.mod_upper_bound i (2 ^ d)). pose proof (pow2_pos d).
  destruct (ith_bit i d); [by rewrite lookup_drop|apply lookup_take_lt; lia].
Qed.

(** The siblings on the way up from position [i]. *)
Fixpoint branch (d : nat) leaves (i : nat) : list bytes :=
  match d with
  | O => []
  | S d => branch d (half i d leaves) i ++ [root d (other_half i d leaves)]
  end.

Lemma branch_length d : forall leaves i, length (branch d leaves i) = d.
Proof. induction d as [|d IH]; intros leaves i; [done|]. cbn [branch]. rewrite length_app, IH. simpl. lia. Qed.

Definition leaf_at leaves (i : nat) : bytes := default (zero_hash 0) (leaves !! i).

Lemma branch_root d : forall leaves i,
  fold_left (mix_branch i) (branch d leaves i) (0, leaf_at leaves (i mod 2 ^ d)) = (d, root d leaves).
Proof.
  induction d as [|d IH]; intros leaves i.
  - change (2 ^ 0) with 1. by rewrite Nat.mod_1_r.
  - cbn [branch root]. rewrite fold_left_app. unfold leaf_at. rewrite <- half_lookup. fold (leaf_at (half i d leaves) (i mod 2 ^ d)).
    rewrite IH. simpl. unfold half, other_half. by destruct (ith_bit i d).
Qed.

Lemma descend_represents d : forall l t i proof, represents d l t -> get_finalized_hashes t = [] ->
  descend t i d proof
  = Ret (Ok (match l !! (i mod 2 ^ d) with Some x => Leaf x | None => Zero 0 end, branch d l i ++ proof)).
Proof.
  induction d as [|d IH]; intros l t i proof Hr Hg.
  - rewrite Nat.mod_1_r. inversion Hr; subst; done.
  - assert (exists t1 t2, (match t with Finalized _ => false | _ => true end) = true
      /\ left_and_right_branches t = Some (t1, t2)
      /\ represents d (take (2 ^ d) l) t1 /\ represents d (drop (2 ^ d) l) t2
      /\ get_finalized_hashes t1 = [] /\ get_finalized_hashes t2 = []) as (t1 & t2 & Hf & Hb & R1 & R2 & G1 & G2).
    { inversion Hr as [| | |d' l1 l2 t1 t2 H1 H2 Hne Hfull Hu]; subst; [|done|].
      - exists (Zero d), (Zero d). rewrite take_nil, drop_nil. split_and!; try done; constructor.
      - destruct (represents_split d l1 l2 (represents_length _ _ _ H1) Hfull) as [-> ->].
        apply app_eq_nil in Hg as [G1 G2]. exists t1, t2. done. }
    cbn [descend branch]. rewrite <- half_lookup. unfold half, other_half. rewrite <- !(assoc_L (++)). rewrite Hb. rewrite (represents_hash _ _ _ R1), (represents_hash _ _ _ R2).
    destruct (ith_bit i d); [rewrite (IH _ _ i _ R2 G2)|rewrite (IH _ _ i _ R1 G1)]; by destruct t.
Qed.

Lemma generate_eq d i leaves : length leaves <= 2 ^ d -> i < 2 ^ d ->
  generate_proof (create d leaves) i d
  = Ret (match leaves !! i with Some x => Ok (x, branch d leaves i) | None => Err NonLeafProof end).
Proof.
  intros Hl Hi. unfold generate_proof.
  rewrite (descend_represents d leaves _ i [] (create_represents d leaves Hl) (create_no_finalized d leaves)). simpl.
  rewrite Nat.mod_small, app_nil_r, branch_length, Nat.eqb_refl by done. simpl. by destruct (leaves !! i).
Qed.

Lemma branch_verifies d i leaves x : length leaves <= 2 ^ d -> i < 2 ^ d -> leaves !! i = Some x ->
  verify_merkle_proof x (branch d leaves i) d i (tree_hash (create d leaves)) = true.
Proof.
  intros Hl Hi Ex. unfold verify_merkle_proof, merkle_root_from_branch. rewrite branch_length, Nat.eqb_refl. simpl.
  rewrite take_ge by (by rewrite branch_length). apply bool_decide_eq_true.
  pose proof (branch_root d leaves i) as Hb. rewrite Nat.mod_small in Hb by done. unfold leaf_at in Hb.
  rewrite Ex in Hb. simpl in Hb. rewrite Hb, (represents_hash _ _ _ (create_represents d leaves Hl)). done.
Qed.

(** Generated proofs verify.  For every list of leaves and every position of the
    tree, [generate_proof] returns the leaf there with a proof of the tree's depth
    that [verify_merkle_proof] accepts for the tree's root, and refuses a position
    that holds no leaf with [NonLeafProof]. *)
Theorem generated_proof_verifies (d i : nat) leaves : length leaves <= 2 ^ d -> i < 2 ^ d ->
  match leaves !! i with
  | Some x => exists proof, generate_proof (create d leaves) i d = Ret (Ok (x, proof)) /\ length proof = d
                /\ verify_merkle_proof x proof d i (tree_hash (create d leaves)) = true
  | None => generate_proof (create d leaves) i d = Ret (Err NonLeafProof)
  end.
Proof.
  intros Hl Hi. rewrite (generate_eq d i leaves Hl Hi). destruct (leaves !! i) as [x|] eqn:Ex; [|done].
  exists (branch d leaves i). split; [done|]. split; [apply branch_length|by apply branch_verifies].
Qed.

(** ** Proofs bind the leaf *)

(** The strings hashed by a verifier, and those hashed on the way to position [i]. *)
Fixpoint proof_inputs (i k : nat) (acc : bytes) (proof : list bytes) : list bytes :=
  match proof with
  | [] => []
  | s :: proof =>
      let input := if ith_bit i k then s ++ acc else acc ++ s in
      input :: proof_inputs i (S k) (eth_hash input) proof
  end.

Fixpoint path_inputs (d : nat) leaves (i : nat) : list bytes :=
  match d with
  | O => []
  | S d => (root d (take (2 ^ d) leaves) ++ root d (drop (2 ^ d) leaves)) :: path_inputs d (half i d leaves) i
  end.

Lemma mix_fold_index i proof : forall k acc, (fold_left (mix_branch i) proof (k, acc)).1 = k + length proof.
Proof. induction proof as [|s proof IH]; intros k acc; simpl; [lia|]. rewrite IH. lia. Qed.

Lemma proof_inputs_app i proof s : forall k acc,
  proof_inputs i k acc (proof ++ [s])
  = proof_inputs i k acc proof
    ++ [let h := (fold_left (mix_branch i) proof (k, acc)).2 in if ith_bit i (k + length proof) then s ++ h else h ++ s].
Proof.
  induction proof as [|x proof IH]; intros k acc; simpl; [by rewrite Nat.add_0_r|]. rewrite IH. simpl.
  rewrite <- Nat.add_succ_r. unfold hash32_concat. by destruct (ith_bit i k).
Qed.

Definition h256 (b : bytes) : Prop := length b = 32.

Lemma root_h256 d leaves : hash_is_32_bytes -> Forall h256 leaves -> h256 (root d leaves).
Proof.
  intros Hh Hl. destruct d as [|d]; [|apply Hh]. simpl. destruct (leaves !! 0) as [x|] eqn:E; simpl.
  - by eapply Forall_lookup_1.
  - done.
Qed.

Lemma fold_h256 i proof x : hash_is_32_bytes -> h256 x -> h256 (fold_left (mix_branch i) proof (0, x)).2.
Proof.
  intros Hh. generalize 0. revert x. induction proof as [|s proof IH]; intros x k Hx; [done|]. simpl. apply IH.
  unfold hash32_concat. destruct (ith_bit i k); apply Hh.
Qed.

Lemma half_h256 i d leaves : Forall h256 leaves -> Forall h256 (half i d leaves).
Proof. intros Hl. unfold half. destruct (ith_bit i d); [by apply Forall_drop|by apply Forall_take]. Qed.

Lemma proof_binds d : forall leaves i x proof, hash_is_32_bytes -> Forall h256 leaves -> Forall h256 proof -> h256 x ->
  length proof = d -> no_collision eth_hash (proof_inputs i 0 x proof ++ path_inputs d leaves i) ->
  (fold_left (mix_branch i) proof (0, x)).2 = root d leaves -> x = leaf_at leaves (i mod 2 ^ d).
Proof.
  induction d as [|d IH]; intros leaves i x proof Hh Hl Hp Hx Hlen Hcf E.
  { destruct proof; [|done]. change (2 ^ 0) with 1. rewrite Nat.mod_1_r. exact E. }
  destruct (exists_last (l := proof)) as (proof' & s & ->); [by destruct proof|].
  apply Forall_app in Hp as [Hp' [Hs _]%Forall_cons]. rewrite length_app in Hlen. simpl in Hlen.
  assert (length proof' = d) as Hlen' by lia.
  rewrite fold_left_app in E. rewrite proof_inputs_app in Hcf. cbn [path_inputs] in Hcf. cbn [root] in E.
  pose proof (mix_fold_index i proof' 0 x) as Hk. pose proof (fold_h256 i proof' x Hh Hx) as Hh2.
  destruct (fold_left (mix_branch i) proof' (0, x)) as [k h] eqn:Ef. simpl in Hk, Hh2. subst k. cbn [fold_left mix_branch snd] in E, Hcf.
  rewrite Hlen' in E, Hcf. rewrite Nat.add_0_l in Hcf.
  assert (h = root d (half i d leaves)) as Eh.
  { pose proof (root_h256 d _ Hh (Forall_take _ (2 ^ d) _ Hl)) as Ht. pose proof (root_h256 d _ Hh (Forall_drop _ (2 ^ d) _ Hl)) as Hd.
    assert ((if ith_bit i d then s ++ h else h ++ s) = root d (take (2 ^ d) leaves) ++ root d (drop (2 ^ d) leaves)) as Epre.
    { apply Hcf; [set_solver|set_solver|]. unfold hash32_concat in E. by destruct (ith_bit i d). }
    unfold h256 in *. unfold half. destruct (ith_bit i d); apply app_inj_1 in Epre as [? ?]; congruence. }
  unfold leaf_at. rewrite <- half_lookup. apply (IH _ i x proof'); auto using half_h256.
  - eapply no_collision_sub; [|exact Hcf]. set_solver.
  - by rewrite Ef.
Qed.

Lemma verify_binds d i leaves x proof :
  hash_is_32_bytes -> Forall h256 (x :: proof ++ leaves) -> length leaves <= 2 ^ d -> i < 2 ^ d ->
  no_collision eth_hash (proof_inputs i 0 x proof ++ path_inputs d leaves i) ->
  verify_merkle_proof x proof d i (tree_hash (create d leaves)) = true -> x = leaf_at leaves i.
Proof.
  intros Hh [Hx [Hp Hl]%Forall_app]%Forall_cons Hlen Hi Hcf. unfold verify_merkle_proof, merkle_root_from_branch.
  destruct (Nat.eqb_spec (length proof) d) as [E|]; [|done]. cbn [negb]. intros Hv%bool_decide_eq_true.
  rewrite take_ge in Hv by lia. rewrite (represents_hash _ _ _ (create_represents d leaves Hlen)) in Hv.
  pose proof (proof_binds d leaves i x proof Hh Hl Hp Hx E Hcf Hv) as Hr. by rewrite Nat.mod_small in Hr.
Qed.

(** C27: A proof that verifies proves the leaf.  If [verify_merkle_proof] accepts a
    leaf at a position of the tree of a list, then the list has this leaf at that
    position (or the leaf is the zero that pads the list), whatever proof is given,
    as long as no two of the strings hashed on the way collide. *)
Theorem proof_binds_leaf (d i : nat) leaves (x : bytes) (proof : list bytes) :
  hash_is_32_bytes -> Forall h256 (x :: proof ++ leaves) -> length leaves <= 2 ^ d -> i < 2 ^ d ->
  no_collision eth_hash (proof_inputs i 0 x proof ++ path_inputs d leaves i) ->
  verify_merkle_proof x proof d i (tree_hash (create d leaves)) = true ->
  x = default (zero_hash 0) (leaves !! i).
Proof. apply verify_binds. Qed.
End facts.
