(* ===== verification/BodyProof.v ===== *)
(** * Inclusion proofs into a block body

    Proofs that a field belongs to a block body, which data columns, blobs and light
    clients carry
    (src/ethereum-topostake/lighthouse/consensus/types/src/: block/beacon_block_body.rs,
    block/signed_beacon_block.rs, kzg_ext/mod.rs, data/data_column_sidecar.rs,
    data/blob_sidecar.rs).  TopoStake adds two fields to the body; the field indices
    with which proofs are made and checked are those of the body without them.

    A body is given by the tree-hash roots of its fields, in the order of the struct,
    for the forks that have blob commitments. *)

From S2P Require Export MerkleFacts.
Local Open Scope rust_scope.

Record BeaconBlockBody := mkBody {
  randao_reveal : bytes;
  eth1_data : bytes;
  graffiti : bytes;
  topostake_evidence_root : bytes;
  topostake_evidence_records : bytes;
  proposer_slashings : bytes;
  attester_slashings : bytes;
  attestations : bytes;
  deposits : bytes;
  voluntary_exits : bytes;
  sync_aggregate : bytes;
  execution_payload : bytes;
  bls_to_execution_changes : bytes;
  blob_kzg_commitments : bytes;
  (** from Electra on *)
  execution_requests : option bytes
}.

Definition NUM_BEACON_BLOCK_BODY_HASH_TREE_ROOT_LEAVES : nat := 16.
Definition BLOB_KZG_COMMITMENTS_INDEX : nat := 11.
Definition EXECUTION_PAYLOAD_INDEX : nat := 25.
Definition EXECUTION_PAYLOAD_PROOF_LEN : nat := 4.

(** Mainnet, minimal and gnosis alike. *)
Definition KzgCommitmentInclusionProofDepth : nat := 17.
Definition KzgCommitmentsInclusionProofDepth : nat := 4.
Definition max_blob_commitments_per_block : nat := 4096.

(** [next_power_of_two().ilog2()]. *)
Definition tree_depth (n : nat) : nat := Nat.log2_up n.
Definition kzg_commitments_tree_depth : nat := tree_depth max_blob_commitments_per_block + 1.
Definition block_body_tree_depth : nat := KzgCommitmentInclusionProofDepth - kzg_commitments_tree_depth.

Inductive BodyError := MerkleError (e : MerkleTreeError) | SszOutOfBounds | GeneralizedIndexNotSupported (i : nat).

Section body.
Context `{EthHash}.
Implicit Types body : BeaconBlockBody.

Definition body_merkle_leaves body : list bytes :=
  [randao_reveal body; eth1_data body; graffiti body; topostake_evidence_root body; topostake_evidence_records body;
   proposer_slashings body; attester_slashings body; attestations body; deposits body; voluntary_exits body;
   sync_aggregate body; execution_payload body; bls_to_execution_changes body; blob_kzg_commitments body]
  ++ option_list (execution_requests body).

Definition body_tree body : MerkleTree :=
  create (tree_depth (length (body_merkle_leaves body))) (body_merkle_leaves body).
Definition body_root body : bytes := tree_hash (body_tree body).

(** [FixedVector::new]. *)
Definition sized (n : nat) (proof : list bytes) : Result (list bytes) BodyError :=
  if Nat.eqb (length proof) n then Ok proof else Err SszOutOfBounds.

Definition kzg_commitments_merkle_proof body : Outcome (Result (list bytes) BodyError) :=
  let! r := generate_proof (body_tree body) BLOB_KZG_COMMITMENTS_INDEX (tree_depth (length (body_merkle_leaves body))) in
  Ret (match r with
       | Err e => Err (MerkleError e)
       | Ok (_, proof) => sized KzgCommitmentsInclusionProofDepth proof
       end).

(** The body root that the signed header carries and the proof of the commitments. *)
Definition signed_block_header_and_kzg_commitments_proof body : Outcome (Result (bytes * list bytes) BodyError) :=
  let! r := kzg_commitments_merkle_proof body in
  Ret (let? proof := r in Ok (body_root body, proof)).

Definition block_body_merkle_proof body (generalized_index : nat) : Outcome (Result (list bytes) BodyError) :=
  if negb (Nat.eqb generalized_index EXECUTION_PAYLOAD_INDEX)
  then Ret (Err (GeneralizedIndexNotSupported generalized_index)) else
  let field_index := generalized_index - NUM_BEACON_BLOCK_BODY_HASH_TREE_ROOT_LEAVES in
  let depth := EXECUTION_PAYLOAD_PROOF_LEN in
  let! r := generate_proof (create depth (body_merkle_leaves body)) field_index depth in
  Ret (match r with Err e => Err (MerkleError e) | Ok (_, proof) => Ok proof end).

(** [DataColumnSidecar::verify_inclusion_proof], of the root of its commitments. *)
Definition verify_inclusion_proof (commitments_root : bytes) (proof : list bytes) (root : bytes) : bool :=
  verify_merkle_proof commitments_root proof KzgCommitmentsInclusionProofDepth BLOB_KZG_COMMITMENTS_INDEX root.

(** The 32 bytes of a length, little endian. *)
Definition length_root (n : nat) : bytes := to_le_bytes 8 (Z.of_nat n) ++ replicate 24 Byte.x00.

Definition complete_kzg_commitment_merkle_proof (commitments : list bytes) (index : nat) (kzg_commitments_proof : list bytes)
    : Outcome (Result (list bytes) BodyError) :=
  let depth := tree_depth max_blob_commitments_per_block in
  let! r := generate_proof (create depth commitments) index depth in
  Ret (match r with
       | Err e => Err (MerkleError e)
       | Ok (_, proof) =>
           sized KzgCommitmentInclusionProofDepth (proof ++ [length_root (length commitments)] ++ kzg_commitments_proof)
       end).

Definition verify_blob_sidecar_inclusion_proof (commitment : bytes) (index : nat) (proof : list bytes) (root : bytes)
    : Outcome bool :=
  let subtree_proof := take kzg_commitments_tree_depth proof in
  let kzg_commitments_proof := drop kzg_commitments_tree_depth proof in
  let! blob_kzg_commitments_root := merkle_root_from_branch commitment subtree_proof kzg_commitments_tree_depth index in
  Ret (verify_merkle_proof blob_kzg_commitments_root kzg_commitments_proof block_body_tree_depth
         BLOB_KZG_COMMITMENTS_INDEX root).

(** ** What the proofs prove *)

Lemma body_leaves_bounds body :
  14 <= length (body_merkle_leaves body) <= 15 /\ tree_depth (length (body_merkle_leaves body)) = 4.
Proof. unfold body_merkle_leaves. destruct (execution_requests body); simpl; split; (lia || done). Qed.

Lemma body_leaf_11 body : body_merkle_leaves body !! 11 = Some (execution_payload body).
Proof. done. Qed.

Lemma body_leaf_9 body : body_merkle_leaves body !! 9 = Some (voluntary_exits body).
Proof. done. Qed.

(** The roots of all fields are hashes. *)
Definition body_typed body : Prop := Forall h256 (body_merkle_leaves body).

(** C26: No data column of an honest block passes the inclusion check.  A proposer
    gets a proof for the commitments of its block, but the proof, made and checked
    for field 11, is one for the execution payload, which TopoStake's two new fields
    have moved there: it verifies for the payload's root, and neither it nor any
    other proof verifies for the root of the commitments, unless two of the hashed
    strings collide or the two roots are the same. *)
Theorem commitments_proof_rejected body :
  hash_is_32_bytes -> body_typed body -> blob_kzg_commitments body <> execution_payload body ->
  exists proof, kzg_commitments_merkle_proof body = Ret (Ok proof)
    /\ verify_inclusion_proof (execution_payload body) proof (body_root body) = true
    /\ forall proof', Forall h256 proof' ->
         no_collision eth_hash (proof_inputs 11 0 (blob_kzg_commitments body) proof'
                                ++ path_inputs 4 (body_merkle_leaves body) 11) ->
         verify_inclusion_proof (blob_kzg_commitments body) proof' (body_root body) = false.
Proof.
  intros Hh Ht Hne. destruct (body_leaves_bounds body) as [Hl Hd].
  unfold kzg_commitments_merkle_proof, verify_inclusion_proof, body_root, body_tree, BLOB_KZG_COMMITMENTS_INDEX,
    KzgCommitmentsInclusionProofDepth. rewrite Hd.
  rewrite generate_eq, body_leaf_11 by (change (2 ^ 4) with 16; lia). exists (branch 4 (body_merkle_leaves body) 11).
  split_and!; [done|apply branch_verifies; [change (2 ^ 4) with 16; lia..|done]|].
  intros proof' Hp Hcf. destruct (verify_merkle_proof _ proof' 4 11 _) eqn:E; [|done]. exfalso. apply Hne.
  assert (h256 (blob_kzg_commitments body)) as Hb by (apply (Forall_lookup_1 _ _ 13 _ Ht); done).
  apply (verify_binds 4 11) in E; [done|done|apply Forall_cons; split; [done|by apply Forall_app; split]|change (2 ^ 4) with 16; lia..|done].
Qed.

(** The root of the list of commitments, its length mixed in. *)
Definition commitments_list_root (commitments : list bytes) : bytes :=
  hash32_concat (root (tree_depth max_blob_commitments_per_block) commitments) (length_root (length commitments)).

Lemma blob_depth : tree_depth max_blob_commitments_per_block = 12.
Proof. vm_compute. reflexivity. Qed.

(** A blob is checked like a data column.  The proof of one commitment, completed
    from a proof of the whole list, verifies exactly if the proof of the list does:
    its lower part leads from the commitment at its index to the root of the list. *)
Theorem blob_proof_reduces (commitments : list bytes) (index : nat) (commitment : bytes) (list_proof : list bytes)
    (block_root : bytes) :
  length commitments <= 4096 -> commitments !! index = Some commitment ->
  length list_proof = KzgCommitmentsInclusionProofDepth ->
  exists proof, complete_kzg_commitment_merkle_proof commitments index list_proof = Ret (Ok proof)
    /\ verify_blob_sidecar_inclusion_proof commitment index proof block_root
       = Ret (verify_inclusion_proof (commitments_list_root commitments) list_proof block_root).
Proof.
  intros Hl Hc Hp. pose proof (lookup_lt_Some _ _ _ Hc) as Hi.
  assert (2 ^ 12 = 4096) as Epow by (vm_compute; reflexivity).
  unfold complete_kzg_commitment_merkle_proof, verify_blob_sidecar_inclusion_proof, commitments_list_root,
    kzg_commitments_tree_depth. rewrite blob_depth. change (12 + 1) with 13.
  rewrite generate_eq, Hc by (rewrite Epow; lia). set (br := branch 12 commitments index).
  assert (length br = 12) as Hbr by apply branch_length. set (lr := length_root (length commitments)).
  exists ((br ++ [lr]) ++ list_proof). assert (length (br ++ [lr]) = 13) as H13 by (rewrite length_app, Hbr; done).
  split. { cbn [outcome_bind]. unfold sized. rewrite app_assoc, length_app, H13, Hp. reflexivity. }
  rewrite <- H13, take_app_length, drop_app_length, H13. unfold merkle_root_from_branch.
  rewrite H13, Nat.eqb_refl. cbn [negb outcome_bind]. rewrite take_ge by lia. rewrite fold_left_app.
  pose proof (branch_root 12 commitments index) as Hb. rewrite Nat.mod_small in Hb by (rewrite Epow; lia).
  unfold leaf_at in Hb. rewrite Hc in Hb. change (default (zero_hash 0) (Some commitment)) with commitment in Hb. fold br in Hb. rewrite Hb. cbn [fold_left mix_branch snd].
  assert (ith_bit index 12 = false) as ->; [|reflexivity].
  unfold ith_bit. rewrite Nat.shiftr_div_pow2, Epow, Nat.div_small by lia. done.
Qed.

(** The execution branch that light clients get is a proof for another field: for
    the only index it supports, [block_body_merkle_proof] returns a proof that
    verifies for the root of the voluntary exits, and no proof at that index verifies
    for the execution payload, unless hashes collide or the two roots are the same. *)
Theorem execution_branch_is_exits body :
  hash_is_32_bytes -> body_typed body -> execution_payload body <> voluntary_exits body ->
  exists proof, block_body_merkle_proof body EXECUTION_PAYLOAD_INDEX = Ret (Ok proof)
    /\ verify_merkle_proof (voluntary_exits body) proof EXECUTION_PAYLOAD_PROOF_LEN
         (EXECUTION_PAYLOAD_INDEX - NUM_BEACON_BLOCK_BODY_HASH_TREE_ROOT_LEAVES) (body_root body) = true
    /\ forall proof', Forall h256 proof' ->
         no_collision eth_hash (proof_inputs 9 0 (execution_payload body) proof'
                                ++ path_inputs 4 (body_merkle_leaves body) 9) ->
         verify_merkle_proof (execution_payload body) proof' EXECUTION_PAYLOAD_PROOF_LEN
           (EXECUTION_PAYLOAD_INDEX - NUM_BEACON_BLOCK_BODY_HASH_TREE_ROOT_LEAVES) (body_root body) = false.
Proof.
  intros Hh Ht Hne. destruct (body_leaves_bounds body) as [Hl Hd].
  change (EXECUTION_PAYLOAD_INDEX - NUM_BEACON_BLOCK_BODY_HASH_TREE_ROOT_LEAVES) with 9.
  unfold block_body_merkle_proof, body_root, body_tree, EXECUTION_PAYLOAD_PROOF_LEN. rewrite Hd. simpl Nat.eqb. cbn [negb].
  change (EXECUTION_PAYLOAD_INDEX - NUM_BEACON_BLOCK_BODY_HASH_TREE_ROOT_LEAVES) with 9.
  rewrite generate_eq, body_leaf_9 by (change (2 ^ 4) with 16; lia). exists (branch 4 (body_merkle_leaves body) 9).
  split_and!; [done|apply branch_verifies; [change (2 ^ 4) with 16; lia..|done]|].
  intros proof' Hp Hcf. destruct (verify_merkle_proof _ proof' 4 9 _) eqn:E; [|done]. exfalso. apply Hne.
  assert (h256 (execution_payload body)) as Hb by (apply (Forall_lookup_1 _ _ 11 _ Ht); done).
  apply (verify_binds 4 9) in E; [done|done|apply Forall_cons; split; [done|by apply Forall_app; split]
    |change (2 ^ 4) with 16; lia..|done].
Qed.
End body.
