(* ===== verification/DepositTree.v ===== *)
(** * The deposit tree

    The Merkle tree of the deposit contract as the client keeps it
    (src/ethereum-topostake/lighthouse/consensus/state_processing/src/common/deposit_data_tree.rs)
    and the snapshots from which it is resumed
    (src/ethereum-topostake/lighthouse/consensus/types/src/deposit/deposit_tree_snapshot.rs).
    A snapshot leads to the same tree, its root is computed from its hashes alone, and
    the proofs of deposits verify against the root with the length mixed in. *)

From S2P Require Export MerkleFacts.
Local Open Scope rust_scope.

Definition DEPOSIT_TREE_DEPTH : nat := 32.

Record FinalizedExecutionBlock := mkExecutionBlock {
  fb_deposit_root : bytes;
  fb_deposit_count : nat;
  fb_block_hash : bytes;
  fb_block_height : Z
}.

Record DepositTreeSnapshot := mkSnapshot {
  sn_finalized : list bytes;
  sn_deposit_root : bytes;
  sn_deposit_count : nat;
  sn_execution_block_hash : bytes;
  sn_execution_block_height : Z
}.

Record DepositDataTree := mkDepositTree {
  dt_tree : MerkleTree;
  dt_mix_in_length : nat;
  dt_finalized_execution_block : option FinalizedExecutionBlock;
  dt_depth : nat
}.

(** [int_to_bytes32]: little endian, padded. *)
Definition int_to_bytes32 (n : Z) : bytes := to_le_bytes 8 n ++ replicate 24 Byte.x00.

Section deposit_tree.
Context `{EthHash}.
Implicit Types (dt : DepositDataTree) (sn : DepositTreeSnapshot).

Definition deposit_tree_create (leaves : list bytes) (mix_in_length depth : nat) : DepositDataTree :=
  mkDepositTree (create depth leaves) mix_in_length None depth.

Definition length_bytes dt : bytes := int_to_bytes32 (Z.of_nat (dt_mix_in_length dt)).

Definition deposit_root dt : bytes := eth_hash (tree_hash (dt_tree dt) ++ length_bytes dt).

Definition deposit_proof dt (index : nat) : Outcome (Result (bytes * list bytes) MerkleTreeError) :=
  let! r := generate_proof (dt_tree dt) index (dt_depth dt) in
  Ret (let? rp := r in Ok (rp.1, rp.2 ++ [length_bytes dt])).

(** [mix_in_length.safe_add_assign(1)] at the width of [usize]. *)
Definition deposit_push dt (leaf : bytes) : Result DepositDataTree MerkleTreeError :=
  let? tree := push_leaf (dt_tree dt) leaf (dt_depth dt) in
  if (Z.of_nat (dt_mix_in_length dt) + 1 <=? U64_MAX)%Z
  then Ok (mkDepositTree tree (dt_mix_in_length dt + 1) (dt_finalized_execution_block dt) (dt_depth dt))
  else Err MerkleArithError.

(** The tree is changed even when an error stops it half way. *)
Definition deposit_finalize dt (block : FinalizedExecutionBlock) : DepositDataTree * Result unit MerkleTreeError :=
  let '(tree, r) := finalize_deposits (dt_tree dt) (fb_deposit_count block) (dt_depth dt) in
  match r with
  | Err e => (mkDepositTree tree (dt_mix_in_length dt) (dt_finalized_execution_block dt) (dt_depth dt), Err e)
  | Ok _ => (mkDepositTree tree (dt_mix_in_length dt) (Some block) (dt_depth dt), Ok ())
  end.

Definition get_snapshot dt : option DepositTreeSnapshot :=
  (fun block => mkSnapshot (get_finalized_hashes (dt_tree dt)) (fb_deposit_root block) (fb_deposit_count block)
                  (fb_block_hash block) (fb_block_height block)) <$> dt_finalized_execution_block dt.

Definition block_of_snapshot sn : FinalizedExecutionBlock :=
  mkExecutionBlock (sn_deposit_root sn) (sn_deposit_count sn) (sn_execution_block_hash sn) (sn_execution_block_height sn).

Definition from_snapshot sn (depth : nat) : Result DepositDataTree MerkleTreeError :=
  let? tree := from_finalized_snapshot depth (sn_finalized sn) (sn_deposit_count sn) in
  Ok (mkDepositTree tree (sn_deposit_count sn) (Some (block_of_snapshot sn)) depth).

(** The loop of [calculate_root]: the size, the position in the hashes, the root. *)
Definition root_step (finalized : list bytes) (acc : option (nat * nat * bytes)) (height : nat)
    : option (nat * nat * bytes) :=
  match acc with
  | None => None
  | Some (size, index, deposit_root) =>
      if Nat.eqb (Nat.land size 1) 1 then
        match index with
        | O => None
        | S index =>
            match finalized !! index with
            | None => None
            | Some h => Some (size / 2, index, hash32_concat h deposit_root)
            end
        end
      else Some (size / 2, index, hash32_concat deposit_root (zero_hash height))
  end.

Definition root_at_depth (depth : nat) sn : option bytes :=
  match fold_left (root_step (sn_finalized sn)) (seq 0 depth)
          (Some (sn_deposit_count sn, length (sn_finalized sn), replicate 32 Byte.x00)) with
  | None => None
  | Some (_, _, deposit_root) => Some (hash32_concat deposit_root (int_to_bytes32 (Z.of_nat (sn_deposit_count sn))))
  end.

Definition calculate_root sn : option bytes := root_at_depth DEPOSIT_TREE_DEPTH sn.

Definition snapshot_is_valid sn : bool := bool_decide (calculate_root sn = Some (sn_deposit_root sn)).

(** ** The root of a snapshot *)

(** The loop over the lowest [d] heights: it uses up the hashes of the last
    [n mod 2^d] deposits and leaves the root of their subtree. *)
Lemma root_loop d : forall l n pre, n < 2 ^ d -> length l = n -> forall k,
  fold_left (root_step (pre ++ finalized_hashes d l n)) (seq 0 d)
    (Some (n + k * 2 ^ d, length (pre ++ finalized_hashes d l n), replicate 32 Byte.x00))
  = Some (k, length pre, root d l).
Proof.
  induction d as [|d IH]; intros l n pre Hn Hl k.
  { assert (n = 0) as -> by (simpl in Hn; lia). destruct l; [|done]. simpl.
    rewrite app_nil_r. replace (k * 1) with k by lia. done. }
  assert (2 ^ S d = 2 * 2 ^ d) as Epow by done. pose proof (pow2_pos d) as Hpos.
  rewrite seq_S, fold_left_app, Nat.add_0_l. cbn [fold_left root].
  destruct (Nat.leb_spec (2 ^ d) n) as [Hr|Hr].
  - assert (finalized_hashes (S d) l n = root d (take (2 ^ d) l) :: finalized_hashes d (drop (2 ^ d) l) (n - 2 ^ d)) as ->.
    { cbn [finalized_hashes]. destruct (Nat.eqb_spec n 0); [lia|]. destruct (Nat.leb_spec (2 ^ S d) n); [lia|].
      by rewrite finalized_hashes_full. }
    pose proof (IH (drop (2 ^ d) l) (n - 2 ^ d) (pre ++ [root d (take (2 ^ d) l)]) ltac:(lia)
      ltac:(rewrite length_drop; lia) (1 + 2 * k)) as Hih.
    rewrite <- app_assoc in Hih. cbn [app] in Hih.
    replace (n - 2 ^ d + (1 + 2 * k) * 2 ^ d) with (n + k * 2 ^ S d) in Hih by (rewrite Epow; lia).
    rewrite Hih. cbn [root_step].
    assert (Nat.land (1 + 2 * k) 1 = 1) as ->.
    { transitivity ((1 + 2 * k) mod 2); [exact (Nat.land_ones _ 1)|]. symmetry. apply (Nat.mod_unique _ _ k); lia. }
    rewrite length_app. cbn [length]. rewrite Nat.add_1_r. cbn [Nat.eqb].
    rewrite lookup_app_r, Nat.sub_diag by lia. cbn [lookup list_lookup].
    assert ((1 + 2 * k) / 2 = k) as -> by (symmetry; apply (Nat.div_unique _ _ _ 1); lia). done.
  - assert (finalized_hashes (S d) l n = finalized_hashes d l n) as ->.
    { cbn [finalized_hashes]. destruct (Nat.eqb_spec n 0) as [->|]; [by rewrite finalized_hashes_0|].
      destruct (Nat.leb_spec (2 ^ S d) n); [lia|]. rewrite take_ge by lia.
      replace (n - 2 ^ d) with 0 by lia. by rewrite finalized_hashes_0, app_nil_r. }
    pose proof (IH l n pre Hr Hl (2 * k)) as Hih.
    replace (n + 2 * k * 2 ^ d) with (n + k * 2 ^ S d) in Hih by (rewrite Epow; lia). rewrite Hih. cbn [root_step].
    assert (Nat.land (2 * k) 1 = 0) as ->.
    { transitivity ((2 * k) mod 2); [exact (Nat.land_ones _ 1)|]. symmetry. apply (Nat.mod_unique _ _ k); lia. }
    cbn [Nat.eqb]. rewrite take_ge, drop_ge, root_nil by lia.
    assert (2 * k / 2 = k) as -> by (symmetry; apply (Nat.div_unique _ _ _ 0); lia). done.
Qed.

Lemma finalized_hashes_take d : forall l n, length l <= 2 ^ d -> finalized_hashes d l n = finalized_hashes d (take n l) n.
Proof.
  induction d as [|d IH]; intros l n Hl.
  { cbn [finalized_hashes]. destruct (Nat.eqb_spec n 0); [done|]. by rewrite take_ge by (simpl in *; lia). }
  cbn [finalized_hashes]. destruct (Nat.eqb_spec n 0); [done|].
  destruct (Nat.leb_spec (2 ^ S d) n); [by rewrite take_ge by lia|].
  change (2 ^ S d) with (2 * 2 ^ d) in *.
  rewrite (IH (take (2 ^ d) l)) by (rewrite length_take; lia). rewrite (IH (drop (2 ^ d) l)) by (rewrite length_drop; lia).
  rewrite !take_take, (Nat.min_comm n). f_equal. f_equal. by rewrite skipn_firstn_comm.
Qed.

(** ** Claims *)

Fixpoint deposit_push_all dt (leaves : list bytes) : Result DepositDataTree MerkleTreeError :=
  match leaves with
  | [] => Ok dt
  | x :: leaves => let? next := deposit_push dt x in deposit_push_all next leaves
  end.

Lemma deposit_push_all_eq leaves : forall tree n block d, (Z.of_nat (n + length leaves) <= U64_MAX)%Z ->
  deposit_push_all (mkDepositTree tree n block d) leaves
  = let? final := push_all tree leaves d in Ok (mkDepositTree final (n + length leaves) block d).
Proof.
  induction leaves as [|x leaves IH]; intros tree n block d Hn; cbn [deposit_push_all push_all length];
    [by rewrite Nat.add_0_r|].
  unfold deposit_push. cbn [dt_tree dt_depth dt_mix_in_length dt_finalized_execution_block].
  destruct (push_leaf tree x d) as [tree'|]; [|done]. cbn [length] in Hn.
  destruct (Z.leb_spec (Z.of_nat n + 1) U64_MAX); [|lia]. rewrite IH by lia.
  destruct (push_all tree' leaves d); [|done]. do 2 f_equal. lia.
Qed.

(** Finalizing a fresh tree and taking its snapshot. *)
Lemma finalize_snapshot d leaves block : length leaves <= 2 ^ d -> 0 < fb_deposit_count block <= length leaves ->
  exists tree, deposit_finalize (deposit_tree_create leaves (length leaves) d) block
      = (mkDepositTree tree (length leaves) (Some block) d, Ok ())
    /\ represents d leaves tree
    /\ get_snapshot (mkDepositTree tree (length leaves) (Some block) d)
       = Some (mkSnapshot (finalized_hashes d leaves (fb_deposit_count block)) (fb_deposit_root block)
                 (fb_deposit_count block) (fb_block_hash block) (fb_block_height block)).
Proof.
  intros Hl Hn.
  destruct (finalize_represents _ _ _ (create_represents d leaves Hl) (fb_deposit_count block)) as (t & E & R & _ & G); [lia|lia|].
  exists t. unfold deposit_finalize, deposit_tree_create. cbn [dt_tree dt_depth]. rewrite E. split_and!; [done|done|].
  unfold get_snapshot. cbn [dt_tree dt_finalized_execution_block]. by rewrite (G (create_no_finalized d leaves)).
Qed.

(** C32: A deposit tree can be finalized, saved and resumed: finalizing the first
    deposits does not change its root, and the tree rebuilt from the snapshot, with
    the remaining deposits pushed again, has the root of the original tree. *)
Theorem deposit_snapshot_resumes (d : nat) (leaves : list bytes) (block : FinalizedExecutionBlock) :
  0 < d -> length leaves <= 2 ^ d -> (Z.of_nat (length leaves) <= U64_MAX)%Z ->
  0 < fb_deposit_count block <= length leaves ->
  let original := deposit_tree_create leaves (length leaves) d in
  exists finalized sn resumed final,
    deposit_finalize original block = (finalized, Ok ()) /\ deposit_root finalized = deposit_root original
    /\ get_snapshot finalized = Some sn /\ from_snapshot sn d = Ok resumed
    /\ deposit_push_all resumed (drop (fb_deposit_count block) leaves) = Ok final
    /\ deposit_root final = deposit_root original.
Proof.
  intros Hd Hl Hmax Hn original. destruct (finalize_snapshot d leaves block Hl Hn) as (t1 & E1 & R1 & Es).
  set (n := fb_deposit_count block) in *.
  destruct (snapshot_represents d leaves n) as (t2 & E2 & R2 & U2); [lia|done|].
  destruct (push_all_represents d (drop n leaves) Hd _ _ R2) as (t3 & E3 & R3).
  { rewrite length_take, length_drop. lia. }
  { destruct (decide (n < 2 ^ d)); [right; auto|]. left. apply drop_ge. lia. }
  rewrite take_drop in R3. pose proof (create_represents d leaves Hl) as Hc.
  eexists _, _, _, _. split_and!; [exact E1| |exact Es| | |].
  - unfold deposit_root, length_bytes. cbn [dt_tree dt_mix_in_length original deposit_tree_create].
    by rewrite (represents_hash _ _ _ R1), (represents_hash _ _ _ Hc).
  - unfold from_snapshot. cbn [sn_finalized sn_deposit_count]. rewrite E2. done.
  - rewrite deposit_push_all_eq; cbn [sn_deposit_count]; [by rewrite E3|rewrite length_drop; lia].
  - unfold deposit_root, length_bytes. cbn [dt_tree dt_mix_in_length original deposit_tree_create sn_deposit_count].
    rewrite (represents_hash _ _ _ R3), (represents_hash _ _ _ Hc), length_drop.
    by replace (n + (length leaves - n)) with (length leaves) by lia.
Qed.

Lemma root_at_depth_eq d leaves block : let n := fb_deposit_count block in
  length leaves <= 2 ^ d -> 0 < n <= length leaves -> n < 2 ^ d ->
  exists finalized sn, deposit_finalize (deposit_tree_create leaves (length leaves) d) block = (finalized, Ok ())
    /\ get_snapshot finalized = Some sn
    /\ root_at_depth d sn = Some (deposit_root (deposit_tree_create (take n leaves) n d)).
Proof.
  intros n Hl Hn Hlt. destruct (finalize_snapshot d leaves block Hl Hn) as (t & E & _ & Es).
  eexists _, _. split_and!; [exact E|exact Es|]. unfold root_at_depth. cbn [sn_finalized sn_deposit_count]. fold n.
  rewrite (finalized_hashes_take d leaves n Hl).
  pose proof (root_loop d (take n leaves) n [] Hlt ltac:(rewrite length_take; lia) 0) as Hroot.
  rewrite Nat.mul_0_l, Nat.add_0_r in Hroot. cbn [app] in Hroot. rewrite Hroot. unfold deposit_root, length_bytes.
  cbn [deposit_tree_create dt_tree dt_mix_in_length]. rewrite (represents_hash d (take n leaves)); [done|].
  apply create_represents. rewrite length_take. lia.
Qed.

(** The root of a snapshot is computed from its hashes alone: walking them from
    the bottom up by the bits of the deposit count gives the root of a deposit tree
    of the finalized deposits. *)
Theorem snapshot_root_agrees (leaves : list bytes) (block : FinalizedExecutionBlock) :
  let n := fb_deposit_count block in
  length leaves <= 2 ^ DEPOSIT_TREE_DEPTH -> 0 < n <= length leaves -> n < 2 ^ DEPOSIT_TREE_DEPTH ->
  exists finalized sn,
    deposit_finalize (deposit_tree_create leaves (length leaves) DEPOSIT_TREE_DEPTH) block = (finalized, Ok ())
    /\ get_snapshot finalized = Some sn
    /\ calculate_root sn = Some (deposit_root (deposit_tree_create (take n leaves) n DEPOSIT_TREE_DEPTH)).
Proof. unfold calculate_root. generalize DEPOSIT_TREE_DEPTH. intros d. exact (root_at_depth_eq d leaves block). Qed.

(** The proof of a deposit verifies: for every deposit of the tree, the generated
    proof, with the number of deposits as its last step, is one step longer than the
    tree is deep and verifies against the deposit root. *)
Theorem deposit_proof_verifies (d i : nat) (leaves : list bytes) (x : bytes) :
  length leaves <= 2 ^ d -> leaves !! i = Some x ->
  let dt := deposit_tree_create leaves (length leaves) d in
  exists proof, deposit_proof dt i = Ret (Ok (x, proof)) /\ length proof = d + 1
    /\ verify_merkle_proof x proof (d + 1) i (deposit_root dt) = true.
Proof.
  intros Hl Hx dt. pose proof (lookup_lt_Some _ _ _ Hx) as Hi. unfold deposit_proof.
  cbn [dt deposit_tree_create dt_tree dt_depth]. rewrite generate_eq, Hx by lia. cbn [outcome_bind fst snd].
  set (br := branch d leaves i). assert (length br = d) as Hbr by apply branch_length.
  exists (br ++ [length_bytes dt]). assert (length (br ++ [length_bytes dt]) = d + 1) as Hlen by (rewrite length_app, Hbr; done).
  split_and!; [done|done|]. unfold verify_merkle_proof, merkle_root_from_branch. rewrite Hlen, Nat.eqb_refl. cbn [negb].
  rewrite take_ge by lia. apply bool_decide_eq_true. rewrite fold_left_app.
  pose proof (branch_root d leaves i) as Hb. rewrite Nat.mod_small in Hb by lia. unfold leaf_at in Hb. rewrite Hx in Hb.
  change (default (zero_hash 0) (Some x)) with x in Hb. fold br in Hb. rewrite Hb. cbn [fold_left mix_branch snd].
  assert (ith_bit i d = false) as ->.
  { unfold ith_bit. rewrite Nat.shiftr_div_pow2, Nat.div_small by lia. done. }
  unfold deposit_root, hash32_concat. cbn [dt deposit_tree_create dt_tree].
  by rewrite (represents_hash _ _ _ (create_represents d leaves Hl)).
Qed.
End deposit_tree.
