(* ===== verification/ProtoArray.v ===== *)
(** * The proto-array block tree

    The fork choice's block tree
    (src/ethereum-topostake/lighthouse/consensus/proto_array/src/proto_array.rs and
    error.rs; the data types shared with proto_array_fork_choice.rs): nodes are kept in
    insertion order, [indices] maps a block root to its position and [children] caches
    the positions of a node's children.  Modelled here are the node types, block
    insertion, the application of score changes, the walk to the head, the propagation
    of execution verdicts and pruning.

    A node position is a [nat], a slot or an epoch a saturating [u64], a weight a [u64],
    a delta an [i64], a block root its 32 bytes.  An operation on [&mut self] that can
    fail returns the array as it stands at the failure next to the result.  The loops
    that follow parents, and the walk to the head, run on fuel: [StepsExhausted] is
    answered only when the array has a parent that does not precede its child, which
    [BlockTree] of ProtoArrayFacts.v excludes. *)

From S2P Require Export Prelude Justification.
Local Open Scope rust_scope.
Local Open Scope Z_scope.

(** [Hash256::zero()] and the order of roots. *)
Definition zero_root : bytes := repeat Byte.x00 32.

Fixpoint root_compare (a b : bytes) : comparison :=
  match a, b with
  | x :: a, y :: b => match N.compare (Byte.to_N x) (Byte.to_N y) with Eq => root_compare a b | c => c end
  | _ :: _, [] => Gt
  | [], _ :: _ => Lt
  | [], [] => Eq
  end.

#[export] Instance checkpoint_eq_decision : EqDecision Checkpoint.
Proof. solve_decision. Defined.

(** [Slot::epoch] and [Epoch::start_slot]; [+] on slots and epochs saturates. *)
Definition slot_epoch (slots_per_epoch slot : Z) : Z := slot / slots_per_epoch.
Definition start_slot (slots_per_epoch epoch : Z) : Z := Z.min (epoch * slots_per_epoch) U64_MAX.

(** [x as i64] for [x : u64], and the checked [i64] operations. *)
Definition as_i64 (z : Z) : Z := if z <? 2 ^ 63 then z else z - 2 ^ 64.
Definition i64_range (z : Z) : bool := (- 2 ^ 63 <=? z) && (z <? 2 ^ 63).
Definition i64_checked (z : Z) : option Z := if i64_range z then Some z else None.
Definition u64_checked (z : Z) : option Z := if (0 <=? z) && (z <=? U64_MAX) then Some z else None.

Definition ok_or {A E} (o : option A) (e : E) : Result A E := match o with Some a => Ok a | None => Err e end.

Inductive ExecutionStatus :=
  | Valid (hash : bytes)
  | Invalid (hash : bytes)
  | Optimistic (hash : bytes)
  | Irrelevant (b : bool).

Definition is_invalid (s : ExecutionStatus) : bool := match s with Invalid _ => true | _ => false end.
Definition block_hash (s : ExecutionStatus) : option bytes :=
  match s with Valid h | Invalid h | Optimistic h => Some h | Irrelevant _ => None end.

Inductive PayloadStatus := Empty | Full | Pending.

#[export] Instance payload_status_eq_decision : EqDecision PayloadStatus.
Proof. solve_decision. Defined.

(** [PayloadStatus as u8]. *)
Definition payload_status_u8 (s : PayloadStatus) : Z := match s with Empty => 0 | Full => 1 | Pending => 2 end.

Inductive Error :=
  | FinalizedNodeUnknown (root : bytes)
  | JustifiedNodeUnknown (root : bytes)
  | NodeUnknown (root : bytes)
  | InvalidNodeIndex (i : nat)
  | InvalidJustifiedIndex (i : nat)
  | InvalidParentDelta (i : nat)
  | InvalidNodeDelta (i : nat)
  | DeltaOverflow (i : nat)
  | ProposerBoostOverflow (i : nat)
  | ReOrgThresholdOverflow
  | IndexOverflow (what : string)
  | InvalidExecutionDeltaOverflow (i : nat)
  | InvalidDeltaLen (deltas indices : nat)
  | InvalidAncestorOfValidPayload (ancestor_block_root ancestor_payload_block_hash : bytes)
  | ValidExecutionStatusBecameInvalid (block_root payload_block_hash : bytes)
  | InvalidJustifiedCheckpointExecutionStatus (justified_root : bytes)
  | IrrelevantDescendant (block_root : bytes)
  | ParentExecutionStatusIsInvalid (block_root parent_root : bytes)
  | InvalidNodeVariant (block_root : bytes)
  | BrokenBlock (block_root : bytes)
  | NoViableChildren
  | OnBlockRequiresProposerIndex
  | InvalidPayloadStatus (block_root : bytes) (payload_status : PayloadStatus)
  | StepsExhausted.

Record AttestationShufflingId := mkShufflingId { shuffling_epoch : Z; shuffling_decision_block : bytes }.

(** [ProtoNode] is a superstruct of two variants; the fields both have are here, the
    others in [NodeV17] and [NodeV29]. *)
Record NodeV17 := mkV17 {
  best_child : option nat;
  best_descendant : option nat;
  execution_status_v17 : ExecutionStatus
}.

Record NodeV29 := mkV29 {
  parent_payload_status : PayloadStatus;
  empty_payload_weight : Z;
  full_payload_weight : Z;
  execution_payload_block_hash : bytes;
  execution_payload_parent_hash : bytes;
  block_timeliness_attestation_threshold : bool;
  block_timeliness_ptc_threshold : bool;
  payload_timeliness_votes : list bool;
  payload_data_availability_votes : list bool;
  ptc_participation : list bool;
  payload_received : bool;
  proposer_index : Z;
  equivocating_attestation_score : Z
}.

Inductive NodeVariant := V17 (v : NodeV17) | V29 (v : NodeV29).

Record ProtoNode := mkNode {
  pn_slot : Z;
  pn_state_root : bytes;
  pn_target_root : bytes;
  pn_current_epoch_shuffling_id : AttestationShufflingId;
  pn_next_epoch_shuffling_id : AttestationShufflingId;
  pn_root : bytes;
  pn_parent : option nat;
  pn_justified_checkpoint : Checkpoint;
  pn_finalized_checkpoint : Checkpoint;
  pn_weight : Z;
  pn_unrealized_justified_checkpoint : option Checkpoint;
  pn_unrealized_finalized_checkpoint : option Checkpoint;
  pn_variant : NodeVariant
}.

(** The field updates. *)
Definition with_weight (n : ProtoNode) (w : Z) : ProtoNode :=
  mkNode (pn_slot n) (pn_state_root n) (pn_target_root n) (pn_current_epoch_shuffling_id n) (pn_next_epoch_shuffling_id n)
    (pn_root n) (pn_parent n) (pn_justified_checkpoint n) (pn_finalized_checkpoint n) w
    (pn_unrealized_justified_checkpoint n) (pn_unrealized_finalized_checkpoint n) (pn_variant n).
Definition with_variant (n : ProtoNode) (v : NodeVariant) : ProtoNode :=
  mkNode (pn_slot n) (pn_state_root n) (pn_target_root n) (pn_current_epoch_shuffling_id n) (pn_next_epoch_shuffling_id n)
    (pn_root n) (pn_parent n) (pn_justified_checkpoint n) (pn_finalized_checkpoint n) (pn_weight n)
    (pn_unrealized_justified_checkpoint n) (pn_unrealized_finalized_checkpoint n) v.
Definition with_parent (n : ProtoNode) (p : option nat) : ProtoNode :=
  mkNode (pn_slot n) (pn_state_root n) (pn_target_root n) (pn_current_epoch_shuffling_id n) (pn_next_epoch_shuffling_id n)
    (pn_root n) p (pn_justified_checkpoint n) (pn_finalized_checkpoint n) (pn_weight n)
    (pn_unrealized_justified_checkpoint n) (pn_unrealized_finalized_checkpoint n) (pn_variant n).

Definition as_v29 (n : ProtoNode) : option NodeV29 := match pn_variant n with V29 v => Some v | V17 _ => None end.
Definition execution_status (n : ProtoNode) : option ExecutionStatus :=
  match pn_variant n with V17 v => Some (execution_status_v17 v) | V29 _ => None end.
Definition execution_invalid (n : ProtoNode) : bool :=
  match execution_status n with Some s => is_invalid s | None => false end.

(** [if let ProtoNode::V17(node) = node { node.execution_status = s }]. *)
Definition set_execution_status (n : ProtoNode) (s : ExecutionStatus) : ProtoNode :=
  match pn_variant n with
  | V17 v => with_variant n (V17 (mkV17 (best_child v) (best_descendant v) s))
  | V29 _ => n
  end.

Definition set_payload_weights (v : NodeV29) (empty full equivocating : Z) : NodeV29 :=
  mkV29 (parent_payload_status v) empty full (execution_payload_block_hash v) (execution_payload_parent_hash v)
    (block_timeliness_attestation_threshold v) (block_timeliness_ptc_threshold v) (payload_timeliness_votes v)
    (payload_data_availability_votes v) (ptc_participation v) (payload_received v) (proposer_index v) equivocating.

Definition set_payload_received (v : NodeV29) : NodeV29 :=
  mkV29 (parent_payload_status v) (empty_payload_weight v) (full_payload_weight v) (execution_payload_block_hash v)
    (execution_payload_parent_hash v) (block_timeliness_attestation_threshold v) (block_timeliness_ptc_threshold v)
    (payload_timeliness_votes v) (payload_data_availability_votes v) (ptc_participation v) true (proposer_index v)
    (equivocating_attestation_score v).

Definition get_parent_payload_status (n : ProtoNode) : PayloadStatus :=
  match as_v29 n with Some v => parent_payload_status v | None => Empty end.

Definition is_parent_node_full (n : ProtoNode) : bool := bool_decide (get_parent_payload_status n = Full).

Definition attestation_score (n : ProtoNode) (s : PayloadStatus) : Z :=
  match s with
  | Pending => pn_weight n
  | Empty => match as_v29 n with Some v => empty_payload_weight v | None => pn_weight n end
  | Full => match as_v29 n with Some v => full_payload_weight v | None => pn_weight n end
  end.

(** What the code reads of [EthSpec] and [ChainSpec]; durations in nanoseconds. *)
Record ForkSpec := mkForkSpec {
  slots_per_epoch : Z;
  ptc_size : nat;
  gloas_fork_epoch : option Z;
  unaggregated_attestation_due : Z;
  unaggregated_attestation_due_gloas : Z;
  payload_attestation_due : Z;
  proposer_score_boost : Z;
  reorg_head_weight_threshold : Z
}.

(** [spec.fork_name_at_slot(slot).gloas_enabled()]: Gloas is the newest fork. *)
Definition gloas_enabled (spec : ForkSpec) (slot : Z) : bool :=
  match gloas_fork_epoch spec with
  | Some e => e <=? slot_epoch (slots_per_epoch spec) slot
  | None => false
  end.

Definition get_attestation_due (spec : ForkSpec) (slot : Z) : Z :=
  if gloas_enabled spec slot then unaggregated_attestation_due_gloas spec else unaggregated_attestation_due spec.

Definition num_set_bits (bits : list bool) : nat := length (filter (fun b => b = true) bits).

Definition votes_match (spec : ForkSpec) (yes all : list bool) (wanted : bool) : bool :=
  let matching := if wanted then num_set_bits yes else Nat.sub (num_set_bits all) (num_set_bits yes) in
  Nat.ltb (ptc_size spec / 2) matching.

Definition payload_timeliness (spec : ForkSpec) (n : ProtoNode) (timely : bool) : Result bool Error :=
  match as_v29 n with
  | None => Err (InvalidNodeVariant (pn_root n))
  | Some v =>
      if negb (payload_received v) then Ok (negb timely)
      else Ok (votes_match spec (payload_timeliness_votes v) (ptc_participation v) timely)
  end.

Definition payload_data_availability (spec : ForkSpec) (n : ProtoNode) (available : bool) : Result bool Error :=
  match as_v29 n with
  | None => Err (InvalidNodeVariant (pn_root n))
  | Some v =>
      if negb (payload_received v) then Ok (negb available)
      else Ok (votes_match spec (payload_data_availability_votes v) (ptc_participation v) available)
  end.

(** * Deltas *)

Record NodeDelta := mkDelta {
  nd_delta : Z;
  empty_delta : Z;
  full_delta : Z;
  equivocating_attestation_delta : Z
}.

Definition no_delta : NodeDelta := mkDelta 0 0 0 0.

(** [NodeDelta::payload_status]. *)
Definition vote_payload_status (vote_slot : Z) (payload_present : bool) (block_slot : Z) : PayloadStatus :=
  if vote_slot =? block_slot then Pending else if payload_present then Full else Empty.

(** Adding [d] to the payload bucket of [status]; [d] is minus the balance for
    [sub_payload_delta]. *)
Definition add_payload_delta (nd : NodeDelta) (status : PayloadStatus) (d : Z) (index : nat) : Result NodeDelta Error :=
  match status with
  | Full => let? z := ok_or (i64_checked (full_delta nd + d)) (DeltaOverflow index) in
            Ok (mkDelta (nd_delta nd) (empty_delta nd) z (equivocating_attestation_delta nd))
  | Empty => let? z := ok_or (i64_checked (empty_delta nd + d)) (DeltaOverflow index) in
             Ok (mkDelta (nd_delta nd) z (full_delta nd) (equivocating_attestation_delta nd))
  | Pending => Ok nd
  end.

(** [apply_delta]: a signed delta on an unsigned weight. *)
Definition apply_delta (weight delta : Z) (index : nat) : Result Z Error :=
  ok_or (u64_checked (weight + delta)) (DeltaOverflow index).

(** * The array *)

Record ProtoArray := mkProtoArray {
  prune_threshold : nat;
  nodes : list ProtoNode;
  indices : gmap bytes nat;
  children : list (list nat)
}.

Definition with_nodes (pa : ProtoArray) (ns : list ProtoNode) : ProtoArray :=
  mkProtoArray (prune_threshold pa) ns (indices pa) (children pa).

(** The delta that leaves node [i]: minus its whole weight once it is invalid. *)
Definition leaving_delta (n : ProtoNode) (nd : NodeDelta) (i : nat) : Result Z Error :=
  if execution_invalid n then ok_or (i64_checked (0 - as_i64 (pn_weight n))) (InvalidExecutionDeltaOverflow i)
  else Ok (nd_delta nd).

Definition new_weight (n : ProtoNode) (delta : Z) (i : nat) : Result Z Error :=
  if execution_invalid n then Ok 0 else apply_delta (pn_weight n) delta i.

(** The post-Gloas weights; a failure after the first keeps it. *)
Definition apply_payload_deltas (n : ProtoNode) (nd : NodeDelta) (i : nat) : ProtoNode * Result unit Error :=
  match pn_variant n with
  | V17 _ => (n, Ok tt)
  | V29 v =>
      match apply_delta (empty_payload_weight v) (empty_delta nd) i with
      | Err e => (n, Err e)
      | Ok empty =>
          match apply_delta (full_payload_weight v) (full_delta nd) i with
          | Err e => (with_variant n (V29 (set_payload_weights v empty (full_payload_weight v) (equivocating_attestation_score v))), Err e)
          | Ok full =>
              (with_variant n (V29 (set_payload_weights v empty full
                 (u64_sat_add (equivocating_attestation_score v) (equivocating_attestation_delta nd)))), Ok tt)
          end
      end
  end.

(** Back-propagation of [delta] to the parent. *)
Definition propagate_delta (n : ProtoNode) (delta : Z) (deltas : list NodeDelta) : Result (list NodeDelta) Error :=
  match pn_parent n with
  | None => Ok deltas
  | Some p =>
      let? pd := ok_or (deltas !! p) (InvalidParentDelta p) in
      let? d := ok_or (i64_checked (nd_delta pd + delta)) (DeltaOverflow p) in
      let pd := mkDelta d (empty_delta pd) (full_delta pd) (equivocating_attestation_delta pd) in
      match as_v29 n with
      | Some _ =>
          let? pd := add_payload_delta pd (if is_parent_node_full n then Full else Empty) delta p in
          Ok (<[p := pd]> deltas)
      | None => Ok (<[p := pd]> deltas)
      end
  end.

(** One turn of the loop of [apply_score_changes]. *)
Definition score_node (i : nat) (ns : list ProtoNode) (deltas : list NodeDelta)
    : list ProtoNode * Result (list NodeDelta) Error :=
  match ns !! i with
  | None => (ns, Err (InvalidNodeIndex i))
  | Some n =>
      if bool_decide (pn_root n = zero_root) then (ns, Ok deltas)
      else
        match deltas !! i with
        | None => (ns, Err (InvalidNodeDelta i))
        | Some nd =>
            match leaving_delta n nd i with
            | Err e => (ns, Err e)
            | Ok delta =>
                match new_weight n delta i with
                | Err e => (ns, Err e)
                | Ok w =>
                    match apply_payload_deltas (with_weight n w) nd i with
                    | (n, Err e) => (<[i := n]> ns, Err e)
                    | (n, Ok _) => (<[i := n]> ns, propagate_delta n delta deltas)
                    end
                end
            end
        end
  end.

Fixpoint score_nodes (order : list nat) (ns : list ProtoNode) (deltas : list NodeDelta)
    : list ProtoNode * Result unit Error :=
  match order with
  | [] => (ns, Ok tt)
  | i :: order =>
      match score_node i ns deltas with
      | (ns, Ok deltas) => score_nodes order ns deltas
      | (ns, Err e) => (ns, Err e)
      end
  end.

Definition apply_score_changes (pa : ProtoArray) (deltas : list NodeDelta) : ProtoArray * Result unit Error :=
  if negb (Nat.eqb (length deltas) (size (indices pa))) then (pa, Err (InvalidDeltaLen (length deltas) (size (indices pa))))
  else let '(ns, r) := score_nodes (rev (seq 0 (length (nodes pa)))) (nodes pa) deltas in (with_nodes pa ns, r).

(** * Execution verdicts *)

(** [propagate_execution_payload_validation_by_index]. *)
Fixpoint propagate_validation (fuel : nat) (ns : list ProtoNode) (index : nat) : list ProtoNode * Result unit Error :=
  match fuel with
  | O => (ns, Err StepsExhausted)
  | S fuel =>
      match ns !! index with
      | None => (ns, Err (InvalidNodeIndex index))
      | Some n =>
          match execution_status n with
          | Some (Valid _) | Some (Irrelevant _) | None => (ns, Ok tt)
          | Some (Optimistic hash) =>
              let ns := <[index := set_execution_status n (Valid hash)]> ns in
              match pn_parent n with
              | Some p => propagate_validation fuel ns p
              | None => (ns, Ok tt)
              end
          | Some (Invalid hash) => (ns, Err (InvalidAncestorOfValidPayload (pn_root n) hash))
          end
      end
  end.

Definition propagate_execution_payload_validation_by_index (pa : ProtoArray) (index : nat) : ProtoArray * Result unit Error :=
  let '(ns, r) := propagate_validation (S (length (nodes pa))) (nodes pa) index in (with_nodes pa ns, r).

Definition propagate_execution_payload_validation (pa : ProtoArray) (block_root : bytes) : ProtoArray * Result unit Error :=
  match indices pa !! block_root with
  | None => (pa, Err (NodeUnknown block_root))
  | Some index => propagate_execution_payload_validation_by_index pa index
  end.

Definition on_valid_payload_envelope_received (pa : ProtoArray) (block_root : bytes) : ProtoArray * Result unit Error :=
  match indices pa !! block_root with
  | None => (pa, Err (NodeUnknown block_root))
  | Some index =>
      match nodes pa !! index with
      | None => (pa, Err (InvalidNodeIndex index))
      | Some n =>
          match as_v29 n with
          | None => (pa, Err (InvalidNodeVariant block_root))
          | Some v => (with_nodes pa (<[index := with_variant n (V29 (set_payload_received v))]> (nodes pa)), Ok tt)
          end
      end
  end.

(** * Insertion *)

Record Block := mkBlock {
  b_slot : Z;
  b_root : bytes;
  b_parent_root : option bytes;
  b_state_root : bytes;
  b_target_root : bytes;
  b_current_epoch_shuffling_id : AttestationShufflingId;
  b_next_epoch_shuffling_id : AttestationShufflingId;
  b_justified_checkpoint : Checkpoint;
  b_finalized_checkpoint : Checkpoint;
  b_execution_status : ExecutionStatus;
  b_unrealized_justified_checkpoint : option Checkpoint;
  b_unrealized_finalized_checkpoint : option Checkpoint;
  b_execution_payload_parent_hash : option bytes;
  b_execution_payload_block_hash : option bytes;
  b_proposer_index : option Z;
  b_payload_received : bool
}.

(** A new node has the block's fields and no weight. *)
Definition fresh_node (b : Block) (parent : option nat) (v : NodeVariant) : ProtoNode :=
  mkNode (b_slot b) (b_state_root b) (b_target_root b) (b_current_epoch_shuffling_id b) (b_next_epoch_shuffling_id b)
    (b_root b) parent (b_justified_checkpoint b) (b_finalized_checkpoint b) 0
    (b_unrealized_justified_checkpoint b) (b_unrealized_finalized_checkpoint b) v.

Definition payload_status_of_parent (pa : ProtoArray) (parent : option nat) (parent_hash : bytes) : PayloadStatus :=
  match parent ≫= (fun i => nodes pa !! i) with
  | Some n =>
      match pn_variant n with
      | V29 v => if bool_decide (parent_hash = execution_payload_block_hash v) then Full else Empty
      | V17 _ => Empty
      end
  | None => Empty
  end.

Definition no_ptc_votes : list bool := repeat false 512.

Definition new_node (spec : ForkSpec) (pa : ProtoArray) (b : Block) (proposer current_slot time_into_slot : Z) (parent : option nat)
    : Result ProtoNode Error :=
  if negb (gloas_enabled spec (b_slot b)) then Ok (fresh_node b parent (V17 (mkV17 None None (b_execution_status b))))
  else
    let is_current_slot := current_slot =? b_slot b in
    let? block_hash := ok_or (b_execution_payload_block_hash b) (BrokenBlock (b_root b)) in
    let? parent_hash := ok_or (b_execution_payload_parent_hash b) (BrokenBlock (b_root b)) in
    let is_anchor := negb (bool_decide (is_Some parent)) in
    Ok (fresh_node b parent (V29 (mkV29 (payload_status_of_parent pa parent parent_hash) 0 0 block_hash parent_hash
      (is_anchor || (is_current_slot && (time_into_slot <? get_attestation_due spec current_slot)))
      (is_anchor || (is_current_slot && (time_into_slot <? payload_attestation_due spec)))
      no_ptc_votes no_ptc_votes no_ptc_votes false proposer 0))).

(** The parent of a new block must be in the array and not invalid. *)
Definition check_parent (pa : ProtoArray) (b : Block) (parent : option nat) : Result unit Error :=
  match parent with
  | None => Ok tt
  | Some p =>
      match nodes pa !! p with
      | None => Err (InvalidNodeIndex p)
      | Some n => if execution_invalid n then Err (ParentExecutionStatusIsInvalid (b_root b) (pn_root n)) else Ok tt
      end
  end.

(** [self.children[p].push(i)]. *)
Definition push_child (cs : list (list nat)) (p i : nat) : option (list (list nat)) :=
  match cs !! p with Some l => Some (<[p := l ++ [i]]> cs) | None => None end.

Definition is_valid_status (s : ExecutionStatus) : bool := match s with Valid _ => true | _ => false end.

Definition insert_node (pa : ProtoArray) (n : ProtoNode) (status : ExecutionStatus) : ProtoArray * Result unit Error :=
  let i := length (nodes pa) in
  let pushed cs := mkProtoArray (prune_threshold pa) (nodes pa ++ [n]) (<[pn_root n := i]> (indices pa)) cs in
  match pn_parent n with
  | None => (pushed (children pa ++ [[]]), Ok tt)
  | Some p =>
      match push_child (children pa ++ [[]]) p i with
      | None => (pushed (children pa ++ [[]]), Err (InvalidNodeIndex p))
      | Some cs =>
          if is_valid_status status then propagate_execution_payload_validation_by_index (pushed cs) p
          else (pushed cs, Ok tt)
      end
  end.

Definition on_block (spec : ForkSpec) (pa : ProtoArray) (b : Block) (current_slot time_into_slot : Z) : ProtoArray * Result unit Error :=
  if bool_decide (is_Some (indices pa !! b_root b)) then (pa, Ok tt)
  else
    match b_proposer_index b with
    | None => (pa, Err OnBlockRequiresProposerIndex)
    | Some proposer =>
        let parent := b_parent_root b ≫= (fun r => indices pa !! r) in
        match new_node spec pa b proposer current_slot time_into_slot parent with
        | Err e => (pa, Err e)
        | Ok n =>
            match check_parent pa b parent with
            | Err e => (pa, Err e)
            | Ok _ => insert_node pa n (b_execution_status b)
            end
        end
    end.

(** * Ancestors *)

(** [Iter]: the nodes from [index] up, parent by parent. *)
Fixpoint ancestors (fuel : nat) (ns : list ProtoNode) (index : option nat) : list ProtoNode :=
  match fuel, index with
  | S fuel, Some i => match ns !! i with Some n => n :: ancestors fuel ns (pn_parent n) | None => [] end
  | _, _ => []
  end.

Definition iter_nodes (pa : ProtoArray) (block_root : bytes) : list ProtoNode :=
  ancestors (length (nodes pa)) (nodes pa) (indices pa !! block_root).

Definition iter_block_roots (pa : ProtoArray) (block_root : bytes) : list (bytes * Z) :=
  map (fun n => (pn_root n, pn_slot n)) (iter_nodes pa block_root).

Definition is_descendant (pa : ProtoArray) (ancestor_root descendant_root : bytes) : bool :=
  match indices pa !! ancestor_root ≫= (fun i => nodes pa !! i) with
  | None => false
  | Some ancestor =>
      match List.find (fun rs => snd rs =? pn_slot ancestor)
              (take_while (fun rs => pn_slot ancestor <=? snd rs) (iter_block_roots pa descendant_root)) with
      | Some (root, _) => bool_decide (root = ancestor_root)
      | None => false
      end
  end.

(** The loop of [is_finalized_checkpoint_or_descendant] over the node and its ancestors. *)
Fixpoint finalized_above (finalized_slot : Z) (finalized_root : bytes) (chain : list ProtoNode) : bool :=
  match chain with
  | [] => false
  | n :: chain =>
      if pn_slot n <=? finalized_slot then bool_decide (pn_root n = finalized_root)
      else finalized_above finalized_slot finalized_root chain
  end.

Definition knows_checkpoint (n : ProtoNode) (c : Checkpoint) : bool :=
  bool_decide (pn_finalized_checkpoint n = c) || bool_decide (pn_justified_checkpoint n = c)
  || bool_decide (pn_unrealized_finalized_checkpoint n = Some c) || bool_decide (pn_unrealized_justified_checkpoint n = Some c).

Definition is_finalized_checkpoint_or_descendant (spec : ForkSpec) (pa : ProtoArray) (root : bytes) (best_finalized : Checkpoint) : bool :=
  match iter_nodes pa root with
  | [] => false
  | n :: above =>
      if knows_checkpoint n best_finalized then true
      else finalized_above (start_slot (slots_per_epoch spec) (cp_epoch best_finalized)) (cp_root best_finalized) (n :: above)
  end.

Definition execution_block_hash_to_beacon_block_root (pa : ProtoArray) (hash : bytes) : option bytes :=
  pn_root <$> List.find (fun n => bool_decide (execution_status n ≫= block_hash = Some hash)) (rev (nodes pa)).

Definition heads_descended_from_finalization (spec : ForkSpec) (pa : ProtoArray) (best_finalized : Checkpoint) : list ProtoNode :=
  map snd (List.filter (fun '(i, n) =>
      negb (existsb (fun m => bool_decide (pn_parent m = Some i)) (nodes pa))
      && is_finalized_checkpoint_or_descendant spec pa (pn_root n) best_finalized)
    (enumerate (nodes pa))).

(** * Viability *)

Definition voting_source (spec : ForkSpec) (n : ProtoNode) (current_slot : Z) : Checkpoint :=
  if slot_epoch (slots_per_epoch spec) (pn_slot n) <? slot_epoch (slots_per_epoch spec) current_slot
  then default (pn_justified_checkpoint n) (pn_unrealized_justified_checkpoint n)
  else pn_justified_checkpoint n.

Definition node_is_viable_for_head (spec : ForkSpec) (pa : ProtoArray) (n : ProtoNode) (current_slot : Z)
    (best_justified best_finalized : Checkpoint) : bool :=
  if execution_invalid n then false
  else
    let source := voting_source spec n current_slot in
    let correct_justified :=
      (cp_epoch best_justified =? 0) || (cp_epoch source =? cp_epoch best_justified)
      || (slot_epoch (slots_per_epoch spec) current_slot <=? u64_sat_add (cp_epoch source) 2) in
    let correct_finalized :=
      (cp_epoch best_finalized =? 0) || is_finalized_checkpoint_or_descendant spec pa (pn_root n) best_finalized in
    correct_justified && correct_finalized.

(** The forward pass: [excluded[i]] for a node that is invalid or below one. *)
Fixpoint mark_excluded (ns : list ProtoNode) (order : list nat) (excluded : list bool) : Result (list bool) Error :=
  match order with
  | [] => Ok excluded
  | i :: order =>
      let? n := ok_or (ns !! i) (InvalidNodeIndex i) in
      let? above := match pn_parent n with Some p => ok_or (excluded !! p) (InvalidNodeIndex p) | None => Ok false end in
      mark_excluded ns order (<[i := above || execution_invalid n]> excluded)
  end.

(** The children that are not excluded. *)
Fixpoint valid_children (excluded : list bool) (cs : list nat) : Result (list nat) Error :=
  match cs with
  | [] => Ok []
  | c :: cs =>
      let? b := ok_or (excluded !! c) (InvalidNodeIndex c) in
      let? l := valid_children excluded cs in
      Ok (if b : bool then l else c :: l)
  end.

Section walk.
Context (spec : ForkSpec) (pa : ProtoArray) (current_slot : Z) (best_justified best_finalized : Checkpoint).

(** One turn of the reverse pass of [filter_block_tree]. *)
Definition mark_node (excluded : list bool) (i : nat) (viable : gset nat) : Result (gset nat) Error :=
  let? out := ok_or (excluded !! i) (InvalidNodeIndex i) in
  if out : bool then Ok viable
  else
    let? n := ok_or (nodes pa !! i) (InvalidNodeIndex i) in
    let? cs := ok_or (children pa !! i) (InvalidNodeIndex i) in
    let? valid := valid_children excluded cs in
    match valid with
    | [] => Ok (if node_is_viable_for_head spec pa n current_slot best_justified best_finalized then {[ i ]} ∪ viable else viable)
    | _ => Ok (if existsb (fun c => bool_decide (c ∈ viable)) valid then {[ i ]} ∪ viable else viable)
    end.

Fixpoint mark_viable (excluded : list bool) (order : list nat) (viable : gset nat) : Result (gset nat) Error :=
  match order with
  | [] => Ok viable
  | i :: order => let? viable := mark_node excluded i viable in mark_viable excluded order viable
  end.

Definition filter_block_tree (start : nat) (viable : gset nat) : Result (gset nat) Error :=
  let n := length (nodes pa) in
  let? excluded := mark_excluded (nodes pa) (seq (S start) (n - S start)) (repeat false n) in
  mark_viable excluded (rev (seq start (n - start))) viable.

Definition get_filtered_block_tree (start : nat) : Result (gset nat) Error := filter_block_tree start ∅.

(** * Weights *)

Record JustifiedBalances := mkBalances {
  effective_balances : list Z;
  total_effective_balance : Z;
  num_active_validators : Z
}.

Definition calculate_committee_fraction (b : JustifiedBalances) (percent : Z) : option Z :=
  if slots_per_epoch spec =? 0 then None
  else match u64_checked (total_effective_balance b / slots_per_epoch spec * percent) with
       | Some z => Some (z / 100)
       | None => None
       end.

Definition get_proposer_score (b : JustifiedBalances) : Result Z Error :=
  ok_or (calculate_committee_fraction b (proposer_score_boost spec)) (ProposerBoostOverflow 0).

Definition is_head_weak (n : ProtoNode) (b : JustifiedBalances) : bool :=
  let threshold := default 0 (calculate_committee_fraction b (reorg_head_weight_threshold spec)) in
  let equivocating := match as_v29 n with Some v => equivocating_attestation_score v | None => 0 end in
  u64_sat_add (attestation_score n Pending) equivocating <? threshold.

(** A block of the parent's slot and proposer, seen in time, other than the parent. *)
Definition equivocates (parent n : ProtoNode) : bool :=
  match as_v29 n with
  | None => false
  | Some v =>
      block_timeliness_ptc_threshold v
      && match as_v29 parent with Some pv => proposer_index v =? proposer_index pv | None => false end
      && (pn_slot n =? pn_slot parent) && negb (bool_decide (pn_root n = pn_root parent))
  end.

Definition node_of_root (root : bytes) : Result (nat * ProtoNode) Error :=
  let? i := ok_or (indices pa !! root) (NodeUnknown root) in
  let? n := ok_or (nodes pa !! i) (InvalidNodeIndex i) in
  Ok (i, n).

(** The parent of the boosted block. *)
Definition boosted_parent (boost_root : bytes) (n : ProtoNode) : Result ProtoNode Error :=
  let? p := ok_or (pn_parent n) (NodeUnknown boost_root) in
  ok_or (nodes pa !! p) (InvalidNodeIndex p).

Definition should_apply_proposer_boost (boost_root : bytes) (b : JustifiedBalances) : Result bool Error :=
  if bool_decide (boost_root = zero_root) then Ok false
  else
    let? (_, block) := node_of_root boost_root in
    let? parent := boosted_parent boost_root block in
    if u64_sat_add (pn_slot parent) 1 <? pn_slot block then Ok true
    else if negb (is_head_weak parent b) then Ok true
    else Ok (negb (existsb (equivocates parent) (nodes pa))).

Record IndexedForkChoiceNode := mkFc {
  fc_root : bytes;
  fc_index : nat;
  fc_status : PayloadStatus
}.

Record LatestMessage := mkMessage {
  msg_slot : Z;
  msg_root : bytes;
  msg_payload_present : bool
}.

(** The loop of [get_ancestor_node]. *)
Fixpoint ancestor_at (fuel : nat) (slot : Z) (child_index current_index : nat) : Result IndexedForkChoiceNode Error :=
  match fuel with
  | O => Err StepsExhausted
  | S fuel =>
      let? current := ok_or (nodes pa !! current_index) (InvalidNodeIndex current_index) in
      if pn_slot current <=? slot then
        let? child := ok_or (nodes pa !! child_index) (InvalidNodeIndex child_index) in
        Ok (mkFc (pn_root current) current_index (get_parent_payload_status child))
      else
        let? p := ok_or (pn_parent current) (NodeUnknown (pn_root current)) in
        ancestor_at fuel slot current_index p
  end.

Definition get_ancestor_node (root : bytes) (slot : Z) : Result IndexedForkChoiceNode Error :=
  let? (index, block) := node_of_root root in
  if pn_slot block <=? slot then Ok (mkFc root index Pending)
  else
    let? p := ok_or (pn_parent block) (NodeUnknown (pn_root block)) in
    ancestor_at (length (nodes pa)) slot index p.

Definition is_supporting_vote (node : IndexedForkChoiceNode) (message : LatestMessage) : Result bool Error :=
  let? block := ok_or (nodes pa !! fc_index node) (InvalidNodeIndex (fc_index node)) in
  if bool_decide (fc_root node = msg_root message) then
    Ok (bool_decide (fc_status node = Pending)
        || (negb (msg_slot message <=? pn_slot block)
            && (if msg_payload_present message then bool_decide (fc_status node = Full) else bool_decide (fc_status node = Empty))))
  else
    let? ancestor := get_ancestor_node (msg_root message) (pn_slot block) in
    Ok (bool_decide (fc_root node = fc_root ancestor)
        && (bool_decide (fc_status node = Pending) || bool_decide (fc_status node = fc_status ancestor))).

Definition get_weight (fc : IndexedForkChoiceNode) (n : ProtoNode) (apply_boost : bool) (boost_root : bytes) (b : JustifiedBalances)
    : Result Z Error :=
  if bool_decide (fc_status fc = Pending) || negb (u64_sat_add (pn_slot n) 1 =? current_slot) then
    let score := attestation_score n (fc_status fc) in
    if negb apply_boost then Ok score
    else
      let? supporting := is_supporting_vote fc (mkMessage current_slot boost_root false) in
      let? proposer_score := if supporting : bool then get_proposer_score b else Ok 0 in
      Ok (u64_sat_add score proposer_score)
  else Ok 0.

Definition should_extend_payload (fc : IndexedForkChoiceNode) (n : ProtoNode) (boost_root : bytes) : Result bool Error :=
  match as_v29 n with
  | None => Err (InvalidNodeVariant (fc_root fc))
  | Some v =>
      if negb (payload_received v) then Ok false
      else if bool_decide (boost_root = zero_root) then Ok true
      else
        let? (_, boosted) := node_of_root boost_root in
        let? parent := boosted_parent boost_root boosted in
        let? timely := payload_timeliness spec n true in
        let? available := if timely : bool then payload_data_availability spec n true else Ok false in
        Ok (available || negb (bool_decide (pn_root parent = fc_root fc)) || is_parent_node_full boosted)
  end.

Definition get_payload_status_tiebreaker (fc : IndexedForkChoiceNode) (n : ProtoNode) (boost_root : bytes) : Result Z Error :=
  if bool_decide (fc_status fc = Pending) || negb (u64_sat_add (pn_slot n) 1 =? current_slot) then Ok (payload_status_u8 (fc_status fc))
  else if bool_decide (fc_status fc = Empty) then Ok 1
  else let? extend := should_extend_payload fc n boost_root in Ok (if extend : bool then 2 else 0).

Definition should_build_on_full (fc : IndexedForkChoiceNode) (n : ProtoNode) : Result bool Error :=
  match fc_status fc with
  | Pending => Err (InvalidPayloadStatus (pn_root n) Pending)
  | Empty => Ok false
  | Full =>
      if negb (u64_sat_add (pn_slot n) 1 =? current_slot) then Ok true
      else
        let? unavailable := payload_data_availability spec n false in
        if unavailable : bool then Ok false
        else let? late := payload_timeliness spec n false in Ok (negb late)
  end.

(** [get_canonical_payload_status]: which of the two payload branches the walk takes. *)
Definition get_canonical_payload_status (root : bytes) (boost_root : bytes) (b : JustifiedBalances) : Result PayloadStatus Error :=
  let? (i, n) := node_of_root root in
  let? v := ok_or (as_v29 n) (InvalidNodeVariant root) in
  if negb (payload_received v) then Ok Empty
  else
    let? apply_boost := should_apply_proposer_boost boost_root b in
    let? full := get_weight (mkFc root i Full) n apply_boost boost_root b in
    let? empty := get_weight (mkFc root i Empty) n apply_boost boost_root b in
    match full ?= empty with
    | Gt => Ok Full
    | Lt => Ok Empty
    | Eq =>
        let? full_tb := get_payload_status_tiebreaker (mkFc root i Full) n boost_root in
        let? empty_tb := get_payload_status_tiebreaker (mkFc root i Empty) n boost_root in
        Ok (if empty_tb <=? full_tb then Full else Empty)
    end.

(** * The walk to the head *)

(** The children of a decided node, whose payload status they extend. *)
Fixpoint decided_children (status : PayloadStatus) (cs : list nat) : Result (list (IndexedForkChoiceNode * ProtoNode)) Error :=
  match cs with
  | [] => Ok []
  | i :: cs =>
      let? child := ok_or (nodes pa !! i) (InvalidNodeIndex i) in
      let? l := decided_children status cs in
      Ok (if bool_decide (get_parent_payload_status child = status) then (mkFc (pn_root child) i Pending, child) :: l else l)
  end.

Definition get_node_children (fc : IndexedForkChoiceNode) : Result (list (IndexedForkChoiceNode * ProtoNode)) Error :=
  match fc_status fc with
  | Pending =>
      let? n := ok_or (nodes pa !! fc_index fc) (InvalidNodeIndex (fc_index fc)) in
      Ok ((mkFc (fc_root fc) (fc_index fc) Empty, n)
          :: (if match as_v29 n with Some v => payload_received v | None => false end
              then [(mkFc (fc_root fc) (fc_index fc) Full, n)] else []))
  | status =>
      let? cs := ok_or (children pa !! fc_index fc) (InvalidNodeIndex (fc_index fc)) in
      decided_children status cs
  end.

(** A child with the key [max_by_key] compares: weight, root, tie-breaker. *)
Record Candidate := mkCandidate {
  cd_node : IndexedForkChoiceNode;
  cd_weight : Z;
  cd_tiebreaker : Z
}.

Definition candidate_compare (x y : Candidate) : comparison :=
  match cd_weight x ?= cd_weight y with
  | Eq => match root_compare (fc_root (cd_node x)) (fc_root (cd_node y)) with
          | Eq => cd_tiebreaker x ?= cd_tiebreaker y
          | c => c
          end
  | c => c
  end.

(** [max_by_key]: the last of the greatest. *)
Definition later_if_not_less (x y : Candidate) : Candidate := match candidate_compare x y with Gt => x | _ => y end.
Definition max_candidate (l : list Candidate) : option Candidate :=
  match l with [] => None | x :: l => Some (fold_left later_if_not_less l x) end.

Fixpoint weigh_children (apply_boost : bool) (boost_root : bytes) (b : JustifiedBalances)
    (cs : list (IndexedForkChoiceNode * ProtoNode)) : Result (list Candidate) Error :=
  match cs with
  | [] => Ok []
  | (fc, n) :: cs =>
      let? w := get_weight fc n apply_boost boost_root b in
      let? tb := get_payload_status_tiebreaker fc n boost_root in
      let? l := weigh_children apply_boost boost_root b cs in
      Ok (mkCandidate fc w tb :: l)
  end.

(** The loop of [find_head_walk]. *)
Fixpoint walk (fuel : nat) (viable : gset nat) (apply_boost : bool) (boost_root : bytes) (b : JustifiedBalances)
    (head : IndexedForkChoiceNode) : Result IndexedForkChoiceNode Error :=
  match fuel with
  | O => Err StepsExhausted
  | S fuel =>
      let? cs := get_node_children head in
      let cs := List.filter (fun c => bool_decide (fc_index (fst c) ∈ viable)) cs in
      match cs with
      | [] => Ok head
      | _ =>
          let? l := weigh_children apply_boost boost_root b cs in
          let? best := ok_or (max_candidate l) NoViableChildren in
          walk fuel viable apply_boost boost_root b (cd_node best)
      end
  end.

Definition find_head_walk (start : nat) (boost_root : bytes) (b : JustifiedBalances) : Result IndexedForkChoiceNode Error :=
  let? viable := get_filtered_block_tree start in
  let? apply_boost := should_apply_proposer_boost boost_root b in
  walk (2 * length (nodes pa) + 2) viable apply_boost boost_root b (mkFc (cp_root best_justified) start Pending).

(** [ProtoArray::find_head]. *)
Definition find_head (justified_root boost_root : bytes) (b : JustifiedBalances) : Result (bytes * PayloadStatus) Error :=
  let? i := ok_or (indices pa !! justified_root) (JustifiedNodeUnknown justified_root) in
  let? n := ok_or (nodes pa !! i) (InvalidJustifiedIndex i) in
  if execution_invalid n then Err (InvalidJustifiedCheckpointExecutionStatus justified_root)
  else let? head := find_head_walk i boost_root b in Ok (fc_root head, fc_status head).
End walk.

(** * Pruning *)

(** [children] recomputed from the parents, once the nodes have been decoded. *)
Fixpoint add_children (entries : list (nat * ProtoNode)) (cs : list (list nat)) : Result (list (list nat)) Error :=
  match entries with
  | [] => Ok cs
  | (i, n) :: entries =>
      match pn_parent n with
      | None => add_children entries cs
      | Some p => let? cs := ok_or (push_child cs p i) (InvalidNodeIndex p) in add_children entries cs
      end
  end.

Definition rebuild_children_index (pa : ProtoArray) : ProtoArray * Result unit Error :=
  match add_children (enumerate (nodes pa)) (repeat [] (length (nodes pa))) with
  | Ok cs => (mkProtoArray (prune_threshold pa) (nodes pa) (indices pa) cs, Ok tt)
  | Err e => (pa, Err e)
  end.

(** The removal of the roots of the nodes before the finalized one. *)
Fixpoint remove_roots (ns : list ProtoNode) (order : list nat) (m : gmap bytes nat) : gmap bytes nat * Result unit Error :=
  match order with
  | [] => (m, Ok tt)
  | i :: order =>
      match ns !! i with
      | None => (m, Err (InvalidNodeIndex i))
      | Some n => remove_roots ns order (delete (pn_root n) m)
      end
  end.

(** [checked_sub] of [k] on each index in turn, stopping at the first that is smaller. *)
Fixpoint shift_list (k : nat) (l : list nat) : list nat * Result unit Error :=
  match l with
  | [] => ([], Ok tt)
  | i :: l =>
      if Nat.ltb i k then (i :: l, Err (IndexOverflow "children"))
      else let '(l, r) := shift_list k l in ((i - k)%nat :: l, r)
  end.

Fixpoint shift_children (k : nat) (cs : list (list nat)) : list (list nat) * Result unit Error :=
  match cs with
  | [] => ([], Ok tt)
  | l :: cs =>
      match shift_list k l with
      | (l, Err e) => (l :: cs, Err e)
      | (l, Ok _) => let '(cs, r) := shift_children k cs in (l :: cs, r)
      end
  end.

Fixpoint shift_entries (k : nat) (entries : list (bytes * nat)) (m : gmap bytes nat) : gmap bytes nat * Result unit Error :=
  match entries with
  | [] => (m, Ok tt)
  | (root, i) :: entries =>
      if Nat.ltb i k then (m, Err (IndexOverflow "indices"))
      else shift_entries k entries (<[root := (i - k)%nat]> m)
  end.

(** A parent before the finalized node becomes [None]. *)
Definition shift_parent (k : nat) (n : ProtoNode) : ProtoNode :=
  match pn_parent n with
  | None => n
  | Some p => with_parent n (if Nat.ltb p k then None else Some (p - k)%nat)
  end.

(** [maybe_prune]; [split_off] past the end of [children] panics. *)
Definition maybe_prune (pa : ProtoArray) (finalized_root : bytes) : Outcome (ProtoArray * Result unit Error) :=
  match indices pa !! finalized_root with
  | None => Ret (pa, Err (FinalizedNodeUnknown finalized_root))
  | Some k =>
      if Nat.ltb k (prune_threshold pa) then Ret (pa, Ok tt)
      else
        match remove_roots (nodes pa) (seq 0 k) (indices pa) with
        | (m, Err e) => Ret (mkProtoArray (prune_threshold pa) (nodes pa) m (children pa), Err e)
        | (m, Ok _) =>
            if Nat.ltb (length (children pa)) k then Panic
            else
              let ns := drop k (nodes pa) in
              match shift_children k (drop k (children pa)) with
              | (cs, Err e) => Ret (mkProtoArray (prune_threshold pa) ns m cs, Err e)
              | (cs, Ok _) =>
                  match shift_entries k (map_to_list m) m with
                  | (m, Err e) => Ret (mkProtoArray (prune_threshold pa) ns m cs, Err e)
                  | (m, Ok _) => Ret (mkProtoArray (prune_threshold pa) (map (shift_parent k) ns) m cs, Ok tt)
                  end
              end
        end
  end.

(** * Invalidation *)

Inductive InvalidationOperation :=
  | InvalidateOne (block_root : bytes)
  | InvalidateMany (head_block_root : bytes) (always_invalidate_head : bool) (latest_valid_ancestor : bytes).

Definition op_block_root (op : InvalidationOperation) : bytes :=
  match op with InvalidateOne r => r | InvalidateMany r _ _ => r end.
Definition op_latest_valid_ancestor (op : InvalidationOperation) : option bytes :=
  match op with InvalidateOne _ => None | InvalidateMany _ _ h => Some h end.
Definition invalidate_block_root (op : InvalidationOperation) : bool :=
  match op with InvalidateOne _ => true | InvalidateMany _ b _ => b end.

(** Step 1: from the head back to the latest valid ancestor. *)
Fixpoint invalidate_ancestors (fuel : nat) (op : InvalidationOperation) (known_ancestor : bool) (ns : list ProtoNode)
    (invalidated : gset nat) (index : nat) : list ProtoNode * Result (gset nat) Error :=
  match fuel with
  | O => (ns, Err StepsExhausted)
  | S fuel =>
      match ns !! index with
      | None => (ns, Err (InvalidNodeIndex index))
      | Some n =>
          let is_head := bool_decide (pn_root n = op_block_root op) in
          let continue ns invalidated :=
            match pn_parent n with
            | Some p => invalidate_ancestors fuel op known_ancestor ns invalidated p
            | None => (ns, Ok invalidated)
            end in
          match execution_status n with
          | None | Some (Irrelevant _) => (ns, Ok invalidated)
          | Some ((Valid hash | Invalid hash | Optimistic hash) as status) =>
              if negb known_ancestor && negb is_head then (ns, Ok invalidated)
              else if bool_decide (op_latest_valid_ancestor op = Some hash) then (ns, Ok invalidated)
              else if negb is_head || invalidate_block_root op || known_ancestor then
                match status with
                | Valid h => (ns, Err (ValidExecutionStatusBecameInvalid (pn_root n) h))
                | Optimistic h => continue (<[index := set_execution_status n (Invalid h)]> ns) ({[ index ]} ∪ invalidated)
                | _ => continue ns invalidated
                end
              else continue ns invalidated
          end
      end
  end.

(** Step 2: forwards, every node whose parent has been invalidated. *)
Fixpoint invalidate_descendants (ns : list ProtoNode) (invalidated : gset nat) (order : list nat) : list ProtoNode * Result unit Error :=
  match order with
  | [] => (ns, Ok tt)
  | i :: order =>
      match ns !! i with
      | None => (ns, Err (InvalidNodeIndex i))
      | Some n =>
          if match pn_parent n with Some p => bool_decide (p ∈ invalidated) | None => false end then
            match execution_status n with
            | Some (Valid h) => (ns, Err (ValidExecutionStatusBecameInvalid (pn_root n) h))
            | Some (Irrelevant _) => (ns, Err (IrrelevantDescendant (pn_root n)))
            | Some (Optimistic h) | Some (Invalid h) =>
                invalidate_descendants (<[i := set_execution_status n (Invalid h)]> ns) ({[ i ]} ∪ invalidated) order
            | None => invalidate_descendants ns ({[ i ]} ∪ invalidated) order
            end
          else invalidate_descendants ns invalidated order
      end
  end.

Definition propagate_execution_payload_invalidation (spec : ForkSpec) (pa : ProtoArray) (op : InvalidationOperation)
    (best_finalized : Checkpoint) : ProtoArray * Result unit Error :=
  let head := op_block_root op in
  match indices pa !! head with
  | None => (pa, Err (NodeUnknown head))
  | Some index =>
      let ancestor_root := op_latest_valid_ancestor op ≫= execution_block_hash_to_beacon_block_root pa in
      let known_ancestor :=
        match ancestor_root with
        | Some r => is_descendant pa r head && is_finalized_checkpoint_or_descendant spec pa r best_finalized
        | None => false
        end in
      match invalidate_ancestors (S (length (nodes pa))) op known_ancestor (nodes pa) ∅ index with
      | (ns, Err e) => (with_nodes pa ns, Err e)
      | (ns, Ok invalidated) =>
          let starting := if known_ancestor then default head ancestor_root else head in
          match indices pa !! starting with
          | None => (with_nodes pa ns, Err (NodeUnknown starting))
          | Some k =>
              let '(ns, r) := invalidate_descendants ns invalidated (seq (S k) (length ns - S k)) in
              (with_nodes pa ns, r)
          end
      end
  end.
