(* ===== verification/ForkChoice.v ===== *)
(** * Votes and the fork choice

    [ProtoArrayForkChoice]
    (src/ethereum-topostake/lighthouse/consensus/proto_array/src/proto_array_fork_choice.rs
    and justified_balances.rs): the latest vote of each validator, the balances the
    scores were last computed with, the deltas between two computations, and the
    operations the client calls.

    A validator index is a [nat] for the vote list and a [u64] for the set of
    equivocating indices.  The wrappers turn an [Error] into a string by its debug form;
    [FcError] keeps the message's prefix and the error instead. *)

From S2P Require Export Prelude Justification ProtoArray.
Local Open Scope rust_scope.
Local Open Scope Z_scope.

Definition DEFAULT_PRUNE_THRESHOLD : nat := 256.

Record VoteTracker := mkVote {
  current_root : bytes;
  next_root : bytes;
  vt_current_slot : Z;
  next_slot : Z;
  current_payload_present : bool;
  next_payload_present : bool
}.

#[export] Instance vote_tracker_eq_decision : EqDecision VoteTracker.
Proof. solve_decision. Defined.

(** [VoteTracker::default()]. *)
Definition default_vote : VoteTracker := mkVote zero_root zero_root 0 0 false false.

(** [ElasticList::ensure]. *)
Definition ensure (votes : list VoteTracker) (i : nat) : list VoteTracker :=
  if Nat.leb (length votes) i then votes ++ repeat default_vote (S i - length votes) else votes.

(** * Balances *)

(** [JustifiedBalances::from_effective_balances]. *)
Fixpoint sum_balances (l : list Z) (total active : Z) : Result (Z * Z) EpochError :=
  match l with
  | [] => Ok (total, active)
  | b :: l =>
      if b =? 0 then sum_balances l total active
      else
        let? total := safe_add total b in
        let? active := safe_add active 1 in
        sum_balances l total active
  end.

Definition from_effective_balances (l : list Z) : Result JustifiedBalances EpochError :=
  let? (total, active) := sum_balances l 0 0 in Ok (mkBalances l total active).

(** What [from_justified_state] reads of a validator. *)
Record JustifiedValidator := mkJustifiedValidator {
  jv_slashed : bool;
  jv_activation_epoch : Z;
  jv_exit_epoch : Z;
  jv_effective_balance : Z
}.

Definition is_active_at (v : JustifiedValidator) (epoch : Z) : bool := (jv_activation_epoch v <=? epoch) && (epoch <? jv_exit_epoch v).

Fixpoint justified_balances (l : list JustifiedValidator) (epoch total active : Z) : Result (list Z * Z * Z) EpochError :=
  match l with
  | [] => Ok ([], total, active)
  | v :: l =>
      if negb (jv_slashed v) && is_active_at v epoch then
        let? total := safe_add total (jv_effective_balance v) in
        let? active := safe_add active 1 in
        let? (bs, total, active) := justified_balances l epoch total active in
        Ok (jv_effective_balance v :: bs, total, active)
      else
        let? (bs, total, active) := justified_balances l epoch total active in
        Ok (0 :: bs, total, active)
  end.

Definition from_justified_state (l : list JustifiedValidator) (current_epoch : Z) : Result JustifiedBalances EpochError :=
  let? (bs, total, active) := justified_balances l current_epoch 0 0 in Ok (mkBalances bs total active).

(** * Deltas *)

Section deltas.
Context (index_of : gmap bytes nat) (node_slots : list Z) (old_balances new_balances : list Z) (equivocating : gset Z).
Implicit Types deltas : list NodeDelta.

Definition balance (l : list Z) (val_index : nat) : Z := default 0 (l !! val_index).

(** A vote for [root] of [slot] and [present] gains [d]: nothing when the root is not in
    the tree. *)
Definition change_delta deltas (root : bytes) (slot : Z) (present : bool) (d : Z) : Result (list NodeDelta) Error :=
  match index_of !! root with
  | None => Ok deltas
  | Some i =>
      let? nd := ok_or (deltas !! i) (InvalidNodeDelta i) in
      let? z := ok_or (i64_checked (nd_delta nd + d)) (DeltaOverflow i) in
      let? block_slot := ok_or (node_slots !! i) (InvalidNodeDelta i) in
      let nd := mkDelta z (empty_delta nd) (full_delta nd) (equivocating_attestation_delta nd) in
      let? nd := add_payload_delta nd (vote_payload_status slot present block_slot) d i in
      Ok (<[i := nd]> deltas)
  end.

(** The weight a newly slashed validator's vote leaves in [equivocating_attestation_delta]. *)
Definition note_equivocation deltas (root : bytes) (b : Z) : list NodeDelta :=
  match index_of !! root with
  | None => deltas
  | Some i => alter (fun nd => mkDelta (nd_delta nd) (empty_delta nd) (full_delta nd) (u64_sat_add (equivocating_attestation_delta nd) b)) i deltas
  end.

Definition vote_changed (v : VoteTracker) (old_balance new_balance : Z) : bool :=
  negb (bool_decide (current_root v = next_root v)) || negb (old_balance =? new_balance)
  || negb (Bool.eqb (current_payload_present v) (next_payload_present v)) || negb (vt_current_slot v =? next_slot v).

(** One turn of the loop of [compute_deltas]. *)
Definition delta_vote (val_index : nat) (v : VoteTracker) deltas : VoteTracker * Result (list NodeDelta) Error :=
  if bool_decide (current_root v = zero_root) && bool_decide (next_root v = zero_root) then (v, Ok deltas)
  else
    let old_balance := balance old_balances val_index in
    if bool_decide (Z.of_nat val_index ∈ equivocating) then
      if negb (bool_decide (current_root v = zero_root)) then
        match change_delta deltas (current_root v) (vt_current_slot v) (current_payload_present v) (- as_i64 old_balance) with
        | Err e => (v, Err e)
        | Ok deltas =>
            (mkVote zero_root (next_root v) 0 (next_slot v) false (next_payload_present v),
             Ok (note_equivocation deltas (current_root v) old_balance))
        end
      else (v, Ok deltas)
    else
      let new_balance := balance new_balances val_index in
      if vote_changed v old_balance new_balance then
        match change_delta deltas (current_root v) (vt_current_slot v) (current_payload_present v) (- as_i64 old_balance) with
        | Err e => (v, Err e)
        | Ok deltas =>
            match change_delta deltas (next_root v) (next_slot v) (next_payload_present v) (as_i64 new_balance) with
            | Err e => (v, Err e)
            | Ok deltas =>
                (mkVote (next_root v) (next_root v) (next_slot v) (next_slot v) (next_payload_present v) (next_payload_present v), Ok deltas)
            end
        end
      else (v, Ok deltas).

Fixpoint delta_votes (val_index : nat) (votes : list VoteTracker) deltas : list VoteTracker * Result (list NodeDelta) Error :=
  match votes with
  | [] => ([], Ok deltas)
  | v :: votes =>
      match delta_vote val_index v deltas with
      | (v, Err e) => (v :: votes, Err e)
      | (v, Ok deltas) => let '(votes, r) := delta_votes (S val_index) votes deltas in (v :: votes, r)
      end
  end.

Definition compute_deltas (votes : list VoteTracker) : list VoteTracker * Result (list NodeDelta) Error :=
  delta_votes 0 votes (repeat no_delta (size index_of)).
End deltas.

(** * The fork choice *)

Record ProtoArrayForkChoice := mkForkChoice {
  proto_array : ProtoArray;
  votes : list VoteTracker;
  balances : JustifiedBalances
}.

Inductive FcError :=
  | FcFailed (what : string) (cause : Error)
  | FcMessage (what : string).

Definition fc_result {A} (what : string) (r : Result A Error) : Result A FcError :=
  match r with Ok a => Ok a | Err e => Err (FcFailed what e) end.

Definition with_proto_array (fc : ProtoArrayForkChoice) (what : string) (r : ProtoArray * Result unit Error)
    : ProtoArrayForkChoice * Result unit FcError :=
  (mkForkChoice (fst r) (votes fc) (balances fc), fc_result what (snd r)).

Definition fork_choice_new (spec : ForkSpec) (current_slot finalized_block_slot : Z) (finalized_block_state_root : bytes)
    (justified finalized : Checkpoint) (current_shuffling next_shuffling : AttestationShufflingId) (status : ExecutionStatus)
    (parent_hash block_hash : option bytes) (proposer : Z) : Result ProtoArrayForkChoice FcError :=
  let block := mkBlock finalized_block_slot (cp_root finalized) None finalized_block_state_root (cp_root finalized)
    current_shuffling next_shuffling justified finalized status (Some justified) (Some finalized) parent_hash block_hash (Some proposer) false in
  match on_block spec (mkProtoArray DEFAULT_PRUNE_THRESHOLD [] ∅ []) block current_slot 0 with
  | (_, Err e) => Err (FcFailed "Failed to add finalized block to proto_array" e)
  | (pa, Ok _) => Ok (mkForkChoice pa [] (mkBalances [] 0 0))
  end.

Definition process_execution_payload_validation (fc : ProtoArrayForkChoice) (block_root : bytes) :=
  with_proto_array fc "Failed to process valid payload" (propagate_execution_payload_validation (proto_array fc) block_root).

Definition process_execution_payload_invalidation (spec : ForkSpec) (fc : ProtoArrayForkChoice) (op : InvalidationOperation) (finalized : Checkpoint) :=
  with_proto_array fc "Failed to process invalid payload" (propagate_execution_payload_invalidation spec (proto_array fc) op finalized).

Definition process_valid_payload_envelope (fc : ProtoArrayForkChoice) (block_root : bytes) :=
  with_proto_array fc "Failed to process execution payload" (on_valid_payload_envelope_received (proto_array fc) block_root).

(** [process_attestation]: a later vote replaces the one waiting, and any vote the
    initial one. *)
Definition later_vote (v : VoteTracker) (block_root : bytes) (slot : Z) (present : bool) : VoteTracker :=
  if (next_slot v <? slot) || bool_decide (v = default_vote)
  then mkVote (current_root v) block_root (vt_current_slot v) slot (current_payload_present v) present
  else v.

Definition process_attestation (fc : ProtoArrayForkChoice) (validator_index : nat) (block_root : bytes) (slot : Z) (present : bool)
    : ProtoArrayForkChoice :=
  mkForkChoice (proto_array fc)
    (alter (fun v => later_vote v block_root slot present) validator_index (ensure (votes fc) validator_index)) (balances fc).

(** [BitVector::set] on the 512 votes of the payload committee. *)
Definition set_ptc_vote (bits : list bool) (i : nat) (b : bool) : Result (list bool) FcError :=
  if Nat.ltb i (length bits) then Ok (<[i := b]> bits) else Err (FcMessage "process_payload_attestation: set failed").

Definition set_ptc_votes (v : NodeV29) (i : nat) (present available : bool) : Result NodeV29 FcError :=
  let? timely := set_ptc_vote (payload_timeliness_votes v) i present in
  let? data := set_ptc_vote (payload_data_availability_votes v) i available in
  let? all := set_ptc_vote (ptc_participation v) i true in
  Ok (mkV29 (parent_payload_status v) (empty_payload_weight v) (full_payload_weight v) (execution_payload_block_hash v)
    (execution_payload_parent_hash v) (block_timeliness_attestation_threshold v) (block_timeliness_ptc_threshold v)
    timely data all (payload_received v) (proposer_index v) (equivocating_attestation_score v)).

Definition process_payload_attestation (fc : ProtoArrayForkChoice) (block_root : bytes) (ptc_index : nat) (present available : bool)
    : ProtoArrayForkChoice * Result unit FcError :=
  let pa := proto_array fc in
  match indices pa !! block_root with
  | None => (fc, Err (FcMessage "process_payload_attestation: unknown block root"))
  | Some i =>
      match nodes pa !! i with
      | None => (fc, Err (FcMessage "process_payload_attestation: invalid node index"))
      | Some n =>
          match as_v29 n with
          | None => (fc, Err (FcMessage "process_payload_attestation: node is not V29"))
          | Some v =>
              match set_ptc_votes v ptc_index present available with
              | Err e => (fc, Err e)
              | Ok v => (mkForkChoice (with_nodes pa (<[i := with_variant n (V29 v)]> (nodes pa))) (votes fc) (balances fc), Ok tt)
              end
          end
      end
  end.

Definition process_block (spec : ForkSpec) (fc : ProtoArrayForkChoice) (b : Block) (current_slot time_into_slot : Z)
    : ProtoArrayForkChoice * Result unit FcError :=
  match b_parent_root b with
  | None => (fc, Err (FcMessage "Missing parent root"))
  | Some _ => with_proto_array fc "process_block_error" (on_block spec (proto_array fc) b current_slot time_into_slot)
  end.

(** The scoring half of [find_head]: deltas of the votes, applied to the weights. *)
Definition update_scores (fc : ProtoArrayForkChoice) (new_balances : JustifiedBalances) (equivocating : gset Z)
    : ProtoArrayForkChoice * Result unit FcError :=
  let pa := proto_array fc in
  let '(vs, r) := compute_deltas (indices pa) (map pn_slot (nodes pa)) (effective_balances (balances fc))
                    (effective_balances new_balances) equivocating (votes fc) in
  match r with
  | Err e => (mkForkChoice pa vs (balances fc), Err (FcFailed "find_head compute_deltas failed" e))
  | Ok deltas =>
      match apply_score_changes pa deltas with
      | (pa, Err e) => (mkForkChoice pa vs (balances fc), Err (FcFailed "find_head apply_score_changes failed" e))
      | (pa, Ok _) => (mkForkChoice pa vs new_balances, Ok tt)
      end
  end.

(** [ProtoArrayForkChoice::find_head]. *)
Definition fork_choice_find_head (spec : ForkSpec) (fc : ProtoArrayForkChoice) (justified finalized : Checkpoint)
    (new_balances : JustifiedBalances) (boost_root : bytes) (equivocating : gset Z) (current_slot : Z)
    : ProtoArrayForkChoice * Result (bytes * PayloadStatus) FcError :=
  match update_scores fc new_balances equivocating with
  | (fc, Err e) => (fc, Err e)
  | (fc, Ok _) =>
      (fc, fc_result "find_head failed"
             (find_head spec (proto_array fc) current_slot justified finalized (cp_root justified) boost_root new_balances))
  end.

Definition fork_choice_maybe_prune (fc : ProtoArrayForkChoice) (finalized_root : bytes) : Outcome (ProtoArrayForkChoice * Result unit FcError) :=
  let! r := maybe_prune (proto_array fc) finalized_root in
  Ret (with_proto_array fc "find_head maybe_prune failed" r).

Definition set_prune_threshold (fc : ProtoArrayForkChoice) (t : nat) : ProtoArrayForkChoice :=
  let pa := proto_array fc in
  mkForkChoice (mkProtoArray t (nodes pa) (indices pa) (children pa)) (votes fc) (balances fc).

Definition latest_message (fc : ProtoArrayForkChoice) (validator_index : nat) : option LatestMessage :=
  match votes fc !! validator_index with
  | None => None
  | Some v => if bool_decide (v = default_vote) then None else Some (mkMessage (next_slot v) (next_root v) (next_payload_present v))
  end.

Definition fork_choice_get_weight (fc : ProtoArrayForkChoice) (block_root : bytes) : option Z :=
  pn_weight <$> (indices (proto_array fc) !! block_root ≫= fun i => nodes (proto_array fc) !! i).

(** * Re-orgs by the proposer *)

Inductive DoNotReOrg :=
  | MissingHeadOrParentNode
  | MissingHeadFinalizedCheckpoint
  | ParentDistance
  | HeadDistance
  | JustificationAndFinalizationNotCompetitive
  | ChainNotFinalizing (epochs_since_finalization : Z)
  | HeadNotWeak (head_weight re_org_head_weight_threshold : Z)
  | ParentNotStrong (parent_weight re_org_parent_weight_threshold : Z).

Inductive ProposerHeadError := ReOrgRefused (reason : DoNotReOrg) | ReOrgError (e : Error).

Record ProposerHeadInfo := mkHeadInfo {
  hi_head_node : ProtoNode;
  hi_parent_node : ProtoNode;
  hi_re_org_head_weight_threshold : Z;
  hi_re_org_parent_weight_threshold : Z;
  hi_current_slot : Z
}.

Section reorg.
Context (spec : ForkSpec) (fc : ProtoArrayForkChoice) (current_slot : Z) (canonical_head : bytes) (b : JustifiedBalances)
  (re_org_head_threshold re_org_parent_threshold max_epochs_since_finalization : Z).

(** [iter_nodes(&canonical_head).take(2)]: the head and its parent. *)
Definition head_and_parent : Result (ProtoNode * ProtoNode) ProposerHeadError :=
  match iter_nodes (proto_array fc) canonical_head with
  | head :: parent :: _ => Ok (head, parent)
  | _ => Err (ReOrgRefused MissingHeadOrParentNode)
  end.

Definition re_org_threshold (percent : Z) : Result Z ProposerHeadError :=
  ok_or (calculate_committee_fraction spec b percent) (ReOrgError ReOrgThresholdOverflow).

Definition get_proposer_head_info : Result ProposerHeadInfo ProposerHeadError :=
  let? (head, parent) := head_and_parent in
  let? finalized := ok_or (pn_unrealized_finalized_checkpoint head) (ReOrgRefused MissingHeadFinalizedCheckpoint) in
  let since := u64_sat_sub (slot_epoch (slots_per_epoch spec) (u64_sat_add (pn_slot head) 1)) (cp_epoch finalized) in
  if max_epochs_since_finalization <? since then Err (ReOrgRefused (ChainNotFinalizing since))
  else if negb (u64_sat_add (pn_slot parent) 1 =? pn_slot head) then Err (ReOrgRefused ParentDistance)
  else if negb (bool_decide (pn_unrealized_justified_checkpoint parent = pn_unrealized_justified_checkpoint head)
                && bool_decide (pn_unrealized_finalized_checkpoint parent = pn_unrealized_finalized_checkpoint head))
  then Err (ReOrgRefused JustificationAndFinalizationNotCompetitive)
  else
    let? head_threshold := re_org_threshold re_org_head_threshold in
    let? parent_threshold := re_org_threshold re_org_parent_threshold in
    Ok (mkHeadInfo head parent head_threshold parent_threshold current_slot).

Definition get_proposer_head : Result ProposerHeadInfo ProposerHeadError :=
  let? info := get_proposer_head_info in
  let head_weight := pn_weight (hi_head_node info) in
  let parent_weight := attestation_score (hi_parent_node info) Pending in
  if negb (u64_sat_add (pn_slot (hi_head_node info)) 1 =? current_slot) then Err (ReOrgRefused HeadDistance)
  else if negb (head_weight <? hi_re_org_head_weight_threshold info)
  then Err (ReOrgRefused (HeadNotWeak head_weight (hi_re_org_head_weight_threshold info)))
  else if negb (hi_re_org_parent_weight_threshold info <? parent_weight)
  then Err (ReOrgRefused (ParentNotStrong parent_weight (hi_re_org_parent_weight_threshold info)))
  else Ok info.
End reorg.

(** * Forgetting the execution verdicts *)

Definition contains_invalid_payloads (fc : ProtoArrayForkChoice) : bool := existsb execution_invalid (nodes (proto_array fc)).

(** The balances of the votes counted for [root]; [sum()] wraps. *)
Fixpoint counted_balance (bs : list Z) (root : bytes) (val_index : nat) (vs : list VoteTracker) : Z :=
  match vs with
  | [] => 0
  | v :: vs =>
      u64_add (if bool_decide (current_root v = root) then balance bs val_index else 0) (counted_balance bs root (S val_index) vs)
  end.

(** The restored weight goes to the node and to all its ancestors. *)
Fixpoint restore_weight (fuel : nat) (ns : list ProtoNode) (i : nat) (w : Z) : list ProtoNode * Result unit FcError :=
  match fuel with
  | O => (ns, Err (FcMessage "steps exhausted"))
  | S fuel =>
      match ns !! i with
      | None => (ns, Err (FcMessage "Missing parent index"))
      | Some n =>
          match u64_checked (pn_weight n + w) with
          | None => (ns, Err (FcMessage "Overflow when adding weight to ancestor"))
          | Some z =>
              let ns := <[i := with_weight n z]> ns in
              match pn_parent n with
              | Some p => restore_weight fuel ns p w
              | None => (ns, Ok tt)
              end
          end
      end
  end.

Definition make_optimistic (bs : list Z) (vs : list VoteTracker) (ns : list ProtoNode) (i : nat) : list ProtoNode * Result unit FcError :=
  match ns !! i with
  | None => (ns, Err (FcMessage "unreachable index out of bounds in proto_array nodes"))
  | Some n =>
      match execution_status n with
      | Some (Invalid h) =>
          let ns := <[i := set_execution_status n (Optimistic h)]> ns in
          let w := counted_balance bs (pn_root n) 0 vs in
          if 0 <? w then restore_weight (S (length ns)) ns i w else (ns, Ok tt)
      | Some (Valid h) | Some (Optimistic h) => (<[i := set_execution_status n (Optimistic h)]> ns, Ok tt)
      | Some (Irrelevant _) | None => (ns, Ok tt)
      end
  end.

Fixpoint make_all_optimistic (bs : list Z) (vs : list VoteTracker) (order : list nat) (ns : list ProtoNode)
    : list ProtoNode * Result unit FcError :=
  match order with
  | [] => (ns, Ok tt)
  | i :: order =>
      match make_optimistic bs vs ns i with
      | (ns, Err e) => (ns, Err e)
      | (ns, Ok _) => make_all_optimistic bs vs order ns
      end
  end.

Definition set_all_blocks_to_optimistic (fc : ProtoArrayForkChoice) : ProtoArrayForkChoice * Result unit FcError :=
  let pa := proto_array fc in
  let '(ns, r) := make_all_optimistic (effective_balances (balances fc)) (votes fc) (rev (seq 0 (length (nodes pa)))) (nodes pa) in
  (mkForkChoice (with_nodes pa ns) (votes fc) (balances fc), r).
