(* ===== verification/ProtoArrayFacts.v ===== *)
(** * The block tree stays a tree

    [BlockTree] is the invariant the comments of proto_array.rs rely on: [indices] and
    [nodes] agree, a parent precedes its child, and [children] is the index of the
    parents.  Insertion, the execution verdicts and pruning keep it, and pruning a
    known root never fails. *)

From S2P Require Export ProtoArray.
Local Open Scope rust_scope.

(** Two filters that agree on the elements of the list. *)
Lemma filter_agree {A} (P Q : A -> Prop) `{!forall x, Decision (P x), !forall x, Decision (Q x)} (l : list A) :
  (forall x, x ∈ l -> P x <-> Q x) -> filter P l = filter Q l.
Proof.
  induction l as [|x l IH]; intros Hx; [done|]. rewrite !filter_cons, IH by set_solver.
  pose proof (Hx x ltac:(set_solver)). repeat case_decide; tauto.
Qed.

(** * The invariant *)

Definition parent_of (ns : list ProtoNode) (i : nat) : option nat := ns !! i ≫= pn_parent.

Definition children_of (ns : list ProtoNode) (i : nat) : list nat :=
  filter (fun c => parent_of ns c = Some i) (seq 0 (length ns)).

Record BlockTree (pa : ProtoArray) : Prop := {
  bt_roots : forall r i, indices pa !! r = Some i <-> pn_root <$> nodes pa !! i = Some r;
  bt_parents : forall i p, parent_of (nodes pa) i = Some p -> p < i;
  bt_children : children pa = children_of (nodes pa) <$> seq 0 (length (nodes pa))
}.

(** The tree is in the roots and the parents. *)
Definition shape (n : ProtoNode) : bytes * option nat := (pn_root n, pn_parent n).
Definition same_shape (ns ns' : list ProtoNode) : Prop := shape <$> ns = shape <$> ns'.

Lemma same_shape_length ns ns' : same_shape ns ns' -> length ns = length ns'.
Proof. intros H%(f_equal length). by rewrite !length_fmap in H. Qed.

Lemma same_shape_lookup ns ns' i : same_shape ns ns' -> shape <$> ns !! i = shape <$> ns' !! i.
Proof. intros H. by rewrite <-!list_lookup_fmap, H. Qed.

Lemma same_shape_root ns ns' i : same_shape ns ns' -> pn_root <$> ns !! i = pn_root <$> ns' !! i.
Proof. intros H%(same_shape_lookup _ _ i). destruct (ns !! i), (ns' !! i); simplify_eq/=; congruence. Qed.

Lemma same_shape_parent ns ns' i : same_shape ns ns' -> parent_of ns i = parent_of ns' i.
Proof.
  intros H%(same_shape_lookup _ _ i). unfold parent_of, shape in *.
  destruct (ns !! i), (ns' !! i); simplify_eq/=; congruence.
Qed.

Lemma same_shape_children ns ns' i : same_shape ns ns' -> children_of ns i = children_of ns' i.
Proof.
  intros H. unfold children_of. rewrite (same_shape_length _ _ H). apply list_filter_iff. intros c.
  by rewrite (same_shape_parent _ _ _ H).
Qed.

Lemma same_shape_insert ns i n n' : ns !! i = Some n -> shape n' = shape n -> same_shape (<[i := n']> ns) ns.
Proof. intros Hi Hs. unfold same_shape. rewrite list_fmap_insert, Hs. apply list_insert_id. by rewrite list_lookup_fmap, Hi. Qed.

Lemma block_tree_shape pa ns : BlockTree pa -> same_shape ns (nodes pa) -> BlockTree (with_nodes pa ns).
Proof.
  intros [Hr Hp Hc] Hs. split; cbn.
  - intros r i. by rewrite Hr, (same_shape_root _ _ _ Hs).
  - intros i p. rewrite (same_shape_parent _ _ _ Hs). apply Hp.
  - rewrite Hc, (same_shape_length _ _ Hs). apply list_fmap_ext. intros i x _. by rewrite (same_shape_children _ _ _ Hs).
Qed.

Lemma shape_set_execution_status n s : shape (set_execution_status n s) = shape n.
Proof. unfold set_execution_status. by destruct (pn_variant n). Qed.

Lemma elem_of_children ns i c : c ∈ children_of ns i <-> parent_of ns c = Some i.
Proof.
  unfold children_of. rewrite list_elem_of_filter, elem_of_seq. split; [tauto|]. intros H. split; [done|].
  unfold parent_of in H. destruct (ns !! c) eqn:E; [|done]. apply lookup_lt_Some in E. lia.
Qed.

Section tree.
Context (pa : ProtoArray) (T : BlockTree pa).

Lemma children_lookup i : i < length (nodes pa) -> children pa !! i = Some (children_of (nodes pa) i).
Proof. intros Hi. by rewrite (bt_children pa T), list_lookup_fmap, lookup_seq_lt. Qed.

Lemma children_length : length (children pa) = length (nodes pa).
Proof. by rewrite (bt_children pa T), length_fmap, length_seq. Qed.

Lemma index_in_range r i : indices pa !! r = Some i -> i < length (nodes pa).
Proof. intros H%(bt_roots pa T). apply lookup_lt_is_Some. by destruct (nodes pa !! i). Qed.

Lemma parent_in_range i p : parent_of (nodes pa) i = Some p -> p < i < length (nodes pa).
Proof.
  intros H. split; [by apply (bt_parents pa T)|]. unfold parent_of in H.
  apply lookup_lt_is_Some. by destruct (nodes pa !! i).
Qed.

Lemma child_in_range i c : c ∈ children_of (nodes pa) i -> i < c < length (nodes pa).
Proof. intros H%elem_of_children. by apply parent_in_range. Qed.

Lemma root_unique i j n m : nodes pa !! i = Some n -> nodes pa !! j = Some m -> pn_root n = pn_root m -> i = j.
Proof.
  intros Hi Hj E. assert (indices pa !! pn_root n = Some i) as A by (apply (bt_roots pa T); by rewrite Hi).
  assert (indices pa !! pn_root n = Some j) as B by (apply (bt_roots pa T); rewrite Hj; cbn; congruence). congruence.
Qed.

Lemma roots_nodup : NoDup (pn_root <$> nodes pa).
Proof.
  apply NoDup_alt. intros i j r Hi Hj. rewrite list_lookup_fmap in Hi, Hj.
  apply (bt_roots pa T) in Hi, Hj. congruence.
Qed.

Lemma indices_size : size (indices pa) = length (nodes pa).
Proof.
  rewrite <-size_dom, <-(length_fmap pn_root). assert (dom (indices pa) = list_to_set (pn_root <$> nodes pa)) as ->.
  { apply set_eq. intros r. rewrite elem_of_dom, elem_of_list_to_set, list_elem_of_lookup. split.
    - intros [i H%(bt_roots pa T)]. exists i. by rewrite list_lookup_fmap.
    - intros [i H]. exists i. apply (bt_roots pa T). by rewrite <-list_lookup_fmap. }
  apply size_list_to_set, roots_nodup.
Qed.
End tree.

(** * Verdicts *)

Lemma propagate_validation_shape fuel ns i : same_shape (fst (propagate_validation fuel ns i)) ns.
Proof.
  revert ns i. induction fuel as [|fuel IH]; intros ns i; cbn; [done|].
  destruct (ns !! i) as [n|] eqn:Hn; [|done]. destruct (execution_status n) as [[]|]; try done.
  pose proof (same_shape_insert ns i n (set_execution_status n (Valid hash)) Hn (shape_set_execution_status _ _)) as Hs.
  destruct (pn_parent n); [|done]. etransitivity; [apply IH|done].
Qed.

(** With the parents before their children the fuel covers every ancestor. *)
Lemma propagate_validation_ends fuel ns i :
  (forall j p, parent_of ns j = Some p -> p < j) -> i < fuel -> snd (propagate_validation fuel ns i) <> Err StepsExhausted.
Proof.
  revert ns i. induction fuel as [|fuel IH]; intros ns i Hp Hi; [lia|]. cbn.
  destruct (ns !! i) as [n|] eqn:Hn; [|done]. destruct (execution_status n) as [[]|]; try done.
  destruct (pn_parent n) as [p|] eqn:Hpar; [|done].
  pose proof (same_shape_insert ns i n (set_execution_status n (Valid hash)) Hn (shape_set_execution_status _ _)) as Hs.
  apply IH.
  - intros j q. rewrite (same_shape_parent _ _ _ Hs). apply Hp.
  - assert (p < i) by (apply Hp; unfold parent_of; by rewrite Hn). lia.
Qed.

Lemma validation_tree pa i : BlockTree pa -> BlockTree (fst (propagate_execution_payload_validation_by_index pa i)).
Proof.
  intros T. unfold propagate_execution_payload_validation_by_index.
  pose proof (propagate_validation_shape (S (length (nodes pa))) (nodes pa) i) as H.
  destruct (propagate_validation _ _ _) as [ns r]. by apply block_tree_shape.
Qed.

Lemma same_shape_trans ns1 ns2 ns3 : same_shape ns1 ns2 -> same_shape ns2 ns3 -> same_shape ns1 ns3.
Proof. unfold same_shape. congruence. Qed.

Lemma invalidate_ancestors_shape fuel op known ns out i : same_shape (fst (invalidate_ancestors fuel op known ns out i)) ns.
Proof.
  revert ns out i. induction fuel as [|fuel IH]; intros ns out i; cbn; [done|].
  destruct (ns !! i) as [n|] eqn:Hn; [|done].
  destruct (execution_status n) as [[]|]; cbn; repeat case_match; try done; try apply IH.
  all: try (eapply same_shape_trans; [apply IH|]); by eapply same_shape_insert, shape_set_execution_status.
Qed.

Lemma invalidate_descendants_shape order ns out : same_shape (fst (invalidate_descendants ns out order)) ns.
Proof.
  revert ns out. induction order as [|i order IH]; intros ns out; cbn; [done|].
  destruct (ns !! i) as [n|] eqn:Hn; [|done]. repeat case_match; cbn; try done; try apply IH.
  all: try (eapply same_shape_trans; [apply IH|]); by eapply same_shape_insert, shape_set_execution_status.
Qed.

(** Verdicts of the execution client never change the tree. *)
Lemma invalidation_tree spec pa op c : BlockTree pa -> BlockTree (fst (propagate_execution_payload_invalidation spec pa op c)).
Proof.
  intros T. unfold propagate_execution_payload_invalidation. destruct (indices pa !! op_block_root op) as [i|]; [|done].
  set (known := match op_latest_valid_ancestor op ≫= _ with Some _ => _ | None => _ end). clearbody known.
  pose proof (invalidate_ancestors_shape (S (length (nodes pa))) op known (nodes pa) ∅ i) as H1.
  destruct (invalidate_ancestors _ _ _ _ _ _) as [ns [out|e]]; cbn in H1; [|by apply block_tree_shape].
  destruct (indices pa !! _) as [k|]; [|by apply block_tree_shape].
  pose proof (invalidate_descendants_shape (seq (S k) (length ns - S k)) ns out) as H2.
  destruct (invalidate_descendants _ _ _) as [ns' r]. apply block_tree_shape; [done|]. by eapply same_shape_trans.
Qed.

(** * Insertion *)

Lemma parent_of_app ns n c : parent_of (ns ++ [n]) c = if decide (c = length ns) then pn_parent n else parent_of ns c.
Proof.
  unfold parent_of. destruct (decide (c = length ns)) as [->|Hc]; [by rewrite list_lookup_middle|].
  destruct (decide (c < length ns)); [by rewrite lookup_app_l|].
  rewrite !(proj2 (lookup_ge_None _ _)); [done| |]; rewrite ?length_app; cbn; lia.
Qed.

Lemma children_of_app ns n i :
  children_of (ns ++ [n]) i = children_of ns i ++ (if decide (pn_parent n = Some i) then [length ns] else []).
Proof.
  unfold children_of. rewrite length_app, seq_app, filter_app. f_equal.
  - apply filter_agree. intros c [_ Hc]%elem_of_seq. rewrite parent_of_app.
    by rewrite decide_False by lia.
  - change (seq _ (length [n])) with [length ns]. rewrite filter_cons, filter_nil, parent_of_app.
    rewrite (decide_True (P := length ns = length ns)) by done. by repeat case_decide.
Qed.

Lemma children_of_last ns : (forall c p, parent_of ns c = Some p -> p < c) -> children_of ns (length ns) = [].
Proof.
  intros Hp. apply elem_of_nil_inv. intros c H%elem_of_children. pose proof (Hp _ _ H).
  unfold parent_of in H. destruct (ns !! c) eqn:E; [|done]. apply lookup_lt_Some in E. lia.
Qed.

Definition pushed_array (pa : ProtoArray) (n : ProtoNode) (cs : list (list nat)) : ProtoArray :=
  mkProtoArray (prune_threshold pa) (nodes pa ++ [n]) (<[pn_root n := length (nodes pa)]> (indices pa)) cs.

Lemma children_of_pushed pa n :
  BlockTree pa -> (forall p, pn_parent n = Some p -> p < length (nodes pa)) ->
  children_of (nodes pa ++ [n]) <$> seq 0 (length (nodes pa ++ [n]))
  = match pn_parent n with
    | None => children pa ++ [[]]
    | Some p => <[p := children_of (nodes pa) p ++ [length (nodes pa)]]> (children pa ++ [[]])
    end.
Proof.
  intros T Hn. pose proof (children_length pa T) as HL. apply list_eq. intros i.
  destruct (decide (i < S (length (nodes pa)))) as [Hi|Hi].
  2: { rewrite (proj2 (lookup_ge_None _ i)); [|rewrite length_fmap, length_seq, length_app; cbn; lia].
       symmetry. apply lookup_ge_None. destruct (pn_parent n); rewrite ?length_insert, ?length_app; cbn; lia. }
  rewrite list_lookup_fmap, lookup_seq_lt by (rewrite length_app; cbn; lia). cbn [fmap option_fmap option_map plus].
  rewrite children_of_app.
  assert ((children pa ++ [[]]) !! i = Some (children_of (nodes pa) i)) as Hc.
  { destruct (decide (i = length (nodes pa))) as [->|].
    - rewrite <-HL, list_lookup_middle by done. rewrite HL, children_of_last; [done|]. apply (bt_parents pa T).
    - rewrite lookup_app_l by lia. apply children_lookup; [done|lia]. }
  destruct (pn_parent n) as [p|] eqn:Hp; [|rewrite Hc; case_decide; [done|by rewrite app_nil_r]].
  specialize (Hn p eq_refl). case_decide as E.
  - injection E as ->. by rewrite list_lookup_insert_eq by (rewrite length_app; cbn; lia).
  - rewrite list_lookup_insert_ne by congruence. by rewrite Hc, app_nil_r.
Qed.

Lemma pushed_tree pa n cs :
  BlockTree pa -> indices pa !! pn_root n = None -> (forall p, pn_parent n = Some p -> p < length (nodes pa)) ->
  cs = children_of (nodes pa ++ [n]) <$> seq 0 (length (nodes pa ++ [n])) -> BlockTree (pushed_array pa n cs).
Proof.
  intros T Hnew Hn ->. split; cbn; [| |done].
  - intros r i. destruct (decide (i = length (nodes pa))) as [->|Hi].
    + rewrite list_lookup_middle by done. cbn. split; [|intros [= <-]; by rewrite lookup_insert_eq].
      destruct (decide (r = pn_root n)) as [->|]; [done|]. rewrite lookup_insert_ne by done.
      intros H%(index_in_range pa T). lia.
    + transitivity (indices pa !! r = Some i).
      * destruct (decide (r = pn_root n)) as [->|]; [|by rewrite lookup_insert_ne].
        rewrite lookup_insert_eq, Hnew. split; [intros [= E]; lia|done].
      * rewrite (bt_roots pa T). destruct (decide (i < length (nodes pa))); [by rewrite lookup_app_l|].
        rewrite !(proj2 (lookup_ge_None _ i)); rewrite ?length_app; cbn; try lia. done.
  - intros c p. rewrite parent_of_app. case_decide as Hc; [subst c; apply Hn|apply (bt_parents pa T)].
Qed.

Lemma insert_node_tree pa n s :
  BlockTree pa -> indices pa !! pn_root n = None -> (forall p, pn_parent n = Some p -> p < length (nodes pa)) ->
  BlockTree (fst (insert_node pa n s)).
Proof.
  intros T Hnew Hn. pose proof (children_of_pushed pa n T Hn) as E. unfold insert_node.
  pose proof (pushed_tree pa n _ T Hnew Hn eq_refl) as T'. rewrite E in T'.
  destruct (pn_parent n) as [p|] eqn:Hp; [|done].
  specialize (Hn p eq_refl). unfold push_child. rewrite lookup_app_l by (rewrite (children_length pa T); lia).
  rewrite (children_lookup pa T) by lia.
  destruct (is_valid_status s); [by apply validation_tree|done].
Qed.

Lemma new_node_shape spec pa b proposer slot time parent n :
  new_node spec pa b proposer slot time parent = Ok n -> shape n = (b_root b, parent) /\ pn_weight n = 0%Z.
Proof.
  unfold new_node. destruct (negb _); [by intros [= <-]|]. destruct (b_execution_payload_block_hash b); [|done].
  destruct (b_execution_payload_parent_hash b); [|done]. by intros [= <-].
Qed.

(** Inserting a block keeps the tree, whether it succeeds or fails. *)
Lemma on_block_tree spec pa b slot time : BlockTree pa -> BlockTree (fst (on_block spec pa b slot time)).
Proof.
  intros T. unfold on_block. case_bool_decide as Hnew; [done|]. destruct (b_proposer_index b); [|done].
  destruct (new_node _ _ _ _ _ _ _) as [n|] eqn:E; [|done]. apply new_node_shape in E as [[= Hr Hp] _].
  destruct (check_parent _ _ _); [|done]. rewrite <-eq_None_not_Some in Hnew. apply insert_node_tree; [done|by rewrite Hr|].
  intros p. rewrite Hp. destruct (b_parent_root b) as [r|]; [|done]. apply (index_in_range pa T).
Qed.

(** * Pruning keeps the tree

    [maybe_prune] of a known root neither fails nor panics, whatever the threshold: the
    nodes before the finalized one go, and the rest is the same tree with its positions
    moved down. *)

(** ** The three passes *)

Definition has_root (ns : list ProtoNode) (r : bytes) (i : nat) : Prop := pn_root <$> ns !! i = Some r.

Lemma remove_roots_ok ns order m :
  (forall i, i ∈ order -> i < length ns) ->
  exists m', remove_roots ns order m = (m', Ok tt)
    /\ (forall r, Exists (has_root ns r) order -> m' !! r = None)
    /\ (forall r, ~ Exists (has_root ns r) order -> m' !! r = m !! r).
Proof.
  revert m. induction order as [|i order IH]; intros m Hin.
  - exists m. repeat split. intros r H. by apply Exists_nil in H.
  - destruct (lookup_lt_is_Some_2 ns i) as [n Hn]; [apply Hin; set_solver|]. cbn. rewrite Hn.
    destruct (IH (delete (pn_root n) m)) as (m' & -> & Hin' & Hout); [set_solver|]. exists m'. split; [done|].
    assert (has_root ns (pn_root n) i) as Hi by (unfold has_root; by rewrite Hn). split; intros r; rewrite Exists_cons.
    + intros [H|H]; [|by apply Hin']. unfold has_root in H. rewrite Hn in H. injection H as <-.
      destruct (decide (Exists (fun j => (pn_root <$> ns !! j) = Some (pn_root n)) order)); [by apply Hin'|].
      by rewrite Hout, lookup_delete_eq.
    + intros H. rewrite Hout by tauto. rewrite lookup_delete_ne; [done|]. intros <-. tauto.
Qed.

Lemma shift_list_ok k l : (forall i, i ∈ l -> k <= i) -> shift_list k l = (map (fun i => i - k) l, Ok tt).
Proof.
  induction l as [|i l IH]; intros H; [done|]. cbn [shift_list].
  rewrite (proj2 (Nat.ltb_ge i k)) by (apply H; set_solver). by rewrite IH by set_solver.
Qed.

Lemma shift_children_ok k cs :
  (forall l i, l ∈ cs -> i ∈ l -> k <= i) -> shift_children k cs = (map (map (fun i => i - k)) cs, Ok tt).
Proof.
  induction cs as [|l cs IH]; intros H; [done|]. cbn [shift_children].
  rewrite shift_list_ok by (intros i; apply H; set_solver). by rewrite IH by set_solver.
Qed.

Lemma shift_entries_ok k l m :
  (forall r i, (r, i) ∈ l -> k <= i) -> NoDup l.*1 ->
  exists m', shift_entries k l m = (m', Ok tt)
    /\ (forall r i, (r, i) ∈ l -> m' !! r = Some (i - k)) /\ (forall r, r ∉ l.*1 -> m' !! r = m !! r).
Proof.
  revert m. induction l as [|[r i] l IH]; intros m Hk Hnd; cbn [shift_entries].
  { exists m. split; [done|]. split; [set_solver|done]. }
  rewrite (proj2 (Nat.ltb_ge i k)) by (apply (Hk r); set_solver).
  apply NoDup_cons in Hnd as [Hr Hnd]. destruct (IH (<[r := i - k]> m)) as (m' & -> & Hin & Hout); [set_solver|done|].
  exists m'. split; [done|]. split.
  - intros r' i' [[= -> ->]|H]%elem_of_cons; [|by apply Hin]. by rewrite Hout, lookup_insert_eq.
  - intros r' [Hne Hr']%not_elem_of_cons. by rewrite Hout, lookup_insert_ne.
Qed.

(** * The tree below *)

Definition shift_index (k : nat) (p : option nat) : option nat :=
  match p with Some p => if Nat.ltb p k then None else Some (p - k) | None => None end.

Lemma shift_parent_parent k n : pn_parent (shift_parent k n) = shift_index k (pn_parent n).
Proof. unfold shift_parent. by destruct (pn_parent n) eqn:E. Qed.

Lemma shift_parent_root k n : pn_root (shift_parent k n) = pn_root n.
Proof. unfold shift_parent. by destruct (pn_parent n). Qed.

Definition below (k : nat) (ns : list ProtoNode) : list ProtoNode := map (shift_parent k) (drop k ns).

Lemma below_lookup k ns i : below k ns !! i = shift_parent k <$> ns !! (k + i).
Proof. unfold below. by rewrite list_lookup_fmap, lookup_drop. Qed.

Lemma below_length k ns : length (below k ns) = length ns - k.
Proof. unfold below. by rewrite length_map, length_drop. Qed.

Lemma below_parent k ns i : parent_of (below k ns) i = shift_index k (parent_of ns (k + i)).
Proof. unfold parent_of. rewrite below_lookup. destruct (ns !! (k + i)); [apply shift_parent_parent|done]. Qed.

Lemma filter_seq_shift (P : nat -> Prop) `{!forall x, Decision (P x)} k n :
  filter P (seq k n) = map (fun i => k + i) (filter (fun i => P (k + i)) (seq 0 n)).
Proof.
  assert (seq k n = map (fun i => k + i) (seq 0 n)) as ->.
  { rewrite <-(Nat.add_0_r k) at 1. symmetry. apply (fmap_add_seq k 0 n). }
  induction (seq 0 n) as [|x l IH]; [done|]. cbn [map]. rewrite !filter_cons. case_decide; cbn [map]; by rewrite IH.
Qed.

Lemma below_children k pa i :
  BlockTree pa -> children_of (below k (nodes pa)) i = map (fun c => c - k) (children_of (nodes pa) (k + i)).
Proof.
  intros T. unfold children_of at 2.
  destruct (decide (length (nodes pa) <= k)) as [Hk|Hk].
  { unfold children_of. rewrite below_length. replace (length (nodes pa) - k) with 0 by lia. symmetry.
    assert (filter (fun c => parent_of (nodes pa) c = Some (k + i)) (seq 0 (length (nodes pa))) = []) as ->; [|done].
    apply elem_of_nil_inv. intros c [Hc Hs]%list_elem_of_filter. apply (parent_in_range pa T) in Hc. lia. }
  replace (length (nodes pa)) with (k + (length (nodes pa) - k)) at 1 by lia.
  rewrite seq_app, filter_app. cbn [plus].
  assert (filter (fun c => parent_of (nodes pa) c = Some (k + i)) (seq 0 k) = []) as ->.
  { apply elem_of_nil_inv. intros c [Hc Hs]%list_elem_of_filter. apply (parent_in_range pa T) in Hc. apply elem_of_seq in Hs. lia. }
  rewrite app_nil_l, filter_seq_shift. unfold children_of. rewrite below_length.
  rewrite map_map. rewrite (map_ext (fun x => k + x - k) id) by (intros x; unfold id; lia). rewrite map_id.
  apply filter_agree. intros c _. rewrite below_parent. unfold shift_index.
  destruct (parent_of (nodes pa) (k + c)) as [p|]; [|done]. destruct (Nat.ltb_spec p k); split; intros [= ?]; try lia; f_equal; lia.
Qed.

Lemma below_tree (k : nat) (pa : ProtoArray) (m : gmap bytes nat) :
  BlockTree pa -> k <= length (nodes pa) ->
  (forall r i, m !! r = Some i <-> indices pa !! r = Some (k + i)) ->
  BlockTree (mkProtoArray (prune_threshold pa) (below k (nodes pa)) m
               (map (map (fun c => c - k)) (drop k (children pa)))).
Proof.
  intros T Hk Hm. split; cbn [nodes indices children].
  - intros r i. rewrite Hm, (bt_roots pa T), below_lookup. destruct (nodes pa !! (k + i)) as [n|]; cbn; [|tauto].
    by rewrite shift_parent_root.
  - intros i p. rewrite below_parent. destruct (parent_of (nodes pa) (k + i)) as [q|] eqn:E; [|done]. cbn [shift_index].
    apply (parent_in_range pa T) in E. destruct (Nat.ltb_spec q k); [done|]. intros [= <-]. lia.
  - apply list_eq. intros i. rewrite below_length. rewrite list_lookup_fmap.
    change (@map (list nat) (list nat)) with (@fmap list _ (list nat) (list nat)). rewrite list_lookup_fmap, lookup_drop.
    destruct (decide (i < length (nodes pa) - k)) as [Hi|Hi].
    + rewrite lookup_seq_lt by done. rewrite (children_lookup pa T) by lia. cbn. by rewrite <-below_children.
    + rewrite (proj2 (lookup_ge_None (children pa) _)) by (rewrite (children_length pa T); lia).
      by rewrite (proj2 (lookup_ge_None (seq 0 _) _)) by (rewrite length_seq; lia).
Qed.

(** The roots left by the first pass are those at or after the finalized node. *)
Lemma remove_roots_below (pa : ProtoArray) (k : nat) (m : gmap bytes nat) :
  BlockTree pa -> (forall r, Exists (has_root (nodes pa) r) (seq 0 k) -> m !! r = None) ->
  (forall r, ~ Exists (has_root (nodes pa) r) (seq 0 k) -> m !! r = indices pa !! r) ->
  forall r i, m !! r = Some i <-> indices pa !! r = Some i /\ k <= i.
Proof.
  intros T Hin Hout r i. destruct (decide (Exists (fun j => (pn_root <$> nodes pa !! j) = Some r) (seq 0 k))) as [E|E].
  - rewrite Hin by done. split; [done|]. intros [Hi Hk]. apply Exists_exists in E as (j & Hj & Hr).
    apply (bt_roots pa T) in Hr. apply elem_of_seq in Hj. assert (i = j) by congruence. lia.
  - rewrite Hout by done. split; [|tauto]. intros Hi. split; [done|]. destruct (decide (k <= i)); [done|]. exfalso.
    apply E, Exists_exists. exists i. split; [apply elem_of_seq; lia|]. by apply (bt_roots pa T).
Qed.

Lemma shift_map_ok (k : nat) (m : gmap bytes nat) :
  (forall r i, m !! r = Some i -> k <= i) ->
  exists m', shift_entries k (map_to_list m) m = (m', Ok tt) /\ forall r i, m' !! r = Some i <-> m !! r = Some (k + i).
Proof.
  intros H. destruct (shift_entries_ok k (map_to_list m) m) as (m' & -> & Hin & Hout).
  - intros r i Hi%elem_of_map_to_list. by eapply H.
  - apply NoDup_fst_map_to_list.
  - exists m'. split; [done|]. intros r i. destruct (m !! r) as [j|] eqn:E.
    + rewrite (Hin r j) by by apply elem_of_map_to_list. pose proof (H _ _ E). split; intros [= ?]; f_equal; lia.
    + rewrite Hout; [by rewrite E|]. intros ([r' j] & -> & Hj%elem_of_map_to_list)%list_elem_of_fmap. cbn in E. congruence.
Qed.

(** Pruning at a known root succeeds; past the threshold it leaves the tree below it. *)
Lemma maybe_prune_tree pa root k :
  BlockTree pa -> indices pa !! root = Some k ->
  exists pa', maybe_prune pa root = Ret (pa', Ok tt) /\ BlockTree pa'
    /\ (k < prune_threshold pa -> pa' = pa)
    /\ (prune_threshold pa <= k -> nodes pa' = below k (nodes pa)
        /\ forall r i, indices pa' !! r = Some i <-> indices pa !! r = Some (k + i)).
Proof.
  intros T Hk. pose proof (index_in_range pa T _ _ Hk) as Hr. unfold maybe_prune. rewrite Hk.
  destruct (Nat.ltb_spec k (prune_threshold pa)) as [Ht|Ht]; [exists pa; split; [done|]; split; [done|]; split; [done|lia]|].
  destruct (remove_roots_ok (nodes pa) (seq 0 k) (indices pa)) as (m & -> & Hin & Hout); [intros i [_ ?]%elem_of_seq; lia|].
  pose proof (remove_roots_below pa k m T Hin Hout) as Hm.
  rewrite (proj2 (Nat.ltb_ge _ _)) by (rewrite (children_length pa T); lia).
  rewrite shift_children_ok; cycle 1.
  { intros l c Hl Hc. apply list_elem_of_lookup in Hl as [i Hl]. rewrite lookup_drop in Hl.
    pose proof (lookup_lt_Some _ _ _ Hl) as Hi. rewrite (children_length pa T) in Hi.
    rewrite (children_lookup pa T) in Hl by done. injection Hl as <-. apply (child_in_range pa T) in Hc. lia. }
  destruct (shift_map_ok k m) as (m' & -> & Hm'); [intros r i [_ ?]%Hm; done|].
  assert (forall r i, m' !! r = Some i <-> indices pa !! r = Some (k + i)) as Hs.
  { intros r i. rewrite Hm', Hm. split; [tauto|]. intros ?. split; [done|lia]. }
  eexists. split; [done|]. split; [apply below_tree; [done|lia|done]|]. split; [lia|done].
Qed.
