(* ===== verification/ForkWeights.v ===== *)
(** * Weights are LMD-GHOST scores

    The reference: a block's score is the balance of the validators that have not
    equivocated and whose latest vote is for the block or for one below it, on a path
    without an invalid payload ([lmd_weight]).  One pass of [compute_deltas] and
    [apply_score_changes] brings every weight from the scores of the old balances and
    counted votes to those of the new ones. *)

From S2P Require Import FixedPoint.
From S2P Require Export ForkChoice ProtoArrayFacts.
Local Open Scope rust_scope.
Local Open Scope Z_scope.

(** * Sums *)

Definition sum_over {A} (f : A -> Z) (l : list A) : Z := zsum (map f l).

Lemma sum_over_cons {A} (f : A -> Z) x l : sum_over f (x :: l) = f x + sum_over f l.
Proof. done. Qed.

Lemma sum_over_app {A} (f : A -> Z) l1 l2 : sum_over f (l1 ++ l2) = sum_over f l1 + sum_over f l2.
Proof. unfold sum_over. by rewrite map_app, zsum_app. Qed.

Lemma sum_over_ext {A} (f g : A -> Z) l : (forall x, x ∈ l -> f x = g x) -> sum_over f l = sum_over g l.
Proof. induction l as [|x l IH]; intros H; [done|]. rewrite !sum_over_cons, IH, H by set_solver. done. Qed.

Lemma sum_over_add {A} (f g : A -> Z) l : sum_over (fun x => f x + g x) l = sum_over f l + sum_over g l.
Proof. induction l as [|x l IH]; [done|]. rewrite !sum_over_cons, IH. lia. Qed.

Lemma sum_over_scale {A} (k : Z) (f : A -> Z) l : sum_over (fun x => k * f x) l = k * sum_over f l.
Proof. induction l as [|x l IH]; [unfold sum_over; cbn; lia|]. rewrite !sum_over_cons, IH. lia. Qed.

Lemma sum_over_zero {A} (f : A -> Z) l : (forall x, x ∈ l -> f x = 0) -> sum_over f l = 0.
Proof. induction l as [|x l IH]; intros H; [done|]. rewrite sum_over_cons, IH, H by set_solver. done. Qed.

Lemma sum_over_nonneg {A} (f : A -> Z) l : (forall x, x ∈ l -> 0 <= f x) -> 0 <= sum_over f l.
Proof.
  induction l as [|x l IH]; intros H; [done|]. rewrite sum_over_cons.
  pose proof (H x ltac:(set_solver)). pose proof (IH ltac:(set_solver)). lia.
Qed.

Lemma sum_over_le {A} (f g : A -> Z) l : (forall x, x ∈ l -> f x <= g x) -> sum_over f l <= sum_over g l.
Proof.
  induction l as [|x l IH]; intros H; [done|]. rewrite !sum_over_cons.
  pose proof (H x ltac:(set_solver)). pose proof (IH ltac:(set_solver)). lia.
Qed.

Lemma sum_over_swap {A B} (f : A -> B -> Z) l1 l2 :
  sum_over (fun x => sum_over (f x) l2) l1 = sum_over (fun y => sum_over (fun x => f x y) l1) l2.
Proof.
  induction l1 as [|x l1 IH]; [symmetry; by apply sum_over_zero|].
  rewrite sum_over_cons, IH, <-sum_over_add. by apply sum_over_ext.
Qed.

(** The number of times a value occurs in a list without duplicates. *)
Lemma sum_over_indicator (x : nat) l : NoDup l -> sum_over (fun y => Z.b2z (bool_decide (y = x))) l = Z.b2z (bool_decide (x ∈ l)).
Proof.
  induction 1 as [|y l Hy Hl IH]; [done|]. rewrite sum_over_cons, IH. repeat case_bool_decide; cbn; set_solver.
Qed.

(** A function that changes at one place. *)
Lemma sum_over_update (f g : nat -> Z) x l :
  NoDup l -> (forall y, y <> x -> g y = f y) -> sum_over g l = sum_over f l + Z.b2z (bool_decide (x ∈ l)) * (g x - f x).
Proof.
  intros Hl H. rewrite <-(sum_over_indicator x l Hl), Z.mul_comm, <-sum_over_scale, <-sum_over_add.
  apply sum_over_ext. intros y _. case_bool_decide as E; cbn; [subst; lia|]. rewrite H by done. lia.
Qed.

(** * The reference *)

(** Node [i] is node [j] or an ancestor of it, and no node from [j] up to [i] is invalid. *)
Fixpoint reaches_within (fuel : nat) (ns : list ProtoNode) (i j : nat) : bool :=
  match fuel with
  | O => false
  | S fuel =>
      match ns !! j with
      | None => false
      | Some n =>
          if execution_invalid n then false
          else if Nat.eqb j i then true
          else match pn_parent n with Some p => reaches_within fuel ns i p | None => false end
      end
  end.

Definition reaches (ns : list ProtoNode) (i j : nat) : bool := reaches_within (S j) ns i j.

(** The latest vote of a validator supports node [i]. *)
Definition supports (pa : ProtoArray) (i : nat) (root : bytes) : bool :=
  match indices pa !! root with Some j => reaches (nodes pa) i j | None => false end.

(** The root a validator's latest vote is for, once equivocations are known. *)
Definition latest_root (equivocating : gset Z) (val_index : nat) (v : VoteTracker) : bytes :=
  if bool_decide (Z.of_nat val_index ∈ equivocating) then zero_root else next_root v.

(** The votes with their validator indices, from [k] on. *)
Fixpoint numbered (k : nat) (vs : list VoteTracker) : list (nat * VoteTracker) :=
  match vs with [] => [] | v :: vs => (k, v) :: numbered (S k) vs end.

(** The balance of the validators whose root, given by [root_of], satisfies [P]. *)
Definition vote_weight (bs : list Z) (root_of : nat -> VoteTracker -> bytes) (P : bytes -> bool) (vs : list VoteTracker) : Z :=
  sum_over (fun '(k, v) => balance bs k * Z.b2z (P (root_of k v))) (numbered 0 vs).

Definition lmd_weight (pa : ProtoArray) (vs : list VoteTracker) (bs : list Z) (equivocating : gset Z) (i : nat) : Z :=
  vote_weight bs (latest_root equivocating) (supports pa i) vs.

(** * Paths in the tree *)

Section paths.
Context (ns : list ProtoNode) (Hpar : forall i p, parent_of ns i = Some p -> (p < i)%nat).

Definition invalid_at (i : nat) : bool := match ns !! i with Some n => execution_invalid n | None => false end.

Lemma reaches_fuel fuel i j : (j < fuel)%nat -> reaches_within fuel ns i j = reaches ns i j.
Proof.
  unfold reaches. revert fuel. induction j as [j IH] using lt_wf_ind. intros [|fuel] Hj; [lia|]. cbn.
  destruct (ns !! j) as [n|] eqn:Hn; [|done]. destruct (execution_invalid n); [done|]. destruct (Nat.eqb j i); [done|].
  destruct (pn_parent n) as [p|] eqn:Hp; [|done].
  assert (p < j)%nat as Hlt by (apply Hpar; unfold parent_of; by rewrite Hn). rewrite IH, (IH p Hlt j); [done|lia|done|lia].
Qed.

Lemma reaches_unfold i j :
  reaches ns i j = match ns !! j with
                   | None => false
                   | Some n => if execution_invalid n then false
                               else if Nat.eqb j i then true
                               else match parent_of ns j with Some p => reaches ns i p | None => false end
                   end.
Proof.
  unfold reaches at 1. cbn. unfold parent_of. destruct (ns !! j) as [n|] eqn:Hn; [|done]. cbn.
  destruct (pn_parent n) as [p|] eqn:Hp; [|done]. rewrite reaches_fuel; [done|].
  apply Hpar. unfold parent_of. by rewrite Hn.
Qed.

Lemma reaches_le i j : reaches ns i j = true -> (i <= j)%nat.
Proof.
  induction j as [j IH] using lt_wf_ind. rewrite reaches_unfold. destruct (ns !! j) as [n|]; [|done].
  destruct (execution_invalid _); [done|]. destruct (Nat.eqb_spec j i); [lia|].
  destruct (parent_of ns j) as [q|] eqn:Hq; [|done]. apply Hpar in Hq. intros H%IH; lia.
Qed.

Lemma reaches_invalid i j : invalid_at i = true -> reaches ns i j = false.
Proof.
  unfold invalid_at. intros Hi. induction j as [j IH] using lt_wf_ind. rewrite reaches_unfold.
  destruct (ns !! j) as [n|] eqn:Hn; [|done]. destruct (execution_invalid n) eqn:He; [done|].
  destruct (Nat.eqb_spec j i) as [->|]; [rewrite Hn in Hi; congruence|].
  destruct (parent_of ns j) as [p|] eqn:Hp; [|done]. apply IH. by apply Hpar.
Qed.

(** The paths that end at [i], or at one of its children, that reach [j]. *)
Definition through (i j : nat) : Z :=
  Z.b2z (bool_decide (j = i)) + sum_over (fun c => Z.b2z (reaches ns c j)) (children_of ns i).

Lemma children_nodup i : NoDup (children_of ns i).
Proof. apply NoDup_filter, NoDup_seq. Qed.

Lemma children_reach_up i j p n :
  parent_of ns j = Some p -> ns !! j = Some n -> execution_invalid n = false ->
  sum_over (fun c => Z.b2z (reaches ns c j)) (children_of ns i) = through i p.
Proof.
  intros Hp Hn He. unfold through.
  transitivity (sum_over (fun c => Z.b2z (bool_decide (c = j)) + Z.b2z (reaches ns c p)) (children_of ns i)).
  - apply sum_over_ext. intros c _. rewrite reaches_unfold, Hn, He, Hp. destruct (Nat.eqb_spec j c) as [->|Hc].
    + rewrite bool_decide_true by done. destruct (reaches ns c p) eqn:E; [|done].
      apply reaches_le in E. apply Hpar in Hp. lia.
    + by rewrite bool_decide_false by congruence.
  - rewrite sum_over_add, sum_over_indicator by apply children_nodup. f_equal. f_equal.
    apply bool_decide_ext. rewrite elem_of_children, Hp. split; [congruence|by intros ->].
Qed.

Lemma children_reach_root i j n :
  parent_of ns j = None -> ns !! j = Some n -> sum_over (fun c => Z.b2z (reaches ns c j)) (children_of ns i) = 0.
Proof.
  intros Hp Hn. apply sum_over_zero. intros c Hc%elem_of_children. rewrite reaches_unfold, Hn, Hp.
  destruct (execution_invalid n); [done|]. destruct (Nat.eqb_spec j c); [congruence|done].
Qed.

Lemma children_reach_none i j : ns !! j = None \/ invalid_at j = true -> sum_over (fun c => Z.b2z (reaches ns c j)) (children_of ns i) = 0.
Proof.
  intros H. apply sum_over_zero. intros c _. rewrite reaches_unfold. unfold invalid_at in H.
  destruct (ns !! j) as [n|]; [|done]. destruct H as [H|H]; [done|]. by rewrite H.
Qed.

Lemma children_reach_self i : sum_over (fun c => Z.b2z (reaches ns c i)) (children_of ns i) = 0.
Proof.
  apply sum_over_zero. intros c Hc%elem_of_children%Hpar. destruct (reaches ns c i) eqn:E; [|done]. apply reaches_le in E. lia.
Qed.

(** A valid node is reached exactly through itself or one of its children. *)
Lemma reaches_through i j : is_Some (ns !! i) -> invalid_at i = false -> Z.b2z (reaches ns i j) = through i j.
Proof.
  intros Hi Hv. induction j as [j IH] using lt_wf_ind. unfold through. destruct (decide (j = i)) as [->|Hji].
  - rewrite children_reach_self, bool_decide_true, reaches_unfold by done. destruct Hi as [n Hn]. unfold invalid_at in Hv.
    rewrite Hn in *. by rewrite Hv, Nat.eqb_refl.
  - rewrite bool_decide_false by done. rewrite reaches_unfold. destruct (ns !! j) as [n|] eqn:Hn.
    2: { rewrite children_reach_none; [done|by left]. }
    destruct (execution_invalid n) eqn:He.
    { rewrite children_reach_none; [done|]. right. unfold invalid_at. by rewrite Hn. }
    rewrite (proj2 (Nat.eqb_neq j i)) by done. destruct (parent_of ns j) as [p|] eqn:Hp.
    + rewrite (IH p) by (by apply Hpar). symmetry. cbn. by apply (children_reach_up _ _ _ n).
    + by rewrite (children_reach_root i j n).
Qed.

(** No vote is counted twice below one node, valid or not. *)
Lemma through_le_one i j : 0 <= through i j <= 1.
Proof.
  split.
  { unfold through. pose proof (sum_over_nonneg (fun c => Z.b2z (reaches ns c j)) (children_of ns i)) as H.
    assert (forall c, c ∈ children_of ns i -> 0 <= Z.b2z (reaches ns c j)) as Hc by (intros c _; by destruct (reaches ns c j)).
    specialize (H Hc). assert (0 <= Z.b2z (bool_decide (j = i))) by (by case_bool_decide). lia. }
  induction j as [j IH] using lt_wf_ind. unfold through. destruct (decide (j = i)) as [->|Hji].
  - rewrite children_reach_self, bool_decide_true by done. done.
  - rewrite bool_decide_false by done. destruct (ns !! j) as [n|] eqn:Hn.
    2: { rewrite children_reach_none; [done|by left]. }
    destruct (execution_invalid n) eqn:He.
    { rewrite children_reach_none; [done|]. right. unfold invalid_at. by rewrite Hn. }
    destruct (parent_of ns j) as [p|] eqn:Hp; [|by rewrite (children_reach_root i j n)].
    rewrite (children_reach_up _ _ _ n Hp) by done. cbn. apply IH. by apply Hpar.
Qed.
End paths.

(** * Sums of votes *)

Lemma sum_balance_le l n : Forall (Z.le 0) l -> sum_over (balance l) (seq 0 n) <= zsum l.
Proof.
  intros Hl. revert n. induction Hl as [|b l Hb Hl IH]; intros n.
  - rewrite sum_over_zero; [done|]. intros x _. by unfold balance; rewrite lookup_nil.
  - destruct n as [|n]; [rewrite sum_over_zero by (intros x ?; set_solver); apply (zsum_nonneg (b :: l)); by constructor|].
    cbn [seq]. rewrite sum_over_cons, <-seq_shift. unfold sum_over in *. change (zsum (b :: l)) with (b + zsum l).
    specialize (IH n). rewrite map_map. change (balance (b :: l) 0%nat) with b.
    rewrite (map_ext (fun x => balance (b :: l) (S x)) (balance l)) by done. lia.
Qed.

Section vote_sums.
Context (pa : ProtoArray) (T : BlockTree pa) (bs : list Z) (root_of : nat -> VoteTracker -> bytes) (vs : list VoteTracker).

Definition voted (i : nat) (root : bytes) : bool := bool_decide (indices pa !! root = Some i).

(** The votes for node [i] itself. *)
Definition own_weight (i : nat) : Z := vote_weight bs root_of (voted i) vs.

Definition tree_weight (i : nat) : Z := vote_weight bs root_of (supports pa i) vs.

(** The votes at or below [i], summed at [i] and at its children. *)
Lemma vote_weight_through i :
  own_weight i + sum_over tree_weight (children_of (nodes pa) i)
  = sum_over (fun '(k, v) => balance bs k * match indices pa !! root_of k v with Some j => through (nodes pa) i j | None => 0 end) (numbered 0 vs).
Proof.
  unfold own_weight, tree_weight, vote_weight. rewrite sum_over_swap, <-sum_over_add. apply sum_over_ext. intros [k v] _.
  rewrite sum_over_scale, <-Z.mul_add_distr_l. f_equal. unfold voted, supports, through.
  destruct (indices pa !! root_of k v) as [j|].
  - f_equal. f_equal. apply bool_decide_ext. naive_solver.
  - rewrite bool_decide_false by done. by rewrite sum_over_zero.
Qed.

Lemma tree_weight_rec i :
  (i < length (nodes pa))%nat -> invalid_at (nodes pa) i = false ->
  tree_weight i = own_weight i + sum_over tree_weight (children_of (nodes pa) i).
Proof.
  intros Hi Hv. rewrite vote_weight_through. unfold tree_weight, vote_weight. apply sum_over_ext. intros [k v] _. f_equal.
  unfold supports. destruct (indices pa !! root_of k v) as [j|]; [|done].
  apply reaches_through; [apply (bt_parents pa T)|by apply lookup_lt_is_Some|done].
Qed.

Lemma tree_weight_invalid i : invalid_at (nodes pa) i = true -> tree_weight i = 0.
Proof.
  intros Hi. apply sum_over_zero. intros [k v] _. unfold supports. destruct (indices pa !! _) as [j|]; [|cbn; lia].
  rewrite reaches_invalid; [cbn; lia|apply (bt_parents pa T)|done].
Qed.

Lemma numbered_balance k : sum_over (fun '(j, _) => balance bs j) (numbered k vs) = sum_over (balance bs) (seq k (length vs)).
Proof. revert k. induction vs as [|v l IH]; intros k; [done|]. cbn [numbered length seq]. by rewrite !sum_over_cons, IH. Qed.

Context (Hbs : Forall (Z.le 0) bs).

Lemma balance_nonneg k : 0 <= balance bs k.
Proof. unfold balance. destruct (bs !! k) as [b|] eqn:E; [|done]. cbn. by eapply Forall_lookup_1 in Hbs. Qed.

Lemma through_total i : 0 <= own_weight i + sum_over tree_weight (children_of (nodes pa) i) <= zsum bs.
Proof.
  rewrite vote_weight_through. split.
  - apply sum_over_nonneg. intros [k v] _. pose proof (balance_nonneg k). destruct (indices pa !! _) as [j|]; [|lia].
    pose proof (through_le_one (nodes pa) (bt_parents pa T) i j). nia.
  - etransitivity; [|apply (sum_balance_le bs (length vs) Hbs)]. rewrite <-numbered_balance. apply sum_over_le. intros [k v] _.
    pose proof (balance_nonneg k). destruct (indices pa !! _) as [j|]; [|lia].
    pose proof (through_le_one (nodes pa) (bt_parents pa T) i j). nia.
Qed.

Lemma vote_weight_bounds P : 0 <= vote_weight bs root_of P vs <= zsum bs.
Proof.
  unfold vote_weight. split.
  - apply sum_over_nonneg. intros [k v] _. pose proof (balance_nonneg k). destruct (P _); cbn; lia.
  - etransitivity; [|apply (sum_balance_le bs (length vs) Hbs)]. rewrite <-numbered_balance. apply sum_over_le. intros [k v] _.
    pose proof (balance_nonneg k). destruct (P _); cbn; lia.
Qed.
End vote_sums.
