(* ===== verification/ForkScores.v ===== *)
(** * The deltas and their application

    The deltas of [compute_deltas] are, node by node, the balances of the votes counted
    after the pass less those counted before it; with balances below 2^63 in total no
    sum overflows.  [apply_score_changes] adds to every weight the deltas at and below
    its node, and empties the nodes whose payload is invalid. *)

From S2P Require Import FixedPoint.
From S2P Require Export ForkWeights.
Local Open Scope rust_scope.
Local Open Scope Z_scope.

(** * One vote *)

Definition delta_at (deltas : list NodeDelta) (i : nat) : Z := match deltas !! i with Some nd => nd_delta nd | None => 0 end.

(** The three signed fields of every delta lie between [-a] and [b]. *)
Definition bounded_delta (a b : Z) (nd : NodeDelta) : Prop :=
  - a <= nd_delta nd <= b /\ - a <= empty_delta nd <= b /\ - a <= full_delta nd <= b.
Definition bounded (a b : Z) (deltas : list NodeDelta) : Prop := Forall (bounded_delta a b) deltas.

Lemma i64_checked_ok z : - 2 ^ 63 <= z < 2 ^ 63 -> i64_checked z = Some z.
Proof. intros H. unfold i64_checked, i64_range. rewrite (proj2 (Z.leb_le _ _)), (proj2 (Z.ltb_lt _ _)) by lia. done. Qed.

Lemma i64_checked_inv z y : i64_checked z = Some y -> y = z.
Proof. unfold i64_checked. destruct (i64_range z); congruence. Qed.

Lemma u64_checked_inv z y : u64_checked z = Some y -> y = z.
Proof. unfold u64_checked. destruct (_ && _); congruence. Qed.

Lemma u64_checked_ok z : 0 <= z <= U64_MAX -> u64_checked z = Some z.
Proof. intros H. unfold u64_checked. rewrite !(proj2 (Z.leb_le _ _)) by lia. done. Qed.

Lemma ok_or_ok {A E} (o : option A) (e : E) a : ok_or o e = Ok a -> o = Some a.
Proof. destruct o; cbn; congruence. Qed.

Lemma as_i64_small z : z < 2 ^ 63 -> as_i64 z = z.
Proof. intros H. unfold as_i64. by rewrite (proj2 (Z.ltb_lt _ _)). Qed.

Lemma add_payload_delta_ok nd s d i nd' : add_payload_delta nd s d i = Ok nd' -> nd_delta nd' = nd_delta nd.
Proof. destruct s; cbn; try (destruct (i64_checked _); cbn; [|done]); by intros [= <-]. Qed.

(** Adding a loss to bounded fields cannot overflow while the totals fit; nor a gain. *)
Lemma add_payload_delta_bounded nd s d i a b a' b' :
  a' <= 2 ^ 63 -> b' < 2 ^ 63 -> - a <= empty_delta nd <= b /\ - a <= full_delta nd <= b ->
  a <= a' -> b <= b' -> - a' <= - a + d -> b + d <= b' ->
  exists nd', add_payload_delta nd s d i = Ok nd' /\ nd_delta nd' = nd_delta nd /\ (- a' <= nd_delta nd <= b' -> bounded_delta a' b' nd').
Proof.
  intros Ha Hb (H2 & H3) Hla Hlb Hd1 Hd2. destruct s; cbn.
  - rewrite i64_checked_ok by lia. eexists. split; [done|]. split; [done|]. unfold bounded_delta. cbn. lia.
  - rewrite i64_checked_ok by lia. eexists. split; [done|]. split; [done|]. unfold bounded_delta. cbn. lia.
  - exists nd. split; [done|]. split; [done|]. unfold bounded_delta. lia.
Qed.

Section votes.
Context (pa : ProtoArray) (slots : list Z) (old_balances new_balances : list Z) (equivocating : gset Z).
Implicit Types deltas : list NodeDelta.

Lemma change_delta_spec deltas root slot present d deltas' :
  change_delta (indices pa) slots deltas root slot present d = Ok deltas' ->
  length deltas' = length deltas /\ forall i, delta_at deltas' i = delta_at deltas i + d * Z.b2z (voted pa i root).
Proof.
  unfold change_delta, voted. destruct (indices pa !! root) as [j|].
  2: { intros [= <-]. split; [done|]. intros i. rewrite bool_decide_false by done. cbn. lia. }
  destruct (deltas !! j) as [nd|] eqn:Hj; [|done]. cbn. destruct (i64_checked _) as [z|] eqn:Hz; [|done]. cbn.
  destruct (slots !! j); [|done]. cbn. destruct (add_payload_delta _ _ _ _) as [nd'|] eqn:Hp; [|done].
  intros [= <-]. rewrite length_insert. split; [done|]. apply add_payload_delta_ok in Hp. apply i64_checked_inv in Hz.
  intros i. unfold delta_at. destruct (decide (i = j)) as [->|Hi].
  - rewrite list_lookup_insert_eq by (by eapply lookup_lt_Some). rewrite Hj, bool_decide_true by done. cbn in *. lia.
  - rewrite list_lookup_insert_ne by done. rewrite bool_decide_false by congruence. cbn. lia.
Qed.

Lemma change_delta_bounded deltas root slot present d a b a' b' :
  (forall r i, indices pa !! r = Some i -> (i < length deltas)%nat /\ (i < length slots)%nat) ->
  a' <= 2 ^ 63 -> b' < 2 ^ 63 -> bounded a b deltas -> a <= a' -> b <= b' -> - a' <= - a + d -> b + d <= b' ->
  exists deltas', change_delta (indices pa) slots deltas root slot present d = Ok deltas' /\ bounded a' b' deltas'.
Proof.
  intros Hix Ha Hb Hbd Hla Hlb Hd1 Hd2. assert (bounded a' b' deltas) as Hbd'.
  { eapply Forall_impl; [done|]. intros nd. unfold bounded_delta. cbn. lia. }
  unfold change_delta. destruct (indices pa !! root) as [j|] eqn:Hj; [|by exists deltas].
  apply Hix in Hj as [Hj1 Hj2]. apply lookup_lt_is_Some in Hj1 as [nd Hnd], Hj2 as [s ->]. rewrite Hnd. cbn.
  pose proof (proj1 (Forall_lookup _ _) Hbd _ _ Hnd) as Hb1. rewrite i64_checked_ok by (unfold bounded_delta in Hb1; lia). cbn.
  destruct (add_payload_delta_bounded (mkDelta (nd_delta nd + d) (empty_delta nd) (full_delta nd) (equivocating_attestation_delta nd))
    (vote_payload_status slot present s) d j a b a' b') as (nd' & -> & Hd' & Hb').
  1-7: unfold bounded_delta in *; cbn; lia.
  eexists. split; [done|]. apply Forall_insert; [done|]. apply Hb'. unfold bounded_delta in *. cbn. lia.
Qed.

Lemma note_equivocation_spec deltas root b :
  length (note_equivocation (indices pa) deltas root b) = length deltas
  /\ (forall i, delta_at (note_equivocation (indices pa) deltas root b) i = delta_at deltas i)
  /\ (forall lo hi, bounded lo hi deltas -> bounded lo hi (note_equivocation (indices pa) deltas root b)).
Proof.
  unfold note_equivocation. destruct (indices pa !! root) as [j|]; [|done]. rewrite length_alter. split; [done|]. split.
  - intros i. unfold delta_at. destruct (decide (i = j)) as [->|]; [|by rewrite list_lookup_alter_ne].
    rewrite list_lookup_alter_eq. by destruct (deltas !! j).
  - intros lo hi H. apply Forall_alter; [done|]. intros nd _ Hnd. exact Hnd.
Qed.

(** The root a vote is counted for after the pass. *)
Definition counted (v : VoteTracker) : bytes := current_root v.

Context (Hzero : indices pa !! zero_root = None).
Context (Hold : forall k, 0 <= balance old_balances k < 2 ^ 63) (Hnew : forall k, 0 <= balance new_balances k < 2 ^ 63).

Lemma voted_zero i : voted pa i zero_root = false.
Proof. unfold voted. by rewrite Hzero, bool_decide_false. Qed.

(** What a vote adds at node [i]. *)
Definition vote_change (k : nat) (v : VoteTracker) (i : nat) : Z :=
  balance new_balances k * Z.b2z (voted pa i (latest_root equivocating k v)) - balance old_balances k * Z.b2z (voted pa i (current_root v)).

Ltac by_zero := rewrite ?voted_zero; cbn; lia.

Lemma delta_vote_spec k v deltas v' deltas' :
  delta_vote (indices pa) slots old_balances new_balances equivocating k v deltas = (v', Ok deltas') ->
  length deltas' = length deltas /\ current_root v' = latest_root equivocating k v
  /\ next_root v' = next_root v /\ forall i, delta_at deltas' i = delta_at deltas i + vote_change k v i.
Proof.
  unfold delta_vote, vote_change, latest_root. pose proof (Hold k) as Ho. pose proof (Hnew k) as Hn.
  destruct (bool_decide _ && bool_decide _) eqn:E0; [|clear E0; case_bool_decide as He; [case_bool_decide as Hc|]]; cbn [negb].
  - apply andb_true_iff in E0 as [Hc%bool_decide_eq_true Hx%bool_decide_eq_true]. intros [= <- <-]. rewrite Hc, Hx.
    split; [done|]. split; [by case_bool_decide|]. split; [done|]. intros i. case_bool_decide; by_zero.
  - intros [= <- <-]. rewrite Hc. do 3 (split; [done|]). intros i. by_zero.
  - destruct (change_delta _ _ deltas _ _ _ _) as [d1|] eqn:E1; [|done]. intros [= <- <-]. apply change_delta_spec in E1 as [L1 D1].
    destruct (note_equivocation_spec d1 (current_root v) (balance old_balances k)) as (L2 & D2 & _).
    split; [congruence|]. split; [done|]. split; [done|]. intros i. rewrite D2, D1, as_i64_small, voted_zero by lia. cbn. lia.
  - destruct (vote_changed v _ _) eqn:E.
    + destruct (change_delta _ _ deltas _ _ _ _) as [d1|] eqn:E1; [|done]. destruct (change_delta _ _ d1 _ _ _ _) as [d2|] eqn:E2; [|done].
      intros [= <- <-]. apply change_delta_spec in E1 as [L1 D1], E2 as [L2 D2]. split; [congruence|]. split; [done|]. split; [done|].
      intros i. rewrite D2, D1, !as_i64_small by lia. lia.
    + intros [= <- <-]. unfold vote_changed in E. apply orb_false_iff in E as [E _]. apply orb_false_iff in E as [E _].
      apply orb_false_iff in E as [E1 E2]. apply negb_false_iff, bool_decide_eq_true in E1. apply negb_false_iff, Z.eqb_eq in E2.
      do 3 (split; [done|]). intros i. rewrite E1, E2. lia.
Qed.

(** The deltas of a whole pass, and the roots its votes are counted for. *)
Lemma delta_votes_spec vs k deltas vs' deltas' :
  delta_votes (indices pa) slots old_balances new_balances equivocating k vs deltas = (vs', Ok deltas') ->
  length deltas' = length deltas
  /\ Forall2 (fun '(j, v) v' => current_root v' = latest_root equivocating j v /\ next_root v' = next_root v) (numbered k vs) vs'
  /\ forall i, delta_at deltas' i = delta_at deltas i + sum_over (fun '(j, v) => vote_change j v i) (numbered k vs).
Proof.
  revert k deltas vs'. induction vs as [|v vs IH]; intros k deltas vs'; cbn [delta_votes numbered].
  { intros [= <- <-]. repeat split; [constructor|]. intros i. unfold sum_over. cbn. lia. }
  destruct (delta_vote _ _ _ _ _ _ _ _) as [v1 [d1|]] eqn:E1; [|done].
  destruct (delta_votes _ _ _ _ _ _ _ _) as [vs1 r] eqn:E2. intros [= <- ->].
  apply delta_vote_spec in E1 as (L1 & C1 & N1 & D1). apply IH in E2 as (L2 & F2 & D2).
  split; [congruence|]. split; [by constructor|]. intros i. rewrite D2, D1, sum_over_cons. lia.
Qed.

Lemma delta_vote_bounded k v deltas a b :
  (forall r i, indices pa !! r = Some i -> (i < length deltas)%nat /\ (i < length slots)%nat) ->
  a + balance old_balances k <= 2 ^ 63 -> b + balance new_balances k < 2 ^ 63 -> bounded a b deltas ->
  exists v' deltas', delta_vote (indices pa) slots old_balances new_balances equivocating k v deltas = (v', Ok deltas')
    /\ bounded (a + balance old_balances k) (b + balance new_balances k) deltas'.
Proof.
  intros Hix Ha Hb Hbd. pose proof (Hold k) as Ho. pose proof (Hnew k) as Hn.
  assert (bounded (a + balance old_balances k) (b + balance new_balances k) deltas) as Hbd'.
  { eapply Forall_impl; [done|]. intros nd. unfold bounded_delta. cbn. lia. }
  destruct (change_delta_bounded deltas (current_root v) (vt_current_slot v) (current_payload_present v) (- as_i64 (balance old_balances k))
    a b (a + balance old_balances k) b) as (d1 & E1 & B1); try done; try (rewrite as_i64_small by lia); try lia.
  assert (length d1 = length deltas) as L1 by (by apply change_delta_spec in E1 as [? _]).
  destruct (change_delta_bounded d1 (next_root v) (next_slot v) (next_payload_present v) (as_i64 (balance new_balances k))
    (a + balance old_balances k) b (a + balance old_balances k) (b + balance new_balances k)) as (d2 & E2 & B2);
    try done; try (rewrite as_i64_small by lia); try lia; [by rewrite L1|].
  unfold delta_vote. destruct (_ && _); [by eexists _, _|]. case_bool_decide; [destruct (negb _); [|by eexists _, _]|].
  - rewrite E1. eexists _, _. split; [done|].
    apply note_equivocation_spec. eapply Forall_impl; [done|]. intros nd. unfold bounded_delta. cbn. lia.
  - destruct (vote_changed _ _ _); [|by eexists _, _]. rewrite E1, E2. by eexists _, _.
Qed.

Definition pass_total (bs : list Z) (k : nat) (vs : list VoteTracker) : Z := sum_over (fun '(j, _) => balance bs j) (numbered k vs).

Lemma pass_total_nonneg bs k vs : (forall j, 0 <= balance bs j < 2 ^ 63) -> 0 <= pass_total bs k vs.
Proof. intros H. apply sum_over_nonneg. intros [j v] _. pose proof (H j). lia. Qed.

Lemma delta_votes_bounded vs k deltas a b :
  (forall r i, indices pa !! r = Some i -> (i < length deltas)%nat /\ (i < length slots)%nat) ->
  a + pass_total old_balances k vs <= 2 ^ 63 -> b + pass_total new_balances k vs < 2 ^ 63 -> bounded a b deltas ->
  exists vs' deltas', delta_votes (indices pa) slots old_balances new_balances equivocating k vs deltas = (vs', Ok deltas')
    /\ bounded (a + pass_total old_balances k vs) (b + pass_total new_balances k vs) deltas'.
Proof.
  revert k deltas a b. induction vs as [|v vs IH]; intros k deltas a b Hix; cbn [delta_votes].
  { unfold pass_total, sum_over. cbn. rewrite !Z.add_0_r. intros _ _ H. by eexists _, _. }
  assert (forall bs, pass_total bs k (v :: vs) = balance bs k + pass_total bs (S k) vs) as Hcons by done. rewrite !Hcons.
  pose proof (pass_total_nonneg old_balances (S k) vs Hold). pose proof (pass_total_nonneg new_balances (S k) vs Hnew).
  pose proof (Hold k). pose proof (Hnew k). intros Ha Hb Hbd.
  destruct (delta_vote_bounded k v deltas a b) as (v1 & d1 & E1 & B1); [done|lia|lia|done|]. rewrite E1.
  apply delta_vote_spec in E1 as (L1 & _).
  destruct (IH (S k) d1 (a + balance old_balances k) (b + balance new_balances k)) as (vs1 & d2 & -> & B2);
    [by rewrite L1|lia|lia|done|]. eexists _, _. split; [done|]. by rewrite <-!Z.add_assoc in B2.
Qed.
End votes.

(** * The whole pass of [compute_deltas] *)

Lemma sum_over_sub {A} (f g : A -> Z) l : sum_over (fun x => f x - g x) l = sum_over f l - sum_over g l.
Proof. induction l as [|x l IH]; [done|]. rewrite !sum_over_cons, IH. lia. Qed.

Definition current (_ : nat) (v : VoteTracker) : bytes := current_root v.

(** A vote list counted for its latest votes weighs what the latest votes weigh. *)
Lemma counted_latest equivocating bs P vs vs' k :
  Forall2 (fun '(j, v) v' => current_root v' = latest_root equivocating j v /\ next_root v' = next_root v) (numbered k vs) vs' ->
  sum_over (fun '(j, v) => balance bs j * Z.b2z (P (current j v))) (numbered k vs')
  = sum_over (fun '(j, v) => balance bs j * Z.b2z (P (latest_root equivocating j v))) (numbered k vs).
Proof.
  revert k vs'. induction vs as [|v vs IH]; intros k vs' H; cbn [numbered] in H.
  - apply Forall2_nil_inv_l in H as ->. done.
  - apply Forall2_cons_inv_l in H as (v' & vs1 & [Hc _] & H & ->). cbn [numbered]. rewrite !sum_over_cons, (IH _ _ H).
    unfold current. by rewrite Hc.
Qed.

Lemma balance_small bs k : Forall (Z.le 0) bs -> zsum bs < 2 ^ 63 -> 0 <= balance bs k < 2 ^ 63.
Proof.
  intros Hb Ht. split; [by apply balance_nonneg|]. pose proof (sum_balance_le bs (S k) Hb) as H.
  rewrite seq_S, sum_over_app, sum_over_cons in H. cbn [plus] in H.
  pose proof (sum_over_nonneg (balance bs) (seq 0 k) ltac:(intros; by apply balance_nonneg)) as H0.
  change (sum_over (balance bs) []) with 0 in H. lia.
Qed.

Section pass.
Context (pa : ProtoArray) (T : BlockTree pa) (Hzero : indices pa !! zero_root = None).
Context (old_balances new_balances : list Z) (equivocating : gset Z) (vs : list VoteTracker).
Context (Ho : Forall (Z.le 0) old_balances) (Hn : Forall (Z.le 0) new_balances).
Context (Hto : zsum old_balances < 2 ^ 63) (Htn : zsum new_balances < 2 ^ 63).

Definition old_own (i : nat) : Z := own_weight pa old_balances current vs i.
Definition new_own (i : nat) : Z := own_weight pa new_balances (latest_root equivocating) vs i.

Lemma compute_deltas_spec :
  exists vs' deltas,
    compute_deltas (indices pa) (map pn_slot (nodes pa)) old_balances new_balances equivocating vs = (vs', Ok deltas)
    /\ length deltas = length (nodes pa)
    /\ (forall i, delta_at deltas i = new_own i - old_own i)
    /\ (forall bs P, vote_weight bs current P vs' = vote_weight bs (latest_root equivocating) P vs)
    /\ map next_root vs' = map next_root vs.
Proof.
  pose proof (fun k => balance_small old_balances k Ho Hto) as Bo. pose proof (fun k => balance_small new_balances k Hn Htn) as Bn.
  pose proof (indices_size pa T) as Hsz. unfold compute_deltas.
  assert (forall bs, Forall (Z.le 0) bs -> pass_total bs 0 vs <= zsum bs) as Htot.
  { intros bs Hb. unfold pass_total. rewrite numbered_balance. by apply sum_balance_le. }
  pose proof (Htot _ Ho). pose proof (Htot _ Hn).
  destruct (delta_votes_bounded pa (map pn_slot (nodes pa)) old_balances new_balances equivocating Hzero Bo Bn vs 0
    (repeat no_delta (size (indices pa))) 0 0) as (vs' & deltas & E & _).
  - intros r i Hi%(index_in_range pa T). by rewrite repeat_length, length_map, Hsz.
  - lia.
  - lia.
  - apply Forall_forall. intros nd Hin. apply list_elem_of_In, repeat_spec in Hin as ->. unfold bounded_delta. cbn. lia.
  - exists vs', deltas. split; [done|]. apply delta_votes_spec in E as (L & F & D); [|done..].
    split; [by rewrite L, repeat_length|]. split.
    + intros i. rewrite D. unfold delta_at, new_own, old_own, own_weight, vote_weight. rewrite <-sum_over_sub.
      replace (match repeat no_delta (size (indices pa)) !! i with Some nd => nd_delta nd | None => 0 end) with 0.
      2: { destruct (repeat no_delta _ !! i) eqn:Ei; [|done]. apply list_elem_of_lookup_2, list_elem_of_In, repeat_spec in Ei as ->. done. }
      cbn. apply sum_over_ext. intros [j v] _. done.
    + split; [intros bs P; by apply counted_latest|]. clear -F. revert F. generalize 0%nat. revert vs'.
      induction vs as [|v l IH]; intros vs' k F; cbn [numbered] in F; [by apply Forall2_nil_inv_l in F as ->|].
      apply Forall2_cons_inv_l in F as (v' & vs1 & [_ N] & F & ->). cbn. f_equal; [done|by eapply IH].
Qed.
End pass.
