(* ===== verification/ForkGhost.v ===== *)
(** * Scoring keeps the weights right

    [Scored] says that the weights of the array are the sums of the votes counted with
    the current balances.  A fork choice starts [Scored], every operation keeps it, and
    a scoring pass on it succeeds and leaves on every node its LMD-GHOST weight for the
    new balances, the latest votes and the equivocations known. *)

From S2P Require Import FixedPoint.
From S2P Require Export ForkScores.
Local Open Scope rust_scope.
Local Open Scope Z_scope.

Definition weight_at (ns : list ProtoNode) (i : nat) : Z := match ns !! i with Some n => pn_weight n | None => 0 end.

Definition is_gloas (n : ProtoNode) : bool := match pn_variant n with V29 _ => true | V17 _ => false end.

(** What scoring leaves alone on a node: everything but the weights. *)
Definition frame (n : ProtoNode) : ProtoNode :=
  with_weight (with_variant n (match pn_variant n with V17 v => V17 v | V29 v => V29 (set_payload_weights v 0 0 0) end)) 0.
Definition same_frame (ns ns' : list ProtoNode) : Prop := frame <$> ns = frame <$> ns'.

Lemma frame_invalid n : execution_invalid (frame n) = execution_invalid n.
Proof. unfold execution_invalid, execution_status. cbn. by destruct (pn_variant n). Qed.

Lemma frame_gloas n : is_gloas (frame n) = is_gloas n.
Proof. unfold is_gloas. cbn. by destruct (pn_variant n). Qed.

Lemma same_frame_lookup ns ns' i : same_frame ns ns' -> frame <$> ns !! i = frame <$> ns' !! i.
Proof. intros H. by rewrite <-!list_lookup_fmap, H. Qed.

(** A property of nodes that does not read the weights. *)
Lemma same_frame_fmap {A} (f : ProtoNode -> A) ns ns' i :
  (forall n, f (frame n) = f n) -> same_frame ns ns' -> f <$> ns !! i = f <$> ns' !! i.
Proof.
  intros Hf H%(same_frame_lookup _ _ i). destruct (ns !! i) as [n|], (ns' !! i) as [n'|]; try done.
  apply (inj Some) in H. change (Some (f n) = Some (f n')). by rewrite <-(Hf n), <-(Hf n'), H.
Qed.

Lemma same_frame_shape ns ns' : same_frame ns ns' -> same_shape ns ns'.
Proof. intros H. apply list_eq. intros i. rewrite !list_lookup_fmap. by apply same_frame_fmap. Qed.

Lemma same_frame_invalid ns ns' i : same_frame ns ns' -> invalid_at ns i = invalid_at ns' i.
Proof.
  intros H%(same_frame_fmap execution_invalid _ _ i); [|apply frame_invalid]. unfold invalid_at.
  destruct (ns !! i), (ns' !! i); cbn in H; congruence.
Qed.

Lemma same_frame_insert ns i n n' : ns !! i = Some n -> frame n' = frame n -> same_frame (<[i := n']> ns) ns.
Proof. intros Hi Hs. unfold same_frame. rewrite list_fmap_insert, Hs. apply list_insert_id. by rewrite list_lookup_fmap, Hi. Qed.

Lemma same_frame_reaches ns ns' i j : same_frame ns ns' -> reaches ns i j = reaches ns' i j.
Proof.
  intros H. unfold reaches. generalize (S j) as fuel. intros fuel. revert j. induction fuel as [|fuel IH]; intros j; [done|]. cbn.
  pose proof (same_frame_invalid _ _ j H) as Hv. pose proof (same_shape_parent _ _ j (same_frame_shape _ _ H)) as Hp.
  pose proof (same_frame_lookup _ _ j H) as Hl. unfold invalid_at, parent_of in *.
  destruct (ns !! j) as [n|], (ns' !! j) as [n'|]; try done. cbn in Hp. rewrite Hv, Hp.
  destruct (execution_invalid n'); [done|]. destruct (Nat.eqb j i); [done|]. by destruct (pn_parent n').
Qed.

(** Nodes without the payload weights of Gloas. *)
Definition pre_gloas (ns : list ProtoNode) : Prop := Forall (fun n => is_gloas n = false) ns.

Lemma same_frame_pre_gloas ns ns' : same_frame ns ns' -> pre_gloas ns' -> pre_gloas ns.
Proof.
  intros H Hp. apply Forall_lookup. intros i n Hn. apply (same_frame_fmap is_gloas _ _ i frame_gloas) in H. rewrite Hn in H.
  destruct (ns' !! i) as [n'|] eqn:Hn'; [|done]. pose proof (proj1 (Forall_lookup _ _) Hp _ _ Hn') as E. cbn in H. congruence.
Qed.

(** * The invariant *)

Record Scored (pa : ProtoArray) (vs : list VoteTracker) (bs : list Z) : Prop := {
  sc_tree : BlockTree pa;
  sc_zero : indices pa !! zero_root = None;
  sc_nonneg : Forall (Z.le 0) bs;
  sc_total : zsum bs < 2 ^ 63;
  sc_range : forall i, 0 <= weight_at (nodes pa) i < 2 ^ 63;
  sc_valid : forall i, (i < length (nodes pa))%nat -> invalid_at (nodes pa) i = false ->
    weight_at (nodes pa) i = own_weight pa bs current vs i + sum_over (weight_at (nodes pa)) (children_of (nodes pa) i);
  sc_below : forall i, own_weight pa bs current vs i + sum_over (weight_at (nodes pa)) (children_of (nodes pa) i) < 2 ^ 63
}.

(** * One node *)

Lemma apply_payload_deltas_frame n nd i n' r : apply_payload_deltas n nd i = (n', r) -> frame n' = frame n /\ pn_weight n' = pn_weight n.
Proof.
  unfold apply_payload_deltas, frame. destruct (pn_variant n) eqn:E; [intros [= <- <-]; by rewrite E|].
  destruct (apply_delta _ (empty_delta nd) i); [destruct (apply_delta _ (full_delta nd) i)|]; intros [= <- <-]; cbn; rewrite ?E; done.
Qed.

Lemma frame_with_weight n w : frame (with_weight n w) = frame n.
Proof. done. Qed.

Lemma propagate_delta_spec n d deltas deltas' :
  propagate_delta n d deltas = Ok deltas' ->
  length deltas' = length deltas /\ forall i, delta_at deltas' i = delta_at deltas i + Z.b2z (bool_decide (pn_parent n = Some i)) * d.
Proof.
  unfold propagate_delta. destruct (pn_parent n) as [p|].
  2: { intros [= <-]. split; [done|]. intros i. rewrite bool_decide_false by done. cbn. lia. }
  destruct (deltas !! p) as [pd|] eqn:Hp; [|done]. cbn. destruct (i64_checked _) as [z|] eqn:Hz; [|done]. cbn. apply i64_checked_inv in Hz.
  assert (forall nd, nd_delta nd = z -> length (<[p := nd]> deltas) = length deltas
    /\ forall i, delta_at (<[p := nd]> deltas) i = delta_at deltas i + Z.b2z (bool_decide (Some p = Some i)) * d) as H.
  { intros nd Hd. rewrite length_insert. split; [done|]. intros i. unfold delta_at. destruct (decide (i = p)) as [->|].
    - rewrite list_lookup_insert_eq by (by eapply lookup_lt_Some). rewrite Hp, bool_decide_true by done. cbn. lia.
    - rewrite list_lookup_insert_ne by done. rewrite bool_decide_false by congruence. cbn. lia. }
  destruct (as_v29 n).
  - destruct (add_payload_delta _ _ _ _) as [nd|] eqn:E; [|done]. intros [= <-]. apply H. by apply add_payload_delta_ok in E.
  - intros [= <-]. by apply H.
Qed.

(** The delta that leaves a node is the change of its weight. *)
Lemma leaving_delta_spec n nd i delta w :
  (execution_invalid n = true -> pn_weight n < 2 ^ 63) -> leaving_delta n nd i = Ok delta -> new_weight n delta i = Ok w ->
  delta = w - pn_weight n /\ w = if execution_invalid n then 0 else pn_weight n + nd_delta nd.
Proof.
  unfold leaving_delta, new_weight, apply_delta. destruct (execution_invalid n); intros Hs.
  - intros H%ok_or_ok%i64_checked_inv [= <-]. rewrite as_i64_small in H by auto. lia.
  - intros [= <-] H%ok_or_ok%u64_checked_inv. lia.
Qed.

Lemma score_node_spec i ns deltas n nd ns' deltas' :
  ns !! i = Some n -> deltas !! i = Some nd -> pn_root n <> zero_root -> (execution_invalid n = true -> pn_weight n < 2 ^ 63) ->
  score_node i ns deltas = (ns', Ok deltas') ->
  let w := if execution_invalid n then 0 else pn_weight n + nd_delta nd in
  same_frame ns' ns /\ length deltas' = length deltas
  /\ (forall j, weight_at ns' j = if decide (j = i) then w else weight_at ns j)
  /\ (forall j, delta_at deltas' j = delta_at deltas j + Z.b2z (bool_decide (pn_parent n = Some j)) * (w - pn_weight n)).
Proof.
  intros Hn Hd Hr Hs. unfold score_node. rewrite Hn, Hd, bool_decide_false by done.
  destruct (leaving_delta n nd i) as [delta|] eqn:E1; [|done]. destruct (new_weight n delta i) as [w|] eqn:E2; [|done].
  destruct (leaving_delta_spec _ _ _ _ _ Hs E1 E2) as [Hdelta Hw].
  destruct (apply_payload_deltas _ _ _) as [n' [u|]] eqn:E3; [|done]. intros [= <- E4].
  apply apply_payload_deltas_frame in E3 as [Hf Hw']. rewrite frame_with_weight in Hf. cbn in Hw'.
  apply propagate_delta_spec in E4 as [L D]. cbn. rewrite <-Hw. split; [by eapply same_frame_insert|]. split; [done|]. split.
  - intros j. unfold weight_at. case_decide as Hj; [subst j; rewrite list_lookup_insert_eq by (by eapply lookup_lt_Some); done|].
    by rewrite list_lookup_insert_ne.
  - intros j. rewrite D, Hdelta. apply (f_equal pn_parent) in Hf. cbn in Hf. by rewrite Hf.
Qed.

Lemma weight_at_insert ns i n w :
  ns !! i = Some n -> forall j, weight_at (<[i := with_weight n w]> ns) j = if decide (j = i) then w else weight_at ns j.
Proof.
  intros Hn j. unfold weight_at. case_decide as Hj; [subst j; by rewrite list_lookup_insert_eq by (by eapply lookup_lt_Some)|].
  by rewrite list_lookup_insert_ne.
Qed.

(** * The loop *)

Section loop.
Context (pa : ProtoArray) (vs : list VoteTracker) (bs : list Z) (S0 : Scored pa vs bs).
Context (nb : list Z) (equivocating : gset Z) (Hn : Forall (Z.le 0) nb) (Hnt : zsum nb < 2 ^ 63).

(** The weight every node should end with. *)
Definition target (i : nat) : Z := tree_weight pa nb (latest_root equivocating) vs i.
Let T := sc_tree _ _ _ S0.

(** The deltas gathered at node [i] when the nodes' weights are those of [ns]. *)
Definition gathered (ns : list ProtoNode) (i : nat) : Z :=
  new_own pa nb equivocating vs i - old_own pa bs vs i
  + sum_over (fun c => weight_at ns c - weight_at (nodes pa) c) (children_of (nodes pa) i).

(** Nodes from [k] on are done. *)
Record Progress (k : nat) (ns : list ProtoNode) (deltas : list NodeDelta) : Prop := {
  pg_frame : same_frame ns (nodes pa);
  pg_length : length deltas = length (nodes pa);
  pg_done : forall i, (k <= i)%nat -> weight_at ns i = if Nat.ltb i (length (nodes pa)) then target i else 0;
  pg_todo : forall i, (i < k)%nat -> weight_at ns i = weight_at (nodes pa) i /\ delta_at deltas i = gathered ns i
}.

Lemma target_bounds i : 0 <= target i < 2 ^ 63.
Proof. pose proof (vote_weight_bounds nb (latest_root equivocating) vs Hn (supports pa i)). unfold target, tree_weight. lia. Qed.

(** Once the children of a node are done, what it gathered brings it to its target. *)
Lemma gathered_target k ns deltas i :
  Progress k ns deltas -> (k <= S i)%nat -> (i < length (nodes pa))%nat ->
  target i = if invalid_at (nodes pa) i then 0 else weight_at (nodes pa) i + gathered ns i.
Proof.
  intros P Hk Hi. destruct (invalid_at (nodes pa) i) eqn:Hv; [by apply tree_weight_invalid|].
  rewrite (sc_valid _ _ _ S0 i Hi Hv). unfold gathered. rewrite sum_over_sub. unfold target. rewrite tree_weight_rec by done.
  unfold new_own, old_own. rewrite (sum_over_ext (weight_at ns) (tree_weight pa nb (latest_root equivocating) vs)); [lia|].
  intros c Hc. apply (child_in_range pa T) in Hc as [Hc1 Hc2]. rewrite (pg_done _ _ _ P) by lia. by rewrite (proj2 (Nat.ltb_lt _ _)).
Qed.

Lemma nonzero_root i n : nodes pa !! i = Some n -> pn_root n <> zero_root.
Proof. intros Hn' E. pose proof (sc_zero _ _ _ S0) as Z0. rewrite (proj2 (bt_roots pa T zero_root i)) in Z0; [done|]. by rewrite Hn', <-E. Qed.

Lemma progress_node k ns deltas i :
  Progress k ns deltas -> (i < length (nodes pa))%nat ->
  exists n nd, ns !! i = Some n /\ deltas !! i = Some nd /\ pn_root n <> zero_root /\ invalid_at (nodes pa) i = execution_invalid n
    /\ weight_at ns i = pn_weight n /\ delta_at deltas i = nd_delta nd /\ pn_parent n = parent_of (nodes pa) i.
Proof.
  intros P Hi. destruct (lookup_lt_is_Some_2 ns i) as [n Hn'].
  { by rewrite (same_shape_length _ _ (same_frame_shape _ _ (pg_frame _ _ _ P))). }
  destruct (lookup_lt_is_Some_2 deltas i) as [nd Hnd]; [by rewrite (pg_length _ _ _ P)|].
  exists n, nd. split; [done|]. split; [done|]. pose proof (pg_frame _ _ _ P) as F.
  rewrite <-(same_frame_invalid _ _ i F), <-(same_shape_parent _ _ i (same_frame_shape _ _ F)).
  unfold invalid_at, weight_at, delta_at, parent_of. rewrite Hn', Hnd. repeat split.
  destruct (lookup_lt_is_Some_2 (nodes pa) i Hi) as [n0 Hn0]. pose proof (same_shape_root _ _ i (same_frame_shape _ _ F)) as R.
  rewrite Hn', Hn0 in R. injection R as ->. by eapply nonzero_root.
Qed.

(** Replacing the weight of [i] changes what its parent has gathered by the difference. *)
Lemma gathered_update ns ns' i w :
  (forall j, weight_at ns' j = if decide (j = i) then w else weight_at ns j) ->
  forall j, gathered ns' j = gathered ns j + Z.b2z (bool_decide (parent_of (nodes pa) i = Some j)) * (w - weight_at ns i).
Proof.
  intros Hw j. unfold gathered.
  rewrite (sum_over_update (fun c => weight_at ns c - weight_at (nodes pa) c) (fun c => weight_at ns' c - weight_at (nodes pa) c) i).
  - rewrite Hw, decide_True by done.
    assert (bool_decide (i ∈ children_of (nodes pa) j) = bool_decide (parent_of (nodes pa) i = Some j)) as ->
      by (apply bool_decide_ext, elem_of_children). lia.
  - apply children_nodup.
  - intros y Hy. by rewrite Hw, decide_False.
Qed.

Lemma score_node_progress i ns deltas ns' deltas' :
  (i < length (nodes pa))%nat -> Progress (S i) ns deltas -> score_node i ns deltas = (ns', Ok deltas') -> Progress i ns' deltas'.
Proof.
  intros Hi P E. destruct (progress_node _ _ _ i P Hi) as (n & nd & Hn' & Hnd & Hr & Hv & Hw & Hd & Hp).
  destruct (pg_todo _ _ _ P i) as [Hw0 Hd0]; [lia|].
  destruct (score_node_spec i ns deltas n nd ns' deltas' Hn' Hnd Hr) as (F & L & W & D); [|done|].
  { intros _. rewrite <-Hw, Hw0. apply (sc_range _ _ _ S0). }
  pose proof (gathered_target (S i) ns deltas i P ltac:(lia) Hi) as Ht. rewrite Hv in Ht.
  assert ((if execution_invalid n then 0 else pn_weight n + nd_delta nd) = target i) as Hti.
  { rewrite Ht, <-Hw0, <-Hd0, Hw, Hd. done. }
  rewrite Hti in W, D. pose proof (gathered_update ns ns' i _ W) as G. split.
  - unfold same_frame in *. rewrite F. apply (pg_frame _ _ _ P).
  - rewrite L. apply (pg_length _ _ _ P).
  - intros j Hj. rewrite W. case_decide as Ej; [subst j; by rewrite (proj2 (Nat.ltb_lt _ _))|]. apply (pg_done _ _ _ P). lia.
  - intros j Hj. rewrite W, decide_False by lia. destruct (pg_todo _ _ _ P j) as [A B]; [lia|]. split; [done|].
    rewrite D, G, B, Hp, Hw. done.
Qed.

(** While every weight is the old or the new one, nothing gathered leaves the range. *)
Lemma gathered_bounds ns i :
  (forall c, weight_at ns c = target c \/ weight_at ns c = weight_at (nodes pa) c) -> - 2 ^ 63 < gathered ns i < 2 ^ 63.
Proof.
  intros H. unfold gathered, new_own, old_own. pose proof (sc_below _ _ _ S0 i) as Hb.
  pose proof (through_total pa T nb (latest_root equivocating) vs Hn i) as Ht.
  pose proof (vote_weight_bounds nb (latest_root equivocating) vs Hn (voted pa i)) as Hno.
  pose proof (vote_weight_bounds bs current vs (sc_nonneg _ _ _ S0) (voted pa i)) as Hoo. fold (own_weight pa nb (latest_root equivocating) vs i) in Hno.
  fold (own_weight pa bs current vs i) in Hoo.
  assert (sum_over (fun c => weight_at ns c - weight_at (nodes pa) c) (children_of (nodes pa) i)
    <= sum_over (tree_weight pa nb (latest_root equivocating) vs) (children_of (nodes pa) i)) as H1.
  { apply sum_over_le. intros c _. pose proof (target_bounds c). pose proof (sc_range _ _ _ S0 c). fold (target c). destruct (H c); lia. }
  assert (sum_over (fun c => - 1 * weight_at (nodes pa) c) (children_of (nodes pa) i)
    <= sum_over (fun c => weight_at ns c - weight_at (nodes pa) c) (children_of (nodes pa) i)) as H2.
  { apply sum_over_le. intros c _. pose proof (target_bounds c). pose proof (sc_range _ _ _ S0 c). destruct (H c); lia. }
  rewrite sum_over_scale in H2. lia.
Qed.

(** On pre-Gloas nodes no step overflows. *)
Lemma score_node_ok i ns deltas :
  pre_gloas (nodes pa) -> (i < length (nodes pa))%nat -> Progress (S i) ns deltas -> exists ns' deltas', score_node i ns deltas = (ns', Ok deltas').
Proof.
  intros G Hi P. destruct (progress_node _ _ _ i P Hi) as (n & nd & Hn' & Hnd & Hr & Hv & Hw & Hd & Hp).
  destruct (pg_todo _ _ _ P i) as [Hw0 Hd0]; [lia|]. pose proof (sc_range _ _ _ S0 i) as Hr0. pose proof (target_bounds i) as Ht.
  pose proof (gathered_target (S i) ns deltas i P ltac:(lia) Hi) as Hg. rewrite Hv in Hg.
  pose proof (same_frame_pre_gloas _ _ (pg_frame _ _ _ P) G) as G'.
  pose proof (proj1 (Forall_lookup _ _) G' i n Hn') as Hg'. unfold is_gloas in Hg'. destruct (pn_variant n) as [v|] eqn:Ev; [|done].
  assert (exists delta w, leaving_delta n nd i = Ok delta /\ new_weight n delta i = Ok w /\ delta = target i - pn_weight n /\ w = target i) as
    (delta & w & E1 & E2 & Hdelta & Hw').
  { unfold leaving_delta, new_weight, apply_delta. destruct (execution_invalid n).
    - rewrite as_i64_small, i64_checked_ok by lia. eexists _, 0. repeat split; cbn; lia.
    - exists (nd_delta nd). rewrite u64_checked_ok by (unfold U64_MAX; lia). eexists. repeat split; cbn; lia. }
  unfold score_node. rewrite Hn', Hnd, bool_decide_false, E1, E2 by done. unfold apply_payload_deltas. cbn [pn_variant with_weight]. rewrite Ev.
  unfold propagate_delta. cbn [pn_parent with_weight]. destruct (pn_parent n) as [p|]; [|by eexists _, _].
  symmetry in Hp. pose proof (parent_in_range pa T _ _ Hp) as Hpr.
  destruct (progress_node _ _ _ p P ltac:(lia)) as (np & pd & _ & Hpd & _ & _ & _ & Hdp & _). rewrite Hpd. cbn.
  destruct (pg_todo _ _ _ P p) as [_ Hdp0]; [lia|].
  rewrite i64_checked_ok.
  - cbn. unfold as_v29. cbn. rewrite Ev. by eexists _, _.
  - pose proof (weight_at_insert ns i n (target i) Hn') as W. pose proof (gathered_update ns _ i _ W p) as Hgp.
    rewrite bool_decide_true in Hgp by done.
    replace (nd_delta pd + delta) with (gathered (<[i := with_weight n (target i)]> ns) p)
      by (rewrite Hgp, <-Hdp, Hdp0, Hdelta, Hw; cbn; lia).
    assert (- 2 ^ 63 < gathered (<[i := with_weight n (target i)]> ns) p < 2 ^ 63); [|lia].
    apply gathered_bounds. intros c. rewrite W. case_decide as E; [subst c; by left|].
    destruct (decide (c < S i)%nat) as [Hc|Hc]; [right; by apply (pg_todo _ _ _ P)|].
    rewrite (pg_done _ _ _ P) by lia. destruct (Nat.ltb_spec c (length (nodes pa))); [by left|right].
    unfold weight_at. by rewrite (proj2 (lookup_ge_None _ _)).
Qed.
Lemma rev_seq_S k : rev (seq 0 (S k)) = k :: rev (seq 0 k).
Proof. by rewrite seq_S, rev_app_distr. Qed.

Lemma score_nodes_progress k ns deltas ns' :
  (k <= length (nodes pa))%nat -> Progress k ns deltas -> score_nodes (rev (seq 0 k)) ns deltas = (ns', Ok tt) ->
  exists deltas', Progress 0 ns' deltas'.
Proof.
  revert ns deltas. induction k as [|k IH]; intros ns deltas Hk P; [intros [= <-]; by exists deltas|].
  rewrite rev_seq_S. cbn [score_nodes]. destruct (score_node k ns deltas) as [ns1 [d1|]] eqn:E; [|done].
  apply IH; [lia|]. by eapply score_node_progress.
Qed.

Lemma score_nodes_ok k ns deltas :
  pre_gloas (nodes pa) -> (k <= length (nodes pa))%nat -> Progress k ns deltas -> exists ns', score_nodes (rev (seq 0 k)) ns deltas = (ns', Ok tt).
Proof.
  intros G. revert ns deltas. induction k as [|k IH]; intros ns deltas Hk P; [by exists ns|].
  rewrite rev_seq_S. cbn [score_nodes]. destruct (score_node_ok k ns deltas G Hk P) as (ns1 & d1 & E). rewrite E.
  apply (IH _ d1); [lia|]. by eapply score_node_progress.
Qed.

(** The deltas of the votes are where the loop starts from. *)
Lemma progress_start deltas :
  length deltas = length (nodes pa) -> (forall i, delta_at deltas i = new_own pa nb equivocating vs i - old_own pa bs vs i) ->
  Progress (length (nodes pa)) (nodes pa) deltas.
Proof.
  intros L D. split; [done|done|..].
  - intros i Hi. rewrite (proj2 (Nat.ltb_ge _ _)) by done. unfold weight_at. by rewrite (proj2 (lookup_ge_None _ _)).
  - intros i Hi. split; [done|]. rewrite D. unfold gathered. rewrite sum_over_zero by (intros; lia). lia.
Qed.

(** After the pass the array is scored with the new balances and the latest votes. *)
Lemma progress_scored ns deltas vs' :
  Progress 0 ns deltas -> (forall bs' P, vote_weight bs' current P vs' = vote_weight bs' (latest_root equivocating) P vs) ->
  Scored (with_nodes pa ns) vs' nb.
Proof.
  intros P Hv. pose proof (pg_frame _ _ _ P) as F. pose proof (same_frame_shape _ _ F) as Sh.
  assert (forall i, weight_at ns i = if Nat.ltb i (length (nodes pa)) then target i else 0) as W by (intros; apply (pg_done _ _ _ P); lia).
  assert (forall i, sum_over (weight_at ns) (children_of ns i) = sum_over target (children_of (nodes pa) i)) as C.
  { intros i. rewrite (same_shape_children _ _ _ Sh). apply sum_over_ext. intros c Hc. apply (child_in_range pa T) in Hc.
    by rewrite W, (proj2 (Nat.ltb_lt _ _)) by lia. }
  assert (forall i, own_weight (with_nodes pa ns) nb current vs' i = own_weight pa nb (latest_root equivocating) vs i) as O by (intros; apply Hv).
  split; cbn [nodes indices with_nodes].
  - by apply block_tree_shape.
  - apply (sc_zero _ _ _ S0).
  - done.
  - done.
  - intros i. rewrite W. pose proof (target_bounds i). destruct (Nat.ltb _ _); lia.
  - intros i Hi Hval. rewrite (same_shape_length _ _ Sh) in Hi. rewrite (same_frame_invalid _ _ _ F) in Hval.
    rewrite W, C, O, (proj2 (Nat.ltb_lt _ _)) by done. unfold target. by rewrite tree_weight_rec.
  - intros i. rewrite C, O. pose proof (through_total pa T nb (latest_root equivocating) vs Hn i). change (sum_over target) with (sum_over (tree_weight pa nb (latest_root equivocating) vs)). lia.
Qed.
End loop.

(** * A scoring pass *)

Definition fc_scored (fc : ProtoArrayForkChoice) : Prop :=
  Scored (proto_array fc) (votes fc) (effective_balances (balances fc)).

Definition lmd_at (fc : ProtoArrayForkChoice) (nb : JustifiedBalances) (equivocating : gset Z) (i : nat) : Z :=
  lmd_weight (proto_array fc) (votes fc) (effective_balances nb) equivocating i.

(** A pass that succeeds leaves the reference weight on every node. *)
Lemma update_scores_sound fc nb equivocating fc' :
  fc_scored fc -> Forall (Z.le 0) (effective_balances nb) -> zsum (effective_balances nb) < 2 ^ 63 ->
  update_scores fc nb equivocating = (fc', Ok tt) ->
  fc_scored fc' /\ balances fc' = nb /\ same_frame (nodes (proto_array fc')) (nodes (proto_array fc))
  /\ indices (proto_array fc') = indices (proto_array fc)
  /\ map next_root (votes fc') = map next_root (votes fc)
  /\ forall i n, nodes (proto_array fc') !! i = Some n -> pn_weight n = lmd_at fc nb equivocating i.
Proof.
  destruct fc as [pa vs [bs tot act]]. unfold fc_scored. cbn [proto_array votes balances effective_balances]. intros S0 Hn Hnt.
  unfold update_scores. cbn [proto_array votes balances effective_balances].
  destruct (compute_deltas_spec pa (sc_tree _ _ _ S0) (sc_zero _ _ _ S0) bs (effective_balances nb) equivocating vs (sc_nonneg _ _ _ S0) Hn
    (sc_total _ _ _ S0) Hnt) as (vs' & deltas & -> & L & D & V & N).
  unfold apply_score_changes. destruct (negb _); [done|].
  destruct (score_nodes _ _ _) as [ns [[]|]] eqn:E; [|done]. intros [= <-]. cbn [proto_array votes balances nodes with_nodes indices].
  destruct (score_nodes_progress pa vs bs S0 _ equivocating _ _ _ _ (le_n _) (progress_start pa vs bs _ equivocating deltas L D) E)
    as [d' P]. split; [by eapply progress_scored|]. split; [done|]. split; [apply (pg_frame _ _ _ _ _ _ _ _ P)|]. split; [done|]. split; [done|].
  intros i n Hi. pose proof (pg_done _ _ _ _ _ _ _ _ P i ltac:(lia)) as W. unfold weight_at in W. rewrite Hi in W.
  pose proof (lookup_lt_Some _ _ _ Hi) as Hlt. rewrite (same_shape_length _ _ (same_frame_shape _ _ (pg_frame _ _ _ _ _ _ _ _ P))) in Hlt.
  by rewrite (proj2 (Nat.ltb_lt _ _)) in W.
Qed.

(** On a pre-Gloas tree the pass succeeds. *)
Lemma update_scores_ok fc nb equivocating :
  fc_scored fc -> pre_gloas (nodes (proto_array fc)) -> Forall (Z.le 0) (effective_balances nb) -> zsum (effective_balances nb) < 2 ^ 63 ->
  exists fc', update_scores fc nb equivocating = (fc', Ok tt).
Proof.
  destruct fc as [pa vs [bs tot act]]. unfold fc_scored. cbn [proto_array votes balances effective_balances]. intros S0 G Hn Hnt.
  unfold update_scores. cbn [proto_array votes balances effective_balances].
  destruct (compute_deltas_spec pa (sc_tree _ _ _ S0) (sc_zero _ _ _ S0) bs (effective_balances nb) equivocating vs (sc_nonneg _ _ _ S0) Hn
    (sc_total _ _ _ S0) Hnt) as (vs' & deltas & -> & L & D & V & N).
  unfold apply_score_changes. rewrite L, (indices_size pa (sc_tree _ _ _ S0)), Nat.eqb_refl. cbn [negb].
  destruct (score_nodes_ok pa vs bs S0 _ equivocating Hn Hnt _ _ _ G (le_n _) (progress_start pa vs bs _ equivocating deltas L D)) as [ns ->].
  by eexists.
Qed.
