(* ===== verification/ForkSteps.v ===== *)
(** * Every reachable fork choice is scored

    The operations of [ProtoArrayForkChoice] as a step relation.  Starting from
    [fork_choice_new], each step keeps the invariant [Scored]: attestations only change
    the votes that wait, new blocks come without weight, the verdicts of the execution
    client only mark nodes, pruning only drops the nodes before the finalized one. *)

From S2P Require Import FixedPoint.
From S2P Require Export ForkGhost.
Local Open Scope rust_scope.
Local Open Scope Z_scope.

(** * Marking nodes *)

(** [ns'] is [ns] with some nodes marked: same tree and weights, no invalid node restored. *)
Record marked (ns' ns : list ProtoNode) : Prop := {
  mk_shape : same_shape ns' ns;
  mk_weight : forall i, weight_at ns' i = weight_at ns i;
  mk_invalid : forall i, invalid_at ns' i = false -> invalid_at ns i = false;
  mk_gloas : forall i, is_gloas <$> ns' !! i = is_gloas <$> ns !! i
}.

Lemma marked_refl ns : marked ns ns.
Proof. by split. Qed.

Lemma marked_trans ns1 ns2 ns3 : marked ns1 ns2 -> marked ns2 ns3 -> marked ns1 ns3.
Proof.
  intros [A1 B1 C1 D1] [A2 B2 C2 D2]. split; [by eapply same_shape_trans| | |]; intros i; [by rewrite B1|auto|by rewrite D1].
Qed.

Lemma marked_insert ns i n n' :
  ns !! i = Some n -> shape n' = shape n -> pn_weight n' = pn_weight n -> (execution_invalid n' = false -> execution_invalid n = false) ->
  is_gloas n' = is_gloas n -> marked (<[i := n']> ns) ns.
Proof.
  intros Hi Hs Hw Hv Hg. pose proof (lookup_lt_Some _ _ _ Hi). split; [by eapply same_shape_insert| | |];
    intros j; unfold weight_at, invalid_at; (destruct (decide (j = i)) as [->|];
      [rewrite list_lookup_insert_eq, ?Hi by done|rewrite list_lookup_insert_ne by done]); cbn; rewrite ?Hg; auto.
Qed.

Lemma marked_scored pa vs bs ns : Scored pa vs bs -> marked ns (nodes pa) -> Scored (with_nodes pa ns) vs bs.
Proof.
  intros [T Hz Hb Ht Hr Hv Hl] [Sh W I _].
  assert (forall i, sum_over (weight_at ns) (children_of ns i) = sum_over (weight_at (nodes pa)) (children_of (nodes pa) i)) as C.
  { intros i. rewrite (same_shape_children _ _ _ Sh). by apply sum_over_ext. }
  split; cbn [nodes indices with_nodes]; [by apply block_tree_shape|done|done|done|..].
  - intros i. by rewrite W.
  - intros i Hi Hi'. rewrite W, C. rewrite (same_shape_length _ _ Sh) in Hi. by apply Hv, I.
  - intros i. rewrite C. apply Hl.
Qed.

Lemma marked_status ns i n s :
  ns !! i = Some n -> (execution_invalid n = true -> is_invalid s = true) -> marked (<[i := set_execution_status n s]> ns) ns.
Proof.
  intros Hi Hs. apply (marked_insert ns i n); try done; unfold set_execution_status, execution_invalid, execution_status, is_gloas in *;
    destruct (pn_variant n) eqn:E; cbn; rewrite ?E; try done.
  intros H. destruct (is_invalid (execution_status_v17 v)); [|done]. rewrite Hs in H; done.
Qed.

Lemma propagate_validation_marked fuel ns i : marked (fst (propagate_validation fuel ns i)) ns.
Proof.
  revert ns i. induction fuel as [|fuel IH]; intros ns i; cbn; [apply marked_refl|].
  destruct (ns !! i) as [n|] eqn:Hn; [|apply marked_refl]. destruct (execution_status n) as [[| |h|]|] eqn:E; try apply marked_refl.
  assert (marked (<[i := set_execution_status n (Valid h)]> ns) ns) as M.
  { apply marked_status; [done|]. unfold execution_invalid. by rewrite E. }
  destruct (pn_parent n); [|done]. eapply marked_trans; [apply IH|done].
Qed.

Lemma invalidate_ancestors_marked fuel op known ns out i : marked (fst (invalidate_ancestors fuel op known ns out i)) ns.
Proof.
  revert ns out i. induction fuel as [|fuel IH]; intros ns out i; cbn; [apply marked_refl|].
  destruct (ns !! i) as [n|] eqn:Hn; [|apply marked_refl].
  assert (forall h, marked (<[i := set_execution_status n (Invalid h)]> ns) ns) as M by (intros h; by apply marked_status).
  destruct (execution_status n) as [[]|]; cbn; repeat case_match; try apply marked_refl; try apply IH; try apply M.
  all: eapply marked_trans; [apply IH|apply M].
Qed.

Lemma invalidate_descendants_marked order ns out : marked (fst (invalidate_descendants ns out order)) ns.
Proof.
  revert ns out. induction order as [|i order IH]; intros ns out; cbn; [apply marked_refl|].
  destruct (ns !! i) as [n|] eqn:Hn; [|apply marked_refl].
  assert (forall h, marked (<[i := set_execution_status n (Invalid h)]> ns) ns) as M by (intros h; by apply marked_status).
  repeat case_match; cbn; try apply marked_refl; try apply IH.
  all: eapply marked_trans; [apply IH|apply M].
Qed.

Lemma validation_marked pa r : marked (nodes (fst (propagate_execution_payload_validation pa r))) (nodes pa).
Proof.
  unfold propagate_execution_payload_validation, propagate_execution_payload_validation_by_index.
  destruct (indices pa !! r) as [i|]; [|apply marked_refl].
  pose proof (propagate_validation_marked (S (length (nodes pa))) (nodes pa) i) as M. by destruct (propagate_validation _ _ _).
Qed.

Lemma invalidation_marked spec pa op c : marked (nodes (fst (propagate_execution_payload_invalidation spec pa op c))) (nodes pa).
Proof.
  unfold propagate_execution_payload_invalidation. destruct (indices pa !! op_block_root op) as [i|]; [|apply marked_refl].
  set (known := match op_latest_valid_ancestor op ≫= _ with Some _ => _ | None => _ end). clearbody known.
  pose proof (invalidate_ancestors_marked (S (length (nodes pa))) op known (nodes pa) ∅ i) as H1.
  destruct (invalidate_ancestors _ _ _ _ _ _) as [ns [out|e]]; cbn in H1; [|done].
  destruct (indices pa !! _) as [k|]; [|done].
  pose proof (invalidate_descendants_marked (seq (S k) (length ns - S k)) ns out) as H2.
  destruct (invalidate_descendants _ _ _) as [ns' r]. by eapply marked_trans.
Qed.

(** Only the nodes change. *)
Lemma validation_rest pa r : with_nodes pa (nodes (fst (propagate_execution_payload_validation pa r))) = fst (propagate_execution_payload_validation pa r).
Proof.
  unfold propagate_execution_payload_validation, propagate_execution_payload_validation_by_index.
  destruct (indices pa !! r); [|by destruct pa]. by destruct (propagate_validation _ _ _).
Qed.

Lemma invalidation_rest spec pa op c :
  with_nodes pa (nodes (fst (propagate_execution_payload_invalidation spec pa op c))) = fst (propagate_execution_payload_invalidation spec pa op c).
Proof.
  unfold propagate_execution_payload_invalidation. destruct (indices pa !! op_block_root op); [|by destruct pa].
  destruct (invalidate_ancestors _ _ _ _ _ _) as [ns [out|e]]; [|done].
  destruct (indices pa !! _); [|done]. by destruct (invalidate_descendants _ _ _).
Qed.

(** * Votes *)

Lemma numbered_app k vs1 vs2 : numbered k (vs1 ++ vs2) = numbered k vs1 ++ numbered (k + length vs1) vs2.
Proof.
  revert k. induction vs1 as [|v vs1 IH]; intros k; cbn; [by rewrite Nat.add_0_r|]. by rewrite IH, Nat.add_succ_r.
Qed.

Lemma vote_weight_roots bs P vs vs' k :
  map current_root vs = map current_root vs' ->
  sum_over (fun '(j, v) => balance bs j * Z.b2z (P (current j v))) (numbered k vs)
  = sum_over (fun '(j, v) => balance bs j * Z.b2z (P (current j v))) (numbered k vs').
Proof.
  revert k vs'. induction vs as [|v vs IH]; intros k [|v' vs'] H; try done. injection H as H1 H2. cbn [numbered].
  rewrite !sum_over_cons, (IH _ _ H2). unfold current. by rewrite H1.
Qed.

Lemma vote_weight_ensure bs P vs i : P zero_root = false -> vote_weight bs current P (ensure vs i) = vote_weight bs current P vs.
Proof.
  intros Hz. unfold ensure, vote_weight. destruct (Nat.leb _ _); [|done]. rewrite numbered_app, sum_over_app.
  rewrite (sum_over_zero _ (numbered _ (repeat _ _))); [lia|]. intros [j v] Hin. assert (v = default_vote) as ->.
  { revert Hin. generalize (0 + length vs)%nat (S i - length vs)%nat. intros a b. revert a.
    induction b as [|b IH]; intros a Hin; [by apply elem_of_nil in Hin|]. cbn in Hin. apply elem_of_cons in Hin as [[= _ ->]|Hin]; [done|].
    by eapply IH. }
  change (current j default_vote) with zero_root. rewrite Hz. apply Z.mul_0_r.
Qed.

Lemma current_root_alter vs i root slot present : map current_root (alter (fun v => later_vote v root slot present) i vs) = map current_root vs.
Proof.
  revert i. induction vs as [|v vs IH]; intros [|i]; cbn; [done..| |by f_equal].
  f_equal. unfold later_vote. by destruct (_ || _).
Qed.

Lemma scored_votes pa bs vs vs' :
  Scored pa vs bs -> (forall i, own_weight pa bs current vs' i = own_weight pa bs current vs i) -> Scored pa vs' bs.
Proof. intros [T Hz Hb Ht Hr Hv Hl] H. split; try done; intros i; intros; rewrite H; auto. Qed.

Lemma process_attestation_scored fc i root slot present : fc_scored fc -> fc_scored (process_attestation fc i root slot present).
Proof.
  intros S0. unfold fc_scored, process_attestation in *. cbn [proto_array votes balances]. eapply scored_votes; [done|]. intros j.
  unfold own_weight. transitivity (vote_weight (effective_balances (balances fc)) current (voted (proto_array fc) j) (ensure (votes fc) i)).
  - apply vote_weight_roots, current_root_alter.
  - apply vote_weight_ensure. unfold voted. by rewrite (sc_zero _ _ _ S0), bool_decide_false.
Qed.

(** * Blocks *)

Lemma weight_at_app ns n i : pn_weight n = 0 -> weight_at (ns ++ [n]) i = weight_at ns i.
Proof.
  intros Hn. unfold weight_at. destruct (decide (i < length ns)%nat) as [Hi|Hi]; [by rewrite lookup_app_l|].
  rewrite (proj2 (lookup_ge_None ns i)) by lia. destruct (decide (i = length ns)) as [->|]; [by rewrite list_lookup_middle|].
  rewrite (proj2 (lookup_ge_None _ i)); [done|]. rewrite length_app. cbn. lia.
Qed.

(** No vote is counted for a root: no scored balance will be missing from its node. *)
Definition uncounted (vs : list VoteTracker) (root : bytes) : Prop := Forall (fun v => current_root v <> root) vs.

Lemma sum_numbered_ext (f g : nat * VoteTracker -> Z) vs k :
  (forall j v, v ∈ vs -> f (j, v) = g (j, v)) -> sum_over f (numbered k vs) = sum_over g (numbered k vs).
Proof.
  revert k. induction vs as [|v vs IH]; intros k H; [done|]. cbn [numbered]. rewrite !sum_over_cons, IH, H by set_solver. done.
Qed.

Lemma own_weight_pushed pa n cs bs vs i :
  indices pa !! pn_root n = None -> uncounted vs (pn_root n) ->
  own_weight (pushed_array pa n cs) bs current vs i = own_weight pa bs current vs i.
Proof.
  intros Hnew Hu. apply sum_numbered_ext. intros j v Hv. f_equal. f_equal. unfold voted, current. cbn [indices pushed_array].
  apply (proj1 (Forall_forall _ _) Hu) in Hv. by rewrite lookup_insert_ne by done.
Qed.

Lemma own_weight_unknown pa bs vs i : BlockTree pa -> (length (nodes pa) <= i)%nat -> own_weight pa bs current vs i = 0.
Proof.
  intros T Hi. apply sum_over_zero. intros [j v] _. unfold voted. rewrite bool_decide_false; [cbn; lia|].
  intros H%(index_in_range pa T). lia.
Qed.

Lemma pushed_scored pa vs bs n cs :
  Scored pa vs bs -> indices pa !! pn_root n = None -> pn_root n <> zero_root -> uncounted vs (pn_root n) ->
  pn_weight n = 0 -> (forall p, pn_parent n = Some p -> (p < length (nodes pa))%nat) ->
  cs = children_of (nodes pa ++ [n]) <$> seq 0 (length (nodes pa ++ [n])) -> Scored (pushed_array pa n cs) vs bs.
Proof.
  intros S0 Hnew Hnz Hu Hw Hp Hcs. pose proof (sc_tree _ _ _ S0) as T.
  assert (forall i, sum_over (weight_at (nodes pa ++ [n])) (children_of (nodes pa ++ [n]) i)
    = sum_over (weight_at (nodes pa)) (children_of (nodes pa) i)) as C.
  { intros i. rewrite children_of_app, sum_over_app. rewrite (sum_over_ext _ (weight_at (nodes pa))) by (intros; by apply weight_at_app).
    case_decide; [|unfold sum_over; cbn; lia]. unfold sum_over at 2. cbn. unfold weight_at at 2. rewrite list_lookup_middle by done. lia. }
  split; cbn [nodes indices pushed_array].
  - by apply pushed_tree.
  - rewrite lookup_insert_ne by done. apply (sc_zero _ _ _ S0).
  - apply (sc_nonneg _ _ _ S0).
  - apply (sc_total _ _ _ S0).
  - intros i. rewrite weight_at_app by done. apply (sc_range _ _ _ S0).
  - intros i Hi Hv. rewrite C, own_weight_pushed, weight_at_app by done. rewrite length_app in Hi. cbn in Hi.
    destruct (decide (i = length (nodes pa))) as [->|Hne].
    + rewrite own_weight_unknown, children_of_last by (done || apply (bt_parents pa T)).
      unfold weight_at. by rewrite (proj2 (lookup_ge_None _ _)) by lia.
    + apply (sc_valid _ _ _ S0); [lia|]. unfold invalid_at in *. by rewrite lookup_app_l in Hv by lia.
  - intros i. rewrite C, own_weight_pushed by done. apply (sc_below _ _ _ S0).
Qed.

Lemma insert_node_scored pa vs bs n s :
  Scored pa vs bs -> indices pa !! pn_root n = None -> pn_root n <> zero_root -> uncounted vs (pn_root n) ->
  pn_weight n = 0 -> (forall p, pn_parent n = Some p -> (p < length (nodes pa))%nat) -> Scored (fst (insert_node pa n s)) vs bs.
Proof.
  intros S0 Hnew Hnz Hu Hw Hn. pose proof (sc_tree _ _ _ S0) as T. pose proof (children_of_pushed pa n T Hn) as E.
  pose proof (pushed_scored pa vs bs n _ S0 Hnew Hnz Hu Hw Hn eq_refl) as S1. rewrite E in S1. unfold insert_node.
  destruct (pn_parent n) as [p|] eqn:Hp; [|done]. specialize (Hn p eq_refl).
  unfold push_child. rewrite lookup_app_l by (rewrite (children_length pa T); lia). rewrite (children_lookup pa T) by lia.
  destruct (is_valid_status s); [|done]. unfold propagate_execution_payload_validation_by_index.
  match goal with |- context [propagate_validation ?f ?ns ?i] => pose proof (propagate_validation_marked f ns i) as M end.
  destruct (propagate_validation _ _ _) as [ns r]. by eapply marked_scored in S1.
Qed.

Lemma on_block_scored spec pa vs bs b slot time :
  Scored pa vs bs -> b_root b <> zero_root -> uncounted vs (b_root b) -> Scored (fst (on_block spec pa b slot time)) vs bs.
Proof.
  intros S0 Hnz Hu. pose proof (sc_tree _ _ _ S0) as T. unfold on_block. case_bool_decide as Hnew; [done|].
  destruct (b_proposer_index b); [|done]. destruct (new_node _ _ _ _ _ _ _) as [n|] eqn:E; [|done].
  apply new_node_shape in E as [[= Hr Hp] Hw]. destruct (check_parent _ _ _); [|done]. rewrite <-eq_None_not_Some in Hnew.
  apply insert_node_scored; rewrite ?Hr; try done.
  intros p. rewrite Hp. destruct (b_parent_root b) as [r|]; [|done]. apply (index_in_range pa T).
Qed.

(** * Pruning *)

Lemma shift_parent_rest k n :
  pn_weight (shift_parent k n) = pn_weight n /\ execution_invalid (shift_parent k n) = execution_invalid n /\ is_gloas (shift_parent k n) = is_gloas n.
Proof. unfold shift_parent. by destruct (pn_parent n). Qed.

Lemma weight_at_below k ns i : weight_at (below k ns) i = weight_at ns (k + i).
Proof. unfold weight_at. rewrite below_lookup. destruct (ns !! (k + i)%nat) as [n|]; [|done]. apply (shift_parent_rest k n). Qed.

Lemma invalid_at_below k ns i : invalid_at (below k ns) i = invalid_at ns (k + i).
Proof. unfold invalid_at. rewrite below_lookup. destruct (ns !! (k + i)%nat) as [n|]; [|done]. apply (shift_parent_rest k n). Qed.

Lemma sum_below k pa i :
  BlockTree pa -> sum_over (weight_at (below k (nodes pa))) (children_of (below k (nodes pa)) i)
  = sum_over (weight_at (nodes pa)) (children_of (nodes pa) (k + i)).
Proof.
  intros T. rewrite below_children by done. unfold sum_over. rewrite map_map. f_equal. apply map_ext_in. intros c Hc.
  apply list_elem_of_In, (child_in_range pa T) in Hc. rewrite weight_at_below. f_equal. lia.
Qed.

Lemma maybe_prune_scored pa vs bs root k :
  Scored pa vs bs -> indices pa !! root = Some k ->
  exists pa', maybe_prune pa root = Ret (pa', Ok tt) /\ Scored pa' vs bs
    /\ (nodes pa' = nodes pa \/ nodes pa' = below k (nodes pa)).
Proof.
  intros S0 Hk. pose proof (sc_tree _ _ _ S0) as T. destruct (maybe_prune_tree pa root k T Hk) as (pa' & E & T' & Hlo & Hhi).
  exists pa'. split; [done|]. destruct (decide (k < prune_threshold pa)%nat) as [Ht|Ht]; [rewrite (Hlo Ht); by split; [|left]|].
  destruct (Hhi ltac:(lia)) as [Hns Hix]. split; [|by right].
  assert (forall i, own_weight pa' bs current vs i = own_weight pa bs current vs (k + i)) as O.
  { intros i. apply sum_over_ext. intros [j v] _. f_equal. f_equal. apply bool_decide_ext, Hix. }
  split; rewrite ?Hns.
  - done.
  - destruct (indices pa' !! zero_root) as [i|] eqn:Hz; [|done]. apply Hix in Hz. rewrite (sc_zero _ _ _ S0) in Hz. done.
  - apply (sc_nonneg _ _ _ S0).
  - apply (sc_total _ _ _ S0).
  - intros i. rewrite weight_at_below. apply (sc_range _ _ _ S0).
  - intros i Hi Hv. rewrite below_length in Hi. rewrite invalid_at_below in Hv. rewrite O, sum_below, weight_at_below by done.
    apply (sc_valid _ _ _ S0); [lia|done].
  - intros i. rewrite O, sum_below by done. apply (sc_below _ _ _ S0).
Qed.

(** * The step relation *)

Lemma envelope_marked pa r : marked (nodes (fst (on_valid_payload_envelope_received pa r))) (nodes pa)
  /\ with_nodes pa (nodes (fst (on_valid_payload_envelope_received pa r))) = fst (on_valid_payload_envelope_received pa r).
Proof.
  unfold on_valid_payload_envelope_received. destruct pa as [t ns ix cs]. cbn. destruct (ix !! r) as [i|]; [|split; [apply marked_refl|done]].
  destruct (ns !! i) as [n|] eqn:Hn; [|split; [apply marked_refl|done]].
  unfold as_v29. destruct (pn_variant n) as [v|v] eqn:E; [split; [apply marked_refl|done]|]. split; [|done].
  apply (marked_insert ns i n); unfold execution_invalid, execution_status, is_gloas; cbn; rewrite ?E; done.
Qed.

Lemma payload_attestation_marked fc r i present available fc' res :
  process_payload_attestation fc r i present available = (fc', res) ->
  marked (nodes (proto_array fc')) (nodes (proto_array fc)) /\ fc' = mkForkChoice (with_nodes (proto_array fc) (nodes (proto_array fc'))) (votes fc) (balances fc).
Proof.
  destruct fc as [[t ns ix cs] vs b]. unfold process_payload_attestation. cbn. intros E.
  assert (forall r', (mkForkChoice (mkProtoArray t ns ix cs) vs b, r') = (fc', res) -> marked (nodes (proto_array fc')) ns
    /\ fc' = mkForkChoice (mkProtoArray t (nodes (proto_array fc')) ix cs) vs b) as Hsame.
  { intros r' [= <- <-]. split; [apply marked_refl|done]. }
  destruct (ix !! r) as [j|]; [|by eapply Hsame]. destruct (ns !! j) as [n|] eqn:Hn; [|by eapply Hsame].
  unfold as_v29 in E. destruct (pn_variant n) as [v|v] eqn:Ev; [by eapply Hsame|].
  destruct (set_ptc_votes v i present available) as [v'|]; [|by eapply Hsame]. injection E as <- <-. split; [|done].
  apply (marked_insert ns j n); unfold execution_invalid, execution_status, is_gloas; cbn; rewrite ?Ev; done.
Qed.

(** What the client does with its fork choice.  A block that arrives has a root of its
    own, and no vote has been counted for it: attestations are passed on only once the
    block they vote for is known. *)
Inductive fc_step (spec : ForkSpec) : ProtoArrayForkChoice -> ProtoArrayForkChoice -> Prop :=
  | step_attestation fc i root slot present : fc_step spec fc (process_attestation fc i root slot present)
  | step_block fc b slot time :
      b_root b <> zero_root -> uncounted (votes fc) (b_root b) -> fc_step spec fc (fst (process_block spec fc b slot time))
  | step_valid fc root : fc_step spec fc (fst (process_execution_payload_validation fc root))
  | step_invalid fc op finalized : fc_step spec fc (fst (process_execution_payload_invalidation spec fc op finalized))
  | step_envelope fc root : fc_step spec fc (fst (process_valid_payload_envelope fc root))
  | step_payload_attestation fc root i present available :
      fc_step spec fc (fst (process_payload_attestation fc root i present available))
  | step_prune fc root fc' r : fork_choice_maybe_prune fc root = Ret (fc', r) -> fc_step spec fc fc'
  | step_threshold fc t : fc_step spec fc (set_prune_threshold fc t)
  | step_find_head fc justified finalized nb boost equivocating slot fc' head :
      Forall (Z.le 0) (effective_balances nb) -> zsum (effective_balances nb) < 2 ^ 63 ->
      fork_choice_find_head spec fc justified finalized nb boost equivocating slot = (fc', head) -> fc_step spec fc fc'.

Inductive fc_reachable (spec : ForkSpec) : ProtoArrayForkChoice -> Prop :=
  | reach_new slot fslot sroot justified finalized cs ns status ph bh proposer fc :
      cp_root finalized <> zero_root ->
      fork_choice_new spec slot fslot sroot justified finalized cs ns status ph bh proposer = Ok fc -> fc_reachable spec fc
  | reach_step fc fc' : fc_reachable spec fc -> fc_step spec fc fc' -> fc_reachable spec fc'.

(** * Reachability *)

Lemma marked_pre_gloas ns' ns : marked ns' ns -> pre_gloas ns -> pre_gloas ns'.
Proof.
  intros M G. apply Forall_lookup. intros i n Hn. pose proof (mk_gloas _ _ M i) as E. rewrite Hn in E.
  destruct (ns !! i) as [m|] eqn:Hm; [|done]. apply (proj1 (Forall_lookup _ _) G) in Hm. cbn in E. congruence.
Qed.

Lemma below_pre_gloas k ns : pre_gloas ns -> pre_gloas (below k ns).
Proof.
  intros G. apply Forall_map, Forall_drop. eapply Forall_impl; [done|]. intros n Hn. cbn. destruct (shift_parent_rest k n) as (_ & _ & E). congruence.
Qed.

Lemma new_node_pre_gloas spec pa b proposer slot time parent n :
  gloas_fork_epoch spec = None -> new_node spec pa b proposer slot time parent = Ok n -> is_gloas n = false.
Proof. intros Hg. unfold new_node, gloas_enabled. rewrite Hg. cbn. by intros [= <-]. Qed.

Lemma insert_node_pre_gloas pa n s : is_gloas n = false -> pre_gloas (nodes pa) -> pre_gloas (nodes (fst (insert_node pa n s))).
Proof.
  intros Hn G. assert (pre_gloas (nodes pa ++ [n])) as G' by (apply Forall_app; split; [done|by constructor]).
  unfold insert_node. destruct (pn_parent n) as [p|]; [|done]. destruct (push_child _ _ _); [|done]. destruct (is_valid_status s); [|done].
  unfold propagate_execution_payload_validation_by_index. cbn [nodes].
  match goal with |- context [propagate_validation ?f ?ns ?i] => pose proof (propagate_validation_marked f ns i) as M end.
  destruct (propagate_validation _ _ _) as [ns r]. by eapply marked_pre_gloas.
Qed.

Lemma on_block_pre_gloas spec pa b slot time :
  gloas_fork_epoch spec = None -> pre_gloas (nodes pa) -> pre_gloas (nodes (fst (on_block spec pa b slot time))).
Proof.
  intros Hg G. unfold on_block. case_bool_decide; [done|]. destruct (b_proposer_index b); [|done].
  destruct (new_node _ _ _ _ _ _ _) as [n|] eqn:E; [|done]. destruct (check_parent _ _ _); [|done].
  apply insert_node_pre_gloas; [by eapply new_node_pre_gloas|done].
Qed.

Definition fc_good (fc : ProtoArrayForkChoice) : Prop := fc_scored fc /\ pre_gloas (nodes (proto_array fc)).

Lemma empty_scored t : Scored (mkProtoArray t [] ∅ []) [] [].
Proof. by split. Qed.

Lemma new_good spec slot fslot sroot justified finalized cs ns status ph bh proposer fc :
  gloas_fork_epoch spec = None -> cp_root finalized <> zero_root ->
  fork_choice_new spec slot fslot sroot justified finalized cs ns status ph bh proposer = Ok fc -> fc_good fc.
Proof.
  intros Hg Hz. unfold fork_choice_new. set (b := mkBlock _ _ _ _ _ _ _ _ _ _ _ _ _ _ _ _).
  pose proof (on_block_scored spec _ [] [] b slot 0 (empty_scored DEFAULT_PRUNE_THRESHOLD) Hz (List.Forall_nil _)) as S0.
  pose proof (on_block_pre_gloas spec (mkProtoArray DEFAULT_PRUNE_THRESHOLD [] ∅ []) b slot 0 Hg (List.Forall_nil _)) as G.
  destruct (on_block _ _ _ _ _) as [pa [u|]]; [|done]. intros [= <-]. by split.
Qed.

Lemma marked_good fc pa :
  fc_good fc -> marked (nodes pa) (nodes (proto_array fc)) -> with_nodes (proto_array fc) (nodes pa) = pa ->
  fc_good (mkForkChoice pa (votes fc) (balances fc)).
Proof. intros [S0 G] M E. split; [|by eapply marked_pre_gloas]. unfold fc_scored. cbn. rewrite <-E. by apply marked_scored. Qed.

Lemma prune_good fc root fc' r : fc_good fc -> fork_choice_maybe_prune fc root = Ret (fc', r) -> fc_good fc'.
Proof.
  intros [S0 G]. unfold fork_choice_maybe_prune. destruct (indices (proto_array fc) !! root) as [k|] eqn:Hk.
  - destruct (maybe_prune_scored _ _ _ _ _ S0 Hk) as (pa' & -> & S1 & Hns). cbn. intros [= <- <-]. split; [done|]. cbn.
    destruct Hns as [->| ->]; [done|by apply below_pre_gloas].
  - unfold maybe_prune. rewrite Hk. cbn. intros [= <- <-]. by split.
Qed.

Lemma threshold_tree pa t : BlockTree pa -> BlockTree (mkProtoArray t (nodes pa) (indices pa) (children pa)).
Proof. by intros []. Qed.

Lemma threshold_good fc t : fc_good fc -> fc_good (set_prune_threshold fc t).
Proof.
  intros [[T Hz Hb Ht Hr Hv Hl] G]. split; [|done]. split; try done. by apply threshold_tree.
Qed.

Lemma find_head_good spec fc justified finalized nb boost equivocating slot fc' head :
  fc_good fc -> Forall (Z.le 0) (effective_balances nb) -> zsum (effective_balances nb) < 2 ^ 63 ->
  fork_choice_find_head spec fc justified finalized nb boost equivocating slot = (fc', head) -> fc_good fc'.
Proof.
  intros [S0 G] Hn Ht. unfold fork_choice_find_head. destruct (update_scores_ok fc nb equivocating S0 G Hn Ht) as [fc1 E]. rewrite E.
  intros [= <- _]. destruct (update_scores_sound _ _ _ _ S0 Hn Ht E) as (S1 & _ & F & _). split; [done|]. by eapply same_frame_pre_gloas.
Qed.

Lemma step_good spec fc fc' : gloas_fork_epoch spec = None -> fc_good fc -> fc_step spec fc fc' -> fc_good fc'.
Proof.
  intros Hg G St. destruct St.
  - destruct G as [S0 G]. split; [by apply process_attestation_scored|done].
  - unfold process_block. destruct (b_parent_root b); [|done]. destruct G as [S0 G]. unfold fc_good, fc_scored, with_proto_array.
    cbn [fst proto_array votes balances]. split; [by apply on_block_scored|by apply on_block_pre_gloas].
  - apply marked_good; [done|apply validation_marked|apply validation_rest].
  - apply marked_good; [done|apply invalidation_marked|apply invalidation_rest].
  - apply marked_good; [done|apply envelope_marked|apply envelope_marked].
  - destruct (process_payload_attestation fc root i present available) as [fc1 res] eqn:E.
    apply payload_attestation_marked in E as [M E]. cbn [fst]. rewrite E. by apply (marked_good fc (with_nodes (proto_array fc) (nodes (proto_array fc1)))).
  - by eapply prune_good.
  - by apply threshold_good.
  - by eapply find_head_good.
Qed.

Lemma reachable_good spec fc : gloas_fork_epoch spec = None -> fc_reachable spec fc -> fc_good fc.
Proof. intros Hg. induction 1; [by eapply new_good|by eapply step_good]. Qed.

(** C25: In every reachable fork choice, a scoring pass succeeds and every block's weight
    becomes the balance of the non-equivocating validators whose latest vote supports
    it: is for it or for a descendant that it reaches through blocks without an invalid
    payload. *)
Theorem weights_are_lmd_ghost spec fc nb equivocating :
  gloas_fork_epoch spec = None -> fc_reachable spec fc ->
  Forall (Z.le 0) (effective_balances nb) -> zsum (effective_balances nb) < 2 ^ 63 ->
  exists fc', update_scores fc nb equivocating = (fc', Ok tt)
    /\ indices (proto_array fc') = indices (proto_array fc) /\ length (nodes (proto_array fc')) = length (nodes (proto_array fc))
    /\ forall i n, nodes (proto_array fc') !! i = Some n -> pn_weight n = lmd_at fc nb equivocating i.
Proof.
  intros Hg R Hn Ht. destruct (reachable_good _ _ Hg R) as [S0 G].
  destruct (update_scores_ok fc nb equivocating S0 G Hn Ht) as [fc1 E]. exists fc1. split; [done|].
  destruct (update_scores_sound _ _ _ _ S0 Hn Ht E) as (_ & _ & F & I & _ & W).
  split; [done|]. split; [apply same_shape_length, same_frame_shape, F|done].
Qed.
