(* ===== verification/ForkHead.v ===== *)
(** * The head of the tree

    The single reverse pass of [filter_block_tree] computes the recursively defined
    viable branches, the walk to the head always ends, and on a pre-Gloas tree without
    a proposer boost it is the greedy descent of LMD-GHOST: from the justified block
    down, at each step the viable child of greatest weight, ties broken by root. *)

From S2P Require Import FixedPoint.
From S2P Require Export ForkSteps.
Local Open Scope rust_scope.
Local Open Scope Z_scope.

Section viability.
Context (spec : ForkSpec) (pa : ProtoArray) (T : BlockTree pa) (slot : Z) (bj bf : Checkpoint) (start : nat).

(** A node below [start] that is invalid, or whose parent is cut off. *)
Inductive cut : nat -> Prop :=
  | cut_here i : (start < i)%nat -> invalid_at (nodes pa) i = true -> cut i
  | cut_above i p : (start < i)%nat -> parent_of (nodes pa) i = Some p -> cut p -> cut i.

(** A node with a path of nodes that are not cut off down to a viable leaf. *)
Inductive viable_branch : nat -> Prop :=
  | viable_leaf i n :
      ~ cut i -> (start <= i)%nat -> nodes pa !! i = Some n -> (forall c, c ∈ children_of (nodes pa) i -> cut c) ->
      node_is_viable_for_head spec pa n slot bj bf = true -> viable_branch i
  | viable_above i c : ~ cut i -> (start <= i)%nat -> c ∈ children_of (nodes pa) i -> viable_branch c -> viable_branch i.

(** [excluded] is right for the positions below [k] and unset for the others. *)
Definition excluded_upto (k : nat) (excluded : list bool) : Prop :=
  length excluded = length (nodes pa) /\ forall i, (i < length (nodes pa))%nat ->
    exists b, excluded !! i = Some b /\ (b = true <-> (i < k)%nat /\ cut i).

Lemma cut_after i : cut i -> (start < i)%nat.
Proof. by destruct 1. Qed.

Lemma cut_iff i n :
  (start < i)%nat -> nodes pa !! i = Some n ->
  cut i <-> execution_invalid n = true \/ exists p, pn_parent n = Some p /\ cut p.
Proof.
  intros Hi Hn. split.
  - destruct 1 as [i _ Hv|i p _ Hp Hc]; [left; unfold invalid_at in Hv; by rewrite Hn in Hv|right].
    exists p. unfold parent_of in Hp. rewrite Hn in Hp. done.
  - intros [Hv|(p & Hp & Hc)]; [apply cut_here; [done|]; unfold invalid_at; by rewrite Hn|].
    apply (cut_above i p); [done| |done]. unfold parent_of. by rewrite Hn.
Qed.

Lemma mark_excluded_ok m k excluded :
  (start < k)%nat -> (k + m = length (nodes pa))%nat -> excluded_upto k excluded ->
  exists excluded', mark_excluded (nodes pa) (seq k m) excluded = Ok excluded' /\ excluded_upto (length (nodes pa)) excluded'.
Proof.
  revert k excluded. induction m as [|m IH]; intros k excluded Hs Hk [L H].
  { exists excluded. split; [done|]. replace (length (nodes pa)) with k by lia. done. }
  cbn [seq mark_excluded]. destruct (lookup_lt_is_Some_2 (nodes pa) k) as [n Hn]; [lia|]. rewrite Hn. cbn [ok_or].
  assert (exists above, match pn_parent n with Some p => ok_or (excluded !! p) (InvalidNodeIndex p) | None => Ok false end = Ok above
    /\ (above = true <-> exists p, pn_parent n = Some p /\ cut p)) as (above & -> & Ha).
  { destruct (pn_parent n) as [p|] eqn:Hp; [|exists false; split; [done|]; split; [done|by intros (p & ? & _)]].
    assert (parent_of (nodes pa) k = Some p) as Hpk by (unfold parent_of; by rewrite Hn).
    apply (parent_in_range pa T) in Hpk. destruct (H p) as (b & -> & Hb); [lia|]. exists b. split; [done|]. rewrite Hb.
    split; [intros [_ ?]; by exists p|]. intros (q & [= <-] & ?). split; [lia|done]. }
  apply IH; [lia|lia|]. split; [by rewrite length_insert|]. intros i Hi. destruct (decide (i = k)) as [->|Hne].
  - rewrite list_lookup_insert_eq by lia. eexists. split; [done|]. rewrite orb_true_iff, Ha, (cut_iff k n Hs Hn).
    split; [intros H1; split; [lia|tauto]|tauto].
  - rewrite list_lookup_insert_ne by done. destruct (H i Hi) as (b & -> & Hb). exists b. split; [done|]. rewrite Hb.
    split; intros [? ?]; (split; [lia|done]).
Qed.

Lemma valid_children_ok excluded cs :
  excluded_upto (length (nodes pa)) excluded -> (forall c, c ∈ cs -> (c < length (nodes pa))%nat) ->
  exists l, valid_children excluded cs = Ok l /\ forall c, c ∈ l <-> c ∈ cs /\ ~ cut c.
Proof.
  intros [L H]. induction cs as [|c cs IH]; intros Hc; [exists []; set_solver|]. cbn.
  destruct (H c) as (b & -> & Hb); [apply Hc; set_solver|]. cbn. destruct IH as (l & -> & Hl); [set_solver|].
  eexists. split; [done|]. intros d. pose proof (Hc c ltac:(set_solver)). destruct b; rewrite ?elem_of_cons, Hl.
  - assert (cut c) by (by destruct (proj1 Hb eq_refl)). split; [tauto|]. intros [[->|?] ?]; tauto.
  - assert (~ cut c) by (intros ?; assert (false = true) by (apply Hb; by split); done). split; [intros [->|?]; tauto|tauto].
Qed.

Lemma viable_inv i n :
  nodes pa !! i = Some n -> viable_branch i ->
  ~ cut i /\ ((forall c, c ∈ children_of (nodes pa) i -> cut c) /\ node_is_viable_for_head spec pa n slot bj bf = true
              \/ exists c, c ∈ children_of (nodes pa) i /\ viable_branch c).
Proof.
  intros Hn. destruct 1 as [i m Hc _ Hm Hch Hv|i c Hc _ Hch Hv]; (split; [done|]); [left|right; by exists c].
  split; [done|]. rewrite Hn in Hm. by injection Hm as ->.
Qed.

Lemma viable_not_cut i : viable_branch i -> ~ cut i.
Proof. by destruct 1. Qed.

(** The positions from [k] on are settled. *)
Definition settled (k : nat) (viable : gset nat) : Prop := forall i, i ∈ viable <-> (k <= i < length (nodes pa))%nat /\ viable_branch i.

Lemma settled_skip i viable : (start <= i)%nat -> ~ viable_branch i -> settled (S i) viable -> settled i viable.
Proof.
  unfold settled. intros Hi Hn H j. rewrite H. split; [intros [? ?]; split; [lia|done]|]. intros [[Hj ?] ?]. destruct (decide (j = i)) as [->|]; [done|].
  split; [lia|done].
Qed.

Lemma settled_add i viable : (i < length (nodes pa))%nat -> viable_branch i -> settled (S i) viable -> settled i ({[ i ]} ∪ viable).
Proof.
  unfold settled. intros Hi Hv H j. rewrite elem_of_union, elem_of_singleton, H. split.
  - intros [->|[? ?]]; (split; [lia|done]).
  - intros [[? ?] ?]. destruct (decide (j = i)); [by left|right; split; [lia|done]].
Qed.

Lemma mark_node_ok i excluded viable :
  excluded_upto (length (nodes pa)) excluded -> (start <= i < length (nodes pa))%nat -> settled (S i) viable ->
  exists viable', mark_node spec pa slot bj bf excluded i viable = Ok viable' /\ settled i viable'.
Proof.
  intros [L H] [Hs Hi] Hv. destruct (H i Hi) as (b & Hb & Hcut). destruct (lookup_lt_is_Some_2 (nodes pa) i Hi) as [n Hn].
  unfold mark_node. rewrite Hb, Hn, (children_lookup pa T) by done. cbn [ok_or]. destruct b.
  { exists viable. split; [done|]. apply settled_skip; [done| |done]. intros V%viable_not_cut. by destruct (proj1 Hcut eq_refl). }
  assert (~ cut i) as Hnc by (intros ?; assert (false = true) by (apply Hcut; by split); done).
  destruct (valid_children_ok excluded (children_of (nodes pa) i)) as (l & -> & Hl); [done| |].
  { intros c Hc. apply (child_in_range pa T) in Hc. lia. }
  assert (existsb (fun c => bool_decide (c ∈ viable)) l = true <-> exists c, c ∈ children_of (nodes pa) i /\ viable_branch c) as Hex.
  { rewrite existsb_exists. split.
    - intros (c & Hc & V%bool_decide_eq_true%Hv). apply list_elem_of_In, Hl in Hc as [Hc _]. exists c. by destruct V.
    - intros (c & Hc & V). exists c. split; [apply list_elem_of_In, Hl; split; [done|by apply viable_not_cut]|].
      apply bool_decide_eq_true, Hv. apply (child_in_range pa T) in Hc. split; [lia|done]. }
  destruct l as [|c0 l0].
  - assert (forall c, c ∈ children_of (nodes pa) i -> ~~ cut c) as Hall.
    { intros c Hc Hx. assert (c ∈ @nil nat) as E by (apply Hl; by split). by apply elem_of_nil in E. }
    assert (forall c, c ∈ children_of (nodes pa) i -> cut c) as Hall'.
    { intros c Hc. pose proof (child_in_range pa T _ _ Hc) as [Hc1 Hc2]. destruct (H c Hc2) as (b & _ & Hbc). destruct b; [by destruct (proj1 Hbc eq_refl)|].
      exfalso. apply (Hall c Hc). intros Hx. assert (false = true) by (apply Hbc; by split). done. }
    destruct (node_is_viable_for_head spec pa n slot bj bf) eqn:Ev; (eexists; split; [done|]).
    + apply settled_add; [done| |done]. by eapply viable_leaf.
    + apply settled_skip; [done| |done]. intros V%(viable_inv i n Hn). destruct V as [_ [[_ V]|(c & Hc & V)]]; [congruence|].
      apply viable_not_cut in V. by apply V, Hall'.
  - destruct (existsb _ _) eqn:Ex; (eexists; split; [done|]).
    + apply settled_add; [done| |done]. destruct (proj1 Hex eq_refl) as (c & Hc & V). by eapply viable_above.
    + apply settled_skip; [done| |done]. intros V%(viable_inv i n Hn). destruct V as [_ [[V _]|V]].
      * assert (c0 ∈ c0 :: l0) as E by set_solver. apply Hl in E as [Ec Hx]. by apply Hx, V.
      * assert (false = true) by (by apply Hex). done.
Qed.

Lemma mark_viable_ok excluded m viable :
  excluded_upto (length (nodes pa)) excluded -> (start + m <= length (nodes pa))%nat -> settled (start + m) viable ->
  exists viable', mark_viable spec pa slot bj bf excluded (rev (seq start m)) viable = Ok viable' /\ settled start viable'.
Proof.
  intros He. revert viable. induction m as [|m IH]; intros viable Hm Hv; [exists viable; rewrite Nat.add_0_r in Hv; done|].
  rewrite seq_S, rev_app_distr. cbn [rev app mark_viable].
  destruct (mark_node_ok (start + m) excluded viable He ltac:(lia)) as (v1 & -> & H1); [by rewrite <-Nat.add_succ_r|].
  apply IH; [lia|done].
Qed.

(** The filtered tree is the set of viable branches. *)
Lemma filtered_tree_ok :
  (start < length (nodes pa))%nat ->
  exists viable, get_filtered_block_tree spec pa slot bj bf start = Ok viable
    /\ forall i, i ∈ viable <-> (start <= i < length (nodes pa))%nat /\ viable_branch i.
Proof.
  intros Hs. unfold get_filtered_block_tree, filter_block_tree.
  destruct (mark_excluded_ok (length (nodes pa) - S start) (S start) (repeat false (length (nodes pa)))) as (ex & -> & Hex); [lia|lia| |].
  { split; [apply repeat_length|]. intros i Hi. exists false. split.
    - clear -Hi. revert i Hi. induction (length (nodes pa)) as [|m IH]; intros [|i] Hi; cbn; [lia|lia|done|apply IH; lia].
    - split; [done|]. intros [? Hc%cut_after]. lia. }
  apply (mark_viable_ok ex (length (nodes pa) - start) ∅ Hex); [lia|].
  replace (start + (length (nodes pa) - start))%nat with (length (nodes pa)) by lia. intros i. rewrite elem_of_empty. split; [done|]. lia.
Qed.
End viability.

(** * The order of candidates *)

Lemma root_compare_antisym a b : root_compare b a = CompOpp (root_compare a b).
Proof.
  revert b. induction a as [|x a IH]; intros [|y b]; cbn; try done. rewrite (N.compare_antisym (Byte.to_N x) (Byte.to_N y)).
  destruct (Byte.to_N x ?= Byte.to_N y)%N; cbn; [apply IH|done|done].
Qed.

Lemma root_compare_eq a b : root_compare a b = Eq -> a = b.
Proof.
  revert b. induction a as [|x a IH]; intros [|y b]; cbn; try done. destruct (N.compare_spec (Byte.to_N x) (Byte.to_N y)) as [E|E|E]; try done.
  intros H%IH. f_equal; [|done]. apply (f_equal Byte.of_N) in E. rewrite !Byte.of_to_N in E. congruence.
Qed.

Lemma root_compare_trans a b c : root_compare a b <> Gt -> root_compare b c <> Gt -> root_compare a c <> Gt.
Proof.
  revert b c. induction a as [|x a IH]; intros [|y b] [|z c]; cbn; try done.
  destruct (N.compare_spec (Byte.to_N x) (Byte.to_N y)), (N.compare_spec (Byte.to_N y) (Byte.to_N z)),
    (N.compare_spec (Byte.to_N x) (Byte.to_N z)); try done; try lia. apply IH.
Qed.

Definition candidate_le (x y : Candidate) : Prop := candidate_compare x y <> Gt.

Lemma candidate_le_total x y : candidate_compare x y = Gt -> candidate_le y x.
Proof.
  unfold candidate_le, candidate_compare. rewrite (Z.compare_antisym (cd_weight x) (cd_weight y)).
  rewrite (root_compare_antisym (fc_root (cd_node x)) (fc_root (cd_node y))), (Z.compare_antisym (cd_tiebreaker x) (cd_tiebreaker y)).
  destruct (cd_weight x ?= cd_weight y), (root_compare _ _), (cd_tiebreaker x ?= cd_tiebreaker y); done.
Qed.

Lemma root_compare_lt_trans a b c : root_compare a b = Lt -> root_compare b c = Lt -> root_compare a c = Lt.
Proof.
  intros H1 H2. destruct (root_compare a c) eqn:E; [|done|].
  - apply root_compare_eq in E as ->. rewrite root_compare_antisym, H2 in H1. done.
  - exfalso. by apply (root_compare_trans a b c); [rewrite H1|rewrite H2|].
Qed.

Lemma candidate_le_trans x y z : candidate_le x y -> candidate_le y z -> candidate_le x z.
Proof.
  unfold candidate_le, candidate_compare.
  destruct (Z.compare_spec (cd_weight x) (cd_weight y)), (Z.compare_spec (cd_weight y) (cd_weight z)),
    (Z.compare_spec (cd_weight x) (cd_weight z)); try done; try lia.
  destruct (root_compare (fc_root (cd_node x)) (fc_root (cd_node y))) eqn:Hxy; [| |done].
  - apply root_compare_eq in Hxy as ->. destruct (root_compare _ _); try done.
    destruct (Z.compare_spec (cd_tiebreaker x) (cd_tiebreaker y)), (Z.compare_spec (cd_tiebreaker y) (cd_tiebreaker z)),
      (Z.compare_spec (cd_tiebreaker x) (cd_tiebreaker z)); try done; lia.
  - destruct (root_compare (fc_root (cd_node y)) (fc_root (cd_node z))) eqn:Hyz; [| |done].
    + apply root_compare_eq in Hyz as <-. by rewrite Hxy.
    + by rewrite (root_compare_lt_trans _ _ _ Hxy Hyz).
Qed.

(** [max_by_key] answers a greatest element. *)
Lemma max_candidate_greatest l m : max_candidate l = Some m -> m ∈ l /\ forall x, x ∈ l -> candidate_le x m.
Proof.
  destruct l as [|x l]; [done|]. intros [= <-]. revert x. induction l as [|y l IH]; intros x; cbn.
  - split; [set_solver|]. intros z ->%list_elem_of_singleton. unfold candidate_le, candidate_compare.
    rewrite !Z.compare_refl. pose proof (root_compare_antisym (fc_root (cd_node x)) (fc_root (cd_node x))) as A.
    by destruct (root_compare _ _).
  - destruct (IH (later_if_not_less x y)) as [Hin Hle]. unfold later_if_not_less in *.
    destruct (candidate_compare x y) eqn:E; (split; [set_solver|]); intros z Hz;
      repeat (apply elem_of_cons in Hz as [->|Hz]); try (apply Hle; set_solver).
    + apply (candidate_le_trans _ y); [unfold candidate_le; by rewrite E|apply Hle; set_solver].
    + apply (candidate_le_trans _ y); [unfold candidate_le; by rewrite E|apply Hle; set_solver].
    + apply (candidate_le_trans _ x); [by apply candidate_le_total|apply Hle; set_solver].
Qed.

(** * The greedy descent *)

Definition root_at (ns : list ProtoNode) (i : nat) : bytes := match ns !! i with Some n => pn_root n | None => [] end.

(** Node [d] does not beat node [c]: less weight, or as much and a root that is not greater. *)
Definition not_heavier (ns : list ProtoNode) (w : nat -> Z) (d c : nat) : Prop :=
  w d < w c \/ w d = w c /\ root_compare (root_at ns d) (root_at ns c) <> Gt.

(** LMD-GHOST: from a node to the head below it. *)
Inductive ghost (ns : list ProtoNode) (w : nat -> Z) (V : nat -> Prop) : nat -> nat -> Prop :=
  | ghost_head i : (forall c, c ∈ children_of ns i -> ~ V c) -> ghost ns w V i i
  | ghost_child i c h :
      c ∈ children_of ns i -> V c -> (forall d, d ∈ children_of ns i -> V d -> not_heavier ns w d c) ->
      ghost ns w V c h -> ghost ns w V i h.

Section walking.
Context (spec : ForkSpec) (pa : ProtoArray) (T : BlockTree pa) (G : pre_gloas (nodes pa)) (slot : Z) (b : JustifiedBalances).

Lemma v17_node i n : nodes pa !! i = Some n -> as_v29 n = None.
Proof.
  intros Hn. apply (proj1 (Forall_lookup _ _) G) in Hn. unfold is_gloas in Hn. unfold as_v29. by destruct (pn_variant n).
Qed.

Lemma decided_children_ok cs :
  (forall c, c ∈ cs -> (c < length (nodes pa))%nat) ->
  exists l, decided_children pa Empty cs = Ok l /\ map (fun c => fc_index (fst c)) l = cs
    /\ forall fc n, (fc, n) ∈ l -> nodes pa !! fc_index fc = Some n /\ fc = mkFc (pn_root n) (fc_index fc) Pending.
Proof.
  induction cs as [|c cs IH]; intros H; [exists []; split; [done|]; split; [done|]; intros fc n E; by apply elem_of_nil in E|].
  destruct (lookup_lt_is_Some_2 (nodes pa) c) as [n Hn]; [apply H; set_solver|]. cbn. rewrite Hn. cbn.
  destruct IH as (l & -> & Hl & Hp); [set_solver|]. unfold get_parent_payload_status. rewrite (v17_node _ _ Hn), bool_decide_true by done.
  eexists. split; [done|]. cbn. split; [by rewrite Hl|]. intros fc m [[= -> ->]|E]%elem_of_cons; [done|by apply Hp].
Qed.

Lemma weigh_pending l :
  (forall fc n, (fc, n) ∈ l -> fc_status fc = Pending) ->
  weigh_children spec pa slot false zero_root b l = Ok (map (fun c => mkCandidate (fst c) (pn_weight (snd c)) 2) l).
Proof.
  induction l as [|[fc n] l IH]; intros H; [done|]. cbn [weigh_children map fst snd].
  unfold get_weight, get_payload_status_tiebreaker. rewrite (H fc n), bool_decide_true by set_solver.
  cbn [orb negb attestation_score payload_status_u8]. by rewrite IH by set_solver.
Qed.

(** A viable pending node leads to its empty payload branch. *)
Lemma walk_pending fuel viable root i :
  i ∈ viable -> (i < length (nodes pa))%nat ->
  walk spec pa slot (S fuel) viable false zero_root b (mkFc root i Pending) = walk spec pa slot fuel viable false zero_root b (mkFc root i Empty).
Proof.
  intros Hv Hi. destruct (lookup_lt_is_Some_2 (nodes pa) i Hi) as [n Hn]. cbn [walk]. unfold get_node_children. cbn [fc_status fc_index].
  rewrite Hn. cbn [ok_or]. rewrite (v17_node _ _ Hn). cbn [List.filter fst fc_index fc_root]. rewrite bool_decide_true by done.
  cbn [weigh_children]. unfold get_weight, get_payload_status_tiebreaker. cbn [fc_status]. rewrite (bool_decide_false (Empty = Pending)) by done.
  rewrite (bool_decide_true (Empty = Empty)) by done. by destruct (u64_sat_add (pn_slot n) 1 =? slot).
Qed.

Lemma walk_empty fuel viable root i :
  (i < length (nodes pa))%nat ->
  walk spec pa slot (S fuel) viable false zero_root b (mkFc root i Empty)
  = match max_candidate (map (fun c => mkCandidate (mkFc (root_at (nodes pa) c) c Pending) (weight_at (nodes pa) c) 2)
            (List.filter (fun c => bool_decide (c ∈ viable)) (children_of (nodes pa) i))) with
    | None => Ok (mkFc root i Empty)
    | Some best => walk spec pa slot fuel viable false zero_root b (cd_node best)
    end.
Proof.
  intros Hi. cbn [walk]. unfold get_node_children. cbn [fc_status fc_index]. rewrite (children_lookup pa T) by done. cbn [ok_or].
  destruct (decided_children_ok (children_of (nodes pa) i)) as (l & -> & Hl & Hp); [intros c Hc; apply (child_in_range pa T) in Hc; lia|].
  assert (map (fun c => mkCandidate (fst c) (pn_weight (snd c)) 2) (List.filter (fun c => bool_decide (fc_index (fst c) ∈ viable)) l)
    = map (fun c => mkCandidate (mkFc (root_at (nodes pa) c) c Pending) (weight_at (nodes pa) c) 2)
        (List.filter (fun c => bool_decide (c ∈ viable)) (children_of (nodes pa) i))) as E.
  { rewrite <-Hl. clear Hl. induction l as [|[fc n] l IH]; [done|]. destruct (Hp fc n) as [Hn Hf]; [set_solver|].
    specialize (IH ltac:(set_solver)). cbn [map List.filter fst snd]. destruct (bool_decide (fc_index fc ∈ viable)); [|done].
    cbn [map fst snd]. f_equal; [|done]. unfold root_at, weight_at. rewrite Hn. congruence. }
  rewrite <-E. rewrite weigh_pending.
  2: { intros fc n [Hin _]%list_elem_of_In%filter_In. apply list_elem_of_In, Hp in Hin as [_ ->]. done. }
  destruct (List.filter _ l); [done|]. cbn. done.
Qed.

(** The walk ends, at the head of the greedy descent. *)
Lemma walk_ghost fuel viable i :
  (forall j, j ∈ viable -> (j < length (nodes pa))%nat) -> i ∈ viable -> (2 * (length (nodes pa) - i) + 2 <= fuel)%nat ->
  exists h, walk spec pa slot fuel viable false zero_root b (mkFc (root_at (nodes pa) i) i Pending) = Ok (mkFc (root_at (nodes pa) h) h Empty)
    /\ (i <= h < length (nodes pa))%nat /\ ghost (nodes pa) (weight_at (nodes pa)) (fun j => j ∈ viable) i h.
Proof.
  intros Hr. revert i. induction fuel as [fuel IH] using lt_wf_ind. intros i Hi Hf. pose proof (Hr i Hi) as Hlt.
  destruct fuel as [|[|fuel]]; [lia|lia|]. rewrite walk_pending, walk_empty by done.
  set (cs := List.filter (fun c => bool_decide (c ∈ viable)) (children_of (nodes pa) i)).
  assert (forall c, c ∈ cs <-> c ∈ children_of (nodes pa) i /\ c ∈ viable) as Hcs.
  { intros c. unfold cs. by rewrite list_elem_of_In, filter_In, <-list_elem_of_In, bool_decide_eq_true. }
  destruct (max_candidate _) as [m|] eqn:Hm.
  - apply max_candidate_greatest in Hm as [Hin Hle]. apply list_elem_of_In, in_map_iff in Hin as (c & <- & Hc).
    apply list_elem_of_In, Hcs in Hc as [Hc Hv]. pose proof (child_in_range pa T _ _ Hc) as Hcr. cbn [cd_node].
    destruct (IH fuel ltac:(lia) c Hv ltac:(lia)) as (h & -> & Hh & Gh). exists h. split; [done|]. split; [lia|].
    apply (ghost_child _ _ _ i c h Hc Hv); [|done]. intros d Hd Hdv.
    assert (candidate_le (mkCandidate (mkFc (root_at (nodes pa) d) d Pending) (weight_at (nodes pa) d) 2)
              (mkCandidate (mkFc (root_at (nodes pa) c) c Pending) (weight_at (nodes pa) c) 2)) as L.
    { apply Hle, list_elem_of_In, in_map_iff. exists d. split; [done|]. apply list_elem_of_In, Hcs. by split. }
    unfold candidate_le, candidate_compare in L. cbn in L. unfold not_heavier.
    destruct (Z.compare_spec (weight_at (nodes pa) d) (weight_at (nodes pa) c)); [right|by left|done]. split; [done|]. intros E. by rewrite E in L.
  - exists i. split; [done|]. split; [lia|]. apply ghost_head. intros c Hc Hv.
    assert (c ∈ cs) as Hin by (by apply Hcs). destruct cs; [by apply elem_of_nil in Hin|done].
Qed.
End walking.

(** * Scoring does not change what is viable *)

Section transfer.
Context (spec : ForkSpec) (pa pa' : ProtoArray) (F : same_frame (nodes pa') (nodes pa)) (I : indices pa' = indices pa).

Lemma ancestors_frame fuel ns ns' i : same_frame ns ns' -> frame <$> ancestors fuel ns i = frame <$> ancestors fuel ns' i.
Proof.
  intros H. revert i. induction fuel as [|fuel IH]; intros [i|]; try done. cbn.
  pose proof (same_frame_lookup _ _ i H) as E. destruct (ns !! i) as [n|], (ns' !! i) as [n'|]; try done.
  apply (inj Some) in E. rewrite !fmap_cons, E. f_equal. apply (f_equal pn_parent) in E. cbn in E. rewrite E. apply IH.
Qed.

Lemma finalized_above_frame s r chain : finalized_above s r (frame <$> chain) = finalized_above s r chain.
Proof. induction chain as [|n chain IH]; [done|]. cbn. by rewrite <-IH. Qed.

Lemma finalized_or_descendant_frame root c :
  is_finalized_checkpoint_or_descendant spec pa' root c = is_finalized_checkpoint_or_descendant spec pa root c.
Proof.
  unfold is_finalized_checkpoint_or_descendant, iter_nodes. rewrite I, (same_shape_length _ _ (same_frame_shape _ _ F)).
  pose proof (ancestors_frame (length (nodes pa)) _ _ (indices pa !! root) F) as E.
  destruct (ancestors _ (nodes pa') _) as [|n l], (ancestors _ (nodes pa) _) as [|n' l']; try done.
  rewrite <-(finalized_above_frame _ _ (n :: l)), <-(finalized_above_frame _ _ (n' :: l')), E.
  apply (f_equal head) in E. rewrite !fmap_cons in E. apply (inj Some) in E.
  change (knows_checkpoint n c) with (knows_checkpoint (frame n) c). by rewrite E.
Qed.

Lemma viable_for_head_frame n n' slot bj bf :
  frame n' = frame n -> node_is_viable_for_head spec pa' n' slot bj bf = node_is_viable_for_head spec pa n slot bj bf.
Proof.
  intros E. unfold node_is_viable_for_head. rewrite finalized_or_descendant_frame, <-(frame_invalid n'), <-(frame_invalid n), E.
  change (voting_source spec n' slot) with (voting_source spec (frame n') slot). change (pn_root n') with (pn_root (frame n')). by rewrite E.
Qed.

Lemma cut_frame start i : cut pa start i -> cut pa' start i.
Proof.
  induction 1 as [i Hi Hv|i p Hi Hp _ IH].
  - apply cut_here; [done|]. by rewrite (same_frame_invalid _ _ _ F).
  - apply (cut_above _ _ _ p); [done| |done]. by rewrite (same_shape_parent _ _ _ (same_frame_shape _ _ F)).
Qed.
End transfer.

Lemma viable_branch_frame spec pa pa' slot bj bf start i :
  same_frame (nodes pa') (nodes pa) -> indices pa' = indices pa -> viable_branch spec pa slot bj bf start i -> viable_branch spec pa' slot bj bf start i.
Proof.
  intros F I. assert (same_frame (nodes pa) (nodes pa')) as F' by (unfold same_frame in *; congruence).
  induction 1 as [i n Hc Hs Hn Hch Hv|i c Hc Hs Hch _ IH].
  - pose proof (same_frame_lookup _ _ i F) as E. rewrite Hn in E. destruct (nodes pa' !! i) as [n'|] eqn:Hn'; [|done].
    apply (inj Some) in E. apply (viable_leaf _ _ _ _ _ _ i n').
    + intros H. by apply Hc, (cut_frame pa' pa F').
    + done.
    + done.
    + intros c. rewrite (same_shape_children _ _ _ (same_frame_shape _ _ F)). intros H. by apply (cut_frame pa pa' F), Hch.
    + by rewrite (viable_for_head_frame spec pa pa' F I n n').
  - apply (viable_above _ _ _ _ _ _ i c); [|done| |done].
    + intros H. by apply Hc, (cut_frame pa' pa F').
    + by rewrite (same_shape_children _ _ _ (same_frame_shape _ _ F)).
Qed.

Lemma ghost_agree ns ns' w w' (V V' : nat -> Prop) n :
  same_frame ns ns' -> length ns' = n -> (forall i, (i < n)%nat -> w i = w' i) -> (forall i, V i <-> V' i) ->
  (forall i c, c ∈ children_of ns i -> (c < n)%nat) -> forall i h, ghost ns w V i h -> ghost ns' w' V' i h.
Proof.
  intros F Hlen Hw HV Hlt i h. induction 1 as [i Hc|i c h Hc Hv Hmax _ IH].
  - apply ghost_head. intros c. rewrite <-(same_shape_children _ _ _ (same_frame_shape _ _ F)), <-HV. apply Hc.
  - apply (ghost_child _ _ _ i c h); [by rewrite <-(same_shape_children _ _ _ (same_frame_shape _ _ F))|by apply HV| |done].
    intros d. rewrite <-(same_shape_children _ _ _ (same_frame_shape _ _ F)), <-HV. intros Hd Hdv. specialize (Hmax d Hd Hdv).
    assert (forall j, root_at ns' j = root_at ns j) as R.
    { intros j. pose proof (same_shape_root _ _ j (same_frame_shape _ _ F)) as E. unfold root_at. destruct (ns !! j), (ns' !! j); cbn in E; congruence. }
    unfold not_heavier in *. by rewrite !R, <-!Hw by (by eapply Hlt).
Qed.

(** C20: The fork choice of a reachable state, without a proposer boost, is LMD-GHOST. *)
Theorem find_head_is_lmd_ghost spec fc justified finalized nb equivocating slot j n :
  gloas_fork_epoch spec = None -> fc_reachable spec fc ->
  Forall (Z.le 0) (effective_balances nb) -> zsum (effective_balances nb) < 2 ^ 63 ->
  indices (proto_array fc) !! cp_root justified = Some j -> nodes (proto_array fc) !! j = Some n -> execution_invalid n = false ->
  viable_branch spec (proto_array fc) slot justified finalized j j ->
  exists fc' h m,
    fork_choice_find_head spec fc justified finalized nb zero_root equivocating slot = (fc', Ok (pn_root m, Empty))
    /\ nodes (proto_array fc) !! h = Some m
    /\ ghost (nodes (proto_array fc)) (lmd_at fc nb equivocating) (viable_branch spec (proto_array fc) slot justified finalized j) j h.
Proof.
  intros Hg R Hn Ht Hj Hnj Hnv Hvia. destruct (reachable_good _ _ Hg R) as [S0 G].
  destruct (update_scores_ok fc nb equivocating S0 G Hn Ht) as [fc1 E].
  destruct (update_scores_sound _ _ _ _ S0 Hn Ht E) as (S1 & _ & F & I & _ & W). pose proof (sc_tree _ _ _ S1) as T1.
  pose proof (same_frame_pre_gloas _ _ F G) as G1. pose proof (same_shape_length _ _ (same_frame_shape _ _ F)) as L.
  assert (same_frame (nodes (proto_array fc)) (nodes (proto_array fc1))) as F' by (unfold same_frame in *; congruence).
  pose proof (index_in_range _ (sc_tree _ _ _ S0) _ _ Hj) as Hjr.
  destruct (filtered_tree_ok spec (proto_array fc1) T1 slot justified finalized j ltac:(lia)) as (viable & Ev & HV).
  assert (j ∈ viable) as Hjv by (apply HV; split; [lia|by apply (viable_branch_frame spec (proto_array fc))]).
  destruct (walk_ghost spec (proto_array fc1) T1 G1 slot nb (2 * length (nodes (proto_array fc1)) + 2) viable j) as (h & Ew & Hh & Gh);
    [intros i; rewrite HV; lia|done|lia|].
  destruct (lookup_lt_is_Some_2 (nodes (proto_array fc)) h) as [m Hm]; [lia|]. exists fc1, h, m. split; [|split; [done|]].
  - assert (root_at (nodes (proto_array fc1)) j = cp_root justified) as Rj.
    { assert (indices (proto_array fc1) !! cp_root justified = Some j) as X by (by rewrite I). apply (bt_roots _ T1) in X. unfold root_at.
      destruct (nodes (proto_array fc1) !! j); [|done]. by injection X. }
    assert (root_at (nodes (proto_array fc1)) h = pn_root m) as Rh.
    { pose proof (same_shape_root _ _ h (same_frame_shape _ _ F)) as X. rewrite Hm in X. unfold root_at.
      destruct (nodes (proto_array fc1) !! h); [|done]. by injection X. }
    unfold fork_choice_find_head. rewrite E. f_equal. unfold find_head. rewrite I, Hj. cbn [ok_or].
    pose proof (same_frame_invalid _ _ j F) as Xi. unfold invalid_at in Xi. rewrite Hnj, Hnv in Xi.
    destruct (lookup_lt_is_Some_2 (nodes (proto_array fc1)) j) as [nj Hnj1]; [lia|]. rewrite Hnj1 in *. cbn [ok_or]. rewrite Xi.
    unfold find_head_walk. rewrite Ev. unfold should_apply_proposer_boost. rewrite bool_decide_true by done.
    rewrite <-Rj, Ew, Rh. done.
  - apply (ghost_agree (nodes (proto_array fc1)) (nodes (proto_array fc)) (weight_at (nodes (proto_array fc1))) _ (fun i => i ∈ viable) _
      (length (nodes (proto_array fc))) F eq_refl); [| | |done].
    + intros i Hi. unfold weight_at. destruct (lookup_lt_is_Some_2 (nodes (proto_array fc1)) i) as [ni Hni]; [lia|]. rewrite Hni. by apply W.
    + intros i. rewrite HV. split.
      * intros [_ V]. by apply (viable_branch_frame spec (proto_array fc1)).
      * intros V. split; [|by apply (viable_branch_frame spec (proto_array fc))].
        assert ((j <= i)%nat /\ (i < length (nodes (proto_array fc)))%nat); [|lia].
        destruct V as [i' ni _ Hs Hni _ _|i' c _ Hs Hc _]; [split; [done|by eapply lookup_lt_Some]|].
        apply (child_in_range _ (sc_tree _ _ _ S0)) in Hc. lia.
    + intros i c Hc. apply (child_in_range _ T1) in Hc. lia.
Qed.
