(* ===== verification/ForkTree.v ===== *)
(** * What holds at every fork

    The tree invariant holds in every reachable fork choice, before and after Gloas and
    whether or not an operation failed.  With it: the filter computes the viable
    branches, pruning at a known root succeeds and keeps the blocks that are left, and
    the search for the head ends. *)

From S2P Require Import FixedPoint.
From S2P Require Export ForkHead.
Local Open Scope rust_scope.
Local Open Scope Z_scope.

(** * The tree is an invariant *)

Lemma score_node_shape i ns deltas : same_shape (fst (score_node i ns deltas)) ns.
Proof.
  unfold score_node. destruct (ns !! i) as [n|] eqn:Hn; [|done]. case_bool_decide; [done|]. destruct (deltas !! i) as [nd|]; [|done].
  destruct (leaving_delta n nd i) as [delta|]; [|done]. destruct (new_weight n delta i) as [w|]; [|done].
  destruct (apply_payload_deltas (with_weight n w) nd i) as [n' r] eqn:E. apply apply_payload_deltas_frame in E as [E _].
  assert (same_shape (<[i := n']> ns) ns) as Hshape by (eapply same_shape_insert; [done|]; apply (f_equal shape) in E; exact E).
  by destruct r.
Qed.

Lemma score_nodes_shape order ns deltas : same_shape (fst (score_nodes order ns deltas)) ns.
Proof.
  revert ns deltas. induction order as [|i order IH]; intros ns deltas; [done|]. cbn [score_nodes].
  pose proof (score_node_shape i ns deltas) as H. destruct (score_node i ns deltas) as [ns1 [d1|]]; [|done].
  eapply same_shape_trans; [apply IH|done].
Qed.

Lemma update_scores_tree fc nb equivocating :
  BlockTree (proto_array fc) -> BlockTree (proto_array (fst (update_scores fc nb equivocating))).
Proof.
  intros T. unfold update_scores. destruct (compute_deltas _ _ _ _ _ _) as [vs [deltas|]]; [|done].
  assert (BlockTree (fst (apply_score_changes (proto_array fc) deltas))) as H.
  { unfold apply_score_changes. destruct (negb _); [done|].
    pose proof (score_nodes_shape (rev (seq 0 (length (nodes (proto_array fc))))) (nodes (proto_array fc)) deltas) as H.
    destruct (score_nodes _ _ _) as [ns r]. by apply block_tree_shape. }
  by destruct (apply_score_changes _ _) as [pa [u|]].
Qed.

Lemma step_tree spec fc fc' : BlockTree (proto_array fc) -> fc_step spec fc fc' -> BlockTree (proto_array fc').
Proof.
  intros T St. destruct St as [| | | | | |fc root fc' r E|fc t|fc j f nb boost eq slot fc' head _ _ E].
  - done.
  - unfold process_block. destruct (b_parent_root b); [|done]. by apply on_block_tree.
  - unfold process_execution_payload_validation, with_proto_array. cbn [fst proto_array]. rewrite <-validation_rest.
    apply block_tree_shape; [done|]. apply validation_marked.
  - by apply invalidation_tree.
  - unfold process_valid_payload_envelope, with_proto_array. cbn [fst proto_array]. destruct (envelope_marked (proto_array fc) root) as [M <-].
    apply block_tree_shape; [done|]. apply M.
  - destruct (process_payload_attestation fc root i present available) as [fc1 res] eqn:E.
    apply payload_attestation_marked in E as [M ->]. apply block_tree_shape; [done|]. apply M.
  - unfold fork_choice_maybe_prune in E. destruct (indices (proto_array fc) !! root) as [k|] eqn:Hk.
    + destruct (maybe_prune_tree _ _ _ T Hk) as (pa' & Ep & T' & _). rewrite Ep in E. by injection E as <- _.
    + unfold maybe_prune in E. rewrite Hk in E. by injection E as <- _.
  - by apply threshold_tree.
  - unfold fork_choice_find_head in E. pose proof (update_scores_tree fc nb eq T) as T1.
    destruct (update_scores fc nb eq) as [fc1 [u|]]; by injection E as <- _.
Qed.

Lemma empty_tree t : BlockTree (mkProtoArray t [] ∅ []).
Proof. by split. Qed.

Lemma reachable_tree spec fc : fc_reachable spec fc -> BlockTree (proto_array fc).
Proof.
  induction 1 as [slot fslot sroot ju fi cs ns status ph bh proposer fc _ E|]; [|by eapply step_tree].
  unfold fork_choice_new in E. set (b := mkBlock _ _ _ _ _ _ _ _ _ _ _ _ _ _ _ _) in E.
  pose proof (on_block_tree spec _ b slot 0 (empty_tree DEFAULT_PRUNE_THRESHOLD)) as T.
  destruct (on_block _ _ _ _ _) as [pa [u|]]; [|done]. by injection E as <-.
Qed.

(** * The claims *)

(** C29: The one reverse pass over the array finds exactly the blocks on viable branches. *)
Theorem filter_pass_is_recursive spec fc slot justified finalized start :
  fc_reachable spec fc -> (start < length (nodes (proto_array fc)))%nat ->
  exists viable, get_filtered_block_tree spec (proto_array fc) slot justified finalized start = Ok viable
    /\ forall i, i ∈ viable <-> viable_branch spec (proto_array fc) slot justified finalized start i.
Proof.
  intros R Hs. pose proof (reachable_tree _ _ R) as T. destruct (filtered_tree_ok spec _ T slot justified finalized start Hs) as (v & E & H).
  exists v. split; [done|]. intros i. rewrite H. split; [tauto|]. intros V. split; [|done].
  destruct V as [i n _ Hi Hn _ _|i c _ Hi Hc _]; [split; [done|by eapply lookup_lt_Some]|]. apply (child_in_range _ T) in Hc. lia.
Qed.

(** The root of the parent of a block, where it is known. *)
Definition parent_root (pa : ProtoArray) (root : bytes) : option bytes :=
  match indices pa !! root with
  | Some i => match parent_of (nodes pa) i with Some p => pn_root <$> nodes pa !! p | None => None end
  | None => None
  end.

Lemma parent_root_eq pa root i :
  indices pa !! root = Some i ->
  parent_root pa root = match parent_of (nodes pa) i with Some p => pn_root <$> nodes pa !! p | None => None end.
Proof. unfold parent_root. by intros ->. Qed.

(** C30: Pruning at a known root succeeds: below the threshold it does nothing, and past it
    the blocks before the finalized one are forgotten and the others keep their weight
    and, unless it is forgotten, their parent. *)
Theorem pruning_keeps_the_rest spec fc root k :
  fc_reachable spec fc -> indices (proto_array fc) !! root = Some k ->
  exists fc', fork_choice_maybe_prune fc root = Ret (fc', Ok tt)
    /\ ((k < prune_threshold (proto_array fc))%nat -> fc' = fc)
    /\ ((prune_threshold (proto_array fc) <= k)%nat -> forall r i, indices (proto_array fc) !! r = Some i ->
         ((i < k)%nat -> indices (proto_array fc') !! r = None)
         /\ ((k <= i)%nat -> fork_choice_get_weight fc' r = fork_choice_get_weight fc r)
         /\ (forall p, (k <= p)%nat -> parent_of (nodes (proto_array fc)) i = Some p ->
              parent_root (proto_array fc') r = parent_root (proto_array fc) r)).
Proof.
  intros R Hk. pose proof (reachable_tree _ _ R) as T. destruct (maybe_prune_tree _ _ _ T Hk) as (pa' & E & T' & Hlo & Hhi).
  unfold fork_choice_maybe_prune. rewrite E. cbn [outcome_bind]. unfold with_proto_array. eexists. split; [done|]. cbn [fst proto_array].
  split; [intros H; rewrite (Hlo H); by destruct fc|]. intros H. destruct (Hhi H) as [Hns Hix]. clear Hlo Hhi. intros r i Hr.
  assert (forall c, (k <= c)%nat -> indices (proto_array fc) !! r = Some c -> indices pa' !! r = Some (c - k)%nat) as Hin.
  { intros c Hc X. apply Hix. by replace (k + (c - k))%nat with c by lia. }
  split; [|split].
  - intros Hi. destruct (indices pa' !! r) as [c|] eqn:X; [|done]. apply Hix in X. rewrite Hr in X. injection X as X. lia.
  - intros Hi. unfold fork_choice_get_weight. cbn [proto_array]. rewrite (Hin i Hi Hr), Hr. cbn. rewrite Hns, below_lookup.
    replace (k + (i - k))%nat with i by lia. destruct (nodes (proto_array fc) !! i) as [n|]; [|done]. cbn. f_equal. apply (shift_parent_rest k n).
  - intros p Hp Hpar. pose proof (parent_in_range _ T _ _ Hpar) as Hpi.
    rewrite (parent_root_eq _ _ _ Hr), (parent_root_eq _ _ _ (Hin i ltac:(lia) Hr)), Hns, below_parent.
    replace (k + (i - k))%nat with i by lia. rewrite Hpar. cbn [shift_index]. rewrite (proj2 (Nat.ltb_ge p k)) by done. cbn.
    rewrite below_lookup. replace (k + (p - k))%nat with p by lia. destruct (nodes (proto_array fc) !! p) as [m|]; [|done]. cbn.
    f_equal. apply shift_parent_root.
Qed.

(** * The search for the head ends *)

Create HintDb fork_ends.

Section ends.
Context (spec : ForkSpec) (pa : ProtoArray) (T : BlockTree pa) (slot : Z) (b : JustifiedBalances).

(** Not a walk cut short. *)
Definition ended {A} (r : Result A Error) : Prop := r <> Err StepsExhausted.

Lemma ended_bind {A B} (r : Result A Error) (k : A -> Result B Error) :
  ended r -> (forall a, r = Ok a -> ended (k a)) -> ended (match r with Ok a => k a | Err e => Err e end).
Proof. unfold ended. destruct r; [auto|]. intros H _ E. by injection E as ->. Qed.

Lemma ended_ok_or {A} (o : option A) e : e <> StepsExhausted -> ended (ok_or o e).
Proof. unfold ended. destruct o; cbn; [done|]. intros H E. by injection E. Qed.

Lemma ended_ok {A} (a : A) : ended (Ok a).
Proof. done. Qed.

#[local] Hint Resolve ended_ok : fork_ends.

Ltac ends := repeat first
  [ solve [auto 1 with fork_ends] | apply ended_ok_or; discriminate | unfold ended; discriminate | apply ended_bind; [|intros]
  | match goal with |- ended (if ?c then _ else _) => destruct c end
  | match goal with |- ended (match ?c with _ => _ end) => destruct c end ].

Lemma ancestor_at_ends fuel s child current : (current < fuel)%nat -> ended (ancestor_at pa fuel s child current).
Proof.
  revert child current. induction fuel as [|fuel IH]; intros child current H; [lia|]. cbn [ancestor_at].
  apply ended_bind; [by apply ended_ok_or|]. intros n Hn%ok_or_ok. destruct (_ <=? _); [by ends|].
  apply ended_bind; [by apply ended_ok_or|]. intros p Hp%ok_or_ok. apply IH.
  assert (parent_of (nodes pa) current = Some p) as Hc by (unfold parent_of; by rewrite Hn). apply (bt_parents pa T) in Hc. lia.
Qed.

Lemma node_of_root_ends root : ended (node_of_root pa root).
Proof. unfold node_of_root. ends. Qed.
#[local] Hint Resolve node_of_root_ends : fork_ends.

Lemma get_ancestor_node_ends root s : ended (get_ancestor_node pa root s).
Proof.
  unfold get_ancestor_node. apply ended_bind; [apply node_of_root_ends|]. intros [i n] E. destruct (_ <=? _); [done|].
  apply ended_bind; [by apply ended_ok_or|]. intros p Hp%ok_or_ok. apply ancestor_at_ends.
  unfold node_of_root in E. destruct (indices pa !! root) as [i'|]; [|done]. cbn in E. destruct (nodes pa !! i') as [n'|] eqn:Hn; [|done]. cbn in E.
  injection E as <- <-. assert (parent_of (nodes pa) i' = Some p) as Hc by (unfold parent_of; by rewrite Hn). apply (parent_in_range pa T) in Hc. lia.
Qed.
#[local] Hint Resolve get_ancestor_node_ends : fork_ends.

Lemma get_weight_ends fc n apply_boost boost : ended (get_weight spec pa slot fc n apply_boost boost b).
Proof.
  unfold get_weight, is_supporting_vote, get_proposer_score. destruct (_ || _); [|done]. destruct (negb _); [done|].
  ends.
Qed.

Lemma tiebreaker_ends fc n boost : ended (get_payload_status_tiebreaker spec pa slot fc n boost).
Proof.
  unfold get_payload_status_tiebreaker, should_extend_payload, boosted_parent, payload_timeliness, payload_data_availability.
  ends.
Qed.

Lemma weigh_children_ends apply_boost boost cs : ended (weigh_children spec pa slot apply_boost boost b cs).
Proof.
  induction cs as [|[fc n] cs IH]; [done|]. cbn [weigh_children]. apply ended_bind; [apply get_weight_ends|intros].
  apply ended_bind; [apply tiebreaker_ends|intros]. apply ended_bind; [done|intros; done].
Qed.

(** A step of the walk decides a pending node or goes to one of its children. *)
Lemma decided_children_index s cs l :
  decided_children pa s cs = Ok l -> forall fc n, (fc, n) ∈ l -> fc_index fc ∈ cs /\ fc_status fc = Pending.
Proof.
  revert l. induction cs as [|c cs IH]; intros l; cbn; [intros [= <-] fc n H; by apply elem_of_nil in H|].
  destruct (nodes pa !! c) as [m|]; [|done]. cbn. destruct (decided_children pa s cs) as [l'|]; [|done]. intros [= <-] fc n.
  case_bool_decide; [intros [[= -> ->]|Hin]%elem_of_cons; [set_solver|]|intros Hin]; apply (IH _ eq_refl) in Hin; set_solver.
Qed.

Lemma decided_children_ends s cs : ended (decided_children pa s cs).
Proof. induction cs as [|c cs IH]; [done|]. cbn. ends; done. Qed.
#[local] Hint Resolve decided_children_ends : fork_ends.

Definition steps_left (fc : IndexedForkChoiceNode) : nat :=
  2 * (length (nodes pa) - fc_index fc) + (if bool_decide (fc_status fc = Pending) then 1 else 0).

Lemma children_fewer_steps fc l :
  get_node_children pa fc = Ok l -> forall fc' n, (fc', n) ∈ l -> (steps_left fc' < steps_left fc)%nat.
Proof.
  unfold get_node_children, steps_left. destruct fc as [root i s]. cbn [fc_status fc_index fc_root]. destruct s.
  3: { destruct (nodes pa !! i) as [m|] eqn:Hm; [|done]. cbn [ok_or]. intros [= <-] fc' n H. rewrite (bool_decide_true (Pending = Pending)) by done.
       apply elem_of_cons in H as [[= -> ->]|H]; [cbn [fc_index fc_status]; rewrite bool_decide_false by done; lia|].
       destruct (match as_v29 m with Some v => payload_received v | None => false end); [|by apply elem_of_nil in H].
       apply list_elem_of_singleton in H as [= -> ->]. cbn [fc_index fc_status]. rewrite bool_decide_false by done. lia. }
  all: destruct (children pa !! i) as [cs|] eqn:Hc; [|done]; cbn [ok_or]; intros E fc' n H;
    apply (decided_children_index _ _ _ E) in H as [H ->]; pose proof (lookup_lt_Some _ _ _ Hc) as Hi; rewrite (children_length pa T) in Hi;
    rewrite (children_lookup pa T) in Hc by done; injection Hc as <-; apply (child_in_range pa T) in H; rewrite !bool_decide_true by done;
    rewrite bool_decide_false by done; lia.
Qed.

Lemma weigh_children_nodes apply_boost boost cs l :
  weigh_children spec pa slot apply_boost boost b cs = Ok l -> forall c, c ∈ l -> exists n, (cd_node c, n) ∈ cs.
Proof.
  revert l. induction cs as [|[fc n] cs IH]; intros l; cbn [weigh_children]; [intros [= <-] c H; by apply elem_of_nil in H|].
  destruct (get_weight _ _ _ _ _ _ _ _); [|done]. destruct (get_payload_status_tiebreaker _ _ _ _ _ _); [|done].
  destruct (weigh_children _ _ _ _ _ _ cs) as [l'|]; [|done]. intros [= <-] c [->|H]%elem_of_cons; [exists n; set_solver|].
  destruct (IH _ eq_refl c H) as [m Hm]. exists m. set_solver.
Qed.

Lemma walk_ends fuel viable apply_boost boost fc : (steps_left fc < fuel)%nat -> ended (walk spec pa slot fuel viable apply_boost boost b fc).
Proof.
  revert fc. induction fuel as [|fuel IH]; intros fc Hf; [lia|]. cbn [walk].
  apply ended_bind; [unfold get_node_children; ends|]. intros l Hl.
  destruct (List.filter _ l) as [|c0 cs] eqn:Hcs; [done|]. apply ended_bind; [apply weigh_children_ends|]. intros cands Hw.
  apply ended_bind; [by apply ended_ok_or|]. intros best Hb%ok_or_ok%max_candidate_greatest. destruct Hb as [Hin _].
  destruct (weigh_children_nodes _ _ _ _ Hw _ Hin) as [n Hn]. rewrite <-Hcs in Hn. apply list_elem_of_In, filter_In in Hn as [Hn _].
  apply list_elem_of_In in Hn. apply (children_fewer_steps _ _ Hl) in Hn. apply IH. lia.
Qed.

Lemma find_head_walk_ends justified finalized start boost :
  (start < length (nodes pa))%nat -> ended (find_head_walk spec pa slot justified finalized start boost b).
Proof.
  intros Hs. unfold find_head_walk. destruct (filtered_tree_ok spec pa T slot justified finalized start Hs) as (v & -> & _).
  apply ended_bind; [|intros; apply walk_ends; unfold steps_left; cbn [fc_index fc_status]; case_bool_decide; lia].
  unfold should_apply_proposer_boost, boosted_parent. ends.
Qed.
End ends.

(** C31: On every reachable fork choice, before and after Gloas and with any proposer boost,
    the search for the head ends: its loops never run out of steps. *)
Theorem head_search_ends spec fc slot justified finalized boost b :
  fc_reachable spec fc -> ended (find_head spec (proto_array fc) slot justified finalized (cp_root justified) boost b).
Proof.
  intros R. pose proof (reachable_tree _ _ R) as T. unfold find_head. apply ended_bind; [by apply ended_ok_or|]. intros i Hi%ok_or_ok.
  apply ended_bind; [by apply ended_ok_or|]. intros n _. destruct (execution_invalid n); [done|].
  apply ended_bind; [|done]. apply find_head_walk_ends; [done|]. by apply (index_in_range _ T) in Hi.
Qed.
