(* ===== verification/Registry.v ===== *)
(** * The validator registry and its caches

    What the end of an epoch works on, in the consensus client
    (src/ethereum-topostake/lighthouse/consensus/types/src/: validator/validator.rs,
    state/exit_cache.rs, state/activation_queue.rs, state/progressive_balances_cache.rs,
    state/epoch_cache.rs, state/balance.rs, attestation/participation_flags.rs and
    validator/pubkey_cache.rs, with the crate state_processing's epoch_cache.rs):
    validators, their participation, the queue of exits and activations, and the
    caches of balances and rewards.

    Lists have no capacity here: the limit of 2^40 validators is not reached. *)

From S2P Require Export Justification.
Local Open Scope rust_scope.
Local Open Scope Z_scope.

(** safe_arith on [u64], continued. *)
Definition safe_sub (a b : Z) : Result Z EpochError := if b <=? a then Ok (a - b) else Err ArithError.
Definition safe_div (a b : Z) : Result Z EpochError := if b =? 0 then Err ArithError else Ok (a / b).
Definition safe_rem (a b : Z) : Result Z EpochError := if b =? 0 then Err ArithError else Ok (a mod b).
Fixpoint safe_sum (l : list Z) (acc : Z) : Result Z EpochError :=
  match l with [] => Ok acc | x :: l => let? s := safe_add acc x in safe_sum l s end.

(** * Forks and the chain's parameters *)

Inductive ForkName := Base | Altair | Bellatrix | Capella | Deneb | Electra | Fulu | Gloas.

(** The derived order of the enum. *)
Definition fork_rank (f : ForkName) : nat :=
  match f with
  | Base => 0 | Altair => 1 | Bellatrix => 2 | Capella => 3 | Deneb => 4 | Electra => 5 | Fulu => 6 | Gloas => 7
  end.
Definition fork_ge (f g : ForkName) : bool := Nat.leb (fork_rank g) (fork_rank f).
Definition electra_enabled (f : ForkName) : bool := fork_ge f Electra.
Definition fulu_enabled (f : ForkName) : bool := fork_ge f Fulu.
Definition gloas_fork (f : ForkName) : bool := fork_ge f Gloas.
#[global] Arguments fork_ge : simpl never.
#[global] Arguments electra_enabled : simpl never.
#[global] Arguments fulu_enabled : simpl never.
#[global] Arguments gloas_fork : simpl never.

(** The epochs at which the forks start, where they do. *)
Record ForkEpochs := mkForkEpochs {
  altair_fork_epoch : option Z;
  bellatrix_fork_epoch : option Z;
  capella_fork_epoch : option Z;
  deneb_fork_epoch : option Z;
  electra_fork_epoch : option Z;
  fulu_fork_epoch : option Z;
  es_gloas_fork_epoch : option Z
}.

(** The fields of [ChainSpec] and the constants of [EthSpec] that epoch processing reads. *)
Record EpochSpec := mkEpochSpec {
  fork_epochs : ForkEpochs;
  far_future_epoch : Z;
  genesis_slot : Z;
  es_slots_per_epoch : Z;
  epochs_per_slashings_vector : Z;
  max_pending_deposits_per_epoch : nat;
  min_seed_lookahead : Z;
  proposer_lookahead_slots : Z;
  max_seed_lookahead : Z;
  min_validator_withdrawability_delay : Z;
  min_epochs_to_inactivity_penalty : Z;
  effective_balance_increment : Z;
  max_effective_balance : Z;
  max_effective_balance_electra : Z;
  min_activation_balance : Z;
  ejection_balance : Z;
  hysteresis_quotient : Z;
  hysteresis_downward_multiplier : Z;
  hysteresis_upward_multiplier : Z;
  min_per_epoch_churn_limit : Z;
  max_per_epoch_activation_churn_limit : Z;
  churn_limit_quotient : Z;
  min_per_epoch_churn_limit_electra : Z;
  max_per_epoch_activation_exit_churn_limit : Z;
  churn_limit_quotient_gloas : Z;
  max_per_epoch_activation_churn_limit_gloas : Z;
  inactivity_score_bias : Z;
  inactivity_score_recovery_rate : Z;
  inactivity_penalty_quotient : Z;
  inactivity_penalty_quotient_altair : Z;
  inactivity_penalty_quotient_bellatrix : Z;
  proportional_slashing_multiplier : Z;
  proportional_slashing_multiplier_altair : Z;
  proportional_slashing_multiplier_bellatrix : Z;
  base_reward_factor : Z;
  base_rewards_per_epoch : Z;
  compounding_withdrawal_prefix_byte : Byte.byte;
  builder_payment_threshold_numerator : Z;
  builder_payment_threshold_denominator : Z
}.

Section registry.
Context (spec : EpochSpec).

Fixpoint first_fork (forks : list (option Z * ForkName)) (epoch : Z) : ForkName :=
  match forks with
  | [] => Base
  | (Some e, f) :: forks => if e <=? epoch then f else first_fork forks epoch
  | (None, _) :: forks => first_fork forks epoch
  end.

Definition fork_name_at_epoch (epoch : Z) : ForkName :=
  let e := fork_epochs spec in
  first_fork [(es_gloas_fork_epoch e, Gloas); (fulu_fork_epoch e, Fulu); (electra_fork_epoch e, Electra);
              (deneb_fork_epoch e, Deneb); (capella_fork_epoch e, Capella); (bellatrix_fork_epoch e, Bellatrix);
              (altair_fork_epoch e, Altair)] epoch.

Definition inactivity_penalty_quotient_for_fork (f : ForkName) : Z :=
  if fork_ge f Bellatrix then inactivity_penalty_quotient_bellatrix spec
  else if fork_ge f Altair then inactivity_penalty_quotient_altair spec
  else inactivity_penalty_quotient spec.

Definition max_effective_balance_for_fork (f : ForkName) : Z :=
  if electra_enabled f then max_effective_balance_electra spec else max_effective_balance spec.

Definition compute_activation_exit_epoch (epoch : Z) : Result Z EpochError :=
  let? e := safe_add epoch 1 in safe_add e (max_seed_lookahead spec).

(** * Validators *)

Record Validator := mkValidator {
  pubkey : bytes;
  withdrawal_credentials : bytes;
  effective_balance : Z;
  slashed : bool;
  activation_eligibility_epoch : Z;
  activation_epoch : Z;
  exit_epoch : Z;
  withdrawable_epoch : Z
}.

Definition with_effective_balance (v : Validator) (b : Z) : Validator :=
  mkValidator (pubkey v) (withdrawal_credentials v) b (slashed v) (activation_eligibility_epoch v)
    (activation_epoch v) (exit_epoch v) (withdrawable_epoch v).
Definition with_eligibility (v : Validator) (e : Z) : Validator :=
  mkValidator (pubkey v) (withdrawal_credentials v) (effective_balance v) (slashed v) e
    (activation_epoch v) (exit_epoch v) (withdrawable_epoch v).
Definition with_activation (v : Validator) (e : Z) : Validator :=
  mkValidator (pubkey v) (withdrawal_credentials v) (effective_balance v) (slashed v)
    (activation_eligibility_epoch v) e (exit_epoch v) (withdrawable_epoch v).
Definition with_slashed (v : Validator) (w : Z) : Validator :=
  mkValidator (pubkey v) (withdrawal_credentials v) (effective_balance v) true (activation_eligibility_epoch v)
    (activation_epoch v) (exit_epoch v) w.
Definition with_exit (v : Validator) (e w : Z) : Validator :=
  mkValidator (pubkey v) (withdrawal_credentials v) (effective_balance v) (slashed v)
    (activation_eligibility_epoch v) (activation_epoch v) e w.

Definition is_active_at (v : Validator) (epoch : Z) : bool :=
  (activation_epoch v <=? epoch) && (epoch <? exit_epoch v).

Definition is_slashable_at (v : Validator) (epoch : Z) : bool :=
  negb (slashed v) && (activation_epoch v <=? epoch) && (epoch <? withdrawable_epoch v).

Definition is_eligible_for_activation_queue_base (v : Validator) : bool :=
  (activation_eligibility_epoch v =? far_future_epoch spec) && (effective_balance v =? max_effective_balance spec).

Definition is_eligible_for_activation_queue_electra (v : Validator) : bool :=
  (activation_eligibility_epoch v =? far_future_epoch spec) && (min_activation_balance spec <=? effective_balance v).

Definition is_eligible_for_activation_queue (v : Validator) (f : ForkName) : bool :=
  if electra_enabled f then is_eligible_for_activation_queue_electra v
  else is_eligible_for_activation_queue_base v.

Definition is_eligible_for_activation_with_finalized_checkpoint (v : Validator) (finalized : Checkpoint) : bool :=
  (activation_eligibility_epoch v <=? cp_epoch finalized) && (activation_epoch v =? far_future_epoch spec).

Definition could_be_eligible_for_activation_at (v : Validator) (epoch : Z) : bool :=
  (activation_epoch v =? far_future_epoch spec) && (activation_eligibility_epoch v <? epoch).

Definition has_compounding_withdrawal_credential (v : Validator) : bool :=
  match withdrawal_credentials v with
  | b :: _ => bool_decide (b = compounding_withdrawal_prefix_byte spec)
  | [] => false
  end.

Definition get_max_effective_balance (v : Validator) (f : ForkName) : Z :=
  if fork_ge f Electra then
    if has_compounding_withdrawal_credential v then max_effective_balance_electra spec else min_activation_balance spec
  else max_effective_balance spec.

(** The plain [-] and [%] cannot overflow: the increment is not zero. *)
Definition from_deposit (key credentials : bytes) (amount : Z) (f : ForkName) : Validator :=
  let far := far_future_epoch spec in
  let v := mkValidator key credentials 0 false far far far far in
  with_effective_balance v
    (Z.min (amount - amount mod effective_balance_increment spec) (get_max_effective_balance v f)).

(** * Participation *)

Definition NUM_FLAG_INDICES : nat := 3.
Definition TIMELY_SOURCE_FLAG_INDEX : nat := 0.
Definition TIMELY_TARGET_FLAG_INDEX : nat := 1.
Definition TIMELY_HEAD_FLAG_INDEX : nat := 2.
Definition PARTICIPATION_FLAG_WEIGHTS : list Z := [14; 26; 14].
Definition WEIGHT_DENOMINATOR : Z := 64.

(** [ParticipationFlags::has_flag] on the bits of a [u8]. *)
Definition has_flag (bits : Z) (flag : nat) : Result bool EpochError :=
  if Nat.leb NUM_FLAG_INDICES flag then Err ArithError
  else let mask := Z.shiftl 1 (Z.of_nat flag) in Ok (Z.land bits mask =? mask).

Definition add_flag (bits : Z) (flag : nat) : Result Z EpochError :=
  if Nat.leb NUM_FLAG_INDICES flag then Err ArithError
  else Ok (Z.lor bits (Z.shiftl 1 (Z.of_nat flag))).

(** * The exit cache *)

Record ExitCache := mkExitCache {
  ec_initialized : bool;
  max_exit_epoch : Z;
  max_exit_epoch_churn : Z
}.

Definition check_initialized (c : ExitCache) : Result unit EpochError :=
  if ec_initialized c then Ok tt else Err (BeaconStateError "ExitCacheUninitialized").

Definition record_validator_exit (c : ExitCache) (epoch : Z) : Result ExitCache EpochError :=
  let? _ := check_initialized c in
  match epoch ?= max_exit_epoch c with
  | Eq => let? n := safe_add (max_exit_epoch_churn c) 1 in Ok (mkExitCache true (max_exit_epoch c) n)
  | Gt => Ok (mkExitCache true epoch 1)
  | Lt => Ok c
  end.

Fixpoint record_exits (c : ExitCache) (l : list Validator) : Result ExitCache EpochError :=
  match l with
  | [] => Ok c
  | v :: l =>
      if exit_epoch v =? far_future_epoch spec then record_exits c l
      else let? c := record_validator_exit c (exit_epoch v) in record_exits c l
  end.

Definition ExitCache_new (l : list Validator) : Result ExitCache EpochError :=
  record_exits (mkExitCache true 0 0) l.

Definition max_epoch (c : ExitCache) : Result (option Z) EpochError :=
  let? _ := check_initialized c in
  Ok (if 0 <? max_exit_epoch_churn c then Some (max_exit_epoch c) else None).

Definition get_churn_at (c : ExitCache) (epoch : Z) : Result Z EpochError :=
  let? _ := check_initialized c in
  match epoch ?= max_exit_epoch c with
  | Eq => Ok (max_exit_epoch_churn c)
  | Gt => Ok 0
  | Lt => Err (BeaconStateError "ExitCacheInvalidEpoch")
  end.

(** * The activation queue: a [BTreeSet] of pairs, in order *)

Definition ActivationQueue := list (Z * nat).

Fixpoint queue_insert (q : ActivationQueue) (x : Z * nat) : ActivationQueue :=
  match q with
  | [] => [x]
  | y :: q' =>
      match Z.compare (fst x) (fst y) with
      | Lt => x :: q
      | Gt => y :: queue_insert q' x
      | Eq => match Nat.compare (snd x) (snd y) with Lt => x :: q | Gt => y :: queue_insert q' x | Eq => q end
      end
  end.

Definition add_if_could_be_eligible_for_activation (q : ActivationQueue) (i : nat) (v : Validator) (next_epoch : Z)
    : ActivationQueue :=
  if could_be_eligible_for_activation_at v next_epoch then queue_insert q (activation_eligibility_epoch v, i) else q.

(** The set of indices, of which only membership is used. *)
Definition get_validators_eligible_for_activation (q : ActivationQueue) (finalized_epoch : Z) (churn_limit : nat)
    : list nat :=
  take churn_limit (map snd (List.filter (fun x => fst x <=? finalized_epoch) q)).

(** * Progressive balances *)

(** [Balance]: a sum that reads as at least [minimum]. *)
Record Balance := mkBalance { bal_raw : Z; bal_minimum : Z }.

Definition Balance_zero (minimum : Z) : Balance := mkBalance 0 minimum.
Definition Balance_get (b : Balance) : Z := Z.max (bal_raw b) (bal_minimum b).
Definition Balance_add (b : Balance) (x : Z) : Result Balance EpochError :=
  let? r := safe_add (bal_raw b) x in Ok (mkBalance r (bal_minimum b)).
Definition Balance_sub (b : Balance) (x : Z) : Result Balance EpochError :=
  let? r := safe_sub (bal_raw b) x in Ok (mkBalance r (bal_minimum b)).

(** [EpochTotalBalances]: the balance that attested, per flag. *)
Definition EpochTotalBalances := list Balance.

Definition EpochTotalBalances_new : EpochTotalBalances :=
  repeat (Balance_zero (effective_balance_increment spec)) NUM_FLAG_INDICES.

Definition total_flag_balance (t : EpochTotalBalances) (flag : nat) : Result Z EpochError :=
  match t !! flag with Some b => Ok (Balance_get b) | None => Err (BeaconStateError "InvalidFlagIndex") end.

Definition update_flag (t : EpochTotalBalances) (flag : nat) (f : Balance -> Result Balance EpochError)
    : Result EpochTotalBalances EpochError :=
  match t !! flag with
  | Some b => let? b := f b in Ok (<[flag := b]> t)
  | None => Err (BeaconStateError "InvalidFlagIndex")
  end.

Definition on_new_attestation (t : EpochTotalBalances) (is_slashed : bool) (flag : nat) (b : Z)
    : Result EpochTotalBalances EpochError :=
  if is_slashed then Ok t else update_flag t flag (fun x => Balance_add x b).

(** For each flag of [bits] in turn. *)
Fixpoint for_flags (flags : list nat) (bits : Z) (t : EpochTotalBalances) (f : Balance -> Result Balance EpochError)
    : Result EpochTotalBalances EpochError :=
  match flags with
  | [] => Ok t
  | i :: flags =>
      let? has := has_flag bits i in
      let? t := (if has then update_flag t i f else Ok t) in
      for_flags flags bits t f
  end.

Definition on_slashing (t : EpochTotalBalances) (bits b : Z) : Result EpochTotalBalances EpochError :=
  for_flags (seq 0 NUM_FLAG_INDICES) bits t (fun x => Balance_sub x b).

Definition change_balance (old new : Z) (x : Balance) : Result Balance EpochError :=
  if old <? new then let? d := safe_sub new old in Balance_add x d
  else let? d := safe_sub old new in Balance_sub x d.

Definition total_on_effective_balance_change (t : EpochTotalBalances) (is_slashed : bool) (bits old new : Z)
    : Result EpochTotalBalances EpochError :=
  if is_slashed then Ok t else for_flags (seq 0 NUM_FLAG_INDICES) bits t (change_balance old new).

Record ProgressiveInner := mkProgressive {
  pb_current_epoch : Z;
  previous_epoch_cache : EpochTotalBalances;
  current_epoch_cache : EpochTotalBalances
}.
Definition ProgressiveBalancesCache := option ProgressiveInner.

Definition get_inner (c : ProgressiveBalancesCache) : Result ProgressiveInner EpochError :=
  match c with Some i => Ok i | None => Err (BeaconStateError "ProgressiveBalancesCacheNotInitialized") end.

Definition on_effective_balance_change (c : ProgressiveBalancesCache) (is_slashed : bool) (bits old new : Z)
    : Result ProgressiveBalancesCache EpochError :=
  let? i := get_inner c in
  let? t := total_on_effective_balance_change (current_epoch_cache i) is_slashed bits old new in
  Ok (Some (mkProgressive (pb_current_epoch i) (previous_epoch_cache i) t)).

Definition progressive_on_new_attestation (c : ProgressiveBalancesCache) (epoch : Z) (is_slashed : bool) (flag : nat)
    (b : Z) : Result ProgressiveBalancesCache EpochError :=
  let? i := get_inner c in
  if epoch =? pb_current_epoch i then
    let? t := on_new_attestation (current_epoch_cache i) is_slashed flag b in
    Ok (Some (mkProgressive (pb_current_epoch i) (previous_epoch_cache i) t))
  else
    let? next := safe_add epoch 1 in
    if next =? pb_current_epoch i then
      let? t := on_new_attestation (previous_epoch_cache i) is_slashed flag b in
      Ok (Some (mkProgressive (pb_current_epoch i) t (current_epoch_cache i)))
    else Err (BeaconStateError "ProgressiveBalancesCacheInconsistent").

Definition progressive_on_slashing (c : ProgressiveBalancesCache) (previous_bits current_bits b : Z)
    : Result ProgressiveBalancesCache EpochError :=
  let? i := get_inner c in
  let? p := on_slashing (previous_epoch_cache i) previous_bits b in
  let? t := on_slashing (current_epoch_cache i) current_bits b in
  Ok (Some (mkProgressive (pb_current_epoch i) p t)).

Definition on_epoch_transition (c : ProgressiveBalancesCache) : Result ProgressiveBalancesCache EpochError :=
  let? i := get_inner c in
  let? e := safe_add (pb_current_epoch i) 1 in
  Ok (Some (mkProgressive e (current_epoch_cache i) EpochTotalBalances_new)).

Definition previous_epoch_flag_attesting_balance (c : ProgressiveBalancesCache) (flag : nat) : Result Z EpochError :=
  let? i := get_inner c in total_flag_balance (previous_epoch_cache i) flag.

Definition current_epoch_flag_attesting_balance (c : ProgressiveBalancesCache) (flag : nat) : Result Z EpochError :=
  let? i := get_inner c in total_flag_balance (current_epoch_cache i) flag.

Definition update_flag_total_balances (t : EpochTotalBalances) (bits : Z) (v : Validator)
    : Result EpochTotalBalances EpochError :=
  for_flags (seq 0 (length t)) bits t (fun x => Balance_add x (effective_balance v)).

(** * The epoch cache *)

Record EpochCacheKey := mkKey { key_epoch : Z; key_decision_block_root : bytes }.

Record EpochCacheInner := mkEpochCache {
  ch_key : EpochCacheKey;
  ch_effective_balances : list Z;
  ch_base_rewards : list Z;
  ch_activation_queue : ActivationQueue;
  ch_increment : Z
}.
Definition EpochCache := option EpochCacheInner.

Definition cache_inner (c : EpochCache) : Result EpochCacheInner EpochError :=
  match c with Some i => Ok i | None => Err (EpochCacheError "CacheNotInitialized") end.

Definition check_validity (c : EpochCache) (current_epoch : Z) (root : bytes) : Result unit EpochError :=
  let? i := cache_inner c in
  if negb (key_epoch (ch_key i) =? current_epoch) then Err (EpochCacheError "IncorrectEpoch")
  else if bool_decide (key_decision_block_root (ch_key i) = root) then Ok tt
  else Err (EpochCacheError "IncorrectDecisionBlock").

Definition get_effective_balance (c : EpochCache) (index : nat) : Result Z EpochError :=
  let? i := cache_inner c in
  match ch_effective_balances i !! index with Some b => Ok b | None => Err (EpochCacheError "ValidatorIndexOutOfBounds") end.

Definition get_base_reward (c : EpochCache) (index : nat) : Result Z EpochError :=
  let? i := cache_inner c in
  let? b := get_effective_balance c index in
  let? eth := safe_div b (ch_increment i) in
  match ch_base_rewards i !! Z.to_nat eth with Some r => Ok r | None => Err (EpochCacheError "EffectiveBalanceOutOfBounds") end.

Definition activation_queue (c : EpochCache) : Result ActivationQueue EpochError :=
  let? i := cache_inner c in Ok (ch_activation_queue i).

(** [PreEpochCache]: the cache of the next epoch while it is built. *)
Record PreEpochCache := mkPre {
  pre_key : EpochCacheKey;
  pre_effective_balances : list Z;
  pre_total_active_balance : Z
}.

Definition update_effective_balance (c : PreEpochCache) (index : nat) (balance : Z) (active_next : bool)
    : Result PreEpochCache EpochError :=
  if Nat.eqb index (length (pre_effective_balances c)) then
    let? t := (if active_next then safe_add (pre_total_active_balance c) balance else Ok (pre_total_active_balance c)) in
    Ok (mkPre (pre_key c) (pre_effective_balances c ++ [balance]) t)
  else
    match pre_effective_balances c !! index with
    | Some existing =>
        let? t := (if active_next then
                     let? t := safe_add (pre_total_active_balance c) balance in safe_sub t existing
                   else Ok (pre_total_active_balance c)) in
        Ok (mkPre (pre_key c) (<[index := balance]> (pre_effective_balances c)) t)
    | None => Err (EpochCacheError "ValidatorIndexOutOfBounds")
    end.

(** common/altair.rs. *)
Definition get_base_reward_per_increment (total_active_balance : Z) : Result Z EpochError :=
  let? n := safe_mul (effective_balance_increment spec) (base_reward_factor spec) in
  safe_div n (Z.sqrt total_active_balance).

Definition altair_base_reward (balance per_increment : Z) : Result Z EpochError :=
  let? n := safe_div balance (effective_balance_increment spec) in safe_mul n per_increment.

(** common/base.rs. *)
Definition phase0_base_reward (balance sqrt_total : Z) : Result Z EpochError :=
  let? n := safe_mul balance (base_reward_factor spec) in
  let? n := safe_div n sqrt_total in
  safe_div n (base_rewards_per_epoch spec).

Fixpoint base_rewards (eths : list nat) (f : ForkName) (sqrt_total per_increment : Z) : Result (list Z) EpochError :=
  match eths with
  | [] => Ok []
  | eth :: eths =>
      let? b := safe_mul (Z.of_nat eth) (effective_balance_increment spec) in
      let? r := (match f with Base => phase0_base_reward b sqrt_total | _ => altair_base_reward b per_increment end) in
      let? rs := base_rewards eths f sqrt_total per_increment in
      Ok (r :: rs)
  end.

Definition into_epoch_cache (c : PreEpochCache) (q : ActivationQueue) : Result EpochCache EpochError :=
  let f := fork_name_at_epoch (key_epoch (pre_key c)) in
  let total := Z.max (pre_total_active_balance c) (effective_balance_increment spec) in
  let? per_increment := get_base_reward_per_increment total in
  let? max_eth := safe_div (max_effective_balance_for_fork f) (effective_balance_increment spec) in
  let? _ := safe_add max_eth 1 in
  let? rewards := base_rewards (seq 0 (S (Z.to_nat max_eth))) f (Z.sqrt total) per_increment in
  Ok (Some (mkEpochCache (pre_key c) (pre_effective_balances c) rewards q (effective_balance_increment spec))).

(** * Public keys *)

Record PubkeyCache := mkPubkeys { pk_len : nat; pk_map : gmap bytes nat }.

Definition pubkey_insert (c : PubkeyCache) (key : bytes) (index : nat) : option PubkeyCache :=
  if Nat.eqb index (pk_len c) then Some (mkPubkeys (S (pk_len c)) (<[key := index]> (pk_map c))) else None.

Definition pubkey_get (c : PubkeyCache) (key : bytes) : option nat := pk_map c !! key.

Fixpoint insert_pubkeys (c : PubkeyCache) (index : nat) (l : list Validator) : Result PubkeyCache EpochError :=
  match l with
  | [] => Ok c
  | v :: l =>
      match pubkey_insert c (pubkey v) index with
      | Some c => insert_pubkeys c (S index) l
      | None => Err (BeaconStateError "PubkeyCacheInconsistent")
      end
  end.

Definition update_pubkey_cache (c : PubkeyCache) (l : list Validator) : Result PubkeyCache EpochError :=
  if Nat.ltb (length l) (pk_len c) then Err (BeaconStateError "MilhouseError")
  else insert_pubkeys c (pk_len c) (drop (pk_len c) l).

End registry.

Lemma safe_sub_ok a b c : safe_sub a b = Ok c -> c = a - b /\ 0 <= c.
Proof. unfold safe_sub. destruct (Z.leb_spec b a); [|done]. intros [= <-]. lia. Qed.

Lemma safe_div_ok a b c : safe_div a b = Ok c -> c = a / b /\ b <> 0.
Proof. unfold safe_div. destruct (Z.eqb_spec b 0); [done|]. by intros [= <-]. Qed.
