(* ===== verification/SinglePass.v ===== *)
(** * The end of an epoch

    Epoch processing of the consensus client after Altair
    (src/ethereum-topostake/lighthouse/consensus/state_processing/src/per_epoch_processing/single_pass.rs):
    inactivity scores, rewards and penalties, registry updates, slashings, pending
    deposits, consolidations and effective balances, which the specification computes
    one after the other and the code in one pass over the validators, with the parts
    that need several validators before and after it.

    A failed transition leaves a state that its documentation calls invalid: an error
    has no state here.  The beacon state is the part that takes part.  The roots that
    key the epoch cache come from the tree hash, deposit signatures from the BLS
    library; the proposers and payload committees of an epoch, computed from further
    fields of the state, are parameters as well. *)

From S2P Require Export Registry.
Local Open Scope rust_scope.
Local Open Scope Z_scope.

(** * The state *)

Record PendingDeposit := mkDeposit {
  pd_pubkey : bytes;
  pd_withdrawal_credentials : bytes;
  pd_amount : Z;
  pd_signature : bytes;
  pd_slot : Z
}.

Record PendingConsolidation := mkConsolidation { source_index : nat; target_index : nat }.

Record BuilderPendingWithdrawal := mkBuilderWithdrawal { fee_recipient : bytes; bw_amount : Z; builder_index : Z }.
Record BuilderPendingPayment := mkBuilderPayment { bp_weight : Z; bp_withdrawal : BuilderPendingWithdrawal }.
Definition default_payment : BuilderPendingPayment :=
  mkBuilderPayment 0 (mkBuilderWithdrawal (repeat Byte.x00 20) 0 0).

(** The lists indexed by validator. *)
Record Validators := mkValidators {
  validators : list Validator;
  balances : list Z;
  inactivity_scores : list Z;
  previous_epoch_participation : list Z;
  current_epoch_participation : list Z;
  pubkey_cache : PubkeyCache
}.

Record ExitQueue := mkExitQueue {
  exit_cache : ExitCache;
  earliest_exit_epoch : Z;
  exit_balance_to_consume : Z
}.

Record DepositQueue := mkDepositQueue {
  pending_deposits : list PendingDeposit;
  deposit_balance_to_consume : Z;
  eth1_deposit_index : Z;
  deposit_requests_start_index : Z
}.

Record Caches := mkCaches {
  total_active_balance : option (Z * Z);
  epoch_cache : EpochCache;
  progressive_balances_cache : ProgressiveBalancesCache
}.

(** Fields of later forks: present in the record, read through [variant]. *)
Record LaterFields := mkLater {
  pending_consolidations : list PendingConsolidation;
  proposer_lookahead : list Z;
  builder_pending_payments : list BuilderPendingPayment;
  builder_pending_withdrawals : list BuilderPendingWithdrawal;
  ptc_window : list (list Z)
}.

Record EpochState := mkState {
  st_current_epoch : Z;
  st_fork : ForkName;
  st_finalized_checkpoint : Checkpoint;
  st_slashings : list Z;
  st_validators : Validators;
  st_exits : ExitQueue;
  st_deposits : DepositQueue;
  st_caches : Caches;
  st_later : LaterFields
}.

Definition with_validators (st : EpochState) (vs : Validators) : EpochState :=
  mkState (st_current_epoch st) (st_fork st) (st_finalized_checkpoint st) (st_slashings st) vs (st_exits st)
    (st_deposits st) (st_caches st) (st_later st).
Definition with_exits (st : EpochState) (x : ExitQueue) : EpochState :=
  mkState (st_current_epoch st) (st_fork st) (st_finalized_checkpoint st) (st_slashings st) (st_validators st) x
    (st_deposits st) (st_caches st) (st_later st).
Definition with_deposits (st : EpochState) (d : DepositQueue) : EpochState :=
  mkState (st_current_epoch st) (st_fork st) (st_finalized_checkpoint st) (st_slashings st) (st_validators st)
    (st_exits st) d (st_caches st) (st_later st).
Definition with_caches (st : EpochState) (c : Caches) : EpochState :=
  mkState (st_current_epoch st) (st_fork st) (st_finalized_checkpoint st) (st_slashings st) (st_validators st)
    (st_exits st) (st_deposits st) c (st_later st).
Definition with_later (st : EpochState) (l : LaterFields) : EpochState :=
  mkState (st_current_epoch st) (st_fork st) (st_finalized_checkpoint st) (st_slashings st) (st_validators st)
    (st_exits st) (st_deposits st) (st_caches st) l.

Definition with_finalized (st : EpochState) (c : Checkpoint) : EpochState :=
  mkState (st_current_epoch st) (st_fork st) c (st_slashings st) (st_validators st) (st_exits st) (st_deposits st)
    (st_caches st) (st_later st).
Definition with_slashings (st : EpochState) (l : list Z) : EpochState :=
  mkState (st_current_epoch st) (st_fork st) (st_finalized_checkpoint st) l (st_validators st) (st_exits st)
    (st_deposits st) (st_caches st) (st_later st).
Definition with_epoch (st : EpochState) (e : Z) : EpochState :=
  mkState e (st_fork st) (st_finalized_checkpoint st) (st_slashings st) (st_validators st) (st_exits st) (st_deposits st)
    (st_caches st) (st_later st).

Definition with_balances (vs : Validators) (bs : list Z) : Validators :=
  mkValidators (validators vs) bs (inactivity_scores vs) (previous_epoch_participation vs)
    (current_epoch_participation vs) (pubkey_cache vs).
Definition with_pubkey_cache (vs : Validators) (c : PubkeyCache) : Validators :=
  mkValidators (validators vs) (balances vs) (inactivity_scores vs) (previous_epoch_participation vs)
    (current_epoch_participation vs) c.

(** A field that only the states from some fork on have. *)
Definition variant (present : bool) : Result unit EpochError :=
  if present then Ok tt else Err (BeaconStateError "IncorrectStateVariant").

Definition unknown_validator : EpochError := BeaconStateError "UnknownValidator".

Record SinglePassConfig := mkConfig {
  c_inactivity_updates : bool;
  c_rewards_and_penalties : bool;
  c_registry_updates : bool;
  c_slashings : bool;
  c_pending_deposits : bool;
  c_pending_consolidations : bool;
  c_effective_balance_updates : bool;
  c_proposer_lookahead : bool;
  c_builder_pending_payments : bool;
  c_ptc_window : bool
}.

Definition enable_all : SinglePassConfig := mkConfig true true true true true true true true true true.
Definition disable_all : SinglePassConfig := mkConfig false false false false false false false false false false.

(** * The contexts *)

Record StateContext := mkStateContext {
  current_epoch : Z;
  next_epoch : Z;
  sc_finalized_checkpoint : Checkpoint;
  is_in_inactivity_leak : bool;
  sc_total_active_balance : Z;
  churn_limit : Z;
  fork_name : ForkName
}.

Record RewardsAndPenaltiesContext := mkRewardsContext {
  unslashed_participating_increments_array : list Z;
  active_increments : Z
}.

Record SlashingsContext := mkSlashingsContext {
  adjusted_total_slashing_balance : Z;
  target_withdrawable_epoch : Z;
  penalty_per_effective_balance_increment : Z
}.

Record PendingDepositsContext := mkDepositsContext {
  next_deposit_index : nat;
  dc_balance_to_consume : Z;
  validator_deposits_to_process : gmap nat Z;
  deposits_to_postpone : list PendingDeposit;
  new_validator_deposits : list PendingDeposit
}.

Record EffectiveBalancesContext := mkBalancesContext { downward_threshold : Z; upward_threshold : Z }.

Record ValidatorInfo := mkInfo {
  vi_index : nat;
  vi_effective_balance : Z;
  vi_base_reward : Z;
  is_eligible : bool;
  is_slashed : bool;
  is_active_current_epoch : bool;
  is_active_previous_epoch : bool;
  vi_previous_epoch_participation : Z;
  vi_current_epoch_participation : Z
}.

(** [Delta]. *)
Record Delta := mkDelta { rewards : Z; penalties : Z }.
Definition reward (d : Delta) (x : Z) : Result Delta EpochError :=
  let? r := safe_add (rewards d) x in Ok (mkDelta r (penalties d)).
Definition penalize (d : Delta) (x : Z) : Result Delta EpochError :=
  let? p := safe_add (penalties d) x in Ok (mkDelta (rewards d) p).

Section processing.
Context (spec : EpochSpec).

Definition is_unslashed_participating_index (info : ValidatorInfo) (flag : nat) : Result bool EpochError :=
  if is_active_previous_epoch info && negb (is_slashed info) then
    match has_flag (vi_previous_epoch_participation info) flag with
    | Ok b => Ok b
    | Err _ => Err (InvalidFlagIndex flag)
    end
  else Ok false.

(** ** Inactivity *)

Definition process_single_inactivity_update (score : Z) (info : ValidatorInfo) (ctx : StateContext)
    : Result Z EpochError :=
  if negb (is_eligible info) then Ok score else
  let? participated := is_unslashed_participating_index info TIMELY_TARGET_FLAG_INDEX in
  if participated && (score =? 0) then Ok score else
  let? score := (if participated then safe_sub score 1 else safe_add score (inactivity_score_bias spec)) in
  if is_in_inactivity_leak ctx then Ok score
  else safe_sub score (Z.min (inactivity_score_recovery_rate spec) score).

(** ** Rewards and penalties *)

Definition get_flag_weight (flag : nat) : Result Z EpochError :=
  match PARTICIPATION_FLAG_WEIGHTS !! flag with Some w => Ok w | None => Err (InvalidFlagIndex flag) end.

Definition get_unslashed_participating_increments (ctx : RewardsAndPenaltiesContext) (flag : nat)
    : Result Z EpochError :=
  match unslashed_participating_increments_array ctx !! flag with
  | Some n => Ok n
  | None => Err (InvalidFlagIndex flag)
  end.

Definition get_flag_index_delta (d : Delta) (info : ValidatorInfo) (flag : nat)
    (rctx : RewardsAndPenaltiesContext) (ctx : StateContext) : Result Delta EpochError :=
  let? weight := get_flag_weight flag in
  let? increments := get_unslashed_participating_increments rctx flag in
  let? participated := is_unslashed_participating_index info flag in
  if participated then
    if is_in_inactivity_leak ctx then Ok d
    else
      let? n := safe_mul (vi_base_reward info) weight in
      let? n := safe_mul n increments in
      let? m := safe_mul (active_increments rctx) WEIGHT_DENOMINATOR in
      let? r := safe_div n m in
      reward d r
  else if Nat.eqb flag TIMELY_HEAD_FLAG_INDEX then Ok d
  else
    let? n := safe_mul (vi_base_reward info) weight in
    let? p := safe_div n WEIGHT_DENOMINATOR in
    penalize d p.

Definition get_inactivity_penalty_delta (d : Delta) (info : ValidatorInfo) (score : Z) (ctx : StateContext)
    : Result Delta EpochError :=
  let? participated := is_unslashed_participating_index info TIMELY_TARGET_FLAG_INDEX in
  if participated then Ok d
  else
    let? n := safe_mul (vi_effective_balance info) score in
    let? m := safe_mul (inactivity_score_bias spec) (inactivity_penalty_quotient_for_fork spec (fork_name ctx)) in
    let? p := safe_div n m in
    penalize d p.

Fixpoint flag_deltas (flags : list nat) (d : Delta) (info : ValidatorInfo)
    (rctx : RewardsAndPenaltiesContext) (ctx : StateContext) : Result Delta EpochError :=
  match flags with
  | [] => Ok d
  | flag :: flags => let? d := get_flag_index_delta d info flag rctx ctx in flag_deltas flags d info rctx ctx
  end.

Definition process_single_reward_and_penalty (balance score : Z) (info : ValidatorInfo)
    (rctx : RewardsAndPenaltiesContext) (ctx : StateContext) : Result Z EpochError :=
  if negb (is_eligible info) then Ok balance else
  let? d := flag_deltas (seq 0 NUM_FLAG_INDICES) (mkDelta 0 0) info rctx ctx in
  let? d := get_inactivity_penalty_delta d info score ctx in
  if negb (rewards d =? 0) || negb (penalties d =? 0) then
    let? b := safe_add balance (rewards d) in Ok (u64_sat_sub b (penalties d))
  else Ok balance.

Fixpoint participating_increments (flags : list nat) (c : ProgressiveBalancesCache) : Result (list Z) EpochError :=
  match flags with
  | [] => Ok []
  | flag :: flags =>
      let? b := previous_epoch_flag_attesting_balance c flag in
      let? n := safe_div b (effective_balance_increment spec) in
      let? ns := participating_increments flags c in
      Ok (n :: ns)
  end.

Definition RewardsAndPenaltiesContext_new (c : ProgressiveBalancesCache) (ctx : StateContext)
    : Result RewardsAndPenaltiesContext EpochError :=
  let? increments := participating_increments (seq 0 NUM_FLAG_INDICES) c in
  let? active := safe_div (sc_total_active_balance ctx) (effective_balance_increment spec) in
  Ok (mkRewardsContext increments active).

(** ** Registry updates *)

(** What one validator's registry update leaves for the next ones: the exit queue, whose
    two balance fields exist from Electra on, and before it the queue of the next epoch. *)
Record RegistryShared := mkShared {
  rs_exit_cache : ExitCache;
  rs_earliest_exit_epoch : option Z;
  rs_exit_balance_to_consume : option Z;
  rs_next_queue : option ActivationQueue
}.

Definition ctx_balance_churn_limit (ctx : StateContext) : Result Z EpochError :=
  let quotient := if gloas_fork (fork_name ctx) then churn_limit_quotient_gloas spec else churn_limit_quotient spec in
  let? share := safe_div (sc_total_active_balance ctx) quotient in
  let churn := Z.max (min_per_epoch_churn_limit_electra spec) share in
  let? rest := safe_rem churn (effective_balance_increment spec) in
  safe_sub churn rest.

Definition ctx_activation_exit_churn_limit (ctx : StateContext) : Result Z EpochError :=
  let max_limit := if gloas_fork (fork_name ctx) then max_per_epoch_activation_churn_limit_gloas spec
                   else max_per_epoch_activation_exit_churn_limit spec in
  let? limit := ctx_balance_churn_limit ctx in
  Ok (Z.min max_limit limit).

(** The epoch, and the two fields after it. *)
Definition compute_exit_epoch_and_update_churn (v : Validator) (ctx : StateContext) (earliest to_consume : Z)
    : Result (Z * Z * Z) EpochError :=
  let exit_balance := effective_balance v in
  let? delayed := compute_activation_exit_epoch spec (current_epoch ctx) in
  let start := Z.max earliest delayed in
  let? churn := (if gloas_fork (fork_name ctx) then ctx_balance_churn_limit ctx else ctx_activation_exit_churn_limit ctx) in
  let available := if earliest <? start then churn else to_consume in
  let? (epoch, available) :=
    (if available <? exit_balance then
       let? missing := safe_sub exit_balance available in
       let? less := safe_sub missing 1 in
       let? epochs := safe_div less churn in
       let? epochs := safe_add epochs 1 in
       let? epoch := safe_add start epochs in
       let? more := safe_mul epochs churn in
       let? available := safe_add available more in
       Ok (epoch, available)
     else Ok (start, available)) in
  let? rest := safe_sub available exit_balance in
  Ok (epoch, epoch, rest).

Definition exit_queue_epoch_by_count (c : ExitCache) (ctx : StateContext) : Result Z EpochError :=
  let? delayed := compute_activation_exit_epoch spec (current_epoch ctx) in
  let? last := max_epoch c in
  let epoch := match last with Some e => Z.max e delayed | None => delayed end in
  let? churn := get_churn_at c epoch in
  if churn_limit ctx <=? churn then safe_add epoch 1 else Ok epoch.

Definition initiate_validator_exit (v : Validator) (sh : RegistryShared) (ctx : StateContext)
    : Result (Validator * RegistryShared) EpochError :=
  if negb (exit_epoch v =? far_future_epoch spec) then Ok (v, sh) else
  let? (epoch, earliest, to_consume) :=
    (if electra_enabled (fork_name ctx) then
       match rs_earliest_exit_epoch sh, rs_exit_balance_to_consume sh with
       | None, _ => Err MissingEarliestExitEpoch
       | _, None => Err MissingExitBalanceToConsume
       | Some e, Some b =>
           let? (epoch, e, b) := compute_exit_epoch_and_update_churn v ctx e b in Ok (epoch, Some e, Some b)
       end
     else
       let? epoch := exit_queue_epoch_by_count (rs_exit_cache sh) ctx in
       Ok (epoch, rs_earliest_exit_epoch sh, rs_exit_balance_to_consume sh)) in
  let? withdrawable := safe_add epoch (min_validator_withdrawability_delay spec) in
  let? cache := record_validator_exit (rs_exit_cache sh) epoch in
  Ok (with_exit v epoch withdrawable, mkShared cache earliest to_consume (rs_next_queue sh)).

Definition eject (v : Validator) (sh : RegistryShared) (ctx : StateContext)
    : Result (Validator * RegistryShared) EpochError :=
  if is_active_at v (current_epoch ctx) && (effective_balance v <=? ejection_balance spec)
  then initiate_validator_exit v sh ctx
  else Ok (v, sh).

Definition queue_for_activation (v : Validator) (ctx : StateContext) : Result Validator EpochError :=
  if is_eligible_for_activation_queue spec v (fork_name ctx)
  then let? e := safe_add (current_epoch ctx) 1 in Ok (with_eligibility v e)
  else Ok v.

Definition activate (v : Validator) (ctx : StateContext) : Result Validator EpochError :=
  let? e := compute_activation_exit_epoch spec (current_epoch ctx) in Ok (with_activation v e).

Definition process_single_registry_update_pre_electra (index : nat) (v : Validator) (sh : RegistryShared)
    (queue : list nat) (next_queue : ActivationQueue) (ctx : StateContext)
    : Result (Validator * RegistryShared) EpochError :=
  let? v := queue_for_activation v ctx in
  let? (v, sh) := eject v sh ctx in
  let? v := (if existsb (Nat.eqb index) queue then activate v ctx else Ok v) in
  let next := add_if_could_be_eligible_for_activation spec next_queue index v (next_epoch ctx) in
  Ok (v, mkShared (rs_exit_cache sh) (rs_earliest_exit_epoch sh) (rs_exit_balance_to_consume sh) (Some next)).

Definition process_single_registry_update_post_electra (v : Validator) (sh : RegistryShared) (ctx : StateContext)
    : Result (Validator * RegistryShared) EpochError :=
  let? v := queue_for_activation v ctx in
  let? (v, sh) := eject v sh ctx in
  let? v := (if is_eligible_for_activation_with_finalized_checkpoint spec v (sc_finalized_checkpoint ctx)
             then activate v ctx else Ok v) in
  Ok (v, sh).

(** [queue]: the validators to activate before Electra. *)
Definition process_single_registry_update (index : nat) (v : Validator) (sh : RegistryShared)
    (queue : option (list nat)) (ctx : StateContext) : Result (Validator * RegistryShared) EpochError :=
  if electra_enabled (fork_name ctx) then
    match rs_earliest_exit_epoch sh, rs_exit_balance_to_consume sh with
    | None, _ => Err MissingEarliestExitEpoch
    | _, None => Err MissingExitBalanceToConsume
    | Some _, Some _ => process_single_registry_update_post_electra v sh ctx
    end
  else
    match queue, rs_next_queue sh with
    | Some queue, Some next => process_single_registry_update_pre_electra index v sh queue next ctx
    | _, _ => Err SinglePassMissingActivationQueue
    end.

(** ** Slashings *)

Definition get_proportional_slashing_multiplier (f : ForkName) : Z :=
  if fork_ge f Bellatrix then proportional_slashing_multiplier_bellatrix spec
  else if fork_ge f Altair then proportional_slashing_multiplier_altair spec
  else proportional_slashing_multiplier spec.

Definition SlashingsContext_new (st : EpochState) (ctx : StateContext) : Result SlashingsContext EpochError :=
  let? sum := safe_sum (st_slashings st) 0 in
  let? adjusted := safe_mul sum (get_proportional_slashing_multiplier (st_fork st)) in
  let adjusted := Z.min adjusted (sc_total_active_balance ctx) in
  let? half := safe_div (epochs_per_slashings_vector spec) 2 in
  let? target := safe_add (current_epoch ctx) half in
  let? increments := safe_div (sc_total_active_balance ctx) (effective_balance_increment spec) in
  let? penalty := safe_div adjusted increments in
  Ok (mkSlashingsContext adjusted target penalty).

Definition slashing_penalty (v : Validator) (sctx : SlashingsContext) (ctx : StateContext) : Result Z EpochError :=
  let increment := effective_balance_increment spec in
  let? increments := safe_div (effective_balance v) increment in
  if electra_enabled (fork_name ctx) then safe_mul (penalty_per_effective_balance_increment sctx) increments
  else
    let? n := safe_mul increments (adjusted_total_slashing_balance sctx) in
    let? n := safe_div n (sc_total_active_balance ctx) in
    safe_mul n increment.

Definition process_single_slashing (balance : Z) (v : Validator) (sctx : SlashingsContext) (ctx : StateContext)
    : Result Z EpochError :=
  if slashed v && (target_withdrawable_epoch sctx =? withdrawable_epoch v) then
    let? p := slashing_penalty v sctx ctx in Ok (u64_sat_sub balance p)
  else Ok balance.

(** ** Pending deposits *)

Definition active_validator_count (st : EpochState) : nat :=
  length (List.filter (fun v => is_active_at v (st_current_epoch st)) (validators (st_validators st))).

Definition get_total_active_balance (st : EpochState) : Result Z EpochError :=
  match total_active_balance (st_caches st) with
  | None => Err (BeaconStateError "TotalActiveBalanceCacheUninitialized")
  | Some (epoch, b) =>
      if epoch =? st_current_epoch st then Ok b else Err (BeaconStateError "TotalActiveBalanceCacheInconsistent")
  end.

Definition get_balance_churn_limit (st : EpochState) : Result Z EpochError :=
  let? total := get_total_active_balance st in
  let quotient := if gloas_fork (st_fork st) then churn_limit_quotient_gloas spec else churn_limit_quotient spec in
  let? share := safe_div total quotient in
  let churn := Z.max (min_per_epoch_churn_limit_electra spec) share in
  let? rest := safe_rem churn (effective_balance_increment spec) in
  safe_sub churn rest.

Definition get_activation_exit_churn_limit (st : EpochState) : Result Z EpochError :=
  let max_limit := if gloas_fork (st_fork st) then max_per_epoch_activation_churn_limit_gloas spec
                   else max_per_epoch_activation_exit_churn_limit spec in
  let? limit := get_balance_churn_limit st in
  Ok (Z.min max_limit limit).

(** The loop variables of [PendingDepositsContext::new]. *)
Record DepositScan := mkScan {
  sn_processed : Z;
  sn_index : nat;
  sn_to_process : gmap nat Z;
  sn_postpone : list PendingDeposit;
  sn_new : list PendingDeposit;
  sn_limit_reached : bool
}.

Definition add_deposit (m : gmap nat Z) (i : nat) (amount : Z) : Result (gmap nat Z) EpochError :=
  let? b := safe_add (default 0 (m !! i)) amount in Ok (<[i := b]> m).

(** Whether the validator of a deposit is exited and withdrawn once registry updates are done. *)
Definition deposit_validator (st : EpochState) (conf : SinglePassConfig) (next_epoch : Z) (index : option nat)
    : Result (bool * bool) EpochError :=
  match index with
  | None => Ok (false, false)
  | Some i =>
      match validators (st_validators st) !! i with
      | None => Err unknown_validator
      | Some v =>
          let already_exited := exit_epoch v <? far_future_epoch spec in
          let will_be_exited := c_registry_updates conf
            && (is_active_at v (st_current_epoch st) && (effective_balance v <=? ejection_balance spec)) in
          Ok (already_exited || will_be_exited, withdrawable_epoch v <? next_epoch)
      end
  end.

Definition deposit_blocked (st : EpochState) (finalized_slot : Z) (d : PendingDeposit) (sn : DepositScan) : bool :=
  (negb (fulu_enabled (st_fork st)) && (genesis_slot spec <? pd_slot d)
     && (eth1_deposit_index (st_deposits st) <? deposit_requests_start_index (st_deposits st)))
  || (finalized_slot <? pd_slot d)
  || Nat.leb (max_pending_deposits_per_epoch spec) (sn_index sn).

Fixpoint scan_deposits (st : EpochState) (conf : SinglePassConfig) (next_epoch available finalized_slot : Z)
    (ds : list PendingDeposit) (sn : DepositScan) : Result DepositScan EpochError :=
  match ds with
  | [] => Ok sn
  | d :: ds =>
      if deposit_blocked st finalized_slot d sn then Ok sn else
      let index := pubkey_get (pubkey_cache (st_validators st)) (pd_pubkey d) in
      let? (exited, withdrawn) := deposit_validator st conf next_epoch index in
      let continue := scan_deposits st conf next_epoch available finalized_slot ds in
      if withdrawn then
        match index with
        | None => Err PendingDepositsLogicError
        | Some i =>
            let? m := add_deposit (sn_to_process sn) i (pd_amount d) in
            continue (mkScan (sn_processed sn) (S (sn_index sn)) m (sn_postpone sn) (sn_new sn) (sn_limit_reached sn))
        end
      else if exited then
        continue (mkScan (sn_processed sn) (S (sn_index sn)) (sn_to_process sn) (sn_postpone sn ++ [d]) (sn_new sn)
                    (sn_limit_reached sn))
      else
        let? processed := safe_add (sn_processed sn) (pd_amount d) in
        if available <? processed then
          Ok (mkScan (sn_processed sn) (sn_index sn) (sn_to_process sn) (sn_postpone sn) (sn_new sn) true)
        else
          match index with
          | Some i =>
              let? m := add_deposit (sn_to_process sn) i (pd_amount d) in
              continue (mkScan processed (S (sn_index sn)) m (sn_postpone sn) (sn_new sn) false)
          | None =>
              continue (mkScan processed (S (sn_index sn)) (sn_to_process sn) (sn_postpone sn) (sn_new sn ++ [d]) false)
          end
  end.

Definition PendingDepositsContext_new (st : EpochState) (conf : SinglePassConfig)
    : Result PendingDepositsContext EpochError :=
  let? _ := variant (electra_enabled (st_fork st)) in
  let? limit := get_activation_exit_churn_limit st in
  let? available := safe_add (deposit_balance_to_consume (st_deposits st)) limit in
  let? next := safe_add (st_current_epoch st) 1 in
  let finalized_slot := Z.min (cp_epoch (st_finalized_checkpoint st) * es_slots_per_epoch spec) U64_MAX in
  let? sn := scan_deposits st conf next available finalized_slot (pending_deposits (st_deposits st))
               (mkScan 0 0 ∅ [] [] false) in
  let? rest := (if sn_limit_reached sn then safe_sub available (sn_processed sn) else Ok 0) in
  Ok (mkDepositsContext (sn_index sn) rest (sn_to_process sn) (sn_postpone sn) (sn_new sn)).

Definition process_pending_deposits_for_validator (balance : Z) (index : nat) (dctx : PendingDepositsContext)
    : Result Z EpochError :=
  match validator_deposits_to_process dctx !! index with
  | Some amount => safe_add balance amount
  | None => Ok balance
  end.

(** ** Effective balances *)

Definition EffectiveBalancesContext_new : Result EffectiveBalancesContext EpochError :=
  let? h := safe_div (effective_balance_increment spec) (hysteresis_quotient spec) in
  let? down := safe_mul h (hysteresis_downward_multiplier spec) in
  let? up := safe_mul h (hysteresis_upward_multiplier spec) in
  Ok (mkBalancesContext down up).

Definition new_effective_balance (balance : Z) (v : Validator) (ectx : EffectiveBalancesContext) (ctx : StateContext)
    : Result Z EpochError :=
  let limit := get_max_effective_balance spec v (fork_name ctx) in
  let? low := safe_add balance (downward_threshold ectx) in
  let? change := (if low <? effective_balance v then Ok true
                  else let? high := safe_add (effective_balance v) (upward_threshold ectx) in Ok (high <? balance)) in
  if change then
    let? rest := safe_rem balance (effective_balance_increment spec) in
    let? whole := safe_sub balance rest in
    Ok (Z.min whole limit)
  else Ok (effective_balance v).

(** The two caches that effective balance updates feed. *)
Record BalanceShared := mkBalanceShared { bs_progressive : ProgressiveBalancesCache; bs_next : PreEpochCache }.

Definition process_single_effective_balance_update (index : nat) (balance : Z) (v : Validator) (flags : Z)
    (sh : BalanceShared) (ectx : EffectiveBalancesContext) (ctx : StateContext)
    : Result (Validator * BalanceShared) EpochError :=
  let old := effective_balance v in
  let? new := new_effective_balance balance v ectx ctx in
  let active_next := is_active_at v (next_epoch ctx) in
  let? (v, progressive) :=
    (if new =? old then Ok (v, bs_progressive sh)
     else let? p := on_effective_balance_change (bs_progressive sh) (slashed v) flags old new in
          Ok (with_effective_balance v new, p)) in
  let? next := update_effective_balance (bs_next sh) index new active_next in
  Ok (v, mkBalanceShared progressive next).

Definition process_single_dummy_effective_balance_update (index : nat) (v : Validator) (sh : BalanceShared)
    (ctx : StateContext) : Result BalanceShared EpochError :=
  let? next := update_effective_balance (bs_next sh) index (effective_balance v) (is_active_at v (next_epoch ctx)) in
  Ok (mkBalanceShared (bs_progressive sh) next).

(** ** One validator, and the pass *)

(** What the pass reads besides the validators. *)
Record PassContext := mkPass {
  ps_state : StateContext;
  ps_previous_epoch : Z;
  ps_rewards : RewardsAndPenaltiesContext;
  ps_slashings : SlashingsContext;
  ps_deposits : option PendingDepositsContext;
  ps_balances : EffectiveBalancesContext;
  ps_queue : option (list nat);
  ps_epoch_cache : EpochCache;
  ps_consolidating : list nat
}.

(** A validator's entries in the lists that the pass changes. *)
Record Row := mkRow { row_validator : Validator; row_balance : Z; row_score : Z }.

Record PassShared := mkPassShared { sh_registry : RegistryShared; sh_balances : BalanceShared }.

Definition validator_info (px : PassContext) (index : nat) (v : Validator) (previous_flags current_flags : Z)
    : Result ValidatorInfo EpochError :=
  let active_current := is_active_at v (current_epoch (ps_state px)) in
  let active_previous := is_active_at v (ps_previous_epoch px) in
  let? eligible :=
    (if active_previous then Ok true
     else if slashed v then let? e := safe_add (ps_previous_epoch px) 1 in Ok (e <? withdrawable_epoch v)
     else Ok false) in
  let? base_reward := (if eligible then get_base_reward (ps_epoch_cache px) index else Ok 0) in
  Ok (mkInfo index (effective_balance v) base_reward eligible (slashed v) active_current active_previous
        previous_flags current_flags).

Definition genesis_epoch : Z := 0.

Definition inactivity_stage (px : PassContext) (info : ValidatorInfo) (row : Row) : Result Row EpochError :=
  if current_epoch (ps_state px) =? genesis_epoch then Ok row
  else let? s := process_single_inactivity_update (row_score row) info (ps_state px) in
       Ok (mkRow (row_validator row) (row_balance row) s).

Definition rewards_stage (px : PassContext) (info : ValidatorInfo) (row : Row) : Result Row EpochError :=
  if current_epoch (ps_state px) =? genesis_epoch then Ok row
  else let? b := process_single_reward_and_penalty (row_balance row) (row_score row) info (ps_rewards px) (ps_state px) in
       Ok (mkRow (row_validator row) b (row_score row)).

Definition registry_stage (px : PassContext) (index : nat) (row : Row) (sh : RegistryShared)
    : Result (Row * RegistryShared) EpochError :=
  let? (v, sh) := process_single_registry_update index (row_validator row) sh (ps_queue px) (ps_state px) in
  Ok (mkRow v (row_balance row) (row_score row), sh).

Definition slashings_stage (px : PassContext) (row : Row) : Result Row EpochError :=
  let? b := process_single_slashing (row_balance row) (row_validator row) (ps_slashings px) (ps_state px) in
  Ok (mkRow (row_validator row) b (row_score row)).

Definition deposits_stage (px : PassContext) (index : nat) (row : Row) : Result Row EpochError :=
  match ps_deposits px with
  | None => Ok row
  | Some dctx =>
      let? b := process_pending_deposits_for_validator (row_balance row) index dctx in
      Ok (mkRow (row_validator row) b (row_score row))
  end.

Definition balances_stage (px : PassContext) (index : nat) (flags : Z) (row : Row) (sh : BalanceShared)
    : Result (Row * BalanceShared) EpochError :=
  if existsb (Nat.eqb index) (ps_consolidating px) then
    let? sh := process_single_dummy_effective_balance_update index (row_validator row) sh (ps_state px) in
    Ok (row, sh)
  else
    let? (v, sh) := process_single_effective_balance_update index (row_balance row) (row_validator row) flags sh
                      (ps_balances px) (ps_state px) in
    Ok (mkRow v (row_balance row) (row_score row), sh).

Definition process_validator (conf : SinglePassConfig) (px : PassContext) (index : nat)
    (previous_flags current_flags : Z) (row : Row) (sh : PassShared) : Result (Row * PassShared) EpochError :=
  let? info := validator_info px index (row_validator row) previous_flags current_flags in
  let? row := (if c_inactivity_updates conf then inactivity_stage px info row else Ok row) in
  let? row := (if c_rewards_and_penalties conf then rewards_stage px info row else Ok row) in
  let? (row, rs) := (if c_registry_updates conf then registry_stage px index row (sh_registry sh)
                     else Ok (row, sh_registry sh)) in
  let? row := (if c_slashings conf then slashings_stage px row else Ok row) in
  let? row := deposits_stage px index row in
  let? (row, bs) := (if c_effective_balance_updates conf then balances_stage px index current_flags row (sh_balances sh)
                     else Ok (row, sh_balances sh)) in
  Ok (row, mkPassShared rs bs).

(** The loop: it ends with the shortest of the validators and the two participation
    lists, and fails when a balance or a score is missing. *)
Fixpoint pass (conf : SinglePassConfig) (px : PassContext) (index : nat) (vs : list Validator) (bs scores : list Z)
    (previous current : list Z) (sh : PassShared) : Result (list Validator * list Z * list Z * PassShared) EpochError :=
  match vs, previous, current with
  | v :: vs, p :: previous, c :: current =>
      match bs, scores with
      | b :: bs, s :: scores =>
          let? (row, sh) := process_validator conf px index p c (mkRow v b s) sh in
          let? (vs, bs, scores, sh) := pass conf px (S index) vs bs scores previous current sh in
          Ok (row_validator row :: vs, row_balance row :: bs, row_score row :: scores, sh)
      | _, _ => Err unknown_validator
      end
  | _, _, _ => Ok (vs, bs, scores, sh)
  end.

End processing.
