(* ===== verification/EpochProcessing.v ===== *)
(** * The epoch transition around the pass

    [process_epoch_single_pass] of single_pass.rs: building the caches, the contexts,
    the pass of SinglePass.v, and then the parts that concern several validators:
    new validators, consolidations, builder payments, the caches of the next epoch,
    the proposer lookahead and the payload committees.  The functions that run one part
    of it on its own ([.._slow] in registry_updates.rs, slashings.rs and the like) are
    [process_epoch_single_pass] with the other parts disabled. *)

From S2P Require Export SinglePass.
Local Open Scope rust_scope.
Local Open Scope Z_scope.

(** What the transition takes from other code: the roots of the decision blocks, from
    the tree hash, and the signature check of a deposit; the proposers of an epoch and
    the payload committee of a slot. *)
Record EpochEnv := mkEnv {
  decision_block_root : bytes;
  next_decision_block_root : bytes;
  is_valid_deposit_signature : PendingDeposit -> bool;
  get_beacon_proposer_indices : EpochState -> Z -> Result (list Z) EpochError;
  compute_ptc : EpochState -> Z -> Result (list Z) EpochError
}.

Section transition.
Context (spec : EpochSpec) (env : EpochEnv).

(** ** The caches *)

Definition previous_epoch_of (current : Z) : Z := if 1 <=? current then current - 1 else current.

Fixpoint sum_active (vs : list Validator) (epoch acc : Z) : Result Z EpochError :=
  match vs with
  | [] => Ok acc
  | v :: vs =>
      if is_active_at v epoch then let? acc := safe_add acc (effective_balance v) in sum_active vs epoch acc
      else sum_active vs epoch acc
  end.

Definition compute_total_active_balance_slow (st : EpochState) : Result Z EpochError :=
  let? total := sum_active (validators (st_validators st)) (st_current_epoch st) 0 in
  Ok (Z.max total (effective_balance_increment spec)).

Definition set_total (st : EpochState) (epoch balance : Z) : EpochState :=
  with_caches st (mkCaches (Some (epoch, balance)) (epoch_cache (st_caches st)) (progressive_balances_cache (st_caches st))).

Definition build_total_active_balance_cache (st : EpochState) : Result EpochState EpochError :=
  match get_total_active_balance st with
  | Ok _ => Ok st
  | Err _ => let? total := compute_total_active_balance_slow st in Ok (set_total st (st_current_epoch st) total)
  end.

Definition set_total_active_balance (st : EpochState) (epoch balance : Z) : EpochState :=
  set_total st epoch (Z.max balance (effective_balance_increment spec)).

Definition set_epoch_cache (st : EpochState) (c : EpochCache) : EpochState :=
  with_caches st (mkCaches (total_active_balance (st_caches st)) c (progressive_balances_cache (st_caches st))).
Definition set_progressive (st : EpochState) (c : ProgressiveBalancesCache) : EpochState :=
  with_caches st (mkCaches (total_active_balance (st_caches st)) (epoch_cache (st_caches st)) c).

Fixpoint speculative_queue (q : ActivationQueue) (index : nat) (vs : list Validator) (next_epoch : Z) : ActivationQueue :=
  match vs with
  | [] => q
  | v :: vs =>
      speculative_queue (add_if_could_be_eligible_for_activation spec q index v next_epoch) (S index) vs next_epoch
  end.

Definition initialize_epoch_cache (st : EpochState) : Result EpochState EpochError :=
  if is_ok (check_validity (epoch_cache (st_caches st)) (st_current_epoch st) (decision_block_root env)) then Ok st else
  let? next := safe_add (st_current_epoch st) 1 in
  let? st := build_total_active_balance_cache st in
  let? total := get_total_active_balance st in
  let vs := validators (st_validators st) in
  let pre := mkPre (mkKey (st_current_epoch st) (decision_block_root env)) (map effective_balance vs) total in
  let? c := into_epoch_cache spec pre (speculative_queue [] 0 vs next) in
  Ok (set_epoch_cache st c).

Fixpoint progressive_totals (vs : list Validator) (current_flags previous_flags : list Z) (current previous : Z)
    (tc tp : EpochTotalBalances) : Result (EpochTotalBalances * EpochTotalBalances) EpochError :=
  match vs, current_flags, previous_flags with
  | v :: vs, c :: current_flags, p :: previous_flags =>
      if slashed v then progressive_totals vs current_flags previous_flags current previous tc tp
      else
        let? tc := (if is_active_at v current then update_flag_total_balances tc c v else Ok tc) in
        let? tp := (if is_active_at v previous then update_flag_total_balances tp p v else Ok tp) in
        progressive_totals vs current_flags previous_flags current previous tc tp
  | _, _, _ => Ok (tc, tp)
  end.

Definition initialize_progressive_balances_cache (st : EpochState) : Result EpochState EpochError :=
  if negb (fork_ge (st_fork st) Altair) then Ok st else
  match progressive_balances_cache (st_caches st) with
  | Some _ => Ok st
  | None =>
      let vs := st_validators st in
      let? (tc, tp) := progressive_totals (validators vs) (current_epoch_participation vs) (previous_epoch_participation vs)
                         (st_current_epoch st) (previous_epoch_of (st_current_epoch st))
                         (EpochTotalBalances_new spec) (EpochTotalBalances_new spec) in
      Ok (set_progressive st (Some (mkProgressive (st_current_epoch st) tp tc)))
  end.

Definition build_exit_cache (st : EpochState) : Result EpochState EpochError :=
  if ec_initialized (exit_cache (st_exits st)) then Ok st
  else
    let? c := ExitCache_new spec (validators (st_validators st)) in
    Ok (with_exits st (mkExitQueue c (earliest_exit_epoch (st_exits st)) (exit_balance_to_consume (st_exits st)))).

Definition build_pubkey_cache (st : EpochState) : Result EpochState EpochError :=
  let vs := st_validators st in
  let? c := update_pubkey_cache (pubkey_cache vs) (validators vs) in
  Ok (with_validators st (with_pubkey_cache vs c)).

(** The committee caches, built here as well, are left out: epoch processing reads the
    number of active validators from them, [active_validator_count]. *)
Definition build_caches (st : EpochState) : Result EpochState EpochError :=
  let? st := initialize_epoch_cache st in
  let? st := initialize_progressive_balances_cache st in
  let? st := build_exit_cache st in
  build_pubkey_cache st.

(** ** The contexts *)

Definition leak (st : EpochState) : Result bool EpochError :=
  let? d := safe_sub (previous_epoch_of (st_current_epoch st)) (cp_epoch (st_finalized_checkpoint st)) in
  Ok (min_epochs_to_inactivity_penalty spec <? d).

Definition get_validator_churn_limit (st : EpochState) : Result Z EpochError :=
  let? n := safe_div (Z.of_nat (active_validator_count st)) (churn_limit_quotient spec) in
  Ok (Z.max (min_per_epoch_churn_limit spec) n).

Definition get_activation_churn_limit (st : EpochState) : Result Z EpochError :=
  let? n := get_validator_churn_limit st in
  Ok (if fork_ge (st_fork st) Deneb then Z.min (max_per_epoch_activation_churn_limit spec) n else n).

Definition StateContext_of (st : EpochState) : Result StateContext EpochError :=
  let? next := safe_add (st_current_epoch st) 1 in
  let? leaking := leak st in
  let? total := get_total_active_balance st in
  let? churn := get_validator_churn_limit st in
  Ok (mkStateContext (st_current_epoch st) next (st_finalized_checkpoint st) leaking total churn (st_fork st)).

(** A [BTreeSet] of indices, in order. *)
Fixpoint nat_set_insert (s : list nat) (x : nat) : list nat :=
  match s with
  | [] => [x]
  | y :: s' => match Nat.compare x y with Lt => x :: s | Eq => s | Gt => y :: nat_set_insert s' x end
  end.

Definition get_validators_in_consolidations (st : EpochState) : list nat :=
  if electra_enabled (st_fork st) then
    fold_left (fun s p => nat_set_insert (nat_set_insert s (source_index p)) (target_index p))
      (pending_consolidations (st_later st)) []
  else [].

(** The contexts, the next epoch's cache and the queue of a pass. *)
Definition pass_start (conf : SinglePassConfig) (st : EpochState) : Result (PassContext * PassShared) EpochError :=
  let? ctx := StateContext_of st in
  let? activation_limit := get_activation_churn_limit st in
  let? sctx := SlashingsContext_new spec st ctx in
  let pre := mkPre (mkKey (next_epoch ctx) (next_decision_block_root env)) [] 0 in
  let? dctx := (if electra_enabled (st_fork st) && c_pending_deposits conf
                then let? d := PendingDepositsContext_new spec st conf in Ok (Some d) else Ok None) in
  let progressive := progressive_balances_cache (st_caches st) in
  let? rctx := RewardsAndPenaltiesContext_new spec progressive ctx in
  let? queue := (if electra_enabled (st_fork st) then Ok None
                 else let? q := activation_queue (epoch_cache (st_caches st)) in
                      Ok (Some (get_validators_eligible_for_activation q (cp_epoch (st_finalized_checkpoint st))
                                  (Z.to_nat activation_limit)))) in
  let? ectx := EffectiveBalancesContext_new spec in
  let exits := st_exits st in
  let electra {A} (a : A) := if electra_enabled (st_fork st) then Some a else None in
  let rs := mkShared (exit_cache exits) (electra (earliest_exit_epoch exits)) (electra (exit_balance_to_consume exits))
              (if electra_enabled (st_fork st) then None else Some []) in
  Ok (mkPass ctx (previous_epoch_of (st_current_epoch st)) rctx sctx dctx ectx queue (epoch_cache (st_caches st))
        (get_validators_in_consolidations st),
      mkPassShared rs (mkBalanceShared progressive pre)).

(** The pass on a state, with what it leaves for the steps after it. *)
Definition run_pass (conf : SinglePassConfig) (px : PassContext) (sh : PassShared) (st : EpochState)
    : Result (EpochState * PassShared) EpochError :=
  let vs := st_validators st in
  let? (l, bs, scores, sh) := pass spec conf px 0 (validators vs) (balances vs) (inactivity_scores vs)
                                (previous_epoch_participation vs) (current_epoch_participation vs) sh in
  let st := with_validators st (mkValidators l bs scores (previous_epoch_participation vs)
                                  (current_epoch_participation vs) (pubkey_cache vs)) in
  let rs := sh_registry sh in
  let st := with_exits st (mkExitQueue (rs_exit_cache rs) (earliest_exit_epoch (st_exits st))
                             (exit_balance_to_consume (st_exits st))) in
  Ok (set_progressive st (bs_progressive (sh_balances sh)), sh).

(** The two balance fields of the exit queue are written back after the pass. *)
Definition finish_exits (conf : SinglePassConfig) (rs : RegistryShared) (st : EpochState) : Result EpochState EpochError :=
  if c_registry_updates conf && electra_enabled (st_fork st) then
    match rs_earliest_exit_epoch rs, rs_exit_balance_to_consume rs with
    | None, _ => Err MissingEarliestExitEpoch
    | _, None => Err MissingExitBalanceToConsume
    | Some e, Some b => Ok (with_exits st (mkExitQueue (exit_cache (st_exits st)) e b))
    end
  else Ok st.

(** ** New validators *)

Definition add_validator_to_registry (st : EpochState) (d : PendingDeposit) : Result (EpochState * nat) EpochError :=
  let vs := st_validators st in
  let index := length (validators vs) in
  let v := from_deposit spec (pd_pubkey d) (pd_withdrawal_credentials d) (pd_amount d) (st_fork st) in
  let? cache := (if Nat.eqb (pk_len (pubkey_cache vs)) index then
                   match pubkey_insert (pubkey_cache vs) (pd_pubkey d) index with
                   | Some c => Ok c
                   | None => Err (BeaconStateError "PubkeyCacheInconsistent")
                   end
                 else Ok (pubkey_cache vs)) in
  Ok (with_validators st
        (mkValidators (validators vs ++ [v]) (balances vs ++ [pd_amount d]) (inactivity_scores vs ++ [0])
           (previous_epoch_participation vs ++ [0]) (current_epoch_participation vs ++ [0]) cache), index).

Definition change_balance_at (st : EpochState) (index : nat) (f : Z -> Result Z EpochError) : Result EpochState EpochError :=
  let vs := st_validators st in
  match balances vs !! index with
  | None => Err (BeaconStateError "BalancesOutOfBounds")
  | Some b => let? b := f b in Ok (with_validators st (with_balances vs (<[index := b]> (balances vs))))
  end.

(** The deposits of keys that had no validator; the added validators' indices. *)
Fixpoint apply_new_deposits (ds : list PendingDeposit) (st : EpochState) (added : list nat)
    : Result (EpochState * list nat) EpochError :=
  match ds with
  | [] => Ok (st, added)
  | d :: ds =>
      let? st := build_pubkey_cache st in
      match pubkey_get (pubkey_cache (st_validators st)) (pd_pubkey d) with
      | Some i =>
          let? st := change_balance_at st i (fun b => safe_add b (pd_amount d)) in
          apply_new_deposits ds st added
      | None =>
          if is_valid_deposit_signature env d then
            let? (st, i) := add_validator_to_registry st d in
            apply_new_deposits ds st (added ++ [i])
          else apply_new_deposits ds st added
      end
  end.

(** Effective balance updates of some validators, after the pass. *)
Fixpoint update_balances (indices : list nat) (ectx : EffectiveBalancesContext) (ctx : StateContext)
    (pre : PreEpochCache) (st : EpochState) : Result (PreEpochCache * EpochState) EpochError :=
  match indices with
  | [] => Ok (pre, st)
  | i :: indices =>
      let vs := st_validators st in
      match balances vs !! i, validators vs !! i, current_epoch_participation vs !! i with
      | Some b, Some v, Some flags =>
          let sh := mkBalanceShared (progressive_balances_cache (st_caches st)) pre in
          let? (v, sh) := process_single_effective_balance_update spec i b v flags sh ectx ctx in
          let st := with_validators st
                      (mkValidators (<[i := v]> (validators vs)) (balances vs) (inactivity_scores vs)
                         (previous_epoch_participation vs) (current_epoch_participation vs) (pubkey_cache vs)) in
          update_balances indices ectx ctx (bs_next sh) (set_progressive st (bs_progressive sh))
      | _, _, _ => Err unknown_validator
      end
  end.

Definition finish_deposits (conf : SinglePassConfig) (px : PassContext) (pre : PreEpochCache) (st : EpochState)
    : Result (PreEpochCache * EpochState) EpochError :=
  match ps_deposits px with
  | None => Ok (pre, st)
  | Some dctx =>
      let q := st_deposits st in
      let st := with_deposits st
                  (mkDepositQueue (drop (next_deposit_index dctx) (pending_deposits q) ++ deposits_to_postpone dctx)
                     (dc_balance_to_consume dctx) (eth1_deposit_index q) (deposit_requests_start_index q)) in
      let? (st, added) := apply_new_deposits (new_validator_deposits dctx) st [] in
      if c_effective_balance_updates conf then update_balances added (ps_balances px) (ps_state px) pre st
      else Ok (pre, st)
  end.

(** ** Consolidations *)

(** The consolidations that are due, in order; how many were taken off the queue. *)
Fixpoint consolidate (ps : list PendingConsolidation) (next_epoch : Z) (taken : nat) (st : EpochState)
    : Result (nat * EpochState) EpochError :=
  match ps with
  | [] => Ok (taken, st)
  | p :: ps =>
      match validators (st_validators st) !! source_index p with
      | None => Err unknown_validator
      | Some v =>
          if slashed v then consolidate ps next_epoch (S taken) st
          else if next_epoch <? withdrawable_epoch v then Ok (taken, st)
          else
            match balances (st_validators st) !! source_index p with
            | None => Err unknown_validator
            | Some b =>
                let moved := Z.min b (effective_balance v) in
                let? st := change_balance_at st (source_index p) (fun b => Ok (u64_sat_sub b moved)) in
                let? st := change_balance_at st (target_index p) (fun b => safe_add b moved) in
                consolidate ps next_epoch (S taken) st
            end
      end
  end.

Definition process_pending_consolidations (conf : SinglePassConfig) (px : PassContext) (pre : PreEpochCache)
    (st : EpochState) : Result (PreEpochCache * EpochState) EpochError :=
  let? next := safe_add (st_current_epoch st) 1 in
  let? (taken, st) := consolidate (pending_consolidations (st_later st)) next 0 st in
  let l := st_later st in
  let st := with_later st (mkLater (drop taken (pending_consolidations l)) (proposer_lookahead l)
                             (builder_pending_payments l) (builder_pending_withdrawals l) (ptc_window l)) in
  if c_effective_balance_updates conf then update_balances (ps_consolidating px) (ps_balances px) (ps_state px) pre st
  else Ok (pre, st).

(** ** Builder payments, lookahead and payload committees *)

Definition get_builder_payment_quorum_threshold (ctx : StateContext) : Result Z EpochError :=
  let? per_slot := safe_div (sc_total_active_balance ctx) (es_slots_per_epoch spec) in
  let? quorum := safe_mul per_slot (builder_payment_threshold_numerator spec) in
  safe_div quorum (builder_payment_threshold_denominator spec).

Definition process_builder_pending_payments (ctx : StateContext) (st : EpochState) : Result EpochState EpochError :=
  let? quorum := get_builder_payment_quorum_threshold ctx in
  let n := Z.to_nat (es_slots_per_epoch spec) in
  let l := st_later st in
  let payments := builder_pending_payments l in
  let due := map bp_withdrawal (List.filter (fun p => quorum <=? bp_weight p) (take n payments)) in
  Ok (with_later st (mkLater (pending_consolidations l) (proposer_lookahead l)
                       (drop n payments ++ repeat default_payment n)
                       (builder_pending_withdrawals l ++ due) (ptc_window l))).

Fixpoint fill_lookahead (lookahead : list Z) (index : nat) (proposers : list Z) : Result (list Z) EpochError :=
  match proposers with
  | [] => Ok lookahead
  | p :: proposers =>
      if Nat.ltb index (length lookahead) then fill_lookahead (<[index := p]> lookahead) (S index) proposers
      else Err (ProposerLookaheadOutOfBounds index)
  end.

Definition lookahead_epoch (st : EpochState) : Result Z EpochError :=
  let? e := safe_add (st_current_epoch st) (min_seed_lookahead spec) in safe_add e 1.

(** [copy_within(n.., 0)]: the entries from [n] on move to the front, the last [n] stay; the
    vector is never shorter than an epoch. *)
Definition copy_within_front (n : nat) (l : list Z) : list Z := drop n l ++ drop (length l - n) l.

Definition process_proposer_lookahead (st : EpochState) : Result EpochState EpochError :=
  let? _ := variant (fulu_enabled (st_fork st)) in
  let n := Z.to_nat (es_slots_per_epoch spec) in
  let l := st_later st in
  let lookahead := copy_within_front n (proposer_lookahead l) in
  let? epoch := lookahead_epoch st in
  let? proposers := get_beacon_proposer_indices env st epoch in
  let? start := safe_sub (proposer_lookahead_slots spec) (es_slots_per_epoch spec) in
  let? lookahead := fill_lookahead lookahead (Z.to_nat start) proposers in
  Ok (with_later st (mkLater (pending_consolidations l) lookahead (builder_pending_payments l)
                       (builder_pending_withdrawals l) (ptc_window l))).

Fixpoint new_committees (slots : list nat) (start_slot : Z) (st : EpochState) : Result (list (list Z)) EpochError :=
  match slots with
  | [] => Ok []
  | i :: slots =>
      let? slot := safe_add start_slot (Z.of_nat i) in
      let? ptc := compute_ptc env st slot in
      let? rest := new_committees slots start_slot st in
      Ok (ptc :: rest)
  end.

Definition process_ptc_window (st : EpochState) : Result EpochState EpochError :=
  let n := Z.to_nat (es_slots_per_epoch spec) in
  let l := st_later st in
  if Nat.ltb (length (ptc_window l)) n then Err (BeaconStateError "MilhouseError") else
  let? epoch := lookahead_epoch st in
  let start_slot := Z.min (epoch * es_slots_per_epoch spec) U64_MAX in
  let? added := new_committees (seq 0 n) start_slot st in
  Ok (with_later st (mkLater (pending_consolidations l) (proposer_lookahead l) (builder_pending_payments l)
                       (builder_pending_withdrawals l) (drop n (ptc_window l) ++ added))).

(** ** The transition *)

Definition install_caches (conf : SinglePassConfig) (ctx : StateContext) (rs : RegistryShared) (pre : PreEpochCache)
    (st : EpochState) : Result EpochState EpochError :=
  if c_effective_balance_updates conf then
    let st := set_total_active_balance st (next_epoch ctx) (pre_total_active_balance pre) in
    let? c := into_epoch_cache spec pre (default [] (rs_next_queue rs)) in
    Ok (set_epoch_cache st c)
  else Ok st.

(** From the pass to the installed caches, on a state whose caches are built. *)
Definition process_registry (conf : SinglePassConfig) (st : EpochState) : Result (PassContext * EpochState) EpochError :=
  let? (px, sh) := pass_start conf st in
  let? (st, sh) := run_pass conf px sh st in
  let? st := finish_exits conf (sh_registry sh) st in
  let? (pre, st) := finish_deposits conf px (bs_next (sh_balances sh)) st in
  let? (pre, st) := (if electra_enabled (st_fork st) && c_pending_consolidations conf
                     then process_pending_consolidations conf px pre st else Ok (pre, st)) in
  let? st := (if gloas_fork (st_fork st) && c_builder_pending_payments conf
              then process_builder_pending_payments (ps_state px) st else Ok st) in
  let? st := install_caches conf (ps_state px) (sh_registry sh) pre st in
  Ok (px, st).

Definition process_epoch_single_pass (conf : SinglePassConfig) (st : EpochState) : Result EpochState EpochError :=
  let? _ := variant (fork_ge (st_fork st) Altair) in
  let? st := build_caches st in
  let? (_, st) := process_registry conf st in
  let? st := (if c_proposer_lookahead conf && fulu_enabled (st_fork st) then process_proposer_lookahead st else Ok st) in
  if c_ptc_window conf && gloas_fork (st_fork st) then process_ptc_window st else Ok st.

(** ** The whole end of an epoch

    [altair::process_epoch].  Its resets of fields that are not part of [EpochState] (the
    votes on eth1 data, RANDAO mixes, historical roots, sync committees) are left out. *)

Definition process_justification (root : Z -> Result bytes EpochError) (fs : FinalityState) (st : EpochState)
    : Result JustificationAndFinalizationState EpochError :=
  let? first := safe_add genesis_epoch 1 in
  if st_current_epoch st <=? first then Ok (JF_new fs (mkVotes root 0 0 0))
  else
    let c := progressive_balances_cache (st_caches st) in
    let? previous := previous_epoch_flag_attesting_balance c TIMELY_TARGET_FLAG_INDEX in
    let? current := current_epoch_flag_attesting_balance c TIMELY_TARGET_FLAG_INDEX in
    let? total := get_total_active_balance st in
    weigh_justification_and_finalization (JF_new fs (mkVotes root total previous current)) total previous current.

(** [set_slashings(epoch, 0)] for the next epoch. *)
Definition process_slashings_reset (st : EpochState) : Result EpochState EpochError :=
  let? next := safe_add (st_current_epoch st) 1 in
  let? wrapped := safe_add next (epochs_per_slashings_vector spec) in
  if st_current_epoch st <? wrapped then
    let? i := safe_rem next (epochs_per_slashings_vector spec) in
    if Nat.ltb (Z.to_nat i) (length (st_slashings st))
    then Ok (with_slashings st (<[Z.to_nat i := 0]> (st_slashings st)))
    else Err (BeaconStateError "SlashingsOutOfBounds")
  else Err (BeaconStateError "EpochOutOfBounds").

Definition process_participation_flag_updates (st : EpochState) : EpochState :=
  let vs := st_validators st in
  with_validators st (mkValidators (validators vs) (balances vs) (inactivity_scores vs) (current_epoch_participation vs)
                        (repeat 0 (length (validators vs))) (pubkey_cache vs)).

Definition update_progressive_balances_on_epoch_transition (st : EpochState) : Result EpochState EpochError :=
  if fork_ge (st_fork st) Altair then
    let? c := on_epoch_transition spec (progressive_balances_cache (st_caches st)) in Ok (set_progressive st c)
  else Ok st.

(** The finality fields of the state are the record of Justification.v; the pass reads the
    checkpoint that was just finalized. *)
Definition process_epoch (root : Z -> Result bytes EpochError) (fs : FinalityState) (st : EpochState)
    : Result (FinalityState * EpochState) EpochError :=
  let? _ := variant (fork_ge (st_fork st) Altair) in
  let? st := build_total_active_balance_cache st in
  let? st := initialize_epoch_cache st in
  let? st := initialize_progressive_balances_cache st in
  let? jf := process_justification root fs st in
  let fs := apply_changes_to_state jf fs in
  let? st := process_epoch_single_pass enable_all (with_finalized st (finalized_checkpoint fs)) in
  let? st := process_slashings_reset st in
  let? st := update_progressive_balances_on_epoch_transition (process_participation_flag_updates st) in
  Ok (fs, st).

(** The first slot of the next epoch, when no fork starts there. *)
Definition enter_epoch (st : EpochState) : Result EpochState EpochError :=
  let? next := safe_add (st_current_epoch st) 1 in Ok (with_epoch st next).

End transition.

(** ** One part at a time

    [process_inactivity_updates_slow] and the like enable a single part. *)

Definition only_inactivity_updates := mkConfig true false false false false false false false false false.
Definition only_rewards_and_penalties := mkConfig false true false false false false false false false false.
Definition only_registry_updates := mkConfig false false true false false false false false false false.
Definition only_slashings := mkConfig false false false true false false false false false false.
Definition only_pending_deposits := mkConfig false false false false true false false false false false.
Definition only_pending_consolidations := mkConfig false false false false false true false false false false.
Definition only_effective_balance_updates := mkConfig false false false false false false true false false false.
Definition only_proposer_lookahead := mkConfig false false false false false false false true false false.
Definition only_builder_pending_payments := mkConfig false false false false false false false false true false.
Definition only_ptc_window := mkConfig false false false false false false false false false true.
