(* ===== verification/EpochStages.v ===== *)
(** * The epoch transition one part at a time

    The reference for the single pass: each part of the transition run on its own over
    all validators, in the order of the specification; what the per-validator steps
    leave unchanged; and that a pass with several parts enabled does to every validator
    what passes with one part each do one after the other. *)

From S2P Require Import EpochProcessing.
Local Open Scope rust_scope.
Local Open Scope Z_scope.

(** * Loops over rows with shared state *)

Section loops.
Context {R X : Type}.
Abbreviation step := (nat -> R -> X -> Result (R * X) EpochError).
Implicit Types f g : step.

Fixpoint loop f (i : nat) (rows : list R) (x : X) : Result (list R * X) EpochError :=
  match rows with
  | [] => Ok ([], x)
  | r :: rows =>
      let? (r, x) := f i r x in
      let? (rows, x) := loop f (S i) rows x in
      Ok (r :: rows, x)
  end.

Lemma loop_cons f i r rows x rows' x' :
  loop f i (r :: rows) x = Ok (rows', x') <->
  exists r1 x1 rest, f i r x = Ok (r1, x1) /\ loop f (S i) rows x1 = Ok (rest, x') /\ rows' = r1 :: rest.
Proof.
  cbn [loop]. split.
  - destruct (f i r x) as [[r1 x1]|] eqn:E; [|done]. destruct (loop f (S i) rows x1) as [[rest y]|] eqn:E2; [|done].
    intros [= <- <-]. naive_solver.
  - intros (r1 & x1 & rest & -> & -> & ->). done.
Qed.

Lemma loop_length f i rows x rows' x' : loop f i rows x = Ok (rows', x') -> length rows' = length rows.
Proof.
  revert i x rows'. induction rows as [|r rows IH]; intros i x rows'; [cbn; intros [= <- _]; done|].
  rewrite loop_cons. intros (r1 & x1 & rest & _ & H & ->). cbn. f_equal. by eapply IH.
Qed.

(** A step that only looks at its row. *)
Definition row_step f : Prop := forall i r x r' x', f i r x = Ok (r', x') -> x' = x /\ forall y, f i r y = Ok (r', y).

Definition then_step f g : step := fun i r x => let? (r, x) := f i r x in g i r x.

Lemma then_step_ok f g i r x r' x' :
  then_step f g i r x = Ok (r', x') <-> exists r1 x1, f i r x = Ok (r1, x1) /\ g i r1 x1 = Ok (r', x').
Proof.
  unfold then_step. split; [destruct (f i r x) as [[r1 x1]|]; naive_solver|].
  intros (r1 & x1 & -> & E). exact E.
Qed.

Lemma row_step_loop f i rows x rows' x' :
  row_step f -> loop f i rows x = Ok (rows', x') -> x' = x /\ forall y, loop f i rows y = Ok (rows', y).
Proof.
  intros H. revert i x rows'. induction rows as [|r rows IH]; intros i x rows'; [cbn; naive_solver|].
  rewrite loop_cons. intros (r1 & x1 & rest & E & L & ->). destruct (H _ _ _ _ _ E) as [-> E'].
  destruct (IH _ _ _ L) as [-> L']. split; [done|]. intros y. apply loop_cons. naive_solver.
Qed.

(** A loop over a step before, and over a step after, one that only looks at its row. *)
Lemma loop_split_first f g i rows x rows' x' :
  row_step f ->
  loop (then_step f g) i rows x = Ok (rows', x') <->
  exists rows1, loop f i rows x = Ok (rows1, x) /\ loop g i rows1 x = Ok (rows', x').
Proof.
  intros H. revert i x rows'. induction rows as [|r rows IH]; intros i x rows'.
  - cbn. split; [intros [= <- <-]; by exists []|]. intros (? & [= <-] & E). exact E.
  - rewrite loop_cons. split.
    + intros (r2 & x2 & rest & (r1 & x1 & E1 & E2)%then_step_ok & L & ->). destruct (H _ _ _ _ _ E1) as [-> E1'].
      apply IH in L as (rows1 & L1 & L2). destruct (row_step_loop _ _ _ _ _ _ H L1) as [_ L1'].
      exists (r1 :: rows1). split; apply loop_cons; naive_solver.
    + intros (rows1 & (r1 & x1 & rest1 & E1 & L1 & ->)%loop_cons & (r2 & x2 & rest2 & E2 & L2 & ->)%loop_cons).
      destruct (H _ _ _ _ _ E1) as [-> E1']. destruct (row_step_loop _ _ _ _ _ _ H L1) as [_ L1'].
      exists r2, x2, rest2. split; [apply then_step_ok; naive_solver|]. split; [|done]. apply IH. naive_solver.
Qed.

Lemma loop_split_last f g i rows x rows' x' :
  row_step g ->
  loop (then_step f g) i rows x = Ok (rows', x') <->
  exists rows1, loop f i rows x = Ok (rows1, x') /\ loop g i rows1 x' = Ok (rows', x').
Proof.
  intros H. revert i x rows'. induction rows as [|r rows IH]; intros i x rows'.
  - cbn. split; [intros [= <- <-]; by exists []|]. intros (? & [= <- <-] & E). exact E.
  - rewrite loop_cons. split.
    + intros (r2 & x2 & rest & (r1 & x1 & E1 & E2)%then_step_ok & L & ->). destruct (H _ _ _ _ _ E2) as [-> E2'].
      apply IH in L as (rows1 & L1 & L2). exists (r1 :: rows1). split; apply loop_cons; naive_solver.
    + intros (rows1 & (r1 & x1 & rest1 & E1 & L1 & ->)%loop_cons & (r2 & x2 & rest2 & E2 & L2 & ->)%loop_cons).
      destruct (H _ _ _ _ _ E2) as [-> E2']. exists r2, x1, rest2.
      split; [apply then_step_ok; naive_solver|]. split; [|done]. apply IH. naive_solver.
Qed.

Lemma row_step_then f g : row_step f -> row_step g -> row_step (then_step f g).
Proof.
  intros Hf Hg i r x r' x' (r1 & x1 & E1 & E2)%then_step_ok.
  destruct (Hf _ _ _ _ _ E1) as [-> E1']. destruct (Hg _ _ _ _ _ E2) as [-> E2'].
  split; [done|]. intros y. apply then_step_ok. naive_solver.
Qed.

(** Steps that agree on the rows of a loop. *)
Lemma loop_ext f g (P : nat -> R -> Prop) i rows x rows' x' :
  (forall j r y r' y', P j r -> f j r y = Ok (r', y') <-> g j r y = Ok (r', y')) ->
  (forall k r, rows !! k = Some r -> P (i + k)%nat r) ->
  loop f i rows x = Ok (rows', x') <-> loop g i rows x = Ok (rows', x').
Proof.
  intros H. revert i x rows'. induction rows as [|r rows IH]; intros i x rows' HP; [done|].
  rewrite !loop_cons. assert (P i r) as Hr by (rewrite <-(Nat.add_0_r i); by apply HP).
  assert (forall k s, rows !! k = Some s -> P (S i + k)%nat s) as HP'
    by (intros k s E; replace (S i + k)%nat with (i + S k)%nat by lia; by apply HP).
  split; intros (r1 & x1 & rest & E & L & ->); exists r1, x1, rest; (split; [by apply (H _ _ _ _ _ Hr)|]; split; [|done]);
    by apply (IH (S i) x1 rest HP').
Qed.

(** What holds of every row's result. *)
Lemma loop_lookup f i rows x rows' x' k r' :
  loop f i rows x = Ok (rows', x') -> rows' !! k = Some r' ->
  exists r y y', rows !! k = Some r /\ f (i + k)%nat r y = Ok (r', y').
Proof.
  revert i x rows' k. induction rows as [|r rows IH]; intros i x rows' k; [cbn; intros [= <- _]; done|].
  rewrite loop_cons. intros (r1 & x1 & rest & E & L & ->). destruct k as [|k]; cbn.
  - intros [= ->]. exists r, x, x1. by rewrite Nat.add_0_r.
  - intros Hk. destruct (IH _ _ _ _ L Hk) as (s & y & y' & Hs & Hf). exists s, y, y'.
    by replace (i + S k)%nat with (S i + k)%nat by lia.
Qed.

End loops.

(** * One validator *)

(** Opening a chain of checked calls that succeeded. *)
Ltac unchain H :=
  repeat match type of H with
  | match ?r with Ok _ => _ | Err _ => _ end = Ok _ =>
      let E := fresh "E" in destruct r as [?|] eqn:E in H; [cbn beta iota in H|discriminate H]
  | (let (_, _) := ?p in _) = Ok _ => destruct p; cbn beta iota in H
  end.

Section row.
Context (spec : EpochSpec).

(** The parameters of every network. *)
Record spec_ok : Prop := {
  sp_far : far_future_epoch spec = U64_MAX;
  sp_lookahead : 0 <= max_seed_lookahead spec;
  sp_delay : 1 <= min_validator_withdrawability_delay spec;
  sp_limit : 0 <= max_per_epoch_activation_exit_churn_limit spec;
  sp_limit_gloas : 0 <= max_per_epoch_activation_churn_limit_gloas spec
}.

(** A validator that has not initiated its exit cannot be withdrawn. *)
Record validator_ok (v : Validator) : Prop := {
  vo_exit : exit_epoch v <= U64_MAX;
  vo_withdrawable : exit_epoch v = far_future_epoch spec -> withdrawable_epoch v = far_future_epoch spec
}.

Context (SP : spec_ok).

Lemma delayed_epoch e d :
  compute_activation_exit_epoch spec e = Ok d -> d = e + 1 + max_seed_lookahead spec /\ e + 1 <= d <= U64_MAX.
Proof.
  unfold compute_activation_exit_epoch. intros H. unchain H. apply safe_add_ok in E as [-> _], H as [-> ?].
  pose proof (sp_lookahead SP). lia.
Qed.

Lemma ctx_balance_churn_nonneg ctx c : ctx_balance_churn_limit spec ctx = Ok c -> 0 <= c.
Proof. unfold ctx_balance_churn_limit. intros H. unchain H. by apply safe_sub_ok in H as [_ ?]. Qed.

Lemma ctx_churn_nonneg ctx c :
  (if gloas_fork (fork_name ctx) then ctx_balance_churn_limit spec ctx else ctx_activation_exit_churn_limit spec ctx) = Ok c ->
  0 <= c.
Proof.
  destruct (gloas_fork (fork_name ctx)) eqn:G; [apply ctx_balance_churn_nonneg|].
  unfold ctx_activation_exit_churn_limit. rewrite G. intros H. unchain H. injection H as <-.
  apply ctx_balance_churn_nonneg in E. pose proof (sp_limit SP). lia.
Qed.

(** The queue of exits by balance: the state of the queue and the balance still available
    at its epoch account for the exit. *)
Lemma exit_by_balance v ctx earliest to_consume epoch e b :
  compute_exit_epoch_and_update_churn spec v ctx earliest to_consume = Ok (epoch, e, b) ->
  exists delayed churn,
    compute_activation_exit_epoch spec (current_epoch ctx) = Ok delayed
    /\ (if gloas_fork (fork_name ctx) then ctx_balance_churn_limit spec ctx
        else ctx_activation_exit_churn_limit spec ctx) = Ok churn
    /\ e = epoch /\ 0 <= b /\ 0 <= churn
    /\ Z.max earliest delayed <= epoch
    /\ (if earliest <? Z.max earliest delayed then churn else to_consume) + (epoch - Z.max earliest delayed) * churn
       = b + effective_balance v.
Proof.
  unfold compute_exit_epoch_and_update_churn. intros H. unchain H. injection H as <- <- <-.
  rename a into delayed, a0 into churn, a1 into rest. pose proof (ctx_churn_nonneg _ _ E0) as Hc.
  exists delayed, churn. do 3 (split; [done|]).
  apply safe_sub_ok in E2 as [-> Hb]. split; [done|]. split; [done|].
  destruct (Z.ltb_spec (if earliest <? Z.max earliest delayed then churn else to_consume) (effective_balance v)).
  - unchain E1. injection E1 as <- <-.
    apply safe_sub_ok in E2 as [-> _], E3 as [-> ?]. apply safe_div_ok in E4 as [-> Hz].
    apply safe_add_ok in E5 as [-> _], E6 as [-> _], E8 as [-> _]. apply safe_mul_ok in E7 as [-> _].
    match goal with |- context [?x / churn] => assert (0 <= x / churn) by (apply Z.div_pos; lia) end. split; [lia|].
    nia.
  - injection E1 as <- <-. split; lia.
Qed.

(** What initiating an exit does to the validator. *)
Lemma initiate_exit_validator v sh ctx v' sh' :
  0 <= current_epoch ctx -> initiate_validator_exit spec v sh ctx = Ok (v', sh') ->
  (exit_epoch v <> far_future_epoch spec /\ v' = v /\ sh' = sh)
  \/ (exit_epoch v = far_future_epoch spec
      /\ exists e, v' = with_exit v e (e + min_validator_withdrawability_delay spec)
           /\ current_epoch ctx + 1 <= e < far_future_epoch spec).
Proof.
  intros H0. unfold initiate_validator_exit. destruct (Z.eqb_spec (exit_epoch v) (far_future_epoch spec)) as [Hf|Hf]; cbn [negb];
    [|intros [= <- <-]; by left].
  intros H. right. split; [done|].
  assert (forall e w, safe_add e (min_validator_withdrawability_delay spec) = Ok w ->
            w = e + min_validator_withdrawability_delay spec /\ e < far_future_epoch spec) as Hw.
  { intros e w [-> ?]%safe_add_ok. pose proof (sp_delay SP). rewrite (sp_far SP). lia. }
  unchain H. injection H as <- <-. apply Hw in E0 as [-> Hlt]. eexists. split; [done|]. split; [|done].
  destruct (electra_enabled (fork_name ctx)).
  - destruct (rs_earliest_exit_epoch sh) as [e|], (rs_exit_balance_to_consume sh) as [b|]; try done.
    unchain E. injection E as <- <- <-. apply exit_by_balance in E0 as (delayed & churn & Hd & _ & _ & _ & _ & Hm & _).
    apply delayed_epoch in Hd. lia.
  - unchain E. injection E as <- <- <-. unfold exit_queue_epoch_by_count in E0. unchain E0.
    apply delayed_epoch in E.
    match type of E0 with (if _ <=? _ then safe_add ?x 1 else _) = _ => assert (current_epoch ctx + 1 <= x) by (destruct a2; lia) end.
    destruct (churn_limit ctx <=? _); [apply safe_add_ok in E0 as [-> _]|injection E0 as <-]; lia.
Qed.

(** What a registry update at the end of epoch [c] keeps of a validator. *)
Record kept (c : Z) (v v' : Validator) : Prop := {
  kept_pubkey : pubkey v' = pubkey v;
  kept_credentials : withdrawal_credentials v' = withdrawal_credentials v;
  kept_balance : effective_balance v' = effective_balance v;
  kept_slashed : slashed v' = slashed v;
  kept_active e : e <= c -> is_active_at v' e = is_active_at v e;
  kept_later e : e <= c + 1 -> (e <? withdrawable_epoch v') = (e <? withdrawable_epoch v);
  kept_withdrawn e : e <= c + 1 -> (withdrawable_epoch v' <? e) = (withdrawable_epoch v <? e)
}.

Lemma kept_refl c v : kept c v v.
Proof. by split. Qed.
Lemma kept_trans c v1 v2 v3 : kept c v1 v2 -> kept c v2 v3 -> kept c v1 v3.
Proof.
  intros H1 H2. split; intros; (etransitivity; [by apply H2|by apply H1]).
Qed.

Lemma kept_eligibility c v e : kept c v (with_eligibility v e).
Proof. by split. Qed.

Lemma kept_activation c v d :
  activation_epoch v = far_future_epoch spec -> c + 1 <= d <= U64_MAX -> kept c v (with_activation v d).
Proof.
  intros Hf Hd. split; try done. intros e He. unfold is_active_at. cbn. rewrite Hf, (sp_far SP).
  destruct (Z.leb_spec d e), (Z.leb_spec U64_MAX e); try done; lia.
Qed.

Lemma kept_exit c v e :
  validator_ok v -> exit_epoch v = far_future_epoch spec -> c + 1 <= e < far_future_epoch spec ->
  kept c v (with_exit v e (e + min_validator_withdrawability_delay spec)).
Proof.
  intros Hv Hf He. pose proof (sp_delay SP). pose proof (vo_withdrawable _ Hv Hf) as Hw.
  split; try done; intros x Hx; unfold is_active_at; cbn; rewrite ?Hw, ?Hf.
  - f_equal. rewrite <-Hf in *. destruct (Z.ltb_spec x e), (Z.ltb_spec x (exit_epoch v)); lia.
  - destruct (Z.ltb_spec x (e + min_validator_withdrawability_delay spec)), (Z.ltb_spec x (far_future_epoch spec)); lia.
  - destruct (Z.ltb_spec (e + min_validator_withdrawability_delay spec) x), (Z.ltb_spec (far_future_epoch spec) x); lia.
Qed.

Definition ejectable (v : Validator) (c : Z) : bool := is_active_at v c && (effective_balance v <=? ejection_balance spec).
Definition exiting (v : Validator) : bool := exit_epoch v <? far_future_epoch spec.

Lemma eject_validator v sh ctx v' sh' :
  0 <= current_epoch ctx -> validator_ok v -> eject spec v sh ctx = Ok (v', sh') ->
  kept (current_epoch ctx) v v' /\ validator_ok v' /\ activation_epoch v' = activation_epoch v
  /\ exiting v' = exiting v || ejectable v (current_epoch ctx).
Proof.
  intros H0 Hv. unfold eject, ejectable, exiting.
  destruct (is_active_at v (current_epoch ctx) && (effective_balance v <=? ejection_balance spec)).
  - intros [(Hf & -> & ->)|(Hf & e & -> & He)]%initiate_exit_validator; [| |done].
    + split; [apply kept_refl|]. do 2 (split; [done|]). rewrite orb_true_r. apply Z.ltb_lt.
      pose proof (vo_exit _ Hv). rewrite (sp_far SP) in *. lia.
    + split; [by apply kept_exit|]. split; [split; cbn; [rewrite (sp_far SP) in *; lia|lia]|]. split; [done|].
      rewrite orb_true_r. apply Z.ltb_lt. cbn. lia.
  - intros [= <- <-]. split; [apply kept_refl|]. by rewrite orb_false_r.
Qed.

Lemma registry_validator index v sh queue ctx v' sh' :
  0 <= current_epoch ctx -> validator_ok v ->
  (forall q, queue = Some q -> index ∈ q -> activation_epoch v = far_future_epoch spec) ->
  process_single_registry_update spec index v sh queue ctx = Ok (v', sh') ->
  kept (current_epoch ctx) v v' /\ validator_ok v'
  /\ exiting v' = exiting v || ejectable v (current_epoch ctx).
Proof.
  intros H0 Hv HQ H.
  assert (forall v1, queue_for_activation spec v ctx = Ok v1 ->
            kept (current_epoch ctx) v v1 /\ validator_ok v1 /\ activation_epoch v1 = activation_epoch v
            /\ exiting v1 = exiting v /\ ejectable v1 (current_epoch ctx) = ejectable v (current_epoch ctx)) as HA.
  { intros v1. unfold queue_for_activation. destruct (is_eligible_for_activation_queue _ _ _).
    - intros H1. unchain H1. injection H1 as <-. split; [apply kept_eligibility|]. split; [by destruct Hv|done].
    - intros [= <-]. split; [apply kept_refl|done]. }
  assert (forall v2 v3, activation_epoch v2 = far_future_epoch spec -> validator_ok v2 -> activate spec v2 ctx = Ok v3 ->
            kept (current_epoch ctx) v2 v3 /\ validator_ok v3 /\ exiting v3 = exiting v2) as HB.
  { intros v2 v3 Hf Hv2 H1. unfold activate in H1. unchain H1. injection H1 as <-. apply delayed_epoch in E.
    split; [apply kept_activation; [done|lia]|]. split; [by destruct Hv2|done]. }
  unfold process_single_registry_update in H. destruct (electra_enabled (fork_name ctx)).
  - destruct (rs_earliest_exit_epoch sh), (rs_exit_balance_to_consume sh); try done.
    unfold process_single_registry_update_post_electra in H. unchain H. injection H as <- <-.
    apply HA in E as (K1 & V1 & A1 & X1 & J1). apply eject_validator in E0 as (K2 & V2 & A2 & X2); [|done..].
    rewrite X1, J1 in X2. destruct (is_eligible_for_activation_with_finalized_checkpoint _ _ _) eqn:Ea.
    + apply HB in E1 as (K3 & V3 & X3); [|unfold is_eligible_for_activation_with_finalized_checkpoint in Ea; lia|done].
      split; [eauto using kept_trans|]. by rewrite X3.
    + injection E1 as <-. eauto using kept_trans.
  - destruct queue as [q|], (rs_next_queue sh) as [nq|]; try done.
    unfold process_single_registry_update_pre_electra in H. unchain H. injection H as <- <-.
    apply HA in E as (K1 & V1 & A1 & X1 & J1). apply eject_validator in E0 as (K2 & V2 & A2 & X2); [|done..].
    rewrite X1, J1 in X2. destruct (existsb (Nat.eqb index) q) eqn:Ea.
    + apply existsb_exists in Ea as (i & Hi & <-%Nat.eqb_eq). apply list_elem_of_In in Hi.
      apply HB in E1 as (K3 & V3 & X3); [|rewrite A2, A1; by eapply HQ|done].
      split; [eauto using kept_trans|]. by rewrite X3.
    + injection E1 as <-. eauto using kept_trans.
Qed.
End row.

(** * Splitting the pass into its parts *)

(** Everything but effective balances and the caches that go with them. *)
Definition all_but_effective_balances := mkConfig true true true true true true false true true true.

(** A validator's row with its participation. *)
Record Entry := mkEntry { e_row : Row; e_previous : Z; e_current : Z }.
Definition e_validator (e : Entry) : Validator := row_validator (e_row e).

Section split.
Context (spec : EpochSpec) (SP : spec_ok spec).
Implicit Types (px : PassContext) (row : Row) (sh : PassShared).

Definition entry_step conf px (i : nat) (e : Entry) sh : Result (Entry * PassShared) EpochError :=
  let? (row, sh) := process_validator spec conf px i (e_previous e) (e_current e) (e_row e) sh in
  Ok (mkEntry row (e_previous e) (e_current e), sh).

Lemma entry_step_ok conf px i e sh e' sh' :
  entry_step conf px i e sh = Ok (e', sh') <->
  process_validator spec conf px i (e_previous e) (e_current e) (e_row e) sh = Ok (e_row e', sh')
  /\ e_previous e' = e_previous e /\ e_current e' = e_current e.
Proof.
  unfold entry_step. split.
  - intros H. unchain H. by injection H as <- <-.
  - destruct e' as [r p c]. cbn. intros (-> & -> & ->). done.
Qed.

Definition when {A} (b : bool) (r : Result A EpochError) (d : A) : Result A EpochError := if b then r else Ok d.

Lemma process_validator_ok conf px i p c row sh row' sh' :
  process_validator spec conf px i p c row sh = Ok (row', sh') <->
  exists info r1 r2 r3 rs r4 r5 bs,
    validator_info px i (row_validator row) p c = Ok info
    /\ when (c_inactivity_updates conf) (inactivity_stage spec px info row) row = Ok r1
    /\ when (c_rewards_and_penalties conf) (rewards_stage spec px info r1) r1 = Ok r2
    /\ when (c_registry_updates conf) (registry_stage spec px i r2 (sh_registry sh)) (r2, sh_registry sh) = Ok (r3, rs)
    /\ when (c_slashings conf) (slashings_stage spec px r3) r3 = Ok r4
    /\ deposits_stage px i r4 = Ok r5
    /\ when (c_effective_balance_updates conf) (balances_stage spec px i c r5 (sh_balances sh)) (r5, sh_balances sh)
       = Ok (row', bs)
    /\ sh' = mkPassShared rs bs.
Proof.
  unfold process_validator, when. split.
  - intros H. unchain H. injection H as <- <-. by repeat eexists.
  - intros (info & r1 & r2 & r3 & rs & r4 & r5 & bs & -> & -> & -> & -> & -> & -> & -> & ->). done.
Qed.

(** * What the parts keep *)

Lemma inactivity_keeps px info row row' : inactivity_stage spec px info row = Ok row' -> row_validator row' = row_validator row.
Proof. unfold inactivity_stage. case_match; [by intros [= <-]|]. intros Hr. unchain Hr. by injection Hr as <-. Qed.
Lemma rewards_keeps px info row row' : rewards_stage spec px info row = Ok row' -> row_validator row' = row_validator row.
Proof. unfold rewards_stage. case_match; [by intros [= <-]|]. intros Hr. unchain Hr. by injection Hr as <-. Qed.
Lemma slashings_keeps px row row' : slashings_stage spec px row = Ok row' -> row_validator row' = row_validator row.
Proof. unfold slashings_stage. intros H. unchain H. by injection H as <-. Qed.
Lemma deposits_keeps px i row row' : deposits_stage px i row = Ok row' -> row_validator row' = row_validator row.
Proof. unfold deposits_stage. case_match; [|by intros [= <-]]. intros Hr. unchain Hr. by injection Hr as <-. Qed.

Definition no_deposits px : PassContext :=
  mkPass (ps_state px) (ps_previous_epoch px) (ps_rewards px) (ps_slashings px) None (ps_balances px) (ps_queue px)
    (ps_epoch_cache px) (ps_consolidating px).

Record pass_ok px : Prop := {
  po_current : 0 <= current_epoch (ps_state px);
  po_previous : ps_previous_epoch px <= current_epoch (ps_state px)
}.

Record entry_ok px (i : nat) (v : Validator) : Prop := {
  eo_validator : validator_ok spec v;
  eo_queue q : ps_queue px = Some q -> i ∈ q -> activation_epoch v = far_future_epoch spec
}.

Lemma validator_info_kept px i v v' p c :
  pass_ok px -> kept (current_epoch (ps_state px)) v v' -> validator_info px i v' p c = validator_info px i v p c.
Proof.
  intros [_ Hp] K. unfold validator_info. pose proof (kept_active _ _ _ K) as KA.
  rewrite (KA (current_epoch (ps_state px))), (KA (ps_previous_epoch px)), (kept_slashed _ _ _ K), (kept_balance _ _ _ K) by lia.
  destruct (is_active_at v (ps_previous_epoch px)); [done|]. destruct (slashed v); [|done].
  destruct (safe_add (ps_previous_epoch px) 1) as [e|] eqn:E; [|done].
  apply safe_add_ok in E as [-> _]. by rewrite (kept_later _ _ _ K) by lia.
Qed.

Lemma registry_stage_keeps px i row rs row' rs' :
  pass_ok px -> entry_ok px i (row_validator row) -> registry_stage spec px i row rs = Ok (row', rs') ->
  kept (current_epoch (ps_state px)) (row_validator row) (row_validator row')
  /\ validator_ok spec (row_validator row')
  /\ exiting spec (row_validator row') = exiting spec (row_validator row)
       || ejectable spec (row_validator row) (current_epoch (ps_state px)).
Proof.
  intros [H0 _] [Hv HQ] H. unfold registry_stage in H. unchain H. injection H as <- <-. by eapply registry_validator.
Qed.

(** * One row *)

Definition staged_step px : nat -> Entry -> PassShared -> Result (Entry * PassShared) EpochError :=
  let px0 := no_deposits px in
  then_step (entry_step only_inactivity_updates px0)
    (then_step (entry_step only_rewards_and_penalties px0)
       (then_step (entry_step only_registry_updates px0)
          (then_step (entry_step only_slashings px0) (entry_step only_pending_deposits px)))).

Lemma only_inactivity_ok px i e sh e' sh' :
  entry_step only_inactivity_updates (no_deposits px) i e sh = Ok (e', sh') <->
  exists info, validator_info px i (e_validator e) (e_previous e) (e_current e) = Ok info
    /\ inactivity_stage spec px info (e_row e) = Ok (e_row e') /\ sh' = sh
    /\ e_previous e' = e_previous e /\ e_current e' = e_current e.
Proof.
  rewrite entry_step_ok, process_validator_ok. cbn. split.
  - intros [(info & r1 & r2 & r3 & rs & r4 & r5 & bs & Hi & H1 & [= <-] & [= <- <-] & [= <-] & [= <-] & [= <- <-] & ->) ?].
    exists info. by destruct sh.
  - intros (info & Hi & H1 & -> & ?). split; [|done]. exists info. repeat eexists; try done. by destruct sh.
Qed.

Lemma only_rewards_ok px i e sh e' sh' :
  entry_step only_rewards_and_penalties (no_deposits px) i e sh = Ok (e', sh') <->
  exists info, validator_info px i (e_validator e) (e_previous e) (e_current e) = Ok info
    /\ rewards_stage spec px info (e_row e) = Ok (e_row e') /\ sh' = sh
    /\ e_previous e' = e_previous e /\ e_current e' = e_current e.
Proof.
  rewrite entry_step_ok, process_validator_ok. cbn. split.
  - intros [(info & r1 & r2 & r3 & rs & r4 & r5 & bs & Hi & [= <-] & H1 & [= <- <-] & [= <-] & [= <-] & [= <- <-] & ->) ?].
    exists info. by destruct sh.
  - intros (info & Hi & H1 & -> & ?). split; [|done]. exists info. repeat eexists; try done. by destruct sh.
Qed.

Lemma only_registry_ok px i e sh e' sh' :
  entry_step only_registry_updates (no_deposits px) i e sh = Ok (e', sh') <->
  exists info rs, validator_info px i (e_validator e) (e_previous e) (e_current e) = Ok info
    /\ registry_stage spec px i (e_row e) (sh_registry sh) = Ok (e_row e', rs) /\ sh' = mkPassShared rs (sh_balances sh)
    /\ e_previous e' = e_previous e /\ e_current e' = e_current e.
Proof.
  rewrite entry_step_ok, process_validator_ok. cbn. split.
  - intros [(info & r1 & r2 & r3 & rs & r4 & r5 & bs & Hi & [= <-] & [= <-] & H1 & [= <-] & [= <-] & [= <- <-] & ->) ?].
    by exists info, rs.
  - intros (info & rs & Hi & H1 & -> & ?). split; [|done]. exists info. by repeat eexists.
Qed.

Lemma only_slashings_ok px i e sh e' sh' :
  entry_step only_slashings (no_deposits px) i e sh = Ok (e', sh') <->
  exists info, validator_info px i (e_validator e) (e_previous e) (e_current e) = Ok info
    /\ slashings_stage spec px (e_row e) = Ok (e_row e') /\ sh' = sh
    /\ e_previous e' = e_previous e /\ e_current e' = e_current e.
Proof.
  rewrite entry_step_ok, process_validator_ok. cbn. split.
  - intros [(info & r1 & r2 & r3 & rs & r4 & r5 & bs & Hi & [= <-] & [= <-] & [= <- <-] & H1 & [= <-] & [= <- <-] & ->) ?].
    exists info. by destruct sh.
  - intros (info & Hi & H1 & -> & ?). split; [|done]. exists info. repeat eexists; try done. by destruct sh.
Qed.

Lemma only_deposits_ok px i e sh e' sh' :
  entry_step only_pending_deposits px i e sh = Ok (e', sh') <->
  exists info, validator_info px i (e_validator e) (e_previous e) (e_current e) = Ok info
    /\ deposits_stage px i (e_row e) = Ok (e_row e') /\ sh' = sh
    /\ e_previous e' = e_previous e /\ e_current e' = e_current e.
Proof.
  rewrite entry_step_ok, process_validator_ok. cbn. split.
  - intros [(info & r1 & r2 & r3 & rs & r4 & r5 & bs & Hi & [= <-] & [= <-] & [= <- <-] & [= <-] & H1 & [= <- <-] & ->) ?].
    exists info. by destruct sh.
  - intros (info & Hi & H1 & -> & ?). split; [|done]. exists info. repeat eexists; try done. by destruct sh.
Qed.

Lemma staged_step_ok px i e sh e' sh' :
  pass_ok px -> entry_ok px i (e_validator e) ->
  entry_step all_but_effective_balances px i e sh = Ok (e', sh') <-> staged_step px i e sh = Ok (e', sh').
Proof.
  intros HP HE. rewrite entry_step_ok, process_validator_ok. unfold staged_step. split.
  - intros [(info & r1 & r2 & r3 & rs & r4 & r5 & bs & Hi & H1 & H2 & H3 & H4 & H5 & [= -> <-] & ->) [Hp Hc]]. cbn in *.
    pose proof (inactivity_keeps _ _ _ _ H1) as K1. pose proof (rewards_keeps _ _ _ _ H2) as K2.
    assert (entry_ok px i (row_validator r2)) as HE2 by by rewrite K2, K1.
    destruct (registry_stage_keeps _ _ _ _ _ _ HP HE2 H3) as [K3 _]. rewrite K2, K1 in K3.
    pose proof (slashings_keeps _ _ _ H4) as K4.
    assert (forall v, kept (current_epoch (ps_state px)) (e_validator e) v ->
              validator_info px i v (e_previous e) (e_current e) = Ok info) as HI.
    { intros v K. by rewrite (validator_info_kept _ _ _ _ _ _ HP K). }
    apply then_step_ok. exists (mkEntry r1 (e_previous e) (e_current e)), sh.
    split; [by apply only_inactivity_ok; exists info|]. apply then_step_ok.
    exists (mkEntry r2 (e_previous e) (e_current e)), sh.
    split; [apply only_rewards_ok; exists info; unfold e_validator; cbn; rewrite K1; split; [done|]; done|]. apply then_step_ok.
    exists (mkEntry r3 (e_previous e) (e_current e)), (mkPassShared rs (sh_balances sh)).
    split; [apply only_registry_ok; exists info, rs; unfold e_validator; cbn; rewrite K2, K1; split; [done|]; done|].
    apply then_step_ok. exists (mkEntry r4 (e_previous e) (e_current e)), (mkPassShared rs (sh_balances sh)).
    split; [apply only_slashings_ok; exists info; unfold e_validator; cbn; split; [by apply HI|done]|].
    apply only_deposits_ok. exists info. unfold e_validator. cbn. rewrite K4. split; [by apply HI|done].
  - intros (e1 & sh1 & (info & Hi & H1 & -> & P1 & C1)%only_inactivity_ok & H)%then_step_ok.
    apply then_step_ok in H as (e2 & sh2 & (info2 & Hi2 & H2 & -> & P2 & C2)%only_rewards_ok & H).
    apply then_step_ok in H as (e3 & sh3 & (info3 & rs & Hi3 & H3 & -> & P3 & C3)%only_registry_ok & H).
    apply then_step_ok in H as (e4 & sh4 & (info4 & Hi4 & H4 & -> & P4 & C4)%only_slashings_ok & H).
    apply only_deposits_ok in H as (info5 & Hi5 & H5 & -> & P5 & C5).
    pose proof (inactivity_keeps _ _ _ _ H1) as K1. unfold e_validator in Hi2. rewrite K1, P1, C1 in Hi2.
    assert (info2 = info) as -> by (unfold e_validator in *; congruence).
    split; [|split; congruence]. exists info. by repeat eexists.
Qed.

Lemma row_inactivity px : row_step (entry_step only_inactivity_updates (no_deposits px)).
Proof. intros i e sh e' sh' (info & ? & ? & -> & ?)%only_inactivity_ok. split; [done|]. intros y. apply only_inactivity_ok. naive_solver. Qed.
Lemma row_rewards px : row_step (entry_step only_rewards_and_penalties (no_deposits px)).
Proof. intros i e sh e' sh' (info & ? & ? & -> & ?)%only_rewards_ok. split; [done|]. intros y. apply only_rewards_ok. naive_solver. Qed.
Lemma row_slashings px : row_step (entry_step only_slashings (no_deposits px)).
Proof. intros i e sh e' sh' (info & ? & ? & -> & ?)%only_slashings_ok. split; [done|]. intros y. apply only_slashings_ok. naive_solver. Qed.
Lemma row_deposits px : row_step (entry_step only_pending_deposits px).
Proof. intros i e sh e' sh' (info & ? & ? & -> & ?)%only_deposits_ok. split; [done|]. intros y. apply only_deposits_ok. naive_solver. Qed.

(** * All rows *)

Lemma loop_staged px es sh es' sh' :
  pass_ok px -> (forall i e, es !! i = Some e -> entry_ok px i (e_validator e)) ->
  loop (entry_step all_but_effective_balances px) 0 es sh = Ok (es', sh') <->
  exists es1 es2 es3 es4,
    loop (entry_step only_inactivity_updates (no_deposits px)) 0 es sh = Ok (es1, sh)
    /\ loop (entry_step only_rewards_and_penalties (no_deposits px)) 0 es1 sh = Ok (es2, sh)
    /\ loop (entry_step only_registry_updates (no_deposits px)) 0 es2 sh = Ok (es3, sh')
    /\ loop (entry_step only_slashings (no_deposits px)) 0 es3 sh' = Ok (es4, sh')
    /\ loop (entry_step only_pending_deposits px) 0 es4 sh' = Ok (es', sh').
Proof.
  intros HP HE.
  rewrite (loop_ext _ (staged_step px) (fun i e => entry_ok px i (e_validator e)))
    by (intros; first [by apply staged_step_ok|by apply HE]).
  unfold staged_step. rewrite loop_split_first by apply row_inactivity.
  setoid_rewrite loop_split_first; [|apply row_rewards].
  setoid_rewrite (loop_split_last (entry_step only_registry_updates (no_deposits px)));
    [|apply row_step_then; [apply row_slashings|apply row_deposits]].
  setoid_rewrite loop_split_first; [|apply row_slashings]. naive_solver.
Qed.

End split.
