(* ===== verification/EpochEquiv.v ===== *)
(** * The single pass is the parts in order

    From the loops to the state: what a pass does to a state whose caches are built,
    the contexts of the intermediate states, and the equivalence of the whole
    transition with its parts run one by one. *)

From S2P Require Import EpochProcessing EpochStages.
Local Open Scope rust_scope.
Local Open Scope Z_scope.

(** * Rows of a state *)

Fixpoint entries (vs : list Validator) (bs ss ps cs : list Z) : list Entry :=
  match vs, bs, ss, ps, cs with
  | v :: vs, b :: bs, s :: ss, p :: ps, c :: cs => mkEntry (mkRow v b s) p c :: entries vs bs ss ps cs
  | _, _, _, _, _ => []
  end.

Definition e_balance (e : Entry) : Z := row_balance (e_row e).
Definition e_score (e : Entry) : Z := row_score (e_row e).

Definition rows (vs : Validators) : list Entry :=
  entries (validators vs) (balances vs) (inactivity_scores vs) (previous_epoch_participation vs)
    (current_epoch_participation vs).

Definition set_rows (vs : Validators) (es : list Entry) : Validators :=
  mkValidators (map e_validator es) (map e_balance es) (map e_score es) (previous_epoch_participation vs)
    (current_epoch_participation vs) (pubkey_cache vs).

Record same_lengths (vs : Validators) : Prop := {
  sl_balances : length (balances vs) = length (validators vs);
  sl_scores : length (inactivity_scores vs) = length (validators vs);
  sl_previous : length (previous_epoch_participation vs) = length (validators vs);
  sl_current : length (current_epoch_participation vs) = length (validators vs)
}.

Lemma entries_fields vs bs ss ps cs :
  length bs = length vs -> length ss = length vs -> length ps = length vs -> length cs = length vs ->
  map e_validator (entries vs bs ss ps cs) = vs /\ map e_balance (entries vs bs ss ps cs) = bs
  /\ map e_score (entries vs bs ss ps cs) = ss /\ map e_previous (entries vs bs ss ps cs) = ps
  /\ map e_current (entries vs bs ss ps cs) = cs.
Proof.
  revert bs ss ps cs. induction vs as [|v vs IH]; intros [|b bs] [|s ss] [|p ps] [|c cs]; try done.
  cbn. intros [= H1] [= H2] [= H3] [= H4]. destruct (IH bs ss ps cs) as (-> & -> & -> & -> & ->); done.
Qed.

Lemma entries_of es : entries (map e_validator es) (map e_balance es) (map e_score es) (map e_previous es) (map e_current es) = es.
Proof. induction es as [|[[v b s] p c] es IH]; [done|]. cbn. by rewrite IH. Qed.

Lemma set_rows_self vs : same_lengths vs -> set_rows vs (rows vs) = vs.
Proof.
  intros [H1 H2 H3 H4]. unfold set_rows, rows. destruct vs as [v b s p c k]. cbn in *.
  by destruct (entries_fields v b s p c) as (-> & -> & -> & _).
Qed.

Lemma rows_length vs : same_lengths vs -> length (rows vs) = length (validators vs).
Proof.
  intros [H1 H2 H3 H4]. unfold rows. destruct vs as [v b s p c k]. cbn in *.
  destruct (entries_fields v b s p c) as (E & _); [done..|]. by rewrite <-E at 2; rewrite length_map.
Qed.

Lemma rows_lookup vs i e :
  same_lengths vs -> rows vs !! i = Some e ->
  validators vs !! i = Some (e_validator e) /\ balances vs !! i = Some (e_balance e).
Proof.
  intros [H1 H2 H3 H4]. unfold rows. destruct vs as [v b s p c k]. cbn in *.
  destruct (entries_fields v b s p c) as (E1 & E2 & _); [done..|]. intros H.
  split; [rewrite <-E1|rewrite <-E2]; by rewrite list_lookup_fmap, H.
Qed.

Definition same_flags (es es' : list Entry) : Prop :=
  map e_previous es' = map e_previous es /\ map e_current es' = map e_current es.

Lemma rows_set_rows vs es : same_lengths vs -> same_flags (rows vs) es -> rows (set_rows vs es) = es.
Proof.
  intros [H1 H2 H3 H4] [HP HC]. unfold rows, set_rows in *. destruct vs as [v b s p c k]. cbn in *.
  destruct (entries_fields v b s p c) as (_ & _ & _ & E1 & E2); [done..|]. rewrite E1 in HP. rewrite E2 in HC.
  rewrite <-HP, <-HC. apply entries_of.
Qed.

Lemma set_rows_lengths vs es : same_lengths vs -> same_flags (rows vs) es -> same_lengths (set_rows vs es).
Proof.
  intros H [HP HC]. pose proof H as [H1 H2 H3 H4]. pose proof (f_equal length HP) as L. rewrite !length_map in L.
  rewrite rows_length in L by done. split; cbn; rewrite !length_map; congruence.
Qed.

Lemma set_rows_twice vs es es' : set_rows (set_rows vs es) es' = set_rows vs es'.
Proof. done. Qed.

Section equiv.
Context (spec : EpochSpec) (env : EpochEnv) (SP : spec_ok spec).
Implicit Types (px : PassContext) (sh : PassShared) (rs : RegistryShared).

Lemma loop_flags conf px i es sh es' sh' : loop (entry_step spec conf px) i es sh = Ok (es', sh') -> same_flags es es'.
Proof.
  revert i sh es'. induction es as [|e es IH]; intros i sh es'; [cbn; by intros [= <- _]|].
  rewrite loop_cons. intros (e1 & sh1 & rest & (_ & E1 & E2)%entry_step_ok & L & ->).
  apply IH in L as [-> ->] || (destruct (IH _ _ _ L) as [L1 L2]; split; cbn; congruence).
Qed.

Lemma pass_loop conf px i vs bs ss ps cs sh vs' bs' ss' sh' :
  length bs = length vs -> length ss = length vs -> length ps = length vs -> length cs = length vs ->
  pass spec conf px i vs bs ss ps cs sh = Ok (vs', bs', ss', sh') <->
  exists es', loop (entry_step spec conf px) i (entries vs bs ss ps cs) sh = Ok (es', sh')
    /\ vs' = map e_validator es' /\ bs' = map e_balance es' /\ ss' = map e_score es'.
Proof.
  revert i bs ss ps cs sh vs' bs' ss'. induction vs as [|v vs IH]; intros i [|b bs] [|s ss] [|p ps] [|c cs] sh vs' bs' ss'; try done.
  - intros _ _ _ _. cbn. split; [intros [= <- <- <- <-]; by exists []|]. by intros (? & [= <- <-] & -> & -> & ->).
  - cbn [length]. intros [= H1] [= H2] [= H3] [= H4]. cbn [entries pass]. setoid_rewrite loop_cons. split.
    + intros H. unchain H. injection H as <- <- <- <-. apply IH in E0 as (es & L & -> & -> & ->); [|done..].
      match type of E with _ = Ok (?r, ?s) => exists (mkEntry r p c :: es); split; [|done]; exists (mkEntry r p c), s, es end.
      split; [by apply entry_step_ok|done].
    + intros (es' & (e1 & sh1 & rest & (E & Hp & Hc)%entry_step_ok & L & ->) & -> & -> & ->). cbn in E. rewrite E.
      assert (pass spec conf px (S i) vs bs ss ps cs sh1 = Ok (map e_validator rest, map e_balance rest, map e_score rest, sh')) as ->
        by (apply IH; [done..|naive_solver]). done.
Qed.

(** The state after a pass. *)
Definition after (st : EpochState) (es : list Entry) rs : EpochState :=
  with_exits (with_validators st (set_rows (st_validators st) es))
    (mkExitQueue (rs_exit_cache rs) (default (earliest_exit_epoch (st_exits st)) (rs_earliest_exit_epoch rs))
       (default (exit_balance_to_consume (st_exits st)) (rs_exit_balance_to_consume rs))).

(** What every registry update keeps of the shared part: the exit cache stays initialized,
    and the fields of the fork stay present. *)
Record shape (electra : bool) rs : Prop := {
  sh_exit : ec_initialized (rs_exit_cache rs) = true;
  sh_earliest : is_Some (rs_earliest_exit_epoch rs) <-> electra = true;
  sh_consume : is_Some (rs_exit_balance_to_consume rs) <-> electra = true
}.

Lemma record_exit_initialized c e c' : record_validator_exit c e = Ok c' -> ec_initialized c' = true.
Proof.
  unfold record_validator_exit, check_initialized. destruct (ec_initialized c) eqn:I; [|done].
  destruct (e ?= max_exit_epoch c); [|by intros [= <-]|by intros [= <-]]. intros Hr. unchain Hr. by injection Hr as <-.
Qed.

Lemma eject_shape b v rs ctx v' rs' :
  b = electra_enabled (fork_name ctx) -> shape b rs -> eject spec v rs ctx = Ok (v', rs') -> shape b rs'.
Proof.
  intros -> S. unfold eject. case_match; [|by intros [= _ <-]]. unfold initiate_validator_exit.
  case_match; [by intros [= _ <-]|]. intros Hr. unchain Hr. injection Hr as _ <-.
  apply record_exit_initialized in E1. destruct S as [S1 S2 S3]. split; cbn; [done|..];
    destruct (electra_enabled (fork_name ctx)).
  - destruct (rs_earliest_exit_epoch rs), (rs_exit_balance_to_consume rs); try done. unchain E. injection E as _ <- <-. by split; eauto.
  - unchain E. by injection E as _ <- <-.
  - destruct (rs_earliest_exit_epoch rs), (rs_exit_balance_to_consume rs); try done. unchain E. injection E as _ <- <-. by split; eauto.
  - unchain E. by injection E as _ <- <-.
Qed.

Lemma registry_shape b i v rs q ctx v' rs' :
  b = electra_enabled (fork_name ctx) -> shape b rs ->
  process_single_registry_update spec i v rs q ctx = Ok (v', rs') -> shape b rs'.
Proof.
  intros Hb S. unfold process_single_registry_update. destruct (electra_enabled (fork_name ctx)) eqn:F.
  - destruct (rs_earliest_exit_epoch rs), (rs_exit_balance_to_consume rs); try done.
    unfold process_single_registry_update_post_electra. intros H. unchain H. injection H as _ <-. by eapply (eject_shape b) in E0; [|congruence|].
  - destruct q, (rs_next_queue rs); try done. unfold process_single_registry_update_pre_electra. intros H. unchain H.
    injection H as _ <-. eapply (eject_shape b) in E0 as [S1 S2 S3]; [|congruence|done]. by split.
Qed.

Lemma loop_shape conf px i es sh es' sh' :
  let b := electra_enabled (fork_name (ps_state px)) in
  shape b (sh_registry sh) -> loop (entry_step spec conf px) i es sh = Ok (es', sh') -> shape b (sh_registry sh').
Proof.
  intros b. revert i sh es'. induction es as [|e es IH]; intros i sh es' S; [cbn; by intros [= _ <-]|].
  rewrite loop_cons. intros (e1 & sh1 & rest & (Hp & _)%entry_step_ok & L & ->).
  apply process_validator_ok in Hp as (info & r1 & r2 & r3 & rs & r4 & r5 & bs & _ & _ & _ & H3 & _ & _ & _ & ->).
  eapply IH, L. cbn. unfold when in H3. destruct (c_registry_updates conf); [|by injection H3 as _ <-].
  unfold registry_stage in H3. unchain H3. injection H3 as _ <-. by eapply registry_shape.
Qed.

(** Passes without effective balance updates leave the caches of the balances alone. *)
Lemma loop_balances conf px i es sh es' sh' :
  c_effective_balance_updates conf = false -> loop (entry_step spec conf px) i es sh = Ok (es', sh') ->
  sh_balances sh' = sh_balances sh.
Proof.
  intros Hc. revert i sh es'. induction es as [|e es IH]; intros i sh es'; [cbn; by intros [= _ <-]|].
  rewrite loop_cons. intros (e1 & sh1 & rest & (Hp & _)%entry_step_ok & L & ->). rewrite (IH _ _ _ L).
  apply process_validator_ok in Hp as (info & r1 & r2 & r3 & rs & r4 & r5 & bs & _ & _ & _ & _ & _ & _ & H & ->).
  rewrite Hc in H. by injection H as _ <-.
Qed.

(** * States whose caches are built *)

Record ready (st : EpochState) : Prop := {
  rd_fork : fork_ge (st_fork st) Altair = true;
  rd_epoch : 0 <= st_current_epoch st;
  rd_epoch_cache : check_validity (epoch_cache (st_caches st)) (st_current_epoch st) (decision_block_root env) = Ok tt;
  rd_progressive : is_Some (progressive_balances_cache (st_caches st));
  rd_exit_cache : ec_initialized (exit_cache (st_exits st)) = true;
  rd_pubkeys : pk_len (pubkey_cache (st_validators st)) = length (validators (st_validators st));
  rd_lengths : same_lengths (st_validators st)
}.

Lemma build_pubkey_cache_same st :
  pk_len (pubkey_cache (st_validators st)) = length (validators (st_validators st)) -> build_pubkey_cache st = Ok st.
Proof.
  intros H. unfold build_pubkey_cache, update_pubkey_cache. rewrite H, Nat.ltb_irrefl, drop_all. cbn. by destruct st as [? ? ? ? [] ? ? ? ?].
Qed.

Lemma ready_caches st : ready st -> build_caches spec env st = Ok st.
Proof.
  intros [H1 H2 H3 [pb H4] H5 H6 H7]. unfold build_caches, initialize_epoch_cache. rewrite H3. cbn [is_ok].
  unfold initialize_progressive_balances_cache. rewrite H1, H4. cbn [negb]. unfold build_exit_cache. rewrite H5.
  by apply build_pubkey_cache_same.
Qed.

Definition start_registry (st : EpochState) : RegistryShared :=
  let electra {A} (a : A) := if electra_enabled (st_fork st) then Some a else None in
  mkShared (exit_cache (st_exits st)) (electra (earliest_exit_epoch (st_exits st)))
    (electra (exit_balance_to_consume (st_exits st))) (if electra_enabled (st_fork st) then None else Some []).

Lemma start_shape st : ready st -> shape (electra_enabled (st_fork st)) (start_registry st).
Proof.
  intros R. split; [apply (rd_exit_cache _ R)|..]; cbn; destruct (electra_enabled (st_fork st)); split; intros H; try done.
Qed.

Lemma pass_start_shared conf st px sh :
  pass_start spec env conf st = Ok (px, sh) ->
  sh_registry sh = start_registry st /\ bs_progressive (sh_balances sh) = progressive_balances_cache (st_caches st)
  /\ fork_name (ps_state px) = st_fork st /\ current_epoch (ps_state px) = st_current_epoch st
  /\ ps_previous_epoch px = previous_epoch_of (st_current_epoch st)
  /\ ps_epoch_cache px = epoch_cache (st_caches st).
Proof.
  unfold pass_start. intros H. unchain H. injection H as <- <-. unfold StateContext_of in E. unchain E. by injection E as <-.
Qed.

(** The contexts other than that of the deposits do not depend on the configuration. *)
Lemma pass_start_split conf st px sh :
  pass_start spec env conf st = Ok (px, sh) <->
  pass_start spec env disable_all st = Ok (no_deposits px, sh)
  /\ (if electra_enabled (st_fork st) && c_pending_deposits conf
      then exists d, PendingDepositsContext_new spec st conf = Ok d /\ ps_deposits px = Some d
      else ps_deposits px = None).
Proof.
  unfold pass_start. cbn [c_pending_deposits disable_all]. rewrite (andb_false_r (electra_enabled (st_fork st))).
  destruct (StateContext_of spec st) as [ctx|]; [|naive_solver]. destruct (get_activation_churn_limit spec st) as [al|]; [|naive_solver].
  destruct (SlashingsContext_new spec st ctx) as [sctx|]; [|naive_solver].
  destruct (RewardsAndPenaltiesContext_new spec _ ctx) as [rctx|];
    [|split; [repeat case_match; naive_solver|naive_solver]].
  match goal with |- context [match (if electra_enabled (st_fork st) then Ok None else ?r) with _ => _ end] =>
    destruct (if electra_enabled (st_fork st) then Ok None else r) as [q|];
      [|split; [repeat case_match; naive_solver|naive_solver]] end.
  destruct (EffectiveBalancesContext_new spec) as [ectx|]; [|split; [repeat case_match; naive_solver|naive_solver]].
  destruct (electra_enabled (st_fork st) && c_pending_deposits conf).
  - destruct (PendingDepositsContext_new spec st conf) as [d|]; [|naive_solver]. split.
    + intros [= <- <-]. split; [done|]. by exists d.
    + intros ([= H1 H2 H3 H4 H5 H6 H7 H8 <-] & d' & [= <-] & Hd). destruct px. cbn in *. by subst.
  - split; [by intros [= <- <-]|]. intros ([= H1 H2 H3 H4 H5 H6 H7 H8 <-] & Hd). destruct px. cbn in *. by subst.
Qed.

(** * After the pass, without effective balance updates *)

Definition deposits_tail px (st : EpochState) : Result EpochState EpochError :=
  match ps_deposits px with
  | None => Ok st
  | Some dctx =>
      let q := st_deposits st in
      let st := with_deposits st
                  (mkDepositQueue (drop (next_deposit_index dctx) (pending_deposits q) ++ deposits_to_postpone dctx)
                     (dc_balance_to_consume dctx) (eth1_deposit_index q) (deposit_requests_start_index q)) in
      let? (after, _) := apply_new_deposits spec env (new_validator_deposits dctx) st [] in Ok after
  end.

Definition consolidations_tail (st : EpochState) : Result EpochState EpochError :=
  let? next := safe_add (st_current_epoch st) 1 in
  let? (taken, after) := consolidate (pending_consolidations (st_later st)) next 0 st in
  let l := st_later after in
  Ok (with_later after (mkLater (drop taken (pending_consolidations l)) (proposer_lookahead l)
                       (builder_pending_payments l) (builder_pending_withdrawals l) (ptc_window l))).

Definition rest conf px (st : EpochState) : Result EpochState EpochError :=
  let? st := deposits_tail px st in
  let? st := (if electra_enabled (st_fork st) && c_pending_consolidations conf then consolidations_tail st else Ok st) in
  let? st := (if gloas_fork (st_fork st) && c_builder_pending_payments conf
              then process_builder_pending_payments spec (ps_state px) st else Ok st) in
  let? st := (if c_proposer_lookahead conf && fulu_enabled (st_fork st) then process_proposer_lookahead spec env st else Ok st) in
  if c_ptc_window conf && gloas_fork (st_fork st) then process_ptc_window spec env st else Ok st.

Lemma loop_registry_same conf px i es sh es' sh' :
  c_registry_updates conf = false -> loop (entry_step spec conf px) i es sh = Ok (es', sh') -> sh_registry sh' = sh_registry sh.
Proof.
  intros Hc. revert i sh es'. induction es as [|e es IH]; intros i sh es'; [cbn; by intros [= _ <-]|].
  rewrite loop_cons. intros (e1 & sh1 & rest & (Hp & _)%entry_step_ok & L & ->). rewrite (IH _ _ _ L).
  apply process_validator_ok in Hp as (info & r1 & r2 & r3 & rs & r4 & r5 & bs & _ & _ & _ & H & _ & _ & _ & ->).
  rewrite Hc in H. by injection H as _ <-.
Qed.

Lemma set_progressive_same st : set_progressive st (progressive_balances_cache (st_caches st)) = st.
Proof. by destruct st as [? ? ? ? ? ? ? [] ?]. Qed.

(** The pass and the write-back of the exit queue. *)
Lemma run_pass_ok conf px sh st st2 sh' :
  ready st -> c_effective_balance_updates conf = false -> pass_start spec env conf st = Ok (px, sh) ->
  (exists st1, run_pass spec conf px sh st = Ok (st1, sh') /\ finish_exits conf (sh_registry sh') st1 = Ok st2) <->
  exists es, loop (entry_step spec conf px) 0 (rows (st_validators st)) sh = Ok (es, sh') /\ st2 = after st es (sh_registry sh').
Proof.
  intros R Hc S. destruct (rd_lengths _ R) as [L1 L2 L3 L4].
  apply pass_start_shared in S as (S1 & S2 & S3 & _). unfold run_pass.
  assert (forall es, loop (entry_step spec conf px) 0 (rows (st_validators st)) sh = Ok (es, sh') ->
            finish_exits conf (sh_registry sh') (set_progressive
              (with_exits (with_validators st (set_rows (st_validators st) es))
                 (mkExitQueue (rs_exit_cache (sh_registry sh')) (earliest_exit_epoch (st_exits st)) (exit_balance_to_consume (st_exits st))))
              (bs_progressive (sh_balances sh'))) = Ok (after st es (sh_registry sh'))) as HF.
  { intros es L. rewrite (loop_balances _ _ _ _ _ _ _ Hc L), S2.
    pose proof (start_shape _ R) as SS. rewrite <-S1, <-S3 in SS. pose proof (loop_shape _ _ _ _ _ _ _ SS L) as [_ SE SC].
    match goal with |- context [set_progressive ?x _] => replace (set_progressive x _) with x by (symmetry; apply (set_progressive_same x)) end.
    unfold finish_exits. cbn [st_fork with_exits with_validators]. rewrite <-S3. unfold after.
    destruct (electra_enabled (fork_name (ps_state px))) eqn:EF.
    - destruct SE as [_ [e Ee]]; [done|]. destruct SC as [_ [b Eb]]; [done|]. rewrite Ee, Eb.
      destruct (c_registry_updates conf) eqn:Er; [done|]. pose proof (loop_registry_same _ _ _ _ _ _ _ Er L) as Es.
      rewrite Es, S1 in *. unfold start_registry in Ee, Eb. cbn in Ee, Eb. rewrite <-S3, EF in Ee, Eb.
      injection Ee as <-. injection Eb as <-. done.
    - rewrite andb_false_r. destruct (rs_earliest_exit_epoch (sh_registry sh')) eqn:E1; [by destruct SE as [SE _]; specialize (SE ltac:(by eexists))|].
      destruct (rs_exit_balance_to_consume (sh_registry sh')) eqn:E2; [by destruct SC as [SC _]; specialize (SC ltac:(by eexists))|]. done. }
  split.
  - intros (st1 & H & HX). unchain H. injection H as <- <-. apply pass_loop in E as (es & L & -> & -> & ->); [|done..].
    exists es. split; [done|]. specialize (HF es L). unfold set_rows in HF. cbn in HF, HX. congruence.
  - intros (es & L & ->). eexists. split; [|by apply HF]. unfold rows in L.
    assert (pass spec conf px 0 (validators (st_validators st)) (balances (st_validators st)) (inactivity_scores (st_validators st))
              (previous_epoch_participation (st_validators st)) (current_epoch_participation (st_validators st)) sh
            = Ok (map e_validator es, map e_balance es, map e_score es, sh')) as -> by (apply pass_loop; [done..|by exists es]).
    done.
Qed.

Lemma finish_deposits_tail conf px pre st :
  c_effective_balance_updates conf = false ->
  finish_deposits spec env conf px pre st = let? s := deposits_tail px st in Ok (pre, s).
Proof.
  intros Hc. unfold finish_deposits, deposits_tail. destruct (ps_deposits px); [|done]. rewrite Hc.
  by destruct (apply_new_deposits _ _ _ _ _) as [[]|].
Qed.

Lemma consolidations_are_tail conf px pre st :
  c_effective_balance_updates conf = false ->
  process_pending_consolidations spec conf px pre st = let? s := consolidations_tail st in Ok (pre, s).
Proof.
  intros Hc. unfold process_pending_consolidations, consolidations_tail. rewrite Hc.
  destruct (safe_add _ _); [|done]. by destruct (consolidate _ _ _ _) as [[]|].
Qed.

Lemma single_pass_ok conf st st' :
  ready st -> c_effective_balance_updates conf = false ->
  process_epoch_single_pass spec env conf st = Ok st' <->
  exists px sh es sh', pass_start spec env conf st = Ok (px, sh)
    /\ loop (entry_step spec conf px) 0 (rows (st_validators st)) sh = Ok (es, sh')
    /\ rest conf px (after st es (sh_registry sh')) = Ok st'.
Proof.
  intros R Hc. unfold process_epoch_single_pass. rewrite (rd_fork _ R), (ready_caches _ R). cbn [variant].
  assert (forall px sh sh' st2, (let? (_, s) :=
            (let? (pre, s) := finish_deposits spec env conf px (bs_next (sh_balances sh)) st2 in
             let? (pre, s) := (if electra_enabled (st_fork s) && c_pending_consolidations conf
                               then process_pending_consolidations spec conf px pre s else Ok (pre, s)) in
             let? s := (if gloas_fork (st_fork s) && c_builder_pending_payments conf
                        then process_builder_pending_payments spec (ps_state px) s else Ok s) in
             let? s := install_caches spec conf (ps_state px) (sh_registry sh') pre s in Ok (px, s)) in
           let? s := (if c_proposer_lookahead conf && fulu_enabled (st_fork s) then process_proposer_lookahead spec env s else Ok s) in
           if c_ptc_window conf && gloas_fork (st_fork s) then process_ptc_window spec env s else Ok s)
          = rest conf px st2) as HT.
  { intros px sh sh' st2. unfold rest, install_caches. rewrite finish_deposits_tail, Hc by done.
    destruct (deposits_tail px st2) as [s1|]; [|done]. destruct (electra_enabled (st_fork s1) && c_pending_consolidations conf).
    - rewrite consolidations_are_tail by done. destruct (consolidations_tail s1) as [s2|]; [|done].
      by destruct (if gloas_fork (st_fork s2) && c_builder_pending_payments conf then _ else _).
    - by destruct (if gloas_fork (st_fork s1) && c_builder_pending_payments conf then _ else _). }
  unfold process_registry. split.
  - intros H. destruct (pass_start spec env conf st) as [[px sh]|] eqn:S; [|done].
    destruct (run_pass spec conf px sh st) as [[st1 sh']|] eqn:P; [|done].
    destruct (finish_exits conf (sh_registry sh') st1) as [st2|] eqn:F; [|done].
    destruct (proj1 (run_pass_ok conf px sh st st2 sh' R Hc S)) as (es & L & ->); [by exists st1|].
    exists px, sh, es, sh'. do 2 (split; [done|]). by rewrite <-(HT px sh' sh').
  - intros (px & sh & es & sh' & S & L & H). rewrite S.
    destruct (proj2 (run_pass_ok conf px sh st (after st es (sh_registry sh')) sh' R Hc S)) as (st1 & -> & ->); [by exists es|].
    rewrite <-H. apply (HT px sh' sh').
Qed.
End equiv.

(** * The equivalence of the transition with its parts

    The contexts of the intermediate states are those of the first, and the scan of the
    pending deposits, which the code makes before the registry updates, finds what it
    would find after them. *)

Section single.
Context (spec : EpochSpec) (env : EpochEnv) (SP : spec_ok spec).
Implicit Types (px : PassContext) (sh : PassShared) (rs : RegistryShared).

(** * Contexts of later states *)

(** What the contexts of a pass are computed from, besides the validators. *)
Record agree (st st2 : EpochState) : Prop := {
  ag_epoch : st_current_epoch st2 = st_current_epoch st;
  ag_fork : st_fork st2 = st_fork st;
  ag_finalized : st_finalized_checkpoint st2 = st_finalized_checkpoint st;
  ag_slashings : st_slashings st2 = st_slashings st;
  ag_caches : st_caches st2 = st_caches st
}.

Lemma agree_trans s1 s2 s3 : agree s1 s2 -> agree s2 s3 -> agree s1 s3.
Proof. intros [] []. split; congruence. Qed.

Lemma agree_after st es rs : agree st (after st es rs).
Proof. done. Qed.

(** The contexts agree but for the churn limits and the consolidations. *)
Record alike px px2 : Prop := {
  al_current : current_epoch (ps_state px2) = current_epoch (ps_state px);
  al_total : sc_total_active_balance (ps_state px2) = sc_total_active_balance (ps_state px);
  al_previous : ps_previous_epoch px2 = ps_previous_epoch px;
  al_cache : ps_epoch_cache px2 = ps_epoch_cache px
}.

Lemma total_agree st st2 : agree st st2 -> get_total_active_balance st2 = get_total_active_balance st.
Proof. intros A. unfold get_total_active_balance. by rewrite (ag_caches _ _ A), (ag_epoch _ _ A). Qed.

Lemma pass_start_agree st st2 px sh :
  agree st st2 -> pass_start spec env disable_all st = Ok (px, sh) ->
  exists px2, pass_start spec env disable_all st2 = Ok (px2, mkPassShared (start_registry st2) (sh_balances sh))
    /\ alike px px2
    /\ (active_validator_count st2 = active_validator_count st -> st_later st2 = st_later st -> px2 = px).
Proof.
  intros A H. pose proof (total_agree _ _ A) as HT. destruct A as [A1 A2 A3 A4 A5].
  unfold pass_start, StateContext_of, get_activation_churn_limit, get_validator_churn_limit, leak, SlashingsContext_new,
    get_validators_in_consolidations, start_registry in *. rewrite HT, A1, A2, A3, A4, A5. cbn [c_pending_deposits disable_all] in *.
  rewrite andb_false_r in *.
  destruct (safe_add (st_current_epoch st) 1) as [next|]; [|done].
  destruct (safe_sub (previous_epoch_of (st_current_epoch st)) _) as [d|]; [|done].
  destruct (get_total_active_balance st) as [total|]; [|done]. unfold safe_div at 1 2. unfold safe_div at 1 2 in H.
  destruct (churn_limit_quotient spec =? 0); [done|]. cbn [sc_total_active_balance current_epoch next_epoch] in *.
  destruct (safe_sum (st_slashings st) 0) as [sum|]; [|done]. destruct (safe_mul sum _) as [adj|]; [|done].
  destruct (safe_div (epochs_per_slashings_vector spec) 2) as [half|]; [|done]. destruct (safe_add _ half) as [target|]; [|done].
  destruct (safe_div total _) as [incr|] eqn:Ei; [|done]. destruct (safe_div (Z.min adj total) incr) as [pen|]; [|done].
  unfold RewardsAndPenaltiesContext_new in *. destruct (participating_increments spec _ _) as [parts|]; [|done].
  cbn [sc_total_active_balance] in *. rewrite Ei in *.
  destruct (electra_enabled (st_fork st)).
  - destruct (EffectiveBalancesContext_new spec) as [ectx|]; [|done]. injection H as <- <-. eexists. split; [done|].
    split; [done|]. by intros -> ->.
  - destruct (activation_queue (epoch_cache (st_caches st))) as [q|]; [|done].
    destruct (EffectiveBalancesContext_new spec) as [ectx|]; [|done]. injection H as <- <-. eexists. split; [done|].
    split; [done|]. by intros -> _.
Qed.

(** * Passes of one part *)

Definition simple (conf : SinglePassConfig) : Prop :=
  c_effective_balance_updates conf = false /\ c_pending_deposits conf = false /\ c_pending_consolidations conf = false
  /\ c_builder_pending_payments conf = false /\ c_proposer_lookahead conf = false /\ c_ptc_window conf = false.

Lemma no_deposits_none px : ps_deposits px = None -> no_deposits px = px.
Proof. intros H. unfold no_deposits. rewrite <-H. by destruct px. Qed.

Lemma start_of conf st px sh :
  c_pending_deposits conf = false -> pass_start spec env disable_all st = Ok (px, sh) ->
  pass_start spec env conf st = Ok (px, sh) /\ no_deposits px = px.
Proof.
  intros Hc H. pose proof H as H'. apply pass_start_split in H' as [_ HD]. rewrite andb_false_r in HD.
  pose proof (no_deposits_none _ HD) as E. split; [|done]. apply pass_start_split. by rewrite E, Hc, andb_false_r.
Qed.

Lemma simple_stage conf st st' px sh :
  ready env st -> simple conf -> pass_start spec env disable_all st = Ok (px, sh) ->
  process_epoch_single_pass spec env conf st = Ok st' <->
  exists es sh', loop (entry_step spec conf px) 0 (rows (st_validators st)) sh = Ok (es, sh')
    /\ st' = after st es (sh_registry sh').
Proof.
  intros R (C1 & C2 & C3 & C4 & C5 & C6) S. rewrite (single_pass_ok spec env conf st st' R C1).
  destruct (start_of _ _ _ _ C2 S) as [S' HN].
  assert (ps_deposits px = None) as HD by by rewrite <-HN.
  assert (forall s, rest spec env conf px s = Ok s) as HR.
  { intros s. unfold rest, deposits_tail. by rewrite HD, C3, C4, C5, C6, !andb_false_r. }
  split.
  - intros (px' & sh1 & es & sh' & S1 & L & Hr). rewrite S' in S1. injection S1 as <- <-. rewrite HR in Hr.
    injection Hr as <-. by exists es, sh'.
  - intros (es & sh' & L & ->). exists px, sh, es, sh'. by rewrite HR.
Qed.

Lemma after_start st es : after st es (start_registry st) = with_validators st (set_rows (st_validators st) es).
Proof. unfold after, start_registry. by destruct st as [? ? ? ? ? [] ? ? ?], (electra_enabled _). Qed.

Lemma loop_same_length conf px i es sh es' sh' :
  loop (entry_step spec conf px) i es sh = Ok (es', sh') -> length es' = length es.
Proof. apply loop_length. Qed.

Lemma ready_after {conf0} conf st px sh es sh' :
  ready env st -> pass_start spec env conf0 st = Ok (px, sh) ->
  loop (entry_step spec conf px) 0 (rows (st_validators st)) sh = Ok (es, sh') -> ready env (after st es (sh_registry sh')).
Proof.
  intros R S L. pose proof (loop_flags _ _ _ _ _ _ _ _ L) as F. pose proof (loop_length _ _ _ _ _ _ L) as Hl.
  apply pass_start_shared in S as (S1 & _ & S3 & _). pose proof (start_shape _ _ R) as SS. rewrite <-S1, <-S3 in SS.
  destruct (loop_shape _ _ _ _ _ _ _ _ SS L) as [SI _ _]. pose proof (rows_length _ (rd_lengths _ _ R)) as HL.
  destruct R as [R1 R2 R3 R4 R5 R6 R7]. split; try done; cbn.
  - rewrite length_map. congruence.
  - by apply set_rows_lengths.
Qed.

(** A part that keeps the validators. *)
Lemma loop_keeps_validators conf px i es sh es' sh' :
  c_registry_updates conf = false -> c_effective_balance_updates conf = false ->
  loop (entry_step spec conf px) i es sh = Ok (es', sh') -> map e_validator es' = map e_validator es.
Proof.
  intros C1 C2. revert i sh es'. induction es as [|e es IH]; intros i sh es'; [cbn; by intros [= <- _]|].
  rewrite loop_cons. intros (e1 & sh1 & rest & (Hp & _)%entry_step_ok & L & ->). cbn. f_equal; [|by eapply IH].
  apply process_validator_ok in Hp as (info & r1 & r2 & r3 & rs & r4 & r5 & bs & _ & H1 & H2 & H3 & H4 & H5 & H6 & _).
  rewrite C1 in H3. rewrite C2 in H6. unfold when in *. injection H3 as <- <-. injection H6 as -> <-.
  apply deposits_keeps in H5. unfold e_validator. rewrite H5.
  destruct (c_slashings conf); [apply slashings_keeps in H4; rewrite H4|injection H4 as <-];
    (destruct (c_rewards_and_penalties conf); [apply rewards_keeps in H2; rewrite H2|injection H2 as <-]);
    (destruct (c_inactivity_updates conf); [by apply inactivity_keeps in H1|by injection H1 as <-]).
Qed.

(** * The validators before and after the registry updates *)

Definition updated (c : Z) (v v' : Validator) : Prop :=
  kept c v v' /\ exiting spec v' = exiting spec v || ejectable spec v c.

Lemma registry_loop_updated px i es sh es' sh' :
  pass_ok px -> (forall k e, es !! k = Some e -> entry_ok spec px (i + k) (e_validator e)) ->
  loop (entry_step spec only_registry_updates (no_deposits px)) i es sh = Ok (es', sh') ->
  Forall2 (updated (current_epoch (ps_state px))) (map e_validator es) (map e_validator es').
Proof.
  intros HP. revert i sh es'. induction es as [|e es IH]; intros i sh es' HE; [cbn; intros [= <- _]; constructor|].
  rewrite loop_cons. intros (e1 & sh1 & rest & (info & rs & _ & H & -> & _)%only_registry_ok & L & ->). cbn. constructor.
  - assert (entry_ok spec px i (e_validator e)) as HEi by (rewrite <-(Nat.add_0_r i); by apply HE).
    destruct (registry_stage_keeps spec SP px i (e_row e) _ _ _ HP HEi H) as (K & _ & X). by split.
  - eapply IH, L. intros k e' He'. replace (S i + k)%nat with (i + S k)%nat by lia. by apply HE.
Qed.

Lemma updated_active c l l' :
  Forall2 (updated c) l l' ->
  length (List.filter (fun v => is_active_at v c) l') = length (List.filter (fun v => is_active_at v c) l).
Proof.
  induction 1 as [|v v' l l' [K _] _ IH]; [done|]. cbn. rewrite (kept_active _ _ _ K) by lia.
  destruct (is_active_at v c); cbn; lia.
Qed.

(** The deposits of a validator are treated before the registry updates as after them. *)
Lemma deposit_validator_updated st st2 next i :
  agree st st2 -> Forall2 (updated (st_current_epoch st)) (validators (st_validators st)) (validators (st_validators st2)) ->
  next = st_current_epoch st + 1 ->
  deposit_validator spec st2 only_pending_deposits next i = deposit_validator spec st all_but_effective_balances next i.
Proof.
  intros A F ->. unfold deposit_validator. destruct i as [i|]; [|done].
  destruct (validators (st_validators st) !! i) as [v|] eqn:E.
  - destruct (Forall2_lookup_l _ _ _ _ _ F E) as (v' & -> & K & X). cbn [c_registry_updates only_pending_deposits all_but_effective_balances].
    unfold exiting, ejectable in X. rewrite andb_false_l, orb_false_r, X, andb_true_l.
    by rewrite (kept_withdrawn _ _ _ K) by lia.
  - apply lookup_ge_None in E. rewrite (Forall2_length _ _ _ F) in E. by rewrite (proj2 (lookup_ge_None _ _) E).
Qed.

Lemma scan_deposits_updated st st2 next available slot ds sn :
  agree st st2 -> Forall2 (updated (st_current_epoch st)) (validators (st_validators st)) (validators (st_validators st2)) ->
  st_deposits st2 = st_deposits st -> pubkey_cache (st_validators st2) = pubkey_cache (st_validators st) ->
  next = st_current_epoch st + 1 ->
  scan_deposits spec st2 only_pending_deposits next available slot ds sn
  = scan_deposits spec st all_but_effective_balances next available slot ds sn.
Proof.
  intros A F HD HK Hn. revert sn. induction ds as [|d ds IH]; intros sn; [done|]. cbn [scan_deposits].
  unfold deposit_blocked. rewrite HD, HK, (ag_fork _ _ A), (deposit_validator_updated _ _ _ _ A F Hn).
  destruct (_ || _); [done|]. destruct (deposit_validator _ _ _ _ _) as [[ex wd]|]; [|done].
  destruct (pubkey_get _ _) as [i|].
  - destruct (add_deposit _ _ _); [|destruct wd, ex; try done; by destruct (safe_add _ _)].
    destruct wd; [apply IH|]. destruct ex; [apply IH|]. destruct (safe_add _ _) as [p|]; [|done].
    destruct (available <? p); [done|apply IH].
  - destruct wd; [done|]. destruct ex; [apply IH|]. destruct (safe_add _ _) as [p|]; [|done].
    destruct (available <? p); [done|apply IH].
Qed.

Lemma deposits_context_updated st st2 :
  agree st st2 -> Forall2 (updated (st_current_epoch st)) (validators (st_validators st)) (validators (st_validators st2)) ->
  st_deposits st2 = st_deposits st -> pubkey_cache (st_validators st2) = pubkey_cache (st_validators st) ->
  PendingDepositsContext_new spec st2 only_pending_deposits = PendingDepositsContext_new spec st all_but_effective_balances.
Proof.
  intros A F HD HK. unfold PendingDepositsContext_new, get_activation_exit_churn_limit, get_balance_churn_limit.
  rewrite (total_agree _ _ A), (ag_fork _ _ A), (ag_epoch _ _ A), (ag_finalized _ _ A), HD.
  destruct (safe_add (st_current_epoch st) 1) as [next|] eqn:En; [|done]. apply safe_add_ok in En as [Hn _].
  repeat lazymatch goal with
    | |- match scan_deposits _ _ _ _ _ _ _ _ with _ => _ end = _ => by rewrite (scan_deposits_updated _ _ _ _ _ _ _ A F HD HK Hn)
    | |- match ?r with Ok _ => _ | Err _ => _ end = _ => destruct r; [|done]
    end.
Qed.


(** * The five parts of the pass *)

Abbreviation part := (process_epoch_single_pass spec env).

Definition put (st : EpochState) (es : list Entry) : EpochState := with_validators st (set_rows (st_validators st) es).

Lemma rows_after conf px st sh es sh' rs :
  ready env st -> loop (entry_step spec conf px) 0 (rows (st_validators st)) sh = Ok (es, sh') ->
  rows (st_validators (after st es rs)) = es.
Proof. intros R L. apply rows_set_rows; [apply (rd_lengths _ _ R)|]. by eapply loop_flags. Qed.

Lemma validators_rows st : ready env st -> map e_validator (rows (st_validators st)) = validators (st_validators st).
Proof. intros R. by rewrite <-(set_rows_self _ (rd_lengths _ _ R)) at 2. Qed.

(** A part that looks at one validator at a time. *)
Lemma row_part conf st px sh :
  ready env st -> pass_start spec env disable_all st = Ok (px, sh) ->
  simple conf -> c_registry_updates conf = false -> row_step (entry_step spec conf px) ->
  (forall st', part conf st = Ok st' <->
     exists es, loop (entry_step spec conf px) 0 (rows (st_validators st)) sh = Ok (es, sh) /\ st' = put st es)
  /\ forall es, loop (entry_step spec conf px) 0 (rows (st_validators st)) sh = Ok (es, sh) ->
       ready env (put st es) /\ pass_start spec env disable_all (put st es) = Ok (px, sh)
       /\ rows (st_validators (put st es)) = es /\ validators (st_validators (put st es)) = validators (st_validators st).
Proof.
  intros R S C C1 HR. pose proof (pass_start_shared _ _ _ _ _ _ S) as (S1 & _).
  assert (forall es, after st es (sh_registry sh) = put st es) as HA by (intros es; rewrite S1; apply after_start). split.
  - intros st'. rewrite (simple_stage _ _ _ _ _ R C S). split.
    + intros (es & sh' & L & ->). destruct (row_step_loop _ _ _ _ _ _ HR L) as [-> _]. exists es. by rewrite HA.
    + intros (es & L & ->). exists es, sh. by rewrite HA.
  - intros es L. pose proof (ready_after _ _ _ _ _ _ R S L) as R'. pose proof (rows_after _ _ _ _ _ _ (sh_registry sh) R L) as Hr.
    destruct C as [Ce _]. pose proof (loop_keeps_validators _ _ _ _ _ _ _ C1 Ce L) as HV. rewrite (validators_rows _ R) in HV.
    rewrite HA in R', Hr. split; [done|]. split; [|done].
    destruct (pass_start_agree st (put st es) px sh) as (px2 & E & _ & Hpx); [done..|].
    rewrite E, Hpx; [|unfold active_validator_count; cbn; by rewrite HV|done].
    replace (start_registry (put st es)) with (sh_registry sh) by by rewrite S1. by destruct sh.
Qed.

Definition entries_ok px (st : EpochState) : Prop :=
  forall i v, validators (st_validators st) !! i = Some v -> entry_ok spec px i v.

Lemma entries_ok_rows px st i e :
  ready env st -> entries_ok px st -> rows (st_validators st) !! i = Some e -> entry_ok spec px i (e_validator e).
Proof. intros R H E. apply H. by apply rows_lookup; [apply (rd_lengths _ _ R)|]. Qed.

(** The registry updates. *)
Lemma registry_part st px sh :
  ready env st -> pass_start spec env disable_all st = Ok (px, sh) -> pass_ok px -> entries_ok px st ->
  (forall st', part only_registry_updates st = Ok st' <->
     exists es sh', loop (entry_step spec only_registry_updates px) 0 (rows (st_validators st)) sh = Ok (es, sh')
       /\ st' = after st es (sh_registry sh'))
  /\ forall es sh', loop (entry_step spec only_registry_updates px) 0 (rows (st_validators st)) sh = Ok (es, sh') ->
       let st' := after st es (sh_registry sh') in
       ready env st' /\ pass_start spec env disable_all st' = Ok (px, mkPassShared (start_registry st') (sh_balances sh))
       /\ rows (st_validators st') = es
       /\ Forall2 (updated (st_current_epoch st)) (validators (st_validators st)) (validators (st_validators st')).
Proof.
  intros R S HP HE. destruct (start_of only_registry_updates _ _ _ eq_refl S) as [_ HN]. split.
  - intros st'. by apply simple_stage.
  - intros es sh' L st'. pose proof (ready_after _ _ _ _ _ _ R S L) as R'.
    pose proof (rows_after _ _ _ _ _ _ (sh_registry sh') R L) as Hr. pose proof (pass_start_shared _ _ _ _ _ _ S) as (_ & _ & _ & Hc & _).
    rewrite <-HN in L. assert (Forall2 (updated (st_current_epoch st)) (validators (st_validators st)) (map e_validator es)) as F.
    { rewrite <-(validators_rows _ R), <-Hc. eapply registry_loop_updated; [done| |exact L].
      intros k e. by apply entries_ok_rows. }
    split; [done|]. split; [|by split].
    destruct (pass_start_agree st st' px sh) as (px2 & E & _ & Hpx); [done..|].
    rewrite E, Hpx; [done|unfold active_validator_count; cbn; by apply updated_active|done].
Qed.

(** The first four parts, as loops, and what holds of the state they lead to. *)
Definition four_loops px (es : list Entry) sh (es4 : list Entry) sh' : Prop :=
  exists es1 es2 es3,
    loop (entry_step spec only_inactivity_updates px) 0 es sh = Ok (es1, sh)
    /\ loop (entry_step spec only_rewards_and_penalties px) 0 es1 sh = Ok (es2, sh)
    /\ loop (entry_step spec only_registry_updates px) 0 es2 sh = Ok (es3, sh')
    /\ loop (entry_step spec only_slashings px) 0 es3 sh' = Ok (es4, sh').

Lemma four_parts st px sh :
  ready env st -> pass_start spec env disable_all st = Ok (px, sh) -> pass_ok px -> entries_ok px st ->
  (forall st4, (exists st1 st2 st3,
     part only_inactivity_updates st = Ok st1 /\ part only_rewards_and_penalties st1 = Ok st2
     /\ part only_registry_updates st2 = Ok st3 /\ part only_slashings st3 = Ok st4)
   <-> exists es4 sh', four_loops px (rows (st_validators st)) sh es4 sh' /\ st4 = after st es4 (sh_registry sh'))
  /\ forall es4 sh', four_loops px (rows (st_validators st)) sh es4 sh' ->
       let st4 := after st es4 (sh_registry sh') in
       ready env st4 /\ pass_start spec env disable_all st4 = Ok (px, mkPassShared (start_registry st4) (sh_balances sh))
       /\ rows (st_validators st4) = es4
       /\ Forall2 (updated (st_current_epoch st)) (validators (st_validators st)) (validators (st_validators st4)).
Proof.
  intros R S HP HE. destruct (start_of disable_all _ _ _ eq_refl S) as [_ HN].
  pose proof (row_inactivity spec px) as W1. pose proof (row_rewards spec px) as W2. pose proof (row_slashings spec px) as W4.
  rewrite HN in W1, W2, W4.
  destruct (row_part only_inactivity_updates st px sh) as [I1 N1]; [done..|].
  split; [intros st4; split|].
  - intros (st1 & st2 & st3 & (es1 & L1 & ->)%I1 & P2 & P3 & P4). destruct (N1 _ L1) as (R1 & S1 & Hr1 & HV1).
    destruct (row_part only_rewards_and_penalties _ _ _ R1 S1 ltac:(done) eq_refl W2) as [I2 N2]. rewrite Hr1 in I2, N2.
    apply I2 in P2 as (es2 & L2 & ->). destruct (N2 _ L2) as (R2 & S2 & Hr2 & HV2).
    destruct (registry_part _ _ _ R2 S2 HP) as [I3 N3]; [unfold entries_ok; by rewrite HV2, HV1|]. rewrite Hr2 in I3, N3.
    apply I3 in P3 as (es3 & sh' & L3 & ->). destruct (N3 _ _ L3) as (R3 & S3 & Hr3 & F3).
    destruct (row_part only_slashings _ _ _ R3 S3 ltac:(done) eq_refl W4) as [I4 N4]. rewrite Hr3 in I4, N4.
    apply I4 in P4 as (es4 & L4 & ->). destruct (row_step_loop _ _ _ _ _ _ W4 L4) as [_ L4'].
    exists es4, sh'. split; [by exists es1, es2, es3|done].
  - intros (es4 & sh' & (es1 & es2 & es3 & L1 & L2 & L3 & L4) & ->). destruct (N1 _ L1) as (R1 & S1 & Hr1 & HV1).
    destruct (row_part only_rewards_and_penalties _ _ _ R1 S1 ltac:(done) eq_refl W2) as [I2 N2]. rewrite Hr1 in I2, N2.
    destruct (N2 _ L2) as (R2 & S2 & Hr2 & HV2).
    destruct (registry_part _ _ _ R2 S2 HP) as [I3 N3]; [unfold entries_ok; by rewrite HV2, HV1|]. rewrite Hr2 in I3, N3.
    destruct (N3 _ _ L3) as (R3 & S3 & Hr3 & F3).
    destruct (row_part only_slashings _ _ _ R3 S3 ltac:(done) eq_refl W4) as [I4 N4]. rewrite Hr3 in I4, N4.
    destruct (row_step_loop _ _ _ _ _ _ W4 L4) as [_ L4'].
    exists (put st es1), (put (put st es1) es2), (after (put (put st es1) es2) es3 (sh_registry sh')).
    split; [by apply I1; exists es1|]. split; [by apply I2; exists es2|]. split; [by apply I3; exists es3, sh'|].
    by apply I4; exists es4.
  - intros es4 sh' (es1 & es2 & es3 & L1 & L2 & L3 & L4) st4. destruct (N1 _ L1) as (R1 & S1 & Hr1 & HV1).
    destruct (row_part only_rewards_and_penalties _ _ _ R1 S1 ltac:(done) eq_refl W2) as [I2 N2]. rewrite Hr1 in I2, N2.
    destruct (N2 _ L2) as (R2 & S2 & Hr2 & HV2).
    destruct (registry_part _ _ _ R2 S2 HP) as [I3 N3]; [unfold entries_ok; by rewrite HV2, HV1|]. rewrite Hr2 in I3, N3.
    destruct (N3 _ _ L3) as (R3 & S3 & Hr3 & F3).
    destruct (row_part only_slashings _ _ _ R3 S3 ltac:(done) eq_refl W4) as [I4 N4]. rewrite Hr3 in N4.
    destruct (row_step_loop _ _ _ _ _ _ W4 L4) as [_ L4'].
    destruct (N4 _ (L4' _)) as (R4 & S4 & Hr4 & HV4). split; [exact R4|]. split; [exact S4|]. split; [exact Hr4|].
    change (validators (st_validators st4)) with (validators (st_validators (put (after (put (put st es1) es2) es3 (sh_registry sh')) es4))).
    rewrite HV4. rewrite HV2, HV1 in F3. exact F3.
Qed.

Lemma with_deposits_ok px st : pass_ok (no_deposits px) -> entries_ok (no_deposits px) st -> pass_ok px /\ entries_ok px st.
Proof. intros [] HE. split; [by split|]. intros i v Hv. by destruct (HE i v Hv). Qed.

Lemma five_parts st stA px :
  ready env st -> (forall px0 sh, pass_start spec env disable_all st = Ok (px0, sh) -> pass_ok px0 /\ entries_ok px0 st) ->
  (exists sh es sh', pass_start spec env all_but_effective_balances st = Ok (px, sh)
     /\ loop (entry_step spec all_but_effective_balances px) 0 (rows (st_validators st)) sh = Ok (es, sh')
     /\ stA = after st es (sh_registry sh'))
  <-> exists st4 sh es sh',
     (exists st1 st2 st3, part only_inactivity_updates st = Ok st1 /\ part only_rewards_and_penalties st1 = Ok st2
        /\ part only_registry_updates st2 = Ok st3 /\ part only_slashings st3 = Ok st4)
     /\ ready env st4 /\ pass_start spec env only_pending_deposits st4 = Ok (px, sh)
     /\ loop (entry_step spec only_pending_deposits px) 0 (rows (st_validators st4)) sh = Ok (es, sh')
     /\ stA = after st4 es (sh_registry sh').
Proof.
  intros R HH. destruct (pass_start spec env disable_all st) as [[px0 sh0]|] eqn:S.
  2:{ split; [intros (sh & es & sh' & H%pass_start_split & _); by rewrite S in H; destruct H|].
      intros (? & _ & _ & _ & (st1 & _ & _ & (px1 & sh1 & ? & ? & H%pass_start_split & _)%single_pass_ok & _) & _); [|done..].
      rewrite S in H. by destruct H. }
  destruct (HH px0 sh0 eq_refl) as [HP HE]. destruct (four_parts st px0 sh0 R S HP HE) as [I4 N4].
  assert (forall es4 sh', four_loops px0 (rows (st_validators st)) sh0 es4 sh' ->
            let st4 := after st es4 (sh_registry sh') in
            forall sh, pass_start spec env only_pending_deposits st4 = Ok (px, sh) <->
              sh = mkPassShared (start_registry st4) (sh_balances sh0)
              /\ pass_start spec env all_but_effective_balances st = Ok (px, sh0)) as HD.
  { intros es4 sh' L st4 sh. destruct (N4 _ _ L) as (R4 & S4 & _ & F4). fold st4 in S4, F4.
    rewrite (pass_start_split _ _ only_pending_deposits), (pass_start_split _ _ all_but_effective_balances), S, S4,
      (deposits_context_updated st st4) by done.
    cbn [c_pending_deposits only_pending_deposits all_but_effective_balances].
    change (st_fork st4) with (st_fork st). split; [intros [[= -> ->] ?]|intros (-> & [= ->] & ?)]; done. }
  assert (forall sh, pass_start spec env all_but_effective_balances st = Ok (px, sh) -> sh = sh0 /\ px0 = no_deposits px) as H0.
  { intros sh [H _]%pass_start_split. rewrite S in H. by injection H as -> ->. }
  split.
  - intros (sh & es & sh' & H & L & ->). destruct (H0 _ H) as [-> ->]. destruct (with_deposits_ok _ _ HP HE) as [HP' HE'].
    apply loop_staged in L as (es1 & es2 & es3 & es4 & L1 & L2 & L3 & L4 & L5); [|done|done|intros i e; by apply entries_ok_rows].
    assert (four_loops (no_deposits px) (rows (st_validators st)) sh0 es4 sh') as L by by exists es1, es2, es3.
    destruct (N4 _ _ L) as (R4 & S4 & Hr4 & _). destruct (row_step_loop _ _ _ _ _ _ (row_deposits spec px) L5) as [_ L5'].
    eexists (after st es4 (sh_registry sh')), _, es, _. split; [apply I4; by exists es4, sh'|]. split; [done|].
    split; [apply (HD _ _ L); by split|]. rewrite Hr4. split; [apply L5'|]. cbn [sh_registry]. by rewrite after_start.
  - intros (st4 & sh & es & sh5 & (es4 & sh' & L & ->)%I4 & R4 & (-> & H)%(HD _ _ L) & L5 & ->). destruct (H0 _ H) as [_ ->].
    destruct (with_deposits_ok _ _ HP HE) as [HP' HE'].
    destruct (N4 _ _ L) as (_ & _ & Hr4 & _). rewrite Hr4 in L5.
    destruct (row_step_loop _ _ _ _ _ _ (row_deposits spec px) L5) as [-> L5']. cbn [sh_registry]. rewrite after_start.
    destruct L as (es1 & es2 & es3 & L1 & L2 & L3 & L4). exists sh0, es, sh'. split; [done|]. split; [|done].
    apply loop_staged; [done|done|intros i e; by apply entries_ok_rows|]. by exists es1, es2, es3, es4.
Qed.
End single.
