(* ===== verification/EpochClaims.v ===== *)
(** * The claims about the end of an epoch

    The transition up to the effective balances is its parts in order, and exits respect
    the churn of the balance. *)

From S2P Require Import EpochProcessing EpochStages EpochEquiv.
Local Open Scope rust_scope.
Local Open Scope Z_scope.

(** The parts one by one, in the order of the specification. *)
Definition parts : list SinglePassConfig :=
  [only_inactivity_updates; only_rewards_and_penalties; only_registry_updates; only_slashings; only_pending_deposits;
   only_pending_consolidations; only_builder_pending_payments; only_proposer_lookahead; only_ptc_window].

Fixpoint run_parts (spec : EpochSpec) (env : EpochEnv) (confs : list SinglePassConfig) (st : EpochState)
    : Result EpochState EpochError :=
  match confs with
  | [] => Ok st
  | conf :: confs => let? st := process_epoch_single_pass spec env conf st in run_parts spec env confs st
  end.

Section claims.
Context (spec : EpochSpec) (env : EpochEnv) (SP : spec_ok spec).
Implicit Types (px : PassContext) (sh : PassShared) (rs : RegistryShared).

(** * Parts after the pass *)

Definition infos_ok px (st : EpochState) : Prop :=
  forall i v p c, validators (st_validators st) !! i = Some v -> is_ok (validator_info px i v p c) = true.

Definition idle (conf : SinglePassConfig) : Prop :=
  c_inactivity_updates conf = false /\ c_rewards_and_penalties conf = false /\ c_registry_updates conf = false
  /\ c_slashings conf = false /\ c_pending_deposits conf = false /\ c_effective_balance_updates conf = false.

Lemma idle_loop conf px i es sh :
  idle conf -> ps_deposits px = None ->
  (forall k e, es !! k = Some e -> is_ok (validator_info px (i + k) (e_validator e) (e_previous e) (e_current e)) = true) ->
  loop (entry_step spec conf px) i es sh = Ok (es, sh).
Proof.
  intros C HD. revert i. induction es as [|e es IH]; intros i H; [done|]. apply loop_cons. exists e, sh, es.
  split; [|split; [apply IH; intros k e' He'; replace (S i + k)%nat with (i + S k)%nat by lia; by apply H|done]].
  apply entry_step_ok. split; [|done]. apply process_validator_ok.
  specialize (H 0%nat e eq_refl). rewrite Nat.add_0_r in H.
  destruct (validator_info px i (e_validator e) (e_previous e) (e_current e)) as [info|] eqn:E; [|done].
  destruct C as (C1 & C2 & C3 & C4 & _ & C6). exists info, (e_row e), (e_row e), (e_row e), (sh_registry sh), (e_row e), (e_row e), (sh_balances sh).
  unfold when, deposits_stage. rewrite C1, C2, C3, C4, C6, HD. by destruct sh.
Qed.

Lemma info_alike px px2 i v p c : alike px px2 -> validator_info px2 i v p c = validator_info px i v p c.
Proof. intros [A1 _ A3 A4]. unfold validator_info. by rewrite A1, A3, A4. Qed.

(** A part without work in the pass. *)
Lemma idle_part conf st0 st px sh st' :
  idle conf -> ready env st -> pass_start spec env disable_all st0 = Ok (px, sh) -> agree st0 st -> infos_ok px st ->
  process_epoch_single_pass spec env conf st = Ok st' <-> rest spec env conf px st = Ok st'.
Proof.
  intros C R S A HI. pose proof C as (_ & _ & _ & _ & C5 & C6). rewrite (single_pass_ok spec env conf st st' R C6).
  destruct (pass_start_agree _ _ _ _ _ _ A S) as (px2 & S2 & AL & _).
  destruct (start_of _ _ conf _ _ _ C5 S2) as [S2' HN2]. destruct (start_of _ _ disable_all _ _ _ eq_refl S) as [_ HN].
  assert (ps_deposits px2 = None) as HD2 by by rewrite <-HN2. assert (ps_deposits px = None) as HD by by rewrite <-HN.
  assert (loop (entry_step spec conf px2) 0 (rows (st_validators st)) (mkPassShared (start_registry st) (sh_balances sh))
          = Ok (rows (st_validators st), mkPassShared (start_registry st) (sh_balances sh))) as HL.
  { apply idle_loop; [done..|]. intros k e He. rewrite (info_alike _ _ _ _ _ _ AL). apply HI.
    by apply rows_lookup; [apply (rd_lengths _ _ R)|]. }
  assert (after st (rows (st_validators st)) (start_registry st) = st) as HA.
  { rewrite after_start, set_rows_self by apply (rd_lengths _ _ R). by destruct st. }
  assert (rest spec env conf px2 st = rest spec env conf px st) as HR.
  { unfold rest, deposits_tail, process_builder_pending_payments, get_builder_payment_quorum_threshold.
    by rewrite HD, HD2, (al_total _ _ AL). }
  split.
  - intros (px' & sh' & es & sh2 & S' & L & Hr). rewrite S2' in S'. injection S' as <- <-. rewrite HL in L. injection L as <- <-.
    cbn [sh_registry] in Hr. by rewrite HA, HR in Hr.
  - intros Hr. eexists px2, _, _, _. split; [exact S2'|]. split; [exact HL|]. cbn [sh_registry]. by rewrite HA, HR.
Qed.

(** * What the later parts keep *)

Record still px (st st2 : EpochState) : Prop := {
  sl_ready : ready env st2;
  sl_agree : agree st st2;
  sl_infos : infos_ok px st2
}.

(** A validator of a new deposit. *)
Definition fresh (v : Validator) : Prop :=
  slashed v = false /\ activation_epoch v = far_future_epoch spec /\ exit_epoch v = far_future_epoch spec.

Lemma fresh_info px i v p c : ps_previous_epoch px < far_future_epoch spec -> fresh v -> is_ok (validator_info px i v p c) = true.
Proof.
  intros H (F1 & F2 & _). assert (is_active_at v (ps_previous_epoch px) = false) as E.
  { unfold is_active_at. by rewrite F2, (proj2 (Z.leb_gt _ _) H). }
  unfold validator_info. by rewrite E, F1.
Qed.

Lemma with_balances_lengths vs bs : same_lengths vs -> length bs = length (balances vs) -> same_lengths (with_balances vs bs).
Proof. intros [] Hb. split; cbn; congruence. Qed.

Lemma change_balance_still px st st2 i f st3 :
  still px st st2 -> change_balance_at st2 i f = Ok st3 -> still px st st3 /\ validators (st_validators st3) = validators (st_validators st2)
    /\ st_later st3 = st_later st2.
Proof.
  intros [[R1 R2 R3 R4 R5 R6 R7] [] I]. unfold change_balance_at. destruct (balances (st_validators st2) !! i) as [b|]; [|done].
  intros H. unchain H. injection H as <-. split; [|done]. split; [split; try done|done|done].
  apply with_balances_lengths; [done|]. by rewrite length_insert.
Qed.

Lemma add_validator_still px st st2 d st3 i :
  ps_previous_epoch px < far_future_epoch spec -> still px st st2 -> add_validator_to_registry spec st2 d = Ok (st3, i) ->
  still px st st3 /\ st_later st3 = st_later st2.
Proof.
  intros HF [[R1 R2 R3 R4 R5 R6 [L1 L2 L3 L4]] [] I]. unfold add_validator_to_registry, pubkey_insert. rewrite R6, Nat.eqb_refl. intros [= <- <-].
  split; [|done]. split; [split; try done; cbn|done|].
  - rewrite length_app. cbn. lia.
  - split; cbn; rewrite !length_app; cbn; lia.
  - intros k v p c Hk. cbn in Hk. apply lookup_app_Some in Hk as [Hk|[_ Hk]]; [by apply I|].
    apply list_lookup_singleton_Some in Hk as [_ <-]. by apply fresh_info.
Qed.

Lemma apply_deposits_still px ds st st2 added st3 added' :
  ps_previous_epoch px < far_future_epoch spec -> still px st st2 -> apply_new_deposits spec env ds st2 added = Ok (st3, added') ->
  still px st st3 /\ st_later st3 = st_later st2.
Proof.
  intros HF. revert st2 added. induction ds as [|d ds IH]; intros st2 added HS; [by intros [= <- _]|]. cbn [apply_new_deposits].
  rewrite (build_pubkey_cache_same st2) by apply (sl_ready _ _ _ HS). destruct (pubkey_get _ _) as [i|].
  - destruct (change_balance_at _ _ _) as [st4|] eqn:E; [|done]. destruct (change_balance_still _ _ _ _ _ _ HS E) as (HS4 & _ & <-).
    by apply IH.
  - destruct (is_valid_deposit_signature env d); [|by apply IH].
    destruct (add_validator_to_registry _ _ _) as [[st4 i]|] eqn:E; [|done].
    destruct (add_validator_still _ _ _ _ _ _ HF HS E) as (HS4 & <-). by apply IH.
Qed.

Lemma deposits_tail_still px px0 st st2 st3 :
  ps_previous_epoch px0 < far_future_epoch spec -> still px0 st st2 -> deposits_tail spec env px st2 = Ok st3 -> still px0 st st3.
Proof.
  intros HF HS. unfold deposits_tail. destruct (ps_deposits px) as [d|]; [|by intros [= <-]]. intros H. unchain H. injection H as <-.
  eapply apply_deposits_still in E as [? _]; [done..|]. by destruct HS as [[] [] ?].
Qed.

Lemma consolidate_still px ps next n st st2 n' st3 :
  still px st st2 -> consolidate ps next n st2 = Ok (n', st3) -> still px st st3 /\ st_later st3 = st_later st2.
Proof.
  revert n st2. induction ps as [|p ps IH]; intros n st2 HS; [by intros [= _ <-]|]. cbn [consolidate].
  destruct (validators _ !! _) as [v|]; [|done]. destruct (slashed v); [by apply IH|].
  destruct (next <? withdrawable_epoch v); [by intros [= _ <-]|]. destruct (balances _ !! _) as [b|]; [|done].
  destruct (change_balance_at st2 _ _) as [s1|] eqn:E1; [|done]. destruct (change_balance_still _ _ _ _ _ _ HS E1) as (HS1 & _ & L1).
  destruct (change_balance_at s1 _ _) as [s2|] eqn:E2; [|done]. destruct (change_balance_still _ _ _ _ _ _ HS1 E2) as (HS2 & _ & L2).
  rewrite <-L1, <-L2. by apply IH.
Qed.

Lemma later_still px st st2 l : still px st st2 -> still px st (with_later st2 l).
Proof. by intros [[] [] ?]. Qed.

Lemma consolidations_still px st st2 st3 : still px st st2 -> consolidations_tail st2 = Ok st3 -> still px st st3.
Proof.
  intros HS. unfold consolidations_tail. intros H. unchain H. injection H as <-.
  apply later_still. by eapply consolidate_still.
Qed.

(** * The whole transition *)

(** The conditions on a state at the end of an epoch: its caches are built, no validator
    can be withdrawn before it exits, and the activation queue names validators that are
    not active. *)
Record epoch_ready (st : EpochState) : Prop := {
  er_ready : ready env st;
  er_validators : Forall (validator_ok spec) (validators (st_validators st));
  er_queue q e i v : activation_queue (epoch_cache (st_caches st)) = Ok q -> (e, i) ∈ q ->
    validators (st_validators st) !! i = Some v -> activation_epoch v = far_future_epoch spec
}.

Lemma epoch_ready_pass st px sh :
  epoch_ready st -> pass_start spec env disable_all st = Ok (px, sh) ->
  pass_ok px /\ entries_ok spec px st /\ ps_previous_epoch px < far_future_epoch spec.
Proof.
  intros [R V Q] S. pose proof (rd_epoch _ _ R) as H0. pose proof (pass_start_shared _ _ _ _ _ _ S) as (_ & _ & _ & S4 & S5 & _).
  assert (previous_epoch_of (st_current_epoch st) <= st_current_epoch st) by (unfold previous_epoch_of; case_match; lia).
  split; [split; [by rewrite S4|by rewrite S4, S5]|]. split.
  - intros i v Hi. split; [by eapply Forall_lookup_1|]. intros q Hq Hin. unfold pass_start in S. unchain S. injection S as <- <-.
    cbn in Hq. destruct (electra_enabled (st_fork st)); [injection E4 as <-; done|].
    unchain E4. injection E4 as <-. injection Hq as <-. unfold get_validators_eligible_for_activation in Hin.
    apply elem_of_take in Hin as (k & Hk & _). apply list_elem_of_lookup_2 in Hk. apply list_elem_of_In, in_map_iff in Hk as ([e j] & <- & Hin).
    apply filter_In in Hin as [Hin%list_elem_of_In _]. by eapply Q.
  - rewrite S5, (sp_far _ SP). unfold pass_start, StateContext_of in S.
    destruct (safe_add (st_current_epoch st) 1) as [next|] eqn:En; [|done]. apply safe_add_ok in En as [-> ?]. lia.
Qed.

Lemma run_parts_cons conf confs st st' :
  run_parts spec env (conf :: confs) st = Ok st' <->
  exists st1, process_epoch_single_pass spec env conf st = Ok st1 /\ run_parts spec env confs st1 = Ok st'.
Proof.
  cbn [run_parts]. split; [destruct (process_epoch_single_pass _ _ _ _) as [st1|]; [by exists st1|done]|].
  intros (st1 & -> & H). exact H.
Qed.

Lemma rest_consolidations px st :
  rest spec env only_pending_consolidations (no_deposits px) st = if electra_enabled (st_fork st) then consolidations_tail st else Ok st.
Proof.
  unfold rest, deposits_tail. cbn. rewrite andb_true_r. destruct (if electra_enabled (st_fork st) then _ else _) as [s|]; [|done].
  by rewrite andb_false_r.
Qed.
Lemma rest_builder px st :
  rest spec env only_builder_pending_payments (no_deposits px) st
  = if gloas_fork (st_fork st) then process_builder_pending_payments spec (ps_state px) st else Ok st.
Proof.
  unfold rest, deposits_tail. cbn. rewrite andb_false_r, andb_true_r. by destruct (if gloas_fork (st_fork st) then _ else _).
Qed.
Lemma rest_lookahead px st :
  rest spec env only_proposer_lookahead (no_deposits px) st
  = if fulu_enabled (st_fork st) then process_proposer_lookahead spec env st else Ok st.
Proof.
  unfold rest, deposits_tail. cbn. rewrite !andb_false_r. by destruct (if fulu_enabled (st_fork st) then _ else _).
Qed.
Lemma rest_ptc px st :
  rest spec env only_ptc_window (no_deposits px) st = if gloas_fork (st_fork st) then process_ptc_window spec env st else Ok st.
Proof. unfold rest, deposits_tail. cbn. by rewrite !andb_false_r. Qed.

(** The parts after the pass. *)
Lemma tail_parts st st2 px sh st' :
  pass_start spec env disable_all st = Ok (no_deposits px, sh) -> still (no_deposits px) st st2 ->
  ps_previous_epoch px < far_future_epoch spec ->
  rest spec env all_but_effective_balances px st2 = Ok st' <->
  exists st3, deposits_tail spec env px st2 = Ok st3
    /\ run_parts spec env [only_pending_consolidations; only_builder_pending_payments; only_proposer_lookahead; only_ptc_window] st3 = Ok st'.
Proof.
  intros S HS HF.
  assert (forall conf s s', idle conf -> still (no_deposits px) st s ->
            process_epoch_single_pass spec env conf s = Ok s' <-> rest spec env conf (no_deposits px) s = Ok s') as HI.
  { intros conf s s' C [R A I]. by apply (idle_part conf st s _ sh). }
  assert (forall s s', still (no_deposits px) st s ->
            (if electra_enabled (st_fork s) then consolidations_tail s else Ok s) = Ok s' -> still (no_deposits px) st s') as H4.
  { intros s s' H. destruct (electra_enabled (st_fork s)); [by apply consolidations_still|by intros [= <-]]. }
  assert (forall s s', still (no_deposits px) st s ->
            (if gloas_fork (st_fork s) then process_builder_pending_payments spec (ps_state px) s else Ok s) = Ok s' ->
            still (no_deposits px) st s') as H5.
  { intros s s' H. destruct (gloas_fork (st_fork s)); [|by intros [= <-]]. intros Hb. unfold process_builder_pending_payments in Hb.
    unchain Hb. injection Hb as <-. by apply later_still. }
  assert (forall s s', still (no_deposits px) st s ->
            (if fulu_enabled (st_fork s) then process_proposer_lookahead spec env s else Ok s) = Ok s' ->
            still (no_deposits px) st s') as H6.
  { intros s s' H. destruct (fulu_enabled (st_fork s)); [|by intros [= <-]]. intros Hb. unfold process_proposer_lookahead in Hb.
    unchain Hb. injection Hb as <-. by apply later_still. }
  unfold rest at 1. cbn [c_pending_consolidations c_builder_pending_payments c_proposer_lookahead c_ptc_window all_but_effective_balances andb].
  split.
  - intros H. unchain H. rewrite andb_true_r in E0, E1. eexists. split; [done|]. pose proof (deposits_tail_still px (no_deposits px) _ _ _ HF HS E) as HS3.
    pose proof (H4 _ _ HS3 E0) as HS4. pose proof (H5 _ _ HS4 E1) as HS5. pose proof (H6 _ _ HS5 E2) as HS6.
    apply run_parts_cons. eexists. split; [apply HI; [done..|]; by rewrite rest_consolidations|].
    apply run_parts_cons. eexists. split; [apply HI; [done..|]; by rewrite rest_builder|].
    apply run_parts_cons. eexists. split; [apply HI; [done..|]; by rewrite rest_lookahead|].
    apply run_parts_cons. eexists. split; [apply HI; [done..|]; by rewrite rest_ptc|]. done.
  - intros (s3 & E & (s4 & P4 & (s5 & P5 & (s6 & P6 & (s7 & P7 & [= <-])%run_parts_cons)%run_parts_cons)%run_parts_cons)%run_parts_cons).
    pose proof (deposits_tail_still px (no_deposits px) _ _ _ HF HS E) as HS3. rewrite E.
    apply HI in P4; [|done..]. rewrite rest_consolidations in P4. pose proof (H4 _ _ HS3 P4) as HS4. rewrite andb_true_r, P4.
    apply HI in P5; [|done..]. rewrite rest_builder in P5. pose proof (H5 _ _ HS4 P5) as HS5. rewrite andb_true_r, P5.
    apply HI in P6; [|done..]. rewrite rest_lookahead in P6. pose proof (H6 _ _ HS5 P6) as HS6. rewrite P6.
    apply HI in P7; [|done..]. by rewrite rest_ptc in P7.
Qed.

Lemma info_flags px i v p c p' c' : is_ok (validator_info px i v p c) = is_ok (validator_info px i v p' c').
Proof.
  unfold validator_info. match goal with |- is_ok (match ?r with _ => _ end) = _ => destruct r as [el|]; [|done] end.
  by destruct (if el then get_base_reward (ps_epoch_cache px) i else Ok 0).
Qed.

Lemma deposits_loop_infos px st sh es sh' :
  ready env st -> loop (entry_step spec only_pending_deposits px) 0 (rows (st_validators st)) sh = Ok (es, sh') ->
  infos_ok (no_deposits px) (after st es (sh_registry sh')).
Proof.
  intros R L i v p c Hv. cbn in Hv. apply list_lookup_fmap_Some in Hv as (e' & -> & He).
  destruct (loop_lookup _ _ _ _ _ _ _ _ L He) as (e & y & y' & _ & (info & Hi & Hd & _)%only_deposits_ok).
  rewrite (info_flags _ _ _ _ _ (e_previous e) (e_current e)). apply deposits_keeps in Hd. unfold e_validator in *. rewrite Hd.
  replace (validator_info (no_deposits px) i) with (validator_info px i) by done. cbn in Hi. by rewrite Hi.
Qed.

(** C21: The one pass over the validators, without the effective balance updates, is
    equivalent to the parts of the transition run one by one over all validators, in
    the order of the specification: either both fail or both give the same state.  In
    particular the pending deposits, scanned before the registry updates, are treated
    as they are after them. *)
Theorem single_pass_is_staged st st' :
  epoch_ready st ->
  process_epoch_single_pass spec env all_but_effective_balances st = Ok st' <-> run_parts spec env parts st = Ok st'.
Proof.
  intros HE. pose proof (er_ready _ HE) as R. rewrite single_pass_ok by done.
  assert (forall px0 sh, pass_start spec env disable_all st = Ok (px0, sh) -> pass_ok px0 /\ entries_ok spec px0 st) as HP
    by (intros px0 sh S; by destruct (epoch_ready_pass _ _ _ HE S) as (? & ? & _)).
  assert (forall px sh, pass_start spec env all_but_effective_balances st = Ok (px, sh) ->
            pass_start spec env disable_all st = Ok (no_deposits px, sh) /\ ps_previous_epoch px < far_future_epoch spec) as HS0.
  { intros px sh [S _]%pass_start_split. split; [done|]. by destruct (epoch_ready_pass _ _ _ HE S) as (_ & _ & ?). }
  assert (forall px s, rest spec env only_pending_deposits px s = deposits_tail spec env px s) as HD.
  { intros px s. unfold rest. destruct (deposits_tail spec env px s); [|done]. cbn. by rewrite !andb_false_r. }
  assert (forall px st4 sh4 es sh5 stA, ready env st4 -> pass_start spec env only_pending_deposits st4 = Ok (px, sh4) ->
            loop (entry_step spec only_pending_deposits px) 0 (rows (st_validators st4)) sh4 = Ok (es, sh5) ->
            stA = after st4 es (sh_registry sh5) -> agree st stA -> still (no_deposits px) st stA) as HS.
  { intros px st4 sh4 es sh5 stA R4 S4 L4 -> A. split; [by eapply ready_after|done|by eapply deposits_loop_infos]. }
  split.
  - intros (px & sh & es & sh' & S & L & H). destruct (HS0 _ _ S) as [S0 HF].
    destruct (proj1 (five_parts spec env SP st (after st es (sh_registry sh')) px R HP)) as
      (st4 & sh4 & es4 & sh5 & (st1 & st2 & st3 & P1 & P2 & P3 & P4) & R4 & S4 & L4 & EA); [by exists sh, es, sh'|].
    apply (tail_parts st _ px sh) in H as (sB & HB & HT); [|done|by eapply HS|done].
    apply run_parts_cons. exists st1. split; [done|]. apply run_parts_cons. exists st2. split; [done|].
    apply run_parts_cons. exists st3. split; [done|]. apply run_parts_cons. exists st4. split; [done|].
    apply run_parts_cons. exists sB. split; [|done]. apply single_pass_ok; [done..|]. exists px, sh4, es4, sh5.
    do 2 (split; [done|]). by rewrite HD, <-EA.
  - intros (st1 & P1 & (st2 & P2 & (st3 & P3 & (st4 & P4 & (sB & P5 & HT)%run_parts_cons)%run_parts_cons)%run_parts_cons)%run_parts_cons)%run_parts_cons.
    assert (ready env st4) as R4.
    { apply single_pass_ok in P1 as (px1 & sh1 & es1 & sh1' & S & L & HR1); [|done..]. pose proof S as [S' _]%pass_start_split.
      destruct (epoch_ready_pass _ _ _ HE S') as (HP1 & HE1 & _).
      destruct (four_parts spec env SP st _ _ R S' HP1 HE1) as [I4 N4].
      destruct (proj1 (I4 st4)) as (es4 & sh' & L4 & ->); [|by eapply N4].
      exists st1, st2, st3. split; [|done]. apply single_pass_ok; [done..|]. by exists px1, sh1, es1, sh1'. }
    apply single_pass_ok in P5 as (px & sh4 & es4 & sh5 & S4 & L4 & HB); [|done..]. rewrite HD in HB.
    destruct (proj2 (five_parts spec env SP st (after st4 es4 (sh_registry sh5)) px R HP)) as (sh & es & sh' & S & L & EA).
    { exists st4, sh4, es4, sh5. split; [by exists st1, st2, st3|done]. }
    destruct (HS0 _ _ S) as [S0 HF]. exists px, sh, es, sh'. do 2 (split; [done|]). rewrite <-EA.
    apply (tail_parts st _ px sh); [done| |done|by exists sB]. eapply HS; [exact R4|exact S4|exact L4|done|by rewrite EA].
Qed.

(** * The churn of exits *)

(** The balance that a registry update sends out by epoch [e]. *)
Fixpoint exit_total (e : Z) (vs vs' : list Validator) : Z :=
  match vs, vs' with
  | v :: vs, v' :: vs' =>
      (if (exit_epoch v =? far_future_epoch spec) && (exit_epoch v' <=? e) then effective_balance v else 0) + exit_total e vs vs'
  | _, _ => 0
  end.

(** The limit per epoch, from Electra on. *)
Definition exit_churn_limit (st : EpochState) : Result Z EpochError :=
  if gloas_fork (st_fork st) then get_balance_churn_limit spec st else get_activation_exit_churn_limit spec st.

Definition ctx_exit_churn (ctx : StateContext) : Result Z EpochError :=
  if gloas_fork (fork_name ctx) then ctx_balance_churn_limit spec ctx else ctx_activation_exit_churn_limit spec ctx.

(** One row's registry update from Electra on: nothing, or an exit that the queue accounts for. *)
Lemma eject_electra v rs ctx v' rs' e b :
  electra_enabled (fork_name ctx) = true -> rs_earliest_exit_epoch rs = Some e -> rs_exit_balance_to_consume rs = Some b ->
  eject spec v rs ctx = Ok (v', rs') ->
  (exit_epoch v' = exit_epoch v /\ rs' = rs)
  \/ exists epoch b', exit_epoch v = far_future_epoch spec /\ exit_epoch v' = epoch
       /\ rs_earliest_exit_epoch rs' = Some epoch /\ rs_exit_balance_to_consume rs' = Some b'
       /\ compute_exit_epoch_and_update_churn spec v ctx e b = Ok (epoch, epoch, b').
Proof.
  intros HF He Hb. unfold eject. case_match; [|intros [= <- <-]; by left]. unfold initiate_validator_exit.
  destruct (Z.eqb_spec (exit_epoch v) (far_future_epoch spec)) as [Hf|Hf]; cbn [negb]; [|intros [= <- <-]; by left].
  rewrite HF, He, Hb. intros Hr. unchain Hr. injection Hr as <- <-. unchain E. injection E as <- <- <-.
  destruct (exit_by_balance spec SP _ _ _ _ _ _ _ E2) as (_ & _ & _ & _ & -> & _). right. by repeat eexists.
Qed.

Lemma registry_electra px i row rs row' rs' e b :
  electra_enabled (fork_name (ps_state px)) = true -> rs_earliest_exit_epoch rs = Some e -> rs_exit_balance_to_consume rs = Some b ->
  registry_stage spec px i row rs = Ok (row', rs') ->
  let v := row_validator row in let v' := row_validator row' in
  (exit_epoch v' = exit_epoch v /\ rs' = rs)
  \/ exists epoch b', exit_epoch v = far_future_epoch spec /\ exit_epoch v' = epoch
       /\ rs_earliest_exit_epoch rs' = Some epoch /\ rs_exit_balance_to_consume rs' = Some b'
       /\ compute_exit_epoch_and_update_churn spec v (ps_state px) e b = Ok (epoch, epoch, b').
Proof.
  intros HF He Hb H v v'. subst v v'. unfold registry_stage, process_single_registry_update in H. rewrite HF, He, Hb in H. unchain H. injection H as <- <-.
  unfold process_single_registry_update_post_electra in E. unchain E. injection E as <- <-.
  assert (exit_epoch a0 = exit_epoch v0) as Hx.
  { destruct (is_eligible_for_activation_with_finalized_checkpoint _ _ _); [|by injection E2 as <-].
    unfold activate in E2. unchain E2. by injection E2 as <-. }
  assert (exit_epoch a = exit_epoch (row_validator row) /\ effective_balance a = effective_balance (row_validator row)) as [Ha1 Ha2].
  { unfold queue_for_activation in E0. destruct (is_eligible_for_activation_queue _ _ _); [|by injection E0 as <-].
    unchain E0. by injection E0 as <-. }
  cbn [row_validator]. rewrite Hx.
  destruct (eject_electra _ _ _ _ _ _ _ HF He Hb E1) as [(-> & ->)|(ep & b' & H1 & H2 & H3 & H4 & H5)]; [by left; rewrite Ha1|].
  right. exists ep, b'. rewrite <-Ha1. unfold compute_exit_epoch_and_update_churn in *. rewrite <-Ha2. done.
Qed.

(** From a queue at epoch [e] with [b] left of it, what leaves by [until] is at most what
    is left and the churn of the epochs after it, and nothing leaves before it. *)
Lemma registry_loop_churn px churn delayed until i es sh es' sh' e b :
  electra_enabled (fork_name (ps_state px)) = true -> ctx_exit_churn (ps_state px) = Ok churn ->
  compute_activation_exit_epoch spec (current_epoch (ps_state px)) = Ok delayed -> 0 <= b ->
  rs_earliest_exit_epoch (sh_registry sh) = Some e -> rs_exit_balance_to_consume (sh_registry sh) = Some b ->
  until < far_future_epoch spec ->
  loop (entry_step spec only_registry_updates (no_deposits px)) i es sh = Ok (es', sh') ->
  let start := Z.max e delayed in
  (start <= until -> exit_total until (map e_validator es) (map e_validator es')
                     <= (if e <? start then churn else b) + (until - start) * churn)
  /\ (until < start -> exit_total until (map e_validator es) (map e_validator es') = 0).
Proof.
  intros HF HC HD. pose proof (ctx_churn_nonneg spec SP _ _ HC) as H0. revert i sh es' e b.
  induction es as [|x es IH]; intros i sh es' e b Hb Re Rb HU.
  { cbn. intros [= <- _]. cbn. split; [|done]. intros. assert (0 <= if e <? Z.max e delayed then churn else b) by (case_match; lia). nia. }
  rewrite loop_cons. intros (x1 & sh1 & rest & (info & rs & _ & H & -> & _)%only_registry_ok & L & ->) start. cbn [map exit_total].
  change (exit_epoch (e_validator x)) with (exit_epoch (row_validator (e_row x))).
  change (exit_epoch (e_validator x1)) with (exit_epoch (row_validator (e_row x1))).
  destruct (registry_electra _ _ _ _ _ _ _ _ HF Re Rb H) as [[Hx ->]|(ep & b' & Hf & Hx & Re' & Rb' & HX)].
  - rewrite Hx.
    replace ((exit_epoch (row_validator (e_row x)) =? far_future_epoch spec) && (exit_epoch (row_validator (e_row x)) <=? until)) with false
      by (destruct (Z.eqb_spec (exit_epoch (row_validator (e_row x))) (far_future_epoch spec)); [|done]; cbn; symmetry; apply Z.leb_gt; lia).
    rewrite !Z.add_0_l. by eapply (IH (S i)); [..|exact L].
  - destruct (exit_by_balance spec SP _ _ _ _ _ _ _ HX) as (d' & c' & HD' & HC' & _ & Hb' & _ & Hm & HB).
    fold (ctx_exit_churn (ps_state px)) in HC'. rewrite HC in HC'. injection HC' as <-. rewrite HD in HD'. injection HD' as <-.
    fold start in Hm, HB. destruct (IH (S i) (mkPassShared rs (sh_balances sh)) rest ep b' Hb' Re' Rb' HU L) as [I1 I2].
    rewrite (Z.max_l ep delayed) in I1, I2 by lia. rewrite Z.ltb_irrefl in I1. rewrite Hf, Hx, Z.eqb_refl. cbn [andb].
    assert (0 <= if e <? start then churn else b) as Ha by (case_match; lia).
    change (effective_balance (e_validator x)) with (effective_balance (row_validator (e_row x))).
    destruct (Z.leb_spec ep until).
    + specialize (I1 ltac:(lia)). split; [nia|lia].
    + specialize (I2 ltac:(lia)). split; [nia|lia].
Qed.

Lemma ctx_exit_churn_state st px sh :
  pass_start spec env disable_all st = Ok (px, sh) -> ctx_exit_churn (ps_state px) = exit_churn_limit st.
Proof.
  unfold pass_start, StateContext_of. intros S. unchain S. injection S as <- <-. unchain E. injection E as <-.
  unfold ctx_exit_churn, exit_churn_limit, ctx_activation_exit_churn_limit, get_activation_exit_churn_limit,
    ctx_balance_churn_limit, get_balance_churn_limit. cbn [fork_name ps_state sc_total_active_balance].
  match goal with H : get_total_active_balance st = Ok _ |- _ => by rewrite H end.
Qed.

(** C23: From Electra on, the balance that the registry updates of an epoch send out up to an
    epoch is at most what the queue has left of its first epoch, and one churn limit for
    each epoch after it, whatever validators are ejected. *)
Theorem exit_churn_bounded st st' delayed churn until :
  epoch_ready st -> electra_enabled (st_fork st) = true -> 0 <= exit_balance_to_consume (st_exits st) ->
  compute_activation_exit_epoch spec (st_current_epoch st) = Ok delayed -> exit_churn_limit st = Ok churn ->
  process_epoch_single_pass spec env only_registry_updates st = Ok st' ->
  let earliest := earliest_exit_epoch (st_exits st) in
  let start := Z.max earliest delayed in
  let available := if earliest <? start then churn else exit_balance_to_consume (st_exits st) in
  start <= until < far_future_epoch spec ->
  exit_total until (validators (st_validators st)) (validators (st_validators st')) <= available + (until - start) * churn.
Proof.
  intros HE HF Hb HD HC HP earliest start available HU. pose proof (er_ready _ HE) as R.
  apply single_pass_ok in HP as (px & sh & es & sh' & S & L & HR); [|done..].
  apply pass_start_split in S as [S HN]. cbn in HN. rewrite andb_false_r in HN.
  pose proof (no_deposits_none _ HN) as Hpx. rewrite <-Hpx in L.
  assert (rest spec env only_registry_updates px (after st es (sh_registry sh')) = Ok (after st es (sh_registry sh'))) as HR'.
  { unfold rest, deposits_tail. rewrite HN. cbn. by rewrite !andb_false_r. }
  rewrite HR' in HR. injection HR as <-. rewrite Hpx in S.
  pose proof (ctx_exit_churn_state _ _ _ S) as HCC. pose proof (pass_start_shared _ _ _ _ _ _ S) as (S1 & _ & S3 & S4 & _).
  rewrite <-(validators_rows env _ R). cbn.
  destruct (registry_loop_churn px churn delayed until 0 (rows (st_validators st)) sh es sh' earliest
              (exit_balance_to_consume (st_exits st))) as [I1 _]; [congruence|congruence|congruence|done|..|lia|exact L|].
  - rewrite S1. unfold start_registry. by rewrite HF.
  - rewrite S1. unfold start_registry. by rewrite HF.
  - apply I1. unfold start in HU. lia.
Qed.
End claims.
