(* ===== verification/EpochBalances.v ===== *)
(** * Effective balances and the caches of the next epoch

    The transition updates effective balances in several places: in the pass, for added
    validators, and for those of a consolidation, for which the pass registers a
    provisional value.  The cache of the next epoch, kept up to date along the way,
    is in the end that of the final validators, and every validator's effective balance is within
    the hysteresis of its final balance. *)

From S2P Require Import EpochProcessing EpochStages EpochEquiv.
Local Open Scope rust_scope.
Local Open Scope Z_scope.

(** The balance that is active at an epoch. *)
Fixpoint active_sum (vs : list Validator) (epoch : Z) : Z :=
  match vs with
  | [] => 0
  | v :: vs => (if is_active_at v epoch then effective_balance v else 0) + active_sum vs epoch
  end.

Lemma active_sum_app vs ws e : active_sum (vs ++ ws) e = active_sum vs e + active_sum ws e.
Proof. induction vs as [|v vs IH]; [done|]. cbn [active_sum app]. rewrite IH. lia. Qed.

Lemma active_sum_insert vs i v w e :
  vs !! i = Some v -> is_active_at w e = is_active_at v e ->
  active_sum (<[i := w]> vs) e = active_sum vs e + (if is_active_at v e then effective_balance w - effective_balance v else 0).
Proof.
  revert i. induction vs as [|x vs IH]; intros [|i]; [done..| |].
  - intros [= ->] Ha. cbn [active_sum insert list_insert]. rewrite Ha. destruct (is_active_at v e); lia.
  - intros Hi Ha. change (<[S i := w]> (x :: vs)) with (x :: <[i := w]> vs). cbn [active_sum]. rewrite (IH i Hi Ha). lia.
Qed.

(** The cache under construction holds the first validators, and their active balance. *)
Record tracks (pre : PreEpochCache) (vs : list Validator) (next : Z) : Prop := {
  tr_length : (length (pre_effective_balances pre) <= length vs)%nat;
  tr_balances : pre_effective_balances pre = map effective_balance (take (length (pre_effective_balances pre)) vs);
  tr_total : pre_total_active_balance pre = active_sum (take (length (pre_effective_balances pre)) vs) next
}.

Lemma active_with_balance v b e : is_active_at (with_effective_balance v b) e = is_active_at v e.
Proof. done. Qed.

Lemma update_tracks pre vs next i v b pre' :
  tracks pre vs next -> vs !! i = Some v -> update_effective_balance pre i b (is_active_at v next) = Ok pre' ->
  tracks pre' (<[i := with_effective_balance v b]> vs) next
  /\ length (pre_effective_balances pre') = (if Nat.eqb i (length (pre_effective_balances pre)) then S (length (pre_effective_balances pre))
                                            else length (pre_effective_balances pre)).
Proof.
  intros [T1 T2 T3] Hi. unfold update_effective_balance. destruct (Nat.eqb_spec i (length (pre_effective_balances pre))) as [->|Hne].
  - intros H. unchain H. injection H as <-. cbn [pre_effective_balances pre_total_active_balance].
    set (n := length (pre_effective_balances pre)) in *. pose proof (lookup_lt_Some _ _ _ Hi) as Hlt.
    assert (take (S n) (<[n := with_effective_balance v b]> vs) = take n vs ++ [with_effective_balance v b]) as HT.
    { erewrite take_S_r by (apply list_lookup_insert_eq; done). by rewrite take_insert_ge by lia. }
    split; [|by rewrite length_app; cbn; lia]. split; cbn [pre_effective_balances pre_total_active_balance];
      rewrite length_app; cbn [length]; fold n; rewrite Nat.add_1_r.
    + rewrite length_insert. lia.
    + by rewrite HT, map_app, <-T2.
    + rewrite HT, active_sum_app. cbn [active_sum]. rewrite active_with_balance, <-T3.
      destruct (is_active_at v next); [apply safe_add_ok in E as [-> _]; cbn; lia|injection E as <-; lia].
  - destruct (pre_effective_balances pre !! i) as [old|] eqn:Eo; [|done]. intros H. unchain H. injection H as <-.
    cbn [pre_effective_balances pre_total_active_balance]. set (n := length (pre_effective_balances pre)) in *.
    pose proof (lookup_lt_Some _ _ _ Eo) as Hlt. fold n in Hlt.
    assert (old = effective_balance v) as ->.
    { rewrite T2 in Eo. apply list_lookup_fmap_Some in Eo as (w & -> & Hw). rewrite lookup_take_lt in Hw by done. congruence. }
    assert (take n (<[i := with_effective_balance v b]> vs) = <[i := with_effective_balance v b]> (take n vs)) as HT by by rewrite take_insert_lt.
    split; [|by rewrite length_insert]. split; cbn [pre_effective_balances pre_total_active_balance]; rewrite length_insert; fold n.
    + by rewrite length_insert.
    + rewrite HT, list_fmap_insert. cbn. by rewrite T2 at 1.
    + rewrite HT, (active_sum_insert _ _ v) by (rewrite ?lookup_take_lt by lia; done). rewrite <-T3.
      destruct (is_active_at v next); [|injection E as <-; lia]. unchain E. apply safe_add_ok in E0 as [-> _]. apply safe_sub_ok in E as [-> _]. cbn. lia.
Qed.

Section balances.
Context (spec : EpochSpec) (env : EpochEnv).
Implicit Types (px : PassContext) (sh : PassShared).

(** * The hysteresis band *)

Definition in_band (ectx : EffectiveBalancesContext) (f : ForkName) (b : Z) (v : Validator) : Prop :=
  effective_balance v <= b + downward_threshold ectx
  /\ (b <= effective_balance v + upward_threshold ectx \/ effective_balance v = get_max_effective_balance spec v f).

Record hysteresis_ok (ectx : EffectiveBalancesContext) : Prop := {
  hy_increment : 0 < effective_balance_increment spec;
  hy_down : 0 <= downward_threshold ectx;
  hy_up : effective_balance_increment spec <= upward_threshold ectx
}.

Lemma new_balance_band ectx ctx b v n :
  hysteresis_ok ectx -> new_effective_balance spec b v ectx ctx = Ok n ->
  in_band ectx (fork_name ctx) b (with_effective_balance v n).
Proof.
  intros [H1 H2 H3] H. unfold new_effective_balance in H. unchain H. apply safe_add_ok in E as [-> _].
  unfold in_band. change (get_max_effective_balance spec (with_effective_balance v n) (fork_name ctx))
    with (get_max_effective_balance spec v (fork_name ctx)). cbn [effective_balance with_effective_balance].
  destruct a0.
  - unchain H. injection H as <-. unfold safe_rem in E. case_match; [done|]. injection E as <-. apply safe_sub_ok in E1 as [-> _].
    pose proof (Z.mod_pos_bound b (effective_balance_increment spec) H1). lia.
  - injection H as <-. destruct (Z.ltb_spec (b + downward_threshold ectx) (effective_balance v)); [done|]. split; [lia|]. left.
    unchain E0. apply safe_add_ok in E as [-> _]. injection E0 as E0. lia.
Qed.

Lemma single_update i b v flags bs ectx ctx v' bs' :
  process_single_effective_balance_update spec i b v flags bs ectx ctx = Ok (v', bs') ->
  v' = with_effective_balance v (effective_balance v')
  /\ new_effective_balance spec b v ectx ctx = Ok (effective_balance v')
  /\ update_effective_balance (bs_next bs) i (effective_balance v') (is_active_at v (next_epoch ctx)) = Ok (bs_next bs').
Proof.
  unfold process_single_effective_balance_update. intros H. unchain H. injection H as <- <-.
  destruct (Z.eqb_spec a (effective_balance v)) as [->|].
  - injection E0 as <- <-. split; [by destruct v|done].
  - unchain E0. by injection E0 as <- <-.
Qed.

(** * The pass *)

Lemma balances_loop px i es sh es' sh' (vs : list Validator) :
  hysteresis_ok (ps_balances px) ->
  length vs = i -> tracks (bs_next (sh_balances sh)) vs (next_epoch (ps_state px)) ->
  length (pre_effective_balances (bs_next (sh_balances sh))) = i ->
  loop (entry_step spec enable_all px) i es sh = Ok (es', sh') ->
  tracks (bs_next (sh_balances sh')) (vs ++ map e_validator es') (next_epoch (ps_state px))
  /\ length (pre_effective_balances (bs_next (sh_balances sh'))) = (i + length es')%nat
  /\ forall k e, es' !! k = Some e -> existsb (Nat.eqb (i + k)) (ps_consolidating px) = false ->
       in_band (ps_balances px) (fork_name (ps_state px)) (e_balance e) (e_validator e).
Proof.
  intros HY. revert i sh es' vs. induction es as [|e es IH]; intros i sh es' vs Hv T HL.
  { cbn. intros [= <- <-]. rewrite app_nil_r, Nat.add_0_r. by split_and!. }
  rewrite loop_cons. intros (e1 & sh1 & rest & (Hp & _)%entry_step_ok & L & ->).
  apply process_validator_ok in Hp as (info & r1 & r2 & r3 & rs & r4 & r5 & bs & _ & _ & _ & _ & _ & _ & H6 & ->). cbn [when c_effective_balance_updates enable_all] in H6.
  assert (exists b, update_effective_balance (bs_next (sh_balances sh)) i b (is_active_at (row_validator r5) (next_epoch (ps_state px))) = Ok (bs_next bs)
            /\ e_validator e1 = with_effective_balance (row_validator r5) b
            /\ (existsb (Nat.eqb i) (ps_consolidating px) = false ->
                in_band (ps_balances px) (fork_name (ps_state px)) (e_balance e1) (e_validator e1))) as (b & HU & HE & HB).
  { unfold balances_stage in H6. destruct (existsb (Nat.eqb i) (ps_consolidating px)).
    - unchain H6. injection H6 as Hr <-. unfold process_single_dummy_effective_balance_update in E. unchain E. injection E as <-.
      exists (effective_balance (row_validator r5)). unfold e_validator. rewrite <-Hr. split; [done|]. split; [by destruct (row_validator r5)|done].
    - unchain H6. injection H6 as Hr <-. apply single_update in E as (Hv' & Hn & Hu). exists (effective_balance v).
      unfold e_validator, e_balance. rewrite <-Hr. cbn [row_validator row_balance]. split; [done|]. split; [done|]. intros _. rewrite Hv'.
      by apply new_balance_band. }
  assert (tracks (bs_next (sh_balances sh)) (vs ++ [row_validator r5]) (next_epoch (ps_state px))) as T'.
  { destruct T as [T1 T2 T3]. rewrite HL in *. split; rewrite ?HL, ?take_app_le by lia; [rewrite length_app; lia|done|done]. }
  destruct (update_tracks _ _ _ i (row_validator r5) b (bs_next bs) T') as [T2 L2]; [by rewrite lookup_app_r, <-Hv, Nat.sub_diag by lia|exact HU|].
  rewrite HL, Nat.eqb_refl in L2. rewrite <-HE in T2. rewrite insert_app_r_alt, Hv, Nat.sub_diag in T2 by lia. cbn in T2.
  destruct (IH (S i) (mkPassShared rs bs) rest (vs ++ [e_validator e1])) as (I1 & I2 & I3); [rewrite length_app; cbn; lia|done|done|done|].
  cbn [map]. rewrite <-app_assoc in I1. split; [done|]. split; [rewrite I2; cbn; lia|].
  intros [|k] x; cbn [lookup list_lookup]; [intros [= <-]; rewrite Nat.add_0_r; done|].
  intros Hx. replace (i + S k)%nat with (S i + k)%nat by lia. by apply I3.
Qed.

(** * After the pass *)

Abbreviation vals st := (validators (st_validators st)).
Abbreviation bals st := (balances (st_validators st)).

Definition band_at (ectx : EffectiveBalancesContext) (f : ForkName) (st : EpochState) (i : nat) : Prop :=
  forall v b, vals st !! i = Some v -> bals st !! i = Some b -> in_band ectx f b v.

Lemma update_balances_ok indices ectx ctx pre st pre' st' :
  hysteresis_ok ectx -> tracks pre (vals st) (next_epoch ctx) ->
  update_balances spec indices ectx ctx pre st = Ok (pre', st') ->
  tracks pre' (vals st') (next_epoch ctx) /\ length (vals st') = length (vals st) /\ bals st' = bals st
  /\ (length (pre_effective_balances pre) <= length (pre_effective_balances pre'))%nat
  /\ (forall i, i ∉ indices -> vals st' !! i = vals st !! i)
  /\ (forall i, i ∈ indices -> band_at ectx (fork_name ctx) st' i)
  /\ st_later st' = st_later st /\ pubkey_cache (st_validators st') = pubkey_cache (st_validators st)
  /\ st_fork st' = st_fork st /\ st_current_epoch st' = st_current_epoch st.
Proof.
  intros HY. revert pre st. induction indices as [|i indices IH]; intros pre st T.
  { cbn. intros [= <- <-]. split_and!; try done. intros i Hi. by apply not_elem_of_nil in Hi. }
  cbn [update_balances]. destruct (bals st !! i) as [b|] eqn:Eb; [|done]. destruct (vals st !! i) as [v|] eqn:Ev; [|done].
  destruct (current_epoch_participation (st_validators st) !! i) as [flags|]; [|done].
  destruct (process_single_effective_balance_update _ _ _ _ _ _ _ _) as [[v1 sh1]|] eqn:E; [|done].
  apply single_update in E as (Hv1 & Hn & Hu). cbn [bs_next] in Hu. intros H.
  destruct (update_tracks _ _ _ _ _ _ _ T Ev Hu) as [T1 L1]. rewrite <-Hv1 in T1.
  apply IH in H as (T2 & I1 & I2 & I3 & I4 & I5 & I6 & I7 & I8 & I9); [|exact T1]. cbn in I1, I2, I3, I4, I6, I7, I8, I9.
  rewrite length_insert in I1. split_and!; try done.
  - rewrite L1 in I3. case_match; lia.
  - intros k [Hk1 Hk2]%not_elem_of_cons. rewrite I4 by done. by rewrite list_lookup_insert_ne.
  - intros k Hk. destruct (decide (k ∈ indices)) as [Hin|Hni]; [by apply I5|].
    apply elem_of_cons in Hk as [->|Hk]; [|done]. intros w c Hw Hc. rewrite I4 in Hw by done. rewrite I2 in Hc.
    rewrite list_lookup_insert_eq in Hw by (by eapply lookup_lt_Some). injection Hw as <-. rewrite Eb in Hc. injection Hc as <-.
    rewrite Hv1. by apply new_balance_band.
Qed.

(** Updating consecutive validators from the end of the cache on covers them. *)
Lemma update_balances_seq n k ectx ctx pre st pre' st' :
  length (pre_effective_balances pre) = n ->
  update_balances spec (seq n k) ectx ctx pre st = Ok (pre', st') -> length (pre_effective_balances pre') = (n + k)%nat.
Proof.
  revert n pre st. induction k as [|k IH]; intros n pre st HL; [cbn; intros [= <- _]; lia|]. cbn [seq update_balances].
  destruct (bals st !! n) as [b|]; [|done]. destruct (vals st !! n) as [v|]; [|done].
  destruct (current_epoch_participation (st_validators st) !! n) as [flags|]; [|done].
  destruct (process_single_effective_balance_update _ _ _ _ _ _ _ _) as [[v1 sh1]|] eqn:E; [|done].
  apply single_update in E as (_ & _ & Hu). cbn [bs_next] in Hu. unfold update_effective_balance in Hu.
  rewrite HL, Nat.eqb_refl in Hu. unchain Hu. injection Hu as Hu. intros Hr.
  assert (length (pre_effective_balances (bs_next sh1)) = S n) as HS by (rewrite <-Hu; cbn; rewrite length_app; cbn; lia).
  rewrite (IH _ _ _ HS Hr). lia.
Qed.

(** ** New validators *)

(** Keys of the first [n] validators are those of the cache [c0]. *)
Definition old_keys (c0 : PubkeyCache) (n : nat) (c : PubkeyCache) : Prop :=
  forall key i, pk_map c !! key = Some i -> (i < n)%nat -> pk_map c0 !! key = Some i.

Lemma apply_new_deposits_ok c0 n ds st added st' added' :
  pk_len (pubkey_cache (st_validators st)) = length (vals st) -> length (bals st) = length (vals st) ->
  (n <= length (vals st))%nat -> old_keys c0 n (pubkey_cache (st_validators st)) ->
  Forall (fun d => pk_map c0 !! pd_pubkey d = None) ds ->
  apply_new_deposits spec env ds st added = Ok (st', added') ->
  exists k, length (vals st') = (length (vals st) + k)%nat /\ length (bals st') = length (vals st')
    /\ added' = added ++ seq (length (vals st)) k
    /\ (forall i, (i < length (vals st))%nat -> vals st' !! i = vals st !! i)
    /\ (forall i, (i < n)%nat -> bals st' !! i = bals st !! i)
    /\ st_later st' = st_later st /\ st_fork st' = st_fork st /\ st_current_epoch st' = st_current_epoch st.
Proof.
  revert st added. induction ds as [|d ds IH]; intros st added HK HB Hn HO HF.
  { cbn. intros [= <- <-]. exists 0%nat. rewrite app_nil_r. split_and!; try done; lia. }
  apply Forall_cons in HF as [Hd HF]. cbn [apply_new_deposits]. rewrite build_pubkey_cache_same by done.
  destruct (pubkey_get _ _) as [j|] eqn:Ej.
  - assert (n <= j)%nat as Hj. { destruct (decide (j < n)%nat) as [Hlt|]; [|lia]. pose proof (HO _ _ Ej Hlt). congruence. }
    unfold change_balance_at. destruct (bals st !! j) as [b|]; [|done]. destruct (safe_add b (pd_amount d)) as [b'|]; [|done].
    intros H. apply IH in H as (k & H1 & H2 & H3 & H4 & H5 & H6 & H7 & H8); try done; [|cbn; by rewrite length_insert].
    cbn in *. exists k. split_and!; try done. intros i Hi. rewrite H5 by done. by rewrite list_lookup_insert_ne by lia.
  - destruct (is_valid_deposit_signature env d); [|by apply IH].
    unfold add_validator_to_registry, pubkey_insert. rewrite HK, Nat.eqb_refl. intros H.
    apply IH in H as (k & H1 & H2 & H3 & H4 & H5 & H6 & H7 & H8); try done; cbn in *.
    + rewrite length_app in *. cbn in *. exists (S k). split_and!; try done; [lia|..].
      * rewrite H3, <-app_assoc. cbn. by rewrite Nat.add_1_r.
      * intros i Hi. rewrite H4 by lia. by rewrite lookup_app_l.
      * intros i Hi. rewrite H5 by done. by rewrite lookup_app_l by lia.
    + rewrite length_app. cbn. lia.
    + rewrite !length_app. cbn. lia.
    + rewrite length_app. lia.
    + intros key i. cbn. destruct (decide (key = pd_pubkey d)) as [->|Hne].
      * rewrite lookup_insert_eq. intros [= <-]. lia.
      * rewrite lookup_insert_ne by done. apply HO.
Qed.

(** The deposits of new validators have keys that the cache does not know. *)
Lemma scan_new_keys st conf next available slot ds sn sn' :
  Forall (fun d => pk_map (pubkey_cache (st_validators st)) !! pd_pubkey d = None) (sn_new sn) ->
  scan_deposits spec st conf next available slot ds sn = Ok sn' ->
  Forall (fun d => pk_map (pubkey_cache (st_validators st)) !! pd_pubkey d = None) (sn_new sn').
Proof.
  revert sn. induction ds as [|d ds IH]; intros sn H; [by intros [= <-]|]. cbn [scan_deposits].
  destruct (deposit_blocked _ _ _ _ _); [by intros [= <-]|]. destruct (deposit_validator _ _ _ _ _) as [[ex wd]|]; [|done].
  destruct (pubkey_get _ _) as [i|] eqn:Ei.
  - destruct (add_deposit _ _ _) as [m|].
    + destruct wd; [by apply IH|]. destruct ex; [by apply IH|]. destruct (safe_add _ _) as [p|]; [|done].
      destruct (available <? p); [by intros [= <-]|by apply IH].
    + destruct wd; [done|]. destruct ex; [by apply IH|]. destruct (safe_add _ _) as [p|]; [|done].
      destruct (available <? p); [by intros [= <-]|done].
  - destruct wd; [done|]. destruct ex; [by apply IH|]. destruct (safe_add _ _) as [p|]; [|done].
    destruct (available <? p); [by intros [= <-]|]. apply IH. cbn. apply Forall_app. by rewrite Forall_singleton.
Qed.

Lemma context_new_keys st conf d :
  PendingDepositsContext_new spec st conf = Ok d ->
  Forall (fun x => pk_map (pubkey_cache (st_validators st)) !! pd_pubkey x = None) (new_validator_deposits d).
Proof.
  unfold PendingDepositsContext_new. intros H. unchain H. injection H as <-. cbn. by eapply scan_new_keys; [|done].
Qed.

(** ** Consolidations *)

Lemma nat_set_insert_in s x y : y ∈ nat_set_insert s x <-> y = x \/ y ∈ s.
Proof.
  induction s as [|z s IH]; cbn; [set_solver|]. destruct (Nat.compare_spec x z); subst; set_solver.
Qed.

Lemma consolidating_in st p :
  electra_enabled (st_fork st) = true -> p ∈ pending_consolidations (st_later st) ->
  source_index p ∈ get_validators_in_consolidations st /\ target_index p ∈ get_validators_in_consolidations st.
Proof.
  intros HF. unfold get_validators_in_consolidations. rewrite HF.
  assert (forall l s, (forall x, x ∈ s -> x ∈ fold_left (fun s p => nat_set_insert (nat_set_insert s (source_index p)) (target_index p)) l s)
            /\ (p ∈ l -> source_index p ∈ fold_left (fun s p => nat_set_insert (nat_set_insert s (source_index p)) (target_index p)) l s
                        /\ target_index p ∈ fold_left (fun s p => nat_set_insert (nat_set_insert s (source_index p)) (target_index p)) l s)) as H.
  { induction l as [|q l IH]; intros s; cbn [fold_left]; [split; [done|by intros ?%not_elem_of_nil]|]. split.
    - intros x Hx. apply (proj1 (IH _)), nat_set_insert_in. right. apply nat_set_insert_in. by right.
    - intros [->|Hp]%elem_of_cons; [|by apply (proj2 (IH _))].
      split; apply (proj1 (IH _)), nat_set_insert_in; [right; apply nat_set_insert_in|]; by left. }
  apply (proj2 (H _ _)).
Qed.

Lemma consolidate_ok ps next n st n' st' :
  length (bals st) = length (vals st) -> consolidate ps next n st = Ok (n', st') ->
  vals st' = vals st /\ length (bals st') = length (bals st)
  /\ (forall i, (forall p, p ∈ ps -> i <> source_index p /\ i <> target_index p) -> bals st' !! i = bals st !! i)
  /\ st_later st' = st_later st /\ st_fork st' = st_fork st /\ st_current_epoch st' = st_current_epoch st
  /\ st_caches st' = st_caches st.
Proof.
  revert n st. induction ps as [|p ps IH]; intros n st HL; [by cbn; intros [= _ <-]|]. cbn [consolidate].
  destruct (vals st !! source_index p) as [v|]; [|done].
  destruct (slashed v); [intros H; apply IH in H as (H1 & H2 & H3 & H4); [|done]; split_and!; try apply H4; try done; intros i Hi; apply H3; set_solver|].
  destruct (next <? withdrawable_epoch v); [by intros [= _ <-]|]. destruct (bals st !! source_index p) as [b|] eqn:Eb; [|done].
  unfold change_balance_at. rewrite Eb. cbn. destruct (<[_ := _]> (bals st) !! target_index p) as [b2|]; [|done].
  destruct (safe_add b2 _) as [b3|]; [|done]. intros H. apply IH in H as (H1 & H2 & H3 & H4); [|cbn; by rewrite !length_insert].
  cbn in *. rewrite !length_insert in H2. split_and!; try apply H4; try done.
  intros i Hi. destruct (Hi p ltac:(set_solver)) as [N1 N2]. rewrite H3 by set_solver. by rewrite !list_lookup_insert_ne by done.
Qed.
(** * The stages *)

(** The cache covers all validators, and all but those in [skip] are within the hysteresis. *)
Record covered (ectx : EffectiveBalancesContext) (f : ForkName) (next : Z) (skip : list nat) (pre : PreEpochCache)
    (st : EpochState) : Prop := {
  cv_tracks : tracks pre (vals st) next;
  cv_all : length (pre_effective_balances pre) = length (vals st);
  cv_balances : length (bals st) = length (vals st);
  cv_band : forall i, i ∉ skip -> band_at ectx f st i
}.

(** Fields that the stages up to the caches leave alone. *)
Definition unmoved (st st' : EpochState) : Prop :=
  st_fork st' = st_fork st /\ st_current_epoch st' = st_current_epoch st /\ st_later st' = st_later st.

Lemma pass_start_context conf st px sh :
  pass_start spec env conf st = Ok (px, sh) ->
  EffectiveBalancesContext_new spec = Ok (ps_balances px) /\ next_epoch (ps_state px) = st_current_epoch st + 1
  /\ ps_consolidating px = get_validators_in_consolidations st
  /\ pre_effective_balances (bs_next (sh_balances sh)) = [] /\ pre_total_active_balance (bs_next (sh_balances sh)) = 0
  /\ (forall d, ps_deposits px = Some d -> PendingDepositsContext_new spec st conf = Ok d).
Proof.
  unfold pass_start. intros H. unchain H. injection H as <- <-. unfold StateContext_of in E. unchain E. injection E as <-.
  apply safe_add_ok in E6 as [-> _]. split_and!; try done. cbn. intros d ->.
  destruct (_ && _); [|done]. unchain E2. congruence.
Qed.

Lemma pass_covered px sh st st1 sh1 :
  ready env st -> hysteresis_ok (ps_balances px) -> pass_start spec env enable_all st = Ok (px, sh) ->
  run_pass spec enable_all px sh st = Ok (st1, sh1) ->
  covered (ps_balances px) (st_fork st) (next_epoch (ps_state px)) (ps_consolidating px) (bs_next (sh_balances sh1)) st1
  /\ unmoved st st1 /\ length (vals st1) = length (vals st) /\ pubkey_cache (st_validators st1) = pubkey_cache (st_validators st).
Proof.
  intros R HY S H. destruct (rd_lengths _ _ R) as [L1 L2 L3 L4]. pose proof (pass_start_context _ _ _ _ S) as (_ & _ & _ & P1 & P2 & _).
  apply pass_start_shared in S as (_ & _ & S3 & _). unfold run_pass in H. unchain H. injection H as <- <-.
  apply pass_loop in E as (es & L & -> & -> & ->); [|done..].
  pose proof (loop_length _ _ _ _ _ _ L) as HL. pose proof (rows_length (st_validators st) (rd_lengths _ _ R)) as HR. unfold rows in HR.
  destruct (balances_loop _ _ _ _ _ _ [] HY eq_refl ltac:(split; rewrite ?P1, ?P2; done) ltac:(by rewrite P1) L) as (T & TL & TB).
  split_and!; [|done|cbn; rewrite length_map; lia|done]. split; cbn.
  - done.
  - by rewrite length_map.
  - by rewrite !length_map.
  - intros i Hi v b Hv Hb. cbn in Hv, Hb. apply list_lookup_fmap_Some in Hv as (e & -> & He).
    apply list_lookup_fmap_Some in Hb as (e2 & -> & He2). rewrite He in He2. injection He2 as <-. rewrite <-S3. apply (TB i e He).
    cbn. destruct (existsb (Nat.eqb i) (ps_consolidating px)) eqn:X; [|done]. apply existsb_exists in X as (j & Hj & ->%Nat.eqb_eq).
    by destruct Hi; apply list_elem_of_In.
Qed.

Lemma finish_exits_covered conf rs st st' ectx f next skip pre :
  covered ectx f next skip pre st -> finish_exits conf rs st = Ok st' ->
  covered ectx f next skip pre st' /\ unmoved st st' /\ st_validators st' = st_validators st.
Proof.
  unfold finish_exits. intros [C1 C2 C3 C4]. destruct (_ && _); [|by intros [= <-]].
  destruct (rs_earliest_exit_epoch rs), (rs_exit_balance_to_consume rs); try done. intros [= <-]. by split_and!.
Qed.

Lemma tracks_more pre vs vs' next :
  tracks pre vs next -> (length vs <= length vs')%nat -> (forall i, (i < length vs)%nat -> vs' !! i = vs !! i) -> tracks pre vs' next.
Proof.
  intros [T1 T2 T3] HL H. assert (take (length (pre_effective_balances pre)) vs' = take (length (pre_effective_balances pre)) vs) as E.
  { apply list_eq. intros i. destruct (decide (i < length (pre_effective_balances pre))%nat) as [Hi|Hi].
    - rewrite !lookup_take_lt by done. apply H. lia.
    - by rewrite !lookup_take_ge by lia. }
  split; rewrite ?E; [lia|done..].
Qed.

Lemma deposits_covered px sh st0 skip pre st pre' st' :
  hysteresis_ok (ps_balances px) -> pass_start spec env enable_all st0 = Ok (px, sh) ->
  pk_len (pubkey_cache (st_validators st)) = length (vals st) ->
  pubkey_cache (st_validators st) = pubkey_cache (st_validators st0) ->
  covered (ps_balances px) (fork_name (ps_state px)) (next_epoch (ps_state px)) skip pre st ->
  finish_deposits spec env enable_all px pre st = Ok (pre', st') ->
  covered (ps_balances px) (fork_name (ps_state px)) (next_epoch (ps_state px)) skip pre' st' /\ unmoved st st'.
Proof.
  intros HY S HK HP C. apply pass_start_context in S as (_ & _ & _ & _ & _ & HD). unfold finish_deposits.
  destruct (ps_deposits px) as [d|] eqn:Ed; [|by intros [= <- <-]]. pose proof (context_new_keys _ _ _ (HD d eq_refl)) as HN.
  rewrite <-HP in HN. cbn [c_effective_balance_updates enable_all].
  destruct (apply_new_deposits _ _ _ _ _) as [[st1 added]|] eqn:A; [|done]. destruct C as [C1 C2 C3 C4].
  apply (apply_new_deposits_ok (pubkey_cache (st_validators st)) (length (vals st))) in A
    as (k & A1 & A2 & A3 & A4 & A5 & A6 & A7 & A8); [|done|done|done|by intros key i|done]. cbn in A1, A3, A4, A5, A6, A7, A8. subst added.
  intros H. assert (tracks pre (vals st1) (next_epoch (ps_state px))) as T1 by (eapply tracks_more; [done|lia|done]).
  pose proof (update_balances_seq _ _ _ _ _ _ _ _ C2 H) as HL.
  apply update_balances_ok in H as (T & B1 & B2 & _ & B4 & B5 & B6 & _ & B8 & B9); [|done..].
  split; [|unfold unmoved; split_and!; congruence]. split; [done|congruence|congruence|].
  intros i Hi. destruct (decide (i ∈ seq (length (vals st)) k)) as [Hs|Hs]; [by apply B5|].
  intros v b Hv Hb. rewrite B4 in Hv by done. rewrite B2 in Hb. pose proof (lookup_lt_Some _ _ _ Hv) as Hlt.
  assert (i < length (vals st))%nat as Hn by (destruct (decide (i < length (vals st))%nat); [done|destruct Hs; apply elem_of_seq; lia]).
  rewrite A4 in Hv by done. rewrite A5 in Hb by done. by apply (C4 i Hi).
Qed.

Lemma consolidations_covered px st0 pre st pre' st' :
  hysteresis_ok (ps_balances px) -> electra_enabled (st_fork st0) = true -> st_later st = st_later st0 ->
  ps_consolidating px = get_validators_in_consolidations st0 ->
  covered (ps_balances px) (fork_name (ps_state px)) (next_epoch (ps_state px)) (ps_consolidating px) pre st ->
  process_pending_consolidations spec enable_all px pre st = Ok (pre', st') ->
  covered (ps_balances px) (fork_name (ps_state px)) (next_epoch (ps_state px)) [] pre' st'
  /\ st_fork st' = st_fork st /\ st_current_epoch st' = st_current_epoch st.
Proof.
  intros HY HF HA HC [C1 C2 C3 C4]. unfold process_pending_consolidations. cbn [c_effective_balance_updates enable_all].
  destruct (safe_add _ _) as [nx|]; [|done]. destruct (consolidate _ _ _ _) as [[taken st1]|] eqn:E; [|done].
  apply consolidate_ok in E as (E1 & E2 & E3 & _ & E5 & E6 & _); [|done]. intros H.
  pose proof H as (T & B1 & B2 & B3 & B4 & B5 & _ & _ & B8 & B9)%update_balances_ok; [|done|cbn; by rewrite E1]. cbn in B1, B2, B4, B8, B9.
  rewrite E1 in B1, B4. split; [|split; congruence]. pose proof (tr_length _ _ _ T).
  split; [done|lia|congruence|]. intros i _. destruct (decide (i ∈ ps_consolidating px)) as [Hi|Hi]; [by apply B5|].
  intros v b Hv Hb. rewrite B4 in Hv by done. rewrite B2 in Hb.
  rewrite E3 in Hb; [by apply (C4 i Hi)|]. intros p Hp. rewrite HA in Hp. destruct (consolidating_in st0 p HF Hp) as [I1 I2].
  rewrite <-HC in I1, I2. split; intros ->; done.
Qed.

(** Builder payments, the lookahead and the payload committees are fields of later forks only. *)
Definition settled (st st' : EpochState) : Prop :=
  st_validators st' = st_validators st /\ st_caches st' = st_caches st /\ st_fork st' = st_fork st.

Lemma lookahead_settled st st' : process_proposer_lookahead spec env st = Ok st' -> settled st st'.
Proof. unfold process_proposer_lookahead. intros H. unchain H. by injection H as <-. Qed.

Lemma window_settled st st' : process_ptc_window spec env st = Ok st' -> settled st st'.
Proof. unfold process_ptc_window. destruct (Nat.ltb _ _); [done|]. intros H. unchain H. by injection H as <-. Qed.

Lemma payments_settled ctx st st' :
  process_builder_pending_payments spec ctx st = Ok st' ->
  settled st st' /\ st_current_epoch st' = st_current_epoch st.
Proof. unfold process_builder_pending_payments. intros H. unchain H. by injection H as <-. Qed.

Lemma when_settled (b : bool) st st' (r : Result EpochState EpochError) :
  (r = Ok st' -> settled st st') -> (if b then r else Ok st) = Ok st' -> settled st st'.
Proof. destruct b; [done|]. by intros _ [= <-]. Qed.

(** The installed caches of a covered state. *)
Lemma install_cached ctx rs pre st st' ectx f skip :
  covered ectx f (next_epoch ctx) skip pre st -> install_caches spec enable_all ctx rs pre st = Ok st' ->
  st_validators st' = st_validators st
  /\ total_active_balance (st_caches st')
     = Some (next_epoch ctx, Z.max (active_sum (vals st') (next_epoch ctx)) (effective_balance_increment spec))
  /\ exists c, epoch_cache (st_caches st') = Some c /\ ch_effective_balances c = map effective_balance (vals st').
Proof.
  intros [[_ T2 T3] C2 _ _]. rewrite C2, take_ge in T2, T3 by done. unfold install_caches. cbn [c_effective_balance_updates enable_all].
  intros H. unchain H. injection H as <-. unfold into_epoch_cache in E. unchain E. injection E as <-. cbn.
  split; [done|]. split; [by rewrite T3|]. eexists. split; [done|]. exact T2.
Qed.

(** The transition with all its parts. *)
Lemma balances_cached ectx st st' :
  ready env st -> EffectiveBalancesContext_new spec = Ok ectx -> hysteresis_ok ectx ->
  process_epoch_single_pass spec env enable_all st = Ok st' ->
  total_active_balance (st_caches st')
    = Some (st_current_epoch st + 1,
            Z.max (active_sum (vals st') (st_current_epoch st + 1)) (effective_balance_increment spec))
  /\ (exists c, epoch_cache (st_caches st') = Some c /\ ch_effective_balances c = map effective_balance (vals st'))
  /\ forall i v b, vals st' !! i = Some v -> bals st' !! i = Some b -> in_band ectx (st_fork st) b v.
Proof.
  intros R HE HY H. unfold process_epoch_single_pass in H. rewrite (rd_fork _ _ R), (ready_caches _ _ _ R) in H.
  cbn [variant] in H. destruct (process_registry _ _ _ _) as [[px st6]|] eqn:P; [|done]. unfold process_registry in P.
  destruct (pass_start _ _ _ _) as [[px' sh]|] eqn:S; [|done]. pose proof (pass_start_context _ _ _ _ S) as (S1 & S2 & S3 & _).
  pose proof (pass_start_shared _ _ _ _ _ _ S) as (_ & _ & SF & _). rewrite HE in S1. injection S1 as ->.
  destruct (run_pass _ _ _ _ _) as [[st1 sh1]|] eqn:E1; [|done].
  destruct (pass_covered _ _ _ _ _ R HY S E1) as (C1 & U1 & L1 & K1). rewrite <-SF in C1.
  destruct (finish_exits _ _ _) as [st2|] eqn:E2; [|done]. destruct (finish_exits_covered _ _ _ _ _ _ _ _ _ C1 E2) as (C2 & U2 & K2).
  destruct (finish_deposits _ _ _ _ _ _) as [[pre3 st3]|] eqn:E3; [|done].
  destruct (fun HK HP => deposits_covered _ _ _ _ _ _ _ _ HY S HK HP C2 E3) as [C3 U3];
    [rewrite K2, K1, L1; apply (rd_pubkeys _ _ R)|by rewrite K2|].
  destruct U1 as (U11 & _ & U13), U2 as (U21 & _ & U23), U3 as (U31 & _ & U33).
  match type of P with match ?r with _ => _ end = _ => destruct r as [[pre4 st4]|] eqn:E4 in P; [|done] end.
  assert (covered (ps_balances px') (fork_name (ps_state px')) (next_epoch (ps_state px')) [] pre4 st4) as C4.
  { cbn [c_pending_consolidations enable_all] in E4. rewrite andb_true_r, U31, U21, U11 in E4. destruct (electra_enabled (st_fork st)) eqn:EF.
    - refine (proj1 (consolidations_covered px' st _ st3 _ _ HY EF _ S3 C3 E4)). congruence.
    - injection E4 as <- <-. unfold get_validators_in_consolidations in S3. rewrite EF in S3. by rewrite S3 in C3. }
  match type of P with match ?r with _ => _ end = _ => destruct r as [st5|] eqn:E5 in P; [|done] end.
  assert (settled st4 st5) as (V5 & _ & _) by (eapply when_settled, E5; intros X; by apply payments_settled in X as [X _]).
  destruct (install_caches _ _ _ _ _ _) as [st6'|] eqn:E6; [|done]. injection P as -> ->.
  assert (covered (ps_balances px) (fork_name (ps_state px)) (next_epoch (ps_state px)) [] pre4 st5) as C5
    by (destruct C4 as [X1 X2 X3 X4]; split; unfold band_at; by rewrite V5).
  apply (install_cached _ _ _ _ _ _ _ _ C5) in E6 as (V6 & T6 & B6).
  match type of H with match ?r with _ => _ end = _ => destruct r as [st7|] eqn:E7 in H; [|done] end.
  apply when_settled in E7 as (V7 & K7 & _); [|apply lookahead_settled].
  apply when_settled in H as (V8 & K8 & _); [|apply window_settled].
  rewrite V8, K8, V7, K7, <-S2. do 2 (split; [done|]). rewrite V6. intros i v b Hv Hb. rewrite <-SF.
  by apply (cv_band _ _ _ _ _ _ C5 i); [apply not_elem_of_nil|..].
Qed.

(** C22: at the end of the transition the cached total active balance of the next epoch and the
    effective balances in its cache are those of the final validators, added and
    consolidated ones included, and every validator's effective balance is within the
    hysteresis of its final balance, or at its maximum below it. *)
Theorem effective_balances_cached ectx st st' :
  ready env st -> EffectiveBalancesContext_new spec = Ok ectx -> hysteresis_ok ectx ->
  process_epoch_single_pass spec env enable_all st = Ok st' ->
  total_active_balance (st_caches st')
    = Some (st_current_epoch st + 1,
            Z.max (active_sum (vals st') (st_current_epoch st + 1)) (effective_balance_increment spec))
  /\ (exists c, epoch_cache (st_caches st') = Some c /\ ch_effective_balances c = map effective_balance (vals st'))
  /\ forall i v b, vals st' !! i = Some v -> bals st' !! i = Some b -> in_band ectx (st_fork st) b v.
Proof. apply balances_cached. Qed.
End balances.
