(* ===== verification/EpochTotals.v ===== *)
(** * The progressive balances over the end of an epoch

    The cache of the balances that attested, per flag, is kept up to date by attestations,
    slashings and changes of effective balances, and justification and rewards are
    computed from it.  The end of an epoch, with its many updates of effective balances
    and its rotation of the participation, leaves the cache that a computation from
    scratch would give for the next epoch. *)

From S2P Require Import EpochProcessing EpochStages EpochEquiv EpochClaims EpochBalances.
Local Open Scope rust_scope.
Local Open Scope Z_scope.

(** * Balances that attested *)

Definition flag_set (bits : Z) (flag : nat) : bool :=
  let mask := Z.shiftl 1 (Z.of_nat flag) in Z.land bits mask =? mask.

(** What a validator with participation [bits] adds to the balance of a flag. *)
Definition counted (v : Validator) (bits epoch : Z) (flag : nat) : Z :=
  if negb (slashed v) && is_active_at v epoch && flag_set bits flag then effective_balance v else 0.

Fixpoint attesting (vs : list Validator) (participation : list Z) (epoch : Z) (flag : nat) : Z :=
  match vs, participation with
  | v :: vs, bits :: participation => counted v bits epoch flag + attesting vs participation epoch flag
  | _, _ => 0
  end.

Lemma flag_set_zero flag : flag_set 0 flag = false.
Proof. unfold flag_set. rewrite Z.land_0_l, Z.shiftl_1_l. apply Z.eqb_neq. pose proof (Z.pow_pos_nonneg 2 (Z.of_nat flag)). lia. Qed.

Lemma counted_zero v e flag : counted v 0 e flag = 0.
Proof. unfold counted. rewrite flag_set_zero, andb_false_r. done. Qed.

Lemma attesting_zero vs n e flag : attesting vs (repeat 0 n) e flag = 0.
Proof. revert n. induction vs as [|v vs IH]; intros [|n]; [done..|]. cbn [repeat attesting]. by rewrite counted_zero, IH. Qed.

Lemma attesting_app vs ws fs gs e flag :
  length fs = length vs -> attesting (vs ++ ws) (fs ++ gs) e flag = attesting vs fs e flag + attesting ws gs e flag.
Proof.
  revert fs. induction vs as [|v vs IH]; intros [|f fs]; [done..|]. cbn [length]. intros [= H]. cbn [app attesting]. rewrite IH by done. lia.
Qed.

Lemma attesting_insert vs fs i v w bits e flag :
  vs !! i = Some v -> fs !! i = Some bits ->
  attesting (<[i := w]> vs) fs e flag = attesting vs fs e flag - counted v bits e flag + counted w bits e flag.
Proof.
  revert i fs. induction vs as [|x vs IH]; intros [|i] [|f fs]; try done.
  - intros [= ->] [= ->]. cbn. lia.
  - intros Hv Hf. change (<[S i := w]> (x :: vs)) with (x :: <[i := w]> vs). cbn [attesting]. rewrite (IH i fs Hv Hf). lia.
Qed.

Section totals.
Context (spec : EpochSpec) (env : EpochEnv).
Implicit Types (px : PassContext) (sh : PassShared).

Abbreviation vals st := (validators (st_validators st)).
Abbreviation flags st := (current_epoch_participation (st_validators st)).

(** The totals of an epoch with the sums [r]. *)
Definition sums_of (r : nat -> Z) : EpochTotalBalances :=
  map (fun flag => mkBalance (r flag) (effective_balance_increment spec)) (seq 0 NUM_FLAG_INDICES).

Definition totals (vs : list Validator) (participation : list Z) (epoch : Z) : EpochTotalBalances :=
  sums_of (attesting vs participation epoch).

(** The cache computed from scratch. *)
Definition recomputed (st : EpochState) : ProgressiveBalancesCache :=
  let vs := st_validators st in
  Some (mkProgressive (st_current_epoch st)
          (totals (validators vs) (previous_epoch_participation vs) (previous_epoch_of (st_current_epoch st)))
          (totals (validators vs) (current_epoch_participation vs) (st_current_epoch st))).

Definition coherent (st : EpochState) : Prop := progressive_balances_cache (st_caches st) = recomputed st.

(** Validators that are not active have not taken part. *)
Definition idle_flags (st : EpochState) : Prop :=
  forall i v bits, vals st !! i = Some v -> flags st !! i = Some bits -> is_active_at v (st_current_epoch st) = false -> bits = 0.

Definition idle_previous (st : EpochState) : Prop :=
  forall i v bits, vals st !! i = Some v -> previous_epoch_participation (st_validators st) !! i = Some bits ->
    is_active_at v (previous_epoch_of (st_current_epoch st)) = false -> bits = 0.

Definition same_participation (st : EpochState) : Prop :=
  length (previous_epoch_participation (st_validators st)) = length (vals st) /\ length (flags st) = length (vals st).

Lemma sums_ext r s : (forall flag, r flag = s flag) -> sums_of r = sums_of s.
Proof. intros H. unfold sums_of. apply map_ext. intros flag. by rewrite H. Qed.

(** For each flag that is set, the same change. *)
Lemma for_flags_shift bits r d f t :
  (forall x y, f x = Ok y -> y = mkBalance (bal_raw x + d) (bal_minimum x)) ->
  for_flags (seq 0 NUM_FLAG_INDICES) bits (sums_of r) f = Ok t ->
  t = sums_of (fun flag => r flag + if flag_set bits flag then d else 0).
Proof.
  intros H. unfold sums_of. cbn [seq NUM_FLAG_INDICES map for_flags].
  change (has_flag bits 0) with (Ok (flag_set bits 0) : Result bool EpochError).
  change (has_flag bits 1) with (Ok (flag_set bits 1) : Result bool EpochError).
  change (has_flag bits 2) with (Ok (flag_set bits 2) : Result bool EpochError). unfold update_flag.
  destruct (flag_set bits 0), (flag_set bits 1), (flag_set bits 2); cbn;
    repeat match goal with |- context [f ?x] =>
      let E := fresh "E" in destruct (f x) as [?|] eqn:E; [apply H in E; subst; cbn|done] end;
    intros [= <-]; rewrite ?Z.add_0_r; done.
Qed.

Lemma change_shift r is_slashed bits old new t :
  total_on_effective_balance_change (sums_of r) is_slashed bits old new = Ok t ->
  t = sums_of (fun flag => r flag + if is_slashed then 0 else if flag_set bits flag then new - old else 0).
Proof.
  unfold total_on_effective_balance_change. destruct is_slashed.
  - intros [= <-]. apply sums_ext. intros. lia.
  - apply for_flags_shift. intros x y. unfold change_balance, Balance_add, Balance_sub.
    destruct (old <? new); intros H; unchain H; injection H as <-; repeat match goal with
      | E : safe_add _ _ = Ok _ |- _ => apply safe_add_ok in E as [-> _]
      | E : safe_sub _ _ = Ok _ |- _ => apply safe_sub_ok in E as [-> _] end; f_equal; lia.
Qed.

(** ** From scratch *)

Lemma flag_total_shift r bits v t :
  update_flag_total_balances (sums_of r) bits v = Ok t ->
  t = sums_of (fun flag => r flag + if flag_set bits flag then effective_balance v else 0).
Proof.
  unfold update_flag_total_balances. apply for_flags_shift. intros x y. unfold Balance_add. intros H. unchain H.
  injection H as <-. by apply safe_add_ok in E as [-> _].
Qed.

Lemma progressive_totals_ok vs cf pf current previous rc rp tc tp :
  length cf = length vs -> length pf = length vs ->
  progressive_totals vs cf pf current previous (sums_of rc) (sums_of rp) = Ok (tc, tp) ->
  tc = sums_of (fun flag => rc flag + attesting vs cf current flag)
  /\ tp = sums_of (fun flag => rp flag + attesting vs pf previous flag).
Proof.
  revert cf pf rc rp. induction vs as [|v vs IH]; intros [|c cf] [|p pf] rc rp; try done.
  { intros _ _ [= <- <-]. split; apply sums_ext; intros; cbn; lia. }
  cbn [length]. intros [= Hc] [= Hp]. cbn [progressive_totals attesting]. unfold counted. destruct (slashed v) eqn:Es; cbn [negb andb].
  { intros H. apply IH in H as [-> ->]; [|done..]. split; apply sums_ext; intros; lia. }
  intros H. unchain H.
  assert (a = sums_of (fun flag => rc flag + if is_active_at v current && flag_set c flag then effective_balance v else 0)) as ->.
  { destruct (is_active_at v current); [by apply flag_total_shift in E|]. injection E as <-. apply sums_ext. intros. cbn. lia. }
  assert (a0 = sums_of (fun flag => rp flag + if is_active_at v previous && flag_set p flag then effective_balance v else 0)) as ->.
  { destruct (is_active_at v previous); [by apply flag_total_shift in E0|]. injection E0 as <-. apply sums_ext. intros. cbn. lia. }
  apply IH in H as [-> ->]; [|done..]. split; apply sums_ext; intros; lia.
Qed.

(** The cache that is built when there is none. *)
Lemma initialized_coherent st st' :
  fork_ge (st_fork st) Altair = true -> progressive_balances_cache (st_caches st) = None -> same_lengths (st_validators st) ->
  initialize_progressive_balances_cache spec st = Ok st' -> coherent st'.
Proof.
  intros HF HN [L1 L2 L3 L4]. unfold initialize_progressive_balances_cache. rewrite HF, HN. cbn [negb]. intros H. unchain H. injection H as <-.
  apply (progressive_totals_ok _ _ _ _ _ (fun _ => 0) (fun _ => 0)) in E as [-> ->]; [done..].
Qed.

(** * One validator and the pass *)

(** The cache holds the sums [r] for the current epoch [e]. *)
Definition holds (c : ProgressiveBalancesCache) (e : Z) (r : nat -> Z) : Prop :=
  exists previous, c = Some (mkProgressive e previous (sums_of r)).

Lemma holds_ext c e r s : (forall flag, r flag = s flag) -> holds c e r -> holds c e s.
Proof. intros H [p ->]. exists p. by rewrite (sums_ext _ _ H). Qed.

Lemma update_holds i b v bits bs ectx ctx v' bs' e r :
  process_single_effective_balance_update spec i b v bits bs ectx ctx = Ok (v', bs') ->
  (is_active_at v e = false -> bits = 0) -> holds (bs_progressive bs) e r ->
  holds (bs_progressive bs') e (fun flag => r flag - counted v bits e flag + counted v' bits e flag).
Proof.
  intros H HI [p HP]. pose proof (single_update _ _ _ _ _ _ _ _ _ _ H) as (Hv & _ & _).
  unfold process_single_effective_balance_update in H. unchain H. injection H as <- <-. cbn [bs_progressive].
  destruct (a =? effective_balance v).
  { injection E0 as <- <-. exists p. rewrite HP. do 2 f_equal. apply sums_ext. intros. lia. }
  unchain E0. injection E0 as <- <-. unfold on_effective_balance_change in E2. rewrite HP in E2. cbn in E2. unchain E2. injection E2 as <-.
  apply change_shift in E0 as ->. exists p. do 2 f_equal. apply sums_ext. intros flag. unfold counted. cbn.
  change (is_active_at (with_effective_balance v a) e) with (is_active_at v e).
  destruct (slashed v); cbn; [lia|]. destruct (is_active_at v e); cbn; [destruct (flag_set bits flag); lia|].
  rewrite HI, flag_set_zero by done. lia.
Qed.

Context (SP : spec_ok spec).

Definition entries_sum (es : list Entry) (e : Z) (flag : nat) : Z :=
  attesting (map e_validator es) (map e_current es) e flag.

Definition entry_idle (e : Z) (x : Entry) : Prop := is_active_at (e_validator x) e = false -> e_current x = 0.

Lemma counted_kept e v v' bits flag : kept e v v' -> counted v' bits e flag = counted v bits e flag.
Proof. intros K. unfold counted. by rewrite (kept_slashed _ _ _ K), (kept_active _ _ _ K), (kept_balance _ _ _ K) by lia. Qed.

Lemma entry_holds px i x sh x' sh' r :
  let e := current_epoch (ps_state px) in
  pass_ok px -> entry_ok spec px i (e_validator x) -> entry_idle e x -> holds (bs_progressive (sh_balances sh)) e r ->
  entry_step spec enable_all px i x sh = Ok (x', sh') ->
  holds (bs_progressive (sh_balances sh')) e
    (fun flag => r flag - counted (e_validator x) (e_current x) e flag + counted (e_validator x') (e_current x') e flag)
  /\ entry_idle e x' /\ slashed (e_validator x') = slashed (e_validator x) /\ validator_ok spec (e_validator x').
Proof.
  intros e PO EO HI HH (Hp & _ & Hc)%entry_step_ok.
  apply process_validator_ok in Hp as (info & r1 & r2 & r3 & rs & r4 & r5 & bs & _ & H1 & H2 & H3 & H4 & H5 & H6 & ->).
  cbn [when enable_all c_inactivity_updates c_rewards_and_penalties c_registry_updates c_slashings c_effective_balance_updates] in *.
  apply inactivity_keeps in H1. apply rewards_keeps in H2. rewrite H1 in H2.
  pose proof (registry_stage_keeps _ SP _ _ _ _ _ _ PO ltac:(by rewrite H2) H3) as (K & VO & _). rewrite H2 in K. fold e in K.
  apply slashings_keeps in H4. apply deposits_keeps in H5. rewrite H4 in H5. rewrite <-H5 in K, VO. fold (e_validator x) in K.
  assert (is_active_at (row_validator r5) e = is_active_at (e_validator x) e) as HA by (apply (kept_active _ _ _ K); lia).
  unfold balances_stage in H6. unfold entry_idle. rewrite Hc. cbn [sh_balances]. destruct (existsb _ _).
  - unchain H6. injection H6 as Hr <-. unfold process_single_dummy_effective_balance_update in E. unchain E. injection E as <-. cbn [bs_progressive].
    assert (e_validator x' = row_validator r5) as -> by (unfold e_validator; by rewrite <-Hr). rewrite HA. split; [|split_and!; [done|apply (kept_slashed _ _ _ K)|done]]. eapply holds_ext, HH. intros flag. cbn beta.
    rewrite (counted_kept _ _ _ _ _ K). lia.
  - unchain H6. injection H6 as Hr <-. pose proof (single_update _ _ _ _ _ _ _ _ _ _ E) as (Hv & _ & _).
    eapply (update_holds _ _ _ _ _ _ _ _ _ e r) in E; [|by rewrite HA|done].
    assert (e_validator x' = v) as -> by (unfold e_validator; by rewrite <-Hr). split_and!.
    + eapply holds_ext, E. intros flag. cbn beta. by rewrite (counted_kept _ _ _ _ _ K).
    + rewrite Hv, active_with_balance, HA. done.
    + rewrite Hv. apply (kept_slashed _ _ _ K).
    + rewrite Hv. by destruct VO.
Qed.

Lemma loop_holds px i es sh es' sh' base :
  let e := current_epoch (ps_state px) in
  pass_ok px -> (forall k x, es !! k = Some x -> entry_ok spec px (i + k) (e_validator x) /\ entry_idle e x) ->
  holds (bs_progressive (sh_balances sh)) e (fun flag => base flag + entries_sum es e flag) ->
  loop (entry_step spec enable_all px) i es sh = Ok (es', sh') ->
  holds (bs_progressive (sh_balances sh')) e (fun flag => base flag + entries_sum es' e flag)
  /\ Forall (entry_idle e) es' /\ map slashed (map e_validator es') = map slashed (map e_validator es)
  /\ Forall (validator_ok spec) (map e_validator es').
Proof.
  intros e PO. revert i sh es' base. induction es as [|x es IH]; intros i sh es' base HE HH; [cbn; by intros [= <- <-]|].
  rewrite loop_cons. intros (x1 & sh1 & rest & E & L & ->).
  destruct (HE 0%nat x eq_refl) as [EO EI]. rewrite Nat.add_0_r in EO.
  apply (entry_holds _ _ _ _ _ _ _ PO EO EI HH) in E as (H1 & I1 & S1 & V1).
  apply (IH _ _ _ (fun flag => base flag + counted (e_validator x1) (e_current x1) e flag)) in L as (H2 & I2 & S2 & V2).
  - split; [|split_and!; [by constructor|cbn [map]; by rewrite S1, S2|by constructor]]. eapply holds_ext, H2. intros flag. unfold entries_sum. cbn [map attesting]. lia.
  - intros k y Hy. replace (S i + k)%nat with (i + S k)%nat by lia. by apply HE.
  - subst e. eapply holds_ext, H1. intros flag. unfold entries_sum. cbn [map attesting]. lia.
Qed.

(** * After the pass *)

(** The cache is right for the current epoch, with what that needs to stay so. *)
Definition slashed_at (st : EpochState) (i : nat) : bool := default false (map slashed (vals st) !! i).

Record tallied (f : ForkName) (e : Z) (sl : nat -> bool) (st : EpochState) : Prop := {
  ty_fork : st_fork st = f;
  ty_epoch : st_current_epoch st = e;
  ty_length : length (flags st) = length (vals st);
  ty_holds : holds (progressive_balances_cache (st_caches st)) e (attesting (vals st) (flags st) e);
  ty_idle i v bits : vals st !! i = Some v -> flags st !! i = Some bits -> is_active_at v e = false -> bits = 0;
  ty_slashed i : slashed_at st i = sl i;
  ty_valid : Forall (validator_ok spec) (vals st)
}.

(** Steps that change none of it. *)
Definition same_votes (st st' : EpochState) : Prop :=
  st_fork st' = st_fork st /\ st_current_epoch st' = st_current_epoch st /\ vals st' = vals st /\ flags st' = flags st
  /\ progressive_balances_cache (st_caches st') = progressive_balances_cache (st_caches st).

Lemma tallied_same f e sl st st' : tallied f e sl st -> same_votes st st' -> tallied f e sl st'.
Proof. intros [T1 T2 T3 T4 T5 T6 T7] (K & E & V & F & P). split; unfold slashed_at; rewrite ?K, ?E, ?V, ?F, ?P; done. Qed.

Lemma update_balances_tallied indices ectx ctx pre st pre' st' f e sl :
  tallied f e sl st -> update_balances spec indices ectx ctx pre st = Ok (pre', st') -> tallied f e sl st'.
Proof.
  revert pre st. induction indices as [|i indices IH]; intros pre st T; [cbn; by intros [= <- <-]|].
  cbn [update_balances]. destruct (balances (st_validators st) !! i) as [b|]; [|done]. destruct (vals st !! i) as [v|] eqn:Ev; [|done].
  destruct (flags st !! i) as [bits|] eqn:Ef; [|done].
  destruct (process_single_effective_balance_update _ _ _ _ _ _ _ _) as [[v1 sh1]|] eqn:E; [|done]. intros H.
  eapply IH, H. destruct T as [T1 T2 T3 T4 T5 T6 T7]. pose proof (single_update _ _ _ _ _ _ _ _ _ _ E) as (Hv & _ & _).
  apply (update_holds _ _ _ _ _ _ _ _ _ e (attesting (vals st) (flags st) e)) in E; [|by eapply T5|done].
  split; cbn; [done|done|by rewrite length_insert|..].
  - eapply holds_ext, E. intros flag. symmetry. by apply attesting_insert.
  - intros k w c Hw Hc. apply list_lookup_insert_Some in Hw as [(-> & <- & _)|(_ & Hw)]; [|by eapply T5].
    rewrite Hv, active_with_balance. by eapply T5.
  - intros k. rewrite <-T6. unfold slashed_at. cbn. rewrite list_fmap_insert, list_insert_id; [done|].
    rewrite list_lookup_fmap, Ev, Hv. done.
  - apply Forall_insert; [done|]. rewrite Hv. by destruct (Forall_lookup_1 _ _ _ _ T7 Ev).
Qed.

Lemma change_balance_votes st i g st' : change_balance_at st i g = Ok st' -> same_votes st st'.
Proof. unfold change_balance_at. destruct (_ !! i); [|done]. intros H. unchain H. by injection H as <-. Qed.

Lemma add_validator_tallied f e sl st d st' i :
  tallied f e sl st -> add_validator_to_registry spec st d = Ok (st', i) -> tallied f e sl st'.
Proof.
  intros [T1 T2 T3 T4 T5 T6 T7] H. unfold add_validator_to_registry in H. unchain H. injection H as <- <-. split; cbn; [done|done|..].
  - rewrite !length_app. cbn. lia.
  - eapply holds_ext, T4. intros flag. cbn beta. rewrite attesting_app by done. cbn [attesting]. rewrite counted_zero. lia.
  - intros k v bits Hv Hb. apply lookup_app_Some in Hb as [Hb|[_ Hb]]; [|by apply list_lookup_singleton_Some in Hb as [_ <-]].
    pose proof (lookup_lt_Some _ _ _ Hb). rewrite lookup_app_l in Hv by lia. by eapply T5.
  - intros k. rewrite <-T6. unfold slashed_at. cbn. rewrite map_app. destruct (decide (k < length (vals st))%nat) as [Hk|Hk].
    + by rewrite lookup_app_l by (by rewrite length_map).
    + rewrite lookup_app_r by (rewrite length_map; lia). rewrite (lookup_ge_None_2 (map slashed (vals st))) by (rewrite length_map; lia).
      rewrite length_map. by destruct (k - length (vals st))%nat.
  - apply Forall_app. split; [done|]. repeat constructor; cbn; rewrite ?(sp_far _ SP); done.
Qed.

Lemma new_deposits_tallied f e sl ds st added st' added' :
  tallied f e sl st -> apply_new_deposits spec env ds st added = Ok (st', added') -> tallied f e sl st'.
Proof.
  revert st added. induction ds as [|d ds IH]; intros st added T; [cbn; by intros [= <- _]|]. cbn [apply_new_deposits].
  destruct (build_pubkey_cache st) as [st1|] eqn:EB; [|done].
  assert (tallied f e sl st1) as T1.
  { eapply tallied_same; [done|]. unfold build_pubkey_cache in EB. unchain EB. by injection EB as <-. }
  destruct (pubkey_get _ _) as [j|].
  - destruct (change_balance_at _ _ _) as [st2|] eqn:E; [|done]. apply IH. eapply tallied_same, change_balance_votes; done.
  - destruct (is_valid_deposit_signature env d); [|by apply IH].
    destruct (add_validator_to_registry _ _ _) as [[st2 i]|] eqn:E; [|done]. apply IH. by eapply add_validator_tallied.
Qed.

Lemma consolidate_votes ps next n st n' st' : consolidate ps next n st = Ok (n', st') -> same_votes st st'.
Proof.
  revert n st. induction ps as [|p ps IH]; intros n st; [by intros [= _ <-]|]. cbn [consolidate].
  destruct (vals st !! source_index p) as [v|]; [|done]. destruct (slashed v); [apply IH|]. destruct (next <? _); [by intros [= _ <-]|].
  destruct (balances (st_validators st) !! source_index p) as [b|]; [|done].
  destruct (change_balance_at st _ _) as [s1|] eqn:E1; [|done]. destruct (change_balance_at s1 _ _) as [s2|] eqn:E2; [|done].
  apply change_balance_votes in E1 as (? & ? & ? & ? & ?), E2 as (? & ? & ? & ? & ?).
  intros (? & ? & ? & ? & ?)%IH. unfold same_votes. split_and!; congruence.
Qed.

(** ** The stages *)

Lemma pass_tallied px sh st st1 sh1 :
  ready env st -> pass_ok px -> (forall i v, vals st !! i = Some v -> entry_ok spec px i v) ->
  coherent st -> idle_flags st -> pass_start spec env enable_all st = Ok (px, sh) ->
  run_pass spec enable_all px sh st = Ok (st1, sh1) -> tallied (st_fork st) (st_current_epoch st) (slashed_at st) st1.
Proof.
  intros R PO EO HC HI S H. pose proof (rd_lengths _ _ R) as RL. pose proof RL as [L1 L2 L3 L4].
  apply pass_start_shared in S as (_ & S2 & _ & S4 & _). unfold run_pass in H. unchain H. injection H as <- <-.
  apply pass_loop in E as (es & L & -> & -> & ->); [|done..]. fold (rows (st_validators st)) in L.
  pose proof (loop_flags _ _ _ _ _ _ _ _ L) as [_ HF].
  assert (map e_current (rows (st_validators st)) = flags st) as HR.
  { unfold rows. by destruct (entries_fields (vals st) (balances (st_validators st)) (inactivity_scores (st_validators st))
      (previous_epoch_participation (st_validators st)) (flags st)) as (_ & _ & _ & _ & ->). }
  assert (map e_validator (rows (st_validators st)) = vals st) as HV.
  { unfold rows. by destruct (entries_fields (vals st) (balances (st_validators st)) (inactivity_scores (st_validators st))
      (previous_epoch_participation (st_validators st)) (flags st)) as (-> & _). }
  apply (loop_holds _ _ _ _ _ _ (fun _ => 0) PO) in L as (HH & HE & HSL & HV2).
  - rewrite S4 in HH, HE. split; cbn; [done|done|..].
    + rewrite <-HR, <-HF. by rewrite !length_map.
    + eapply holds_ext, HH. intros flag. unfold entries_sum. by rewrite HF, HR.
    + intros i v bits Hv Hb Ha. apply list_lookup_fmap_Some in Hv as (x & -> & Hx).
      rewrite <-HR, <-HF, list_lookup_fmap, Hx in Hb. injection Hb as <-. by apply (Forall_lookup_1 _ _ _ _ HE Hx).
    + intros i. unfold slashed_at. cbn. by rewrite HSL, HV.
    + done.
  - intros k x Hx. pose proof (rows_lookup _ _ _ RL Hx) as [Hv _]. split; [by apply EO|]. rewrite S4. intros Ha.
    eapply HI; [done| |done]. by rewrite <-HR, list_lookup_fmap, Hx.
  - rewrite S2, HC, S4. eexists. unfold recomputed, totals. do 2 f_equal. apply sums_ext. intros flag. unfold entries_sum. by rewrite HV, HR.
Qed.

Lemma deposits_tallied px pre st pre' st' f e sl :
  tallied f e sl st -> finish_deposits spec env enable_all px pre st = Ok (pre', st') -> tallied f e sl st'.
Proof.
  intros T. unfold finish_deposits. destruct (ps_deposits px) as [d|]; [|by intros [= _ <-]].
  destruct (apply_new_deposits _ _ _ _ _) as [[st1 added]|] eqn:E; [|done]. cbn [c_effective_balance_updates enable_all].
  apply update_balances_tallied. eapply new_deposits_tallied; [|exact E]. by eapply tallied_same.
Qed.

Lemma consolidations_tallied px pre st pre' st' f e sl :
  tallied f e sl st -> process_pending_consolidations spec enable_all px pre st = Ok (pre', st') -> tallied f e sl st'.
Proof.
  intros T. unfold process_pending_consolidations. destruct (safe_add _ _) as [nx|]; [|done].
  destruct (consolidate _ _ _ _) as [[n st1]|] eqn:E; [|done]. cbn [c_effective_balance_updates enable_all].
  apply update_balances_tallied, (tallied_same f e sl st1); [|done]. by eapply tallied_same, consolidate_votes.
Qed.

Lemma later_votes (b : bool) st st' (r : Result EpochState EpochError) :
  (r = Ok st' -> same_votes st st') -> (if b then r else Ok st) = Ok st' -> same_votes st st'.
Proof. destruct b; [done|]. by intros _ [= <-]. Qed.

Lemma payments_votes ctx st st' : process_builder_pending_payments spec ctx st = Ok st' -> same_votes st st'.
Proof. unfold process_builder_pending_payments. intros H. unchain H. by injection H as <-. Qed.
Lemma lookahead_votes st st' : process_proposer_lookahead spec env st = Ok st' -> same_votes st st'.
Proof. unfold process_proposer_lookahead. intros H. unchain H. by injection H as <-. Qed.
Lemma window_votes st st' : process_ptc_window spec env st = Ok st' -> same_votes st st'.
Proof. unfold process_ptc_window. destruct (Nat.ltb _ _); [done|]. intros H. unchain H. by injection H as <-. Qed.
Lemma install_votes ctx rs pre st st' : install_caches spec enable_all ctx rs pre st = Ok st' -> same_votes st st'.
Proof. unfold install_caches. cbn [c_effective_balance_updates enable_all]. intros H. unchain H. by injection H as <-. Qed.
Lemma exits_votes rs st st' : finish_exits enable_all rs st = Ok st' -> same_votes st st'.
Proof.
  unfold finish_exits. destruct (_ && _); [|by intros [= <-]]. destruct (rs_earliest_exit_epoch rs), (rs_exit_balance_to_consume rs); try done.
  by intros [= <-].
Qed.

(** The whole transition keeps the cache right for the current epoch. *)
Lemma single_pass_tallied st st' :
  epoch_ready spec env st -> coherent st -> idle_flags st ->
  process_epoch_single_pass spec env enable_all st = Ok st' -> tallied (st_fork st) (st_current_epoch st) (slashed_at st) st'.
Proof.
  intros ER HC HI H. pose proof (er_ready _ _ _ ER) as R. unfold process_epoch_single_pass in H.
  rewrite (rd_fork _ _ R), (ready_caches _ _ _ R) in H. cbn [variant] in H.
  destruct (process_registry _ _ _ _) as [[px st6]|] eqn:P; [|done]. unfold process_registry in P.
  destruct (pass_start _ _ _ _) as [[px' sh]|] eqn:S; [|done].
  pose proof (proj1 (proj1 (pass_start_split _ _ _ _ _ _) S)) as S0.
  destruct (epoch_ready_pass spec env SP _ _ _ ER S0) as ([PO1 PO2] & EO & _).
  destruct (run_pass _ _ _ _ _) as [[st1 sh1]|] eqn:E1; [|done].
  apply (pass_tallied px') in E1 as T1; [|done|by split|intros i v Hv; by destruct (EO i v Hv); split|done..].
  destruct (finish_exits _ _ _) as [st2|] eqn:E2; [|done]. apply exits_votes in E2.
  destruct (finish_deposits _ _ _ _ _ _) as [[pre3 st3]|] eqn:E3; [|done].
  apply (deposits_tallied _ _ _ _ _ _ _ _ (tallied_same _ _ _ _ _ T1 E2)) in E3 as T3.
  match type of P with match ?r with _ => _ end = _ => destruct r as [[pre4 st4]|] eqn:E4 in P; [|done] end.
  assert (tallied (st_fork st) (st_current_epoch st) (slashed_at st) st4) as T4.
  { destruct (_ && _); [by eapply consolidations_tallied|]. by injection E4 as <- <-. }
  match type of P with match ?r with _ => _ end = _ => destruct r as [st5|] eqn:E5 in P; [|done] end.
  apply later_votes in E5; [|apply payments_votes]. destruct (install_caches _ _ _ _ _ _) as [st6'|] eqn:E6; [|done].
  injection P as -> ->. apply install_votes in E6.
  match type of H with match ?r with _ => _ end = _ => destruct r as [st7|] eqn:E7 in H; [|done] end.
  apply later_votes in E7; [|apply lookahead_votes]. apply later_votes in H; [|apply window_votes].
  eauto using tallied_same.
Qed.

Lemma slashed_total st st1 i : build_total_active_balance_cache spec st = Ok st1 -> slashed_at st1 i = slashed_at st i.
Proof.
  unfold build_total_active_balance_cache. destruct (get_total_active_balance st); [by intros [= <-]|]. intros H. unchain H. by injection H as <-.
Qed.

Lemma prepare_ready st st1 fin :
  epoch_ready spec env st -> coherent st -> idle_flags st -> build_total_active_balance_cache spec st = Ok st1 ->
  epoch_ready spec env (with_finalized st1 fin) /\ coherent (with_finalized st1 fin) /\ idle_flags (with_finalized st1 fin)
  /\ initialize_epoch_cache spec env st1 = Ok st1 /\ initialize_progressive_balances_cache spec st1 = Ok st1
  /\ st_fork st1 = st_fork st /\ st_current_epoch st1 = st_current_epoch st.
Proof.
  intros ER HC HI H. pose proof ER as [[R1 R2 R3 R4 R5 R6 R7] V Q].
  assert (st1 = st \/ exists e b, st1 = set_total st e b) as [->|(e & b & ->)].
  { unfold build_total_active_balance_cache in H. destruct (get_total_active_balance st); [injection H as <-; by left|].
    unchain H. injection H as <-. right. by eexists _, _. }
  all: split_and!; try done; try (split; [split; done|done|done]).
  all: unfold initialize_epoch_cache, initialize_progressive_balances_cache; cbn; rewrite ?R3, ?R1; cbn; try done.
  all: destruct R4 as [pb ->]; done.
Qed.

(** If the cache is the one a computation from scratch gives, it is so again in the next
    epoch: after justification, the pass with its updates of effective balances, new and
    consolidated validators, and the rotation of participation and totals. *)
Lemma epoch_coherent root fs st fs' st1 st2 :
  epoch_ready spec env st -> coherent st -> idle_flags st ->
  process_epoch spec env root fs st = Ok (fs', st1) -> enter_epoch st1 = Ok st2 ->
  coherent st2 /\ idle_flags st2 /\ idle_previous st2 /\ same_participation st2
  /\ st_current_epoch st2 = st_current_epoch st + 1 /\ st_fork st2 = st_fork st /\ (forall i, slashed_at st2 i = slashed_at st i)
  /\ Forall (validator_ok spec) (vals st2).
Proof.
  intros ER HC HI H HN. pose proof (rd_epoch _ _ (er_ready _ _ _ ER)) as H0. pose proof (rd_fork _ _ (er_ready _ _ _ ER)) as HF.
  unfold process_epoch in H. rewrite HF in H. cbn [variant] in H.
  destruct (build_total_active_balance_cache spec st) as [sa|] eqn:EA; [|done].
  destruct (initialize_epoch_cache _ _ sa) as [sb|] eqn:EB; [|done]. destruct (initialize_progressive_balances_cache _ sb) as [sc|] eqn:EC; [|done].
  destruct (process_justification root fs sc) as [jf|]; [|done].
  destruct (prepare_ready st sa (finalized_checkpoint (apply_changes_to_state jf fs)) ER HC HI EA) as (ER1 & HC1 & HI1 & IE & IP & F1 & C1).
  rewrite IE in EB. injection EB as <-. rewrite IP in EC. injection EC as <-.
  destruct (process_epoch_single_pass _ _ _ _) as [sd|] eqn:ED; [|done]. apply single_pass_tallied in ED as T; [|done..].
  destruct (process_slashings_reset spec sd) as [se|] eqn:EE; [|done]. change (st_fork (with_finalized sa _)) with (st_fork sa) in T.
  change (st_current_epoch (with_finalized sa _)) with (st_current_epoch sa) in T. rewrite F1, C1 in T.
  assert (same_votes sd se) as HS.
  { unfold process_slashings_reset in EE. unchain EE. destruct (_ <? _); [|done]. unchain EE. destruct (Nat.ltb _ _); [|done]. by injection EE as <-. }
  apply (tallied_same _ _ _ _ _ T) in HS as [T1 T2 T3 [p T4] T5 T6 T7]. unfold update_progressive_balances_on_epoch_transition in H. cbn in H.
  rewrite T1, HF in H. unchain H. injection H as _ <-. unfold on_epoch_transition in E. rewrite T4 in E. cbn in E. unchain E. injection E as <-.
  unfold enter_epoch in HN. unchain HN. injection HN as <-. cbn in E. rewrite T2 in E. rewrite E in E0. injection E0 as <-.
  apply safe_add_ok in E as [-> _]. 
  assert (previous_epoch_of (st_current_epoch st + 1) = st_current_epoch st) as HP by (unfold previous_epoch_of; case_match; lia).
  split_and!; [|intros i v bits _ Hb _; cbn in Hb; by apply list_elem_of_lookup_2, list_elem_of_In, repeat_spec in Hb|..|done|done| |done].
  - unfold coherent, recomputed, totals. cbn. rewrite HP. do 2 f_equal. symmetry.
    etransitivity; [apply (sums_ext _ (fun _ => 0)); intros; apply attesting_zero|done].
  - intros i v bits. cbn. rewrite HP. apply T5.
  - split; cbn; [done|by rewrite repeat_length].
  - intros i. rewrite <-(slashed_total _ _ i EA). apply T6.
Qed.

End totals.
