(* ===== verification/Operations.v ===== *)
(** * Operations of a block on the validators

    What a block's attestations and slashings do to the validators and their caches
    (src/ethereum-topostake/lighthouse/consensus/state_processing/src/: slash_validator.rs,
    initiate_validator_exit.rs, get_attesting_indices.rs and get_attestation_participation.rs
    of common/, and process_operations.rs, verify_attestation.rs, verify_proposer_slashing.rs,
    verify_attester_slashing.rs and is_valid_indexed_attestation.rs of per_block_processing/,
    with the types' slashings_cache.rs), and that any chain of blocks and ends of epochs
    keeps the caches right.

    The members of a committee come from the committee caches and the proposer of a block from
    proposer selection; signatures are checked by the BLS library. *)

From stdpp Require Import sorting.
From S2P Require Import EpochProcessing EpochStages EpochEquiv EpochClaims EpochBalances EpochTotals.
Local Open Scope rust_scope.
Local Open Scope Z_scope.

(** * The slashings cache *)

Record SlashingsCache := mkSlashings { sl_latest_block_slot : option Z; slashed_validators : gset nat }.

Definition slashed_indices (vs : list Validator) : gset nat :=
  list_to_set (List.filter (fun i => default false (slashed <$> vs !! i)) (seq 0 (length vs))).

Definition SlashingsCache_new (latest_block_slot : Z) (vs : list Validator) : SlashingsCache :=
  mkSlashings (Some latest_block_slot) (slashed_indices vs).

Definition slashings_initialized (c : SlashingsCache) (slot : Z) : bool := bool_decide (sl_latest_block_slot c = Some slot).

Definition record_validator_slashing (c : SlashingsCache) (slot : Z) (index : nat) : Result SlashingsCache EpochError :=
  if slashings_initialized c slot
  then Ok (mkSlashings (sl_latest_block_slot c) ({[index]} ∪ slashed_validators c))
  else Err (BeaconStateError "SlashingsCacheUninitialized").

Definition update_latest_block_slot (c : SlashingsCache) (slot : Z) : SlashingsCache :=
  mkSlashings (Some slot) (slashed_validators c).

Definition is_slashed_index (c : SlashingsCache) (index : nat) : bool := bool_decide (index ∈ slashed_validators c).

(** * The state *)

(** The further fields of [ChainSpec] that operations read. *)
Record OpSpec := mkOpSpec {
  op_spec : EpochSpec;
  min_attestation_inclusion_delay : Z;
  min_slashing_penalty_quotient : Z;
  min_slashing_penalty_quotient_altair : Z;
  min_slashing_penalty_quotient_bellatrix : Z;
  min_slashing_penalty_quotient_electra : Z;
  whistleblower_reward_quotient : Z;
  whistleblower_reward_quotient_electra : Z;
  proposer_reward_quotient : Z
}.

Record BeaconBlockHeader := mkHeader {
  bh_slot : Z;
  bh_proposer_index : nat;
  bh_parent_root : bytes;
  bh_state_root : bytes;
  bh_body_root : bytes
}.

(** The state that operations change, with what they read of the rest of it. *)
Record BlockState := mkBlockState {
  bk_state : EpochState;
  bk_finality : FinalityState;
  bk_slashings_cache : SlashingsCache;
  bk_slot : Z;
  bk_latest_block_header : BeaconBlockHeader;
  bk_block_root : Z -> Result bytes EpochError;
  bk_payload_availability : list bool
}.

Definition with_state (s : BlockState) (st : EpochState) : BlockState :=
  mkBlockState st (bk_finality s) (bk_slashings_cache s) (bk_slot s) (bk_latest_block_header s) (bk_block_root s)
    (bk_payload_availability s).
Definition with_slashings_cache (s : BlockState) (c : SlashingsCache) : BlockState :=
  mkBlockState (bk_state s) (bk_finality s) c (bk_slot s) (bk_latest_block_header s) (bk_block_root s)
    (bk_payload_availability s).
Definition with_latest_header (s : BlockState) (h : BeaconBlockHeader) : BlockState :=
  mkBlockState (bk_state s) (bk_finality s) (bk_slashings_cache s) (bk_slot s) h (bk_block_root s)
    (bk_payload_availability s).
Definition bk_latest_block_slot (s : BlockState) : Z := bh_slot (bk_latest_block_header s).

Definition with_validator_list (st : EpochState) (l : list Validator) : EpochState :=
  let vs := st_validators st in
  with_validators st (mkValidators l (balances vs) (inactivity_scores vs) (previous_epoch_participation vs)
                        (current_epoch_participation vs) (pubkey_cache vs)).
Definition with_previous_participation (st : EpochState) (l : list Z) : EpochState :=
  let vs := st_validators st in
  with_validators st (mkValidators (validators vs) (balances vs) (inactivity_scores vs) l
                        (current_epoch_participation vs) (pubkey_cache vs)).
Definition with_current_participation (st : EpochState) (l : list Z) : EpochState :=
  let vs := st_validators st in
  with_validators st (mkValidators (validators vs) (balances vs) (inactivity_scores vs) (previous_epoch_participation vs)
                        l (pubkey_cache vs)).

Definition build_slashings_cache (s : BlockState) : BlockState :=
  if slashings_initialized (bk_slashings_cache s) (bk_latest_block_slot s) then s
  else with_slashings_cache s (SlashingsCache_new (bk_latest_block_slot s) (validators (st_validators (bk_state s)))).

Record AttestationData := mkAttestationData {
  ad_slot : Z;
  ad_index : Z;
  ad_beacon_block_root : bytes;
  ad_source : Checkpoint;
  ad_target : Checkpoint
}.

Record IndexedAttestation := mkIndexed { attesting_indices : list nat; ia_data : AttestationData; ia_signature : bytes }.

(** The two variants of an attestation; Electra's has a bit for each committee of the slot. *)
Inductive CommitteeChoice := BaseAttestation | ElectraAttestation (committee_bits : list bool).
Record Attestation := mkAttestation {
  aggregation_bits : list bool;
  at_data : AttestationData;
  at_signature : bytes;
  at_committees : CommitteeChoice
}.

Record ProposerSlashing := mkProposerSlashing { ps_header_1 : BeaconBlockHeader; ps_header_2 : BeaconBlockHeader;
                                                ps_signature_1 : bytes; ps_signature_2 : bytes }.
Record AttesterSlashing := mkAttesterSlashing { as_attestation_1 : IndexedAttestation; as_attestation_2 : IndexedAttestation }.

#[export] Instance checkpoint_eq_decision : EqDecision Checkpoint.
Proof. solve_decision. Defined.
#[export] Instance attestation_data_eq_decision : EqDecision AttestationData.
Proof. solve_decision. Defined.
#[export] Instance header_eq_decision : EqDecision BeaconBlockHeader.
Proof. solve_decision. Defined.

(** The committees of a slot, in order, from the state's committee caches. *)
Definition Committees := BlockState -> Z -> Result (list (list nat)) EpochError.

(** Signature checks, of the BLS library over the state's public keys. *)
Record SignatureCheck := mkSignatureCheck {
  verify_header : BlockState -> BeaconBlockHeader -> bytes -> bool;
  verify_indexed : BlockState -> IndexedAttestation -> bool
}.

Definition verify (b : bool) (reason : string) : Result unit EpochError := if b then Ok tt else Err (BeaconStateError reason).

Section operations.
Context (ospec : OpSpec).
Let spec := op_spec ospec.

(** * The header *)

(** [process_block_header]; [proposer]: the proposer of the slot, [root]: a header's hash tree root. *)
Definition process_block_header (root : BeaconBlockHeader -> bytes) (verify_block_root : bool) (proposer : nat) (s : BlockState)
    (h : BeaconBlockHeader) : Result BlockState EpochError :=
  let? _ := verify (bh_slot h =? bk_slot s) "StateSlotMismatch" in
  let? _ := verify (bk_latest_block_slot s <? bh_slot h) "OlderThanLatestBlockHeader" in
  let? _ := verify (Nat.eqb (bh_proposer_index h) proposer) "ProposerIndexMismatch" in
  let? _ := (if verify_block_root
             then verify (bool_decide (bh_parent_root h = root (bk_latest_block_header s))) "ParentBlockRootMismatch" else Ok tt) in
  let s := with_latest_header (with_slashings_cache s (update_latest_block_slot (bk_slashings_cache s) (bh_slot h))) h in
  match validators (st_validators (bk_state s)) !! bh_proposer_index h with
  | None => Err unknown_validator
  | Some v => let? _ := verify (negb (slashed v)) "ProposerSlashed" in Ok s
  end.

(** * Exits *)

Definition exit_churn_of (st : EpochState) : Result Z EpochError :=
  if gloas_fork (st_fork st) then get_balance_churn_limit spec st else get_activation_exit_churn_limit spec st.

(** [BeaconState::compute_exit_epoch_and_update_churn]. *)
Definition state_exit_epoch (st : EpochState) (exit_balance : Z) : Result (Z * EpochState) EpochError :=
  let? _ := variant (electra_enabled (st_fork st)) in
  let earliest := earliest_exit_epoch (st_exits st) in
  let? delayed := compute_activation_exit_epoch spec (st_current_epoch st) in
  let start := Z.max earliest delayed in
  let? churn := exit_churn_of st in
  let available := if earliest <? start then churn else exit_balance_to_consume (st_exits st) in
  let? (epoch, available) :=
    (if available <? exit_balance then
       let? missing := safe_sub exit_balance available in
       let? less := safe_sub missing 1 in
       let? epochs := safe_div less churn in
       let? epochs := safe_add epochs 1 in
       let? epoch := safe_add start epochs in
       let? more := safe_mul epochs churn in
       let? available := safe_add available more in
       Ok (epoch, available)
     else Ok (start, available)) in
  let? rest := safe_sub available exit_balance in
  Ok (epoch, with_exits st (mkExitQueue (exit_cache (st_exits st)) epoch rest)).

Definition exit_epoch_by_count (st : EpochState) : Result Z EpochError :=
  let? delayed := compute_activation_exit_epoch spec (st_current_epoch st) in
  let? last := max_epoch (exit_cache (st_exits st)) in
  let epoch := match last with Some e => Z.max e delayed | None => delayed end in
  let? churn := get_churn_at (exit_cache (st_exits st)) epoch in
  let? limit := get_validator_churn_limit spec st in
  if limit <=? churn then safe_add epoch 1 else Ok epoch.

(** [initiate_validator_exit] of common/initiate_validator_exit.rs. *)
Definition initiate_exit (st : EpochState) (index : nat) : Result EpochState EpochError :=
  match validators (st_validators st) !! index with
  | None => Err unknown_validator
  | Some v =>
      if negb (exit_epoch v =? far_future_epoch spec) then Ok st else
      let? st := build_exit_cache spec st in
      let? (epoch, st) := (if electra_enabled (st_fork st) then state_exit_epoch st (effective_balance v)
                           else let? e := exit_epoch_by_count st in Ok (e, st)) in
      let? withdrawable := safe_add epoch (min_validator_withdrawability_delay spec) in
      let? cache := record_validator_exit (exit_cache (st_exits st)) epoch in
      let st := with_validator_list st (<[index := with_exit v epoch withdrawable]> (validators (st_validators st))) in
      Ok (with_exits st (mkExitQueue cache (earliest_exit_epoch (st_exits st)) (exit_balance_to_consume (st_exits st))))
  end.

(** * Slashings *)

Definition get_slashings_index (st : EpochState) (epoch : Z) (next_allowed : bool) : Result nat EpochError :=
  let? wrapped := safe_add epoch (epochs_per_slashings_vector spec) in
  let? upper := (if next_allowed then safe_add (st_current_epoch st) 1 else Ok (st_current_epoch st)) in
  if (st_current_epoch st <? wrapped) && (epoch <=? upper) then
    let? i := safe_rem epoch (epochs_per_slashings_vector spec) in Ok (Z.to_nat i)
  else Err (BeaconStateError "EpochOutOfBounds").

Definition get_slashings (st : EpochState) (epoch : Z) : Result Z EpochError :=
  let? i := get_slashings_index st epoch false in
  match st_slashings st !! i with Some b => Ok b | None => Err (BeaconStateError "SlashingsOutOfBounds") end.

Definition set_slashings (st : EpochState) (epoch value : Z) : Result EpochState EpochError :=
  let? i := get_slashings_index st epoch true in
  if Nat.ltb i (length (st_slashings st)) then Ok (with_slashings st (<[i := value]> (st_slashings st)))
  else Err (BeaconStateError "SlashingsOutOfBounds").

Definition get_min_slashing_penalty_quotient (f : ForkName) : Z :=
  if electra_enabled f then min_slashing_penalty_quotient_electra ospec
  else if fork_ge f Bellatrix then min_slashing_penalty_quotient_bellatrix ospec
  else if fork_ge f Altair then min_slashing_penalty_quotient_altair ospec
  else min_slashing_penalty_quotient ospec.

Definition get_whistleblower_reward_quotient (f : ForkName) : Z :=
  if electra_enabled f then whistleblower_reward_quotient_electra ospec else whistleblower_reward_quotient ospec.

Definition PROPOSER_WEIGHT : Z := 8.

Definition increase_balance (st : EpochState) (index : nat) (delta : Z) : Result EpochState EpochError :=
  change_balance_at st index (fun b => safe_add b delta).
Definition decrease_balance (st : EpochState) (index : nat) (delta : Z) : Result EpochState EpochError :=
  change_balance_at st index (fun b => Ok (u64_sat_sub b delta)).

Definition update_progressive_balances_on_slashing (st : EpochState) (index : nat) (balance : Z)
    : Result EpochState EpochError :=
  if fork_ge (st_fork st) Altair then
    match previous_epoch_participation (st_validators st) !! index, current_epoch_participation (st_validators st) !! index with
    | Some p, Some c =>
        let? pb := progressive_on_slashing (progressive_balances_cache (st_caches st)) p c balance in
        Ok (set_progressive st pb)
    | _, _ => Err unknown_validator
    end
  else Ok st.

(** Marking the validator, up to its balance and the totals. *)
Definition mark_slashed (st : EpochState) (index : nat) : Result (Z * EpochState) EpochError :=
  let epoch := st_current_epoch st in
  let? st := initiate_exit st index in
  match validators (st_validators st) !! index with
  | None => Err unknown_validator
  | Some v =>
      let? delayed := safe_add epoch (epochs_per_slashings_vector spec) in
      let st := with_validator_list st (<[index := with_slashed v (Z.max (withdrawable_epoch v) delayed)]>
                                          (validators (st_validators st))) in
      let? sum := get_slashings st epoch in
      let? sum := safe_add sum (effective_balance v) in
      let? st := set_slashings st epoch sum in
      let? penalty := safe_div (effective_balance v) (get_min_slashing_penalty_quotient (st_fork st)) in
      let? st := decrease_balance st index penalty in
      let? st := update_progressive_balances_on_slashing st index (effective_balance v) in
      Ok (effective_balance v, st)
  end.

(** The rewards for reporting it. *)
Definition reward_slashing (st : EpochState) (balance : Z) (whistleblower : option nat) (proposer : nat)
    : Result EpochState EpochError :=
  let whistleblower := default proposer whistleblower in
  let? reward := safe_div balance (get_whistleblower_reward_quotient (st_fork st)) in
  let? proposer_reward := (if fork_ge (st_fork st) Altair
                           then let? n := safe_mul reward PROPOSER_WEIGHT in safe_div n WEIGHT_DENOMINATOR
                           else safe_div reward (proposer_reward_quotient ospec)) in
  match validators (st_validators st) !! whistleblower with
  | None => Err unknown_validator
  | Some _ =>
      let? st := increase_balance st proposer proposer_reward in
      let? rest := safe_sub reward proposer_reward in
      increase_balance st whistleblower rest
  end.

(** [slash_validator]; [proposer]: the proposer of the block. *)
Definition slash_validator (s : BlockState) (index : nat) (whistleblower : option nat) (proposer : nat)
    : Result BlockState EpochError :=
  let? (balance, st) := mark_slashed (bk_state s) index in
  let? c := record_validator_slashing (bk_slashings_cache s) (bk_latest_block_slot s) index in
  let? st := reward_slashing st balance whistleblower proposer in
  Ok (with_slashings_cache (with_state s st) c).

(** ** Proposer slashings *)

Definition verify_proposer_slashing (sig : SignatureCheck) (verify_signatures : bool) (s : BlockState) (x : ProposerSlashing)
    : Result unit EpochError :=
  let h1 := ps_header_1 x in
  let h2 := ps_header_2 x in
  let? _ := verify (bh_slot h1 =? bh_slot h2) "ProposalSlotMismatch" in
  let? _ := verify (Nat.eqb (bh_proposer_index h1) (bh_proposer_index h2)) "ProposerIndexMismatch" in
  let? _ := verify (negb (bool_decide (h1 = h2))) "ProposalsIdentical" in
  match validators (st_validators (bk_state s)) !! bh_proposer_index h1 with
  | None => Err (BeaconStateError "ProposerUnknown")
  | Some v =>
      let? _ := verify (is_slashable_at v (st_current_epoch (bk_state s))) "ProposerNotSlashable" in
      if verify_signatures then
        let? _ := verify (verify_header sig s h1 (ps_signature_1 x)) "BadProposal1Signature" in
        verify (verify_header sig s h2 (ps_signature_2 x)) "BadProposal2Signature"
      else Ok tt
  end.

(** From Gloas on the builder's payment for the proposal is withdrawn. *)
Definition clear_payment (st : EpochState) (slot : Z) : Result EpochState EpochError :=
  if gloas_fork (st_fork st) then
    let per_epoch := es_slots_per_epoch spec in
    let proposal_epoch := slot / per_epoch in
    let? in_epoch := safe_rem slot per_epoch in
    let index := if proposal_epoch =? st_current_epoch st then Some (per_epoch + in_epoch)
                 else if proposal_epoch =? previous_epoch_of (st_current_epoch st) then Some in_epoch
                 else None in
    match index with
    | None => Ok st
    | Some i =>
        let l := st_later st in
        let i := Z.to_nat i in
        if Nat.ltb i (length (builder_pending_payments l)) then
          Ok (with_later st (mkLater (pending_consolidations l) (proposer_lookahead l)
                               (<[i := default_payment]> (builder_pending_payments l))
                               (builder_pending_withdrawals l) (ptc_window l)))
        else Err (BeaconStateError "BuilderPaymentIndexOutOfBounds")
    end
  else Ok st.

Definition process_proposer_slashing (sig : SignatureCheck) (verify_signatures : bool) (proposer : nat) (s : BlockState)
    (x : ProposerSlashing) : Result BlockState EpochError :=
  let? _ := verify_proposer_slashing sig verify_signatures s x in
  let? st := clear_payment (bk_state s) (bh_slot (ps_header_1 x)) in
  slash_validator (with_state s st) (bh_proposer_index (ps_header_1 x)) None proposer.

Fixpoint each {A} (f : BlockState -> A -> Result BlockState EpochError) (l : list A) (s : BlockState)
    : Result BlockState EpochError :=
  match l with
  | [] => Ok s
  | x :: l => let? s := f s x in each f l s
  end.

Definition process_proposer_slashings (sig : SignatureCheck) (verify_signatures : bool) (proposer : nat)
    (l : list ProposerSlashing) (s : BlockState) : Result BlockState EpochError :=
  each (process_proposer_slashing sig verify_signatures proposer) l (build_slashings_cache s).

(** ** Attester slashings *)

Definition is_double_vote (a b : AttestationData) : bool :=
  (cp_epoch (ad_target a) =? cp_epoch (ad_target b)) && negb (bool_decide (a = b)).
Definition is_surround_vote (a b : AttestationData) : bool :=
  (cp_epoch (ad_source a) <? cp_epoch (ad_source b)) && (cp_epoch (ad_target b) <? cp_epoch (ad_target a)).

Fixpoint check_sorted (l : list nat) : bool :=
  match l with
  | x :: (y :: _) as rest => Nat.ltb x y && check_sorted rest
  | _ => true
  end.

Definition is_valid_indexed_attestation (sig : SignatureCheck) (verify_signatures : bool) (s : BlockState)
    (a : IndexedAttestation) : Result unit EpochError :=
  let? _ := verify (negb (Nat.eqb (length (attesting_indices a)) 0)) "IndicesEmpty" in
  let? _ := verify (check_sorted (attesting_indices a)) "BadValidatorIndicesOrdering" in
  if verify_signatures then verify (verify_indexed sig s a) "BadSignature" else Ok tt.

(** A [BTreeSet] of indices. *)
Definition index_set (l : list nat) : list nat := fold_left nat_set_insert l [].

Fixpoint slashable_among (st : EpochState) (l : list nat) : Result (list nat) EpochError :=
  match l with
  | [] => Ok []
  | i :: l =>
      match validators (st_validators st) !! i with
      | None => Err unknown_validator
      | Some v =>
          let? rest := slashable_among st l in
          Ok (if is_slashable_at v (st_current_epoch st) then i :: rest else rest)
      end
  end.

Definition get_slashable_indices (st : EpochState) (x : AttesterSlashing) : Result (list nat) EpochError :=
  let one := index_set (attesting_indices (as_attestation_1 x)) in
  let two := index_set (attesting_indices (as_attestation_2 x)) in
  let? l := slashable_among st (List.filter (fun i => existsb (Nat.eqb i) two) one) in
  let? _ := verify (negb (Nat.eqb (length l) 0)) "NoSlashableIndices" in
  Ok l.

Definition verify_attester_slashing (sig : SignatureCheck) (verify_signatures : bool) (s : BlockState) (x : AttesterSlashing)
    : Result (list nat) EpochError :=
  let a := ia_data (as_attestation_1 x) in
  let b := ia_data (as_attestation_2 x) in
  let? _ := verify (is_double_vote a b || is_surround_vote a b) "NotSlashable" in
  let? _ := is_valid_indexed_attestation sig verify_signatures s (as_attestation_1 x) in
  let? _ := is_valid_indexed_attestation sig verify_signatures s (as_attestation_2 x) in
  get_slashable_indices (bk_state s) x.

Definition process_attester_slashing (sig : SignatureCheck) (verify_signatures : bool) (proposer : nat) (s : BlockState)
    (x : AttesterSlashing) : Result BlockState EpochError :=
  let? indices := verify_attester_slashing sig verify_signatures s x in
  each (fun s i => slash_validator s i None proposer) indices s.

Definition process_attester_slashings (sig : SignatureCheck) (verify_signatures : bool) (proposer : nat)
    (l : list AttesterSlashing) (s : BlockState) : Result BlockState EpochError :=
  each (process_attester_slashing sig verify_signatures proposer) l (build_slashings_cache s).

(** * Attestations *)

Definition block_root_at_epoch (s : BlockState) (epoch : Z) : Result bytes EpochError :=
  bk_block_root s (Z.min (epoch * es_slots_per_epoch spec) U64_MAX).

Definition is_attestation_same_slot (s : BlockState) (data : AttestationData) : Result bool EpochError :=
  if ad_slot data =? 0 then Ok true else
  let? root := bk_block_root s (ad_slot data) in
  let? before := safe_sub (ad_slot data) 1 in
  let? previous := bk_block_root s before in
  Ok (bool_decide (ad_beacon_block_root data = root) && negb (bool_decide (ad_beacon_block_root data = previous))).

Definition payload_matches (s : BlockState) (data : AttestationData) : Result bool EpochError :=
  if gloas_fork (st_fork (bk_state s)) then
    let? same := is_attestation_same_slot s data in
    if same then
      if ad_index data =? 0 then Ok true else Err (BeaconStateError "BadOverloadedDataIndex")
    else
      let? i := safe_rem (ad_slot data) (Z.of_nat (length (bk_payload_availability s))) in
      match bk_payload_availability s !! Z.to_nat i with
      | Some available => Ok (ad_index data =? if available : bool then 1 else 0)
      | None => Err (BeaconStateError "InvalidExecutionPayloadAvailabilityIndex")
      end
  else Ok true.

(** [&&] over checks that may fail. *)
Definition and_check (b : bool) (r : Result bool EpochError) : Result bool EpochError := if b then r else Ok false.

Definition get_attestation_participation_flag_indices (s : BlockState) (data : AttestationData) (inclusion_delay : Z)
    : Result (list nat) EpochError :=
  let st := bk_state s in
  let justified := if cp_epoch (ad_target data) =? st_current_epoch st
                   then current_justified_checkpoint (bk_finality s) else previous_justified_checkpoint (bk_finality s) in
  let matching_source := bool_decide (ad_source data = justified) in
  let? matching_target := and_check matching_source
                            (let? root := block_root_at_epoch s (cp_epoch (ad_target data)) in
                             Ok (bool_decide (cp_root (ad_target data) = root))) in
  let? payload := payload_matches s data in
  let? matching_head := and_check matching_target
                          (let? root := bk_block_root s (ad_slot data) in
                           Ok (bool_decide (ad_beacon_block_root data = root) && payload)) in
  if negb matching_source then Err (BeaconStateError "IncorrectAttestationSource") else
  let per_epoch := es_slots_per_epoch spec in
  let timely_source := inclusion_delay <=? Z.sqrt per_epoch in
  let timely_target := if fork_ge (st_fork st) Deneb then matching_target
                       else matching_target && (inclusion_delay <=? per_epoch) in
  let timely_head := matching_head && (inclusion_delay =? min_attestation_inclusion_delay ospec) in
  Ok ((if timely_source then [TIMELY_SOURCE_FLAG_INDEX] else [])
      ++ (if timely_target then [TIMELY_TARGET_FLAG_INDEX] else [])
      ++ (if timely_head then [TIMELY_HEAD_FLAG_INDEX] else [])).

(** [get_epoch_participation_mut], read and written. *)
Definition get_epoch_participation (st : EpochState) (epoch : Z) : Result (list Z) EpochError :=
  if epoch =? st_current_epoch st then Ok (current_epoch_participation (st_validators st))
  else if epoch =? previous_epoch_of (st_current_epoch st) then Ok (previous_epoch_participation (st_validators st))
  else Err (BeaconStateError "EpochOutOfBounds").
Definition set_epoch_participation (st : EpochState) (epoch : Z) (l : list Z) : EpochState :=
  if epoch =? st_current_epoch st then with_current_participation st l else with_previous_participation st l.

Definition update_progressive_balances_on_attestation (st : EpochState) (epoch : Z) (flag : nat) (balance : Z) (is_slashed : bool)
    : Result EpochState EpochError :=
  if fork_ge (st_fork st) Altair then
    let? pb := progressive_on_new_attestation (progressive_balances_cache (st_caches st)) epoch is_slashed flag balance in
    Ok (set_progressive st pb)
  else Ok st.

(** One validator's flags: the reward, and whether a flag was new. *)
Fixpoint apply_flags (weights : list (nat * Z)) (flags : list nat) (epoch : Z) (index : nat) (balance : Z) (is_slashed : bool)
    (numerator : Z) (new : bool) (st : EpochState) : Result (Z * bool * EpochState) EpochError :=
  match weights with
  | [] => Ok (numerator, new, st)
  | (flag, weight) :: weights =>
      let? participation := get_epoch_participation st epoch in
      if existsb (Nat.eqb flag) flags then
        match participation !! index with
        | None => Err (BeaconStateError "ParticipationOutOfBounds")
        | Some bits =>
            let? has := has_flag bits flag in
            if has : bool then apply_flags weights flags epoch index balance is_slashed numerator new st
            else
              let? bits := add_flag bits flag in
              let st := set_epoch_participation st epoch (<[index := bits]> participation) in
              let? base := get_base_reward (epoch_cache (st_caches st)) index in
              let? x := safe_mul base weight in
              let? numerator := safe_add numerator x in
              let? st := update_progressive_balances_on_attestation st epoch flag balance is_slashed in
              apply_flags weights flags epoch index balance is_slashed numerator true st
        end
      else apply_flags weights flags epoch index balance is_slashed numerator new st
  end.

Definition enumerated_weights : list (nat * Z) := zip (seq 0 NUM_FLAG_INDICES) PARTICIPATION_FLAG_WEIGHTS.

(** The builder's payment of the slot, from Gloas on. *)
Definition payment_index_of (st : EpochState) (data : AttestationData) : Result nat EpochError :=
  let? in_epoch := safe_rem (ad_slot data) (es_slots_per_epoch spec) in
  Ok (Z.to_nat (if cp_epoch (ad_target data) =? st_current_epoch st then es_slots_per_epoch spec + in_epoch else in_epoch)).

Definition add_payment_weight (st : EpochState) (index : nat) (weight : Z) : Result EpochState EpochError :=
  let l := st_later st in
  match builder_pending_payments l !! index with
  | None => Err (BeaconStateError "BuilderPaymentIndexOutOfBounds")
  | Some p =>
      let? w := safe_add (bp_weight p) weight in
      Ok (with_later st (mkLater (pending_consolidations l) (proposer_lookahead l)
                           (<[index := mkBuilderPayment w (bp_withdrawal p)]> (builder_pending_payments l))
                           (builder_pending_withdrawals l) (ptc_window l)))
  end.

Fixpoint apply_attesters (s : BlockState) (data : AttestationData) (payment : option (nat * Z)) (flags : list nat)
    (indices : list nat) (numerator : Z) (st : EpochState) : Result (Z * EpochState) EpochError :=
  match indices with
  | [] => Ok (numerator, st)
  | i :: indices =>
      let? balance := get_effective_balance (epoch_cache (st_caches st)) i in
      let is_slashed := is_slashed_index (bk_slashings_cache s) i in
      let? (numerator, new, st) := apply_flags enumerated_weights flags (cp_epoch (ad_target data)) i balance is_slashed
                                     numerator false st in
      let? st := (match payment with
                  | None => Ok st
                  | Some (index, amount) =>
                      let? same := and_check new (is_attestation_same_slot s data) in
                      if same && (0 <? amount) then add_payment_weight st index balance else Ok st
                  end) in
      apply_attesters s data payment flags indices numerator st
  end.

(** ** Attesting indices *)

Fixpoint bits_of (committee : list nat) (bits : list bool) (offset : nat) : list nat :=
  match committee with
  | [] => []
  | v :: committee =>
      let rest := bits_of committee bits (S offset) in if default false (bits !! offset) then v :: rest else rest
  end.

(** [attesting_indices_base::get_attesting_indices]. *)
Definition attesting_indices_base (committee : list nat) (bits : list bool) : Result (list nat) EpochError :=
  if negb (Nat.eqb (length bits) (length committee)) then Err (BeaconStateError "InvalidBitfield")
  else Ok (merge_sort Nat.le (bits_of committee bits 0)).

Definition get_committee_indices (committee_bits : list bool) : list nat :=
  List.filter (fun i => default false (committee_bits !! i)) (seq 0 (length committee_bits)).

(** The attesters of the chosen committees and the number of their members. *)
Fixpoint committee_attesters (committees : list (list nat)) (bits : list bool) (indices : list nat) (offset : nat)
    : Result (list nat * nat) EpochError :=
  match indices with
  | [] => Ok ([], offset)
  | i :: indices =>
      match committees !! i with
      | None => Err (BeaconStateError "NoCommitteeFound")
      | Some committee =>
          let attesters := remove_dups (bits_of committee bits offset) in
          if Nat.eqb (length attesters) 0 then Err (BeaconStateError "EmptyCommittee") else
          let? (rest, count) := committee_attesters committees bits indices (offset + length committee) in
          Ok (attesters ++ rest, count)
      end
  end.

(** [attesting_indices_electra::get_attesting_indices]. *)
Definition attesting_indices_electra (committees : list (list nat)) (bits committee_bits : list bool)
    : Result (list nat) EpochError :=
  let? (indices, count) := committee_attesters committees bits (get_committee_indices committee_bits) 0 in
  if negb (Nat.eqb count (length bits)) then Err (BeaconStateError "InvalidBitfield")
  else Ok (merge_sort Nat.le indices).

(** [ConsensusContext::get_indexed_attestation]. *)
Definition get_indexed_attestation (committees : Committees) (s : BlockState) (a : Attestation)
    : Result IndexedAttestation EpochError :=
  let? l := committees s (ad_slot (at_data a)) in
  let? indices :=
    (match at_committees a with
     | BaseAttestation =>
         match l !! Z.to_nat (ad_index (at_data a)) with
         | None => Err (BeaconStateError "NoCommittee")
         | Some committee => attesting_indices_base committee (aggregation_bits a)
         end
     | ElectraAttestation bits => attesting_indices_electra l (aggregation_bits a) bits
     end) in
  Ok (mkIndexed indices (at_data a) (at_signature a)).

(** ** Verification *)

Definition verify_casper_ffg_vote (s : BlockState) (a : Attestation) : Result unit EpochError :=
  let data := at_data a in
  let current := st_current_epoch (bk_state s) in
  let? _ := verify (cp_epoch (ad_target data) =? ad_slot data / es_slots_per_epoch spec) "TargetEpochSlotMismatch" in
  if cp_epoch (ad_target data) =? current then
    verify (bool_decide (ad_source data = current_justified_checkpoint (bk_finality s))) "WrongJustifiedCheckpoint"
  else if cp_epoch (ad_target data) =? previous_epoch_of current then
    verify (bool_decide (ad_source data = previous_justified_checkpoint (bk_finality s))) "WrongJustifiedCheckpoint"
  else Err (BeaconStateError "BadTargetEpoch").

Definition verify_attestation_for_state (committees : Committees) (sig : SignatureCheck) (verify_signatures : bool)
    (s : BlockState) (a : Attestation) : Result IndexedAttestation EpochError :=
  let data := at_data a in
  let? _ := (match at_committees a with
             | BaseAttestation =>
                 let? l := committees s (ad_slot data) in verify (ad_index data <? Z.of_nat (length l)) "BadCommitteeIndex"
             | ElectraAttestation _ =>
                 if gloas_fork (fork_name_at_epoch spec (ad_slot data / es_slots_per_epoch spec))
                 then verify (ad_index data <? 2) "BadOverloadedDataIndex"
                 else verify (ad_index data =? 0) "BadCommitteeIndex"
             end) in
  let? _ := verify_casper_ffg_vote s a in
  let? indexed := get_indexed_attestation committees s a in
  let? _ := is_valid_indexed_attestation sig verify_signatures s indexed in
  Ok indexed.

Definition verify_attestation_for_block_inclusion (committees : Committees) (sig : SignatureCheck) (verify_signatures : bool)
    (s : BlockState) (a : Attestation) : Result IndexedAttestation EpochError :=
  let data := at_data a in
  let? early := safe_add (ad_slot data) (min_attestation_inclusion_delay ospec) in
  let? _ := verify (early <=? bk_slot s) "IncludedTooEarly" in
  let? _ := (if fork_ge (st_fork (bk_state s)) Deneb then Ok tt
             else let? late := safe_add (ad_slot data) (es_slots_per_epoch spec) in
                  verify (bk_slot s <=? late) "IncludedTooLate") in
  verify_attestation_for_state committees sig verify_signatures s a.

(** ** Processing *)

(** The builder's payment that the attestation of a block's own slot adds to, from Gloas on. *)
Definition payment_of (st : EpochState) (data : AttestationData) : Result (option (nat * Z)) EpochError :=
  if gloas_fork (st_fork st) then
    let? i := payment_index_of st data in
    match builder_pending_payments (st_later st) !! i with
    | None => Err (BeaconStateError "BuilderPaymentIndexOutOfBounds")
    | Some p => Ok (Some (i, bw_amount (bp_withdrawal p)))
    end
  else Ok None.

(** [altair_deneb::process_attestation] and, from Gloas on, [gloas::process_attestation]. *)
Definition process_attestation (committees : Committees) (sig : SignatureCheck) (verify_signatures : bool) (proposer : nat)
    (s : BlockState) (a : Attestation) : Result BlockState EpochError :=
  let data := at_data a in
  let st := bk_state s in
  let? indexed := verify_attestation_for_block_inclusion committees sig verify_signatures s a in
  let? inclusion_delay := safe_sub (bk_slot s) (ad_slot data) in
  let? flags := get_attestation_participation_flag_indices s data inclusion_delay in
  let? payment := payment_of st data in
  let? (numerator, st) := apply_attesters s data payment flags (attesting_indices indexed) 0 st in
  let? d := safe_sub WEIGHT_DENOMINATOR PROPOSER_WEIGHT in
  let? d := safe_mul d WEIGHT_DENOMINATOR in
  let? d := safe_div d PROPOSER_WEIGHT in
  let? reward := safe_div numerator d in
  let? st := increase_balance st proposer reward in
  Ok (with_state s st).

(** * A block

    The caches that [per_block_processing] builds, its header, and the first three lists of
    [process_operations], for the forks since Altair. *)

Record BlockVotes := mkBlockVotes {
  bv_header : BeaconBlockHeader;
  proposer_slashings : list ProposerSlashing;
  attester_slashings : list AttesterSlashing;
  attestations : list Attestation
}.

Definition process_votes (committees : Committees) (sig : SignatureCheck) (verify_signatures : bool) (proposer : nat)
    (b : BlockVotes) (s : BlockState) : Result BlockState EpochError :=
  let? s := process_proposer_slashings sig verify_signatures proposer (proposer_slashings b) s in
  let? s := process_attester_slashings sig verify_signatures proposer (attester_slashings b) s in
  each (process_attestation committees sig verify_signatures proposer) (attestations b) s.

Definition build_block_caches (env : EpochEnv) (s : BlockState) : Result BlockState EpochError :=
  let? st := initialize_epoch_cache spec env (bk_state s) in
  let? st := initialize_progressive_balances_cache spec st in
  Ok (build_slashings_cache (with_state s st)).

Definition process_block (env : EpochEnv) (root : BeaconBlockHeader -> bytes) (committees : Committees) (sig : SignatureCheck)
    (verify_block_root verify_signatures : bool) (proposer : nat) (b : BlockVotes) (s : BlockState)
    : Result BlockState EpochError :=
  let? s := build_block_caches env s in
  let? s := process_block_header root verify_block_root proposer s (bv_header b) in
  process_votes committees sig verify_signatures proposer b s.
End operations.

(** * The caches *)

Lemma flag_set_testbit bits flag : flag_set bits flag = Z.testbit bits (Z.of_nat flag).
Proof.
  unfold flag_set. rewrite Z.shiftl_1_l.
  assert (Z.land bits (2 ^ Z.of_nat flag) = if Z.testbit bits (Z.of_nat flag) then 2 ^ Z.of_nat flag else 0) as ->.
  { apply Z.bits_inj'. intros n Hn. rewrite Z.land_spec, Z.pow2_bits_eqb by lia.
    destruct (Z.eqb_spec (Z.of_nat flag) n) as [->|Hne].
    - rewrite andb_true_r. destruct (Z.testbit bits n); [by rewrite Z.pow2_bits_true|by rewrite Z.bits_0].
    - rewrite andb_false_r. destruct (Z.testbit bits _); [by rewrite Z.pow2_bits_false by lia|by rewrite Z.bits_0]. }
  pose proof (Z.pow_pos_nonneg 2 (Z.of_nat flag)). destruct (Z.testbit _ _); [by rewrite Z.eqb_refl|]. apply Z.eqb_neq. lia.
Qed.

Lemma flag_set_added bits flag k :
  flag_set (Z.lor bits (Z.shiftl 1 (Z.of_nat flag))) k = flag_set bits k || Nat.eqb k flag.
Proof.
  rewrite !flag_set_testbit, Z.shiftl_1_l, Z.lor_spec, Z.pow2_bits_eqb by lia. f_equal.
  destruct (Nat.eqb_spec k flag) as [->|]; [apply Z.eqb_refl|]. apply Z.eqb_neq. lia.
Qed.

Lemma attesting_flags vs fs i v bits bits' e flag :
  vs !! i = Some v -> fs !! i = Some bits ->
  attesting vs (<[i := bits']> fs) e flag = attesting vs fs e flag - counted v bits e flag + counted v bits' e flag.
Proof.
  revert i fs. induction vs as [|x vs IH]; intros [|i] [|f fs]; try done.
  - intros [= ->] [= ->]. cbn. lia.
  - intros Hv Hf. change (<[S i := bits']> (f :: fs)) with (f :: <[i := bits']> fs). cbn [attesting]. rewrite (IH i fs Hv Hf). lia.
Qed.

Section caches.
Context (ospec : OpSpec).
Let spec := op_spec ospec.

Abbreviation vals st := (validators (st_validators st)).
Abbreviation current st := (current_epoch_participation (st_validators st)).
Abbreviation previous st := (previous_epoch_participation (st_validators st)).

(** The caches that are built agree with the validators and their participation. *)
Record state_agrees (st : EpochState) : Prop := {
  sa_fork : fork_ge (st_fork st) Altair = true;
  sa_epoch : 0 <= st_current_epoch st;
  sa_lengths : same_participation st;
  sa_idle : idle_flags st;
  sa_idle_previous : idle_previous st;
  sa_valid : Forall (validator_ok spec) (vals st);
  sa_progressive pb : progressive_balances_cache (st_caches st) = Some pb -> coherent spec st;
  sa_balances c : epoch_cache (st_caches st) = Some c -> ch_effective_balances c = map effective_balance (vals st)
}.

(** The slashings cache is right when it is of the latest block. *)
Definition slashings_agree (s : BlockState) : Prop :=
  slashings_initialized (bk_slashings_cache s) (bk_latest_block_slot s) = true ->
  forall i, is_slashed_index (bk_slashings_cache s) i = slashed_at (bk_state s) i.

Definition caches_agree (s : BlockState) : Prop := state_agrees (bk_state s) /\ slashings_agree s.

(** ** Changes to the sums *)

Lemma slashing_shift r bits b t :
  on_slashing (sums_of spec r) bits b = Ok t -> t = sums_of spec (fun flag => r flag - if flag_set bits flag then b else 0).
Proof.
  intros H. apply (for_flags_shift spec _ _ (- b)) in H as ->; [apply sums_ext; intros flag; destruct (flag_set bits flag); lia|].
  intros x y. unfold Balance_sub. intros E. unchain E. injection E as <-. by apply safe_sub_ok in E0 as [-> _].
Qed.

Lemma new_attestation_shift r is_slashed flag b t :
  on_new_attestation (sums_of spec r) is_slashed flag b = Ok t ->
  t = sums_of spec (fun k => r k + if negb is_slashed && Nat.eqb k flag then b else 0).
Proof.
  unfold on_new_attestation. destruct is_slashed.
  { intros [= <-]. apply sums_ext. intros. cbn. lia. }
  unfold update_flag, Balance_add, sums_of. cbn [seq NUM_FLAG_INDICES map]. intros H.
  destruct flag as [|[|[|flag]]]; cbn in H; try done; unchain H; injection H as <-; unchain E; injection E as <-;
    apply safe_add_ok in E0 as [-> _]; cbn; by rewrite ?Z.add_0_r.
Qed.

(** ** States that differ elsewhere *)

(** The same but for the validators, which are [l]. *)
Definition same_around (st : EpochState) (l : list Validator) (st' : EpochState) : Prop :=
  st_fork st' = st_fork st /\ st_current_epoch st' = st_current_epoch st /\ vals st' = l /\ current st' = current st
  /\ previous st' = previous st /\ progressive_balances_cache (st_caches st') = progressive_balances_cache (st_caches st)
  /\ epoch_cache (st_caches st') = epoch_cache (st_caches st).

Definition same_votes_caches (st st' : EpochState) : Prop := same_around st (vals st) st'.

Lemma same_agrees st st' : same_votes_caches st st' -> state_agrees st -> state_agrees st'.
Proof.
  intros (F & E & V & C & P & PB & EC) [A1 A2 A3 A4 A5 A6 A7 A8].
  split; unfold same_participation, idle_flags, idle_previous, coherent, recomputed; rewrite ?F, ?E, ?V, ?C, ?P, ?PB, ?EC; done.
Qed.

Lemma balance_same st i f st' : change_balance_at st i f = Ok st' -> same_votes_caches st st'.
Proof. unfold change_balance_at. destruct (_ !! i); [|done]. intros H. unchain H. by injection H as <-. Qed.

Lemma exit_cache_same st st' : build_exit_cache spec st = Ok st' -> same_votes_caches st st'.
Proof. unfold build_exit_cache. destruct (ec_initialized _); [by intros [= <-]|]. intros H. unchain H. by injection H as <-. Qed.

Lemma set_slashings_same st e x st' : set_slashings ospec st e x = Ok st' -> same_votes_caches st st'.
Proof. unfold set_slashings. intros H. unchain H. destruct (Nat.ltb _ _); [|done]. by injection H as <-. Qed.

Lemma clear_payment_same st slot st' : clear_payment ospec st slot = Ok st' -> same_votes_caches st st'.
Proof.
  unfold clear_payment. destruct (gloas_fork _); [|by intros [= <-]]. intros H. unchain H.
  match type of H with match ?o with _ => _ end = _ => destruct o as [i|]; [|by injection H as <-] end.
  destruct (Nat.ltb _ _); [|done]. by injection H as <-.
Qed.

Lemma payment_weight_same st i w st' : add_payment_weight st i w = Ok st' -> same_votes_caches st st'.
Proof. unfold add_payment_weight. destruct (_ !! i); [|done]. intros H. unchain H. by injection H as <-. Qed.

Lemma around_same st st1 l st' : same_votes_caches st st1 -> same_around st1 l st' -> same_around st l st'.
Proof. unfold same_votes_caches, same_around. intros. destruct_and!. split_and!; congruence. Qed.

Lemma same_after st l st1 st' : same_around st l st1 -> same_votes_caches st1 st' -> same_around st l st'.
Proof. unfold same_votes_caches, same_around. intros. destruct_and!. split_and!; congruence. Qed.

(** ** Exits *)

Context (SP : spec_ok spec).

Lemma exit_churn_nonneg st c : exit_churn_of ospec st = Ok c -> 0 <= c.
Proof.
  assert (forall x, get_balance_churn_limit spec st = Ok x -> 0 <= x) as HB
    by (intros x H; unfold get_balance_churn_limit in H; unchain H; by apply safe_sub_ok in H as [_ ?]).
  unfold exit_churn_of. destruct (gloas_fork _) eqn:G; [apply HB|]. unfold get_activation_exit_churn_limit. rewrite G. intros H.
  unchain H. injection H as <-. apply HB in E. pose proof (sp_limit _ SP). fold spec. lia.
Qed.

Lemma state_exit_later st b e st' :
  state_exit_epoch ospec st b = Ok (e, st') -> st_current_epoch st + 1 <= e /\ same_votes_caches st st'.
Proof.
  unfold state_exit_epoch. intros H. unchain H. injection H as <- <-. apply delayed_epoch in E0 as [_ ?]; [|done].
  apply exit_churn_nonneg in E1. split; [|done]. destruct (_ <? b) in E2; [|injection E2 as <- <-; lia].
  unchain E2. injection E2 as <- <-. apply safe_sub_ok in E4 as [-> ?]. apply safe_div_ok in E5 as [-> ?].
  apply safe_add_ok in E6 as [-> _], E7 as [-> _].
  match goal with |- context [?x / a1] => assert (0 <= x / a1) by (apply Z.div_pos; lia) end. lia.
Qed.

Lemma exit_count_later st e : exit_epoch_by_count ospec st = Ok e -> st_current_epoch st + 1 <= e.
Proof.
  unfold exit_epoch_by_count. intros H. unchain H. apply delayed_epoch in E as [_ ?]; [|done].
  match type of H with (if _ then safe_add ?x 1 else _) = _ => assert (st_current_epoch st + 1 <= x) by (destruct a0; lia) end.
  destruct (_ <=? _); [apply safe_add_ok in H as [-> _]|injection H as <-]; lia.
Qed.

(** An exit leaves the validator active in the epochs so far. *)
Lemma initiate_exit_ok st i st' :
  Forall (validator_ok spec) (vals st) -> initiate_exit ospec st i = Ok st' ->
  exists v v', vals st !! i = Some v /\ kept (st_current_epoch st) v v' /\ validator_ok spec v'
    /\ exit_epoch v' <> far_future_epoch spec /\ same_around st (<[i := v']> (vals st)) st'.
Proof.
  intros HV. unfold initiate_exit. destruct (vals st !! i) as [v|] eqn:Ev; [|done].
  pose proof (Forall_lookup_1 _ _ _ _ HV Ev) as Hv. fold spec.
  destruct (Z.eqb_spec (exit_epoch v) (far_future_epoch spec)) as [Hf|Hf]; cbn [negb].
  2:{ intros [= <-]. exists v, v. split_and!; [done|apply kept_refl|done..|]. by rewrite list_insert_id. }
  intros H. unchain H. injection H as <-. apply exit_cache_same in E as S1.
  assert (st_current_epoch st + 1 <= z /\ same_votes_caches a e) as [He S2].
  { pose proof S1 as (_ & <- & _). destruct (electra_enabled _); [by apply state_exit_later in E0|].
    unchain E0. injection E0 as <- <-. split; [by apply exit_count_later|done]. }
  apply safe_add_ok in E1 as [-> Hw]. pose proof (sp_delay _ SP). exists v, (with_exit v z (z + min_validator_withdrawability_delay spec)).
  assert (z < far_future_epoch spec) by (rewrite (sp_far _ SP); lia).
  assert (vals e = vals st) as HVe by (destruct S1 as (_ & _ & ? & _), S2 as (_ & _ & ? & _); congruence).
  split_and!; [done|by apply kept_exit|split; cbn; [rewrite (sp_far _ SP) in *; lia|lia]|cbn; lia|].
  apply (around_same _ _ _ _ S1), (around_same _ _ _ _ S2). rewrite <-HVe. done.
Qed.

(** ** Slashings *)

Lemma kept_agrees st i v v' st' :
  state_agrees st -> vals st !! i = Some v -> kept (st_current_epoch st) v v' -> validator_ok spec v' ->
  same_around st (<[i := v']> (vals st)) st' -> state_agrees st'.
Proof.
  intros [A1 A2 A3 A4 A5 A6 A7 A8] Hv K VO (F & E & V & C & P & PB & EC). pose proof (lookup_lt_Some _ _ _ Hv) as Hl.
  assert (previous_epoch_of (st_current_epoch st) <= st_current_epoch st) as HP by (unfold previous_epoch_of; case_match; lia).
  assert (forall fs e flag, e <= st_current_epoch st -> length fs = length (vals st) ->
            attesting (<[i := v']> (vals st)) fs e flag = attesting (vals st) fs e flag) as HA.
  { intros fs e flag He Hf. destruct (fs !! i) as [bits|] eqn:Hb; [|apply lookup_ge_None in Hb; lia].
    rewrite (attesting_insert _ _ _ _ _ _ _ _ Hv Hb). unfold counted.
    rewrite (kept_slashed _ _ _ K), (kept_active _ _ _ K), (kept_balance _ _ _ K) by lia. lia. }
  destruct A3 as [L1 L2]. split; unfold same_participation, idle_flags, idle_previous, coherent, recomputed, totals; rewrite ?F, ?E, ?V, ?C, ?P, ?PB, ?EC.
  - done.
  - done.
  - by rewrite length_insert.
  - intros k w bits [(<- & <- & _)|(_ & Hw)]%list_lookup_insert_Some Hb; [|by eapply A4]. rewrite (kept_active _ _ _ K) by lia. by eapply A4.
  - intros k w bits [(<- & <- & _)|(_ & Hw)]%list_lookup_insert_Some Hb; [|by eapply A5]. rewrite (kept_active _ _ _ K) by lia. by eapply A5.
  - by apply Forall_insert.
  - intros pb Hpb. rewrite (A7 _ Hpb). unfold recomputed, totals. do 2 f_equal; apply sums_ext; intros flag; symmetry; apply HA; [done..|lia|done].
  - intros c Hc. rewrite (A8 _ Hc). rewrite list_fmap_insert, (kept_balance _ _ _ K), list_insert_id; [done|].
    by rewrite list_lookup_fmap, Hv.
Qed.

Lemma slashed_counted v w bits e flag : counted (with_slashed v w) bits e flag = 0.
Proof. done. Qed.

(** What a validator that is not slashed counts for. *)
Lemma idle_counted v bits e flag :
  slashed v = false -> (is_active_at v e = false -> bits = 0) ->
  counted v bits e flag = if flag_set bits flag then effective_balance v else 0.
Proof.
  intros Hs HI. unfold counted. rewrite Hs. destruct (is_active_at v e); [done|]. by rewrite (HI eq_refl), flag_set_zero.
Qed.

(** The totals without the slashed validator. *)
Lemma slashing_agrees st i v w p c pb st' :
  state_agrees st -> vals st !! i = Some v -> slashed v = false -> exit_epoch v <> far_future_epoch spec ->
  previous st !! i = Some p -> current st !! i = Some c ->
  progressive_on_slashing (progressive_balances_cache (st_caches st)) p c (effective_balance v) = Ok pb ->
  same_around (set_progressive st pb) (<[i := with_slashed v w]> (vals st)) st' -> state_agrees st'.
Proof.
  intros [A1 A2 [L1 L2] A4 A5 A6 A7 A8] Hv Hs Hx Hp Hc HS (F & E & V & C & P & PB & EC). cbn in F, E, V, C, P, PB, EC.
  assert (progressive_balances_cache (st_caches st') = recomputed spec st') as HC.
  { rewrite PB. unfold progressive_on_slashing in HS. destruct (progressive_balances_cache (st_caches st)) as [x|] eqn:Ex; [|done].
    assert (Some x = recomputed spec st) as Hr by (rewrite <-Ex; by eapply A7). injection Hr as ->. cbn in HS.
    unchain HS. injection HS as <-. apply slashing_shift in E0 as ->, E1 as ->. unfold recomputed, totals. rewrite E, V, C, P.
    do 2 f_equal; apply sums_ext; intros flag.
    - rewrite (attesting_insert _ _ _ _ _ _ _ _ Hv Hp), slashed_counted, idle_counted; [lia|done|by eapply A5].
    - rewrite (attesting_insert _ _ _ _ _ _ _ _ Hv Hc), slashed_counted, idle_counted; [lia|done|by eapply A4]. }
  split; unfold same_participation, idle_flags, idle_previous; rewrite ?F, ?E, ?V, ?C, ?P, ?EC.
  - done.
  - done.
  - by rewrite length_insert.
  - intros k x bits [(<- & <- & _)|(_ & Hw)]%list_lookup_insert_Some; [exact (A4 i v bits Hv)|exact (A4 k x bits Hw)].
  - intros k x bits [(<- & <- & _)|(_ & Hw)]%list_lookup_insert_Some; [exact (A5 i v bits Hv)|exact (A5 k x bits Hw)].
  - apply Forall_insert; [done|]. split; cbn; [by apply (Forall_lookup_1 _ _ _ _ A6 Hv)|done].
  - done.
  - intros x Hx'. rewrite (A8 _ Hx'). rewrite list_fmap_insert, list_insert_id; [done|]. by rewrite list_lookup_fmap, Hv.
Qed.

Lemma mark_slashed_ok st i b st' :
  state_agrees st -> slashed_at st i = false -> mark_slashed ospec st i = Ok (b, st') ->
  state_agrees st' /\ forall j, slashed_at st' j = if Nat.eqb i j then true else slashed_at st j.
Proof.
  intros A Hs H. unfold mark_slashed in H. destruct (initiate_exit _ _ _) as [st1|] eqn:E1; [|done].
  destruct (initiate_exit_ok _ _ _ (sa_valid _ A) E1) as (v & v1 & Hv & K & VO & Hx & S1).
  pose proof (kept_agrees _ _ _ _ _ A Hv K VO S1) as A1. pose proof (lookup_lt_Some _ _ _ Hv) as Hl.
  assert (slashed v = false) as Hs0 by (unfold slashed_at in Hs; by rewrite list_lookup_fmap, Hv in Hs).
  assert (vals st1 !! i = Some v1) as Hv1 by (destruct S1 as (_ & _ & -> & _); by apply list_lookup_insert_eq).
  rewrite Hv1 in H. unchain H. injection H as <- <-.
  match goal with H : set_slashings _ _ _ _ = Ok _ |- _ => rename H into ES end.
  match goal with H : decrease_balance _ _ _ = Ok _ |- _ => rename H into ED end.
  match goal with H : update_progressive_balances_on_slashing _ _ _ = Ok _ |- _ => rename H into EU end.
  match type of EU with _ ?s _ _ = Ok ?t => rename s into st4, t into st5 end.
  match type of ES with set_slashings _ ?s _ _ = _ => set (s2 := s) in * end.
  apply set_slashings_same in ES. apply balance_same in ED.
  unfold update_progressive_balances_on_slashing in EU. pose proof (same_after _ _ _ _ ES ED) as S2.
  assert (fork_ge (st_fork st4) Altair = true) as HF by (destruct S2 as (-> & _); by apply (sa_fork _ A1)).
  rewrite HF in EU. destruct S2 as (F2 & C2 & V2 & U2 & P2 & PB2 & EC2).
  destruct (previous st4 !! i) as [p|] eqn:Hp; [|done]. destruct (current st4 !! i) as [c|] eqn:Hc; [|done]. unchain EU. injection EU as <-. match goal with H : progressive_on_slashing _ _ _ _ = Ok ?t |- _ => rename H into E6, t into pb end.
  rewrite PB2 in E6. rewrite P2 in Hp. rewrite U2 in Hc. split.
  - eapply (slashing_agrees st1 i v1); [done|done|by rewrite (kept_slashed _ _ _ K)|done|exact Hp|exact Hc|exact E6|].
    split_and!; [exact F2|exact C2|exact V2|exact U2|exact P2|done|exact EC2].
  - intros j. unfold slashed_at. change (vals (set_progressive st4 pb)) with (vals st4). rewrite V2. change (vals s2) with (<[i := with_slashed v1 (Z.max (withdrawable_epoch v1) a)]> (vals st1)).
    destruct S1 as (_ & _ & -> & _). rewrite list_insert_insert_eq, !list_lookup_fmap. destruct (Nat.eqb_spec i j) as [<-|Hne].
    + by rewrite list_lookup_insert_eq.
    + by rewrite list_lookup_insert_ne.
Qed.

Lemma slashed_same st st' i : same_votes_caches st st' -> slashed_at st' i = slashed_at st i.
Proof. intros (_ & _ & V & _). unfold slashed_at. by rewrite V. Qed.

Lemma reward_same st b w p st' : reward_slashing ospec st b w p = Ok st' -> same_votes_caches st st'.
Proof.
  unfold reward_slashing. intros H. unchain H. destruct (_ !! default p w); [|done]. unchain H.
  apply balance_same in H. match goal with E : increase_balance _ _ _ = Ok _ |- _ => apply balance_same in E; by eapply same_after end.
Qed.

(** The caches agree, the slashings cache included, which is of the latest block. *)
Definition caches_ready (s : BlockState) : Prop :=
  state_agrees (bk_state s) /\ slashings_initialized (bk_slashings_cache s) (bk_latest_block_slot s) = true
  /\ forall i, is_slashed_index (bk_slashings_cache s) i = slashed_at (bk_state s) i.

Lemma ready_agree s : caches_ready s -> caches_agree s.
Proof. intros (A & _ & H). split; [done|]. intros _. exact H. Qed.

Lemma ready_same s st : caches_ready s -> same_votes_caches (bk_state s) st -> caches_ready (with_state s st).
Proof.
  intros (A & I & H) S. split_and!; [exact (same_agrees _ _ S A)|done|]. intros i. cbn. rewrite (slashed_same _ _ _ S). apply H.
Qed.

Lemma slash_validator_ready s i w p s' :
  caches_ready s -> slashed_at (bk_state s) i = false -> slash_validator ospec s i w p = Ok s' ->
  caches_ready s' /\ forall j, j <> i -> slashed_at (bk_state s') j = slashed_at (bk_state s) j.
Proof.
  intros (A & I & HS) Hs H. unfold slash_validator, record_validator_slashing in H. rewrite I in H.
  destruct (mark_slashed _ _ _) as [[b st1]|] eqn:E1; [|done]. apply mark_slashed_ok in E1 as [A1 H1]; [|done..].
  destruct (reward_slashing _ _ _ _ _) as [st2|] eqn:E2; [|done]. injection H as <-. apply reward_same in E2. split; [split_and!|].
  - exact (same_agrees _ _ E2 A1).
  - done.
  - intros j. cbn. rewrite (slashed_same _ _ _ E2), H1. rewrite <-HS. unfold is_slashed_index. cbn. destruct (Nat.eqb_spec i j) as [<-|Hne].
    + apply bool_decide_eq_true_2. set_solver.
    + apply bool_decide_ext. set_solver.
  - intros j Hj. cbn. rewrite (slashed_same _ _ _ E2), H1. destruct (Nat.eqb_spec i j) as [<-|]; done.
Qed.

Lemma each_keeps {A} (I : BlockState -> Prop) (f : BlockState -> A -> Result BlockState EpochError) l s s' :
  (forall s x s', I s -> f s x = Ok s' -> I s') -> I s -> each f l s = Ok s' -> I s'.
Proof.
  intros HI. revert s. induction l as [|x l IH]; intros s Hs; [by intros [= <-]|]. cbn [each].
  destruct (f s x) as [s1|] eqn:E; [|done]. apply IH. by eapply HI.
Qed.

Lemma slash_each_ready p l s s' :
  NoDup l -> (forall i, i ∈ l -> slashed_at (bk_state s) i = false) -> caches_ready s ->
  each (fun s i => slash_validator ospec s i None p) l s = Ok s' -> caches_ready s'.
Proof.
  intros HN. revert s. induction HN as [|i l Hi _ IH]; intros s Hl Hs; [by intros [= <-]|]. cbn [each].
  destruct (slash_validator _ _ _ _ _) as [s1|] eqn:E; [|done]. apply slash_validator_ready in E as [H1 H2]; [|done|apply Hl; left].
  apply IH; [|done]. intros j Hj. rewrite H2; [by apply Hl; right|]. by intros ->.
Qed.

Lemma slashable_unslashed st i v : vals st !! i = Some v -> is_slashable_at v (st_current_epoch st) = true -> slashed_at st i = false.
Proof.
  unfold is_slashable_at, slashed_at. rewrite list_lookup_fmap. intros -> H. cbn. by destruct (slashed v).
Qed.

Lemma proposer_slashing_ready sig b p s x s' :
  caches_ready s -> process_proposer_slashing ospec sig b p s x = Ok s' -> caches_ready s'.
Proof.
  intros R H. unfold process_proposer_slashing in H. unchain H. apply clear_payment_same in E0.
  apply slash_validator_ready in H; [by destruct H|by apply ready_same|]. cbn. rewrite (slashed_same _ _ _ E0).
  unfold verify_proposer_slashing in E. unchain E. destruct (_ !! bh_proposer_index _) as [v|] eqn:Ev; [|done]. unchain E.
  match goal with H : verify (is_slashable_at _ _) _ = Ok _ |- _ => unfold verify in H; destruct (is_slashable_at _ _) eqn:Es; [|done] end.
  by eapply slashable_unslashed.
Qed.

Lemma nat_set_insert_sorted s x : StronglySorted Nat.lt s -> StronglySorted Nat.lt (nat_set_insert s x).
Proof.
  induction 1 as [|y s Hs IH Hy]; cbn [nat_set_insert]; [by repeat constructor|].
  destruct (Nat.compare_spec x y) as [->|H|H].
  - by constructor.
  - constructor; [by constructor|]. constructor; [done|]. eapply Forall_impl; [exact Hy|]. cbn. lia.
  - constructor; [done|]. apply Forall_forall. intros z [->|Hz]%nat_set_insert_in; [done|]. by eapply Forall_forall in Hy.
Qed.

Lemma index_set_nodup l : NoDup (index_set l).
Proof.
  unfold index_set. assert (forall s, StronglySorted Nat.lt s -> StronglySorted Nat.lt (fold_left nat_set_insert l s)) as H
    by (induction l as [|x l IH]; intros s Hs; [done|]; by apply IH, nat_set_insert_sorted).
  specialize (H [] (SSorted_nil _)). induction H as [|x s _ IH Hx]; constructor; [|done].
  intros Hin. eapply Forall_forall in Hx; [|done]. lia.
Qed.

Lemma slashable_among_ok st l r :
  NoDup l -> slashable_among st l = Ok r -> NoDup r /\ forall i, i ∈ r -> i ∈ l /\ slashed_at st i = false.
Proof.
  intros HN. revert r. induction HN as [|i l Hi _ IH]; intros r; cbn [slashable_among].
  { intros [= <-]. split; [constructor|]. intros i Hi%not_elem_of_nil. done. }
  destruct (vals st !! i) as [v|] eqn:Ev; [|done]. intros H. unchain H. injection H as <-. destruct (IH _ E) as [N1 H1].
  destruct (is_slashable_at _ _) eqn:Es.
  - split; [constructor; [|done]; by intros [? _]%H1|]. intros j [->|Hj]%elem_of_cons; [split; [left|by eapply slashable_unslashed]|].
    destruct (H1 j Hj). split; [by right|done].
  - split; [done|]. intros j Hj. destruct (H1 j Hj). split; [by right|done].
Qed.

Lemma attester_slashing_ready sig b p s x s' :
  caches_ready s -> process_attester_slashing ospec sig b p s x = Ok s' -> caches_ready s'.
Proof.
  intros R H. unfold process_attester_slashing in H. unchain H. unfold verify_attester_slashing, get_slashable_indices in E.
  unchain E. injection E as <-. match goal with H : slashable_among _ _ = Ok _ |- _ => apply slashable_among_ok in H as [N1 H1] end.
  - eapply slash_each_ready, H; [done| |done]. intros i Hi. by apply H1.
  - apply NoDup_ListNoDup, List.NoDup_filter, NoDup_ListNoDup, index_set_nodup.
Qed.

Lemma slashings_cache_new slot st i : is_slashed_index (SlashingsCache_new slot (vals st)) i = slashed_at st i.
Proof.
  unfold is_slashed_index, slashed_at. cbn. rewrite list_lookup_fmap. unfold slashed_indices.
  destruct (vals st !! i) as [v|] eqn:Ev; cbn.
  - apply Bool.eq_iff_eq_true. rewrite bool_decide_eq_true, elem_of_list_to_set, list_elem_of_In, filter_In, in_seq, Ev. cbn.
    pose proof (lookup_lt_Some _ _ _ Ev). split; [by intros []|]. intros ->. split; [lia|done].
  - apply bool_decide_eq_false_2. rewrite elem_of_list_to_set, list_elem_of_In, filter_In, Ev. cbn. by intros [].
Qed.

Lemma slashings_cache_built s : caches_agree s -> caches_ready (build_slashings_cache s).
Proof.
  intros [A H]. unfold build_slashings_cache. destruct (slashings_initialized _ _) eqn:E; [split_and!; [done|done|by apply H]|].
  split_and!; [done|by apply bool_decide_eq_true_2|]. apply slashings_cache_new.
Qed.

(** ** Attestations *)

Lemma counted_added v bits e flag k :
  is_active_at v e = true -> flag_set bits flag = false ->
  counted v (Z.lor bits (Z.shiftl 1 (Z.of_nat flag))) e k
  = counted v bits e k + if negb (slashed v) && Nat.eqb k flag then effective_balance v else 0.
Proof.
  intros Ha Hf. unfold counted. rewrite Ha, flag_set_added. destruct (slashed v); cbn; [lia|].
  destruct (Nat.eqb_spec k flag) as [->|]; [rewrite Hf; cbn; lia|]. rewrite orb_false_r. lia.
Qed.

(** A flag of an active validator. *)
Lemma flag_agrees st e part i v bits flag pb :
  state_agrees st -> vals st !! i = Some v -> is_active_at v e = true ->
  get_epoch_participation st e = Ok part -> part !! i = Some bits -> flag_set bits flag = false ->
  progressive_on_new_attestation (progressive_balances_cache (st_caches st)) e (slashed v) flag (effective_balance v) = Ok pb ->
  state_agrees (set_progressive (set_epoch_participation st e (<[i := Z.lor bits (Z.shiftl 1 (Z.of_nat flag))]> part)) pb).
Proof.
  intros [A1 A2 [L1 L2] A4 A5 A6 A7 A8] Hv Ha Hp Hb Hf HN.
  unfold progressive_on_new_attestation in HN. destruct (progressive_balances_cache (st_caches st)) as [x|] eqn:Ex; [|done].
  assert (Some x = recomputed spec st) as Hr by (rewrite <-Ex; by eapply A7). injection Hr as ->. cbn in HN.
  unfold get_epoch_participation in Hp. unfold set_epoch_participation. destruct (Z.eqb_spec e (st_current_epoch st)) as [->|He].
  - injection Hp as <-. unchain HN. injection HN as <-. apply new_attestation_shift in E as ->.
    split; [done|done|by split; cbn; rewrite ?length_insert|..|done| |done].
    + intros k w b Hw Hk Hi. cbn in Hw, Hk. apply list_lookup_insert_Some in Hk as [(<- & _ & _)|(_ & Hk)]; [|by eapply A4].
      cbn in Hi. congruence.
    + exact A5.
    + intros pb' _. unfold coherent, recomputed, totals. cbn -[sums_of]. do 2 f_equal. apply sums_ext. intros k.
      rewrite (attesting_flags _ _ _ _ _ _ _ _ Hv Hb), counted_added by done. lia.
  - destruct (Z.eqb_spec e (previous_epoch_of (st_current_epoch st))) as [->|]; [|done]. injection Hp as <-. unchain HN.
    destruct (_ =? _); [|done]. unchain HN. injection HN as <-.
    match goal with H : on_new_attestation _ _ _ _ = Ok _ |- _ => apply new_attestation_shift in H as -> end.
    split; [done|done|by split; cbn; rewrite ?length_insert|..|done| |done].
    + exact A4.
    + intros k w b Hw Hk Hi. cbn in Hw, Hk. apply list_lookup_insert_Some in Hk as [(<- & _ & _)|(_ & Hk)]; [|by eapply A5].
      cbn in Hi. congruence.
    + intros pb' _. unfold coherent, recomputed, totals. cbn -[sums_of]. do 2 f_equal. apply sums_ext. intros k.
      rewrite (attesting_flags _ _ _ _ _ _ _ _ Hv Hb), counted_added by done. lia.
Qed.

(** What attestations leave alone. *)
Definition same_validators (st st' : EpochState) : Prop :=
  vals st' = vals st /\ st_current_epoch st' = st_current_epoch st /\ st_fork st' = st_fork st.

Lemma apply_flags_agrees ws flags e i v n b st n' b' st' :
  state_agrees st -> vals st !! i = Some v -> is_active_at v e = true ->
  apply_flags ws flags e i (effective_balance v) (slashed v) n b st = Ok (n', b', st') ->
  state_agrees st' /\ same_validators st st'.
Proof.
  revert n b st. induction ws as [|[flag w] ws IH]; intros n b st A Hv Ha; [by intros [= _ _ <-]|]. cbn [apply_flags].
  destruct (get_epoch_participation st e) as [part|] eqn:Ep; [|done]. destruct (existsb _ _); [|by apply IH].
  destruct (part !! i) as [bits|] eqn:Eb; [|done]. unfold has_flag, add_flag. destruct (Nat.leb NUM_FLAG_INDICES flag); [done|].
  fold (flag_set bits flag). destruct (flag_set bits flag) eqn:Ef; [by apply IH|]. cbn zeta. intros H. unchain H.
  match goal with H : update_progressive_balances_on_attestation ?s _ _ _ _ = Ok _ |- _ => rename H into EU; set (s1 := s) in * end.
  unfold update_progressive_balances_on_attestation in EU.
  assert (same_validators st s1 /\ progressive_balances_cache (st_caches s1) = progressive_balances_cache (st_caches st)) as [(V1 & C1 & F1) P1]
    by (subst s1; unfold set_epoch_participation; by destruct (_ =? _)).
  rewrite F1, (sa_fork _ A), P1 in EU. unchain EU. injection EU as <-.
  match goal with H : progressive_on_new_attestation _ _ _ _ _ = Ok _ |- _ => rename H into EN end.
  pose proof (flag_agrees _ _ _ _ _ _ _ _ A Hv Ha Ep Eb Ef EN) as A1.
  apply IH in H as [A2 (V2 & C2 & F2)]; [|exact A1|cbn; by rewrite V1|done]. split; [done|]. cbn in V2, C2, F2. split_and!; congruence.
Qed.

Lemma cached_balance st i b :
  state_agrees st -> get_effective_balance (epoch_cache (st_caches st)) i = Ok b -> effective_balance <$> vals st !! i = Some b.
Proof.
  intros A. unfold get_effective_balance. destruct (epoch_cache (st_caches st)) as [c|] eqn:E; [|done]. cbn. rewrite (sa_balances _ A _ E).
  rewrite list_lookup_fmap. destruct (vals st !! i); cbn; [by intros [= <-]|done].
Qed.

Lemma apply_attesters_agrees s data payment flags l n st n' st' :
  (forall i, is_slashed_index (bk_slashings_cache s) i = slashed_at st i) ->
  (forall i, i ∈ l -> exists v, vals st !! i = Some v /\ is_active_at v (cp_epoch (ad_target data)) = true) ->
  state_agrees st -> apply_attesters s data payment flags l n st = Ok (n', st') -> state_agrees st' /\ same_validators st st'.
Proof.
  intros HS. revert n st HS. induction l as [|i l IH]; intros n st HS HL A; [by intros [= _ <-]|]. cbn [apply_attesters].
  destruct (get_effective_balance _ i) as [b|] eqn:Eb; [|done]. destruct (HL i ltac:(left)) as (v & Hv & Ha).
  apply (cached_balance _ _ _ A) in Eb. rewrite Hv in Eb. injection Eb as <-.
  assert (is_slashed_index (bk_slashings_cache s) i = slashed v) as -> by (rewrite HS; unfold slashed_at; by rewrite list_lookup_fmap, Hv).
  destruct (apply_flags _ _ _ _ _ _ _ _ _) as [[[n1 b1] st1]|] eqn:E1; [|done]. apply apply_flags_agrees in E1 as [A1 (V1 & C1 & F1)]; [|done..].
  match goal with |- match ?r with _ => _ end = _ -> _ => destruct r as [st2|] eqn:E2; [|done] end.
  assert (same_votes_caches st1 st2) as S2.
  { destruct payment as [[k m]|]; [|by injection E2 as <-]. unchain E2.
    destruct (_ && _); [by apply payment_weight_same in E2|by injection E2 as <-]. }
  intros H. pose proof S2 as (F2 & C2 & V2 & _). apply IH in H as [A3 (V3 & C3 & F3)].
  - split; [done|]. split_and!; congruence.
  - intros j. rewrite HS. unfold slashed_at. by rewrite V2, V1.
  - intros j Hj. rewrite V2, V1. apply HL. by right.
  - exact (same_agrees _ _ S2 A1).
Qed.

(** The members of the committees of a slot are active in its epoch. *)
Definition committees_active (committees : Committees) : Prop :=
  forall s slot l c i, committees s slot = Ok l -> c ∈ l -> i ∈ c ->
    exists v, vals (bk_state s) !! i = Some v /\ is_active_at v (slot / es_slots_per_epoch spec) = true.

Lemma bits_of_in committee bits offset i : i ∈ bits_of committee bits offset -> i ∈ committee.
Proof.
  revert offset. induction committee as [|v committee IH]; intros offset; cbn [bits_of]; [done|].
  destruct (default _ _); [intros [->|Hi]%elem_of_cons; [left|]|intros Hi]; right; by eapply IH.
Qed.

Lemma committee_attesters_in committees bits indices offset l n i :
  committee_attesters committees bits indices offset = Ok (l, n) -> i ∈ l -> exists c, c ∈ committees /\ i ∈ c.
Proof.
  revert offset l n. induction indices as [|k indices IH]; intros offset l n; cbn [committee_attesters].
  { by intros [= <- _] ?%not_elem_of_nil. }
  destruct (committees !! k) as [c|] eqn:Ec; [|done]. destruct (Nat.eqb _ _); [done|]. intros H. unchain H. injection H as <- <-.
  intros [Hi|Hi]%elem_of_app; [|by eapply IH]. apply elem_of_remove_dups, bits_of_in in Hi. exists c. split; [|done].
  by eapply list_elem_of_lookup_2.
Qed.

Lemma indexed_in committees s a x i :
  get_indexed_attestation committees s a = Ok x -> i ∈ attesting_indices x ->
  exists l c, committees s (ad_slot (at_data a)) = Ok l /\ c ∈ l /\ i ∈ c.
Proof.
  unfold get_indexed_attestation. destruct (committees s _) as [l|]; [|done]. intros H. unchain H. injection H as <-. cbn. intros Hi.
  enough (exists c, c ∈ l /\ i ∈ c) as (c & ? & ?) by (by exists l, c). destruct (at_committees a) as [|cb].
  - destruct (l !! _) as [c|] eqn:Ec; [|done]. unfold attesting_indices_base in E. destruct (negb _); [done|]. injection E as <-.
    rewrite merge_sort_Permutation in Hi. apply bits_of_in in Hi. exists c. split; [by eapply list_elem_of_lookup_2|done].
  - unfold attesting_indices_electra in E. unchain E. destruct (negb _); [done|]. injection E as <-.
    rewrite merge_sort_Permutation in Hi. by eapply committee_attesters_in.
Qed.

Lemma verified_active committees sig b s a x i :
  committees_active committees -> verify_attestation_for_block_inclusion ospec committees sig b s a = Ok x ->
  i ∈ attesting_indices x ->
  exists v, vals (bk_state s) !! i = Some v /\ is_active_at v (cp_epoch (ad_target (at_data a))) = true.
Proof.
  intros HC H Hi. unfold verify_attestation_for_block_inclusion in H. unchain H. unfold verify_attestation_for_state in H.
  unchain H. injection H as <-.
  match goal with H : get_indexed_attestation _ _ _ = Ok _ |- _ => apply (indexed_in _ _ _ _ _ H) in Hi as (l & c & Hl & Hc & Hi) end.
  match goal with H : verify_casper_ffg_vote _ _ _ = Ok _ |- _ => unfold verify_casper_ffg_vote in H; unchain H end.
  match goal with H : verify (_ =? _ / _) _ = Ok _ |- _ => unfold verify in H; destruct (Z.eqb_spec (cp_epoch (ad_target (at_data a)))
    (ad_slot (at_data a) / es_slots_per_epoch (op_spec ospec))) as [->|]; [|done] end.
  by eapply HC.
Qed.

Lemma attestation_ready committees sig b p s a s' :
  committees_active committees -> caches_ready s -> process_attestation ospec committees sig b p s a = Ok s' -> caches_ready s'.
Proof.
  intros HC (A & I & HS) H. unfold process_attestation in H.
  destruct (verify_attestation_for_block_inclusion _ _ _ _ _ _) as [x|] eqn:EV; [|done]. unchain H. injection H as <-.
  match goal with H : apply_attesters _ _ _ _ _ _ _ = Ok _ |- _ => apply apply_attesters_agrees in H as [A1 (V1 & _)];
    [|done|intros i Hi; by eapply verified_active|done] end.
  match goal with H : increase_balance _ _ _ = Ok _ |- _ => apply balance_same in H; pose proof H as (_ & _ & V2 & _) end.
  split_and!; [cbn; by eapply same_agrees|done|]. intros i. cbn. rewrite HS. unfold slashed_at. by rewrite V2, V1.
Qed.

(** ** Blocks *)

Lemma votes_ready committees sig b p x s s' :
  committees_active committees -> caches_agree s -> process_votes ospec committees sig b p x s = Ok s' -> caches_ready s'.
Proof.
  intros HC R H. unfold process_votes in H. unchain H. unfold process_proposer_slashings in E. unfold process_attester_slashings in E0.
  apply each_keeps with (I := caches_ready) in E; [|by intros ? ? ? ? ?%proposer_slashing_ready|by apply slashings_cache_built].
  apply each_keeps with (I := caches_ready) in E0; [|by intros ? ? ? ? ?%attester_slashing_ready|by apply slashings_cache_built, ready_agree].
  apply each_keeps with (I := caches_ready) in H; [done| |done]. intros ? ? ? ? Ha. by eapply attestation_ready.
Qed.

Lemma header_ready root vr p s h s' : caches_ready s -> process_block_header root vr p s h = Ok s' -> caches_ready s'.
Proof.
  intros (A & I & HS) H. unfold process_block_header in H. unchain H. destruct (_ !! bh_proposer_index h); [|done]. unchain H.
  injection H as <-. split_and!; [exact A|by apply bool_decide_eq_true_2|exact HS].
Qed.

Lemma total_cache_same st st' : build_total_active_balance_cache spec st = Ok st' -> same_votes_caches st st'.
Proof.
  unfold build_total_active_balance_cache. destruct (get_total_active_balance st); [by intros [= <-]|]. intros H. unchain H. by injection H as <-.
Qed.

Lemma epoch_cache_agrees env st st' :
  state_agrees st -> initialize_epoch_cache spec env st = Ok st' -> state_agrees st' /\ vals st' = vals st.
Proof.
  intros A H. unfold initialize_epoch_cache in H. destruct (is_ok _); [by injection H as <-|]. unchain H. injection H as <-.
  match goal with H : build_total_active_balance_cache _ _ = Ok _ |- _ => apply total_cache_same in H; pose proof (same_agrees _ _ H A) as A1;
    pose proof H as (_ & _ & V & _) end.
  match goal with H : into_epoch_cache _ _ _ = Ok _ |- _ => unfold into_epoch_cache in H; unchain H; injection H as <- end.
  split; [|done]. destruct A1 as [B1 B2 B3 B4 B5 B6 B7 B8]. split; [done|done|done|done|done|done|exact B7|]. intros c [= <-]. cbn. done.
Qed.

Lemma progressive_agrees st st' :
  state_agrees st -> initialize_progressive_balances_cache spec st = Ok st' -> state_agrees st' /\ vals st' = vals st.
Proof.
  intros A H. pose proof A as [A1 A2 [L1 L2] A4 A5 A6 A7 A8]. unfold initialize_progressive_balances_cache in H. rewrite A1 in H. cbn [negb] in H.
  destruct (progressive_balances_cache (st_caches st)) eqn:EP; [by injection H as <-|]. unchain H. injection H as <-. split; [|done].
  apply (progressive_totals_ok spec _ _ _ _ _ (fun _ => 0) (fun _ => 0)) in E as [-> ->]; [|done..].
  split; try done.
Qed.

Lemma block_agrees env root committees sig vr b p x s s' :
  committees_active committees -> caches_agree s -> process_block ospec env root committees sig vr b p x s = Ok s' -> caches_agree s'.
Proof.
  intros HC [A HS] H. unfold process_block, build_block_caches in H. destruct (initialize_epoch_cache _ _ _) as [st1|] eqn:E1; [|done].
  destruct (initialize_progressive_balances_cache _ _) as [st2|] eqn:E2; [|done]. cbn beta iota in H. unchain H. rename E into E0.
  apply epoch_cache_agrees in E1 as [A1 V1]; [|done]. apply progressive_agrees in E2 as [A2 V2]; [|done].
  apply header_ready in E0; [by eapply ready_agree, votes_ready; [|apply ready_agree|]|].
  apply slashings_cache_built. split; [exact A2|]. intros I i. cbn. rewrite (HS I). unfold slashed_at. by rewrite V2, V1.
Qed.

(** ** Epochs *)

Context (ectx : EffectiveBalancesContext) (EX : EffectiveBalancesContext_new spec = Ok ectx) (HY : hysteresis_ok spec ectx).

Lemma epoch_balances env root fs st fs' st1 st2 :
  epoch_ready spec env st -> coherent spec st -> idle_flags st ->
  process_epoch spec env root fs st = Ok (fs', st1) -> enter_epoch st1 = Ok st2 ->
  exists c, epoch_cache (st_caches st2) = Some c /\ ch_effective_balances c = map effective_balance (vals st2).
Proof.
  intros ER HC HI H HN. pose proof (rd_fork _ _ (er_ready _ _ _ ER)) as HF.
  unfold process_epoch in H. rewrite HF in H. cbn [variant] in H.
  destruct (build_total_active_balance_cache spec st) as [sa|] eqn:EA; [|done].
  destruct (initialize_epoch_cache _ _ sa) as [sb|] eqn:EB; [|done]. destruct (initialize_progressive_balances_cache _ sb) as [sc|] eqn:EC; [|done].
  destruct (process_justification root fs sc) as [jf|]; [|done].
  destruct (prepare_ready spec env st sa (finalized_checkpoint (apply_changes_to_state jf fs)) ER HC HI EA) as (ER1 & _ & _ & IE & IP & _).
  rewrite IE in EB. injection EB as <-. rewrite IP in EC. injection EC as <-.
  destruct (process_epoch_single_pass _ _ _ _) as [sd|] eqn:ED; [|done].
  apply (balances_cached _ _ _ _ _ (er_ready _ _ _ ER1) EX HY) in ED as (_ & HB & _).
  destruct (process_slashings_reset spec sd) as [se|] eqn:EE; [|done].
  assert (vals se = vals sd /\ st_caches se = st_caches sd) as [V K].
  { unfold process_slashings_reset in EE. unchain EE. destruct (_ <? _); [|done]. unchain EE. destruct (Nat.ltb _ _); [|done]. by injection EE as <-. }
  unchain H. injection H as _ <-. unfold enter_epoch in HN. unchain HN. injection HN as <-.
  unfold update_progressive_balances_on_epoch_transition in E.
  destruct (fork_ge _ _); [unchain E|]; injection E as <-; cbn; by rewrite V, K.
Qed.

Lemma epoch_agrees env root fs st fs' st1 st2 :
  state_agrees st -> epoch_ready spec env st -> process_epoch spec env root fs st = Ok (fs', st1) -> enter_epoch st1 = Ok st2 ->
  state_agrees st2 /\ forall i, slashed_at st2 i = slashed_at st i.
Proof.
  intros [A1 A2 A3 A4 A5 A6 A7 A8] ER H HN. destruct (rd_progressive _ _ (er_ready _ _ _ ER)) as [pb Hpb]. apply A7 in Hpb as HC.
  destruct (epoch_coherent spec env SP _ _ _ _ _ _ ER HC A4 H HN) as (C1 & C2 & C3 & C4 & C5 & C6 & C7 & C8).
  destruct (epoch_balances _ _ _ _ _ _ _ ER HC A4 H HN) as (c & E1 & E2).
  split; [|done]. split; [congruence|lia|done..|by intros c' [= <-]%(eq_trans (eq_sym E1))].
Qed.

(** * Chains of blocks, slots and epochs *)

Inductive chain_step : BlockState -> BlockState -> Prop :=
  | step_block env root committees sig verify_root verify_signatures proposer b s s' :
      committees_active committees ->
      process_block ospec env root committees sig verify_root verify_signatures proposer b s = Ok s' -> chain_step s s'
  | step_slot s block_root availability :
      chain_step s (mkBlockState (bk_state s) (bk_finality s) (bk_slashings_cache s) (bk_slot s + 1) (bk_latest_block_header s)
                      block_root availability)
  | step_epoch env root s fs st1 st2 block_root availability :
      epoch_ready spec env (bk_state s) ->
      process_epoch spec env root (bk_finality s) (bk_state s) = Ok (fs, st1) -> enter_epoch st1 = Ok st2 ->
      chain_step s (mkBlockState st2 fs (bk_slashings_cache s) (bk_slot s + 1) (bk_latest_block_header s) block_root availability).

Lemma step_agrees s s' : chain_step s s' -> caches_agree s -> caches_agree s'.
Proof.
  intros [env root committees sig vr b p x s1 s2 HC H|s1 br av|env root s1 fs st1 st2 br av ER H HN] A.
  - by eapply block_agrees.
  - exact A.
  - destruct A as [A HS]. destruct (epoch_agrees _ _ _ _ _ _ _ A ER H HN) as [A2 H2]. split; [exact A2|]. intros I i. cbn. rewrite H2. by apply HS.
Qed.

(** C24: along any chain of slots, ends of epochs and blocks, with their slashings and
    attestations of any fork since Altair, the caches that are built agree with the
    state: the progressive balances are those computed from scratch, the effective
    balances of the epoch cache and the slashings cache of the latest block are the
    validators'. *)
Theorem caches_agree_always s s' : caches_agree s -> rtc chain_step s s' -> caches_agree s'.
Proof. induction 2; eauto using step_agrees. Qed.
End caches.
