(* ===== verification/Wallet.v ===== *)
(** * Wallets and the relay-key registry

    src/src/wallet/mod.rs and [Hasher] of src/src/tools/mod.rs.  The
    cryptographic crates (sha3, secp256k1, blst, hex) are third-party code: the
    class [Crypto] lists the functions the source calls and [CryptoLaws] what
    their documentation promises.  [ToyCrypto] is a concrete instance of both,
    used by the examples. *)

From S2P Require Export Prelude.
Local Open Scope rust_scope.

Class Crypto := {
  SecretKey : Type;
  PublicKey : Type;
  BlsSecretKey : Type;
  BlsPublicKey : Type;
  BlsSignature : Type;
  PublicKey_eq_dec :: EqDecision PublicKey;
  (** sha3 and hex *)
  sha3_256 : bytes -> bytes;
  hex_encode : bytes -> string;
  hex_decode : string -> option bytes;
  (** secp256k1 *)
  sk_from_slice : bytes -> option SecretKey;
  sk_from_str : string -> option SecretKey;
  sk_secret_bytes : SecretKey -> bytes;
  sk_public_key : SecretKey -> PublicKey;
  serialize_uncompressed : PublicKey -> bytes;
  sign_ecdsa_recoverable : bytes -> SecretKey -> Z * bytes;
  sig_from_compact : bytes -> bool;
  recover_ecdsa : bytes -> bytes -> Z -> option PublicKey;
  (** blst, minimal-signature-size variant *)
  bls_key_gen : bytes -> option BlsSecretKey;
  bls_sk_to_pk : BlsSecretKey -> BlsPublicKey;
  bls_sign : BlsSecretKey -> bytes -> BlsSignature;
  bls_to_bytes : BlsSignature -> bytes;
  bls_from_bytes : bytes -> option BlsSignature;
  bls_verify : BlsSignature -> bytes -> BlsPublicKey -> bool;
  bls_aggregate : BlsSignature -> list BlsSignature -> option BlsSignature;
  bls_aggregate_verify : BlsSignature -> list bytes -> list BlsPublicKey -> bool
}.

(** Documented behaviour of those functions: encodings round-trip, digests and
    signatures have their sizes, honest signatures are recovered or verified,
    and signatures that each verify aggregate to one that verifies against their
    messages and keys.  [bls_aggregate] fails on a point outside the group
    ([add_signature] with its group check), and may do so on any signature that
    was only parsed; [bls_verify] makes the same group check
    ([signature.verify(true, ..)]), so verified signatures aggregate.  Nothing is
    said about forged signatures. *)
Class CryptoLaws `{Crypto} : Prop := {
  sha3_256_length b : length (sha3_256 b) = 32;
  hex_round_trip b : hex_decode (hex_encode b) = Some b;
  hex_length b : String.length (hex_encode b) = 2 * length b;
  ecdsa_recid d sk : (0 <= (sign_ecdsa_recoverable d sk).1 <= 3)%Z;
  ecdsa_length d sk : length (sign_ecdsa_recoverable d sk).2 = 64;
  ecdsa_compact d sk : sig_from_compact (sign_ecdsa_recoverable d sk).2 = true;
  ecdsa_recover d sk :
    recover_ecdsa d (sign_ecdsa_recoverable d sk).2 (sign_ecdsa_recoverable d sk).1
    = Some (sk_public_key sk);
  bls_bytes_round_trip s : bls_from_bytes (bls_to_bytes s) = Some s;
  bls_sign_verify sk m : bls_verify (bls_sign sk m) m (bls_sk_to_pk sk) = true;
  bls_aggregate_valid (smp : BlsSignature * bytes * BlsPublicKey) rest :
    Forall (fun '(s, m, pk) => bls_verify s m pk = true) (smp :: rest) ->
    is_Some (bls_aggregate smp.1.1 (map (fun x => x.1.1) rest));
  bls_aggregate_correct (smp : BlsSignature * bytes * BlsPublicKey) rest agg :
    Forall (fun '(s, m, pk) => bls_verify s m pk = true) (smp :: rest) ->
    bls_aggregate smp.1.1 (map (fun x => x.1.1) rest) = Some agg ->
    bls_aggregate_verify agg (map (fun x => x.1.2) (smp :: rest)) (map snd (smp :: rest)) = true
}.

Inductive WalletError := InvalidPrivateKeyString | InvalidSignature.

Section wallet.
Context `{Crypto}.

(** [Hasher::hash] *)
Definition Hasher_hash (data : bytes) : bytes := sha3_256 data.

(** The process-wide trusted registry [BLS_PUB_KEY_MAP]. *)
Abbreviation Registry := (gmap string BlsPublicKey).

Definition get_bls_pub_key (reg : Registry) (address : string) : option BlsPublicKey :=
  reg !! address.

Definition register_trusted_bls_pub_key (reg : Registry) (address : string) (pk : BlsPublicKey)
    : Registry :=
  <[address := pk]> reg.

Record Wallet := {
  secret_key : SecretKey;
  public_key : PublicKey;
  bls_private_key : BlsSecretKey;
  bls_public_key : BlsPublicKey;
  address : string
}.

Definition public_key_to_address (pk : PublicKey) : string :=
  let public_key_bytes := drop 1 (serialize_uncompressed pk) in
  let hash_result := Hasher_hash public_key_bytes in
  "0x" +:+ hex_encode (drop 12 hash_result).

(** The wallet of a secret key, with its BLS key derived from the secret bytes
    (the tail shared by the constructors; [key_gen] fails on a short input). *)
Definition wallet_of_secret_key (sk : SecretKey) : Outcome Wallet :=
  let pk := sk_public_key sk in
  let addr := public_key_to_address pk in
  let! bls_sk := expect (bls_key_gen (sk_secret_bytes sk)) in
  Ret {| secret_key := sk; public_key := pk; bls_private_key := bls_sk;
         bls_public_key := bls_sk_to_pk bls_sk; address := addr |}.

(** [Wallet::new], [sk] being the key the generator draws: the wallet is
    registered. *)
Definition Wallet_new (reg : Registry) (sk : SecretKey) : Outcome (Registry * Wallet) :=
  let! w := wallet_of_secret_key sk in
  Ret (register_trusted_bls_pub_key reg (address w) (bls_public_key w), w).

Definition new_deterministic (reg : Registry) (seed index : Z) : Outcome (Registry * Wallet) :=
  let combined := to_be_bytes 8 seed ++ to_be_bytes 4 index in
  let hash := Hasher_hash combined in
  let! sk := expect (sk_from_slice hash) in
  let! w := wallet_of_secret_key sk in
  Ret (register_trusted_bls_pub_key reg (address w) (bls_public_key w), w).

(** The wallet read from a hexadecimal key; it is not registered. *)
Definition from_secret_key_string (s : string) : Outcome (Result Wallet WalletError) :=
  let s := if decide (String.length s = 66) then String.substring 2 64 s else s in
  if decide (String.length s <> 64) then Ret (Err InvalidPrivateKeyString) else
  match sk_from_str s with
  | None => Ret (Err InvalidPrivateKeyString)
  | Some sk => let! w := wallet_of_secret_key sk in Ret (Ok w)
  end.

Definition sign (w : Wallet) (msg : bytes) : string :=
  let hash_result := Hasher_hash msg in
  let '(recovery_id, signature_bytes) := sign_ecdsa_recoverable hash_result (secret_key w) in
  let v := (27 + recovery_id)%Z in
  "0x" +:+ hex_encode signature_bytes +:+ format_02x v.

Definition sign_by_bls (w : Wallet) (msg : bytes) : string :=
  "0x" +:+ hex_encode (bls_to_bytes (bls_sign (bls_private_key w) msg)).

(** The slices and the [expect]s panic on a malformed signature; [v - 27] wraps
    around below 27. *)
Definition recover_pubkey (msg : bytes) (signature : string)
    : Outcome (Result PublicKey WalletError) :=
  let signature := strip_0x signature in
  let message := Hasher_hash msg in
  let! rs := expect (slice signature 0 128) in
  match hex_decode rs with
  | None => Ret (Err InvalidSignature)
  | Some signature_bytes =>
      let! vs := expect (slice signature 128 130) in
      match u8_from_str_radix16 vs with
      | None => Ret (Err InvalidSignature)
      | Some v =>
          let recovery_id := as_u8 (v - 27) in
          if negb (recovery_id <=? 3)%Z then Panic else
          if negb (sig_from_compact signature_bytes) then Panic else
          let! pk := expect (recover_ecdsa message signature_bytes recovery_id) in
          Ret (Ok pk)
      end
  end.

Definition Wallet_verify (w : Wallet) (msg : bytes) (signature : string) : Outcome bool :=
  let! r := recover_pubkey msg signature in
  Ret (match r with
       | Ok recovered_public_key => bool_decide (recovered_public_key = public_key w)
       | Err _ => false
       end).

Definition verify_by_address (msg : bytes) (signature addr : string) : Outcome bool :=
  let! r := recover_pubkey msg signature in
  Ret (match r with
       | Ok pk => bool_decide (public_key_to_address pk = addr)
       | Err _ => false
       end).

Definition bls_signature_from_string (signature : string) : Result BlsSignature WalletError :=
  let signature := strip_0x signature in
  match hex_decode signature with
  | None => Err InvalidSignature
  | Some signature_bytes =>
      match bls_from_bytes signature_bytes with
      | Some s => Ok s
      | None => Err InvalidSignature
      end
  end.

Definition verify_bls_with_pk (msg : bytes) (signature : string) (pk : BlsPublicKey) : bool :=
  match bls_signature_from_string signature with
  | Err _ => false
  | Ok s => bls_verify s msg pk
  end.

Definition verify_bls (w : Wallet) (msg : bytes) (signature : string) : bool :=
  match bls_signature_from_string signature with
  | Err _ => false
  | Ok s => bls_verify s msg (bls_public_key w)
  end.

(** The empty list gives the empty string; [add_signature] fails on a point
    outside the group. *)
Definition bls_aggregated_sign (signatures : list BlsSignature) : Outcome string :=
  match signatures with
  | [] => Ret EmptyString
  | s :: rest =>
      let! agg := expect (bls_aggregate s rest) in
      Ret ("0x" +:+ hex_encode (bls_to_bytes agg))
  end.

Definition bls_aggregated_verify_parsed (messages : list bytes) (pks : list BlsPublicKey)
    (s : BlsSignature) : bool :=
  bls_aggregate_verify s messages pks.

Definition bls_aggregated_verify (messages : list bytes) (pks : list BlsPublicKey)
    (signature : string) : bool :=
  match bls_signature_from_string signature with
  | Err _ => false
  | Ok s => bls_aggregated_verify_parsed messages pks s
  end.

(** A wallet as the constructors make it. *)
Definition wallet_wf (w : Wallet) : Prop :=
  public_key w = sk_public_key (secret_key w)
  /\ address w = public_key_to_address (public_key w)
  /\ bls_public_key w = bls_sk_to_pk (bls_private_key w).

Lemma wallet_of_secret_key_wf sk w : wallet_of_secret_key sk = Ret w -> wallet_wf w.
Proof.
  unfold wallet_of_secret_key. destruct (bls_key_gen _); simpl; [|done].
  intros [= <-]. by split_and!.
Qed.

End wallet.
Arguments Wallet {_}.
Abbreviation Registry := (gmap string BlsPublicKey).

(** * Signatures round-trip *)

Section laws.
Context `{CryptoLaws}.

Lemma strip_0x_app s : strip_0x ("0x" +:+ s) = s.
Proof. done. Qed.

Lemma string_app_nil_l (s : string) : ("" +:+ s)%string = s.
Proof. done. Qed.

Lemma substring_app_l (a b : string) : String.substring 0 (String.length a) (a +:+ b) = a.
Proof.
  induction a as [|c a IH]; [by destruct b|]. simpl. by rewrite IH.
Qed.

Lemma substring_app_r (a b : string) n :
  String.length b = n -> String.substring (String.length a) n (a +:+ b) = b.
Proof.
  intros <-. induction a as [|c a IH]; [|done]. simpl.
  change ("" +:+ b)%string with b. induction b as [|c b IH]; [done|]. simpl. by rewrite IH.
Qed.

Lemma string_length_app (a b : string) :
  String.length (a +:+ b) = String.length a + String.length b.
Proof. induction a as [|c a IH]; [done|]. simpl. by rewrite IH. Qed.

Lemma radix_format_02x v : (27 <= v <= 30)%Z -> u8_from_str_radix16 (format_02x v) = Some v.
Proof.
  intros Hv. assert (v = 27 \/ v = 28 \/ v = 29 \/ v = 30)%Z as [->|[->|[->| ->]]] by lia;
    reflexivity.
Qed.

Lemma recover_sign (w : Wallet) msg :
  recover_pubkey msg (sign w msg) = Ret (Ok (sk_public_key (secret_key w))).
Proof.
  unfold recover_pubkey, sign. set (d := Hasher_hash msg).
  pose proof (ecdsa_recid d (secret_key w)) as Hr.
  pose proof (ecdsa_length d (secret_key w)) as Hl.
  pose proof (ecdsa_compact d (secret_key w)) as Hc.
  pose proof (ecdsa_recover d (secret_key w)) as Hrec.
  destruct (sign_ecdsa_recoverable d (secret_key w)) as [rid sb]. simpl in Hr, Hl, Hc, Hrec.
  rewrite strip_0x_app.
  assert (Hh : String.length (hex_encode sb) = 128) by (rewrite hex_length, Hl; done).
  assert (Hlen : String.length (hex_encode sb +:+ format_02x (27 + rid)) = 130).
  { rewrite string_length_app, Hh. done. }
  unfold slice. rewrite Hlen, !decide_True by lia. simpl expect. simpl outcome_bind.
  replace (String.substring 0 128 (hex_encode sb +:+ format_02x (27 + rid)))
    with (hex_encode sb) by (rewrite <- Hh; by rewrite substring_app_l).
  rewrite hex_round_trip. simpl.
  replace (String.substring 128 2 (hex_encode sb +:+ format_02x (27 + rid)))
    with (format_02x (27 + rid)) by (rewrite <- Hh; by rewrite substring_app_r).
  rewrite radix_format_02x by lia.
  assert (as_u8 (27 + rid - 27) = rid) as ->.
  { unfold as_u8. rewrite Z.mod_small; lia. }
  destruct (Z.leb_spec rid 3); [|lia]. simpl. rewrite Hc. simpl. by rewrite Hrec.
Qed.

(** A signature that is too short is not rejected: the slice panics. *)
Lemma verify_short_panics msg addr : verify_by_address msg "" addr = Panic.
Proof. reflexivity. Qed.

Lemma verify_sign_by_address (w : Wallet) msg :
  wallet_wf w -> verify_by_address msg (sign w msg) (address w) = Ret true.
Proof.
  intros (Hpk & Ha & _). unfold verify_by_address. rewrite recover_sign. simpl.
  by rewrite bool_decide_true by congruence.
Qed.

Lemma bls_string_round_trip s :
  bls_signature_from_string ("0x" +:+ hex_encode (bls_to_bytes s)) = Ok s.
Proof.
  unfold bls_signature_from_string. rewrite strip_0x_app, hex_round_trip.
  by rewrite bls_bytes_round_trip.
Qed.

Lemma verify_sign_by_bls (w : Wallet) msg :
  wallet_wf w -> verify_bls_with_pk msg (sign_by_bls w msg) (bls_public_key w) = true.
Proof.
  intros (_ & _ & Hb). unfold verify_bls_with_pk, sign_by_bls.
  rewrite bls_string_round_trip, Hb. apply bls_sign_verify.
Qed.

End laws.

(** * A concrete instance

    Small enough to run inside the kernel: keys are bytes, a digest is a
    polynomial checksum, an ECDSA signature carries its signer, and a BLS
    signature is the list of the (key, message) pairs it certifies. *)
Module Toy.

Definition toy_digest (b : bytes) : bytes :=
  reverse (to_le_bytes 32 (fold_left (fun acc x => (acc * 263 + Z_of_byte x + 1) mod 2 ^ 24)%Z b 7%Z)).

Fixpoint toy_hex (b : bytes) : string :=
  match b with
  | [] => EmptyString
  | x :: b => format_02x (Z_of_byte x) +:+ toy_hex b
  end.

Fixpoint toy_unhex (s : string) : option bytes :=
  match s with
  | EmptyString => Some []
  | String a (String b s) =>
      match hex_value a, hex_value b, toy_unhex s with
      | Some x, Some y, Some r => Some (byte_of_Z (16 * x + y) :: r)
      | _, _, _ => None
      end
  | _ => None
  end.

Definition toy_sig := list (Byte.byte * bytes).

Definition toy_sig_bytes (s : toy_sig) : bytes :=
  flat_map (fun km => flat_map (fun b => [Byte.x02; b]) km.2 ++ [Byte.x01; km.1]) s.

Fixpoint toy_sig_of_bytes (b : bytes) : option toy_sig :=
  match b with
  | [] => Some []
  | t :: x :: b =>
      match toy_sig_of_bytes b with
      | None => None
      | Some l =>
          if decide (t = Byte.x01) then Some ((x, []) :: l)
          else if decide (t = Byte.x02) then
            match l with [] => None | (k, m) :: l => Some ((k, x :: m) :: l) end
          else None
      end
  | _ => None
  end.

#[export] Instance ToyCrypto : Crypto := {|
  SecretKey := Byte.byte;
  PublicKey := Byte.byte;
  BlsSecretKey := Byte.byte;
  BlsPublicKey := Byte.byte;
  BlsSignature := toy_sig;
  sha3_256 := toy_digest;
  hex_encode := toy_hex;
  hex_decode := toy_unhex;
  sk_from_slice b := head b;
  sk_from_str s := toy_unhex s ≫= head;
  sk_secret_bytes sk := replicate 32 sk;
  sk_public_key sk := sk;
  serialize_uncompressed pk := Byte.x04 :: replicate 64 pk;
  sign_ecdsa_recoverable d sk := (0%Z, sk :: resize 63 Byte.x00 d);
  sig_from_compact b := bool_decide (length b = 64);
  recover_ecdsa d s _ :=
    match s with
    | pk :: t => if decide (t = resize 63 Byte.x00 d) then Some pk else None
    | [] => None
    end;
  bls_key_gen b := head b;
  bls_sk_to_pk sk := sk;
  bls_sign sk m := [(sk, m)];
  bls_to_bytes := toy_sig_bytes;
  bls_from_bytes := toy_sig_of_bytes;
  bls_verify s m pk := bool_decide (s = [(pk, m)]);
  bls_aggregate s l := Some (s ++ concat l);
  bls_aggregate_verify s ms pks := bool_decide (s = zip pks ms)
|}.

Lemma toy_hex_round_trip b : toy_unhex (toy_hex b) = Some b.
Proof.
  induction b as [|x b IH]; [done|].
  assert (toy_unhex (format_02x (Z_of_byte x) +:+ toy_hex b)
          = match toy_unhex (toy_hex b) with Some r => Some (x :: r) | None => None end) as E.
  { by destruct x. }
  change (toy_hex (x :: b)) with (format_02x (Z_of_byte x) +:+ toy_hex b).
  by rewrite E, IH.
Qed.

Lemma toy_hex_length b : String.length (toy_hex b) = 2 * length b.
Proof.
  induction b as [|x b IH]; [done|].
  change (toy_hex (x :: b)) with (format_02x (Z_of_byte x) +:+ toy_hex b).
  rewrite string_length_app, IH. simpl. lia.
Qed.

Lemma toy_sig_round_trip s : toy_sig_of_bytes (toy_sig_bytes s) = Some s.
Proof.
  induction s as [|[k m] s IH]; [done|].
  unfold toy_sig_bytes in *. cbn [flat_map fst snd]. rewrite <- app_assoc.
  induction m as [|b m IHm]; cbn [flat_map app toy_sig_of_bytes] in *.
  - by rewrite IH.
  - by rewrite IHm.
Qed.

Lemma toy_concat (l : list (toy_sig * bytes * Byte.byte)) :
  Forall (fun '(s, m, pk) => bool_decide (s = [(pk, m)]) = true) l ->
  concat (map (fun x => x.1.1) l) = zip (map snd l) (map (fun x => x.1.2) l).
Proof.
  induction 1 as [|[[s m] pk] l Hs _ IH]; [done|]. cbn [map concat fst snd zip].
  apply bool_decide_eq_true in Hs as ->. simpl. f_equal. exact IH.
Qed.

#[export] Instance ToyCryptoLaws : CryptoLaws.
Proof.
  split; simpl.
  - intros. done.
  - apply toy_hex_round_trip.
  - intros b. rewrite toy_hex_length. lia.
  - lia.
  - intros. by rewrite length_resize.
  - intros. apply bool_decide_true. simpl. by rewrite length_resize.
  - intros. by rewrite decide_True.
  - apply toy_sig_round_trip.
  - intros. by apply bool_decide_true.
  - intros. by eexists.
  - intros smp rest agg Hall [= <-]. apply bool_decide_true.
    exact (toy_concat (smp :: rest) Hall).
Qed.

(** The wallet of a toy key. *)
Definition toy_wallet (k : Byte.byte) : Wallet :=
  {| secret_key := k : SecretKey; public_key := k : PublicKey;
     bls_private_key := k : BlsSecretKey; bls_public_key := k : BlsPublicKey;
     address := public_key_to_address (k : PublicKey) |}.

Lemma toy_wallet_wf k : wallet_wf (toy_wallet k).
Proof. by split_and!. Qed.

End Toy.
