(* ===== verification/Transaction.v ===== *)
(** * Transactions

    src/src/blockchain/transaction.rs.  [serde_json]'s rendering of a
    transaction is third-party code: the class [TxSerde] is its interface. *)

From S2P Require Export Num Wallet.
Local Open Scope rust_scope.

Record Transaction {F : Type} := mkTransaction {
  tx_from : string;
  tx_to : string;
  tx_amount : Z;
  tx_fee : F;
  tx_irrecoverable_cost : F;
  tx_hash : string;
  tx_signature : string;
  tx_timestamp : Z;
  tx_data : bytes
}.
Arguments Transaction : clear implicits.

(** [serde_json::to_string(&transaction)]. *)
Class TxSerde (F : Type) := tx_json : Transaction F -> bytes.

Section transaction.
Context {F : Type} `{F64 F} `{Crypto} `{TxSerde F}.

(** The form of a transaction that is hashed: no hash, no signature, no data. *)
Definition tx_blank (t : Transaction F) : Transaction F :=
  {| tx_from := tx_from t; tx_to := tx_to t; tx_amount := tx_amount t; tx_fee := tx_fee t;
     tx_irrecoverable_cost := tx_irrecoverable_cost t; tx_hash := ""; tx_signature := "";
     tx_timestamp := tx_timestamp t; tx_data := [] |}.

(** [Transaction::with_costs], [now] being the clock's reading. *)
Definition with_costs (now : Z) (to : string) (amount : Z) (fee irrecoverable_cost : F)
    (wallet : Wallet) : Transaction F :=
  let t := {| tx_from := address wallet; tx_to := to; tx_amount := amount; tx_fee := fee;
              tx_irrecoverable_cost := irrecoverable_cost; tx_hash := ""; tx_signature := "";
              tx_timestamp := now; tx_data := [] |} in
  let hash := Hasher_hash (tx_json t) in
  let signature := sign wallet hash in
  {| tx_from := tx_from t; tx_to := tx_to t; tx_amount := tx_amount t; tx_fee := tx_fee t;
     tx_irrecoverable_cost := tx_irrecoverable_cost t; tx_hash := hex_encode hash;
     tx_signature := signature; tx_timestamp := tx_timestamp t; tx_data := tx_data t |}.

Definition with_fee (now : Z) (to : string) (amount : Z) (fee : F) (wallet : Wallet) :=
  with_costs now to amount fee fee wallet.

Definition Transaction_new (now : Z) (to : string) (amount : Z) (wallet : Wallet) :=
  with_fee now to amount f1 wallet.

Definition Transaction_verify (t : Transaction F) : Outcome bool :=
  let hash := Hasher_hash (tx_json (tx_blank t)) in
  if decide (tx_hash t <> hex_encode hash) then Ret false
  else verify_by_address hash (tx_signature t) (tx_from t).

Definition str_bytes (s : string) : Z := Z.of_nat (String.length s).

Definition Transaction_bytes (t : Transaction F) : Z :=
  wrap64 (str_bytes (tx_hash t) + 8 + 8 + 8 + 8 + str_bytes (tx_from t) + str_bytes (tx_to t)
          + str_bytes (tx_signature t) + Z.of_nat (length (tx_data t))).

(** The data carried by a transaction is not part of what its sender signs. *)
Definition with_data (t : Transaction F) (data : bytes) : Transaction F :=
  {| tx_from := tx_from t; tx_to := tx_to t; tx_amount := tx_amount t; tx_fee := tx_fee t;
     tx_irrecoverable_cost := tx_irrecoverable_cost t; tx_hash := tx_hash t;
     tx_signature := tx_signature t; tx_timestamp := tx_timestamp t; tx_data := data |}.

Lemma verify_with_data t data : Transaction_verify (with_data t data) = Transaction_verify t.
Proof. done. Qed.

(** A transaction with equal signed fields and an accepted hash has the same hash. *)
Lemma verify_hash t : Transaction_verify t = Ret true ->
  tx_hash t = hex_encode (Hasher_hash (tx_json (tx_blank t))).
Proof. unfold Transaction_verify. by case_decide. Qed.

Lemma verify_with_costs `{!CryptoLaws} now to amount fee cost w :
  wallet_wf w -> Transaction_verify (with_costs now to amount fee cost w) = Ret true.
Proof.
  intros Hw. unfold Transaction_verify, with_costs, tx_blank; simpl.
  rewrite decide_False by (intros Hne; by apply Hne).
  by apply verify_sign_by_address.
Qed.

End transaction.
