(* ===== verification/Path.v ===== *)
(** * Propagation paths

    src/src/blockchain/path.rs: the hop-by-hop signed path a transaction
    collects in flight, the aggregated record a block stores, and the three
    process-wide caches (receipt commitments, receipt conflicts, verified
    records), which are explicit state here.  [verify]-like functions return an
    [Outcome] because recovering the transaction's signer may panic. *)

From stdpp Require Import pretty.
From S2P Require Export Transaction.
Local Open Scope rust_scope.

Definition DEFAULT_TOPOSTAKE_CHAIN_ID : Z := 7032030.
Definition TOPOSTAKE_TX_PATH_DOMAIN : bytes := as_bytes "TOPOSTAKE_TX_PATH_V1".

Record Path := {
  hop_from : string;
  hop_to : string;
  hop_prefix : string;
  sender_signature : string;
  receiver_signature : option string
}.

Record TransactionPaths {F : Type} := mkTransactionPaths {
  tp_transaction : Transaction F;
  tp_chain_id : Z;
  tp_epoch : Z;
  tp_paths : list Path
}.
Arguments TransactionPaths : clear implicits.
Arguments mkTransactionPaths {F}.

Record AggregatedSignedPaths := mkAggregatedSignedPaths {
  asp_chain_id : Z;
  asp_epoch : Z;
  asp_signature : string;
  asp_paths : list string
}.

(** [RECEIPT_COMMITMENT_CACHE], [RECEIPT_CONFLICT_CACHE], [PATH_VERIFY_CACHE]. *)
Record PathCaches := {
  receipt_commitments : gmap string string;
  receipt_conflicts : gmap string Z;
  path_verify : gmap string bool
}.

Definition clear_receipt_cache_for_tests : PathCaches := Build_PathCaches ∅ ∅ ∅.

Section path.
Context {F : Type} `{F64 F} `{Crypto} `{TxSerde F}.
Implicit Types (p : TransactionPaths F) (t : Transaction F) (a : AggregatedSignedPaths).

(** ** Chained statements *)

Definition hash_identity (identity : string) : bytes := Hasher_hash (as_bytes identity).

(** [decode(tx_hash).unwrap_or_else(|_| hash(tx_hash))]. *)
Definition tx_hash_bytes (hash : string) : bytes :=
  match hex_decode hash with
  | Some b => b
  | None => Hasher_hash (as_bytes hash)
  end.

(** What the chain value of the origin hashes. *)
Definition chain_initial (hash : string) (chain_id epoch : Z) (origin : string) : bytes :=
  TOPOSTAKE_TX_PATH_DOMAIN ++ to_be_bytes 8 chain_id ++ tx_hash_bytes hash
    ++ to_be_bytes 8 epoch ++ hash_identity origin.

Definition chain_step (chain : bytes) (node : string) : bytes :=
  Hasher_hash (chain ++ hash_identity node).

Definition chain_value_for_nodes (hash : string) (chain_id epoch : Z) (nodes : list string)
    (node_idx : nat) : bytes :=
  match nodes with
  | [] =>
      Hasher_hash (TOPOSTAKE_TX_PATH_DOMAIN ++ to_be_bytes 8 chain_id ++ to_be_bytes 8 epoch
                     ++ tx_hash_bytes hash)
  | origin :: rest =>
      let capped_idx := Nat.min node_idx (length nodes - 1) in
      fold_left chain_step (drop 1 (take (capped_idx + 1) nodes))
        (Hasher_hash (chain_initial hash chain_id epoch origin))
  end.

Definition edge_statement (prefix : bytes) (from to : string) : bytes :=
  TOPOSTAKE_TX_PATH_DOMAIN ++ prefix ++ hash_identity from ++ hash_identity to.

Definition receipt_cache_key (hash : string) (chain_id epoch : Z) (receiver : string) : string :=
  hash +:+ ":" +:+ pretty chain_id +:+ ":" +:+ pretty epoch +:+ ":" +:+ receiver.

Definition has_repeated_nodes (nodes : list string) : bool := any_repeated ∅ nodes.

Definition conflicting_receipt_count (c : PathCaches) (hash : string) (epoch : Z)
    (receiver : string) : Z :=
  get_or 0%Z (receipt_conflicts c)
    (receipt_cache_key hash DEFAULT_TOPOSTAKE_CHAIN_ID epoch receiver).

(** ** [TransactionPaths] *)

Definition new_with_epoch_and_chain_id t (epoch chain_id : Z) : TransactionPaths F :=
  mkTransactionPaths t chain_id epoch [].

Definition new_with_epoch t (epoch : Z) : TransactionPaths F :=
  new_with_epoch_and_chain_id t epoch DEFAULT_TOPOSTAKE_CHAIN_ID.

Definition TransactionPaths_new t : TransactionPaths F := new_with_epoch t 0.

Definition new_with_paths t (paths : list Path) : TransactionPaths F :=
  mkTransactionPaths t DEFAULT_TOPOSTAKE_CHAIN_ID 0 paths.

Definition set_paths p (paths : list Path) : TransactionPaths F :=
  mkTransactionPaths (tp_transaction p) (tp_chain_id p) (tp_epoch p) paths.

Definition node_sequence p : list string :=
  tx_from (tp_transaction p) :: map hop_to (tp_paths p).

Definition has_pending_hop p : bool :=
  match last (tp_paths p) with
  | Some hop => bool_decide (receiver_signature hop = None)
  | None => false
  end.

Definition has_repeated_identities p : bool := any_repeated ∅ (node_sequence p).

Definition current_tail p : string :=
  match last (tp_paths p) with
  | Some hop => hop_to hop
  | None => tx_from (tp_transaction p)
  end.

Definition chain_value_for_node_index p (node_idx : nat) : bytes :=
  chain_value_for_nodes (tx_hash (tp_transaction p)) (tp_chain_id p) (tp_epoch p)
    (node_sequence p) node_idx.

Definition chain_value_for_tail p : bytes :=
  chain_value_for_node_index p (length (tp_paths p)).

Definition append_outgoing_hop p (to : string) (sender_wallet : Wallet)
    : TransactionPaths F * bool :=
  if has_pending_hop p then (p, false) else
  let from := current_tail p in
  if decide (from <> address sender_wallet) then (p, false) else
  if decide (to ∈ node_sequence p) then (p, false) else
  let prefix := chain_value_for_tail p in
  let message := edge_statement prefix from to in
  let sig := sign_by_bls sender_wallet message in
  let hop := {| hop_from := from; hop_to := to; hop_prefix := hex_encode prefix;
                sender_signature := sig; receiver_signature := None |} in
  (set_paths p (tp_paths p ++ [hop]), true).

Definition add_path p (to : string) (wallet : Wallet) : TransactionPaths F :=
  (append_outgoing_hop p to wallet).1.

Definition verify_hop (reg : Registry) p (idx : nat) (require_receiver : bool) : bool :=
  match tp_paths p !! idx with
  | None => false
  | Some hop =>
      let expected_prefix := chain_value_for_node_index p idx in
      if decide (hex_encode expected_prefix <> hop_prefix hop) then false else
      let nodes := node_sequence p in
      if decide (nodes !! idx <> Some (hop_from hop) \/ nodes !! (idx + 1) <> Some (hop_to hop))
      then false else
      let message := edge_statement expected_prefix (hop_from hop) (hop_to hop) in
      match get_bls_pub_key reg (hop_from hop) with
      | None => false
      | Some sender_pk =>
          if negb (verify_bls_with_pk message (sender_signature hop) sender_pk) then false else
          if require_receiver then
            match receiver_signature hop with
            | None => false
            | Some rsig =>
                match get_bls_pub_key reg (hop_to hop) with
                | None => false
                | Some receiver_pk => verify_bls_with_pk message rsig receiver_pk
                end
            end
          else true
      end
  end.

Definition verify_pending_sender_signature (reg : Registry) p : Outcome bool :=
  match tp_paths p with
  | [] => Transaction_verify (tp_transaction p)
  | _ => Ret (verify_hop reg p (length (tp_paths p) - 1) false)
  end.

Definition verify_completed_hops (reg : Registry) p : bool :=
  forallb (fun ih =>
    bool_decide (is_Some (receiver_signature ih.2)) && verify_hop reg p ih.1 true)
    (enumerate (tp_paths p)).

Definition TransactionPaths_verify (reg : Registry) p (current_address : string) : Outcome bool :=
  let! ok := Transaction_verify (tp_transaction p) in
  if negb ok then Ret false else
  if has_repeated_identities p then Ret false else
  match tp_paths p with
  | [] => Ret (bool_decide (current_address = tx_from (tp_transaction p)))
  | _ =>
      if decide (current_tail p <> current_address) then Ret false
      else Ret (verify_completed_hops reg p)
  end.

Definition verify_last (reg : Registry) p (current_address : string) : Outcome bool :=
  let! ok := Transaction_verify (tp_transaction p) in
  if negb ok then Ret false else
  match last (tp_paths p) with
  | None => Ret (bool_decide (current_address = tx_from (tp_transaction p)))
  | Some hop =>
      if decide (hop_to hop <> current_address) then Ret false
      else verify_pending_sender_signature reg p
  end.

(** [self.paths.last_mut().receiver_signature = Some(sig)]. *)
Definition set_last_receiver (paths : list Path) (sig : string) : list Path :=
  match last paths with
  | None => paths
  | Some hop =>
      take (length paths - 1) paths
        ++ [{| hop_from := hop_from hop; hop_to := hop_to hop; hop_prefix := hop_prefix hop;
               sender_signature := sender_signature hop; receiver_signature := Some sig |}]
  end.

(** The receipt cache admits the first commitment of a key and counts the
    others as conflicts. *)
Definition receipt_admit (c : PathCaches) (key commitment : string) : PathCaches * bool :=
  match receipt_commitments c !! key with
  | Some existing =>
      if decide (existing <> commitment) then
        (Build_PathCaches (receipt_commitments c)
           (<[key := match receipt_conflicts c !! key with
                     | Some count => u64_add count 1
                     | None => 1%Z
                     end]> (receipt_conflicts c))
           (path_verify c), false)
      else (c, true)
  | None =>
      (Build_PathCaches (<[key := commitment]> (receipt_commitments c)) (receipt_conflicts c)
         (path_verify c), true)
  end.

Definition complete_pending_hop (reg : Registry) (c : PathCaches) p (receiver_wallet : Wallet)
    : Outcome (PathCaches * TransactionPaths F * bool) :=
  match last (tp_paths p) with
  | None => Ret (c, p, bool_decide (tx_from (tp_transaction p) = address receiver_wallet))
  | Some hop =>
      if decide (hop_to hop <> address receiver_wallet) then Ret (c, p, false) else
      match receiver_signature hop with
      | Some _ => Ret (c, p, true)
      | None =>
          let! ok := verify_pending_sender_signature reg p in
          if negb ok then Ret (c, p, false) else
          match hex_decode (hop_prefix hop) with
          | None => Ret (c, p, false)
          | Some prefix =>
              let message := edge_statement prefix (hop_from hop) (hop_to hop) in
              let receipt_key := receipt_cache_key (tx_hash (tp_transaction p)) (tp_chain_id p)
                                   (tp_epoch p) (hop_to hop) in
              let receipt_commitment := hex_encode (Hasher_hash message) in
              let '(c', admitted) := receipt_admit c receipt_key receipt_commitment in
              if negb admitted then Ret (c', p, false) else
              let sig := sign_by_bls receiver_wallet message in
              Ret (c', set_paths p (set_last_receiver (tp_paths p) sig), true)
          end
      end
  end.

Definition append_completed_hop (reg : Registry) (c : PathCaches) p (to : string)
    (sender_wallet receiver_wallet : Wallet) : Outcome (PathCaches * TransactionPaths F * bool) :=
  let '(p', ok) := append_outgoing_hop p to sender_wallet in
  if ok then complete_pending_hop reg c p' receiver_wallet else Ret (c, p', false).

(** ** [AggregatedSignedPaths] *)

(** The signatures of the hops, sender then receiver, if they all parse. *)
Fixpoint hop_signatures (hops : list Path) : option (list BlsSignature) :=
  match hops with
  | [] => Some []
  | hop :: rest =>
      match bls_signature_from_string (sender_signature hop) with
      | Err _ => None
      | Ok sender_sig =>
          match receiver_signature hop with
          | None => None
          | Some rsig =>
              match bls_signature_from_string rsig with
              | Err _ => None
              | Ok receiver_sig =>
                  match hop_signatures rest with
                  | None => None
                  | Some l => Some (sender_sig :: receiver_sig :: l)
                  end
              end
          end
      end
  end.

Definition from_transaction_paths (reg : Registry) p : Outcome AggregatedSignedPaths :=
  let full_nodes := node_sequence p in
  let unsigned nodes := mkAggregatedSignedPaths (tp_chain_id p) (tp_epoch p) "" nodes in
  let non_proposer_nodes := take (length full_nodes - 1) full_nodes in
  if decide (full_nodes = []) then Ret (unsigned []) else
  if decide (length full_nodes = 1) then Ret (unsigned []) else
  if negb (verify_completed_hops reg p) then Ret (unsigned non_proposer_nodes) else
  match hop_signatures (tp_paths p) with
  | None => Ret (unsigned non_proposer_nodes)
  | Some signatures =>
      let! signature := bls_aggregated_sign signatures in
      Ret (mkAggregatedSignedPaths (tp_chain_id p) (tp_epoch p) signature non_proposer_nodes)
  end.

Definition full_path a (miner : string) : list string :=
  if decide (last (asp_paths a) <> Some miner) then asp_paths a ++ [miner] else asp_paths a.

Definition asp_has_repeated_identities a : bool := has_repeated_nodes (asp_paths a).

Definition verification_cache_key a (hash miner : string) : string :=
  hash +:+ "|" +:+ pretty (asp_chain_id a) +:+ "|" +:+ pretty (asp_epoch a) +:+ "|" +:+ miner
    +:+ "|" +:+ asp_signature a +:+ "|" +:+ String.concat ">" (asp_paths a).

(** The messages and keys of the edges [idx], [idx + 1], ... of a path: each
    edge is signed by its sender and by its receiver. *)
Fixpoint edge_claims (reg : Registry) (hash : string) (chain_id epoch : Z) (nodes : list string)
    (idxs : list nat) : option (list (bytes * BlsPublicKey)) :=
  match idxs with
  | [] => Some []
  | idx :: idxs =>
      let from := nth idx nodes "" in
      let to := nth (idx + 1) nodes "" in
      let message := edge_statement (chain_value_for_nodes hash chain_id epoch nodes idx) from to in
      match get_bls_pub_key reg from, get_bls_pub_key reg to with
      | Some sender_pk, Some receiver_pk =>
          match edge_claims reg hash chain_id epoch nodes idxs with
          | Some l => Some ((message, sender_pk) :: (message, receiver_pk) :: l)
          | None => None
          end
      | _, _ => None
      end
  end.

Definition verify_at_epoch_with_cache (reg : Registry) (c : PathCaches) a t (miner : string)
    (epoch : Z) (use_cache : bool) : Outcome (PathCaches * bool) :=
  if decide (asp_epoch a <> epoch) then Ret (c, false) else
  if decide (tx_from t = miner /\ asp_paths a = []) then
    let! ok := Transaction_verify t in Ret (c, ok)
  else
  if decide (asp_paths a = []) then Ret (c, false) else
  if decide (asp_signature a = "") then Ret (c, false) else
  let! ok := Transaction_verify t in
  if negb ok then Ret (c, false) else
  let full_nodes := full_path a miner in
  if decide (head full_nodes <> Some (tx_from t)) then Ret (c, false) else
  if has_repeated_nodes full_nodes then Ret (c, false) else
  let hop_count := length full_nodes - 1 in
  if decide (hop_count = 0) then
    Ret (c, bool_decide (tx_from t = nth 0 full_nodes ""))
  else
  let cache_key := verification_cache_key a (tx_hash t) miner in
  match (if use_cache then path_verify c !! cache_key else None) with
  | Some cached => Ret (c, cached)
  | None =>
      match bls_signature_from_string (asp_signature a) with
      | Err _ => Ret (c, false)
      | Ok signature =>
          match edge_claims reg (tx_hash t) (asp_chain_id a) (asp_epoch a) full_nodes
                  (seq 0 hop_count) with
          | None => Ret (c, false)
          | Some claims =>
              let valid := bls_aggregated_verify_parsed claims.*1 claims.*2 signature in
              let c' := if use_cache
                        then Build_PathCaches (receipt_commitments c) (receipt_conflicts c)
                               (<[cache_key := valid]> (path_verify c))
                        else c in
              Ret (c', valid)
          end
      end
  end.

Definition verify_at_epoch (reg : Registry) (c : PathCaches) a t (miner : string) (epoch : Z) :=
  verify_at_epoch_with_cache reg c a t miner epoch true.

(** The uncached form touches no cache, so its caches are immaterial. *)
Definition verify_at_epoch_uncached (reg : Registry) a t (miner : string) (epoch : Z)
    : Outcome bool :=
  let! r := verify_at_epoch_with_cache reg clear_receipt_cache_for_tests a t miner epoch false in
  Ret r.2.

Definition asp_verify (reg : Registry) (c : PathCaches) a t (miner : string) :=
  verify_at_epoch reg c a t miner 0.

Definition asp_bytes a : Z :=
  wrap64 (fold_right Z.add 0%Z (map str_bytes (asp_paths a)) + str_bytes (asp_signature a)).

(** [x[0..5.min(x.len())]]. *)
Definition to_paths_string p : string :=
  String.concat "->" (map (fun x => String.substring 0 (Nat.min 5 (String.length x)) x)
                        (node_sequence p)).

End path.
