(* ===== verification/PathFacts.v ===== *)
(** * Correctness of propagation paths

    What an accepted record certifies, that honest relaying always produces an
    accepted record, that chained statements bind the whole prefix of a path,
    that the verification cache is transparent, and that a receiver signs at
    most one incoming edge per transaction and epoch. *)

From Stdlib Require Import Ascii.
From stdpp Require Import pretty.
From S2P Require Export HashChain Path.
Local Open Scope rust_scope.

(** ** Chain values *)

Section chain.
Context `{Crypto}.

(** The chain value of the last node of a non-empty sequence. *)
Definition chain_of (hash : string) (chain_id epoch : Z) (nodes : list string) : bytes :=
  match nodes with
  | [] => []
  | origin :: rest => fold_left chain_step rest (Hasher_hash (chain_initial hash chain_id epoch origin))
  end.

Lemma chain_value_prefix hash cid ep nodes idx :
  idx < length nodes ->
  chain_value_for_nodes hash cid ep nodes idx = chain_of hash cid ep (take (S idx) nodes).
Proof.
  intros Hi. destruct nodes as [|o rest]; [simpl in Hi; lia|].
  unfold chain_value_for_nodes, chain_of. simpl length in *.
  replace (Nat.min idx (S (length rest) - 1) + 1) with (S idx) by lia. done.
Qed.

Lemma chain_value_app hash cid ep nodes ext idx :
  idx < length nodes ->
  chain_value_for_nodes hash cid ep (nodes ++ ext) idx = chain_value_for_nodes hash cid ep nodes idx.
Proof.
  intros Hi. rewrite !chain_value_prefix by (rewrite ?length_app; lia).
  by rewrite take_app_le by lia.
Qed.

Lemma chain_of_snoc hash cid ep nodes n :
  nodes <> [] -> chain_of hash cid ep (nodes ++ [n]) = chain_step (chain_of hash cid ep nodes) n.
Proof. destruct nodes; [done|]. intros _. simpl. by rewrite fold_left_app. Qed.

End chain.

(** ** What an accepted record certifies *)

Section accepted.
Context {F : Type} `{F64 F} `{Crypto} `{TxSerde F}.

(** The statement of edge [idx] of a path. *)
Definition statement_at (hash : string) (cid ep : Z) (nodes : list string) (idx : nat) : bytes :=
  edge_statement (chain_of hash cid ep (take (S idx) nodes)) (nth idx nodes "")
    (nth (idx + 1) nodes "").

(** [claims] pairs the statement of every edge with its two registered keys. *)
Definition certifies (reg : Registry) hash cid ep nodes (claims : list (bytes * BlsPublicKey)) : Prop :=
  length claims = 2 * (length nodes - 1)
  /\ forall idx, idx < length nodes - 1 ->
       exists spk rpk,
         reg !! nth idx nodes "" = Some spk /\ reg !! nth (idx + 1) nodes "" = Some rpk
         /\ claims !! (2 * idx) = Some (statement_at hash cid ep nodes idx, spk)
         /\ claims !! (2 * idx + 1) = Some (statement_at hash cid ep nodes idx, rpk).

Lemma edge_claims_spec reg hash cid ep nodes start n claims :
  start + n <= length nodes - 1 ->
  edge_claims reg hash cid ep nodes (seq start n) = Some claims <->
  length claims = 2 * n
  /\ forall i, i < n ->
       exists spk rpk,
         reg !! nth (start + i) nodes "" = Some spk /\ reg !! nth (start + i + 1) nodes "" = Some rpk
         /\ claims !! (2 * i) = Some (statement_at hash cid ep nodes (start + i), spk)
         /\ claims !! (2 * i + 1) = Some (statement_at hash cid ep nodes (start + i), rpk).
Proof.
  revert start claims. induction n as [|n IH]; intros start claims Hn; cbn [seq edge_claims].
  { split; [intros [= <-]; split; [done|lia]|]. intros [Hl _]. destruct claims; [done|simpl in Hl; lia]. }
  assert (Hst : edge_statement (chain_value_for_nodes hash cid ep nodes start) (nth start nodes "")
                  (nth (start + 1) nodes "") = statement_at hash cid ep nodes start).
  { unfold statement_at. by rewrite chain_value_prefix by lia. }
  rewrite Hst. unfold get_bls_pub_key. split.
  - destruct (reg !! nth start nodes "") as [spk|] eqn:Es; [|done].
    destruct (reg !! nth (start + 1) nodes "") as [rpk|] eqn:Er; [|done].
    destruct (edge_claims reg hash cid ep nodes (seq (S start) n)) as [l|] eqn:El; [|done].
    intros [= <-]. apply IH in El as [Hl Hc]; [|lia]. split; [simpl; lia|].
    intros [|i] Hi.
    + exists spk, rpk. by rewrite Nat.add_0_r.
    + destruct (Hc i ltac:(lia)) as (s' & r' & Q1 & Q2 & Q3 & Q4). exists s', r'.
      replace (2 * S i) with (S (S (2 * i))) by lia.
      replace (start + S i) with (S start + i) by lia. done.
  - intros [Hl Hc]. destruct (Hc 0 ltac:(lia)) as (spk & rpk & Hs & Hr & Hc0 & Hc1).
    rewrite Nat.add_0_r in *. rewrite Hs, Hr.
    destruct claims as [|c0 [|c1 l]]; [simpl in Hl; lia..|]. simpl in Hc0, Hc1. simplify_eq.
    enough (edge_claims reg hash cid ep nodes (seq (S start) n) = Some l) as -> by done.
    apply IH; [lia|]. split; [simpl in Hl; lia|]. intros i Hi.
    destruct (Hc (S i) ltac:(lia)) as (s' & r' & Q1 & Q2 & Q3 & Q4). exists s', r'.
    replace (2 * S i) with (S (S (2 * i))) in * by lia.
    replace (start + S i) with (S start + i) in * by lia. done.
Qed.

Lemma edge_claims_certifies reg hash cid ep nodes claims :
  edge_claims reg hash cid ep nodes (seq 0 (length nodes - 1)) = Some claims
  <-> certifies reg hash cid ep nodes claims.
Proof. rewrite edge_claims_spec by lia. done. Qed.

Lemma last_full_path a miner : last (full_path a miner) = Some miner.
Proof.
  unfold full_path. case_decide as Hd; [by rewrite last_snoc|].
  destruct (decide (last (asp_paths a) = Some miner)); [done|by destruct Hd].
Qed.

Lemma full_path_nonempty a miner : full_path a miner <> [].
Proof. intros E. pose proof (last_full_path a miner) as Hl. by rewrite E in Hl. Qed.

(** The meaning of an aggregated record for a transaction and a proposer. *)
Definition record_valid (reg : Registry) (a : AggregatedSignedPaths) (t : Transaction F)
    (miner : string) (epoch : Z) : Prop :=
  asp_epoch a = epoch
  /\ Transaction_verify t = Ret true
  /\ (tx_from t = miner /\ asp_paths a = []
      \/ asp_paths a <> [] /\ asp_signature a <> ""
         /\ head (full_path a miner) = Some (tx_from t)
         /\ NoDup (full_path a miner)
         /\ (full_path a miner = [miner]
             \/ length (full_path a miner) > 1
                /\ exists sig claims,
                     bls_signature_from_string (asp_signature a) = Ok sig
                     /\ certifies reg (tx_hash t) (asp_chain_id a) (asp_epoch a)
                          (full_path a miner) claims
                     /\ bls_aggregate_verify sig claims.*1 claims.*2 = true)).

Lemma verify_uncached_sound reg a t miner epoch :
  verify_at_epoch_uncached reg a t miner epoch = Ret true -> record_valid reg a t miner epoch.
Proof.
  unfold verify_at_epoch_uncached, verify_at_epoch_with_cache, record_valid.
  case_decide as He; [done|]. destruct (decide (asp_epoch a = epoch)) as [Ee|]; [|done].
  case_decide as Hz.
  { destruct (Transaction_verify t) as [b|] eqn:Ev; simpl; [|done]. intros [= ->]. tauto. }
  case_decide as Hp; [done|]. case_decide as Hs; [done|].
  destruct (Transaction_verify t) as [[]|] eqn:Ev; simpl; try done.
  case_decide as Hh; [done|].
  destruct (decide (head (full_path a miner) = Some (tx_from t))) as [Hd|]; [|done].
  destruct (has_repeated_nodes (full_path a miner)) eqn:Hr; [done|].
  apply any_repeated_NoDup in Hr. pose proof (last_full_path a miner) as Hlast.
  case_decide as Hc.
  { intros _. split_and!; try done. right. split_and!; try done. left.
    destruct (full_path a miner) as [|x [|y l]]; simpl in *; try done. congruence. }
  destruct (bls_signature_from_string (asp_signature a)) as [sig|] eqn:Eb; [|done].
  destruct (edge_claims _ _ _ _ _ _) as [claims|] eqn:Ec; [|done].
  simpl. intros [= Hv]. apply edge_claims_certifies in Ec.
  split_and!; try done. right. split_and!; try done. right. split; [lia|].
  by exists sig, claims.
Qed.

Lemma verify_uncached_complete reg a t miner epoch :
  record_valid reg a t miner epoch -> verify_at_epoch_uncached reg a t miner epoch = Ret true.
Proof.
  intros (He & Ht & Hcase). unfold verify_at_epoch_uncached, verify_at_epoch_with_cache.
  rewrite decide_False by naive_solver.
  destruct Hcase as [[Hf Hp]|(Hp & Hs & Hh & Hnd & Hcase)].
  { rewrite decide_True by done. by rewrite Ht. }
  rewrite decide_False by naive_solver. rewrite !decide_False by done.
  rewrite Ht. simpl. rewrite decide_False by naive_solver.
  apply any_repeated_NoDup in Hnd. unfold has_repeated_nodes. rewrite Hnd.
  destruct Hcase as [E|(Hl & sig & claims & Hsig & Hc & Hv)].
  - rewrite E in *. simpl in Hh |- *. simplify_eq. simpl. by rewrite bool_decide_true.
  - rewrite decide_False by lia. rewrite Hsig. apply edge_claims_certifies in Hc. rewrite Hc.
    simpl. unfold bls_aggregated_verify_parsed. by rewrite Hv.
Qed.

(** C1: An aggregated path record is accepted for a transaction, a proposer and
    an epoch exactly when it is valid: the epochs agree, the transaction is
    correctly signed, and either the origin proposes its own transaction with an
    empty path, or the full path starts at the transaction's origin, ends at the
    proposer, repeats no identity, and (when it has an edge) the aggregate
    signature verifies against the chained statement of every edge, once with
    the registered key of its sender and once with that of its receiver.  The
    chain id is the record's own: it enters the statements and is compared with
    nothing. *)
Theorem verify_uncached_iff_valid (reg : Registry) (a : AggregatedSignedPaths) (t : Transaction F)
    (miner : string) (epoch : Z) :
  verify_at_epoch_uncached reg a t miner epoch = Ret true <-> record_valid reg a t miner epoch.
Proof. split; [apply verify_uncached_sound|apply verify_uncached_complete]. Qed.

End accepted.

(** ** A path verified hop by hop aggregates to an accepted record *)

Section hops.
Context {F : Type} `{F64 F} `{Crypto} `{TxSerde F}.
Implicit Types (p : TransactionPaths F).

Lemma length_node_sequence p : length (node_sequence p) = S (length (tp_paths p)).
Proof. unfold node_sequence. simpl. by rewrite length_map. Qed.

Lemma node_sequence_app p ext :
  node_sequence (set_paths p (tp_paths p ++ ext)) = node_sequence p ++ map hop_to ext.
Proof. unfold node_sequence; simpl. by rewrite map_app. Qed.

Lemma node_sequence_last p : last (node_sequence p) = Some (current_tail p).
Proof.
  unfold node_sequence, current_tail. destruct p as [t cid ep paths]; simpl.
  destruct paths as [|h paths _] using rev_ind; [done|].
  rewrite last_snoc, map_app. cbn [map]. rewrite app_comm_cons. by rewrite last_snoc.
Qed.

Lemma verify_completed_hops_spec reg p :
  verify_completed_hops reg p = true <->
  forall i h, tp_paths p !! i = Some h ->
    is_Some (receiver_signature h) /\ verify_hop reg p i true = true.
Proof.
  unfold verify_completed_hops, enumerate. rewrite forallb_forall. split.
  - intros Hall i h Hi. specialize (Hall (i, h)). simpl in Hall.
    rewrite andb_true_iff, bool_decide_eq_true in Hall. apply Hall.
    apply list_elem_of_In, elem_of_lookup_imap. eauto.
  - intros Hall [i h] Hin%list_elem_of_In. apply elem_of_lookup_imap in Hin as (j & x & [= -> ->] & Hx).
    simpl. rewrite andb_true_iff, bool_decide_eq_true. by apply Hall.
Qed.

(** Extending a path does not change the check of its earlier hops. *)
Lemma verify_hop_app reg p ext i b :
  i < length (tp_paths p) ->
  verify_hop reg (set_paths p (tp_paths p ++ ext)) i b = verify_hop reg p i b.
Proof.
  intros Hi. unfold verify_hop. change (tp_paths (set_paths p ?l)) with l.
  rewrite lookup_app_l by done. destruct (tp_paths p !! i) as [hop|]; [|done].
  unfold chain_value_for_node_index. rewrite node_sequence_app.
  change (tp_transaction (set_paths p ?l)) with (tp_transaction p).
  change (tp_chain_id (set_paths p ?l)) with (tp_chain_id p).
  change (tp_epoch (set_paths p ?l)) with (tp_epoch p).
  pose proof (length_node_sequence p).
  rewrite chain_value_app by lia. by rewrite !lookup_app_l by lia.
Qed.

(** What a completed hop carries. *)
Lemma verify_hop_true reg p i h :
  tp_paths p !! i = Some h -> verify_hop reg p i true = true ->
  exists s r rs spk rpk,
    let nodes := node_sequence p in
    let m := statement_at (tx_hash (tp_transaction p)) (tp_chain_id p) (tp_epoch p) nodes i in
    bls_signature_from_string (sender_signature h) = Ok s
    /\ receiver_signature h = Some rs /\ bls_signature_from_string rs = Ok r
    /\ reg !! nth i nodes "" = Some spk /\ reg !! nth (i + 1) nodes "" = Some rpk
    /\ bls_verify s m spk = true /\ bls_verify r m rpk = true.
Proof.
  intros Hi. pose proof (lookup_lt_Some _ _ _ Hi) as Hlt.
  unfold verify_hop. rewrite Hi. case_decide as Hpre; [done|]. case_decide as Hn; [done|].
  apply Decidable.not_or in Hn as [Hf Ht]. apply dec_stable in Hf, Ht.
  assert (Hm : edge_statement (chain_value_for_node_index p i) (hop_from h) (hop_to h)
               = statement_at (tx_hash (tp_transaction p)) (tp_chain_id p) (tp_epoch p)
                   (node_sequence p) i).
  { unfold statement_at, chain_value_for_node_index.
    rewrite chain_value_prefix by (rewrite length_node_sequence; lia).
    by rewrite (nth_lookup_Some _ _ _ _ Hf), (nth_lookup_Some _ _ _ _ Ht). }
  rewrite Hm. unfold get_bls_pub_key, verify_bls_with_pk.
  destruct (reg !! hop_from h) as [spk|] eqn:Es; [|done].
  destruct (bls_signature_from_string (sender_signature h)) as [s|] eqn:Eps; [|done].
  destruct (bls_verify s _ spk) eqn:Evs; [|done]. cbn [negb].
  destruct (receiver_signature h) as [rs|] eqn:Er; [|done].
  destruct (reg !! hop_to h) as [rpk|] eqn:Erk; [|done].
  destruct (bls_signature_from_string rs) as [r|] eqn:Epr; [|done]. intros Evr.
  exists s, r, rs, spk, rpk. cbv zeta.
  by rewrite (nth_lookup_Some _ _ _ _ Hf), (nth_lookup_Some _ _ _ _ Ht).
Qed.

(** The signatures of the remaining hops, with the claims they verify. *)
Lemma hop_signatures_claims reg p start :
  verify_completed_hops reg p = true -> start <= length (tp_paths p) ->
  exists triples : list (BlsSignature * bytes * BlsPublicKey),
    Forall (fun '(s, m, pk) => bls_verify s m pk = true) triples
    /\ hop_signatures (drop start (tp_paths p)) = Some (map (fun x => x.1.1) triples)
    /\ edge_claims reg (tx_hash (tp_transaction p)) (tp_chain_id p) (tp_epoch p) (node_sequence p)
         (seq start (length (tp_paths p) - start)) = Some (map (fun x => (x.1.2, x.2)) triples)
    /\ length triples = 2 * (length (tp_paths p) - start).
Proof.
  intros Hv Hs. remember (length (tp_paths p) - start) as n eqn:En.
  revert start Hs En. induction n as [|n IH]; intros start Hs En.
  { exists []. rewrite drop_ge by lia. by split_and!. }
  destruct (lookup_lt_is_Some_2 (tp_paths p) start ltac:(lia)) as [h Hh].
  rewrite verify_completed_hops_spec in Hv. destruct (Hv start h Hh) as [_ Hvh].
  destruct (IH (S start) ltac:(lia) ltac:(lia)) as (l & Hl & Hsig & Hcl & Hlen).
  destruct (verify_hop_true reg p start h Hh Hvh) as (s & r & rs & spk & rpk & Q1 & Q2 & Q3 & Q4 & Q5 & Q6 & Q7).
  set (m := statement_at (tx_hash (tp_transaction p)) (tp_chain_id p) (tp_epoch p)
              (node_sequence p) start) in *.
  exists ((s, m, spk) :: (r, m, rpk) :: l). split_and!.
  - by repeat constructor.
  - rewrite (drop_S _ _ _ Hh). simpl. rewrite Q1, Q2, Q3, Hsig. done.
  - cbn [seq edge_claims]. unfold get_bls_pub_key. rewrite Q4, Q5, Hcl.
    rewrite chain_value_prefix by (rewrite length_node_sequence; lia). done.
  - simpl. lia.
Qed.

Lemma full_path_of_nodes nodes cid ep sig tail :
  NoDup nodes -> last nodes = Some tail ->
  full_path (mkAggregatedSignedPaths cid ep sig (take (length nodes - 1) nodes)) tail = nodes.
Proof.
  intros Hnd Hl. apply last_Some in Hl as [l ->]. rewrite length_app. simpl.
  replace (length l + 1 - 1) with (length l) by lia. rewrite take_app_length.
  unfold full_path. simpl. rewrite decide_True; [done|].
  intros Hl. apply last_Some in Hl as [l' ->].
  apply NoDup_app in Hnd as (_ & Hd & _). apply (Hd tail); set_solver.
Qed.

Lemma aggregate_verifies `{!CryptoLaws} reg p :
  Transaction_verify (tp_transaction p) = Ret true ->
  NoDup (node_sequence p) -> verify_completed_hops reg p = true ->
  exists a, from_transaction_paths reg p = Ret a
    /\ asp_chain_id a = tp_chain_id p /\ asp_epoch a = tp_epoch p
    /\ full_path a (current_tail p) = node_sequence p
    /\ verify_at_epoch_uncached reg a (tp_transaction p) (current_tail p) (tp_epoch p) = Ret true.
Proof.
  intros Ht Hnd Hv. unfold from_transaction_paths. rewrite decide_False by done.
  pose proof (length_node_sequence p) as Hlen. pose proof (node_sequence_last p) as Hlast.
  destruct (tp_paths p) as [|h0 hops] eqn:Ep.
  { rewrite decide_True by (rewrite Hlen; done). eexists; split; [done|].
    assert (current_tail p = tx_from (tp_transaction p)) as Hct.
    { unfold current_tail. by rewrite Ep. }
    split_and!; [done..| |].
    - unfold full_path, node_sequence. rewrite Ep, Hct. by simpl.
    - apply verify_uncached_complete. unfold record_valid. simpl. auto. }
  rewrite decide_False by (rewrite Hlen; simpl; lia). rewrite Hv. simpl negb. cbv iota.
  destruct (hop_signatures_claims reg p 0 Hv ltac:(lia)) as (l & Hl & Hsig & Hcl & Hll).
  rewrite drop_0, Ep in Hsig. rewrite Hsig. rewrite Ep in Hll. simpl in Hll.
  destruct l as [|x l]; [simpl in Hll; lia|]. cbn [map bls_aggregated_sign].
  destruct (bls_aggregate_valid x l Hl) as [agg Hagg].
  rewrite Hagg. cbn [expect outcome_bind]. eexists; split; [done|].
  assert (Hfp := full_path_of_nodes (node_sequence p) (tp_chain_id p) (tp_epoch p)
           ("0x" +:+ hex_encode (bls_to_bytes agg)) _ Hnd Hlast).
  split_and!; [done..|exact Hfp|]. apply verify_uncached_complete.
  split; [done|]. split; [done|]. right. rewrite Hfp. cbn [asp_paths asp_signature asp_chain_id asp_epoch].
  split_and!; [|done|done|done|].
  { unfold node_sequence. rewrite Ep. simpl. done. }
  right. split; [rewrite Hlen; simpl; lia|].
  exists agg, (map (fun y => (y.1.2, y.2)) (x :: l)). split_and!.
  - apply bls_string_round_trip.
  - apply edge_claims_certifies. rewrite Hlen, Ep in *. simpl length in *.
    replace (S (S (length hops)) - 1) with (S (length hops) - 0) by lia. exact Hcl.
  - pose proof (bls_aggregate_correct x l agg Hl Hagg) as Hok.
    rewrite <- !list_fmap_compose. exact Hok.
Qed.

End hops.

(** ** Honest relaying *)

Section honest.
Context {F : Type} `{F64 F} `{Crypto} `{TxSerde F}.
Implicit Types (p : TransactionPaths F).

(** A wallet as its constructor made it, whose key is in the registry. *)
Definition registered (reg : Registry) (w : Wallet) : Prop :=
  wallet_wf w /\ reg !! address w = Some (bls_public_key w).

(** The transaction travels from [sender] through the wallets [ws]. *)
Fixpoint propagate (reg : Registry) (c : PathCaches) p (sender : Wallet) (ws : list Wallet)
    : Outcome (PathCaches * TransactionPaths F * bool) :=
  match ws with
  | [] => Ret (c, p, true)
  | w :: ws =>
      let! (c, p, ok) := append_completed_hop reg c p (address w) sender w in
      if ok then propagate reg c p w ws else Ret (c, p, false)
  end.

Definition receipt_key p (receiver : string) : string :=
  receipt_cache_key (tx_hash (tp_transaction p)) (tp_chain_id p) (tp_epoch p) receiver.

(** Nobody in [ws] has yet committed to an incoming edge of this transaction. *)
Definition no_receipts (c : PathCaches) p (ws : list Wallet) : Prop :=
  forall w, w ∈ ws -> receipt_commitments c !! receipt_key p (address w) = None.

(** A path completed up to the wallet [w]. *)
Definition complete_upto (reg : Registry) p (w : Wallet) : Prop :=
  has_pending_hop p = false /\ current_tail p = address w /\ verify_completed_hops reg p = true.

Lemma receipt_key_inj p : Inj (=) (=) (receipt_key p).
Proof.
  intros x y. unfold receipt_key, receipt_cache_key. intros E. by repeat apply (inj (String.append _)) in E.
Qed.

Lemma set_last_receiver_snoc l h sig :
  set_last_receiver (l ++ [h]) sig
  = l ++ [{| hop_from := hop_from h; hop_to := hop_to h; hop_prefix := hop_prefix h;
             sender_signature := sender_signature h; receiver_signature := Some sig |}].
Proof.
  unfold set_last_receiver. rewrite last_snoc, length_app. simpl.
  replace (length l + 1 - 1) with (length l) by lia. by rewrite take_app_length.
Qed.

(** The check of a hop that was just appended. *)
Lemma verify_hop_new reg p h b :
  h = {| hop_from := current_tail p; hop_to := hop_to h;
         hop_prefix := hex_encode (chain_value_for_tail p);
         sender_signature := sender_signature h; receiver_signature := receiver_signature h |} ->
  verify_hop reg (set_paths p (tp_paths p ++ [h])) (length (tp_paths p)) b
  = match reg !! current_tail p with
    | None => false
    | Some spk =>
        let m := edge_statement (chain_value_for_tail p) (current_tail p) (hop_to h) in
        if negb (verify_bls_with_pk m (sender_signature h) spk) then false else
        if b then
          match receiver_signature h with
          | None => false
          | Some rs => match reg !! hop_to h with
                       | None => false
                       | Some rpk => verify_bls_with_pk m rs rpk
                       end
          end
        else true
    end.
Proof.
  intros Eh. set (p' := set_paths p (tp_paths p ++ [h])). unfold verify_hop.
  change (tp_paths p') with (tp_paths p ++ [h]). rewrite list_lookup_middle by done.
  assert (Hns : node_sequence p' = node_sequence p ++ [hop_to h]) by apply node_sequence_app.
  pose proof (length_node_sequence p) as Hlen.
  assert (Hcv : chain_value_for_node_index p' (length (tp_paths p)) = chain_value_for_tail p).
  { unfold chain_value_for_node_index at 1. rewrite Hns, chain_value_app by lia. done. }
  rewrite Hcv, Eh. cbn [hop_from hop_to hop_prefix sender_signature receiver_signature].
  rewrite decide_False by (intros Hne; by apply Hne). rewrite decide_False; [done|].
  intros [Hn|Hn]; apply Hn; rewrite Hns; clear Hn.
  - rewrite lookup_app_l by lia. rewrite <- node_sequence_last, last_lookup. f_equal. lia.
  - rewrite lookup_app_r by lia. by replace (length (tp_paths p) + 1 - length (node_sequence p)) with 0 by lia.
Qed.

Lemma verify_completed_hops_snoc reg p h :
  verify_completed_hops reg p = true -> is_Some (receiver_signature h) ->
  verify_hop reg (set_paths p (tp_paths p ++ [h])) (length (tp_paths p)) true = true ->
  verify_completed_hops reg (set_paths p (tp_paths p ++ [h])) = true.
Proof.
  rewrite !verify_completed_hops_spec. intros Hv Hr Hh i h' Hi.
  destruct (decide (i < length (tp_paths p))) as [Hlt|Hge].
  - rewrite verify_hop_app by done. apply Hv. by rewrite <- (lookup_app_l _ [h]).
  - pose proof (lookup_lt_Some _ _ _ Hi) as Hlt. simpl in Hlt. rewrite length_app in Hlt. simpl in Hlt.
    assert (i = length (tp_paths p)) as -> by lia. simpl in Hi.
    rewrite list_lookup_middle in Hi by done. by simplify_eq.
Qed.

Lemma relay_one `{!CryptoLaws} reg c p w w' :
  registered reg w -> registered reg w' -> complete_upto reg p w ->
  address w' ∉ node_sequence p -> receipt_commitments c !! receipt_key p (address w') = None ->
  exists commitment h,
    append_completed_hop reg c p (address w') w w'
    = Ret (Build_PathCaches (<[receipt_key p (address w') := commitment]> (receipt_commitments c))
             (receipt_conflicts c) (path_verify c), set_paths p (tp_paths p ++ [h]), true)
    /\ hop_to h = address w'
    /\ complete_upto reg (set_paths p (tp_paths p ++ [h])) w'.
Proof.
  intros [Hw Hreg] [Hw' Hreg'] (Hpend & Htail & Hv) Hnew Hfresh.
  set (m := edge_statement (chain_value_for_tail p) (current_tail p) (address w')).
  set (h0 := {| hop_from := current_tail p; hop_to := address w';
                hop_prefix := hex_encode (chain_value_for_tail p);
                sender_signature := sign_by_bls w m; receiver_signature := None |}).
  set (h1 := {| hop_from := current_tail p; hop_to := address w';
                hop_prefix := hex_encode (chain_value_for_tail p);
                sender_signature := sign_by_bls w m;
                receiver_signature := Some (sign_by_bls w' m) |}).
  exists (hex_encode (Hasher_hash m)), h1.
  assert (Happ : append_outgoing_hop p (address w') w = (set_paths p (tp_paths p ++ [h0]), true)).
  { unfold append_outgoing_hop. rewrite Hpend, decide_False by naive_solver.
    by rewrite decide_False by done. }
  assert (Hpre : verify_hop reg (set_paths p (tp_paths p ++ [h0])) (length (tp_paths p)) false = true).
  { rewrite verify_hop_new by done. rewrite Htail, Hreg. cbn [hop_to h0 sender_signature].
    unfold m. rewrite Htail. by rewrite verify_sign_by_bls. }
  split_and!; [|done|].
  - unfold append_completed_hop. rewrite Happ. unfold complete_pending_hop.
    change (tp_paths (set_paths p ?l)) with l. rewrite last_snoc.
    cbn [hop_to h0 hop_from hop_prefix receiver_signature].
    rewrite decide_False by naive_solver. unfold verify_pending_sender_signature.
    change (tp_paths (set_paths p ?l)) with l.
    destruct (tp_paths p ++ [h0]) eqn:E; [by destruct (tp_paths p)|]. rewrite <- E in *.
    rewrite length_app. replace (length (tp_paths p) + length [h0] - 1) with (length (tp_paths p)) by (simpl; lia).
    rewrite Hpre. cbn [outcome_bind negb]. rewrite hex_round_trip.
    change (receipt_cache_key _ _ _ _) with (receipt_key p (address w')).
    unfold receipt_admit. rewrite Hfresh. cbn [negb]. by rewrite set_last_receiver_snoc.
  - split_and!.
    + unfold has_pending_hop. change (tp_paths (set_paths p ?l)) with l. by rewrite last_snoc.
    + unfold current_tail. change (tp_paths (set_paths p ?l)) with l. by rewrite last_snoc.
    + apply verify_completed_hops_snoc; [done|by eexists|].
      rewrite verify_hop_new by done. rewrite Htail, Hreg. cbn [hop_to h1 sender_signature receiver_signature].
      unfold m. rewrite Htail, Hreg'. rewrite !verify_sign_by_bls by done. done.
Qed.

Lemma propagate_honest `{!CryptoLaws} reg c p w ws :
  registered reg w -> Forall (registered reg) ws -> complete_upto reg p w ->
  NoDup (node_sequence p ++ map address ws) -> no_receipts c p ws ->
  exists c' p',
    propagate reg c p w ws = Ret (c', p', true)
    /\ complete_upto reg p' (default w (last ws))
    /\ node_sequence p' = node_sequence p ++ map address ws
    /\ tp_transaction p' = tp_transaction p /\ tp_chain_id p' = tp_chain_id p
    /\ tp_epoch p' = tp_epoch p.
Proof.
  revert c p w. induction ws as [|w' ws IH]; intros c p w Hw Hws Hc Hnd Hnr.
  { exists c, p. simpl. rewrite app_nil_r. by split_and!. }
  inversion_clear Hws as [|? ? Hw' Hws']. cbn [map] in Hnd.
  assert (Hnew : address w' ∉ node_sequence p).
  { apply NoDup_app in Hnd as (_ & Hd & _). intros Hin. apply (Hd _ Hin). left. }
  destruct (relay_one reg c p w w' Hw Hw' Hc Hnew) as (cm & h & Happ & Hto & Hc').
  { apply Hnr. left. }
  cbn [propagate]. rewrite Happ. cbn [outcome_bind].
  assert (Hns : node_sequence (set_paths p (tp_paths p ++ [h])) = node_sequence p ++ [address w']).
  { rewrite node_sequence_app. simpl. by rewrite Hto. }
  destruct (IH (Build_PathCaches (<[receipt_key p (address w') := cm]> (receipt_commitments c))
                  (receipt_conflicts c) (path_verify c))
                (set_paths p (tp_paths p ++ [h])) w' Hw' Hws' Hc') as (c' & p' & Hp & Hcu & Hseq & Ht & Hci & He).
  - by rewrite Hns, <- app_assoc.
  - intros x Hx. cbn [receipt_commitments]. change (receipt_key (set_paths p ?l)) with (receipt_key p).
    rewrite lookup_insert_ne; [by apply Hnr; right|].
    intros E%receipt_key_inj. apply NoDup_app in Hnd as (_ & _ & Hnd). inversion_clear Hnd as [|? ? Hni _].
    apply Hni. rewrite E. by apply list_elem_of_fmap_2.
  - exists c', p'. split; [exact Hp|]. rewrite Hseq, Hns, <- app_assoc.
    split_and!; try done. destruct ws; [exact Hcu|]. rewrite last_cons_cons.
    destruct (last (w0 :: ws)) eqn:E; [exact Hcu|]. by apply last_None in E.
Qed.

(** C4: A transaction that travels along registered wallets with pairwise
    distinct addresses, none of which has yet acknowledged it in this epoch,
    reaches the last of them: every hop is signed and acknowledged, the
    resulting path passes the hop-by-hop check there, its node sequence is the
    sequence of addresses, and aggregating it gives a record that the last
    wallet, as the proposer of that epoch, sees accepted. *)
Theorem honest_relay_verifies `{!CryptoLaws} (reg : Registry) (c : PathCaches)
    (t : Transaction F) (epoch chain_id : Z) (origin : Wallet) (ws : list Wallet) :
  Transaction_verify t = Ret true -> tx_from t = address origin ->
  Forall (registered reg) (origin :: ws) -> NoDup (map address (origin :: ws)) ->
  no_receipts c (new_with_epoch_and_chain_id t epoch chain_id) ws ->
  exists c' p' a,
    propagate reg c (new_with_epoch_and_chain_id t epoch chain_id) origin ws = Ret (c', p', true)
    /\ node_sequence p' = map address (origin :: ws)
    /\ TransactionPaths_verify reg p' (current_tail p') = Ret true
    /\ from_transaction_paths reg p' = Ret a
    /\ full_path a (current_tail p') = map address (origin :: ws)
    /\ verify_at_epoch_uncached reg a t (current_tail p') epoch = Ret true.
Proof.
  intros Ht Hf Hreg Hnd Hnr. inversion_clear Hreg as [|? ? Ho Hws].
  set (p := new_with_epoch_and_chain_id t epoch chain_id) in *.
  assert (Hns : node_sequence p = [address origin]) by (unfold node_sequence; simpl; by rewrite Hf).
  destruct (propagate_honest reg c p origin ws Ho Hws) as (c' & p' & Hp & (Hpd & Htl & Hv) & Hseq & Et & Ec & Ee).
  { by split_and!. }
  { by rewrite Hns. }
  { done. }
  rewrite Hns in Hseq. change ([address origin] ++ map address ws) with (map address (origin :: ws)) in Hseq.
  destruct (aggregate_verifies reg p') as (a & Ha & Hci & He & Hfp & Hva); [by rewrite Et|by rewrite Hseq|done|].
  exists c', p', a. rewrite Et, Ee in Hva. split_and!; try done; [|by rewrite Hfp].
  unfold TransactionPaths_verify. rewrite Et. simpl (tp_transaction p). rewrite Ht. cbn [outcome_bind negb].
  unfold has_repeated_identities. rewrite Hseq. apply any_repeated_NoDup in Hnd. rewrite Hnd.
  destruct (tp_paths p') eqn:Ep; [|by rewrite decide_False, Hv by naive_solver].
  unfold current_tail. rewrite Ep, Et. simpl. by rewrite bool_decide_true.
Qed.

End honest.

(** ** Chained statements bind the path

    The hypothesis that no two of the strings hashed here collide is about a
    finite list of strings; no finite digest is collision-free outright. *)

Section binding.
Context `{Crypto}.

(** What the chain hashes before the origin, and every string hashed while computing
    the chain value of [nodes]. *)
Definition chain_pre (hash : string) (cid ep : Z) : bytes :=
  TOPOSTAKE_TX_PATH_DOMAIN ++ to_be_bytes 8 cid ++ tx_hash_bytes hash ++ to_be_bytes 8 ep.
Definition chain_inputs (hash : string) (cid ep : Z) (nodes : list string) : list bytes :=
  hash_chain_inputs Hasher_hash (chain_pre hash cid ep) (map as_bytes nodes).

Definition collision_free : list bytes -> Prop := no_collision Hasher_hash.

Lemma collision_free_sub l l' : (forall a, a ∈ l -> a ∈ l') -> collision_free l' -> collision_free l.
Proof. apply no_collision_sub. Qed.

Lemma as_bytes_inj : Inj (=) (=) as_bytes.
Proof.
  intros x y E. rewrite <- (String.string_of_list_byte_of_string x),
    <- (String.string_of_list_byte_of_string y). by f_equal.
Qed.

Lemma chain_of_hash_chain hash cid ep nodes : nodes <> [] ->
  chain_of hash cid ep nodes = hash_chain Hasher_hash (chain_pre hash cid ep) (map as_bytes nodes).
Proof.
  destruct nodes as [|o rest]; [done|]. intros _. cbn [chain_of map hash_chain].
  rewrite fold_left_map. f_equal. unfold chain_initial, chain_pre. by rewrite <- !app_assoc.
Qed.

Lemma chain_inputs_snoc hash cid ep nodes n a :
  nodes <> [] ->
  a ∈ chain_inputs hash cid ep (nodes ++ [n]) <->
  a ∈ chain_inputs hash cid ep nodes \/ a = as_bytes n
  \/ a = chain_of hash cid ep nodes ++ hash_identity n.
Proof.
  intros Hne. unfold chain_inputs. rewrite map_app, chain_of_hash_chain by done. simpl.
  apply hash_chain_inputs_snoc. by destruct nodes.
Qed.

Section lengths.
Context `{!CryptoLaws}.

Lemma hash_identity_length n : length (hash_identity n) = 32.
Proof. apply sha3_256_length. Qed.

Lemma chain_of_length hash cid ep nodes : nodes <> [] -> length (chain_of hash cid ep nodes) = 32.
Proof. intros Hne. rewrite chain_of_hash_chain by done. apply hash_chain_length, sha3_256_length. Qed.

Lemma chain_of_inj h1 c1 e1 l1 h2 c2 e2 l2 :
  is_u64 c1 -> is_u64 c2 -> is_u64 e1 -> is_u64 e2 -> l1 <> [] -> l2 <> [] ->
  collision_free (chain_inputs h1 c1 e1 l1 ++ chain_inputs h2 c2 e2 l2) ->
  chain_of h1 c1 e1 l1 = chain_of h2 c2 e2 l2 ->
  tx_hash_bytes h1 = tx_hash_bytes h2 /\ c1 = c2 /\ e1 = e2 /\ l1 = l2.
Proof.
  intros Hc1 Hc2 He1 He2 Hn1 Hn2 Hcf. rewrite !chain_of_hash_chain by done. intros E.
  assert (forall h c e, length (chain_pre h c e) <> 32) as Hp.
  { intros h c e. unfold chain_pre. rewrite !length_app, !length_to_be_bytes.
    change (length TOPOSTAKE_TX_PATH_DOMAIN) with 20. lia. }
  apply (hash_chain_inj Hasher_hash sha3_256_length) in E as [Ep El]; try done; [|by destruct l1|by destruct l2].
  unfold chain_pre in Ep. apply app_inv_head in Ep.
  apply app_inj_1 in Ep as [Ec Ep]; [|by rewrite !length_to_be_bytes].
  apply app_inj_2 in Ep as [Et Ee]; [|by rewrite !length_to_be_bytes].
  split_and!; auto using to_be_bytes8_inj. by apply (list_fmap_eq_inj as_bytes as_bytes_inj).
Qed.

End lengths.

(** C5: A signed edge statement binds everything before it: as long as no two of
    the strings hashed on the way collide, two edges (of any two paths, for any
    transactions, chain ids and epochs) with the same statement have the same
    transaction hash, chain id and epoch, and their paths agree from the origin
    up to and including the edge's receiver.  A signature therefore cannot be
    spliced into another path, transaction, epoch or chain. *)
Theorem statement_binds_prefix `{!CryptoLaws} (h1 h2 : string) (c1 c2 e1 e2 : Z)
    (n1 n2 : list string) (i1 i2 : nat) :
  is_u64 c1 -> is_u64 c2 -> is_u64 e1 -> is_u64 e2 ->
  i1 + 1 < length n1 -> i2 + 1 < length n2 ->
  collision_free (chain_inputs h1 c1 e1 (take (i1 + 2) n1)
                  ++ chain_inputs h2 c2 e2 (take (i2 + 2) n2)) ->
  statement_at h1 c1 e1 n1 i1 = statement_at h2 c2 e2 n2 i2 ->
  tx_hash_bytes h1 = tx_hash_bytes h2 /\ c1 = c2 /\ e1 = e2
  /\ take (i1 + 2) n1 = take (i2 + 2) n2.
Proof.
  intros Hc1 Hc2 He1 He2 Hi1 Hi2 Hcf E.
  assert (Htake : forall (n : list string) i, i + 1 < length n ->
    take (i + 2) n = take (S i) n ++ [nth (i + 1) n ""] /\ take (S i) n <> []
    /\ nth (i + 1) n "" ∈ take (i + 2) n).
  { intros n i Hi. assert (n !! (i + 1) = Some (nth (i + 1) n "")) as Hl.
    { destruct (lookup_lt_is_Some_2 n (i + 1) Hi) as [x Hx]. by rewrite (nth_lookup_Some _ _ _ _ Hx). }
    replace (i + 2) with (S (i + 1)) by lia. rewrite (take_S_r _ _ _ Hl).
    replace (i + 1) with (S i) by lia. split_and!; [done|destruct n; simpl in *; [lia|done]|set_solver]. }
  destruct (Htake n1 i1 Hi1) as (T1 & N1 & M1), (Htake n2 i2 Hi2) as (T2 & N2 & M2).
  unfold statement_at, edge_statement in E. apply app_inv_head in E.
  apply app_inj_1 in E as [Ech E]; [|by rewrite !chain_of_length].
  apply app_inj_1 in E as [_ Eto]; [|by rewrite !hash_identity_length].
  destruct (chain_of_inj h1 c1 e1 (take (S i1) n1) h2 c2 e2 (take (S i2) n2)) as (Et & Ec & Ee & El); try done.
  { eapply collision_free_sub; [|exact Hcf]. intros a.
    rewrite T1, T2, !elem_of_app, !chain_inputs_snoc by done. tauto. }
  split_and!; try done. rewrite T1, T2, El. f_equal. f_equal. apply as_bytes_inj.
  apply Hcf; [..|exact Eto]; apply elem_of_app; [left|right]; apply elem_of_app; left;
    apply list_elem_of_fmap; eauto.
Qed.

End binding.

(** ** The verification cache

    A cache key joins its fields with [|] and the identities with [>]: it is
    unambiguous as long as the fields do not contain those characters.  The
    addresses of wallets and the hashes and signatures they make contain none, but
    the strings of a received record are not checked for them, and two neighbours
    of a path have the key of the path in which they are one identity
    ([cache_key_merges_neighbours]). *)

Fixpoint has_char (c : Ascii.ascii) (s : string) : bool :=
  match s with
  | EmptyString => false
  | String x s => bool_decide (x = c) || has_char c s
  end.

Section keys.

Lemma has_char_app c a b : has_char c (a +:+ b) = has_char c a || has_char c b.
Proof. induction a as [|x a IH]; simpl; [done|]. by rewrite IH, orb_assoc. Qed.

Lemma split_at_char c a1 a2 r1 r2 :
  has_char c a1 = false -> has_char c a2 = false ->
  a1 +:+ String c r1 = a2 +:+ String c r2 -> a1 = a2 /\ r1 = r2.
Proof.
  revert a2. induction a1 as [|x a1 IH]; intros [|y a2]; simpl; intros Ha1 Ha2 E.
  - by injection E.
  - injection E as -> E. rewrite bool_decide_true in Ha2 by done. done.
  - injection E as -> E. rewrite bool_decide_true in Ha1 by done. done.
  - injection E as -> E. apply orb_false_elim in Ha1 as [_ Ha1], Ha2 as [_ Ha2].
    destruct (IH a2 Ha1 Ha2 E) as [-> ->]. done.
Qed.

Lemma pretty_N_go_no_char c x s :
  (forall d, pretty_N_char d <> c) -> has_char c s = false -> has_char c (pretty_N_go x s) = false.
Proof.
  intros Hd. revert s. induction (N.lt_wf_0 x) as [x _ IH]. intros s Hs.
  destruct (decide (0 < x)%N) as [Hx|Hx].
  - rewrite pretty_N_go_step by done. apply IH; [apply N.div_lt; lia|].
    simpl. rewrite bool_decide_false by done. done.
  - assert (x = 0%N) as -> by lia. by rewrite pretty_N_go_0.
Qed.

Lemma pretty_Z_no_bar (z : Z) : has_char "|"%char (pretty z) = false.
Proof.
  assert (Hd : forall d, pretty_N_char d <> "|"%char).
  { intros d. unfold pretty_N_char. repeat case_match; done. }
  assert (HN : forall n : N, has_char "|"%char (pretty n) = false).
  { intros n. unfold pretty, pretty_N. case_decide; [done|]. by apply pretty_N_go_no_char. }
  destruct z; [done|apply HN|]. simpl. apply HN.
Qed.

Lemma concat_cons_cons sep x y l :
  String.concat sep (x :: y :: l) = x +:+ sep +:+ String.concat sep (y :: l).
Proof. done. Qed.

Lemma string_app_no_char c a b : has_char c (a +:+ b) = false -> has_char c a = false /\ has_char c b = false.
Proof. rewrite has_char_app. apply orb_false_elim. Qed.

Lemma concat_gt_inj l1 l2 :
  l1 <> [] -> l2 <> [] ->
  Forall (fun s => has_char ">"%char s = false) l1 -> Forall (fun s => has_char ">"%char s = false) l2 ->
  String.concat ">" l1 = String.concat ">" l2 -> l1 = l2.
Proof.
  revert l2. induction l1 as [|x1 l1 IH]; [done|]. intros [|x2 l2] _ Hn2 H1 H2 E; [done|].
  inversion_clear H1 as [|? ? Hx1 Hl1]. inversion_clear H2 as [|? ? Hx2 Hl2].
  destruct l1 as [|y1 l1], l2 as [|y2 l2].
  - simpl in E. by subst.
  - rewrite concat_cons_cons in E. simpl String.concat at 1 in E. exfalso. rewrite E in Hx1.
    rewrite has_char_app in Hx1. apply orb_false_elim in Hx1 as [_ Hx1]. simpl in Hx1. done.
  - rewrite concat_cons_cons in E. simpl String.concat at 2 in E. exfalso. rewrite <- E in Hx2.
    rewrite has_char_app in Hx2. apply orb_false_elim in Hx2 as [_ Hx2]. simpl in Hx2. done.
  - rewrite !concat_cons_cons in E. apply split_at_char in E as [-> E]; [|done..].
    f_equal. by apply IH.
Qed.

(** The fields of a request keep its cache key unambiguous. *)
Definition key_safe (a : AggregatedSignedPaths) (hash miner : string) : Prop :=
  has_char "|"%char hash = false /\ has_char "|"%char miner = false /\ has_char "|"%char (asp_signature a) = false
  /\ Forall (fun s => has_char ">"%char s = false) (asp_paths a).

Lemma cache_key_inj a1 h1 m1 a2 h2 m2 :
  key_safe a1 h1 m1 -> key_safe a2 h2 m2 -> asp_paths a1 <> [] -> asp_paths a2 <> [] ->
  verification_cache_key a1 h1 m1 = verification_cache_key a2 h2 m2 ->
  a1 = a2 /\ h1 = h2 /\ m1 = m2.
Proof.
  intros (P1 & P2 & P3 & P4) (Q1 & Q2 & Q3 & Q4) Hn1 Hn2 E. unfold verification_cache_key in E.
  apply split_at_char in E as [-> E]; [|done..].
  apply split_at_char in E as [E1 E]; [|apply pretty_Z_no_bar..].
  apply split_at_char in E as [E2 E]; [|apply pretty_Z_no_bar..].
  apply split_at_char in E as [-> E]; [|done..].
  apply split_at_char in E as [E3 E]; [|done..].
  apply concat_gt_inj in E; [|done..].
  apply (inj pretty) in E1, E2. destruct a1, a2; simpl in *. by subst.
Qed.

Lemma string_app_assoc (a b c : string) : (a +:+ b) +:+ c = a +:+ b +:+ c.
Proof. induction a as [|x a IH]; [done|]. change (String x ((a +:+ b) +:+ c) = String x (a +:+ b +:+ c)). by rewrite IH. Qed.

Lemma concat_merge_neighbours sep p x y q :
  String.concat sep (p ++ x :: y :: q) = String.concat sep (p ++ (x +:+ sep +:+ y) :: q).
Proof.
  induction p as [|z p IH]; cbn [app].
  - destruct q as [|w q]; [done|]. rewrite !concat_cons_cons, !string_app_assoc. done.
  - destruct p; exact (f_equal (fun r => z +:+ sep +:+ r) IH).
Qed.

Lemma cache_key_merges_neighbours cid epoch sig p x y q hash miner :
  verification_cache_key (mkAggregatedSignedPaths cid epoch sig (p ++ x :: y :: q)) hash miner
  = verification_cache_key (mkAggregatedSignedPaths cid epoch sig (p ++ (x +:+ ">" +:+ y) :: q)) hash miner.
Proof.
  unfold verification_cache_key. cbn [asp_paths asp_chain_id asp_epoch asp_signature].
  by rewrite concat_merge_neighbours.
Qed.

End keys.

Section cache.
Context {F : Type} `{F64 F} `{Crypto} `{TxSerde F}.

(** The expensive part of the check: what an entry of the cache stands for. *)
Definition signature_check (reg : Registry) (a : AggregatedSignedPaths) (hash miner : string) : bool :=
  match bls_signature_from_string (asp_signature a) with
  | Err _ => false
  | Ok signature =>
      let nodes := full_path a miner in
      match edge_claims reg hash (asp_chain_id a) (asp_epoch a) nodes (seq 0 (length nodes - 1)) with
      | None => false
      | Some claims => bls_aggregated_verify_parsed claims.*1 claims.*2 signature
      end
  end.

Definition cache_sound (reg : Registry) (c : PathCaches) : Prop :=
  forall a hash miner b,
    key_safe a hash miner -> asp_paths a <> [] ->
    path_verify c !! verification_cache_key a hash miner = Some b ->
    b = signature_check reg a hash miner.

Lemma cache_sound_insert reg c a hash miner :
  cache_sound reg c -> key_safe a hash miner -> asp_paths a <> [] ->
  cache_sound reg (Build_PathCaches (receipt_commitments c) (receipt_conflicts c)
    (<[verification_cache_key a hash miner := signature_check reg a hash miner]> (path_verify c))).
Proof.
  intros Hc Hs Hp a' hash' miner' b Hs' Hp'. simpl.
  destruct (decide (verification_cache_key a hash miner = verification_cache_key a' hash' miner')) as [E|E].
  - rewrite E, lookup_insert_eq. intros [= <-].
    destruct (cache_key_inj _ _ _ _ _ _ Hs Hs' Hp Hp' E) as (-> & -> & ->). done.
  - rewrite lookup_insert_ne by done. by apply Hc.
Qed.

Lemma verify_at_epoch_sound reg c a (t : Transaction F) miner epoch :
  cache_sound reg c -> key_safe a (tx_hash t) miner ->
  exists c', cache_sound reg c'
    /\ verify_at_epoch reg c a t miner epoch
       = (let! b := verify_at_epoch_uncached reg a t miner epoch in Ret (c', b)).
Proof.
  intros Hc Hs. unfold verify_at_epoch, verify_at_epoch_uncached, verify_at_epoch_with_cache.
  case_decide; [by exists c|]. case_decide as Hpe.
  { exists c. destruct (Transaction_verify t); done. }
  case_decide as Hp; [by exists c|]. case_decide; [by exists c|].
  destruct (Transaction_verify t) as [[]|]; simpl; [|by exists c..].
  case_decide; [by exists c|]. destruct (has_repeated_nodes _); [by exists c|].
  case_decide; [by exists c|].
  pose proof (cache_sound_insert reg c a (tx_hash t) miner Hc Hs Hp) as Hins.
  destruct (path_verify c !! verification_cache_key a (tx_hash t) miner) as [b|] eqn:Ek.
  - exists c. split; [done|]. apply Hc in Ek as ->; [|done..]. unfold signature_check.
    destruct (bls_signature_from_string _); [|done].
    by destruct (edge_claims reg (tx_hash t) (asp_chain_id a) (asp_epoch a) (full_path a miner) _).
  - unfold signature_check in Hins.
    destruct (bls_signature_from_string _); [|by exists c].
    destruct (edge_claims reg (tx_hash t) (asp_chain_id a) (asp_epoch a) (full_path a miner) _);
      [|by exists c].
    eexists; split; [exact Hins|done].
Qed.

(** A request to the verifier. *)
Record request := { rq_record : AggregatedSignedPaths; rq_tx : Transaction F;
                    rq_miner : string; rq_epoch : Z }.

Fixpoint run_cached (reg : Registry) (c : PathCaches) (l : list request) : Outcome (list bool) :=
  match l with
  | [] => Ret []
  | r :: l =>
      let! (c, b) := verify_at_epoch reg c (rq_record r) (rq_tx r) (rq_miner r) (rq_epoch r) in
      let! bs := run_cached reg c l in Ret (b :: bs)
  end.

Fixpoint run_uncached (reg : Registry) (l : list request) : Outcome (list bool) :=
  match l with
  | [] => Ret []
  | r :: l =>
      let! b := verify_at_epoch_uncached reg (rq_record r) (rq_tx r) (rq_miner r) (rq_epoch r) in
      let! bs := run_uncached reg l in Ret (b :: bs)
  end.

Lemma run_cached_uncached reg l : forall c,
  cache_sound reg c ->
  Forall (fun r => key_safe (rq_record r) (tx_hash (rq_tx r)) (rq_miner r)) l ->
  run_cached reg c l = run_uncached reg l.
Proof.
  induction l as [|r l IH]; intros c Hc Hl; [done|]. inversion_clear Hl as [|? ? Hr Hl'].
  destruct (verify_at_epoch_sound reg c (rq_record r) (rq_tx r) (rq_miner r) (rq_epoch r) Hc Hr)
    as (c' & Hc' & E).
  simpl. rewrite E. destruct (verify_at_epoch_uncached _ _ _ _ _); [|done]. simpl.
  by rewrite (IH c').
Qed.

(** C7: For a fixed registry, and as long as the transaction hashes, proposers and
    signatures of the requests contain no [|] and the identities of their paths no
    [>], the process-wide verification cache is transparent: starting from empty
    caches, any sequence of verification requests, repeated and interleaved in
    any order, gets the answers the uncached verifier gives.  Without that condition
    keys collide ([cache_key_merges_neighbours]), and the answer for one path is
    given for another. *)
Theorem verify_cache_transparent (reg : Registry) (l : list request) :
  Forall (fun r => key_safe (rq_record r) (tx_hash (rq_tx r)) (rq_miner r)) l ->
  run_cached reg clear_receipt_cache_for_tests l = run_uncached reg l.
Proof.
  apply run_cached_uncached. intros a hash miner b _ _. simpl. by rewrite lookup_empty.
Qed.

(** ** One receipt per transaction, epoch and receiver *)

(** The key and the commitment a pending hop asks its receiver to sign. *)
Definition pending_receipt (p : TransactionPaths F) : option (string * string) :=
  match last (tp_paths p) with
  | None => None
  | Some hop =>
      match hex_decode (hop_prefix hop) with
      | None => None
      | Some prefix =>
          Some (receipt_key p (hop_to hop),
                hex_encode (Hasher_hash (edge_statement prefix (hop_from hop) (hop_to hop))))
      end
  end.

(** The receiver [w] signs the pending hop of [p]. *)
Definition signs_receipt (reg : Registry) (c : PathCaches) (p : TransactionPaths F) (w : Wallet)
    (c' : PathCaches) (p' : TransactionPaths F) : Prop :=
  has_pending_hop p = true /\ complete_pending_hop reg c p w = Ret (c', p', true).

(** The operations of the process that touch the caches. *)
Inductive cache_step (reg : Registry) : PathCaches -> PathCaches -> Prop :=
  | cs_complete c p w c' p' ok :
      complete_pending_hop reg c p w = Ret (c', p', ok) -> cache_step reg c c'
  | cs_verify c a (t : Transaction F) miner epoch use_cache c' ok :
      verify_at_epoch_with_cache reg c a t miner epoch use_cache = Ret (c', ok) ->
      cache_step reg c c'.

Lemma receipt_admit_spec c key commitment c' ok :
  receipt_admit c key commitment = (c', ok) ->
  (forall k v, receipt_commitments c !! k = Some v -> receipt_commitments c' !! k = Some v)
  /\ (ok = true -> receipt_commitments c' !! key = Some commitment)
  /\ path_verify c' = path_verify c.
Proof.
  unfold receipt_admit. destruct (receipt_commitments c !! key) as [e|] eqn:E.
  - case_decide; intros [= <- <-]; split_and!; simpl; try done. intros _. rewrite E. f_equal. tauto.
  - intros [= <- <-]. simpl. split_and!; try done; [|intros _; apply lookup_insert_eq].
    intros k v Hk. rewrite lookup_insert_ne; [done|]. congruence.
Qed.

Lemma complete_pending_receipts reg c p w c' p' ok :
  complete_pending_hop reg c p w = Ret (c', p', ok) ->
  (forall k v, receipt_commitments c !! k = Some v -> receipt_commitments c' !! k = Some v)
  /\ (has_pending_hop p = true -> ok = true ->
      exists k v, pending_receipt p = Some (k, v) /\ receipt_commitments c' !! k = Some v).
Proof.
  unfold complete_pending_hop, pending_receipt, has_pending_hop.
  destruct (last (tp_paths p)) as [hop|]; [|by intros [= <- <- <-]].
  case_decide; [by intros [= <- <- <-]|].
  destruct (receiver_signature hop) as [rs|]; [by intros [= <- <- <-]|].
  destruct (verify_pending_sender_signature reg p) as [[]|]; simpl; [|by intros [= <- <- <-]|done].
  destruct (hex_decode (hop_prefix hop)) as [prefix|]; [|by intros [= <- <- <-]].
  destruct (receipt_admit _ _ _) as [c1 adm] eqn:Ea. apply receipt_admit_spec in Ea as (Hm & Hk & _).
  destruct adm; simpl; intros [= <- <- <-]; [|done]. split; [done|]. intros _ _.
  eexists _, _. split; [done|]. by apply Hk.
Qed.

Lemma verify_keeps_receipts reg c a (t : Transaction F) miner epoch u c' ok :
  verify_at_epoch_with_cache reg c a t miner epoch u = Ret (c', ok) ->
  receipt_commitments c' = receipt_commitments c.
Proof.
  unfold verify_at_epoch_with_cache. destruct (Transaction_verify t) as [[]|]; simpl;
    repeat case_match; intros; simplify_eq/=; done.
Qed.

Lemma cache_steps_keep reg c c' k v :
  rtc (cache_step reg) c c' -> receipt_commitments c !! k = Some v ->
  receipt_commitments c' !! k = Some v.
Proof.
  induction 1 as [|c c1 c' Hs _ IH]; [done|]. intros Hk. apply IH.
  destruct Hs as [c p w c1 p' ok E|c a t miner epoch u c1 ok E].
  - apply complete_pending_receipts in E as [Hm _]. by apply Hm.
  - apply verify_keeps_receipts in E. by rewrite E.
Qed.

(** C6: A receiver acknowledges at most one incoming edge per transaction, chain
    and epoch: if a pending hop is signed, and later, after any number of other
    path operations of the process, another pending hop with the same receipt
    key is signed, then both signed statements have the same commitment. *)
Theorem receipt_exclusive (reg : Registry) (c1 c1' c2 c2' : PathCaches)
    (p1 p1' p2 p2' : TransactionPaths F) (w1 w2 : Wallet) (key v1 v2 : string) :
  signs_receipt reg c1 p1 w1 c1' p1' ->
  rtc (cache_step reg) c1' c2 ->
  signs_receipt reg c2 p2 w2 c2' p2' ->
  pending_receipt p1 = Some (key, v1) -> pending_receipt p2 = Some (key, v2) ->
  v1 = v2.
Proof.
  intros [Hp1 E1] Hsteps [Hp2 E2] R1 R2.
  apply complete_pending_receipts in E1 as [_ S1], E2 as [Hm S2].
  destruct (S1 Hp1 eq_refl) as (k1 & w & P1 & L1), (S2 Hp2 eq_refl) as (k2 & w' & P2 & L2).
  simplify_eq. eapply cache_steps_keep in L1; [|exact Hsteps]. apply Hm in L1. congruence.
Qed.

End cache.
