(* ===== verification/Block.v ===== *)
(** * Blocks

    src/src/blockchain/block.rs: headers, bodies, Merkle roots and the
    self-contained checks of a block. *)

From Stdlib Require Import Ascii.
From stdpp Require Import pretty.
From S2P Require Export PathFacts.
Local Open Scope rust_scope.

Record Header := mkHeader {
  h_index : Z;
  h_epoch : Z;
  h_slot : Z;
  h_hash : string;
  h_parent_hash : string;
  h_timestamp : Z;
  h_merkle_root : string;
  h_path_root : string;
  h_miner : string
}.

Record Body {F : Type} := mkBody {
  transactions : list (Transaction F);
  paths : list AggregatedSignedPaths
}.
Arguments Body : clear implicits.
Arguments mkBody {F}.

Record Block {F : Type} := mkBlock {
  header : Header;
  body : Body F
}.
Arguments Block : clear implicits.
Arguments mkBlock {F}.

Inductive BlockError := InvalidBlock | InvalidBlockPath | InvalidBlockTransactions | BlockJSONError.

(** [serde_json]'s renderings of headers and path records. *)
Class BlockSerde := {
  header_json : Header -> bytes;
  asp_json : AggregatedSignedPaths -> bytes
}.

(** ** Merkle roots *)

Section merkle.
Context `{Crypto}.

(** An odd level is completed with its last leaf. *)
Definition merkle_pad {A} (leaves : list A) : list A :=
  match last leaves with
  | Some l => if Nat.odd (length leaves) then leaves ++ [l] else leaves
  | None => leaves
  end.

(** One level: [decode(..).unwrap()] panics on a leaf that is not hexadecimal. *)
Fixpoint merkle_pairs (leaves : list string) : Outcome (list string) :=
  match leaves with
  | a :: b :: rest =>
      let! x := expect (hex_decode a) in
      let! y := expect (hex_decode b) in
      let hash := hex_encode (Hasher_hash (x ++ y)) in
      let! next := merkle_pairs rest in
      Ret (hash :: next)
  | _ => Ret []
  end.

(** The loop over the levels; a level has at most half the leaves rounded up, so
    as many rounds as leaves are enough. *)
Fixpoint merkle_loop (fuel : nat) (leaves : list string) : Outcome (list string) :=
  match fuel with
  | O => Ret leaves
  | S fuel =>
      if decide (1 < length leaves) then
        let! next := merkle_pairs (merkle_pad leaves) in
        merkle_loop fuel next
      else Ret leaves
  end.

Definition cal_merkle_root (leaves : list string) : Outcome string :=
  let! l := merkle_loop (length leaves) leaves in
  Ret (default "" (head l)).

Definition cal_path_root `{BlockSerde} (ps : list AggregatedSignedPaths) : Outcome string :=
  cal_merkle_root (map (fun p => hex_encode (Hasher_hash (asp_json p))) ps).

End merkle.

Section block.
Context {F : Type} `{F64 F} `{Crypto} `{TxSerde F} `{BlockSerde}.
Implicit Types (b : Block F).

(** ** Headers *)

Definition get_hash (h : Header) : string :=
  hex_encode (Hasher_hash (header_json
    {| h_index := h_index h; h_epoch := h_epoch h; h_slot := h_slot h; h_hash := "";
       h_parent_hash := h_parent_hash h; h_timestamp := h_timestamp h;
       h_merkle_root := h_merkle_root h; h_path_root := h_path_root h; h_miner := h_miner h |})).

Definition Header_new (now index epoch slot : Z) (merkle_root path_root miner parent_hash : string)
    : Header :=
  let header hash :=
    {| h_index := index; h_epoch := epoch; h_slot := slot; h_hash := hash;
       h_parent_hash := parent_hash; h_timestamp := now; h_merkle_root := merkle_root;
       h_path_root := path_root; h_miner := miner |} in
  header (get_hash (header "")).

Definition Header_bytes (h : Header) : Z :=
  wrap64 (8 + 8 + 8 + 8 + str_bytes (h_hash h) + str_bytes (h_parent_hash h)
          + str_bytes (h_merkle_root h) + str_bytes (h_path_root h) + str_bytes (h_miner h)).

(** ** Blocks *)

(** The loop that verifies every transaction, stopping at the first failure. *)
Fixpoint all_verify (l : list (Transaction F)) : Outcome bool :=
  match l with
  | [] => Ret true
  | t :: l =>
      let! ok := Transaction_verify t in
      if ok then all_verify l else Ret false
  end.

Definition tx_hashes b : list string := map tx_hash (transactions (body b)).

(** [Block::new], [now] being the clock's reading. *)
Definition Block_new (now index epoch slot : Z) (parent_hash : string) (body : Body F)
    (wallet : Wallet) : Outcome (Result (Block F) BlockError) :=
  if decide (length (transactions body) < length (paths body)) then Ret (Err InvalidBlock) else
  let! ok := all_verify (transactions body) in
  if negb ok then Ret (Err InvalidBlockTransactions) else
  let! merkle_root := cal_merkle_root (map tx_hash (transactions body)) in
  let! path_root := cal_path_root (paths body) in
  let header := Header_new now index epoch slot merkle_root path_root (address wallet) parent_hash in
  Ret (Ok (mkBlock header body)).

Definition verify_base b : Outcome bool :=
  if decide (length (transactions (body b)) < length (paths (body b))) then Ret false else
  let! ok := all_verify (transactions (body b)) in
  if negb ok then Ret false else
  let! tx_root := cal_merkle_root (tx_hashes b) in
  if decide (tx_root <> h_merkle_root (header b)) then Ret false else
  let! path_root := cal_path_root (paths (body b)) in
  if decide (path_root <> h_path_root (header b)) then Ret false else
  if decide (h_hash (header b) <> get_hash (header b)) then Ret false else
  Ret true.

Definition Block_verify b : Outcome bool := verify_base b.

Definition verify_path_evidence (reg : Registry) (c : PathCaches) b (transaction_index : nat)
    : Outcome (PathCaches * bool) :=
  match transactions (body b) !! transaction_index with
  | None => Ret (c, false)
  | Some transaction =>
      match paths (body b) !! transaction_index with
      | None => Ret (c, false)
      | Some path =>
          verify_at_epoch reg c path transaction (h_miner (header b)) (h_epoch (header b))
      end
  end.

(** [Block::gen_genesis_block], [sk] being the key the generator draws. *)
Definition gen_genesis_block (reg : Registry) (sk : SecretKey) (now : Z)
    : Outcome (Registry * Block F) :=
  let! (reg, miner) := Wallet_new reg sk in
  let transaction := Transaction_new now "000" 50 miner in
  let! p := from_transaction_paths reg (TransactionPaths_new transaction) in
  let! r := Block_new now 0 0 0 "" (mkBody [transaction] [p]) miner in
  match r with
  | Ok b => Ret (reg, b)
  | Err _ => Panic
  end.

Definition count_node_paths_map b : gmap string Z :=
  fold_left (fun counts x =>
    fold_left (fun counts p => entry_update 0%Z (fun n => u64_add n 1) p counts)
      (full_path x (h_miner (header b))) counts)
    (paths (body b)) ∅.

Definition count_node_paths b (addr : string) : Z := get_or 0%Z (count_node_paths_map b) addr.

Definition count_all_paths b : Z :=
  fold_left (fun counts x =>
    fold_left (fun counts _ => u64_add counts 1) (full_path x (h_miner (header b))) counts)
    (paths (body b)) 0%Z.

Definition get_all_paths b : list (list string) :=
  map (fun p => full_path p (h_miner (header b))) (paths (body b)).

Definition Body_bytes (bd : Body F) : Z :=
  wrap64 (fold_right Z.add 0%Z (map Transaction_bytes (transactions bd))
          + fold_right Z.add 0%Z (map asp_bytes (paths bd))).

Definition Block_bytes b : Z := u64_add (Header_bytes (header b)) (Body_bytes (body b)).

Definition TAB : string := String "009"%char "".
Definition NL : string := String "010"%char "".

(** [Block::simple_print_no_transaction_string]. *)
Definition simple_print_no_transaction_string b : string :=
  let h := header b in
  "Block[" +:+ pretty (h_index h) +:+ "]: " +:+ NL
    +:+ TAB +:+ " epoch:" +:+ pretty (h_epoch h) +:+ " " +:+ NL
    +:+ TAB +:+ " slot:" +:+ pretty (h_slot h) +:+ " " +:+ NL
    +:+ TAB +:+ " miner:" +:+ h_miner h +:+ " " +:+ NL
    +:+ TAB +:+ " timestamp:" +:+ pretty (h_timestamp h) +:+ " " +:+ NL
    +:+ TAB +:+ " transactions[" +:+ String.concat "," (tx_hashes b) +:+ "]" +:+ NL
    +:+ TAB +:+ " paths[" +:+ String.concat "," (map (String.concat "->") (get_all_paths b)) +:+ "]" +:+ NL.

End block.

(** ** Facts about Merkle roots *)

Section merkle_facts.
Context `{Crypto}.

Lemma length_merkle_pad {A} (l : list A) : length (merkle_pad l) = 2 * Nat.div2 (S (length l)).
Proof.
  unfold merkle_pad. destruct (last l) eqn:E.
  - pose proof (Nat.div2_odd (length l)) as Hd. destruct (Nat.odd (length l)) eqn:Eo; simpl Nat.b2n in Hd.
    + rewrite length_app. simpl length.
      replace (S (length l)) with (2 * S (Nat.div2 (length l))) by lia. rewrite Nat.div2_double. lia.
    + replace (S (length l)) with (S (2 * Nat.div2 (length l))) by lia. rewrite Nat.div2_succ_double. lia.
  - apply last_None in E as ->. done.
Qed.

Lemma merkle_pairs_length l : forall next, merkle_pairs l = Ret next -> length next = Nat.div2 (length l).
Proof.
  induction l as [l IH] using (induction_ltof1 _ (@length _)). unfold ltof in IH.
  destruct l as [|a [|b rest]]; intros next; simpl; [by intros [= <-]..|].
  destruct (hex_decode a); [|done]. destruct (hex_decode b); [|done]. simpl.
  destruct (merkle_pairs rest) as [nx|] eqn:E; [|done]. simpl. intros [= <-].
  apply IH in E; simpl; [lia|lia].
Qed.

Lemma div2_lt n : 1 < n -> Nat.div2 (S n) < n.
Proof.
  intros Hn. pose proof (Nat.div2_odd (S n)) as Hd. destruct (Nat.odd (S n)); simpl Nat.b2n in Hd; lia.
Qed.

Lemma merkle_level_length l next :
  merkle_pairs (merkle_pad l) = Ret next -> length next = Nat.div2 (S (length l)).
Proof. intros Hl. apply merkle_pairs_length in Hl. by rewrite Hl, length_merkle_pad, Nat.div2_double. Qed.

Lemma merkle_loop_fuel n : forall m l,
  length l <= n -> n <= m -> merkle_loop m l = merkle_loop n l.
Proof.
  induction n as [|n IH]; intros [|m] l Hl Hm; try lia; [done|..].
  - destruct l; [done|simpl in Hl; lia].
  - cbn [merkle_loop]. case_decide as Hd; [|done].
    destruct (merkle_pairs (merkle_pad l)) as [next|] eqn:E; [|done]. simpl.
    apply merkle_level_length in E. pose proof (div2_lt _ Hd). apply IH; lia.
Qed.

Lemma merkle_loop_stops n : forall l r,
  length l <= n -> merkle_loop n l = Ret r -> length r <= 1.
Proof.
  induction n as [|n IH]; intros l r Hl; simpl.
  - intros [= <-]. lia.
  - case_decide as Hd; [|intros [= <-]; lia].
    destruct (merkle_pairs (merkle_pad l)) as [next|] eqn:E; [|done]. simpl.
    apply merkle_level_length in E. pose proof (div2_lt _ Hd). apply IH. lia.
Qed.

(** The Merkle loop always stops: whatever budget of rounds above the number
    of leaves it is given, it ends with the same result, and with at most one
    leaf left. *)
Theorem merkle_loop_terminates (leaves : list string) (extra : nat) :
  merkle_loop (length leaves + extra) leaves = merkle_loop (length leaves) leaves
  /\ (merkle_loop (length leaves) leaves = Panic
      \/ exists r, merkle_loop (length leaves) leaves = Ret r /\ length r <= 1).
Proof.
  split; [apply merkle_loop_fuel; lia|].
  destruct (merkle_loop (length leaves) leaves) as [r|] eqn:E; [right|by left].
  exists r. split; [done|]. by eapply merkle_loop_stops.
Qed.

(** An odd level and the level with its last leaf repeated have the same root. *)
Lemma merkle_root_duplicate_last l x :
  last l = Some x -> Nat.odd (length l) = true -> 1 < length l ->
  cal_merkle_root (l ++ [x]) = cal_merkle_root l.
Proof.
  intros Hx Ho Hl. unfold cal_merkle_root.
  rewrite <- (merkle_loop_fuel (length l) (length (l ++ [x])) l) by (rewrite ?length_app; lia).
  rewrite length_app, Nat.add_comm. simpl.
  rewrite !decide_True by (rewrite ?length_app; simpl; lia).
  assert (merkle_pad (l ++ [x]) = merkle_pad l) as ->; [|done].
  unfold merkle_pad. rewrite last_snoc, Hx, Ho, length_app. simpl.
  by rewrite Nat.odd_add, Ho.
Qed.

(** *** Binding *)

Fixpoint digest_pairs (ds : list bytes) : list bytes :=
  match ds with
  | a :: b :: rest => Hasher_hash (a ++ b) :: digest_pairs rest
  | _ => []
  end.

(** The strings one level hashes. *)
Fixpoint pair_inputs (ds : list bytes) : list bytes :=
  match ds with
  | a :: b :: rest => (a ++ b) :: pair_inputs rest
  | _ => []
  end.

Fixpoint digest_loop (fuel : nat) (ds : list bytes) : list bytes :=
  match fuel with
  | O => ds
  | S fuel => if decide (1 < length ds) then digest_loop fuel (digest_pairs (merkle_pad ds)) else ds
  end.

(** The strings the whole computation hashes. *)
Fixpoint merkle_inputs (fuel : nat) (ds : list bytes) : list bytes :=
  match fuel with
  | O => []
  | S fuel =>
      if decide (1 < length ds)
      then pair_inputs (merkle_pad ds) ++ merkle_inputs fuel (digest_pairs (merkle_pad ds))
      else []
  end.

Lemma merkle_pad_map {A B} (f : A -> B) l : merkle_pad (map f l) = map f (merkle_pad l).
Proof.
  unfold merkle_pad. change (map f l) with (f <$> l). rewrite fmap_last, length_fmap.
  destruct (last l); simpl; [|done]. case_match; [|done]. by rewrite fmap_app.
Qed.

Lemma merkle_pad_inj {A} (l1 l2 : list A) :
  length l1 = length l2 -> merkle_pad l1 = merkle_pad l2 -> l1 = l2.
Proof.
  intros Hl. assert (Hp : forall l : list A, exists k, merkle_pad l = l ++ k).
  { intros l. unfold merkle_pad. destruct (last l); [|exists []; by rewrite app_nil_r].
    case_match; [by eexists|exists []; by rewrite app_nil_r]. }
  destruct (Hp l1) as [k1 ->], (Hp l2) as [k2 ->]. intros E. by apply app_inj_1 in E as [E _].
Qed.

Lemma merkle_pad_Forall {A} (P : A -> Prop) l : Forall P l -> Forall P (merkle_pad l).
Proof.
  unfold merkle_pad. destruct (last l) eqn:E; [|done]. case_match; [|done].
  intros Hl. apply Forall_app_2; [done|]. apply last_Some in E as [l' ->].
  apply Forall_app in Hl as [_ Hl]. done.
Qed.

Lemma merkle_pairs_digests `{!CryptoLaws} ds :
  merkle_pairs (map hex_encode ds) = Ret (map hex_encode (digest_pairs ds)).
Proof.
  induction ds as [ds IH] using (induction_ltof1 _ (@length _)). unfold ltof in IH.
  destruct ds as [|a [|b rest]]; [done..|]. simpl. rewrite !hex_round_trip. simpl.
  rewrite IH by (simpl; lia). done.
Qed.

Lemma merkle_loop_digests `{!CryptoLaws} n : forall ds,
  merkle_loop n (map hex_encode ds) = Ret (map hex_encode (digest_loop n ds)).
Proof.
  induction n as [|n IH]; intros ds; [done|]. cbn [merkle_loop digest_loop].
  rewrite length_map. case_decide; [|done].
  rewrite merkle_pad_map, merkle_pairs_digests. simpl. apply IH.
Qed.

Lemma digest_pairs_length32 `{!CryptoLaws} ds : Forall (fun d => length d = 32) (digest_pairs ds).
Proof.
  induction ds as [ds IH] using (induction_ltof1 _ (@length _)). unfold ltof in IH.
  destruct ds as [|a [|b rest]]; [constructor..|]. simpl. constructor; [apply sha3_256_length|].
  apply IH. simpl. lia.
Qed.

Lemma digest_pairs_inj ds1 : forall ds2,
  length ds1 = length ds2 -> Nat.Even (length ds1) ->
  Forall (fun d => length d = 32) ds1 -> Forall (fun d => length d = 32) ds2 ->
  collision_free (pair_inputs ds1 ++ pair_inputs ds2) ->
  digest_pairs ds1 = digest_pairs ds2 -> ds1 = ds2.
Proof.
  induction ds1 as [ds1 IH] using (induction_ltof1 _ (@length _)). unfold ltof in IH.
  intros ds2 Hl He F1 F2 Hcf E.
  destruct ds1 as [|a1 [|b1 r1]]; [by destruct ds2|simpl in He; destruct He; lia|].
  destruct ds2 as [|a2 [|b2 r2]]; [simpl in Hl; lia..|]. simpl in E, Hcf, Hl. injection E as E0 E1.
  inversion_clear F1 as [|? ? La1 F1']. inversion_clear F1' as [|? ? Lb1 Fr1].
  inversion_clear F2 as [|? ? La2 F2']. inversion_clear F2' as [|? ? Lb2 Fr2].
  apply Hcf in E0; [|set_solver..]. apply app_inj_1 in E0 as [-> ->]; [|congruence].
  do 2 f_equal. apply IH; try done; [simpl; lia|lia| |].
  - destruct He as [k Hk]. exists (pred k). simpl in Hk. lia.
  - eapply collision_free_sub; [|exact Hcf]. intros a. set_solver.
Qed.

Lemma digest_pairs_length ds : length (digest_pairs ds) = Nat.div2 (length ds).
Proof.
  induction ds as [ds IH] using (induction_ltof1 _ (@length _)). unfold ltof in IH.
  destruct ds as [|a [|b rest]]; [done..|]. simpl. rewrite IH; simpl; lia.
Qed.

Lemma digest_loop_inj `{!CryptoLaws} n : forall ds1 ds2,
  length ds1 = length ds2 ->
  Forall (fun d => length d = 32) ds1 -> Forall (fun d => length d = 32) ds2 ->
  collision_free (merkle_inputs n ds1 ++ merkle_inputs n ds2) ->
  digest_loop n ds1 = digest_loop n ds2 -> ds1 = ds2.
Proof.
  induction n as [|n IH]; intros ds1 ds2 Hl F1 F2 Hcf E; [done|].
  cbn [digest_loop merkle_inputs] in *. rewrite <- Hl in *.
  case_decide; [|done]. apply merkle_pad_inj; [done|].
  assert (Hlp : length (merkle_pad ds1) = length (merkle_pad ds2)) by (by rewrite !length_merkle_pad, Hl).
  apply digest_pairs_inj; [done|rewrite length_merkle_pad; eexists; done|
    by apply merkle_pad_Forall..| |].
  - eapply collision_free_sub; [|exact Hcf]. intros a. set_solver.
  - apply IH; [by rewrite !digest_pairs_length, Hlp|apply digest_pairs_length32..| |done].
    eapply collision_free_sub; [|exact Hcf]. intros a. set_solver.
Qed.

(** The Merkle root binds the list of leaves: two lists of digests of the
    same length with the same root are equal, as long as no two of the strings
    hashed while computing the two roots collide. *)
Theorem merkle_root_binds `{!CryptoLaws} (ds1 ds2 : list bytes) :
  length ds1 = length ds2 ->
  Forall (fun d => length d = 32) ds1 -> Forall (fun d => length d = 32) ds2 ->
  collision_free (merkle_inputs (length ds1) ds1 ++ merkle_inputs (length ds2) ds2) ->
  cal_merkle_root (map hex_encode ds1) = cal_merkle_root (map hex_encode ds2) ->
  ds1 = ds2.
Proof.
  intros Hl F1 F2 Hcf E. unfold cal_merkle_root in E.
  rewrite !length_map, !merkle_loop_digests in E. simpl in E. injection E as E.
  rewrite <- Hl in *.
  apply (digest_loop_inj (length ds1)); [done..|].
  assert (Hs : forall ds, length ds = length ds1 -> length (digest_loop (length ds1) ds) <= 1
                          /\ (ds <> [] -> digest_loop (length ds1) ds <> [])).
  { intros ds Hd. split.
    - pose proof (merkle_loop_digests (length ds1) ds) as Hm. apply merkle_loop_stops in Hm;
        [by rewrite length_map in Hm|by rewrite length_map, Hd].
    - clear -H0. generalize (length ds1) as n. intros n. revert ds. induction n as [|n IH]; intros ds Hne; [done|].
      cbn [digest_loop]. case_decide as Hlt; [|done]. apply IH. intros En%(f_equal length).
      rewrite digest_pairs_length, length_merkle_pad, Nat.div2_double in En. simpl in En.
      destruct (length ds); [lia|discriminate]. }
  destruct (Hs ds1 eq_refl) as [L1 N1], (Hs ds2 (eq_sym Hl)) as [L2 N2].
  destruct (decide (ds1 = [])) as [->|Hn1]; [by destruct ds2|].
  assert (Hn2 : ds2 <> []) by (intros ->; by destruct ds1).
  specialize (N1 Hn1). specialize (N2 Hn2).
  destruct (digest_loop _ ds1) as [|d1 [|]], (digest_loop _ ds2) as [|d2 [|]]; simpl in *; try lia; try done.
  f_equal. apply (f_equal hex_decode) in E. rewrite !hex_round_trip in E. by injection E.
Qed.

End merkle_facts.
