(* ===== verification/Blockchain.v ===== *)
(** * The chain

    src/src/blockchain/mod.rs: the bounded window of recent blocks and the index
    of every transaction ever included. *)

From S2P Require Export Block.
Local Open Scope rust_scope.

Record Blockchain {F : Type} := mkBlockchain {
  blocks : list (Block F);
  transaction_index : gset string;
  max_blocks_in_memory : nat
}.
Arguments Blockchain : clear implicits.
Arguments mkBlockchain {F}.

Inductive BlockChainError :=
  | BcInvalidBlock
  | ParentHashMismatch
  | IndexMismatch
  | EpochError
  | SlotError
  | DuplicateBlocksReceived
  | TransactionExists
  | IndexTooSmall.

Section blockchain.
Context {F : Type} `{F64 F} `{Crypto} `{TxSerde F} `{BlockSerde}.
Implicit Types (bc : Blockchain F) (b : Block F).

Definition index_insert (index : gset string) b : gset string :=
  fold_left (fun s x => {[x]} ∪ s) (tx_hashes b) index.

Definition Blockchain_new (genesis_block : Block F) : Blockchain F :=
  mkBlockchain [genesis_block] (index_insert ∅ genesis_block) 100.

Definition pop_block bc : Blockchain F * option (Block F) :=
  match last (blocks bc) with
  | None => (bc, None)
  | Some block =>
      (mkBlockchain (take (length (blocks bc) - 1) (blocks bc))
         (fold_left (fun s x => s ∖ {[x]}) (tx_hashes block) (transaction_index bc))
         (max_blocks_in_memory bc), Some block)
  end.

Definition get_block bc (height : Z) : option (Block F) :=
  head (filter (fun b => h_index (header b) = height) (blocks bc)).

Definition exist_transaction bc (hash : string) : bool :=
  bool_decide (hash ∈ transaction_index bc).

(** [unwrap()] of the last block panics on an empty chain. *)
Definition get_last_block bc : Outcome (Block F) := expect (last (blocks bc)).

Definition get_last_hash bc : Outcome string :=
  let! b := get_last_block bc in Ret (h_hash (header b)).

Definition get_last_index bc : Outcome Z :=
  let! b := get_last_block bc in Ret (h_index (header b)).

Definition get_last_epoch_slot bc : Outcome (Z * Z) :=
  let! b := get_last_block bc in Ret (h_epoch (header b), h_slot (header b)).

Definition add_block bc b : Outcome (Blockchain F * Result unit BlockChainError) :=
  match blocks bc with
  | [] =>
      let! ok := Block_verify b in
      if negb ok then Ret (bc, Err BcInvalidBlock) else
      Ret (mkBlockchain [b] (index_insert (transaction_index bc) b) (max_blocks_in_memory bc), Ok ())
  | _ =>
      let! last_block := get_last_block bc in
      let lh := header last_block in
      if (h_index (header b) <? u64_add (h_index lh) 1)%Z then Ret (bc, Err IndexTooSmall) else
      let! ok := Block_verify b in
      if negb ok then Ret (bc, Err BcInvalidBlock) else
      if decide (h_hash lh = h_hash (header b)) then Ret (bc, Err DuplicateBlocksReceived) else
      if decide (h_hash lh <> h_parent_hash (header b)) then Ret (bc, Err ParentHashMismatch) else
      if decide (u64_add (h_index lh) 1 <> h_index (header b)) then Ret (bc, Err IndexMismatch) else
      if (h_epoch (header b) <? h_epoch lh)%Z then Ret (bc, Err EpochError) else
      if bool_decide (h_epoch lh = h_epoch (header b)) && (h_slot (header b) <? h_slot lh)%Z
      then Ret (bc, Err SlotError) else
      if existsb (exist_transaction bc) (tx_hashes b) then Ret (bc, Err TransactionExists) else
      let index := index_insert (transaction_index bc) b in
      let pushed := blocks bc ++ [b] in
      let kept := if decide (max_blocks_in_memory bc < length pushed) then drop 1 pushed else pushed in
      Ret (mkBlockchain kept index (max_blocks_in_memory bc), Ok ())
  end.

Definition get_last_slot_block bc : Outcome (list (Block F)) :=
  let! (epoch, slot) := get_last_epoch_slot bc in
  Ret (rev (take_while (fun b => bool_decide (h_slot (header b) = slot)
                                 && bool_decide (h_epoch (header b) = epoch)) (rev (blocks bc)))).

Definition get_last_epoch_block bc : Outcome (list (Block F)) :=
  let! (epoch, _) := get_last_epoch_slot bc in
  Ret (rev (take_while (fun b => bool_decide (h_epoch (header b) = epoch)) (rev (blocks bc)))).

(** ** The chain invariant *)

(** [b] extends [a]: what [add_block] requires of a child. *)
Definition extends (a b : Block F) : Prop :=
  h_parent_hash (header b) = h_hash (header a)
  /\ h_hash (header b) <> h_hash (header a)
  /\ h_index (header b) = u64_add (h_index (header a)) 1
  /\ (h_epoch (header a) <= h_epoch (header b))%Z
  /\ (h_epoch (header a) = h_epoch (header b) -> h_slot (header a) <= h_slot (header b))%Z.

Record chain_ok bc : Prop := {
  ck_linked : forall i a b, blocks bc !! i = Some a -> blocks bc !! S i = Some b -> extends a b;
  ck_indexed : forall b h, b ∈ blocks bc -> h ∈ tx_hashes b -> h ∈ transaction_index bc;
  ck_disjoint : forall i j a b h, blocks bc !! i = Some a -> blocks bc !! j = Some b ->
      h ∈ tx_hashes a -> h ∈ tx_hashes b -> i = j;
  ck_window : length (blocks bc) <= max_blocks_in_memory bc;
  ck_capacity : 1 <= max_blocks_in_memory bc
}.

Lemma index_insert_spec b : forall index h, h ∈ index_insert index b <-> h ∈ index \/ h ∈ tx_hashes b.
Proof.
  unfold index_insert. induction (tx_hashes b) as [|x l IH]; intros index h; simpl; [set_solver|].
  rewrite IH. set_solver.
Qed.

Lemma index_remove_spec (l : list string) : forall (index : gset string) h,
  h ∈ fold_left (fun s x => s ∖ {[x]}) l index <-> h ∈ index /\ h ∉ l.
Proof. induction l as [|x l IH]; intros index h; simpl; [set_solver|]. rewrite IH. set_solver. Qed.

Lemma chain_ok_single b index n : 1 <= n -> chain_ok (mkBlockchain [b] (index_insert index b) n).
Proof.
  intros Hn. split; simpl; try lia.
  - intros [|i] a c Ha Hb; simpl in *; try done.
  - intros c h Hb Hh. apply index_insert_spec. right. by apply list_elem_of_singleton in Hb as ->.
  - intros [|i] [|j] a c h Ha Hb; simpl in *; done.
Qed.

Lemma chain_ok_new g : chain_ok (Blockchain_new g).
Proof. apply chain_ok_single. lia. Qed.

(** What it takes for a block to be accepted on a non-empty chain. *)
Definition acceptable bc (lb b : Block F) : Prop :=
  Block_verify b = Ret true /\ extends lb b /\ (forall h, h ∈ tx_hashes b -> h ∉ transaction_index bc).

Definition appended bc b : Blockchain F :=
  let pushed := blocks bc ++ [b] in
  mkBlockchain (if decide (max_blocks_in_memory bc < length pushed) then drop 1 pushed else pushed)
    (index_insert (transaction_index bc) b) (max_blocks_in_memory bc).

Lemma exists_tx_false bc b :
  existsb (exist_transaction bc) (tx_hashes b) = false
  <-> forall h, h ∈ tx_hashes b -> h ∉ transaction_index bc.
Proof.
  rewrite <- not_true_iff_false, existsb_exists. split.
  - intros Hn h Hh Hi. apply Hn. exists h. split; [by apply list_elem_of_In|].
    by apply bool_decide_eq_true.
  - intros Hall (h & Hh & Hi). apply bool_decide_eq_true in Hi. eapply Hall; [|done].
    by apply list_elem_of_In.
Qed.

Lemma add_block_accept bc lb b :
  last (blocks bc) = Some lb -> acceptable bc lb b ->
  add_block bc b = Ret (appended bc b, Ok ()).
Proof.
  intros Hl (Hv & (Hp & Hh & Hi & He & Hs) & Ht). unfold add_block, get_last_block.
  destruct (blocks bc) as [|b0 l] eqn:E; [done|]. rewrite <- E in *. rewrite Hl. simpl.
  rewrite Hi. destruct (Z.ltb_spec (u64_add (h_index (header lb)) 1) (u64_add (h_index (header lb)) 1)); [lia|].
  rewrite Hv. simpl. rewrite decide_False by congruence. rewrite decide_False by naive_solver.
  rewrite decide_False by naive_solver.
  destruct (Z.ltb_spec (h_epoch (header b)) (h_epoch (header lb))); [lia|].
  replace (_ && _) with false.
  2:{ symmetry. apply andb_false_iff. destruct (decide (h_epoch (header lb) = h_epoch (header b))).
      - right. apply Z.ltb_ge. auto.
      - left. by apply bool_decide_false. }
  apply exists_tx_false in Ht. rewrite Ht. done.
Qed.

Lemma add_block_inv bc b bc' r :
  add_block bc b = Ret (bc', r) ->
  match r with
  | Err _ => bc' = bc
  | Ok _ =>
      match last (blocks bc) with
      | None => Block_verify b = Ret true
                /\ bc' = mkBlockchain [b] (index_insert (transaction_index bc) b) (max_blocks_in_memory bc)
      | Some lb => acceptable bc lb b /\ bc' = appended bc b
      end
  end.
Proof.
  unfold add_block, get_last_block.
  destruct (blocks bc) as [|b0 l] eqn:E; [|rewrite <- E in *; clear E b0 l].
  { simpl. destruct (Block_verify b) as [[]|]; simpl; [..|done]; by intros [= <- <-]. }
  destruct (last (blocks bc)) as [lb|] eqn:El; [|done]. simpl.
  case_match eqn:Q1; [by intros [= <- <-]|].
  destruct (Block_verify b) as [[]|] eqn:Hv; simpl; [|by intros [= <- <-]|done].
  case_decide as Q2; [by intros [= <- <-]|]. case_decide as Q3; [by intros [= <- <-]|].
  case_decide as Q4; [by intros [= <- <-]|]. case_match eqn:Q5; [by intros [= <- <-]|].
  case_match eqn:Q6; [by intros [= <- <-]|]. destruct (existsb _ _) eqn:Q7; [by intros [= <- <-]|].
  intros [= <- <-]. split; [|done]. pose proof (proj1 (exists_tx_false _ _) Q7) as Hfresh.
  apply Z.ltb_ge in Q5. split_and!; try done. split_and!; try done.
  intros Heq. rewrite bool_decide_true in Q6 by done. simpl in Q6. by apply Z.ltb_ge in Q6.
Qed.

(** The complete behaviour of [add_block] on a non-empty chain: the block is
    appended exactly when it verifies on its own, extends the last block (parent
    hash, a fresh hash, the next index, an epoch that does not decrease and a
    slot that does not decrease within an epoch) and none of its transactions
    was ever included before; in every other case that returns, the chain is
    left unchanged and an error is reported. *)
Theorem add_block_correct bc b (lb : Block F) (Hlast : last (blocks bc) = Some lb) :
  (add_block bc b = Ret (appended bc b, Ok ()) <-> acceptable bc lb b)
  /\ (forall bc' r, add_block bc b = Ret (bc', r) -> r <> Ok () -> bc' = bc).
Proof.
  split.
  - split; [|by apply add_block_accept]. intros E%add_block_inv. rewrite Hlast in E. tauto.
  - intros bc' r E Hr. apply add_block_inv in E. destruct r as [[]|]; [done|done].
Qed.

Lemma lookup_drop1 (l : list (Block F)) i : drop 1 l !! i = l !! S i.
Proof. by rewrite lookup_drop. Qed.

Lemma chain_ok_pushed bc lb b :
  chain_ok bc -> last (blocks bc) = Some lb -> acceptable bc lb b ->
  let l := blocks bc ++ [b] in
  (forall i a c, l !! i = Some a -> l !! S i = Some c -> extends a c)
  /\ (forall c h, c ∈ l -> h ∈ tx_hashes c -> h ∈ index_insert (transaction_index bc) b)
  /\ (forall i j a c h, l !! i = Some a -> l !! j = Some c -> h ∈ tx_hashes a -> h ∈ tx_hashes c -> i = j).
Proof.
  intros [Hlink Hidx Hdis _ _] Hl (_ & Hext & Hfresh) l. split_and!.
  - intros i a c Ha Hc. apply lookup_snoc_Some in Hc as [[Hi Hc]|[Hi <-]].
    + apply (Hlink i); [|done]. unfold l in Ha. rewrite lookup_app_l in Ha by lia. done.
    + unfold l in Ha. rewrite lookup_app_l in Ha by lia. rewrite last_lookup, <- Hi in Hl. simpl in Hl. by simplify_eq.
  - intros c h Hc Hh. apply index_insert_spec. apply elem_of_app in Hc as [Hc|Hc%list_elem_of_singleton].
    + left. by eapply Hidx.
    + right. by subst.
  - intros i j a c h Ha Hc Hha Hhc.
    apply lookup_snoc_Some in Ha as [[Hi Ha]|[Hi <-]], Hc as [[Hj Hc]|[Hj <-]].
    + by eapply Hdis.
    + exfalso. apply (Hfresh h Hhc). apply (Hidx a h); [|done]. by eapply list_elem_of_lookup_2.
    + exfalso. apply (Hfresh h Hha). apply (Hidx c h); [|done]. by eapply list_elem_of_lookup_2.
    + lia.
Qed.

Lemma appended_ok bc lb b :
  chain_ok bc -> last (blocks bc) = Some lb -> acceptable bc lb b -> chain_ok (appended bc b).
Proof.
  intros Hok Hl Ha. destruct (chain_ok_pushed bc lb b Hok Hl Ha) as (Hlink & Hidx & Hdis).
  destruct Hok as [_ _ _ Hw Hc]. unfold appended. split; simpl; try done.
  - intros i a c. case_decide; [rewrite !lookup_drop1|]; apply Hlink.
  - intros c h Hc'. apply Hidx. case_decide; [|done]. destruct (blocks bc ++ [b]); [done|by right].
  - intros i j a c h. case_decide; [rewrite !lookup_drop1|]; intros; [|by eapply Hdis].
    enough (S i = S j) by lia. by eapply Hdis.
  - case_decide; [rewrite length_drop|]; rewrite length_app in *; simpl in *; lia.
Qed.

Lemma add_block_chain_ok bc b bc' r :
  chain_ok bc -> add_block bc b = Ret (bc', r) -> chain_ok bc'.
Proof.
  intros Hok E. apply add_block_inv in E. destruct r as [[]|e]; [|by subst].
  destruct (last (blocks bc)) as [lb|] eqn:El.
  - destruct E as [Ha ->]. by eapply appended_ok.
  - destruct E as [_ ->]. destruct Hok as [_ _ _ _ Hc]. by apply chain_ok_single.
Qed.

(** [add_block] preserves the chain invariant: consecutive blocks of the
    window extend one another, every transaction of the window is indexed, no
    transaction occurs in two blocks, and the window never exceeds its bound. *)
Theorem add_block_preserves_chain bc b bc' r :
  chain_ok bc -> add_block bc b = Ret (bc', r) -> chain_ok bc'.
Proof. apply add_block_chain_ok. Qed.

(** [pop_block] undoes the last block and keeps the invariant: the remaining
    blocks keep their transactions indexed, and the removed block's transactions
    can be included again. *)
Theorem pop_block_preserves_chain bc bc' b :
  chain_ok bc -> pop_block bc = (bc', Some b) ->
  chain_ok bc' /\ blocks bc = blocks bc' ++ [b]
  /\ (forall h, h ∈ tx_hashes b -> h ∉ transaction_index bc').
Proof.
  intros [Hlink Hidx Hdis Hw Hc]. unfold pop_block.
  destruct (last (blocks bc)) as [lb|] eqn:El; [|done]. intros [= <- <-]. simpl.
  apply last_Some in El as [l El]. rewrite El in *.
  rewrite length_app. simpl. replace (length l + 1 - 1) with (length l) by lia. rewrite take_app_length.
  split_and!; [split; simpl| done |intros h Hh; rewrite index_remove_spec; tauto].
  - intros i a c Ha Hb. apply (Hlink i); rewrite lookup_app_l; try done; by eapply lookup_lt_Some.
  - intros c h Hcl Hh. apply index_remove_spec. split; [eapply Hidx; [|done]; set_solver|].
    intros Hlb. apply list_elem_of_lookup in Hcl as [i Hi].
    assert (i = length l); [|apply lookup_lt_Some in Hi; lia].
    eapply Hdis; [rewrite lookup_app_l; [exact Hi|by eapply lookup_lt_Some]|by apply list_lookup_middle|done..].
  - intros i j a c h Ha Hb. apply (Hdis i j a c h); rewrite lookup_app_l; try done; by eapply lookup_lt_Some.
  - rewrite length_app in Hw. lia.
  - done.
Qed.

(** ** No transaction is included twice *)

Inductive add_step : Blockchain F -> Blockchain F -> Prop :=
  | as_add bc b bc' r : add_block bc b = Ret (bc', r) -> add_step bc bc'.

Lemma add_step_index bc bc' h :
  rtc add_step bc bc' -> h ∈ transaction_index bc -> h ∈ transaction_index bc'.
Proof.
  induction 1 as [|bc bc1 bc' [bc0 b bc0' r E] _ IH]; [done|]. intros Hh. apply IH.
  apply add_block_inv in E. destruct r as [[]|]; [|by subst].
  destruct (last (blocks bc0)); destruct E as [_ ->]; apply index_insert_spec; by left.
Qed.

Lemma add_block_nonempty bc b bc' r :
  blocks bc <> [] -> chain_ok bc -> add_block bc b = Ret (bc', r) -> blocks bc' <> [].
Proof.
  intros Hne Hok E. apply add_block_inv in E. destruct r as [[]|]; [|by subst].
  destruct (last (blocks bc)) eqn:El; [|by apply last_None in El].
  destruct E as [_ ->]. simpl. destruct Hok as [_ _ _ Hw Hc].
  case_decide as Hd; [|by destruct (blocks bc)]. rewrite length_app in Hd. simpl in Hd.
  intros Hn%(f_equal length). rewrite length_drop, length_app in Hn. simpl in Hn.
  destruct (blocks bc); [done|simpl in *; lia].
Qed.

(** Two blocks accepted at different times share no transaction, even when the
    first one has long left the in-memory window: the transaction index outlives
    the blocks. *)
Theorem no_transaction_included_twice (bc0 bc1 bc2 bc3 : Blockchain F) (b1 b2 : Block F) (h : string) :
  chain_ok bc0 -> blocks bc0 <> [] ->
  add_block bc0 b1 = Ret (bc1, Ok ()) ->
  rtc add_step bc1 bc2 ->
  add_block bc2 b2 = Ret (bc3, Ok ()) ->
  h ∈ tx_hashes b1 -> h ∉ tx_hashes b2.
Proof.
  intros Hok Hne E1 Hsteps E2 H1h H2h.
  assert (Hin : h ∈ transaction_index bc1).
  { apply add_block_inv in E1. destruct (last (blocks bc0)); destruct E1 as [_ ->];
      apply index_insert_spec; by right. }
  assert (Hne2 : blocks bc2 <> []).
  { pose proof (add_block_nonempty _ _ _ _ Hne Hok E1) as Hne1.
    assert (Hok1 : chain_ok bc1) by (by eapply add_block_chain_ok).
    clear -Hsteps Hne1 Hok1. induction Hsteps as [|a c d [bc b bc' r E] _ IH]; [done|].
    apply IH; [by eapply add_block_nonempty|by eapply add_block_chain_ok]. }
  apply add_block_inv in E2. destruct (last (blocks bc2)) eqn:El; [|by apply last_None in El].
  destruct E2 as [(_ & _ & Hf) _]. apply (Hf h H2h). by eapply add_step_index.
Qed.

(** ** Blocks of the last epoch *)

Lemma take_while_filter (k : Z) (r : list (Block F)) :
  (forall i a c, r !! i = Some a -> r !! S i = Some c -> (h_epoch (header c) <= h_epoch (header a))%Z) ->
  (forall a, r !! 0 = Some a -> (h_epoch (header a) <= k)%Z) ->
  take_while (fun b => bool_decide (h_epoch (header b) = k)) r
  = filter (fun b => h_epoch (header b) = k) r.
Proof.
  revert k. induction r as [|x r IH]; intros k Hs Hh; [done|]. cbn [take_while].
  assert (Hx : (h_epoch (header x) <= k)%Z) by (by apply Hh).
  assert (Hs' : forall i a c, r !! i = Some a -> r !! S i = Some c -> (h_epoch (header c) <= h_epoch (header a))%Z)
    by (intros i; apply (Hs (S i))).
  assert (Hr : forall a, r !! 0 = Some a -> (h_epoch (header a) <= h_epoch (header x))%Z)
    by (intros a Ha; by apply (Hs 0 x a)).
  destruct (decide (h_epoch (header x) = k)) as [E|E].
  - rewrite bool_decide_true, filter_cons_True by done. f_equal. apply IH; [done|].
    intros a Ha. specialize (Hr a Ha). lia.
  - rewrite bool_decide_false, filter_cons_False by done. symmetry. apply list_filter_none.
    assert (Hlt : (h_epoch (header x) < k)%Z) by lia. clear -Hs' Hr Hlt.
    revert x Hr Hlt. induction r as [|y r IH]; intros x Hr Hlt; constructor.
    + specialize (Hr y eq_refl). lia.
    + specialize (Hr y eq_refl). apply (IH (fun i => Hs' (S i)) y); [|lia].
      intros a Ha. by apply (Hs' 0 y a).
Qed.

Lemma filter_rev (P : Block F -> Prop) `{!forall x, Decision (P x)} (l : list (Block F)) :
  filter P (rev l) = rev (filter P l).
Proof.
  induction l as [|x l IH]; [done|]. simpl rev. rewrite filter_app, IH.
  destruct (decide (P x)).
  - rewrite !filter_cons_True by done. done.
  - rewrite !filter_cons_False by done. by rewrite app_nil_r.
Qed.

(** On a well-formed chain, the blocks handed to the end-of-epoch settlement are
    exactly the blocks of the window whose epoch is that of the last block, in
    chain order: none of an earlier epoch, and (window permitting) none missing. *)
Theorem last_epoch_blocks bc (lb : Block F) :
  chain_ok bc -> last (blocks bc) = Some lb ->
  get_last_epoch_block bc
  = Ret (filter (fun b => h_epoch (header b) = h_epoch (header lb)) (blocks bc)).
Proof.
  intros Hok Hl. unfold get_last_epoch_block, get_last_epoch_slot, get_last_block.
  rewrite Hl. simpl. f_equal.
  assert (Hr : rev (blocks bc) = reverse (blocks bc)) by apply rev_alt.
  rewrite take_while_filter.
  - by rewrite filter_rev, rev_involutive.
  - intros i a c Ha Hc. rewrite Hr in *. destruct Hok as [Hlink _ _ _ _].
    apply reverse_lookup_Some in Ha as [Ha Hia], Hc as [Hc Hic].
    replace (length (blocks bc) - S i) with (S (length (blocks bc) - S (S i))) in Ha by lia.
    destruct (Hlink _ _ _ Hc Ha) as (_ & _ & _ & He & _). done.
  - intros a Ha. rewrite Hr in Ha. apply reverse_lookup_Some in Ha as [Ha Hia]. rewrite last_lookup in Hl.
    replace (pred (length (blocks bc))) with (length (blocks bc) - 1) in Hl by lia. simplify_eq. lia.
Qed.

(** ** A block's transactions can be padded under the same header *)

(** The block with its last transaction repeated. *)
Definition repeat_last_tx b : Block F :=
  mkBlock (header b)
    (mkBody (transactions (body b) ++ option_list (last (transactions (body b)))) (paths (body b))).

Lemma all_verify_app l1 l2 :
  all_verify l1 = Ret true -> all_verify (l1 ++ l2) = all_verify l2.
Proof.
  induction l1 as [|t l1 IH]; simpl; [done|]. destruct (Transaction_verify t) as [[]|]; simpl; done.
Qed.

Lemma all_verify_elem l t : all_verify l = Ret true -> t ∈ l -> Transaction_verify t = Ret true.
Proof.
  induction l as [|x l IH]; simpl; [set_solver|].
  destruct (Transaction_verify x) as [[]|] eqn:E; simpl; try done.
  intros Hl [->|Ht]%elem_of_cons; auto.
Qed.

Lemma verify_base_true b : verify_base b = Ret true <->
  length (paths (body b)) <= length (transactions (body b))
  /\ all_verify (transactions (body b)) = Ret true
  /\ cal_merkle_root (tx_hashes b) = Ret (h_merkle_root (header b))
  /\ cal_path_root (paths (body b)) = Ret (h_path_root (header b))
  /\ h_hash (header b) = get_hash (header b).
Proof.
  unfold verify_base. split.
  - case_decide; [done|]. destruct (all_verify _) as [[]|]; simpl; try done.
    destruct (cal_merkle_root (tx_hashes b)); simpl; [|done]. case_decide; [done|].
    destruct (cal_path_root _); simpl; [|done]. case_decide; [done|]. case_decide; [done|].
    intros _. simplify_eq. split_and!; try done; [lia|by f_equal..].
  - intros (Hl & -> & -> & -> & Hh). rewrite decide_False by lia. simpl.
    rewrite !decide_False by naive_solver. done.
Qed.

Lemma repeat_last_tx_hashes b h : h ∈ tx_hashes (repeat_last_tx b) <-> h ∈ tx_hashes b.
Proof.
  unfold tx_hashes, repeat_last_tx; simpl. rewrite map_app, elem_of_app.
  destruct (last (transactions (body b))) as [t|] eqn:E; simpl; [|set_solver].
  split; [|by left]. intros [Hh|Hh]; [done|]. apply list_elem_of_singleton in Hh as ->.
  apply list_elem_of_fmap_2. apply last_Some in E as [l ->]. set_solver.
Qed.

Lemma repeat_last_tx_verify b :
  Nat.odd (length (transactions (body b))) = true -> 1 < length (transactions (body b)) ->
  Block_verify b = Ret true -> Block_verify (repeat_last_tx b) = Ret true.
Proof.
  unfold Block_verify. rewrite !verify_base_true. intros Ho Hl (Hp & Hv & Hm & Hpr & Hh).
  destruct (last (transactions (body b))) as [t|] eqn:E.
  2:{ apply last_None in E. by rewrite E in Hl; simpl in Hl; lia. }
  unfold repeat_last_tx, tx_hashes in *; simpl. rewrite E. simpl. split_and!; try done.
  - rewrite length_app. lia.
  - rewrite all_verify_app by done. simpl. rewrite (all_verify_elem _ t Hv); [done|].
    apply last_Some in E as [l ->]. set_solver.
  - rewrite map_app. simpl. rewrite merkle_root_duplicate_last; [done| |by rewrite length_map..].
    change (map tx_hash (transactions (body b))) with (tx_hash <$> transactions (body b)).
    by rewrite fmap_last, E.
Qed.

(** The header does not determine the body: whenever the chain accepts a block
    with an odd number of transactions, at least three, it accepts in the same
    state the block with the same header (hence the same hash) in which the last
    transaction occurs twice.  The Merkle tree completes an odd level by repeating
    its last leaf, and the duplicate check looks only at earlier blocks. *)
Theorem add_block_accepts_repeated_tx bc b (lb : Block F) :
  last (blocks bc) = Some lb ->
  Nat.odd (length (transactions (body b))) = true -> 1 < length (transactions (body b)) ->
  add_block bc b = Ret (appended bc b, Ok ()) ->
  add_block bc (repeat_last_tx b) = Ret (appended bc (repeat_last_tx b), Ok ())
  /\ header (repeat_last_tx b) = header b
  /\ length (transactions (body (repeat_last_tx b))) = S (length (transactions (body b))).
Proof.
  intros Hl Ho Hgt E. apply add_block_inv in E. rewrite Hl in E. destruct E as [(Hv & He & Hf) _].
  split_and!; [|done|].
  - apply (add_block_accept _ lb); [done|]. split_and!; [by apply repeat_last_tx_verify|done|].
    intros h Hh. apply (Hf h). by apply repeat_last_tx_hashes.
  - unfold repeat_last_tx; simpl. destruct (last (transactions (body b))) eqn:El; simpl.
    + rewrite length_app. simpl. lia.
    + apply last_None in El. rewrite El in Hgt. simpl in Hgt. lia.
Qed.

(** [Block::new] and [verify] agree: a block that [Block::new] returns passes
    [verify], and it fails exactly on a body with more path records than
    transactions or with a transaction that does not verify. *)
Theorem block_new_verifies now index epoch slot parent (bd : Body F) (w : Wallet) r :
  Block_new now index epoch slot parent bd w = Ret r ->
  match r with
  | Ok b => Block_verify b = Ret true /\ body b = bd /\ h_miner (header b) = address w
  | Err InvalidBlock => length (transactions bd) < length (paths bd)
  | Err InvalidBlockTransactions => all_verify (transactions bd) = Ret false
  | Err _ => False
  end.
Proof.
  unfold Block_new. case_decide; [by intros [= <-]|].
  destruct (all_verify (transactions bd)) as [[]|] eqn:Ev; simpl; [|by intros [= <-]|done].
  destruct (cal_merkle_root _) eqn:Em; simpl; [|done].
  destruct (cal_path_root _) eqn:Ep; simpl; [|done]. intros [= <-]. simpl. split_and!; try done.
  apply verify_base_true. simpl. split_and!; try done. lia.
Qed.

End blockchain.
