(* ===== verification/Consensus.v ===== *)
(** * The consensus interface

    src/src/consensus/mod.rs: validators, balance deltas, the [Consensus] trait
    and the combination of RANDAO seeds.  The trait is the class [Consensus];
    each protocol is an instance. *)

From Stdlib Require Import Reals Lra.
From S2P Require Export Blockchain.
Local Open Scope rust_scope.

Inductive ConsensusType := POS | TopoStake | POW | MINOTAUR.

#[export] Instance ConsensusType_eq_dec : EqDecision ConsensusType.
Proof. solve_decision. Defined.

(** [impl Display for ConsensusType]. *)
Definition ConsensusType_fmt (c : ConsensusType) : string :=
  match c with
  | POS => "pos"
  | TopoStake => "topostake"
  | POW => "pow"
  | MINOTAUR => "minotaur"
  end.

Record Validator {F : Type} := mkValidator {
  v_address : string;
  v_stake : F;
  v_hash_power : F
}.
Arguments Validator : clear implicits.
Arguments mkValidator {F}.

Record BalanceDelta {F : Type} := mkBalanceDelta {
  bd_address : string;
  bd_amount : F
}.
Arguments BalanceDelta : clear implicits.
Arguments mkBalanceDelta {F}.

Inductive ValidatorError := ValidatorJSONError | NOValidatorError | NoWinner.

Record RandaoSeed := mkRandaoSeed {
  rs_address : string;
  rs_seed : bytes;
  rs_signature : string
}.

(** The random generator (rand's [StdRng] seeded with 32 bytes): the first draw
    of [gen_range(0.0..hi)] and of [gen_range(0..n)].  Both panic on an empty
    range, which the callers' definitions write out. *)
Class Rng (F : Type) := {
  gen_range_f64 : bytes -> F -> F;
  gen_range_usize : bytes -> nat -> nat
}.

(** A draw lies in its half-open range. *)
Class RngLaws `{Rng R} : Prop := {
  gen_range_f64_bounds seed hi : (0 < hi -> 0 <= gen_range_f64 seed hi < hi)%R;
  gen_range_usize_bounds seed n : 0 < n -> gen_range_usize seed n < n
}.

(** What a protocol reports about its state. *)
Record ConsensusMetricsSnapshot {F : Type} := mkSnapshot {
  ms_depth : option nat;
  ms_beta : option F;
  ms_eta : option F;
  ms_bonus_cap : option F;
  ms_saturation_k : option F;
  ms_proposer_fee_ratio : option F;
  ms_score_floor_kappa : option F;
  ms_bonus_zeta : option F;
  ms_score_cost_reference : option F;
  ms_active_score_epoch : option Z;
  ms_latest_score_epoch : option Z;
  ms_score_history : gmap string F;
  ms_latest_score_history : gmap string F;
  ms_normalized_score : gmap string F;
  ms_bonuses : gmap string F;
  ms_unnormalized_proposer_weights : gmap string F;
  ms_normalized_proposer_weights : gmap string F
}.
Arguments ConsensusMetricsSnapshot : clear implicits.
Arguments mkSnapshot {F}.

(** [ConsensusMetricsSnapshot::default()]. *)
Definition default_snapshot {F} : ConsensusMetricsSnapshot F :=
  mkSnapshot None None None None None None None None None None None ∅ ∅ ∅ ∅ ∅ ∅.

(** The decimal rendering of floats: [{:.n}] and [{}]. *)
Class FloatFmt (F : Type) := {
  fmt_fixed : nat -> F -> string;
  fmt_shortest : F -> string
}.

(** The [Consensus] trait: what the world state asks of a protocol.  Methods with a
    default body ([apply_block_feedback] has no other and no effect) are repeated by
    the instances that do not override them. *)
Class Consensus (F : Type) (S : Type) := {
  c_name : string;
  c_select_proposer :
    S -> list (Validator F) -> bytes -> Outcome (S * Result (Validator F) ValidatorError);
  c_on_epoch_end : S -> list (Block F) -> list (Validator F) -> S;
  c_state_summary : S -> string;
  c_metrics_snapshot : S -> ConsensusMetricsSnapshot F;
  c_distribute_rewards : S -> Block F -> list (Validator F) -> S * list (BalanceDelta F);
  c_next_slot : S -> list (Validator F) -> Z -> S
}.

Section consensus.
Context {F : Type} `{F64 F}.

(** ** Weighted choice

    Every protocol walks the validators accumulating weights until the draw is
    reached; [hit acc draw] is the protocol's test. *)
Fixpoint weighted_walk (hit : F -> F -> bool) (weight : Validator F -> F) (draw acc : F)
    (l : list (Validator F)) : option (Validator F) :=
  match l with
  | [] => None
  | v :: l =>
      let acc := f_add acc (weight v) in
      if hit acc draw then Some v else weighted_walk hit weight draw acc l
  end.

Lemma weighted_walk_elem hit weight draw acc l v :
  weighted_walk hit weight draw acc l = Some v -> v ∈ l.
Proof.
  revert acc. induction l as [|x l IH]; intros acc; simpl; [done|].
  case_match; [intros [= ->]; left|intros Hw; right; eauto].
Qed.

(** The reward of the protocols that pay the proposer everything. *)
Definition proposer_takes_all (base_reward : F) (block : Block F) (validators : list (Validator F))
    : list (BalanceDelta F) :=
  match List.find (fun v => bool_decide (v_address v = h_miner (header block))) validators with
  | Some validator =>
      let tx_fees := fsum (map tx_fee (transactions (body block))) in
      [mkBalanceDelta (v_address validator) (f_add base_reward tx_fees)]
  | None => []
  end.

End consensus.

(** ** RANDAO *)

Definition xor_byte (a b : Byte.byte) : Byte.byte := byte_of_Z (Z.lxor (Z_of_byte a) (Z_of_byte b)).

Definition xor_bytes (a b : bytes) : bytes := zip_with xor_byte a b.

Section randao.
Context {F : Type} `{Crypto}.

(** [RandaoSeed::new], [seed] being what the generator draws. *)
Definition RandaoSeed_new (wallet : Wallet) (seed : bytes) : RandaoSeed :=
  mkRandaoSeed (address wallet) seed (sign wallet seed).

Definition from_validator (validators : list (Validator F)) (v : RandaoSeed) : bool :=
  existsb (fun validator => bool_decide (v_address validator = rs_address v)) validators.

Fixpoint combine_loop (validators : list (Validator F)) (seeds : list RandaoSeed) (result : bytes)
    : Outcome bytes :=
  match seeds with
  | [] => Ret result
  | v :: seeds =>
      if negb (from_validator validators v) then combine_loop validators seeds result else
      let! valid := verify_by_address (rs_seed v) (rs_signature v) (rs_address v) in
      if valid then combine_loop validators seeds (xor_bytes result (rs_seed v))
      else combine_loop validators seeds result
  end.

Definition combine_seed (validators : list (Validator F)) (vdf_seeds : list RandaoSeed)
    : Outcome bytes :=
  let! result := combine_loop validators vdf_seeds (replicate 32 Byte.x00) in
  Ret (Hasher_hash result).

(** The seeds that count. *)
Definition seed_counts (validators : list (Validator F)) (v : RandaoSeed) : bool :=
  from_validator validators v
  && accepts (verify_by_address (rs_seed v) (rs_signature v) (rs_address v)).

Lemma log2_byte x : (0 <= x < 256)%Z -> (Z.log2 x < 8)%Z.
Proof.
  intros Hx. destruct (decide (x = 0)%Z) as [->|Hne]; [done|]. apply Z.log2_lt_pow2; lia.
Qed.

Lemma lxor_byte_bounds a b : (0 <= Z.lxor (Z_of_byte a) (Z_of_byte b) < 256)%Z.
Proof.
  pose proof (Z_of_byte_bounds a). pose proof (Z_of_byte_bounds b). split; [by apply Z.lxor_nonneg; lia|].
  destruct (decide (Z.lxor (Z_of_byte a) (Z_of_byte b) = 0)%Z) as [->|Hne]; [lia|].
  change 256%Z with (2 ^ 8)%Z. apply Z.log2_lt_pow2; [|].
  { assert (0 <= Z.lxor (Z_of_byte a) (Z_of_byte b))%Z by (apply Z.lxor_nonneg; lia). lia. }
  apply Z.le_lt_trans with (Z.max (Z.log2 (Z_of_byte a)) (Z.log2 (Z_of_byte b))); [by apply Z.log2_lxor; lia|].
  apply Z.max_lub_lt; by apply log2_byte.
Qed.

Lemma xor_byte_comm_r a b c : xor_byte (xor_byte a b) c = xor_byte (xor_byte a c) b.
Proof.
  unfold xor_byte. rewrite !Z_of_byte_of_Z by apply lxor_byte_bounds.
  by rewrite !Z.lxor_assoc, (Z.lxor_comm (Z_of_byte b)).
Qed.

Lemma xor_bytes_comm_r a b c : xor_bytes (xor_bytes a b) c = xor_bytes (xor_bytes a c) b.
Proof.
  unfold xor_bytes. revert b c. induction a as [|x a IH]; intros [|y b] [|z c]; simpl; try done.
  by rewrite xor_byte_comm_r, IH.
Qed.

Lemma combine_loop_fold validators seeds :
  Forall (fun v => from_validator validators v = true ->
            verify_by_address (rs_seed v) (rs_signature v) (rs_address v) <> Panic) seeds ->
  forall result, combine_loop validators seeds result
    = Ret (fold_left xor_bytes (map rs_seed (filter (fun v => seed_counts validators v = true) seeds)) result).
Proof.
  induction 1 as [|v seeds Hv _ IH]; intros result; [done|]. simpl.
  destruct (from_validator validators v) eqn:Ef; simpl.
  2:{ rewrite filter_cons_False; [apply IH|]. unfold seed_counts. by rewrite Ef. }
  destruct (verify_by_address _ _ _) as [[]|] eqn:Ev; simpl.
  - rewrite filter_cons_True; [apply IH|]. unfold seed_counts. by rewrite Ef, Ev.
  - rewrite filter_cons_False; [apply IH|]. unfold seed_counts. by rewrite Ef, Ev.
  - by specialize (Hv eq_refl).
Qed.

Lemma fold_xor_perm l1 l2 : l1 ≡ₚ l2 -> forall r, fold_left xor_bytes l1 r = fold_left xor_bytes l2 r.
Proof.
  induction 1 as [|x l1 l2 _ IH|x y l|l1 l2 l3 _ IH1 _ IH2]; intros r; simpl; [done|apply IH| |].
  - by rewrite xor_bytes_comm_r.
  - by rewrite IH1.
Qed.

(** The combined RANDAO seed does not depend on the order in which the
    validators' seeds arrived: reordering the submissions (none of which is
    malformed to the point of panicking) gives the same seed. *)
Theorem combine_seed_order_independent (validators : list (Validator F)) (seeds1 seeds2 : list RandaoSeed) :
  seeds1 ≡ₚ seeds2 ->
  Forall (fun v => from_validator validators v = true ->
            verify_by_address (rs_seed v) (rs_signature v) (rs_address v) <> Panic) seeds1 ->
  combine_seed validators seeds1 = combine_seed validators seeds2.
Proof.
  intros Hp Hok. assert (Hok2 := Hok). rewrite Hp in Hok2. unfold combine_seed.
  rewrite !combine_loop_fold by done. simpl. do 2 f_equal. apply fold_xor_perm.
  apply (Permutation_map rs_seed). by rewrite Hp.
Qed.

End randao.

(** ** Weighted choice over the reals *)

Section choice.
Local Open Scope R_scope.
Implicit Types (l : list (Validator R)) (w : Validator R -> R).

(** The test [acc > draw]: the chosen validator is the one whose half-open
    interval [[before, before + weight)] contains the draw. *)
Lemma weighted_walk_gt w draw : forall l acc v,
  weighted_walk f_gtb w draw acc l = Some v ->
  (forall x, x ∈ l -> 0 <= w x) -> acc <= draw ->
  exists l1 l2, l = l1 ++ v :: l2
    /\ acc + fsum (map w l1) <= draw < acc + fsum (map w l1) + w v.
Proof.
  induction l as [|x l IH]; intros acc v; simpl; [done|]. intros Hw Hnn Ha. revert Hw.
  unfold f_gtb; simpl. destruct (Rltb draw (acc + w x)) eqn:E.
  - intros [= <-]. apply Rltb_lt in E. exists [], l. split; [done|]. simpl. rewrite fsum_nil. lra.
  - intros Hw. apply Rltb_ge in E.
    destruct (IH (acc + w x) v Hw) as (l1 & l2 & -> & Hi); [intros; apply Hnn; by right|done|].
    exists (x :: l1), l2. split; [done|]. cbn [map]. rewrite fsum_cons. lra.
Qed.

Lemma weighted_walk_gt_total w draw : forall l acc,
  acc <= draw < acc + fsum (map w l) -> exists v, weighted_walk f_gtb w draw acc l = Some v.
Proof.
  induction l as [|x l IH]; intros acc; cbn [map weighted_walk]; [rewrite fsum_nil; lra|].
  rewrite fsum_cons. intros Hi. unfold f_gtb; simpl.
  destruct (Rltb draw (acc + w x)) eqn:E; [by eexists|]. apply Rltb_ge in E. apply IH. lra.
Qed.

(** The test [acc >= draw]: the chosen validator's interval is open below and
    closed above, except that the first validator also takes the draw at its
    lower end. *)
Lemma weighted_walk_ge w draw : forall l acc v,
  weighted_walk f_geb w draw acc l = Some v ->
  exists l1 l2, l = l1 ++ v :: l2
    /\ draw <= acc + fsum (map w l1) + w v
    /\ (l1 = [] \/ acc + fsum (map w l1) < draw).
Proof.
  induction l as [|x l IH]; intros acc v; simpl; [done|].
  unfold f_geb; simpl. destruct (Rleb draw (acc + w x)) eqn:E.
  - intros [= <-]. apply Rleb_le in E. exists [], l. simpl. rewrite fsum_nil. split_and!; [done|lra|by left].
  - intros Hw. apply Rleb_gt in E.
    destruct (IH (acc + w x) v Hw) as (l1 & l2 & -> & Hi & Hl).
    exists (x :: l1), l2. cbn [map]. rewrite fsum_cons. split_and!; [done|lra|right].
    destruct Hl as [->|Hl]; [simpl; rewrite fsum_nil; lra|lra].
Qed.

Lemma weighted_walk_ge_total w draw : forall l acc,
  l <> [] -> acc <= draw <= acc + fsum (map w l) -> exists v, weighted_walk f_geb w draw acc l = Some v.
Proof.
  induction l as [|x l IH]; intros acc Hne; [done|]. cbn [map weighted_walk].
  rewrite fsum_cons. intros Hi. unfold f_geb; simpl.
  destruct (Rleb draw (acc + w x)) eqn:E; [by eexists|]. apply Rleb_gt in E.
  destruct l as [|y l]; [simpl in Hi; rewrite fsum_nil in Hi; lra|]. apply IH; [done|]. lra.
Qed.

End choice.
