(* ===== verification/Baselines.v ===== *)
(** * Baseline protocols

    The three protocols TopoStake is compared with: proof of stake
    (src/src/consensus/pos.rs), proof of work (src/src/consensus/pow.rs, whose
    mining race is a step relation over the shared winner and stop flag) and
    Minotaur (src/src/consensus/minotaur.rs, a mixture of both).  SHA-256 and the
    random generator are third-party. *)

From Stdlib Require Import Reals Lra.
From S2P Require Export Consensus.
Local Open Scope rust_scope.

Class Sha256 := sha256 : bytes -> bytes.

(** ** Proof of stake *)

Module Pos.
Section pos.
Context {F : Type} `{F64 F} `{Rng F}.

Record PosConsensus := { base_reward : F }.

(** [gen_range(0.0..total_stake)] panics when the range is empty. *)
Definition select (validators : list (Validator F)) (combines_seeds : bytes)
    : Outcome (Result (Validator F) ValidatorError) :=
  match validators with
  | [] => Ret (Err NOValidatorError)
  | _ =>
      let total_stake := fsum (map v_stake validators) in
      if negb (f_ltb f0 total_stake) then Panic else
      let random_value := gen_range_f64 combines_seeds total_stake in
      Ret (match weighted_walk f_gtb v_stake random_value f0 validators with
           | Some v => Ok v
           | None => Err NOValidatorError
           end)
  end.

#[export] Instance consensus : Consensus F PosConsensus := {|
  c_name := "POS";
  c_select_proposer st validators seed := let! r := select validators seed in Ret (st, r);
  c_on_epoch_end st _ _ := st;
  c_state_summary _ := "pos";
  c_metrics_snapshot _ := default_snapshot;
  c_distribute_rewards st block validators :=
    (st, proposer_takes_all (base_reward st) block validators);
  c_next_slot st _ _ := st
|}.

End pos.
Arguments PosConsensus : clear implicits.

Section facts.
Context `{Rng R} `{!RngLaws}.
Local Open Scope R_scope.

(** Proof of stake draws a proposer in proportion to stake: with non-negative
    stakes of positive total, the selection always succeeds, and the chosen
    validator is the one whose interval of cumulative stake, of length its own
    stake, contains the draw; a validator without stake is never chosen. *)
Theorem pos_selects_by_stake (validators : list (Validator R)) (seed : bytes) :
  validators <> [] -> (forall v, v ∈ validators -> 0 <= v_stake v) ->
  0 < fsum (map v_stake validators) ->
  exists v l1 l2, select validators seed = Ret (Ok v) /\ validators = l1 ++ v :: l2
    /\ fsum (map v_stake l1) <= gen_range_f64 seed (fsum (map v_stake validators))
       < fsum (map v_stake l1) + v_stake v
    /\ 0 < v_stake v.
Proof.
  intros Hne Hnn Hpos. pose proof (gen_range_f64_bounds seed _ Hpos) as Hr.
  set (draw := gen_range_f64 seed (fsum (map v_stake validators))) in *.
  destruct (weighted_walk_gt_total v_stake draw validators 0) as [v Hv]; [lra|].
  destruct (weighted_walk_gt v_stake draw validators 0 v Hv Hnn ltac:(lra)) as (l1 & l2 & El & Hi).
  exists v, l1, l2. split_and!; [|done|lra|lra|lra].
  unfold select. destruct validators as [|v0 vs]; [done|].
  change (f_ltb f0 ?x) with (Rltb 0 x). rewrite (proj2 (Rltb_lt _ _) Hpos). cbn [negb].
  fold draw. change (f0 (F := R)) with 0. by rewrite Hv.
Qed.

End facts.
End Pos.

(** ** Proof of work *)

(** Bit [i] of a hash, the most significant bit of each byte first. *)
Definition hash_bit (hash : bytes) (i : nat) : bool :=
  match hash !! (i / 8) with
  | Some b => Z.testbit (Z_of_byte b) (Z.of_nat (7 - i mod 8))
  | None => true
  end.

(** [PowConsensus::verify_pow]: the first [difficulty] bits are zero; a position
    outside the hash fails. *)
Definition verify_pow (hash : bytes) (difficulty : nat) : bool :=
  forallb (fun i =>
    let byte_index := i / 8 in
    if decide (length hash <= byte_index) then false else negb (hash_bit hash i))
    (seq 0 difficulty).

(** [u8::leading_zeros]. *)
Definition leading_zeros8 (b : Byte.byte) : Z :=
  let z := Z_of_byte b in if (z =? 0)%Z then 8 else (7 - Z.log2 z)%Z.

(** [MinotaurConsensus::calculate_difficulty]. *)
Fixpoint calculate_difficulty (hash : bytes) : Z :=
  match hash with
  | [] => 0
  | byte :: hash =>
      if (Z_of_byte byte =? 0)%Z then (8 + calculate_difficulty hash)%Z else leading_zeros8 byte
  end.

Module Pow.
Section pow.
Context {F : Type} `{F64 F} `{Rng F} `{Sha256}.

Record PowConsensus := mkPow {
  difficulty : Z;
  blocks_in_epoch : Z;
  max_threads : nat;
  slot_duration_secs : Z;
  base_reward : F
}.

Definition new (initial_difficulty : Z) (max_threads : nat) (slot_duration : Z) (base_reward : F)
    : PowConsensus :=
  mkPow initial_difficulty 0 max_threads slot_duration base_reward.

Definition compute_work_amount (difficulty : Z) : F := f_powi f2 (as_i32 difficulty).

(** The hash of an attempt: the mining data, then the nonce. *)
Definition attempt (data : bytes) (nonce : Z) : bytes := sha256 (data ++ to_le_bytes 8 nonce).

Fixpoint mine_from (data : bytes) (d : nat) (nonce : Z) (attempts : nat) : option (Z * bytes) :=
  match attempts with
  | O => None
  | S attempts =>
      let hash := attempt data nonce in
      if verify_pow hash d then Some (nonce, hash) else mine_from data d (nonce + 1) attempts
  end.

Definition mine_pow (data : bytes) (d : nat) (max_attempts : Z) : option (Z * bytes) :=
  mine_from data d 0 (Z.to_nat max_attempts).

Definition adjust_difficulty (st : PowConsensus) (blocks : list (Block F)) : PowConsensus :=
  match head blocks, last blocks with
  | Some first, Some last =>
      let first_time := h_timestamp (header first) in
      let last_time := h_timestamp (header last) in
      let time_diff := if (first_time <? last_time)%Z then (last_time - first_time)%Z else 1%Z in
      let avg_block_time := (time_diff / Z.of_nat (length blocks))%Z in
      let target_block_time := slot_duration_secs st in
      let d := if (target_block_time <? avg_block_time)%Z
               then u64_sat_sub (difficulty st) 1 else u64_sat_add (difficulty st) 1 in
      mkPow d 0 (max_threads st) (slot_duration_secs st) (base_reward st)
  | _, _ => st
  end.

(** *** The mining race *)

Definition max_attempts : Z := 100000000.

(** What a validator of the race hashes before its nonce. *)
Definition mining_data (seed : bytes) (v : Validator F) : bytes := seed ++ as_bytes (v_address v).

Record worker := { wk_states : list (Validator F * Z); wk_running : bool }.

Record race := { rc_workers : list worker; rc_winner : option (Validator F); rc_stop : bool }.

(** [slice::chunks(n)], [n > 0]. *)
Fixpoint chunks_fuel {A} (fuel n : nat) (l : list A) : list (list A) :=
  match fuel, l with
  | S fuel, _ :: _ => take n l :: chunks_fuel fuel n (drop n l)
  | _, _ => []
  end.
Definition chunks {A} (n : nat) (l : list A) : list (list A) := chunks_fuel (length l) n l.

Definition thread_step (n_validators max_threads : nat) : nat :=
  let num_threads := Nat.min n_validators max_threads in
  if decide (0 < num_threads) then (n_validators + num_threads - 1) / num_threads else 1.

Definition race_init (st : PowConsensus) (validators : list (Validator F)) : race :=
  {| rc_workers := map (fun chunk => {| wk_states := map (fun v => (v, 0%Z)) chunk; wk_running := true |})
                     (chunks (thread_step (length validators) (max_threads st)) validators);
     rc_winner := None; rc_stop := false |}.

(** One attempt of one worker, one worker leaving, or the main thread's timeout.
    Batches, sleeps and hash power only decide which step comes next. *)
Inductive race_step (seed : bytes) (d : nat) : race -> race -> Prop :=
  | rs_miss ws win stop i w j v nonce :
      ws !! i = Some w -> wk_running w = true -> wk_states w !! j = Some (v, nonce) ->
      (nonce < max_attempts)%Z -> verify_pow (attempt (mining_data seed v) nonce) d = false ->
      race_step seed d {| rc_workers := ws; rc_winner := win; rc_stop := stop |}
        {| rc_workers := <[i := {| wk_states := <[j := (v, (nonce + 1)%Z)]> (wk_states w);
                                   wk_running := true |}]> ws;
           rc_winner := win; rc_stop := stop |}
  | rs_hit ws stop i w j v nonce :
      ws !! i = Some w -> wk_running w = true -> wk_states w !! j = Some (v, nonce) ->
      (nonce < max_attempts)%Z -> verify_pow (attempt (mining_data seed v) nonce) d = true ->
      race_step seed d {| rc_workers := ws; rc_winner := None; rc_stop := stop |}
        {| rc_workers := <[i := {| wk_states := wk_states w; wk_running := false |}]> ws;
           rc_winner := Some v; rc_stop := true |}
  | rs_hit_late ws win stop i w j v nonce :
      (* the lock is taken, or there is a winner already *)
      ws !! i = Some w -> wk_running w = true -> wk_states w !! j = Some (v, nonce) ->
      (nonce < max_attempts)%Z -> verify_pow (attempt (mining_data seed v) nonce) d = true ->
      race_step seed d {| rc_workers := ws; rc_winner := win; rc_stop := stop |}
        {| rc_workers := <[i := {| wk_states := wk_states w; wk_running := false |}]> ws;
           rc_winner := win; rc_stop := stop |}
  | rs_leave ws win stop i w :
      ws !! i = Some w -> wk_running w = true ->
      stop = true \/ Forall (fun vn => (max_attempts <= vn.2)%Z) (wk_states w) ->
      race_step seed d {| rc_workers := ws; rc_winner := win; rc_stop := stop |}
        {| rc_workers := <[i := {| wk_states := wk_states w; wk_running := false |}]> ws;
           rc_winner := win; rc_stop := stop |}
  | rs_timeout ws win stop :
      race_step seed d {| rc_workers := ws; rc_winner := win; rc_stop := stop |}
        {| rc_workers := ws; rc_winner := win; rc_stop := true |}.

(** The race is over when every worker has been joined. *)
Definition race_done (r : race) : Prop := Forall (fun w => wk_running w = false) (rc_workers r).

(** [select_proposer], [winner] being what the race leaves behind. *)
Definition select_proposer (st : PowConsensus) (validators : list (Validator F)) (seed : bytes)
    (winner : option (Validator F)) : Outcome (PowConsensus * Result (Validator F) ValidatorError) :=
  match validators with
  | [] => Ret (st, Err NOValidatorError)
  | [v] => Ret (st, Ok v)
  | _ =>
      match winner with
      | Some validator => Ret (st, Ok validator)
      | None =>
          let index := gen_range_usize (F := F) seed (length validators) in
          let st' := mkPow (u64_sat_sub (difficulty st) 1) (blocks_in_epoch st) (max_threads st)
                       (slot_duration_secs st) (base_reward st) in
          let! v := expect (validators !! index) in Ret (st', Ok v)
      end
  end.

Definition on_epoch_end (st : PowConsensus) (blocks : list (Block F)) : PowConsensus :=
  adjust_difficulty st blocks.

Definition distribute_rewards (st : PowConsensus) (block : Block F)
    (validators : list (Validator F)) : list (BalanceDelta F) :=
  proposer_takes_all (base_reward st) block validators.

(** *** Facts about the race *)

Definition proved_work (seed : bytes) (d : nat) (v : Validator F) : Prop :=
  exists nonce, (nonce < max_attempts)%Z /\ verify_pow (attempt (mining_data seed v) nonce) d = true.

Definition race_inv (seed : bytes) (d : nat) (validators : list (Validator F)) (r : race) : Prop :=
  (forall w vn, w ∈ rc_workers r -> vn ∈ wk_states w -> vn.1 ∈ validators)
  /\ (forall v, rc_winner r = Some v -> v ∈ validators /\ proved_work seed d v).

Lemma chunks_elem {A} fuel n (l : list A) c x : c ∈ chunks_fuel fuel n l -> x ∈ c -> x ∈ l.
Proof.
  revert l. induction fuel as [|fuel IH]; intros [|y l]; cbn [chunks_fuel]; try set_solver.
  assert (Hsub : forall z, z ∈ take n (y :: l) \/ z ∈ drop n (y :: l) -> z ∈ y :: l).
  { intros z Hz. rewrite <- (take_drop n (y :: l)). by apply elem_of_app. }
  intros [->|Hc]%elem_of_cons Hx; apply Hsub; [by left|]. right. by eapply IH.
Qed.

Lemma race_init_inv seed d st validators : race_inv seed d validators (race_init st validators).
Proof.
  split; [|done]. intros w vn Hw Hvn. unfold race_init in Hw; simpl in Hw.
  apply list_elem_of_fmap in Hw as (c & -> & Hc). simpl in Hvn.
  apply list_elem_of_fmap in Hvn as (v & -> & Hv). by eapply chunks_elem.
Qed.

Lemma insert_elem {A} (l : list A) i x y : y ∈ <[i := x]> l -> y = x \/ y ∈ l.
Proof.
  intros Hy. apply list_elem_of_lookup in Hy as [k Hk]. destruct (decide (i = k)) as [->|Hne].
  - apply list_lookup_insert_Some in Hk as [(? & -> & _)|(? & Hk)]; [by left|right; by eapply list_elem_of_lookup_2].
  - rewrite list_lookup_insert_ne in Hk by done. right. by eapply list_elem_of_lookup_2.
Qed.

Lemma race_step_inv seed d validators r r' :
  race_inv seed d validators r -> race_step seed d r r' -> race_inv seed d validators r'.
Proof.
  intros [Hst Hwin] Hs.
  assert (Hmem : forall (ws : list worker) (i : nat) w (j : nat) v nonce, (forall w vn, w ∈ ws -> vn ∈ wk_states w -> vn.1 ∈ validators) ->
    ws !! i = Some w -> wk_states w !! j = Some (v, nonce) -> v ∈ validators).
  { intros ws i w j v nonce Hall Hi Hj.
    apply (Hall w (v, nonce)); by eapply list_elem_of_lookup_2. }
  assert (Hstop : forall (ws : list worker) (i : nat) w b, (forall w vn, w ∈ ws -> vn ∈ wk_states w -> vn.1 ∈ validators) ->
    ws !! i = Some w ->
    forall w' vn, w' ∈ <[i := {| wk_states := wk_states w; wk_running := b |}]> ws ->
      vn ∈ wk_states w' -> vn.1 ∈ validators).
  { intros ws i w b Hall Hi w' vn Hw' Hvn. apply insert_elem in Hw' as [->|Hw']; [|by eapply Hall].
    apply (Hall w vn); [by eapply list_elem_of_lookup_2|done]. }
  destruct Hs as [ws win stop i w j v nonce Hi Hr Hj Hn Hv|ws stop i w j v nonce Hi Hr Hj Hn Hv
                 |ws win stop i w j v nonce Hi Hr Hj Hn Hv|ws win stop i w Hi Hr _|ws win stop];
    simpl in *; split; simpl; try done; try (by eapply Hstop).
  - intros w' vn Hw' Hvn. apply insert_elem in Hw' as [->|Hw']; [|by eapply Hst]. simpl in Hvn.
    apply insert_elem in Hvn as [->|Hvn]; [by eapply Hmem|].
    apply (Hst w vn); [by eapply list_elem_of_lookup_2|done].
  - intros v' [= <-]. split; [by eapply Hmem|by exists nonce].
Qed.

(** Whatever the interleaving of the mining threads, the lock and the timeout,
    a proof-of-work winner is one of the validators and has found a nonce within
    the attempt limit whose hash meets the difficulty. *)
Theorem pow_winner_has_work (st : PowConsensus) (seed : bytes) (d : nat)
    (validators : list (Validator F)) (r : race) (v : Validator F) :
  rtc (race_step seed d) (race_init st validators) r -> rc_winner r = Some v ->
  v ∈ validators /\ proved_work seed d v.
Proof.
  intros Hs. enough (Hi : race_inv seed d validators r) by apply Hi.
  revert Hs. generalize (race_init_inv seed d st validators).
  generalize (race_init st validators) as r0. intros r0 Hi Hs. induction Hs; [done|].
  apply IHHs. by eapply race_step_inv.
Qed.

End pow.
Arguments PowConsensus : clear implicits.
End Pow.

(** ** Minotaur *)

Module Minotaur.
Section minotaur.
Context {F : Type} `{F64 F} `{Rng F} `{Sha256}.

Record PowBlock := mkPowBlock {
  pb_address : string;
  pb_hash_count : Z;
  pb_index : Z;
  pb_nonce : Z;
  pb_max_difficulty : Z
}.

(** The background task is represented by the block index it mines for. *)
Record MinotaurConsensus := mkMinotaur {
  pow_blocks : gmap Z (list PowBlock);
  base_reward : F;
  pow_weight : F;
  block_index : Z;
  max_threads : nat;
  background_task : option Z
}.

Definition new (base_reward : F) (max_threads : nat) : MinotaurConsensus :=
  mkMinotaur ∅ base_reward (f_dec 5 1) 0 max_threads None.

Definition perform_pow_computation (max_attempts : nat) : Z :=
  fold_left (fun count _ => u64_add count 1) (seq 0 max_attempts) 0%Z.

Definition add_block_to (m : gmap Z (list PowBlock)) (block : PowBlock) : gmap Z (list PowBlock) :=
  entry_update [] (fun l => l ++ [block]) (pb_index block) m.

Definition add_pow_block (st : MinotaurConsensus) (block : PowBlock) : MinotaurConsensus :=
  mkMinotaur (add_block_to (pow_blocks st) block) (base_reward st) (pow_weight st)
    (block_index st) (max_threads st) (background_task st).

Definition get_pow_blocks (st : MinotaurConsensus) (index : Z) : list PowBlock :=
  get_or [] (pow_blocks st) index.

(** [2f64.powf(d)] of an integer is an exact power of two. *)
Definition pow_scores_of (l : list PowBlock) : gmap string F :=
  fold_left (fun m block =>
    entry_update f0 (fun s => f_add s (f_powi f2 (pb_max_difficulty block))) (pb_address block) m) l ∅.

Definition pow_ratios (pow_scores : gmap string F) (validators : list (Validator F)) : gmap string F :=
  let total_pow_score := fsum (map_values pow_scores) in
  collect_map (map (fun v =>
    let pow_score := get_or f0 pow_scores (v_address v) in
    (v_address v, if f_gtb total_pow_score f0 then f_div pow_score total_pow_score else f0)) validators).

Definition pos_ratios (validators : list (Validator F)) : gmap string F :=
  let total_stake := fsum (map v_stake validators) in
  collect_map (map (fun v =>
    (v_address v, if f_gtb total_stake f0 then f_div (v_stake v) total_stake else f0)) validators).

Definition combined_scores_of (pow_weight : F) (pow_ratio pos_ratio : gmap string F)
    (validators : list (Validator F)) : gmap string F :=
  collect_map (map (fun v =>
    (v_address v, f_add (f_mul pow_weight (get_or f0 pow_ratio (v_address v)))
                    (f_mul (f_sub f1 pow_weight) (get_or f0 pos_ratio (v_address v))))) validators).

(** The walk subtracts scores from the draw. *)
Fixpoint pick_walk (scores : gmap string F) (pick : F) (l : list (Validator F)) : option (Validator F) :=
  match l with
  | [] => None
  | v :: l =>
      let score := get_or f0 scores (v_address v) in
      if f_ltb pick score then Some v else pick_walk scores (f_sub pick score) l
  end.

Definition select_proposer (st : MinotaurConsensus) (validators : list (Validator F)) (seed : bytes)
    : Outcome (Result (Validator F) ValidatorError) :=
  match validators with
  | [] => Ret (Err NOValidatorError)
  | v0 :: _ =>
      if (block_index st =? 0)%Z then Ret (Ok v0) else
      let pow_scores := pow_scores_of (get_pow_blocks st (block_index st - 1)) in
      let pow_ratio_scores := pow_ratios pow_scores validators in
      let pos_ratio_scores := pos_ratios validators in
      let combined_scores := combined_scores_of (pow_weight st) pow_ratio_scores pos_ratio_scores validators in
      let total_combined_score := fsum (map_values combined_scores) in
      if negb (f_ltb f0 total_combined_score) then Panic else
      let pick := gen_range_f64 seed total_combined_score in
      Ret (Ok (default v0 (pick_walk combined_scores pick validators)))
  end.

Definition distribute_rewards (st : MinotaurConsensus) (block : Block F)
    (validators : list (Validator F)) : list (BalanceDelta F) :=
  proposer_takes_all (base_reward st) block validators.

(** *** The background miner *)

Record miner := mkMiner { ms_address : string; ms_nonce : Z; ms_best : option PowBlock }.

Section mining.
(** The generator's first [next_u64] for a seed. *)
Variable next_u64 : bytes -> Z.

Definition mine_hash (addr : string) (index nonce : Z) : bytes :=
  sha256 (as_bytes addr ++ to_le_bytes 8 index ++ to_le_bytes 8 nonce).

Definition mine_once (index : Z) (st : miner) : miner :=
  let difficulty := calculate_difficulty (mine_hash (ms_address st) index (ms_nonce st)) in
  let better := match ms_best st with
                | None => true
                | Some b => (pb_max_difficulty b <? difficulty)%Z
                end in
  mkMiner (ms_address st) (u64_add (ms_nonce st) 1)
    (if better
     then Some (mkPowBlock (ms_address st) (u64_add (ms_nonce st) 1) index
                  (next_u64 (replicate 32 (byte_of_Z index))) difficulty)
     else ms_best st).

Definition mine (index : Z) (addr : string) (attempts : nat) : miner :=
  Nat.iter attempts (mine_once index) (mkMiner addr 0 None).

(** What the task for [index] leaves behind when each validator was given the
    listed number of attempts before the stop signal. *)
Definition background_results (index : Z) (work : list (string * nat)) : list PowBlock :=
  omap (fun an => ms_best (mine index an.1 an.2)) work.

(** [next_slot]: collect the previous task's blocks (none if it panicked), then
    start the task of [index]. *)
Definition next_slot (st : MinotaurConsensus) (collected : list PowBlock) (index : Z)
    : MinotaurConsensus :=
  let blocks := match background_task st with None => [] | Some _ => collected end in
  mkMinotaur (fold_left add_block_to blocks (pow_blocks st)) (base_reward st) (pow_weight st)
    index (max_threads st) (Some index).

Definition difficulty_at (index : Z) (addr : string) (n : nat) : Z :=
  calculate_difficulty (mine_hash addr index (Z.of_nat n)).

(** The background miner keeps a best attempt: after [n + 1] attempts, fewer
    than [2^64], it holds a block for the mined index and address whose
    difficulty was reached by one of the attempts and by none exceeded, and whose
    hash count is the number of attempts made when that difficulty was first
    reached. *)
Theorem miner_keeps_best (index : Z) (addr : string) (n : nat) :
  (Z.of_nat n < U64_MAX)%Z ->
  exists b k, ms_best (mine index addr (S n)) = Some b
    /\ pb_address b = addr /\ pb_index b = index
    /\ k <= n /\ pb_max_difficulty b = difficulty_at index addr k
    /\ pb_hash_count b = (Z.of_nat k + 1)%Z
    /\ (forall i, i <= n -> (difficulty_at index addr i <= pb_max_difficulty b)%Z)
    /\ (forall i, i < k -> (difficulty_at index addr i < pb_max_difficulty b)%Z).
Proof.
  intros Hn.
  assert (Hstate : forall m, (Z.of_nat m <= U64_MAX)%Z ->
    ms_address (mine index addr m) = addr /\ ms_nonce (mine index addr m) = Z.of_nat m).
  { induction m as [|m IH]; intros Hm; [done|]. destruct IH as [Ha Hnc]; [lia|].
    change (mine index addr (S m)) with (mine_once index (mine index addr m)). simpl.
    rewrite Ha, Hnc. split; [done|]. rewrite u64_add_small; [lia| |lia|lia]. split; lia. }
  induction n as [|n IH].
  { eexists _, 0. simpl. split_and!; try done; intros i Hi; [|lia].
    assert (i = 0) as -> by lia. done. }
  destruct (IH ltac:(lia)) as (b & k & Hb & Hba & Hbi & Hk & Hbd & Hbc & Hmax & Hmin).
  destruct (Hstate (S n) ltac:(lia)) as [Ha Hnc].
  change (mine index addr (S (S n))) with (mine_once index (mine index addr (S n))).
  unfold mine_once. rewrite Ha, Hnc, Hb. cbn [ms_best].
  change (calculate_difficulty (mine_hash addr index (Z.of_nat (S n)))) with (difficulty_at index addr (S n)).
  destruct (Z.ltb_spec (pb_max_difficulty b) (difficulty_at index addr (S n))) as [Hlt|Hge].
  - eexists _, (S n). split; [done|]. cbn [pb_address pb_index pb_max_difficulty pb_hash_count].
    split_and!; try done.
    + rewrite u64_add_small; [lia|split; lia|lia|lia].
    + intros i Hi. destruct (decide (i = S n)) as [->|]; [done|]. specialize (Hmax i ltac:(lia)). lia.
    + intros i Hi. specialize (Hmax i ltac:(lia)). lia.
  - exists b, k. split_and!; try done; [lia|]. intros i Hi.
    destruct (decide (i = S n)) as [->|]; [done|]. apply Hmax. lia.
Qed.

End mining.
End minotaur.
Arguments MinotaurConsensus : clear implicits.
End Minotaur.

(** ** The two difficulty measures agree *)

Lemma verify_pow_spec hash d :
  verify_pow hash d = true <-> forall i, i < d -> i / 8 < length hash /\ hash_bit hash i = false.
Proof.
  unfold verify_pow. rewrite forallb_forall. split.
  - intros Hall i Hi. assert (Hin : In i (seq 0 d)) by (apply in_seq; lia).
    specialize (Hall i Hin). cbv beta zeta in Hall. case_decide; [done|]. split; [lia|]. by apply negb_true_iff.
  - intros Hall i Hi%in_seq. destruct (Hall i ltac:(lia)) as [Hl Hb]. rewrite decide_False by lia.
    by rewrite Hb.
Qed.

Lemma hash_bit_cons b hash i : hash_bit (b :: hash) (8 + i) = hash_bit hash i.
Proof.
  unfold hash_bit. replace ((8 + i) / 8) with (S (i / 8)).
  2:{ replace (8 + i) with (i + 1 * 8) by lia. rewrite Nat.div_add by lia. lia. }
  simpl lookup. replace ((8 + i) mod 8) with (i mod 8); [done|].
  replace (8 + i) with (i + 1 * 8) by lia. by rewrite Nat.Div0.mod_add.
Qed.

Lemma hash_bit_head b hash i : i < 8 -> hash_bit (b :: hash) i = Z.testbit (Z_of_byte b) (Z.of_nat (7 - i)).
Proof. intros Hi. unfold hash_bit. by rewrite Nat.div_small, Nat.mod_small. Qed.

Lemma calculate_difficulty_nonneg hash : (0 <= calculate_difficulty hash)%Z.
Proof.
  induction hash as [|b hash IH]; simpl; [lia|]. case_match; [lia|]. unfold leading_zeros8.
  case_match; [lia|]. pose proof (Z_of_byte_bounds b). pose proof (log2_byte (Z_of_byte b) ltac:(done)). lia.
Qed.

(** Proof of work and Minotaur measure difficulty alike: a hash meets the
    difficulty [d] of the proof-of-work check exactly when the number of leading
    zero bits that Minotaur credits it with is at least [d]. *)
Theorem verify_pow_iff_difficulty (hash : bytes) (d : nat) :
  verify_pow hash d = true <-> (Z.of_nat d <= calculate_difficulty hash)%Z.
Proof.
  rewrite verify_pow_spec. revert d. induction hash as [|b hash IH]; intros d.
  { simpl. split; [|lia]. intros Hall. destruct d as [|d]; [lia|].
    destruct (Hall 0 ltac:(lia)) as [Hl _]. simpl in Hl. lia. }
  cbn [calculate_difficulty]. pose proof (Z_of_byte_bounds b) as Hb.
  destruct (Z.eqb_spec (Z_of_byte b) 0) as [E|E].
  - assert (Hz : forall i, i < 8 -> hash_bit (b :: hash) i = false).
    { intros i Hi. rewrite hash_bit_head, E by done. apply Z.testbit_0_l. }
    pose proof (calculate_difficulty_nonneg hash). destruct (decide (d <= 8)) as [Hd|Hd].
    { split; [lia|]. intros _ i Hi. split; [|apply Hz; lia].
      rewrite Nat.div_small by lia. simpl. lia. }
    transitivity (forall i, i < d - 8 -> i / 8 < length hash /\ hash_bit hash i = false);
      [|rewrite IH; lia].
    split.
    + intros Hall i Hi. destruct (Hall (8 + i) ltac:(lia)) as [Hl Hbit].
      rewrite hash_bit_cons in Hbit. split; [|done]. simpl length in Hl.
      replace (8 + i) with (i + 1 * 8) in Hl by lia. rewrite Nat.div_add in Hl by lia. lia.
    + intros Hall i Hi. destruct (decide (i < 8)) as [H8|H8].
      { split; [|by apply Hz]. rewrite Nat.div_small by lia. simpl. lia. }
      destruct (Hall (i - 8) ltac:(lia)) as [Hl Hbit]. replace i with (8 + (i - 8)) by lia.
      rewrite hash_bit_cons. split; [|done]. simpl length.
      replace (8 + (i - 8)) with ((i - 8) + 1 * 8) by lia. rewrite Nat.div_add by lia. lia.
  - unfold leading_zeros8. destruct (Z.eqb_spec (Z_of_byte b) 0); [done|].
    set (m := Z.log2 (Z_of_byte b)). assert (Hm : (0 <= m < 8)%Z).
    { split; [apply Z.log2_nonneg|by apply log2_byte]. }
    assert (Hbit : forall i, i < 8 -> (Z.of_nat i < 7 - m)%Z -> hash_bit (b :: hash) i = false).
    { intros i Hi Hlt. rewrite hash_bit_head by done. apply Z.bits_above_log2; [lia|fold m; lia]. }
    split.
    + intros Hall. destruct (decide (Z.of_nat d <= 7 - m)%Z); [done|exfalso].
      destruct (Hall (Z.to_nat (7 - m)) ltac:(lia)) as [_ Hf]. rewrite hash_bit_head in Hf by lia.
      replace (Z.of_nat (7 - Z.to_nat (7 - m))) with m in Hf by lia.
      unfold m in Hf. rewrite Z.bit_log2 in Hf; [done|lia].
    + intros Hd i Hi. rewrite Nat.div_small by lia. split; [simpl; lia|]. apply Hbit; lia.
Qed.
