(* ===== verification/TopoStake.v ===== *)
(** * The TopoStake protocol

    src/src/consensus/topostake.rs: the configuration and its validation, frozen
    proposer weights, relay rewards and their settlement queue, epoch scores and
    the delayed activation of score roots.  The formulas are in [Formulas].

    Path records are checked by another component; the interface is the class
    [PathVerifier].  [registry_verifier] is the implementation the program
    uses: the verifier of [Path] without its cache, which is transparent
    ([PathFacts]); on a block the chain accepted, its transactions verify and the
    check cannot panic ([verify_uncached_no_panic]). *)

From Stdlib Require Import Ascii.
From stdpp Require Import pretty.
From S2P Require Export Text Consensus Formulas.
Local Open Scope rust_scope.

(** What the protocol asks of the path component: whether a record is valid
    evidence for a transaction, a proposer and an epoch. *)
Class PathVerifier (F : Type) :=
  path_verifies : AggregatedSignedPaths -> Transaction F -> string -> Z -> bool.

(** What it relies on: accepted evidence names each identity at most once. *)
Class PathVerifierLaws (F : Type) `{PathVerifier F} : Prop :=
  path_verifies_nodup a t miner epoch :
    path_verifies a t miner epoch = true -> NoDup (full_path a miner).

Definition registry_verifier {F} `{F64 F} `{Crypto} `{TxSerde F} (reg : Registry) : PathVerifier F :=
  fun a t miner epoch => accepts (verify_at_epoch_uncached reg a t miner epoch).

Record TopoStakeConfig {F : Type} := mkTopoStakeConfig {
  protocol_version : string;
  target_depth : nat;
  beta : F;
  saturation_k : F;
  score_cost_reference : F;
  score_floor_kappa : F;
  bonus_zeta : F;
  eta : F;
  bonus_cap : F;
  proposer_fee_ratio : F;
  reward_settlement_depth : Z;
  score_activation_delay_epochs : Z;
  max_path_hops : nat;
  evidence_work_limit : nat;
  challenge_work_limit : nat
}.
Arguments TopoStakeConfig : clear implicits.

Record PendingRewardBatch {F : Type} := mkBatch {
  settle_at_block : Z;
  batch_rewards : list (BalanceDelta F)
}.
Arguments PendingRewardBatch : clear implicits.
Arguments mkBatch {F}.

Record PendingScoreRoot {F : Type} := mkRoot {
  produced_epoch : Z;
  activates_at_epoch : Z;
  root_scores : gmap string F
}.
Arguments PendingScoreRoot : clear implicits.
Arguments mkRoot {F}.

Record RewardPlan {F : Type} := mkRewardPlan {
  rp_rewards : list (BalanceDelta F);
  rp_proposer_reward : F;
  rp_relay_reward : F;
  rp_burned_relay_fee : F;
  rp_total_fee : F
}.
Arguments RewardPlan : clear implicits.
Arguments mkRewardPlan {F}.

Record TopoStakeConsensus {F : Type} := mkTopoStake {
  config : TopoStakeConfig F;
  base_reward : F;
  score_history : gmap string F;
  active_score_history : gmap string F;
  active_score_epoch : option Z;
  next_epoch : Z;
  pending_score_roots : list (PendingScoreRoot F);
  normalized_score : gmap string F;
  epoch_stake_snapshot : gmap string F;
  unnormalized_proposer_weights : gmap string F;
  frozen_proposer_weights : gmap string F;
  epoch_bonuses : gmap string F;
  pending_rewards : list (PendingRewardBatch F)
}.
Arguments TopoStakeConsensus : clear implicits.

Section topostake.
Context {F : Type} `{F64 F} `{Rng F} `{PathVerifier F}.
Implicit Types (st : TopoStakeConsensus F) (cfg : TopoStakeConfig F)
  (validators : list (Validator F)) (block : Block F).

(** ** Configuration *)

(** [TopoStakeConfig::default]: experiments/configs/protocol_frozen_v1.yaml. *)
Definition frozen_v1 : TopoStakeConfig F := {|
  protocol_version := "frozen-v1";
  target_depth := 4;
  beta := f_dec 8 1;
  saturation_k := f1;
  score_cost_reference := f_dec 1 5;
  score_floor_kappa := f1;
  bonus_zeta := f1;
  eta := f_dec 5 1;
  bonus_cap := f1;
  proposer_fee_ratio := f_dec 5 1;
  reward_settlement_depth := 2;
  score_activation_delay_epochs := 2;
  max_path_hops := 16;
  evidence_work_limit := 4096;
  challenge_work_limit := 1024
|}.

Definition validate cfg : Result unit string :=
  if is_blank (protocol_version cfg) then Err "protocol_version must not be empty" else
  if decide (target_depth cfg < 1) then Err "target_depth must be >= 1" else
  if negb (f_gtb (beta cfg) f0 && f_leb (beta cfg) f1)
  then Err "beta must satisfy 0 < beta <= 1" else
  if f_leb (saturation_k cfg) f0 then Err "saturation_k must be > 0" else
  if f_leb (score_cost_reference cfg) f0 then Err "score_cost_reference must be > 0" else
  if f_leb (score_floor_kappa cfg) f0 then Err "score_floor_kappa must be > 0" else
  if f_leb (bonus_zeta cfg) f0 then Err "bonus_zeta must be > 0" else
  if negb (f_geb (proposer_fee_ratio cfg) f0 && f_ltb (proposer_fee_ratio cfg) f1)
  then Err "proposer_fee_ratio must satisfy 0 <= theta < 1" else
  if f_ltb (eta cfg) f0 then Err "eta must be >= 0" else
  if f_ltb (bonus_cap cfg) f0 then Err "bonus_cap must be >= 0" else
  if f_gtb (f_mul (eta cfg) (bonus_cap cfg)) (f_add f1 f_epsilon)
  then Err "eta * bonus_cap must be <= 1" else
  if (score_activation_delay_epochs cfg <? 1)%Z
  then Err "score_activation_delay_epochs must be >= 1" else
  if decide (max_path_hops cfg < 2) then Err "max_path_hops must be >= 2" else
  if decide (evidence_work_limit cfg < max_path_hops cfg)
  then Err "evidence_work_limit must cover at least one maximum path" else
  if decide (challenge_work_limit cfg = 0) then Err "challenge_work_limit must be > 0" else
  Ok ().

Definition TopoStakeConsensus_new (reward : F) cfg : Result (TopoStakeConsensus F) string :=
  let? _ := validate cfg in
  Ok (mkTopoStake F cfg reward ∅ ∅ None 0 [] ∅ ∅ ∅ ∅ ∅ []).

Definition path_budget st (path_length : nat) : F :=
  path_budget_for_depth (target_depth (config st)) path_length.

Definition gamma st (position path_length : nat) : F :=
  gamma_for_depth (target_depth (config st)) position path_length.

(** ** Frozen proposer weights *)

Definition normalize_map (m : gmap string F) : gmap string F :=
  let sum := fsum (map_values m) in
  if f_leb sum f0 then (fun _ => f0) <$> m else (fun v => f_div v sum) <$> m.

Definition normalized_stake validators : gmap string F :=
  normalize_map (collect_map (map (fun v => (v_address v, f_max (v_stake v) f0)) validators)).

Definition active_score (scores : gmap string F) (v : Validator F) : F :=
  f_max (get_or f0 scores (v_address v)) f0.

Definition damped_score_for_active_set (scores : gmap string F) validators (kappa : F)
    : gmap string F :=
  let score_sum := fsum (map (active_score scores) validators) in
  let denominator := f_add kappa score_sum in
  collect_map (map (fun v => (v_address v, f_div (active_score scores v) denominator)) validators).

(** The bonus and the unnormalised weight of one validator. *)
Definition bonus_of cfg (s_hat c_hat : F) : F :=
  if f_gtb s_hat f0 then propagation_bonus (f_div c_hat s_hat) (bonus_cap cfg) (bonus_zeta cfg)
  else f0.

Definition weight_of cfg (s_hat c_hat : F) : F :=
  f_mul s_hat (f_add f1 (f_mul (eta cfg) (bonus_of cfg s_hat c_hat))).

Definition freeze_proposer_weights st validators : TopoStakeConsensus F :=
  let stake := normalized_stake validators in
  let score := damped_score_for_active_set (active_score_history st) validators
                 (score_floor_kappa (config st)) in
  let s_hat v := get_or f0 stake (v_address v) in
  let c_hat v := get_or f0 score (v_address v) in
  let bonuses := collect_map (map (fun v =>
    (v_address v, bonus_of (config st) (s_hat v) (c_hat v))) validators) in
  let unnormalized := collect_map (map (fun v =>
    (v_address v, weight_of (config st) (s_hat v) (c_hat v))) validators) in
  {| config := config st; base_reward := base_reward st; score_history := score_history st;
     active_score_history := active_score_history st; active_score_epoch := active_score_epoch st;
     next_epoch := next_epoch st; pending_score_roots := pending_score_roots st;
     normalized_score := score;
     epoch_stake_snapshot := collect_map (map (fun v => (v_address v, v_stake v)) validators);
     unnormalized_proposer_weights := unnormalized;
     frozen_proposer_weights := normalize_map unnormalized;
     epoch_bonuses := bonuses;
     pending_rewards := pending_rewards st |}.

(** ** Rewards *)

Definition validator_set validators : gset string := list_to_set (map v_address validators).

Definition valid_path_record cfg (path : AggregatedSignedPaths) (tx : Transaction F)
    (miner : string) (epoch : Z) : bool :=
  let path_length := length (full_path path miner) - 1 in
  bool_decide (path_length <= max_path_hops cfg) && path_verifies path tx miner epoch.

(** The body of the loop over relay positions. *)
Definition pay_step (depth : nat) (vset : gset string) (relay_budget : F) (nodes : list string)
    (acc : F * list (BalanceDelta F)) (position : nat) : F * list (BalanceDelta F) :=
  let path_length := length nodes - 1 in
  let relayer := nth position nodes "" in
  if decide (relayer ∈ vset) then
    let amount := f_mul relay_budget (gamma_for_depth depth position path_length) in
    if f_gtb amount f0 then (f_add acc.1 amount, acc.2 ++ [mkBalanceDelta relayer amount]) else acc
  else acc.

(** The payments of one transaction to the relays of its path, with their sum. *)
Definition relay_payments (depth : nat) (vset : gset string) (relay_budget : F)
    (nodes : list string) : F * list (BalanceDelta F) :=
  fold_left (pay_step depth vset relay_budget nodes) (relay_positions (length nodes - 1)) (f0, []).

(** The evidence a block has for its transaction [idx], if it earns relay rewards. *)
Definition eligible_path cfg block (idx : nat) (tx : Transaction F) : option (list string) :=
  match paths (body block) !! idx with
  | None => None
  | Some path =>
      if negb (valid_path_record cfg path tx (h_miner (header block)) (h_epoch (header block)))
      then None else
      let nodes := full_path path (h_miner (header block)) in
      if decide (length nodes - 1 < 2) then None else Some nodes
  end.

Definition reward_step st block (vset : gset string)
    (acc : list (BalanceDelta F) * F * F) (itx : nat * Transaction F)
    : list (BalanceDelta F) * F * F :=
  let '(rewards, relay_reward, burned) := acc in
  let '(idx, tx) := itx in
  let relay_budget := f_mul (f_sub f1 (proposer_fee_ratio (config st))) (tx_fee tx) in
  match eligible_path (config st) block idx tx with
  | None => (rewards, relay_reward, f_add burned relay_budget)
  | Some nodes =>
      let '(paid_for_tx, pushed) :=
        relay_payments (target_depth (config st)) vset relay_budget nodes in
      (rewards ++ pushed, f_add relay_reward paid_for_tx,
       f_add burned (f_max (f_sub relay_budget paid_for_tx) f0))
  end.

Definition compute_block_rewards st block validators : RewardPlan F :=
  let total_fee := fsum (map tx_fee (transactions (body block))) in
  let proposer_reward := f_add (base_reward st) (f_mul (proposer_fee_ratio (config st)) total_fee) in
  let '(rewards, relay_reward, burned) :=
    fold_left (reward_step st block (validator_set validators))
      (enumerate (transactions (body block)))
      ([mkBalanceDelta (h_miner (header block)) proposer_reward], f0, f0) in
  mkRewardPlan rewards proposer_reward relay_reward burned total_fee.

(** [settle_matured_rewards]: the batches at the front that are due. *)
Fixpoint settle_front (now : Z) (queue : list (PendingRewardBatch F))
    : list (BalanceDelta F) * list (PendingRewardBatch F) :=
  match queue with
  | [] => ([], [])
  | batch :: queue' =>
      if (settle_at_block batch <=? now)%Z then
        let '(matured, rest) := settle_front now queue' in
        (batch_rewards batch ++ matured, rest)
      else ([], queue)
  end.

Definition set_pending_rewards st (queue : list (PendingRewardBatch F)) : TopoStakeConsensus F :=
  {| config := config st; base_reward := base_reward st; score_history := score_history st;
     active_score_history := active_score_history st; active_score_epoch := active_score_epoch st;
     next_epoch := next_epoch st; pending_score_roots := pending_score_roots st;
     normalized_score := normalized_score st; epoch_stake_snapshot := epoch_stake_snapshot st;
     unnormalized_proposer_weights := unnormalized_proposer_weights st;
     frozen_proposer_weights := frozen_proposer_weights st; epoch_bonuses := epoch_bonuses st;
     pending_rewards := queue |}.

Definition settle_matured_rewards st (now : Z) : TopoStakeConsensus F * list (BalanceDelta F) :=
  let '(matured, rest) := settle_front now (pending_rewards st) in
  (set_pending_rewards st rest, matured).

Definition distribute_rewards st block validators : TopoStakeConsensus F * list (BalanceDelta F) :=
  let plan := compute_block_rewards st block validators in
  let st := match rp_rewards plan with
            | [] => st
            | _ => set_pending_rewards st (pending_rewards st ++
                     [mkBatch (u64_add (h_index (header block)) (reward_settlement_depth (config st)))
                        (rp_rewards plan)])
            end in
  settle_matured_rewards st (h_index (header block)).

(** ** Proposer selection *)

(** [gen_range(0.0..total_weight)] panics on an empty range: not reached, the
    total is positive there unless it is a NaN. *)
Definition select_with_frozen_weights st validators (seed : bytes)
    : Outcome (TopoStakeConsensus F * Result (Validator F) ValidatorError) :=
  match validators with
  | [] => Ret (st, Err NOValidatorError)
  | _ =>
      let st := if decide (frozen_proposer_weights st = ∅) then freeze_proposer_weights st validators
                else st in
      let weight v := get_or f0 (frozen_proposer_weights st) (v_address v) in
      let total_weight := fsum (map weight validators) in
      if f_leb total_weight f0 then Ret (st, Err NOValidatorError) else
      if negb (f_ltb f0 total_weight) then Panic else
      let random_value := gen_range_f64 seed total_weight in
      match weighted_walk f_geb weight random_value f0 validators with
      | Some v => Ret (st, Ok v)
      | None => match last validators with
                | Some v => Ret (st, Ok v)
                | None => Ret (st, Err NOValidatorError)
                end
      end
  end.

(** ** Epoch scores *)

(** One transaction's credit to the relays of its path. *)
Definition credit_transaction cfg (vset : gset string) block (raw : gmap string F)
    (itx : nat * Transaction F) : gmap string F :=
  let '(idx, tx) := itx in
  match eligible_path cfg block idx tx with
  | None => raw
  | Some nodes =>
      let path_length := length nodes - 1 in
      fold_left (fun raw position =>
        let relayer := nth position nodes "" in
        if decide (relayer ∈ vset) then
          let g := gamma_for_depth (target_depth cfg) position path_length in
          let q := transaction_credit_weight (tx_irrecoverable_cost tx) (score_cost_reference cfg) in
          entry_update f0 (fun x => f_add x (f_mul q g)) relayer raw
        else raw) (relay_positions path_length) raw
  end.

Definition raw_epoch_contribution st (blocks : list (Block F)) validators : gmap string F :=
  let vset := validator_set validators in
  fold_left (fun raw block =>
    fold_left (credit_transaction (config st) vset block) (enumerate (transactions (body block))) raw)
    blocks ∅.

Definition set_score_history st (scores : gmap string F) : TopoStakeConsensus F :=
  {| config := config st; base_reward := base_reward st; score_history := scores;
     active_score_history := active_score_history st; active_score_epoch := active_score_epoch st;
     next_epoch := next_epoch st; pending_score_roots := pending_score_roots st;
     normalized_score := normalized_score st; epoch_stake_snapshot := epoch_stake_snapshot st;
     unnormalized_proposer_weights := unnormalized_proposer_weights st;
     frozen_proposer_weights := frozen_proposer_weights st; epoch_bonuses := epoch_bonuses st;
     pending_rewards := pending_rewards st |}.

Definition next_score st (stake raw : gmap string F) (v : Validator F) : F :=
  let s_hat := get_or f0 stake (v_address v) in
  let r := get_or f0 raw (v_address v) in
  let saturated := saturated_contribution r s_hat (saturation_k (config st)) in
  let previous := get_or f0 (score_history st) (v_address v) in
  f_add (f_mul (beta (config st)) saturated) (f_mul (f_sub f1 (beta (config st))) previous).

Definition update_scores_from_epoch st (blocks : list (Block F)) validators : TopoStakeConsensus F :=
  let stake := normalized_stake validators in
  let raw := raw_epoch_contribution st blocks validators in
  set_score_history st
    (collect_map (map (fun v => (v_address v, next_score st stake raw v)) validators)).

(** The fields the score-root queue is made of. *)
Definition set_roots st (active : gmap string F) (epoch : option Z) (next : Z)
    (roots : list (PendingScoreRoot F)) : TopoStakeConsensus F :=
  {| config := config st; base_reward := base_reward st; score_history := score_history st;
     active_score_history := active; active_score_epoch := epoch; next_epoch := next;
     pending_score_roots := roots; normalized_score := normalized_score st;
     epoch_stake_snapshot := epoch_stake_snapshot st;
     unnormalized_proposer_weights := unnormalized_proposer_weights st;
     frozen_proposer_weights := frozen_proposer_weights st; epoch_bonuses := epoch_bonuses st;
     pending_rewards := pending_rewards st |}.

Definition enqueue_score_root st (epoch : Z) : TopoStakeConsensus F :=
  set_roots st (active_score_history st) (active_score_epoch st) (next_epoch st)
    (pending_score_roots st ++
     [mkRoot epoch (u64_add epoch (score_activation_delay_epochs (config st))) (score_history st)]).

Fixpoint activate_front (target : Z) (active : gmap string F) (epoch : option Z)
    (roots : list (PendingScoreRoot F)) : gmap string F * option Z * list (PendingScoreRoot F) :=
  match roots with
  | [] => (active, epoch, [])
  | root :: rest =>
      if (activates_at_epoch root <=? target)%Z
      then activate_front target (root_scores root) (Some (produced_epoch root)) rest
      else (active, epoch, roots)
  end.

Definition activate_score_roots_for_epoch st (target_epoch : Z) : TopoStakeConsensus F :=
  let '(active, epoch, roots) :=
    activate_front target_epoch (active_score_history st) (active_score_epoch st)
      (pending_score_roots st) in
  set_roots st active epoch (next_epoch st) roots.

Definition set_next_epoch st (n : Z) : TopoStakeConsensus F :=
  set_roots st (active_score_history st) (active_score_epoch st) n (pending_score_roots st).

Definition on_epoch_end st (blocks : list (Block F)) validators : TopoStakeConsensus F :=
  let epoch := next_epoch st in
  let st := update_scores_from_epoch st blocks validators in
  let st := enqueue_score_root st epoch in
  let st := set_next_epoch st (u64_add epoch 1) in
  let st := activate_score_roots_for_epoch st (next_epoch st) in
  freeze_proposer_weights st validators.

(** ** Metrics *)

Definition metrics_snapshot st : ConsensusMetricsSnapshot F := {|
  ms_depth := Some (target_depth (config st));
  ms_beta := Some (beta (config st));
  ms_eta := Some (eta (config st));
  ms_bonus_cap := Some (bonus_cap (config st));
  ms_saturation_k := Some (saturation_k (config st));
  ms_proposer_fee_ratio := Some (proposer_fee_ratio (config st));
  ms_score_floor_kappa := Some (score_floor_kappa (config st));
  ms_bonus_zeta := Some (bonus_zeta (config st));
  ms_score_cost_reference := Some (score_cost_reference (config st));
  ms_active_score_epoch := active_score_epoch st;
  ms_latest_score_epoch := u64_checked_sub (next_epoch st) 1;
  ms_score_history := active_score_history st;
  ms_latest_score_history := score_history st;
  ms_normalized_score := normalized_score st;
  ms_bonuses := epoch_bonuses st;
  ms_unnormalized_proposer_weights := unnormalized_proposer_weights st;
  ms_normalized_proposer_weights := frozen_proposer_weights st
|}.

Definition state_summary `{FloatFmt F} st : string :=
  protocol_version (config st) +:+ "(D=" +:+ pretty (target_depth (config st))
  +:+ "_beta=" +:+ fmt_fixed 2 (beta (config st)) +:+ "_eta=" +:+ fmt_fixed 2 (eta (config st))
  +:+ "_cap=" +:+ fmt_fixed 2 (bonus_cap (config st))
  +:+ "_score_epoch=" +:+ match active_score_epoch st with
                         | Some e => "Some(" +:+ pretty e +:+ ")"
                         | None => "None"
                         end
  +:+ "_pending_roots=" +:+ pretty (length (pending_score_roots st))
  +:+ "_pending_rewards=" +:+ pretty (length (pending_rewards st)) +:+ ")".

#[export] Instance topostake_consensus `{FloatFmt F} : Consensus F (TopoStakeConsensus F) := {|
  c_name := "TopoStake";
  c_select_proposer := select_with_frozen_weights;
  c_on_epoch_end := on_epoch_end;
  c_distribute_rewards := distribute_rewards;
  c_state_summary := state_summary;
  c_metrics_snapshot := metrics_snapshot;
  c_next_slot st _ _ := st
|}.

End topostake.
