(* ===== verification/TopoStakeFacts.v ===== *)
(** * Correctness of TopoStake

    Over the reals: proposer weights form a distribution and are bounded per
    validator and per coalition; fees are conserved; splitting an identity never
    pays.  Over any arithmetic: score roots activate with exactly the configured
    delay, and the settlement queue pays every reward once and in order. *)

From Stdlib Require Import Reals Lra Sorted.
From S2P Require Export TopoStake.
Local Open Scope rust_scope.

(** ** The path verifier the program uses *)

Section verifier.
Context {F : Type} `{F64 F} `{Crypto} `{TxSerde F}.

Lemma verify_uncached_no_panic reg a (t : Transaction F) miner epoch :
  Transaction_verify t = Ret true -> verify_at_epoch_uncached reg a t miner epoch <> Panic.
Proof.
  intros Ht. unfold verify_at_epoch_uncached, verify_at_epoch_with_cache. rewrite Ht. simpl.
  by repeat case_match.
Qed.

#[export] Instance registry_verifier_laws reg : PathVerifierLaws F (H := registry_verifier reg).
Proof.
  intros a t miner epoch Hv. unfold path_verifies, registry_verifier in Hv.
  destruct (verify_at_epoch_uncached reg a t miner epoch) as [[]|] eqn:E; try done.
  apply verify_uncached_sound in E as (_ & _ & [[Hf Hp]|(_ & _ & _ & Hnd & _)]); [|done].
  unfold full_path. rewrite Hp. simpl. apply NoDup_singleton.
Qed.

End verifier.

(** ** Proposer weights *)

Section weights.
Local Open Scope R_scope.
Implicit Types (m : gmap string R) (vs : list (Validator R)).

Lemma map_values_collect {V} (l : list (string * V)) :
  NoDup l.*1 -> map_values (collect_map l) ≡ₚ l.*2.
Proof. intros Hnd. unfold map_values. by rewrite (collect_map_to_list l Hnd). Qed.

Lemma map_values_fmap (f : R -> R) m : map_values (f <$> m) ≡ₚ map f (map_values m).
Proof.
  unfold map_values. rewrite map_to_list_fmap.
  induction (map_to_list m) as [|[k v] l IH]; simpl; [done|]. by constructor.
Qed.

Definition addrs vs : list string := map v_address vs.

(** A map built by inserting [f v] under the address of every validator. *)
Definition per_validator (f : Validator R -> R) vs : gmap string R :=
  collect_map (map (fun v => (v_address v, f v)) vs).

Lemma per_validator_get f vs v :
  NoDup (addrs vs) -> v ∈ vs -> get_or 0 (per_validator f vs) (v_address v) = f v.
Proof.
  intros Hnd Hv. unfold get_or, per_validator.
  rewrite (collect_map_lookup _ (v_address v) (f v)); [done|..].
  - change ((map (fun v => (v_address v, f v)) vs).*1) with (fst <$> ((fun v => (v_address v, f v)) <$> vs)).
    rewrite <- list_fmap_compose. exact Hnd.
  - by apply (list_elem_of_fmap_2 (fun v => (v_address v, f v))).
Qed.

Lemma per_validator_sum f vs : NoDup (addrs vs) -> fsum (map_values (per_validator f vs)) = fsum (map f vs).
Proof.
  intros Hnd. apply fsum_perm. unfold per_validator. rewrite map_values_collect.
  - change ((map (fun v => (v_address v, f v)) vs).*2) with (snd <$> ((fun v => (v_address v, f v)) <$> vs)).
    by rewrite <- list_fmap_compose.
  - change ((map (fun v => (v_address v, f v)) vs).*1) with (fst <$> ((fun v => (v_address v, f v)) <$> vs)).
    rewrite <- list_fmap_compose. exact Hnd.
Qed.

Lemma normalize_map_get m k :
  0 < fsum (map_values m) -> get_or 0 (normalize_map m) k = get_or 0 m k / fsum (map_values m).
Proof.
  intros Hs. unfold normalize_map. change (f_leb (fsum (map_values m)) f0) with (Rleb (fsum (map_values m)) 0).
  destruct (Rleb _ 0) eqn:E; [apply Rleb_le in E; lra|]. unfold get_or. rewrite lookup_fmap.
  destruct (m !! k); simpl; [done|]. unfold Rdiv. ring.
Qed.

Lemma normalize_map_nonneg m k :
  (forall k, 0 <= get_or 0 m k) -> 0 <= get_or 0 (normalize_map m) k.
Proof.
  intros Hn. unfold normalize_map. change (f_leb (fsum (map_values m)) f0) with (Rleb (fsum (map_values m)) 0).
  specialize (Hn k). unfold get_or in *. destruct (Rleb _ 0) eqn:E; rewrite lookup_fmap;
    destruct (m !! k); simpl in *; try (unfold f0; simpl); try lra.
  apply Rleb_gt in E. apply Rmult_le_pos; [done|]. left. by apply Rinv_0_lt_compat.
Qed.

(** A set of validators with distinct addresses and some stake. *)
Record staked vs : Prop := {
  st_nodup : NoDup (addrs vs);
  st_total : 0 < fsum (map (fun v => Rmax (v_stake v) 0) vs)
}.

Definition share vs (v : Validator R) : R := get_or 0 (normalized_stake vs) (v_address v).

Lemma share_eq vs v : staked vs -> v ∈ vs ->
  share vs v = Rmax (v_stake v) 0 / fsum (map (fun v => Rmax (v_stake v) 0) vs).
Proof.
  intros [Hnd Ht] Hv. unfold share, normalized_stake.
  change (collect_map _) with (per_validator (fun v => Rmax (v_stake v) 0) vs).
  rewrite normalize_map_get; rewrite per_validator_sum by done; [|done].
  by rewrite per_validator_get.
Qed.

Lemma share_nonneg vs v : staked vs -> v ∈ vs -> 0 <= share vs v.
Proof.
  intros Hs Hv. rewrite share_eq by done. apply Rmult_le_pos; [apply Rmax_r|].
  left. apply Rinv_0_lt_compat. apply Hs.
Qed.

Lemma shares_sum vs : staked vs -> fsum (map (share vs) vs) = 1.
Proof.
  intros Hs. set (T := fsum (map (fun v => Rmax (v_stake v) 0) vs)).
  rewrite (fsum_map_ext _ (fun v => / T * Rmax (v_stake v) 0)).
  - rewrite fsum_map_scale. fold T. pose proof (st_total _ Hs). unfold T. field. lra.
  - intros v Hv. rewrite share_eq by done. fold T. unfold Rdiv. ring.
Qed.

Lemma active_score_nonneg (scores : gmap string R) v : 0 <= active_score scores v.
Proof. unfold active_score, f0; simpl. apply Rmax_r. Qed.

(** The damped score mass of an active set stays below one. *)
Lemma damped_get scores vs kappa v : NoDup (addrs vs) -> v ∈ vs ->
  get_or 0 (damped_score_for_active_set scores vs kappa) (v_address v)
  = active_score scores v / (kappa + fsum (map (active_score scores) vs)).
Proof.
  intros Hnd Hv.
  exact (per_validator_get
           (fun v => active_score scores v / (kappa + fsum (map (active_score scores) vs))) vs v Hnd Hv).
Qed.

Context `{Rng R} `{PathVerifier R}.
Implicit Types (st : TopoStakeConsensus R) (cfg : TopoStakeConfig R).

(** The configuration a state is built with passed [validate]. *)
Definition config_ok cfg : Prop := validate cfg = Ok ().

Lemma config_ok_bounds cfg : config_ok cfg ->
  (1 <= target_depth cfg)%nat /\ 0 < beta cfg <= 1 /\ 0 < saturation_k cfg
  /\ 0 < score_cost_reference cfg /\ 0 < score_floor_kappa cfg /\ 0 < bonus_zeta cfg
  /\ 0 <= proposer_fee_ratio cfg < 1 /\ 0 <= eta cfg /\ 0 <= bonus_cap cfg
  /\ (1 <= score_activation_delay_epochs cfg)%Z /\ (2 <= max_path_hops cfg)%nat.
Proof.
  unfold config_ok, validate, f_gtb, f_geb, f0, f1; simpl. intros Hok.
  repeat match type of Hok with
  | (if ?c then _ else _) = _ => destruct c eqn:?; [done|]
  | (match ?d with left _ => _ | right _ => _ end) = _ => destruct d; [done|]
  end.
  repeat match goal with
  | E : negb _ = false |- _ => apply negb_false_iff, andb_true_iff in E as [? ?]
  end.
  f64_cases. split_and!; try lia; lra.
Qed.

Definition weight st vs (v : Validator R) : R :=
  weight_of (config st) (share vs v)
    (get_or 0 (damped_score_for_active_set (active_score_history st) vs
                 (score_floor_kappa (config st))) (v_address v)).

Definition frozen st vs (v : Validator R) : R :=
  get_or 0 (frozen_proposer_weights (freeze_proposer_weights st vs)) (v_address v).

Lemma bonus_of_bounds cfg s c : 0 <= bonus_cap cfg -> 0 <= bonus_of cfg s c <= bonus_cap cfg.
Proof.
  intros Hc. unfold bonus_of, f_gtb, f0; simpl. destruct (Rltb 0 s); [by apply propagation_bonus_bounds|lra].
Qed.

Lemma weight_bounds st vs v : config_ok (config st) -> staked vs -> v ∈ vs ->
  share vs v <= weight st vs v <= (1 + eta (config st) * bonus_cap (config st)) * share vs v.
Proof.
  intros Hcfg Hs Hv. apply config_ok_bounds in Hcfg as (_ & _ & _ & _ & _ & _ & _ & Heta & Hcap & _).
  pose proof (share_nonneg vs v Hs Hv) as Hsh. unfold weight, weight_of.
  set (b := bonus_of _ _ _). assert (Hb : 0 <= b <= bonus_cap (config st)) by (by apply bonus_of_bounds).
  unfold f1; simpl.
  assert (0 <= eta (config st) * b) by (apply Rmult_le_pos; lra).
  assert (eta (config st) * b <= eta (config st) * bonus_cap (config st)) by (apply Rmult_le_compat_l; lra).
  split.
  - rewrite <- (Rmult_1_r (share vs v)) at 1. apply Rmult_le_compat_l; lra.
  - rewrite Rmult_comm. apply Rmult_le_compat_r; lra.
Qed.

Lemma total_weight_ge_1 st vs : config_ok (config st) -> staked vs -> 1 <= fsum (map (weight st vs) vs).
Proof.
  intros Hcfg Hs. rewrite <- (shares_sum vs Hs). apply fsum_map_le. intros v Hv.
  by apply weight_bounds.
Qed.

Lemma frozen_eq st vs v : config_ok (config st) -> staked vs -> v ∈ vs ->
  frozen st vs v = weight st vs v / fsum (map (weight st vs) vs).
Proof.
  intros Hcfg Hs Hv. pose proof (total_weight_ge_1 st vs Hcfg Hs) as Hge. unfold frozen. simpl.
  change (collect_map _) with (per_validator (weight st vs) vs).
  rewrite normalize_map_get; rewrite per_validator_sum by apply Hs; [|lra].
  by rewrite per_validator_get by (done || apply Hs).
Qed.

Lemma frozen_sum st vs l : config_ok (config st) -> staked vs -> (forall v, v ∈ l -> v ∈ vs) ->
  fsum (map (frozen st vs) l) = fsum (map (weight st vs) l) / fsum (map (weight st vs) vs).
Proof.
  intros Hcfg Hs Hl. set (W := fsum (map (weight st vs) vs)).
  rewrite (fsum_map_ext _ (fun v => / W * weight st vs v)).
  - rewrite fsum_map_scale. unfold Rdiv. ring.
  - intros v Hv. rewrite frozen_eq by auto. fold W. unfold Rdiv. ring.
Qed.

(** Frozen proposer weights are a probability distribution: for a validated
    configuration and a validator set with distinct addresses and some positive
    stake, they are non-negative and sum to one. *)
Theorem frozen_weights_distribution st vs :
  config_ok (config st) -> staked vs ->
  fsum (map (frozen st vs) vs) = 1 /\ forall v, v ∈ vs -> 0 <= frozen st vs v <= 1.
Proof.
  intros Hcfg Hs. pose proof (total_weight_ge_1 st vs Hcfg Hs) as Hge.
  set (W := fsum (map (weight st vs) vs)) in *.
  assert (Hsum : fsum (map (frozen st vs) vs) = 1).
  { rewrite (frozen_sum st vs vs) by done. fold W. field. lra. }
  assert (Hnn : forall v, v ∈ vs -> 0 <= frozen st vs v).
  { intros v Hv. rewrite frozen_eq by done. fold W.
    apply Rmult_le_pos; [|left; apply Rinv_0_lt_compat; lra].
    pose proof (weight_bounds st vs v Hcfg Hs Hv). pose proof (share_nonneg vs v Hs Hv). lra. }
  split; [done|]. intros v Hv. split; [by apply Hnn|]. rewrite <- Hsum.
  apply elem_of_Permutation in Hv as [l Hl]. rewrite (fsum_map_perm _ _ _ Hl). cbn [map]. rewrite fsum_cons.
  assert (0 <= fsum (map (frozen st vs) l)); [|lra]. apply fsum_map_nonneg. intros x Hx. apply Hnn.
  rewrite Hl. by right.
Qed.

(** The bounded-bias guarantee: a coalition of validators that holds the stake
    share [a] is elected with total weight at most [a (1 + c) / (1 + a c)], where
    [c = eta * bonus_cap], whatever scores it has accumulated; in particular at
    most [(1 + c) a], and each validator at most [(1 + c)] times its own share. *)
Theorem coalition_weight_bound st vs (coalition rest : list (Validator R)) :
  config_ok (config st) -> staked vs -> vs ≡ₚ coalition ++ rest ->
  let c := eta (config st) * bonus_cap (config st) in
  let a := fsum (map (share vs) coalition) in
  fsum (map (frozen st vs) coalition) <= a * (1 + c) / (1 + a * c)
  /\ fsum (map (frozen st vs) coalition) <= (1 + c) * a
  /\ forall v, v ∈ vs -> frozen st vs v <= (1 + c) * share vs v.
Proof.
  intros Hcfg Hs Hp c a. pose proof (total_weight_ge_1 st vs Hcfg Hs) as Hge.
  assert (Hc : 0 <= c).
  { apply config_ok_bounds in Hcfg as (_ & _ & _ & _ & _ & _ & _ & Heta & Hcap & _). by apply Rmult_le_pos. }
  assert (Hin : forall v, v ∈ coalition \/ v ∈ rest -> v ∈ vs).
  { intros v Hv. rewrite Hp. by apply elem_of_app. }
  assert (Ha0 : 0 <= a) by (apply fsum_map_nonneg; intros v Hv; apply share_nonneg; auto).
  assert (Hshares : a + fsum (map (share vs) rest) = 1).
  { rewrite <- (shares_sum vs Hs). rewrite (fsum_map_perm (share vs) _ _ Hp). by rewrite map_app, fsum_app. }
  assert (HW : fsum (map (weight st vs) vs)
               = fsum (map (weight st vs) coalition) + fsum (map (weight st vs) rest)).
  { rewrite (fsum_map_perm (weight st vs) _ _ Hp). by rewrite map_app, fsum_app. }
  set (W := fsum (map (weight st vs) vs)) in *. set (WA := fsum (map (weight st vs) coalition)) in *.
  set (WR := fsum (map (weight st vs) rest)) in *.
  assert (HWA : a <= WA <= (1 + c) * a).
  { unfold WA, a. split; [|rewrite <- fsum_map_scale]; apply fsum_map_le; intros v Hv; apply weight_bounds; auto. }
  assert (HWR : 1 - a <= WR).
  { replace (1 - a) with (fsum (map (share vs) rest)) by lra. apply fsum_map_le. intros v Hv.
    apply weight_bounds; auto. }
  assert (Hfz : fsum (map (frozen st vs) coalition) = WA / W) by (apply frozen_sum; auto).
  assert (Hac : 0 <= a * c) by (by apply Rmult_le_pos).
  rewrite Hfz. split_and!.
  - apply Rdiv_le_of_mul; [lra|]. rewrite HW.
    apply Rmult_le_reg_r with (1 + a * c); [lra|].
    replace (a * (1 + c) / (1 + a * c) * (WA + WR) * (1 + a * c)) with (a * (1 + c) * (WA + WR)) by (field; lra).
    assert (WA * (1 - a) <= a * (1 + c) * WR); [|nra].
    assert (a <= 1) by (pose proof (fsum_map_nonneg (share vs) rest ltac:(intros; apply share_nonneg; auto)); lra).
    apply Rle_trans with ((1 + c) * a * (1 - a)); [apply Rmult_le_compat_r; lra|].
    replace (a * (1 + c) * WR) with ((1 + c) * a * WR) by ring.
    apply Rmult_le_compat_l; [apply Rmult_le_pos; lra|lra].
  - apply Rdiv_le_of_mul; [lra|]. nra.
  - intros v Hv. rewrite frozen_eq by done. fold W. apply Rdiv_le_of_mul; [lra|].
    pose proof (weight_bounds st vs v Hcfg Hs Hv) as [_ Hw]. fold c in Hw.
    pose proof (share_nonneg vs v Hs Hv) as Hsh.
    apply Rle_trans with ((1 + c) * share vs v * 1); [lra|].
    apply Rmult_le_compat_l; [apply Rmult_le_pos; lra|lra].
Qed.

(** The damped score mass of an active set is below one: with a positive
    floor, the scores handed to the bonus are non-negative and their sum is
    [S / (kappa + S) < 1], so small absolute scores give small bonuses. *)
Theorem damped_mass_below_one (scores : gmap string R) vs (kappa : R) :
  NoDup (addrs vs) -> 0 < kappa ->
  let d := damped_score_for_active_set scores vs kappa in
  let mass := fsum (map (active_score scores) vs) in
  fsum (map (fun v => get_or 0 d (v_address v)) vs) = mass / (kappa + mass)
  /\ 0 <= mass / (kappa + mass) < 1
  /\ forall v, v ∈ vs -> 0 <= get_or 0 d (v_address v).
Proof.
  intros Hnd Hk d mass.
  assert (Hm : 0 <= mass) by (apply fsum_map_nonneg; intros; apply active_score_nonneg).
  assert (Hpos : forall x, 0 <= x -> 0 <= x / (kappa + mass)).
  { intros x Hx. apply Rmult_le_pos; [done|]. left. apply Rinv_0_lt_compat. lra. }
  split_and!.
  - rewrite (fsum_map_ext _ (fun v => / (kappa + mass) * active_score scores v)).
    + rewrite fsum_map_scale. fold mass. unfold Rdiv. ring.
    + intros v Hv. unfold d. rewrite damped_get by done. fold mass. unfold Rdiv. ring.
  - by apply Hpos.
  - apply Rmult_lt_reg_r with (kappa + mass); [lra|]. unfold Rdiv. rewrite Rmult_assoc, Rinv_l by lra. lra.
  - intros v Hv. unfold d. rewrite damped_get by done. apply Hpos, active_score_nonneg.
Qed.

End weights.

(** ** Rewards conserve fees *)

Section rewards.
Local Open Scope R_scope.
Context `{Rng R} `{PathVerifier R}.
Implicit Types (st : TopoStakeConsensus R).

Definition amounts (l : list (BalanceDelta R)) : R := fsum (map bd_amount l).

Lemma amounts_app l1 l2 : amounts (l1 ++ l2) = amounts l1 + amounts l2.
Proof. unfold amounts. by rewrite map_app, fsum_app. Qed.

(** What position [i] of a path is paid. *)
Definition pay_at (D : nat) (vset : gset string) (budget : R) (nodes : list string) (i : nat) : R :=
  if decide (nth i nodes "" ∈ vset) then budget * gamma_for_depth D i (length nodes - 1) else 0.

Lemma pay_at_bounds D vset budget nodes i : path_fits (length nodes - 1) -> 0 <= budget ->
  0 <= pay_at D vset budget nodes i <= budget * gamma_for_depth D i (length nodes - 1).
Proof.
  intros Hf Hb. unfold pay_at. pose proof (gamma_nonneg D i (length nodes - 1) Hf).
  assert (0 <= budget * gamma_for_depth D i (length nodes - 1)) by (by apply Rmult_le_pos).
  case_decide; lra.
Qed.

(** A payment goes to a relay of the path that is a validator. *)
Definition paid_to (vset : gset string) (nodes : list string) (d : BalanceDelta R) : Prop :=
  0 < bd_amount d /\ bd_address d ∈ vset
  /\ exists i, (1 <= i < length nodes - 1)%nat /\ bd_address d = nth i nodes "".

Lemma pay_step_spec D vset budget nodes paid rewards i :
  path_fits (length nodes - 1) -> 0 <= budget -> (1 <= i < length nodes - 1)%nat ->
  exists pushed, pay_step D vset budget nodes (paid, rewards) i = (paid + amounts pushed, rewards ++ pushed)
    /\ amounts pushed = pay_at D vset budget nodes i /\ Forall (paid_to vset nodes) pushed.
Proof.
  intros Hf Hb Hi. unfold pay_step, pay_at. set (m := (length nodes - 1)%nat) in *.
  pose proof (gamma_nonneg D i m Hf) as Hg. set (x := budget * gamma_for_depth D i m).
  assert (Hx : 0 <= x) by (by apply Rmult_le_pos).
  assert (Hnil : amounts [] = 0) by (unfold amounts; simpl; by rewrite fsum_nil).
  case_decide as Hin; [|exists []; rewrite Hnil, Rplus_0_r, app_nil_r; by split_and!].
  change (f_gtb (f_mul budget (gamma_for_depth D i m)) f0) with (Rltb 0 x).
  destruct (Rltb 0 x) eqn:Ex.
  - apply Rltb_lt in Ex. exists [mkBalanceDelta (nth i nodes "") x].
    assert (amounts [mkBalanceDelta (nth i nodes "") x] = x) as ->.
    { unfold amounts. cbn [map bd_amount]. rewrite fsum_cons, fsum_nil. lra. }
    split_and!; [done..|]. apply Forall_singleton. split_and!; [done..|]. by exists i.
  - apply Rltb_ge in Ex. exists []. rewrite Hnil, Rplus_0_r, app_nil_r. split_and!; [done|lra|constructor].
Qed.

(** The loop over relay positions, with its result in closed form. *)
Lemma relay_payments_spec D vset budget nodes : path_fits (length nodes - 1) -> 0 <= budget ->
  exists pushed, relay_payments D vset budget nodes = (amounts pushed, pushed)
    /\ amounts pushed = fsum (map (pay_at D vset budget nodes) (relay_positions (length nodes - 1)))
    /\ Forall (paid_to vset nodes) pushed.
Proof.
  intros Hf Hb. unfold relay_payments, relay_positions.
  assert (Hgen : forall l paid rewards, (forall i, i ∈ l -> (1 <= i < length nodes - 1)%nat) -> exists pushed,
    fold_left (pay_step D vset budget nodes) l (paid, rewards) = (paid + amounts pushed, rewards ++ pushed)
    /\ amounts pushed = fsum (map (pay_at D vset budget nodes) l) /\ Forall (paid_to vset nodes) pushed).
  { induction l as [|i l IH]; intros paid rewards Hl.
    { exists []. unfold amounts. simpl. rewrite fsum_nil, Rplus_0_r, app_nil_r. by split_and!. }
    destruct (pay_step_spec D vset budget nodes paid rewards i Hf Hb) as (p1 & E1 & A1 & F1).
    { apply Hl. left. }
    destruct (IH (paid + amounts p1) (rewards ++ p1)) as (p2 & E2 & A2 & F2).
    { intros; apply Hl; by right. }
    exists (p1 ++ p2). cbn [fold_left map]. rewrite E1, E2, amounts_app, fsum_cons, A1, A2.
    split_and!; [f_equal; [lra|by rewrite app_assoc]|done|by apply Forall_app_2]. }
  destruct (Hgen (seq 1 (length nodes - 1 - 1)) 0 [] ltac:(intros i Hi%elem_of_seq; lia)) as (pushed & E & Ha & Hd).
  exists pushed. split_and!; [|done|done]. rewrite Rplus_0_l, app_nil_l in E. exact E.
Qed.

Lemma relay_payments_bounded D vset budget nodes paid pushed :
  path_fits (length nodes - 1) -> 0 <= budget ->
  relay_payments D vset budget nodes = (paid, pushed) -> 0 <= paid <= budget /\ amounts pushed = paid.
Proof.
  intros Hf Hb E. destruct (relay_payments_spec D vset budget nodes Hf Hb) as (pushed' & E' & Ha & _).
  rewrite E' in E. injection E as <- <-. set (m := (length nodes - 1)%nat) in *.
  split; [|done]. rewrite Ha. split.
  - apply fsum_map_nonneg. intros i _. by apply pay_at_bounds.
  - apply Rle_trans with (fsum (map (fun i => budget * gamma_for_depth D i m) (relay_positions m))).
    + apply fsum_map_le. intros i _. by apply pay_at_bounds.
    + rewrite fsum_map_scale. destruct (decide (2 <= m)%nat) as [Hm|Hm].
      * rewrite relay_shares_sum by done. pose proof (path_budget_bounds D m Hf).
        rewrite <- (Rmult_1_r budget) at 2. apply Rmult_le_compat_l; lra.
      * unfold relay_positions. replace (m - 1)%nat with 0%nat by lia. simpl. rewrite fsum_nil. lra.
Qed.

Lemma eligible_path_fits (cfg : TopoStakeConfig R) block idx tx nodes :
  path_fits (max_path_hops cfg) -> eligible_path cfg block idx tx = Some nodes ->
  path_fits (length nodes - 1).
Proof.
  unfold eligible_path, path_fits, valid_path_record. intros Hf. destruct (paths (body block) !! idx); [|done].
  destruct (bool_decide _) eqn:E; simpl; [|done]. apply bool_decide_eq_true in E.
  case_match; [done|]. case_decide; [done|]. intros [= <-]. lia.
Qed.

(** The loop over the transactions of a block: relay rewards and burned fees
    account for the relay budgets. *)
Lemma reward_fold st block vset : config_ok (config st) -> path_fits (max_path_hops (config st)) ->
  forall l rewards relay burned,
  (forall itx, itx ∈ l -> 0 <= tx_fee itx.2) ->
  exists rewards' relay' burned',
    fold_left (reward_step st block vset) l (rewards, relay, burned) = (rewards', relay', burned')
    /\ relay' + burned' = relay + burned
        + (1 - proposer_fee_ratio (config st)) * fsum (map (fun itx => tx_fee itx.2) l)
    /\ amounts rewards' - amounts rewards = relay' - relay /\ relay <= relay' /\ burned <= burned'.
Proof.
  intros Hcfg Hfit. apply config_ok_bounds in Hcfg as (_ & _ & _ & _ & _ & _ & Hth & _).
  induction l as [|[idx tx] l IH]; intros rewards relay burned Hl.
  { exists rewards, relay, burned. simpl. rewrite fsum_nil. split_and!; try done; lra. }
  assert (Hl' : forall itx, itx ∈ l -> 0 <= tx_fee itx.2) by (intros; apply Hl; by right).
  assert (Hfee : 0 <= tx_fee tx) by (apply (Hl (idx, tx)); left).
  set (th := proposer_fee_ratio (config st)) in *. set (budget := (1 - th) * tx_fee tx).
  assert (Hb : 0 <= budget) by (apply Rmult_le_pos; lra).
  cbn [fold_left map snd]. rewrite fsum_cons. unfold reward_step at 2.
  change (f_mul (f_sub f1 (proposer_fee_ratio (config st))) (tx_fee tx)) with budget.
  destruct (eligible_path (config st) block idx tx) as [nodes|] eqn:Ee.
  - destruct (relay_payments _ vset budget nodes) as [paid pushed] eqn:Ep.
    apply relay_payments_bounded in Ep as [Hpaid Ham]; [|by eapply eligible_path_fits|done].
    destruct (IH (rewards ++ pushed) (relay + paid) (burned + Rmax (budget - paid) 0) Hl')
      as (r' & rl' & b' & E & Hsum & Ha & Hr & Hbn).
    exists r', rl', b'. rewrite amounts_app in Ha.
    rewrite (Rmax_left (budget - paid) 0) in Hsum, Hbn by lra.
    split_and!; [exact E|unfold budget in *; lra|lra..].
  - destruct (IH rewards relay (burned + budget) Hl') as (r' & rl' & b' & E & Hsum & Ha & Hr & Hbn).
    exists r', rl', b'. split_and!; [exact E|unfold budget in *; lra|lra..].
Qed.

Lemma map_snd_enumerate {A B} (f : A -> B) (l : list A) : map (fun ix => f ix.2) (enumerate l) = map f l.
Proof.
  assert (Hgen : forall (g : nat -> A -> nat * A), (forall i x, (g i x).2 = x) ->
    map (fun ix => f ix.2) (imap g l) = map f l); [|apply Hgen; done].
  induction l as [|x l IH]; intros g Hg; simpl; [done|]. rewrite Hg. f_equal. apply IH. intros. apply Hg.
Qed.

Lemma elem_of_enumerate {A} (l : list A) i x : (i, x) ∈ enumerate l -> l !! i = Some x.
Proof. unfold enumerate. intros Hi. apply elem_of_lookup_imap in Hi as (j & y & [= -> ->] & Hy). done. Qed.

Lemma plan_conserves st (block : Block R) (validators : list (Validator R)) :
  config_ok (config st) -> path_fits (max_path_hops (config st)) ->
  (forall tx, tx ∈ transactions (body block) -> 0 <= tx_fee tx) ->
  let p := compute_block_rewards st block validators in
  rp_proposer_reward p + rp_relay_reward p + rp_burned_relay_fee p = base_reward st + rp_total_fee p
  /\ amounts (rp_rewards p) = rp_proposer_reward p + rp_relay_reward p
  /\ 0 <= rp_relay_reward p /\ 0 <= rp_burned_relay_fee p.
Proof.
  intros Hcfg Hfit Hfee p. unfold p, compute_block_rewards.
  set (fee := fsum (map tx_fee (transactions (body block)))).
  set (pr := f_add (base_reward st) (f_mul (proposer_fee_ratio (config st)) fee)).
  destruct (reward_fold st block (validator_set validators) Hcfg Hfit
              (enumerate (transactions (body block))) [mkBalanceDelta (h_miner (header block)) pr] 0 0)
    as (r' & rl' & b' & E & Hsum & Ha & Hr & Hb).
  { intros [i tx] Hi. apply Hfee. apply elem_of_enumerate in Hi. by eapply list_elem_of_lookup_2. }
  change (f0 (F := R)) with 0. rewrite E. cbn [rp_proposer_reward rp_relay_reward rp_burned_relay_fee rp_rewards rp_total_fee].
  rewrite (map_snd_enumerate tx_fee) in Hsum. fold fee in Hsum.
  assert (Hone : amounts [mkBalanceDelta (h_miner (header block)) pr] = pr).
  { unfold amounts. cbn [map bd_amount]. rewrite fsum_cons, fsum_nil. lra. }
  assert (Hpr : pr = base_reward st + proposer_fee_ratio (config st) * fee) by done.
  rewrite Hone in Ha. split_and!; lra.
Qed.

(** C8: Fees are conserved: for a block with non-negative fees under a validated
    configuration, what the proposer earns, what the relays earn and what is
    burned add up to the base reward plus the block's fees; the balance deltas
    handed out add up to the proposer's and the relays' rewards; and neither the
    relays' total nor the burned amount is negative. *)
Theorem fees_conserved st (block : Block R) (validators : list (Validator R)) :
  config_ok (config st) -> path_fits (max_path_hops (config st)) ->
  (forall tx, tx ∈ transactions (body block) -> 0 <= tx_fee tx) ->
  let p := compute_block_rewards st block validators in
  rp_proposer_reward p + rp_relay_reward p + rp_burned_relay_fee p = base_reward st + rp_total_fee p
  /\ amounts (rp_rewards p) = rp_proposer_reward p + rp_relay_reward p
  /\ 0 <= rp_relay_reward p /\ 0 <= rp_burned_relay_fee p.
Proof. intros. by apply plan_conserves. Qed.

End rewards.

(** ** The settlement queue *)

Section settlement.
Context {F : Type} `{F64 F} `{Rng F} `{PathVerifier F}.
Implicit Types (st : TopoStakeConsensus F) (q : list (PendingRewardBatch F)).

Definition queued q : list (BalanceDelta F) := concat (map batch_rewards q).

Lemma queued_app q1 q2 : queued (q1 ++ q2) = queued q1 ++ queued q2.
Proof. unfold queued. by rewrite map_app, concat_app. Qed.

Lemma settle_front_split now q :
  queued q = (settle_front now q).1 ++ queued (settle_front now q).2.
Proof.
  induction q as [|b q IH]; [done|]. simpl. case_match; [|done].
  destruct (settle_front now q) as [m r]. simpl in *. rewrite <- app_assoc, <- IH. done.
Qed.

(** The blocks of the canonical chain, settled one after the other. *)
Fixpoint settle_run st (l : list (Block F * list (Validator F)))
    : TopoStakeConsensus F * list (BalanceDelta F) :=
  match l with
  | [] => (st, [])
  | (b, vs) :: l =>
      let '(st1, paid) := distribute_rewards st b vs in
      let '(st2, paid') := settle_run st1 l in
      (st2, paid ++ paid')
  end.

Definition planned st (l : list (Block F * list (Validator F))) : list (BalanceDelta F) :=
  concat (map (fun bv => rp_rewards (compute_block_rewards st bv.1 bv.2)) l).

Definition due st (b : Block F) : Z := u64_add (h_index (header b)) (reward_settlement_depth (config st)).

Lemma reward_step_rewards st b vset l : forall acc,
  exists pushed, (fold_left (reward_step st b vset) l acc).1.1 = acc.1.1 ++ pushed.
Proof.
  induction l as [|[i tx] l IH]; intros [[rw rl] bn]; simpl.
  { exists []. by rewrite app_nil_r. }
  destruct (IH (reward_step st b vset (rw, rl, bn) (i, tx))) as [pushed Hp].
  assert (Hs : exists k, (reward_step st b vset (rw, rl, bn) (i, tx)).1.1 = rw ++ k).
  { simpl. destruct (eligible_path _ _ _ _); [|exists []; by rewrite app_nil_r].
    destruct (relay_payments _ _ _ _) as [pd ps]. by exists ps. }
  destruct Hs as [k Hk]. exists (k ++ pushed). rewrite app_assoc, <- Hk. exact Hp.
Qed.

(** The proposer is always paid, so a plan is never empty. *)
Lemma plan_nonempty st b vs : rp_rewards (compute_block_rewards st b vs) <> [].
Proof.
  unfold compute_block_rewards.
  destruct (reward_step_rewards st b (validator_set vs) (enumerate (transactions (body b)))
    ([mkBalanceDelta (h_miner (header b)) (f_add (base_reward st)
        (f_mul (proposer_fee_ratio (config st)) (fsum (map tx_fee (transactions (body b))))))], f0, f0)) as [k Hk].
  destruct (fold_left _ _ _) as [[rw rl] bn]. simpl in *. by rewrite Hk.
Qed.

Lemma distribute_rewards_eq st b vs :
  distribute_rewards st b vs
  = let r := settle_front (h_index (header b))
               (pending_rewards st ++ [mkBatch (due st b) (rp_rewards (compute_block_rewards st b vs))]) in
    (set_pending_rewards st r.2, r.1).
Proof.
  unfold distribute_rewards, settle_matured_rewards. pose proof (plan_nonempty st b vs).
  destruct (rp_rewards (compute_block_rewards st b vs)) as [|d l] eqn:E; [done|].
  unfold due. simpl. by destruct (settle_front _ _).
Qed.

(** C9: Every planned reward is paid exactly once and in order: settling any
    sequence of blocks, what has been paid followed by what is still queued is
    what was queued before followed by the blocks' reward plans; the rest of the
    state is untouched. *)
Theorem settlement_exactly_once st l :
  let '(st', paid) := settle_run st l in
  paid ++ queued (pending_rewards st') = queued (pending_rewards st) ++ planned st l
  /\ st' = set_pending_rewards st (pending_rewards st').
Proof.
  revert st. induction l as [|[b vs] l IH]; intros st.
  { simpl. unfold planned. simpl. rewrite app_nil_r. split; [done|]. by destruct st. }
  cbn [settle_run]. rewrite distribute_rewards_eq. cbv zeta.
  set (plan := rp_rewards (compute_block_rewards st b vs)).
  set (r := settle_front _ _). pose proof (settle_front_split (h_index (header b))
    (pending_rewards st ++ [mkBatch (due st b) plan])) as Hsplit. fold r in Hsplit.
  specialize (IH (set_pending_rewards st r.2)). cbv beta iota.
  destruct (settle_run (set_pending_rewards st r.2) l) as [st2 paid'].
  destruct IH as [IH1 IH2]. cbv beta iota. split; [|exact IH2].
  rewrite <- app_assoc, IH1. simpl (pending_rewards (set_pending_rewards _ _)).
  rewrite app_assoc, <- Hsplit, queued_app. unfold queued at 2. simpl. rewrite app_nil_r, <- app_assoc.
  done.
Qed.

(** *** Timing *)

Lemma settle_front_sorted now q :
  StronglySorted (fun a b => (settle_at_block a <= settle_at_block b)%Z) q ->
  settle_front now q = (queued (filter (fun b => (settle_at_block b <= now)%Z) q),
                        filter (fun b => (now < settle_at_block b)%Z) q).
Proof.
  induction 1 as [|b q Hq IH Hb]; [done|]. cbn [settle_front].
  destruct (Z.leb_spec (settle_at_block b) now) as [Hle|Hgt].
  - rewrite IH, filter_cons_True by done. rewrite (filter_cons_False (fun b => (now < settle_at_block b)%Z)) by lia.
    done.
  - rewrite filter_cons_False by lia. rewrite (filter_cons_True (fun b => (now < settle_at_block b)%Z)) by done.
    rewrite list_filter_none; [|eapply Forall_impl; [exact Hb|simpl; lia]].
    rewrite list_filter_all; [done|]. eapply Forall_impl; [exact Hb|simpl; lia].
Qed.

Abbreviation sorted_queue := (StronglySorted (fun a b => (settle_at_block a <= settle_at_block b)%Z)).

Definition batch_of st (bv : Block F * list (Validator F)) : PendingRewardBatch F :=
  mkBatch (due st bv.1) (rp_rewards (compute_block_rewards st bv.1 bv.2)).

Definition due_by (now : Z) (b : PendingRewardBatch F) : Prop := (settle_at_block b <= now)%Z.
Definition due_after (now : Z) (b : PendingRewardBatch F) : Prop := (now < settle_at_block b)%Z.

#[export] Instance due_by_dec now b : Decision (due_by now b).
Proof. unfold due_by. apply _. Defined.
#[export] Instance due_after_dec now b : Decision (due_after now b).
Proof. unfold due_after. apply _. Defined.

(** Settling at [i] and later at [n] is settling at [n]. *)
Lemma filter_due_twice i n q : (i <= n)%Z -> sorted_queue q ->
  filter (due_by n) q = filter (due_by i) q ++ filter (due_by n) (filter (due_after i) q)
  /\ filter (due_after n) (filter (due_after i) q) = filter (due_after n) q.
Proof.
  intros Hin. induction 1 as [|b q Hq [IH1 IH2] Hb]; [done|].
  destruct (decide (settle_at_block b <= i)%Z) as [Hle|Hgt].
  - rewrite (filter_cons_True (due_by n)), (filter_cons_True (due_by i)),
      (filter_cons_False (due_after i)), (filter_cons_False (due_after n))
      by (unfold due_by, due_after; lia).
    by rewrite IH1, IH2.
  - assert (Hall : Forall (due_after i) (b :: q)).
    { constructor; [unfold due_after; lia|]. eapply Forall_impl; [exact Hb|]. unfold due_after; simpl; lia. }
    assert (Hnone : Forall (fun x => ~ due_by i x) (b :: q)).
    { eapply Forall_impl; [exact Hall|]. unfold due_by, due_after. simpl. lia. }
    by rewrite (list_filter_all _ _ Hall), (list_filter_none _ _ Hnone).
Qed.

Lemma sorted_app_filter q1 q2 (P : PendingRewardBatch F -> Prop) `{!forall x, Decision (P x)} :
  sorted_queue (q1 ++ q2) -> sorted_queue (filter P q1 ++ q2) /\ sorted_queue q1.
Proof.
  induction q1 as [|x q1 IH]; simpl; intros Hs; [split; [done|constructor]|].
  inversion_clear Hs as [|? ? Hs' Hf]. destruct (IH Hs') as [H1' H2'].
  apply Forall_app in Hf as [Hf1 Hf2]. split; [|by constructor].
  destruct (decide (P x)); [|by rewrite filter_cons_False].
  rewrite filter_cons_True by done. simpl. constructor; [done|]. apply Forall_app_2; [|done].
  apply Forall_forall. intros y Hy. apply list_elem_of_filter in Hy as [_ Hy].
  rewrite Forall_forall in Hf1. by apply Hf1.
Qed.

Lemma settle_front_due now q : sorted_queue q ->
  settle_front now q = (queued (filter (due_by now) q), filter (due_after now) q).
Proof. apply settle_front_sorted. Qed.

(** A run from a sorted queue, by the index of its last block. *)
Lemma settle_run_sorted l : forall st b vs,
  sorted_queue (pending_rewards st ++ map (batch_of st) (l ++ [(b, vs)])) ->
  Forall (fun bv => (h_index (header bv.1) <= h_index (header b))%Z) l ->
  let r := settle_run st (l ++ [(b, vs)]) in
  let q := pending_rewards st ++ map (batch_of st) (l ++ [(b, vs)]) in
  r.2 = queued (filter (due_by (h_index (header b))) q)
  /\ pending_rewards r.1 = filter (due_after (h_index (header b))) q.
Proof.
  induction l as [|[b0 vs0] l IH]; intros st b vs Hs Hidx; cbn [app settle_run map].
  - rewrite distribute_rewards_eq. cbn [app map] in Hs.
    change (mkBatch (due st b) _) with (batch_of st (b, vs)).
    rewrite settle_front_due by exact Hs. cbn [fst snd]. by rewrite app_nil_r.
  - inversion_clear Hidx as [|? ? Hb0 Hl]. simpl in Hb0. cbn [app map] in Hs.
    rewrite distribute_rewards_eq. change (mkBatch (due st b0) _) with (batch_of st (b0, vs0)).
    set (Q := pending_rewards st ++ [batch_of st (b0, vs0)]).
    assert (HQ : sorted_queue (Q ++ map (batch_of st) (l ++ [(b, vs)]))) by (unfold Q; by rewrite <- app_assoc).
    destruct (sorted_app_filter Q _ (due_after (h_index (header b0))) HQ) as [HQf HQs].
    rewrite settle_front_due by done. cbn [fst snd].
    set (st1 := set_pending_rewards st (filter (due_after (h_index (header b0))) Q)).
    assert (Hbatch : map (batch_of st1) (l ++ [(b, vs)]) = map (batch_of st) (l ++ [(b, vs)])).
    { done. }
    destruct (IH st1 b vs) as [E1 E2]; [by rewrite Hbatch|done|].
    rewrite Hbatch in E1, E2. destruct (settle_run st1 (l ++ [(b, vs)])) as [st2 p2]. cbn [fst snd] in *.
    destruct (filter_due_twice (h_index (header b0)) (h_index (header b)) Q Hb0 HQs) as [T1 T2].
    rewrite E1, E2. simpl (pending_rewards st1).
    replace (pending_rewards st ++ batch_of st (b0, vs0) :: map (batch_of st) (l ++ [(b, vs)]))
      with (Q ++ map (batch_of st) (l ++ [(b, vs)])) by (unfold Q; by rewrite <- app_assoc).
    rewrite !filter_app, !queued_app, T1, T2, queued_app. by rewrite app_assoc.
Qed.

(** Blocks in chain order, with no index close to the end of the range. *)
Definition ordered_blocks st (l : list (Block F * list (Validator F))) : Prop :=
  StronglySorted (fun a b => (h_index (header a.1) <= h_index (header b.1))%Z) l
  /\ (0 <= reward_settlement_depth (config st))%Z
  /\ Forall (fun a => (0 <= h_index (header a.1))%Z
       /\ (h_index (header a.1) + reward_settlement_depth (config st) <= U64_MAX)%Z) l.

Lemma StronglySorted_map_in {A B} (f : A -> B) (R : relation A) (R' : relation B) l :
  (forall a b, a ∈ l -> b ∈ l -> R a b -> R' (f a) (f b)) ->
  StronglySorted R l -> StronglySorted R' (map f l).
Proof.
  intros Hf. induction 1 as [|x l Hs IH Hx]; simpl; [constructor|]. constructor.
  - apply IH. intros; apply Hf; try done; by right.
  - apply Forall_forall. intros y Hy. apply list_elem_of_fmap in Hy as (z & -> & Hz).
    rewrite Forall_forall in Hx. apply Hf; [left|by right|by apply Hx].
Qed.

Lemma sorted_last {A} (R : A -> A -> Prop) l x : StronglySorted R (l ++ [x]) -> Forall (fun y => R y x) l.
Proof.
  induction l as [|z l IH]; simpl; intros Hs; [constructor|].
  inversion_clear Hs as [|? ? Hs' Hf]. constructor; [|by apply IH].
  apply Forall_app in Hf as [_ Hzx]. by inversion Hzx.
Qed.

Lemma due_eq st b : (0 <= h_index (header b))%Z -> (0 <= reward_settlement_depth (config st))%Z ->
  (h_index (header b) + reward_settlement_depth (config st) <= U64_MAX)%Z ->
  due st b = (h_index (header b) + reward_settlement_depth (config st))%Z.
Proof. intros Hi Hd Hm. unfold due. apply u64_add_small; [split; lia|lia|lia]. Qed.

(** Rewards are settled with exactly the configured depth: after a run of
    blocks in chain order from an empty queue, the rewards paid are those of the
    blocks whose index plus the settlement depth has been reached by the last
    block, in order, and the queue holds exactly those of the others. *)
Theorem settlement_timing st l b vs :
  pending_rewards st = [] -> ordered_blocks st (l ++ [(b, vs)]) ->
  let '(st', paid) := settle_run st (l ++ [(b, vs)]) in
  let batches := map (batch_of st) (l ++ [(b, vs)]) in
  paid = queued (filter (due_by (h_index (header b))) batches)
  /\ pending_rewards st' = filter (due_after (h_index (header b))) batches
  /\ forall bv, bv ∈ l ++ [(b, vs)] ->
       settle_at_block (batch_of st bv) = (h_index (header bv.1) + reward_settlement_depth (config st))%Z.
Proof.
  intros Hnil (Hs & Hd & Hok). rewrite Forall_forall in Hok.
  assert (Hdue : forall bv, bv ∈ l ++ [(b, vs)] ->
    settle_at_block (batch_of st bv) = (h_index (header bv.1) + reward_settlement_depth (config st))%Z).
  { intros bv Hbv. destruct (Hok bv Hbv). by apply due_eq. }
  destruct (settle_run_sorted l st b vs) as [E1 E2].
  - rewrite Hnil. simpl. eapply StronglySorted_map_in; [|exact Hs]. intros x y Hx Hy Hxy.
    cbv beta in Hxy. rewrite !Hdue by done. lia.
  - exact (sorted_last _ _ _ Hs).
  - rewrite Hnil in E1, E2. destruct (settle_run st (l ++ [(b, vs)])) as [st' paid]. by split_and!.
Qed.

End settlement.

(** ** Score roots activate with the configured delay *)

Section activation.
Context {F : Type} `{F64 F} `{Rng F} `{PathVerifier F}.
Implicit Types (st : TopoStakeConsensus F).

Abbreviation epoch_input := (list (Block F) * list (Validator F))%type.

Definition run_epochs st (l : list epoch_input) : TopoStakeConsensus F :=
  fold_left (fun st i => on_epoch_end st i.1 i.2) l st.

(** The scores produced by epoch [e] of a run. *)
Definition produced st (l : list epoch_input) (e : nat) : gmap string F :=
  score_history (run_epochs st (take (S e) l)).

Definition root_of st (l : list epoch_input) (d e : nat) : PendingScoreRoot F :=
  mkRoot (Z.of_nat e) (Z.of_nat (e + d)) (produced st l e).

Lemma produced_app st l1 l2 e : e < length l1 -> produced st (l1 ++ l2) e = produced st l1 e.
Proof. intros He. unfold produced. by rewrite take_app_le by lia. Qed.

(** The state of the queue after [n] epochs: the roots not yet active. *)
Definition roots_after st l d : list (PendingScoreRoot F) :=
  let n := length l in map (root_of st l d) (seq (n + 1 - d) (n - (n + 1 - d))).

Definition active_after st l d : gmap string F * option Z :=
  let n := length l in
  if decide (d <= n) then (produced st l (n - d), Some (Z.of_nat (n - d))) else (∅, None).

Record queue_inv st0 l d st : Prop := {
  qi_config : config st = config st0;
  qi_next : next_epoch st = Z.of_nat (length l);
  qi_active : (active_score_history st, active_score_epoch st) = active_after st0 l d;
  qi_roots : pending_score_roots st = roots_after st0 l d
}.

(** One more epoch appends a root and activates the one that is due. *)
Lemma activate_front_roots st0 l x d active epoch : 1 <= d ->
  (active, epoch) = active_after st0 l d ->
  let l' := l ++ [x] in
  activate_front (Z.of_nat (length l')) active epoch
    (roots_after st0 l d ++ [root_of st0 l' d (length l)])
  = ((active_after st0 l' d).1, (active_after st0 l' d).2, roots_after st0 l' d).
Proof.
  intros Hd Hact l'. set (n := length l). assert (Hl' : length l' = S n) by (unfold l'; rewrite length_app; simpl; lia).
  assert (Hq : roots_after st0 l d ++ [root_of st0 l' d n]
               = map (root_of st0 l' d) (seq (n + 1 - d) (S n - (n + 1 - d)))).
  { unfold roots_after. fold n. replace (S n - (n + 1 - d)) with (S (n - (n + 1 - d))) by lia.
    rewrite seq_S, map_app. replace (n + 1 - d + (n - (n + 1 - d))) with n by lia. f_equal.
    apply map_ext_in. intros e He%in_seq. unfold root_of. f_equal. symmetry. apply produced_app. fold n. lia. }
  rewrite Hq, Hl'. unfold active_after, roots_after. rewrite Hl'.
  replace (S n - (n + 1 - d)) with (S (n - (n + 1 - d))) by lia. cbn [seq map activate_front root_of activates_at_epoch].
  destruct (Z.leb_spec (Z.of_nat (n + 1 - d + d)) (Z.of_nat (S n))) as [Hle|Hgt].
  - rewrite decide_True by lia. cbn [root_scores produced_epoch fst snd].
    replace (S n - d) with (n + 1 - d) by lia.
    replace (S n + 1 - d) with (S (n + 1 - d)) by lia. replace (S n - S (n + 1 - d)) with (n - (n + 1 - d)) by lia.
    destruct (n - (n + 1 - d)) eqn:En; [done|]. cbn [seq map activate_front root_of activates_at_epoch].
    destruct (Z.leb_spec (Z.of_nat (S (n + 1 - d) + d)) (Z.of_nat (S n))); [lia|done].
  - rewrite decide_False by lia. unfold active_after in Hact. fold n in Hact.
    rewrite decide_False in Hact by lia. injection Hact as -> ->. cbn [fst snd].
    replace (n + 1 - d) with 0 by lia. replace (S n + 1 - d) with 0 by lia.
    replace (S n - 0) with (S (n - 0)) by lia. done.
Qed.

Lemma queue_inv_step st0 l d st (x : epoch_input) :
  1 <= d -> (Z.of_nat d = score_activation_delay_epochs (config st0))%Z ->
  (Z.of_nat (S (length l) + d) <= U64_MAX)%Z ->
  st = run_epochs st0 l -> queue_inv st0 l d st ->
  queue_inv st0 (l ++ [x]) d (on_epoch_end st x.1 x.2).
Proof.
  intros Hd Hdz Hmax Hst [Hcfg Hnext Hact Hroots].
  assert (Hrun : run_epochs st0 (l ++ [x]) = on_epoch_end st x.1 x.2).
  { unfold run_epochs. rewrite fold_left_app. by subst st. }
  assert (Hprod : score_history (update_scores_from_epoch st x.1 x.2) = produced st0 (l ++ [x]) (length l)).
  { unfold produced. rewrite take_ge by (rewrite length_app; simpl; lia). rewrite Hrun.
    unfold on_epoch_end, activate_score_roots_for_epoch. by destruct (activate_front _ _ _ _) as [[? ?] ?]. }
  assert (Hadd1 : u64_add (Z.of_nat (length l)) 1 = Z.of_nat (length (l ++ [x]))).
  { rewrite u64_add_small; rewrite ?length_app; simpl; [lia|split; lia|lia|lia]. }
  assert (Hroot : mkRoot (next_epoch st) (u64_add (next_epoch st) (score_activation_delay_epochs (config st)))
                    (score_history (update_scores_from_epoch st x.1 x.2))
                  = root_of st0 (l ++ [x]) d (length l)).
  { unfold root_of. rewrite <- Hprod, Hnext, Hcfg, <- Hdz. f_equal.
    rewrite u64_add_small; [lia|split; lia|lia|lia]. }
  pose proof (activate_front_roots st0 l x d _ _ Hd Hact) as Hfront. cbv zeta in Hfront.
  unfold on_epoch_end, activate_score_roots_for_epoch, enqueue_score_root, set_next_epoch.
  cbn [next_epoch set_roots active_score_history active_score_epoch pending_score_roots score_history config].
  change (config (update_scores_from_epoch st x.1 x.2)) with (config st).
  change (pending_score_roots (update_scores_from_epoch st x.1 x.2)) with (pending_score_roots st).
  change (active_score_history (update_scores_from_epoch st x.1 x.2)) with (active_score_history st).
  change (active_score_epoch (update_scores_from_epoch st x.1 x.2)) with (active_score_epoch st).
  rewrite Hroot, Hroots, Hnext, Hadd1, Hfront. split; [done|done| |done].
  by rewrite (surjective_pairing (active_after st0 (l ++ [x]) d)).
Qed.

Lemma fresh_queue_inv reward cfg st0 (l : list epoch_input) :
  TopoStakeConsensus_new reward cfg = Ok st0 ->
  let d := Z.to_nat (score_activation_delay_epochs cfg) in
  (Z.of_nat (length l + d) <= U64_MAX)%Z -> queue_inv st0 l d (run_epochs st0 l).
Proof.
  intros Hnew d. unfold TopoStakeConsensus_new in Hnew. destruct (validate cfg) as [[]|] eqn:Hv; [|done].
  injection Hnew as <-. set (st0 := mkTopoStake _ _ _ _ _ _ _ _ _ _ _ _ _ _).
  assert (Hd : (1 <= score_activation_delay_epochs cfg)%Z).
  { revert Hv. unfold validate. repeat (case_match; try done). lia. }
  induction l as [|x l IH] using rev_ind; intros Hm.
  - split; try done. unfold active_after. simpl. by rewrite decide_False by lia.
  - rewrite length_app in Hm. simpl in Hm. unfold run_epochs. rewrite fold_left_app. simpl.
    apply queue_inv_step; [lia|simpl; lia|lia|done|]. apply IH. lia.
Qed.

(** *** What the world state asks of the protocol, in any order *)

Inductive protocol_op :=
  | EpochEnd (blocks : list (Block F)) (validators : list (Validator F))
  | Rewards (block : Block F) (validators : list (Validator F))
  | Select (validators : list (Validator F)) (seed : bytes).

Definition protocol_step st (op : protocol_op) : Outcome (TopoStakeConsensus F) :=
  match op with
  | EpochEnd blocks validators => Ret (on_epoch_end st blocks validators)
  | Rewards block validators => Ret (distribute_rewards st block validators).1
  | Select validators seed => let! (st', _) := select_with_frozen_weights st validators seed in Ret st'
  end.

Fixpoint protocol_run st (ops : list protocol_op) : Outcome (TopoStakeConsensus F) :=
  match ops with
  | [] => Ret st
  | op :: ops => let! st := protocol_step st op in protocol_run st ops
  end.

Fixpoint epochs_of (ops : list protocol_op) : list epoch_input :=
  match ops with
  | [] => []
  | EpochEnd blocks validators :: ops => (blocks, validators) :: epochs_of ops
  | _ :: ops => epochs_of ops
  end.

(** The validators the weights are frozen for: those of the last end of an epoch
    or, when there are none, those of the first selection after it. *)
Definition frozen_for (validators : list (Validator F)) (op : protocol_op) : list (Validator F) :=
  match op, validators with
  | EpochEnd _ new, _ => new
  | Select new _, [] => new
  | _, _ => validators
  end.

Definition frozen_set (ops : list protocol_op) : list (Validator F) := fold_left frozen_for ops [].

(** The weights that [scores] give to [validators]. *)
Definition weights_from (cfg : TopoStakeConfig F) (scores : gmap string F) (validators : list (Validator F))
    : gmap string F :=
  let stake := normalized_stake validators in
  let score := damped_score_for_active_set scores validators (score_floor_kappa cfg) in
  normalize_map (collect_map (map (fun v =>
    (v_address v, weight_of cfg (get_or f0 stake (v_address v)) (get_or f0 score (v_address v)))) validators)).

(** The proposer drawn from [validators] in proportion to [weights]. *)
Definition drawn_by (weights : gmap string F) (validators : list (Validator F)) (seed : bytes)
    : Outcome (Result (Validator F) ValidatorError) :=
  let weight v := get_or f0 weights (v_address v) in
  let total := fsum (map weight validators) in
  if f_leb total f0 then Ret (Err NOValidatorError) else
  if negb (f_ltb f0 total) then Panic else
  match weighted_walk f_geb weight (gen_range_f64 seed total) f0 validators, last validators with
  | Some v, _ | None, Some v => Ret (Ok v)
  | None, None => Ret (Err NOValidatorError)
  end.

(** The part of the state that only the ends of epochs change. *)
Definition score_part st :=
  (config st, score_history st, active_score_history st, active_score_epoch st, next_epoch st,
   pending_score_roots st).

Lemma score_part_epoch st st' blocks validators :
  score_part st = score_part st' ->
  score_part (on_epoch_end st blocks validators) = score_part (on_epoch_end st' blocks validators).
Proof.
  destruct st, st'. unfold score_part. cbn. intros [= <- <- <- <- <- <-].
  unfold on_epoch_end, activate_score_roots_for_epoch. cbn. by destruct (activate_front _ _ _ _) as [[? ?] ?].
Qed.

Lemma score_part_rewards st block validators :
  score_part (distribute_rewards st block validators).1 = score_part st
  /\ frozen_proposer_weights (distribute_rewards st block validators).1 = frozen_proposer_weights st.
Proof.
  unfold distribute_rewards, settle_matured_rewards. destruct (rp_rewards _); simpl;
    by destruct (settle_front _ _).
Qed.

Lemma weights_from_nil cfg scores : weights_from cfg scores [] = ∅.
Proof. unfold weights_from, normalize_map. case_match; apply fmap_empty. Qed.

Lemma weights_from_nonempty cfg scores validators :
  validators <> [] -> weights_from cfg scores validators <> ∅.
Proof.
  destruct validators as [|v vs]; [done|]. intros _ E. unfold weights_from, normalize_map in E.
  match type of E with context [collect_map ?l] =>
    assert (is_Some (collect_map l !! v_address v)) as [w Hw] by (apply collect_map_dom; set_solver) end.
  apply (f_equal (lookup (v_address v))) in E. rewrite lookup_empty in E.
  case_match; by rewrite lookup_fmap, Hw in E.
Qed.

(** Selecting draws by the frozen weights, frozen now if they are not yet. *)
Lemma select_draws st validators seed cur :
  validators <> [] -> frozen_proposer_weights st = weights_from (config st) (active_score_history st) cur ->
  let w := weights_from (config st) (active_score_history st) (frozen_for cur (Select validators seed)) in
  exists st', score_part st' = score_part st /\ frozen_proposer_weights st' = w
    /\ select_with_frozen_weights st validators seed = (let! r := drawn_by w validators seed in Ret (st', r)).
Proof.
  intros Hne Hfz w.
  set (st' := if decide (frozen_proposer_weights st = ∅) then freeze_proposer_weights st validators else st).
  assert (Hst' : frozen_proposer_weights st' = w /\ score_part st' = score_part st).
  { unfold st', w. destruct cur as [|c cur].
    - rewrite decide_True by (by rewrite Hfz, weights_from_nil). done.
    - rewrite decide_False; [done|]. rewrite Hfz. by apply weights_from_nonempty. }
  exists st'. split_and!; [apply Hst'..|]. destruct Hst' as [<- _]. unfold select_with_frozen_weights, drawn_by.
  destruct validators as [|v vs]; [done|]. fold st'. cbv zeta.
  case_match; [done|]. case_match; [done|]. by repeat case_match; simplify_eq.
Qed.

Record protocol_inv st0 (ops : list protocol_op) st : Prop := {
  pi_scores : score_part st = score_part (run_epochs st0 (epochs_of ops));
  pi_config : config st = config st0;
  pi_frozen : frozen_proposer_weights st = weights_from (config st0) (active_score_history st) (frozen_set ops)
}.

Lemma epochs_of_app ops1 ops2 : epochs_of (ops1 ++ ops2) = epochs_of ops1 ++ epochs_of ops2.
Proof. induction ops1 as [|[] ops1 IH]; simpl; by rewrite ?IH. Qed.

Lemma protocol_run_app ops1 : forall st ops2,
  protocol_run st (ops1 ++ ops2) = (let! st := protocol_run st ops1 in protocol_run st ops2).
Proof.
  induction ops1 as [|op ops1 IH]; intros st ops2; [done|]. simpl. destruct (protocol_step st op); simpl; [|done]. apply IH.
Qed.

Lemma config_epoch st blocks validators : config (on_epoch_end st blocks validators) = config st.
Proof.
  unfold on_epoch_end, activate_score_roots_for_epoch. by destruct (activate_front _ _ _ _) as [[? ?] ?].
Qed.

Lemma protocol_inv_step st0 ops st op st' :
  protocol_inv st0 ops st -> protocol_step st op = Ret st' -> protocol_inv st0 (ops ++ [op]) st'.
Proof.
  intros [Hs Hc Hf] Hstep.
  assert (Hfs : frozen_set (ops ++ [op]) = frozen_for (frozen_set ops) op)
    by (unfold frozen_set; by rewrite fold_left_app).
  destruct op as [blocks vs|block vs|vs seed]; simpl in Hstep.
  - injection Hstep as <-. assert (Hc' := config_epoch st blocks vs). split; [|congruence|].
    + rewrite epochs_of_app. unfold run_epochs. rewrite fold_left_app. by apply score_part_epoch.
    + rewrite Hfs, <- Hc, <- Hc'. done.
  - injection Hstep as <-. destruct (score_part_rewards st block vs) as [E Ef].
    split; [by rewrite epochs_of_app, app_nil_r, E|by injection E as -> _|].
    injection E as _ _ -> _. rewrite Hfs, Ef, Hf. by destruct (frozen_set ops).
  - destruct vs as [|v vs].
    { simpl in Hstep. injection Hstep as <-.
      split; [by rewrite epochs_of_app, app_nil_r|done|]. rewrite Hfs. by destruct (frozen_set ops). }
    rewrite <- Hc in Hf. destruct (select_draws st (v :: vs) seed _ ltac:(done) Hf) as (st1 & E & Ew & Esel).
    rewrite Esel in Hstep. destruct (drawn_by _ _ _); [|done]. injection Hstep as ->.
    split; [by rewrite epochs_of_app, app_nil_r, E|by injection E as -> _|].
    injection E as _ _ -> _. by rewrite Hfs, Ew, Hc.
Qed.

Lemma protocol_inv_run st0 ops : forall st, frozen_proposer_weights st0 = ∅ ->
  protocol_run st0 ops = Ret st -> protocol_inv st0 ops st.
Proof.
  intros st Hf. revert st. induction ops as [|op ops IH] using rev_ind; intros st Hrun.
  - injection Hrun as <-. split; [done|done|]. by rewrite Hf, weights_from_nil.
  - rewrite protocol_run_app in Hrun. destruct (protocol_run st0 ops) as [st1|]; [|done]. simpl in Hrun.
    destruct (protocol_step st1 op) as [st2|] eqn:Es; [|done]. injection Hrun as <-.
    eapply protocol_inv_step; [by apply IH|done].
Qed.

(** C10: Proposers are drawn by scores of exactly the configured delay.  Take a fresh
    protocol state and any sequence of ends of epochs, reward distributions and
    selections with [n] ends of epochs.  The next selection from a non-empty set of
    validators draws its proposer by weights that are computed from no scores while
    [n] is below the delay [d], and from then on from the scores that the first
    [n - d + 1] ends of epochs produced, those of epoch [n - d], whatever rewards
    and selections came between; the weights are those of the validators of the last
    end of an epoch or, if there are none, of the first selection after it. *)
Theorem score_activation_delay (reward : F) (cfg : TopoStakeConfig F) st0 (ops : list protocol_op) st
    (validators : list (Validator F)) (seed : bytes) :
  TopoStakeConsensus_new reward cfg = Ok st0 ->
  protocol_run st0 ops = Ret st -> validators <> [] ->
  let d := Z.to_nat (score_activation_delay_epochs cfg) in
  let epochs := epochs_of ops in
  let n := length epochs in
  (Z.of_nat (n + d) <= U64_MAX)%Z ->
  let scores := if decide (d <= n) then score_history (run_epochs st0 (take (S (n - d)) epochs)) else ∅ in
  let weights := weights_from cfg scores (frozen_set (ops ++ [Select validators seed])) in
  next_epoch st = Z.of_nat n
  /\ active_score_epoch st = (if decide (d <= n) then Some (Z.of_nat (n - d)) else None)
  /\ exists st', frozen_proposer_weights st' = weights
       /\ select_with_frozen_weights st validators seed
          = (let! r := drawn_by weights validators seed in Ret (st', r)).
Proof.
  intros Hnew Hrun Hne d epochs n Hm scores weights.
  destruct (fresh_queue_inv reward cfg st0 epochs Hnew Hm) as [_ Hn Ha _]. fold d in Ha.
  assert (config st0 = cfg /\ frozen_proposer_weights st0 = ∅) as [Hcfg Hf0].
  { unfold TopoStakeConsensus_new in Hnew. destruct (validate cfg); [|done]. by injection Hnew as <-. }
  destruct (protocol_inv_run st0 ops st Hf0 Hrun) as [Hs Hc Hf]. fold epochs in Hs.
  injection Hs as _ _ Eact Eep En _. rewrite <- Eact, <- Eep in Ha. unfold active_after in Ha. fold n in Ha.
  assert (Hact : active_score_history st = scores
    /\ active_score_epoch st = if decide (d <= n) then Some (Z.of_nat (n - d)) else None).
  { unfold scores. destruct (decide (d <= n)); by injection Ha as -> ->. }
  destruct Hact as [Hact Hep]. split_and!; [by rewrite En|done|]. rewrite <- Hc in Hf.
  destruct (select_draws st validators seed _ Hne Hf) as (st' & _ & Hw & Hsel). exists st'.
  replace weights with (weights_from (config st) (active_score_history st)
    (frozen_for (frozen_set ops) (Select validators seed))); [done|].
  unfold weights, frozen_set. by rewrite fold_left_app, Hact, Hc, Hcfg.
Qed.

End activation.

(** ** Proposer selection *)

Section selection.
Local Open Scope R_scope.
Context `{Rng R} `{!RngLaws} `{PathVerifier R}.
Implicit Types (st : TopoStakeConsensus R).

(** Proposer selection follows the frozen weights and changes nothing: with
    frozen, non-negative weights of positive total on the validator set, it
    returns a validator whose interval of cumulative weight, of length its own
    frozen weight, contains the draw, and the protocol state, in particular the
    scores, is unchanged. *)
Theorem selection_by_frozen_weight st (vs : list (Validator R)) (seed : bytes) :
  let w v := get_or 0 (frozen_proposer_weights st) (v_address v) in
  vs <> [] -> frozen_proposer_weights st <> ∅ -> 0 < fsum (map w vs) ->
  exists v l1 l2,
    select_with_frozen_weights st vs seed = Ret (st, Ok v)
    /\ vs = l1 ++ v :: l2
    /\ (let draw := gen_range_f64 seed (fsum (map w vs)) in
        draw <= fsum (map w l1) + w v /\ (l1 = [] \/ fsum (map w l1) < draw)).
Proof.
  intros w Hne Hfz Ht. pose proof (gen_range_f64_bounds seed _ Ht) as Hdraw.
  set (draw := gen_range_f64 seed (fsum (map w vs))) in *.
  destruct (weighted_walk_ge_total w draw vs 0 Hne ltac:(lra)) as [v Hv].
  destruct (weighted_walk_ge w draw vs 0 v Hv) as (l1 & l2 & El & Hle & Hlt).
  exists v, l1, l2. split_and!; [|done|cbv zeta; rewrite Rplus_0_l in *; done].
  unfold select_with_frozen_weights. destruct vs as [|v0 vs']; [done|].
  rewrite decide_False by done. cbv zeta.
  change (fun v => get_or f0 (frozen_proposer_weights st) (v_address v)) with w.
  change (f_leb ?x f0) with (Rleb x 0). change (f_ltb f0 ?x) with (Rltb 0 x).
  rewrite (proj2 (Rleb_gt _ _) Ht), (proj2 (Rltb_lt _ _) Ht). cbn [negb]. fold draw.
  change (f0 (F := R)) with 0. by rewrite Hv.
Qed.

End selection.

(** ** Splitting an identity does not pay *)

Section sybil.
Local Open Scope R_scope.
Context `{Rng R} `{PathVerifier R}.

(** Splitting stake does not increase saturated credit: dividing a validator's
    stake share and its raw contribution over any number of identities gives the
    identities together at most the saturated contribution of the whole. *)
Theorem saturated_split_no_gain (k : R) (parts : list (R * R)) :
  0 < k -> parts <> [] -> Forall (fun rs => 0 <= rs.1 /\ 0 < rs.2) parts ->
  fsum (map (fun rs => saturated_contribution rs.1 rs.2 k) parts)
  <= saturated_contribution (fsum (map fst parts)) (fsum (map snd parts)) k.
Proof.
  intros Hk Hne Hparts. rewrite Forall_forall in Hparts.
  set (r := fsum (map fst parts)). set (s := fsum (map snd parts)).
  assert (Hr : 0 <= r) by (apply fsum_map_nonneg; intros x Hx; by apply Hparts).
  assert (Hs : 0 < s).
  { unfold s. destruct parts as [|x parts]; [done|]. cbn [map]. rewrite fsum_cons.
    destruct (Hparts x ltac:(left)). enough (0 <= fsum (map snd parts)) by lra.
    apply fsum_map_nonneg. intros y Hy. destruct (Hparts y ltac:(by right)). lra. }
  set (a := 1 + r / (k * s)).
  assert (Hks : 0 < k * s) by (by apply Rmult_lt_0_compat).
  assert (Ha : 0 < a).
  { unfold a. assert (0 <= r / (k * s)); [|lra]. apply Rmult_le_pos; [done|].
    left. by apply Rinv_0_lt_compat. }
  apply Rle_trans with (fsum (map (fun rs => (ln a + / a - 1) * rs.2 + / (k * a) * rs.1) parts)).
  - apply fsum_map_le. intros [r1 s1] Hx. destruct (Hparts _ Hx) as [Hr1 Hs1]. simpl in *.
    eapply Rle_trans; [by apply (saturated_tangent r1 s1 k a)|]. right. field. split; lra.
  - rewrite fsum_map_plus, !fsum_map_scale. fold r s. rewrite saturated_R by done. fold a.
    right. assert (Has : a * (k * s) = k * s + r) by (unfold a; field; split; lra).
    replace r with (a * (k * s) - k * s) by lra. field. split; lra.
Qed.

(** The bonus-weighted stake of a share [s] with damped score [c]. *)
Lemma weight_of_R (cfg : TopoStakeConfig R) s c : config_ok cfg -> 0 < s -> 0 <= c ->
  weight_of cfg s c = s + eta cfg * bonus_cap cfg * (s * c / (bonus_zeta cfg * s + c)).
Proof.
  intros Hcfg Hs Hc. apply config_ok_bounds in Hcfg as (_ & _ & _ & _ & _ & Hz & _ & _ & Hcap & _).
  unfold weight_of, bonus_of, f_gtb. change (f_ltb f0 s) with (Rltb 0 s).
  rewrite (proj2 (Rltb_lt _ _) Hs). simpl f_div. rewrite propagation_bonus_R; [|..|done].
  - unfold f1; simpl. assert (0 < bonus_zeta cfg * s) by (by apply Rmult_lt_0_compat). field. split; [lra|].
    replace (bonus_zeta cfg * s + c) with (bonus_zeta cfg * s + c) by ring. lra.
  - apply Rmult_le_pos; [done|]. left. by apply Rinv_0_lt_compat.
  - done.
Qed.

Lemma perspective_superadditive z s1 c1 s2 c2 : 0 < z -> 0 < s1 -> 0 <= c1 -> 0 < s2 -> 0 <= c2 ->
  s1 * c1 / (z * s1 + c1) + s2 * c2 / (z * s2 + c2)
  <= (s1 + s2) * (c1 + c2) / (z * (s1 + s2) + (c1 + c2)).
Proof.
  intros Hz Hs1 Hc1 Hs2 Hc2.
  assert (D1 : 0 < z * s1 + c1) by (assert (0 < z * s1) by (by apply Rmult_lt_0_compat); lra).
  assert (D2 : 0 < z * s2 + c2) by (assert (0 < z * s2) by (by apply Rmult_lt_0_compat); lra).
  assert (D : 0 < z * (s1 + s2) + (c1 + c2)) by lra.
  match goal with |- ?x <= ?y => enough (0 <= y - x) by lra end.
  replace ((s1 + s2) * (c1 + c2) / (z * (s1 + s2) + (c1 + c2))
           - (s1 * c1 / (z * s1 + c1) + s2 * c2 / (z * s2 + c2)))
    with (z * (s1 * c2 - s2 * c1) ^ 2
          / ((z * (s1 + s2) + (c1 + c2)) * (z * s1 + c1) * (z * s2 + c2))) by (field; lra).
  apply Rmult_le_pos; [apply Rmult_le_pos; [lra|apply pow2_ge_0]|].
  left. apply Rinv_0_lt_compat. apply Rmult_lt_0_compat; [by apply Rmult_lt_0_compat|done].
Qed.

Lemma weight_superadditive (cfg : TopoStakeConfig R) (parts : list (R * R)) :
  config_ok cfg -> parts <> [] -> Forall (fun sc => 0 < sc.1 /\ 0 <= sc.2) parts ->
  fsum (map (fun sc => weight_of cfg sc.1 sc.2) parts)
  <= weight_of cfg (fsum (map fst parts)) (fsum (map snd parts)).
Proof.
  intros Hcfg. induction parts as [|[s1 c1] parts IH]; [done|]. intros _ Hparts.
  inversion_clear Hparts as [|? ? [Hs1 Hc1] Hp]. simpl in Hs1, Hc1.
  cbn [map fst snd]. rewrite !fsum_cons.
  destruct (decide (parts = [])) as [->|Hne].
  { simpl. rewrite !fsum_nil, !Rplus_0_r. lra. }
  specialize (IH Hne Hp). rewrite Forall_forall in Hp.
  set (s2 := fsum (map fst parts)) in *. set (c2 := fsum (map snd parts)) in *.
  assert (Hc2 : 0 <= c2) by (apply fsum_map_nonneg; intros y Hy; by apply Hp).
  assert (Hs2 : 0 < s2).
  { unfold s2. destruct parts as [|p0 parts]; [done|]. cbn [map]. rewrite fsum_cons.
    destruct (Hp p0 ltac:(left)). enough (0 <= fsum (map fst parts)) by lra.
    apply fsum_map_nonneg. intros y Hy. destruct (Hp y ltac:(by right)). lra. }
  rewrite (weight_of_R cfg s1 c1), (weight_of_R cfg (s1 + s2) (c1 + c2)) by (done || lra).
  rewrite (weight_of_R cfg s2 c2) in IH by done.
  apply config_ok_bounds in Hcfg as (_ & _ & _ & _ & _ & Hz & _ & Heta & Hcap & _).
  pose proof (perspective_superadditive (bonus_zeta cfg) s1 c1 s2 c2 Hz Hs1 Hc1 Hs2 Hc2) as Hsup.
  assert (He : 0 <= eta cfg * bonus_cap cfg) by (by apply Rmult_le_pos).
  apply (Rmult_le_compat_l _ _ _ He) in Hsup. lra.
Qed.

(** Splitting an identity does not increase proposer weight: dividing a stake
    share and a damped score over several identities gives them together at most
    the unnormalised weight of the undivided validator. *)
Theorem weight_split_no_gain (cfg : TopoStakeConfig R) (parts : list (R * R)) :
  config_ok cfg -> parts <> [] -> Forall (fun sc => 0 < sc.1 /\ 0 <= sc.2) parts ->
  fsum (map (fun sc => weight_of cfg sc.1 sc.2) parts)
  <= weight_of cfg (fsum (map fst parts)) (fsum (map snd parts)).
Proof. apply weight_superadditive. Qed.

End sybil.

(** ** Raw credit is bounded by the traffic *)

Section credit.
Local Open Scope R_scope.
Context `{Rng R} `{PathVerifier R}.
Implicit Types (st : TopoStakeConsensus R) (m : gmap string R).

Lemma sum_entry_update m k d :
  fsum (map_values (entry_update 0 (fun x => x + d) k m)) = fsum (map_values m) + d.
Proof.
  assert (Hins : forall m' v, m' !! k = None ->
    fsum (map_values (<[k := v]> m')) = v + fsum (map_values m')).
  { intros m' v Hk. unfold map_values.
    rewrite (fsum_map_perm snd _ _ (map_to_list_insert m' k v Hk)). cbn [map snd]. by rewrite fsum_cons. }
  unfold entry_update, get_or. destruct (m !! k) as [v|] eqn:E; simpl.
  - rewrite <- (insert_delete_id m k v E) at 2. rewrite <- insert_delete_eq.
    rewrite !Hins by apply lookup_delete_eq. lra.
  - rewrite Hins by done. lra.
Qed.

Lemma credit_transaction_sum (cfg : TopoStakeConfig R) vset block raw idx tx :
  path_fits (max_path_hops cfg) ->
  fsum (map_values (credit_transaction cfg vset block raw (idx, tx))) <= fsum (map_values raw) + 1.
Proof.
  intros Hfit. unfold credit_transaction. destruct (eligible_path cfg block idx tx) as [nodes|] eqn:Ee; [|lra].
  pose proof (eligible_path_fits _ _ _ _ _ Hfit Ee) as Hf. set (mm := (length nodes - 1)%nat) in *.
  set (q := transaction_credit_weight (tx_irrecoverable_cost tx) (score_cost_reference cfg)).
  pose proof (credit_weight_bounds (tx_irrecoverable_cost tx) (score_cost_reference cfg)) as Hq. fold q in Hq.
  assert (Hgen : forall l raw, fsum (map_values (fold_left (fun raw position =>
      if decide (nth position nodes "" ∈ vset)
      then entry_update f0 (fun x => f_add x (f_mul q (gamma_for_depth (target_depth cfg) position mm)))
             (nth position nodes "") raw
      else raw) l raw))
    <= fsum (map_values raw) + q * fsum (map (fun i => gamma_for_depth (target_depth cfg) i mm) l)).
  { induction l as [|i l IH]; intros raw'; cbn [fold_left map]; [rewrite fsum_nil; lra|].
    rewrite fsum_cons. eapply Rle_trans; [apply IH|].
    pose proof (gamma_nonneg (target_depth cfg) i mm Hf) as Hg.
    assert (0 <= q * gamma_for_depth (target_depth cfg) i mm) by (apply Rmult_le_pos; lra).
    case_decide; [|lra].
    pose proof (sum_entry_update raw' (nth i nodes "") (q * gamma_for_depth (target_depth cfg) i mm)) as Hs.
    apply Rle_trans with (fsum (map_values raw') + q * gamma_for_depth (target_depth cfg) i mm
      + q * fsum (map (fun i => gamma_for_depth (target_depth cfg) i mm) l)); [|lra].
    apply Rplus_le_compat_r. right. exact Hs. }
  eapply Rle_trans; [apply Hgen|]. apply Rplus_le_compat_l.
  assert (Hsum : 0 <= fsum (map (fun i => gamma_for_depth (target_depth cfg) i mm) (relay_positions mm)) <= 1).
  { split; [apply fsum_map_nonneg; intros; by apply gamma_nonneg|].
    destruct (decide (2 <= mm)%nat) as [Hm|Hm].
    - rewrite relay_shares_sum by done. by apply path_budget_bounds.
    - unfold relay_positions. replace (mm - 1)%nat with 0%nat by lia. simpl. rewrite fsum_nil. lra. }
  apply Rle_trans with (1 * 1); [apply Rmult_le_compat; lra|lra].
Qed.

(** The number of transactions of a list of blocks. *)
Definition traffic (blocks : list (Block R)) : R :=
  fsum (map (fun b => INR (length (transactions (body b)))) blocks).

(** An epoch creates at most one unit of raw credit per included transaction,
    however long the paths and whatever the costs claimed. *)
Theorem raw_credit_bounded st (blocks : list (Block R)) (vs : list (Validator R)) :
  path_fits (max_path_hops (config st)) ->
  fsum (map_values (raw_epoch_contribution st blocks vs)) <= traffic blocks.
Proof.
  intros Hfit. unfold raw_epoch_contribution, traffic.
  set (vset := validator_set vs).
  assert (Hblock : forall b l raw,
    fsum (map_values (fold_left (credit_transaction (config st) vset b) l raw))
    <= fsum (map_values raw) + INR (length l)).
  { intros b l. induction l as [|[i tx] l IH]; intros raw; cbn [fold_left length]; [simpl; lra|].
    rewrite S_INR. eapply Rle_trans; [apply IH|].
    pose proof (credit_transaction_sum (config st) vset b raw i tx Hfit). lra. }
  assert (Hgen : forall l raw,
    fsum (map_values (fold_left (fun raw b => fold_left (credit_transaction (config st) vset b)
      (enumerate (transactions (body b))) raw) l raw))
    <= fsum (map_values raw) + fsum (map (fun b => INR (length (transactions (body b)))) l)).
  { induction l as [|b l IH]; intros raw; cbn [fold_left map]; [rewrite fsum_nil; lra|].
    rewrite fsum_cons. eapply Rle_trans; [apply IH|].
    pose proof (Hblock b (enumerate (transactions (body b))) raw) as Hb.
    unfold enumerate in Hb at 2. rewrite length_imap in Hb. lra. }
  eapply Rle_trans; [apply Hgen|]. unfold map_values. rewrite map_to_list_empty. simpl. rewrite fsum_nil. lra.
Qed.

End credit.

(** ** The configuration in 64-bit floating point *)

Section floats.
Variables libm_ln libm_exp : PrimFloat.float -> PrimFloat.float.
#[local] Instance floats64 : F64 PrimFloat.float := F64_float libm_ln libm_exp.

Lemma frozen_v1_valid : validate frozen_v1 = Ok ().
Proof. vm_compute. reflexivity. Qed.

(** The frozen configuration with a saturation constant that is not a number. *)
Definition nan_config : TopoStakeConfig PrimFloat.float :=
  let c : TopoStakeConfig PrimFloat.float := frozen_v1 in
  {| protocol_version := protocol_version c; target_depth := target_depth c; beta := beta c;
     saturation_k := PrimFloat.nan; score_cost_reference := score_cost_reference c;
     score_floor_kappa := score_floor_kappa c; bonus_zeta := bonus_zeta c; eta := eta c;
     bonus_cap := bonus_cap c; proposer_fee_ratio := proposer_fee_ratio c;
     reward_settlement_depth := reward_settlement_depth c;
     score_activation_delay_epochs := score_activation_delay_epochs c;
     max_path_hops := max_path_hops c; evidence_work_limit := evidence_work_limit c;
     challenge_work_limit := challenge_work_limit c |}.

(** The guards of [validate] are written so that a comparison with NaN passes:
    a saturation constant that is not a number is accepted. *)
Lemma validate_accepts_nan : validate nan_config = Ok ().
Proof. vm_compute. reflexivity. Qed.

End floats.
