(* ===== verification/Metrics.v ===== *)
(** * Metrics

    src/src/metrics.rs and the Gini coefficient of src/src/network/mod.rs.  The
    decimal rendering of floats in the CSV rows is an argument. *)

From Stdlib Require Import Reals Lra Sorted.
From stdpp Require Import sorting pretty.
From S2P Require Export TopoStake.

Record PathStats {F : Type} := mkPathStats {
  avg_length : F;
  min_length : nat;
  max_length : nat;
  median_length : nat
}.
Arguments PathStats : clear implicits.
Arguments mkPathStats {F}.

Record TxPackingDelayStats {F : Type} := mkDelayStats { avg_delay_s : F }.
Arguments TxPackingDelayStats : clear implicits.
Arguments mkDelayStats {F}.

Record SlotMetrics {F : Type} := mkSlotMetrics {
  sm_epoch : Z;
  sm_slot : Z;
  sm_miner : string;
  sm_proposer_stake : F;
  sm_timestamp : Z;
  sm_block_hash : string;
  sm_tx_count : Z;
  sm_throughput : F;
  sm_path_stats : PathStats F;
  sm_stake_concentration : F;
  sm_gini_coefficient : F;
  sm_consensus_type : string;
  sm_consensus_state : string;
  sm_tx_packing_delay_stats : TxPackingDelayStats F;
  sm_block_production_success : Z;
  sm_block_production_failed : Z
}.
Arguments SlotMetrics : clear implicits.

Record EpochMetrics {F : Type} := mkEpochMetrics {
  em_epoch : Z;
  em_generated_tx : Z;
  em_included_tx : Z;
  em_throughput : F;
  em_p50_inclusion_latency_s : F;
  em_p95_inclusion_latency_s : F;
  em_p99_inclusion_latency_s : F;
  em_block_success_ratio : F;
  em_avg_path_length : F;
  em_p95_path_length : F;
  em_valid_path_count : Z;
  em_invalid_path_count : Z;
  em_conflicting_receipt_count : Z;
  em_active_score_epoch : Z;
  em_latest_score_epoch : Z;
  em_total_proposer_reward : F;
  em_total_relay_reward : F;
  em_burned_relay_fee : F;
  em_organic_included_tx : Z;
  em_organic_valid_path_count : Z;
  em_organic_relay_reward : F;
  em_adversary_organic_relay_reward : F;
  em_adversary_organic_relay_reward_share : F;
  em_organic_raw_contribution : F;
  em_adversary_organic_raw_contribution : F;
  em_adversary_organic_raw_contribution_share : F;
  em_stake_gini : F;
  em_stake_hhi : F;
  em_proposer_weight_gini : F;
  em_proposer_weight_hhi : F;
  em_adversary_real_stake_share : F;
  em_adversary_score_share : F;
  em_adversary_damped_score_mass : F;
  em_adversary_proposer_weight_share : F;
  em_score_dependent_proposer_weight_bound : F;
  em_theoretical_proposer_weight_bound : F;
  em_observed_adversary_proposer_share : F;
  em_bound_violation : bool
}.
Arguments EpochMetrics : clear implicits.

Record NodeEpochMetrics {F : Type} := mkNodeEpochMetrics {
  ne_epoch : Z;
  ne_validator_id : string;
  ne_relay_profile : string;
  ne_focal_relayer : bool;
  ne_adversarial : bool;
  ne_economic_stake : F;
  ne_balance : F;
  ne_raw_contribution : F;
  ne_saturated_contribution : F;
  ne_ema_score : F;
  ne_normalized_score : F;
  ne_bonus : F;
  ne_unnormalized_proposer_weight : F;
  ne_normalized_proposer_weight : F;
  ne_proposer_count : Z;
  ne_relay_reward : F;
  ne_proposer_reward : F;
  ne_fee_spent : F;
  ne_net_income : F;
  ne_relay_forward_attempts : Z;
  ne_degree : Z;
  ne_betweenness : F
}.
Arguments NodeEpochMetrics : clear implicits.

(** ** CSV *)

Section csv.
Context {F : Type}.
(** [format!("{:.k}", x)] and [format!("{}", x)] of a float. *)
Variable fixed : nat -> F -> string.
Variable shortest : F -> string.

Definition show_bool (b : bool) : string := if b then "true" else "false".

Definition SlotMetrics_header : string :=
  "epoch,slot,miner,proposer_stake,timestamp,block_hash,tx_count,throughput,avg_path_length,min_path_length,max_path_length,median_path_length,stake_concentration,gini_coefficient,consensus_type,consensus_state,avg_tx_delay_s,block_production_success,block_production_failed".

Definition SlotMetrics_fields (m : SlotMetrics F) : list string :=
  [pretty (sm_epoch m); pretty (sm_slot m); sm_miner m; fixed 6 (sm_proposer_stake m);
   pretty (sm_timestamp m); sm_block_hash m; pretty (sm_tx_count m); fixed 2 (sm_throughput m);
   fixed 2 (avg_length (sm_path_stats m)); pretty (min_length (sm_path_stats m));
   pretty (max_length (sm_path_stats m)); pretty (median_length (sm_path_stats m));
   fixed 6 (sm_stake_concentration m); fixed 6 (sm_gini_coefficient m); sm_consensus_type m;
   sm_consensus_state m; fixed 2 (avg_delay_s (sm_tx_packing_delay_stats m));
   pretty (sm_block_production_success m); pretty (sm_block_production_failed m)].

Definition SlotMetrics_row (m : SlotMetrics F) : string := String.concat "," (SlotMetrics_fields m).

Definition EpochMetrics_header : string :=
  "epoch,generated_tx,included_tx,throughput,p50_inclusion_latency_s,p95_inclusion_latency_s,p99_inclusion_latency_s,block_success_ratio,avg_path_length,p95_path_length,valid_path_count,invalid_path_count,conflicting_receipt_count,active_score_epoch,latest_score_epoch,total_proposer_reward,total_relay_reward,burned_relay_fee,organic_included_tx,organic_valid_path_count,organic_relay_reward,adversary_organic_relay_reward,adversary_organic_relay_reward_share,organic_raw_contribution,adversary_organic_raw_contribution,adversary_organic_raw_contribution_share,stake_gini,stake_hhi,proposer_weight_gini,proposer_weight_hhi,adversary_real_stake_share,adversary_score_share,adversary_damped_score_mass,adversary_proposer_weight_share,score_dependent_proposer_weight_bound,theoretical_proposer_weight_bound,observed_adversary_proposer_share,bound_violation".

Definition EpochMetrics_fields (m : EpochMetrics F) : list string :=
  [pretty (em_epoch m); pretty (em_generated_tx m); pretty (em_included_tx m);
   fixed 6 (em_throughput m); fixed 6 (em_p50_inclusion_latency_s m);
   fixed 6 (em_p95_inclusion_latency_s m); fixed 6 (em_p99_inclusion_latency_s m);
   fixed 6 (em_block_success_ratio m); fixed 6 (em_avg_path_length m);
   fixed 6 (em_p95_path_length m); pretty (em_valid_path_count m); pretty (em_invalid_path_count m);
   pretty (em_conflicting_receipt_count m); pretty (em_active_score_epoch m);
   pretty (em_latest_score_epoch m); fixed 6 (em_total_proposer_reward m);
   fixed 6 (em_total_relay_reward m); fixed 6 (em_burned_relay_fee m);
   pretty (em_organic_included_tx m); pretty (em_organic_valid_path_count m);
   fixed 6 (em_organic_relay_reward m); fixed 6 (em_adversary_organic_relay_reward m);
   fixed 6 (em_adversary_organic_relay_reward_share m); fixed 6 (em_organic_raw_contribution m);
   fixed 6 (em_adversary_organic_raw_contribution m);
   fixed 6 (em_adversary_organic_raw_contribution_share m); fixed 6 (em_stake_gini m);
   fixed 6 (em_stake_hhi m); fixed 6 (em_proposer_weight_gini m); fixed 6 (em_proposer_weight_hhi m);
   fixed 6 (em_adversary_real_stake_share m); fixed 6 (em_adversary_score_share m);
   fixed 6 (em_adversary_damped_score_mass m); fixed 6 (em_adversary_proposer_weight_share m);
   fixed 6 (em_score_dependent_proposer_weight_bound m);
   fixed 6 (em_theoretical_proposer_weight_bound m);
   fixed 6 (em_observed_adversary_proposer_share m); show_bool (em_bound_violation m)].

Definition EpochMetrics_row (m : EpochMetrics F) : string := String.concat "," (EpochMetrics_fields m).

Definition NodeEpochMetrics_header : string :=
  "epoch,validator_id,relay_profile,focal_relayer,adversarial,economic_stake,balance,raw_contribution,saturated_contribution,ema_score,normalized_score,bonus,unnormalized_proposer_weight,normalized_proposer_weight,proposer_count,relay_reward,proposer_reward,fee_spent,net_income,relay_forward_attempts,degree,betweenness".

Definition NodeEpochMetrics_fields (m : NodeEpochMetrics F) : list string :=
  [pretty (ne_epoch m); ne_validator_id m; ne_relay_profile m; show_bool (ne_focal_relayer m);
   show_bool (ne_adversarial m); fixed 6 (ne_economic_stake m); fixed 6 (ne_balance m);
   fixed 6 (ne_raw_contribution m); fixed 6 (ne_saturated_contribution m); fixed 6 (ne_ema_score m);
   fixed 6 (ne_normalized_score m); fixed 6 (ne_bonus m); fixed 6 (ne_unnormalized_proposer_weight m);
   fixed 6 (ne_normalized_proposer_weight m); pretty (ne_proposer_count m); fixed 6 (ne_relay_reward m);
   fixed 6 (ne_proposer_reward m); fixed 6 (ne_fee_spent m); fixed 6 (ne_net_income m);
   pretty (ne_relay_forward_attempts m); pretty (ne_degree m); shortest (ne_betweenness m)].

Definition NodeEpochMetrics_row (m : NodeEpochMetrics F) : string :=
  String.concat "," (NodeEpochMetrics_fields m).

End csv.

(** ** Statistics *)

Section statistics.
Context {F : Type} `{F64 F}.

(** [sort_by(|a, b| a.partial_cmp(b)...)] on floats none of which is a NaN. *)
Definition f_le (a b : F) : Prop := f_leb a b = true.

#[export] Instance f_le_dec a b : Decision (f_le a b).
Proof. unfold f_le. apply _. Defined.

Definition sort_f64 (l : list F) : list F := merge_sort f_le l.

Definition calculate_tx_packing_delay (transactions_timestamp : list Z) (block_timestamp : Z)
    : TxPackingDelayStats F :=
  match transactions_timestamp with
  | [] => mkDelayStats f0
  | _ =>
      let total_delay := fsum (map (fun tx_time =>
        if (tx_time <=? block_timestamp)%Z then f_of_Z (block_timestamp - tx_time) else f0)
        transactions_timestamp) in
      mkDelayStats (f_div total_delay (f_of_nat (length transactions_timestamp)))
  end.

Definition calculate_stake_concentration (stakes : list F) : F :=
  match stakes with
  | [] => f0
  | _ =>
      let total := fsum stakes in
      if f_leb total f0 then f0 else
      let shares := map (fun s => f_div s total) stakes in
      fsum (map (fun s => f_mul s s) shares)
  end.

Definition calculate_hhi (values : list F) : F := calculate_stake_concentration values.

(** [x as usize] of a float that is not negative. *)
Definition percentile_f64 (values : list F) (percentile : F) : F :=
  match values with
  | [] => f0
  | _ =>
      let sorted := sort_f64 values in
      let p := f_clamp percentile f0 f1 in
      let idx := Z.to_nat (f_ceil (f_mul (f_of_nat (length sorted - 1)) p)) in
      nth (Nat.min idx (length sorted - 1)) sorted f0
  end.

Definition share_for (addresses : gset string) (values : gmap string F) : F :=
  let total := fsum (map_values values) in
  if f_leb total f0 then f0 else
  f_div (fsum (map (fun addr => get_or f0 values addr) (elements addresses))) total.

Definition calculate_path_stats (paths : list (list string)) : PathStats F :=
  match paths with
  | [] => mkPathStats f0 0 0 0
  | _ =>
      let lengths := map (@length string) paths in
      let sorted_lengths := merge_sort (≤) lengths in
      mkPathStats (f_div (f_of_nat (list_sum lengths)) (f_of_nat (length lengths)))
        (default 0 (head sorted_lengths)) (default 0 (last sorted_lengths))
        (nth (length sorted_lengths / 2) sorted_lengths 0)
  end.

(** src/src/network/mod.rs *)
Definition weighted_sum (sorted_values : list F) : F :=
  fsum (map (fun iv => f_mul (f_add (f_of_nat iv.1) f1) iv.2) (enumerate sorted_values)).

Definition calculate_gini (values : list F) : F :=
  match values with
  | [] => f0
  | _ =>
      let n := f_of_nat (length values) in
      let sorted_values := sort_f64 values in
      let sum := fsum sorted_values in
      if f_eqb sum f0 then f0 else
      let cumsum := weighted_sum sorted_values in
      let gini := f_sub (f_div (f_mul f2 cumsum) (f_mul n sum)) (f_div (f_add n f1) n) in
      f_min (f_max gini f0) f1
  end.

End statistics.

(** ** The Gini coefficient is the relative mean difference *)

Section gini.
Local Open Scope R_scope.
Implicit Types (l : list R).

(** The sum of all absolute differences, ordered pairs counted. *)
Definition pair_differences l : R := fsum (map (fun a => fsum (map (fun b => Rabs (a - b)) l)) l).

Lemma fsum_snoc l x : fsum (l ++ [x]) = fsum l + x.
Proof. rewrite fsum_app, fsum_cons, fsum_nil. lra. Qed.

Lemma pair_differences_snoc l x : Forall (fun a => a <= x) l ->
  pair_differences (l ++ [x]) = pair_differences l + 2 * (INR (length l) * x - fsum l).
Proof.
  intros Hx. unfold pair_differences. rewrite map_app, fsum_app. cbn [map]. rewrite fsum_cons, fsum_nil.
  rewrite (fsum_map_ext _ (fun a => fsum (map (fun b => Rabs (a - b)) l) + (x - a)) l).
  2:{ intros a Ha. rewrite map_app, fsum_app. cbn [map]. rewrite fsum_cons, fsum_nil.
      rewrite Forall_forall in Hx. specialize (Hx a Ha). rewrite (Rabs_left1 (a - x)) by lra. lra. }
  rewrite fsum_map_plus, map_app, fsum_app. cbn [map]. rewrite fsum_cons, fsum_nil.
  rewrite Rminus_diag, Rabs_R0.
  rewrite (fsum_map_ext (fun b => Rabs (x - b)) (fun b => x - b) l).
  2:{ intros b Hb. rewrite Forall_forall in Hx. specialize (Hx b Hb). apply Rabs_right. lra. }
  assert (Hlin : forall k, fsum (map (fun a => x - a) k) = INR (length k) * x - fsum k).
  { induction k as [|a k IH]; cbn [map length]; [rewrite fsum_nil; simpl; lra|].
    rewrite !fsum_cons, IH, S_INR. lra. }
  rewrite !Hlin. lra.
Qed.

Lemma weighted_sum_snoc l x : weighted_sum (l ++ [x]) = weighted_sum l + (INR (length l) + 1) * x.
Proof.
  unfold weighted_sum, enumerate. rewrite imap_app, map_app, fsum_app. cbn [imap map].
  simpl map. rewrite fsum_cons, fsum_nil. unfold f_of_nat, f1; simpl.
  rewrite <- INR_IZR_INZ, Nat.add_0_r. lra.
Qed.

(** On a sorted list, the weighted sum counts the differences. *)
Lemma pair_differences_sorted l : Sorted Rle l ->
  pair_differences l = 2 * (2 * weighted_sum l - (INR (length l) + 1) * fsum l).
Proof.
  induction l as [|x l IH] using rev_ind; intros Hs.
  { unfold pair_differences, weighted_sum, enumerate. simpl. rewrite fsum_nil. lra. }
  apply Sorted_StronglySorted in Hs; [|intros ? ? ?; lra].
  assert (Hl : Forall (fun a => a <= x) l /\ Sorted Rle l).
  { clear IH. induction l as [|y l IH]; [split; constructor|]. simpl in Hs.
    inversion_clear Hs as [|? ? Hs' Hf]. destruct (IH Hs') as [H1 H2].
    apply Forall_app in Hf as [Hf Hyx]. split; [constructor; [by inversion Hyx|done]|].
    apply StronglySorted_Sorted. constructor; [|done].
    apply Sorted_StronglySorted; [intros ? ? ?; lra|done]. }
  destruct Hl as [Hx Hsl]. rewrite pair_differences_snoc by done. rewrite (IH Hsl).
  rewrite weighted_sum_snoc, fsum_snoc, length_app, plus_INR. simpl. lra.
Qed.

Lemma pair_differences_perm l1 l2 : l1 ≡ₚ l2 -> pair_differences l1 = pair_differences l2.
Proof.
  intros Hp. unfold pair_differences. rewrite (fsum_map_perm _ _ _ Hp).
  apply fsum_map_ext. intros a _. by apply fsum_map_perm.
Qed.

Lemma sort_f64_spec l : Sorted Rle (sort_f64 l) /\ sort_f64 l ≡ₚ l.
Proof.
  split; [|apply merge_sort_Permutation].
  assert (Hs : Sorted f_le (sort_f64 l)).
  { apply Sorted_merge_sort. intros a b. unfold f_le; simpl. destruct (Rle_dec a b).
    - left. by apply Rleb_le.
    - right. apply Rleb_le. lra. }
  induction Hs as [|a k _ IH Hh]; constructor; [done|].
  destruct Hh as [|b k Hab]; constructor. by apply Rleb_le.
Qed.

Lemma pair_differences_bounds l : (forall a, a ∈ l -> 0 <= a) ->
  0 <= pair_differences l <= 2 * INR (length l) * fsum l.
Proof.
  intros Hnn. unfold pair_differences. split.
  - apply fsum_map_nonneg. intros a _. apply fsum_map_nonneg. intros b _. apply Rabs_pos.
  - assert (Hin : forall a k, (forall b, b ∈ k -> 0 <= b) -> 0 <= a ->
      fsum (map (fun b => Rabs (a - b)) k) <= INR (length k) * a + fsum k).
    { intros a k. induction k as [|b k IH]; intros Hk Ha; cbn [map length]; [rewrite !fsum_nil; simpl; lra|].
      rewrite !fsum_cons, S_INR. assert (0 <= b) by (apply Hk; left).
      specialize (IH ltac:(intros; apply Hk; by right) Ha).
      assert (Rabs (a - b) <= a + b) by (apply Rabs_le; lra). lra. }
    apply Rle_trans with (fsum (map (fun a => INR (length l) * a + fsum l) l)).
    + apply fsum_map_le. intros a Ha. apply Hin; auto.
    + rewrite fsum_map_plus, fsum_map_scale. rewrite map_id.
      assert (Hc : forall k : list R, fsum (map (fun _ => fsum l) k) = INR (length k) * fsum l).
      { induction k as [|b k IH]; cbn [map length]; [rewrite fsum_nil; simpl; lra|].
        rewrite fsum_cons, IH, S_INR. lra. }
      rewrite Hc. lra.
Qed.

(** The Gini coefficient computed from sorted cumulative sums is the relative
    mean absolute difference: for non-negative values of positive total it equals
    the sum of all pairwise absolute differences over [2 n] times the total (so
    its final clamping to the unit interval never acts). *)
Theorem gini_is_mean_difference (values : list R) :
  (forall a, a ∈ values -> 0 <= a) -> 0 < fsum values ->
  calculate_gini values = pair_differences values / (2 * INR (length values) * fsum values)
  /\ 0 <= calculate_gini values <= 1.
Proof.
  intros Hnn Hsum. destruct (sort_f64_spec values) as [Hs Hp].
  assert (Hlen : 0 < INR (length values)).
  { destruct values; [rewrite fsum_nil in Hsum; lra|]. apply lt_0_INR. simpl. lia. }
  pose proof (pair_differences_bounds values Hnn) as Hb.
  pose proof (pair_differences_sorted _ Hs) as Hd. rewrite (pair_differences_perm _ _ Hp) in Hd.
  rewrite (fsum_perm _ _ Hp), (Permutation_length Hp) in Hd.
  set (n := INR (length values)) in *. set (s := fsum values) in *.
  assert (Hns : 0 < n * s) by (by apply Rmult_lt_0_compat).
  assert (Hg : calculate_gini values
    = Rmin (Rmax (2 * weighted_sum (sort_f64 values) / (n * s) - (n + 1) / n) 0) 1).
  { unfold calculate_gini. destruct values as [|v vs]; [unfold s in Hsum; rewrite fsum_nil in Hsum; lra|].
    rewrite (fsum_perm _ _ Hp). fold s. unfold f_of_nat.
    change (f_of_Z (Z.of_nat (length (v :: vs)))) with (IZR (Z.of_nat (length (v :: vs)))).
    rewrite <- INR_IZR_INZ. fold n. change (f_eqb s f0) with (Reqb s 0).
    unfold Reqb. destruct (Req_dec_T s 0); [lra|done]. }
  assert (Hq : 2 * weighted_sum (sort_f64 values) / (n * s) - (n + 1) / n
               = pair_differences values / (2 * n * s)) by (rewrite Hd; field; lra).
  assert (Hr : 0 <= pair_differences values / (2 * n * s) <= 1).
  { split; [apply Rmult_le_pos; [lra|left; apply Rinv_0_lt_compat; lra]|].
    apply Rdiv_le_of_mul; lra. }
  rewrite Hg, Hq, Rmax_left, Rmin_left by lra. split; [done|lra].
Qed.

End gini.

(** ** Concentration *)

Section hhi.
Local Open Scope R_scope.

(** The Herfindahl index of non-negative values of positive total lies between
    [1 / n], reached by equal values, and [1]. *)
Theorem hhi_bounds (values : list R) :
  (forall a, a ∈ values -> 0 <= a) -> 0 < fsum values ->
  / INR (length values) <= calculate_hhi values <= 1.
Proof.
  intros Hnn Hsum. set (s := fsum values). set (n := INR (length values)).
  assert (Hn : 0 < n).
  { unfold n. destruct values; [rewrite fsum_nil in Hsum; lra|]. apply lt_0_INR. simpl. lia. }
  set (sh := map (fun v => v / s) values).
  assert (E : calculate_hhi values = fsum (map (fun x => x * x) sh)).
  { unfold calculate_hhi, calculate_stake_concentration.
    destruct values; [rewrite fsum_nil in Hsum; lra|]. fold s.
    change (f_leb s f0) with (Rleb s 0). rewrite (proj2 (Rleb_gt s 0)); [done|exact Hsum]. }
  assert (Hone : fsum sh = 1).
  { unfold sh. rewrite (fsum_map_ext _ (fun v => / s * v)) by (intros; unfold Rdiv; ring).
    rewrite fsum_map_scale, map_id. fold s. field. unfold s; lra. }
  assert (Hpos : forall x, x ∈ sh -> 0 <= x).
  { intros x Hx. apply list_elem_of_fmap in Hx as (v & -> & Hv). apply Rmult_le_pos; [by apply Hnn|].
    left. by apply Rinv_0_lt_compat. }
  assert (Hlen : INR (length sh) = n) by (unfold sh; by rewrite length_map).
  rewrite E. clearbody sh. clear E. split.
  - assert (Hsq : forall k c, fsum (map (fun x => x * x) k)
      = fsum (map (fun x => (x - c) * (x - c)) k) + 2 * c * fsum k - INR (length k) * (c * c)).
    { induction k as [|x k IH]; intros c; cbn [map length]; [rewrite !fsum_nil; simpl; lra|].
      rewrite !fsum_cons, (IH c), S_INR. lra. }
    rewrite (Hsq sh (/ n)), Hone, Hlen.
    assert (0 <= fsum (map (fun x => (x - / n) * (x - / n)) sh)).
    { apply fsum_map_nonneg. intros x _. apply Rle_0_sqr. }
    assert (n * (/ n * / n) = / n) by (field; lra). lra.
  - apply Rle_trans with (fsum sh * fsum sh); [|rewrite Hone; lra]. clear Hone Hlen.
    induction sh as [|x sh IH]; cbn [map]; [rewrite fsum_nil; lra|].
    rewrite !fsum_cons. assert (0 <= x) by (apply Hpos; left).
    assert (0 <= fsum sh) by (rewrite <- (map_id sh); apply fsum_map_nonneg; intros; apply Hpos; by right).
    specialize (IH ltac:(intros; apply Hpos; by right)).
    assert (0 <= x * fsum sh) by (by apply Rmult_le_pos). lra.
Qed.

End hhi.

(** ** CSV columns *)

Fixpoint columns (s : string) : nat :=
  match s with
  | EmptyString => 1
  | String c s => (if decide (c = Ascii.ascii_of_nat 44) then 1 else 0) + columns s
  end.

(** The CSV files are rectangular: the header of each of the three metrics
    files names exactly as many columns as a row has fields. *)
Theorem csv_headers_match_rows {F : Type} (fixed : nat -> F -> string) (shortest : F -> string)
    (sm : SlotMetrics F) (em : EpochMetrics F) (ne : NodeEpochMetrics F) :
  columns SlotMetrics_header = length (SlotMetrics_fields fixed sm)
  /\ columns EpochMetrics_header = length (EpochMetrics_fields fixed em)
  /\ columns NodeEpochMetrics_header = length (NodeEpochMetrics_fields fixed shortest ne).
Proof. split_and!; reflexivity. Qed.
