(* ===== verification/Graph.v ===== *)
(** * Network topologies

    src/src/network/graph.rs.  The random generator is threaded explicitly
    through the class [RngState].  Loops that redraw until a draw is acceptable
    have a budget of draws, and [None] means it was exhausted.  A petgraph graph is represented by the
    calls that build it: the node labels and the edges, in order. *)

From stdpp Require Import sorting.
From S2P Require Export Num.
Local Open Scope rust_scope.

Inductive TopologyType := ER | BA | WS | EthEmpirical.

Definition TopologyType_fmt (t : TopologyType) : string :=
  match t with
  | ER => "er"
  | BA => "ba"
  | WS => "ws"
  | EthEmpirical => "eth_empirical"
  end.

(** A generator state: [gen_range(0..n)] and [gen::<f64>()]. *)
Class RngState (F S : Type) := {
  next_usize : nat -> S -> nat * S;
  next_f64 : S -> F * S
}.

(** A draw from [0..n] is below [n]. *)
Class RngStateLaws (F S : Type) `{RngState F S} : Prop :=
  next_usize_lt n s : 0 < n -> (next_usize n s).1 < n.

(** The generator after [k] draws from [0..n]. *)
Fixpoint skip_draws {F S : Type} `{RngState F S} (k n : nat) (s : S) : S :=
  match k with
  | O => s
  | Datatypes.S k => skip_draws k n (next_usize n s).2
  end.

(** Repeated draws from a range meet every value of the range sooner or later. *)
Class RngFair (F S : Type) `{RngState F S} : Prop :=
  draws_meet n s i : i < n -> exists k, (next_usize n (skip_draws k n s)).1 = i.

(** The calls made on a graph: labels added, then edges added. *)
Record GraphCalls := mkGraph { g_nodes : list string; g_edges : list (nat * nat) }.

(** ** Preferential attachment *)

Record BANetwork := mkBA {
  adjacency : gmap nat (gset nat);
  degrees : list nat;
  total_edges : nat
}.

Definition BANetwork_new (m0 : nat) : BANetwork :=
  mkBA (collect_map (map (fun i => (i, list_to_set (filter (fun j => i <> j) (seq 0 m0)) : gset nat)) (seq 0 m0)))
    (replicate m0 (m0 - 1)) (m0 * (m0 - 1)).

(** The walk of [choose_node]; it panics when the degrees do not reach the draw. *)
Fixpoint choose_walk (target : nat) (node sum : nat) (degs : list nat) : Outcome nat :=
  match degs with
  | [] => Panic
  | degree :: degs =>
      let sum := sum + degree in
      if decide (target < sum) then Ret node else choose_walk target (S node) sum degs
  end.

Definition choose_node (net : BANetwork) (target : nat) : Outcome nat :=
  choose_walk target 0 0 (degrees net).

Section generators.
Context {F S : Type} `{F64 F} `{RngState F S}.

(** The targets of a new node: draws are repeated until there are enough. *)
Fixpoint choose_targets (fuel m : nat) (net : BANetwork) (set : gset nat) (rng : S)
    : option (Outcome (gset nat * S)) :=
  if decide (size set < m /\ size set < length (degrees net)) then
    match fuel with
    | O => None
    | Datatypes.S fuel =>
        let '(draw, rng) := next_usize (total_edges net) rng in
        match choose_node net draw with
        | Panic => Some Panic
        | Ret target =>
            choose_targets fuel m net
              (if decide (target <> length (degrees net)) then {[target]} ∪ set else set) rng
        end
    end
  else Some (Ret (set, rng)).

(** The network with a new node linked to [set]; [add_node] panics when a target is
    not a key of the adjacency map or not an index of the degrees. *)
Definition attach (net : BANetwork) (set : gset nat) : BANetwork :=
  let new_node := length (degrees net) in
  let targets := elements set in
  mkBA (<[new_node := set]>
          (fold_left (fun adj target => entry_update ∅ (fun s => {[new_node]} ∪ s) target adj)
             targets (adjacency net)))
    (fold_left (fun degs target => alter Datatypes.S target degs) targets (degrees net) ++ [size set])
    (fold_left (fun total _ => total + 2) targets (total_edges net)).

Definition add_node (fuel m : nat) (net : BANetwork) (rng : S) : option (Outcome (BANetwork * S)) :=
  match choose_targets fuel m net ∅ rng with
  | None => None
  | Some Panic => Some Panic
  | Some (Ret (set, rng)) =>
      if decide (Forall (fun t => is_Some (adjacency net !! t) /\ t < length (degrees net)) (elements set))
      then Some (Ret (attach net set, rng)) else Some Panic
  end.

Fixpoint add_nodes (fuel m count : nat) (net : BANetwork) (rng : S) : option (Outcome (BANetwork * S)) :=
  match count with
  | O => Some (Ret (net, rng))
  | Datatypes.S count =>
      match add_node fuel m net rng with
      | Some (Ret (net, rng)) => add_nodes fuel m count net rng
      | r => r
      end
  end.

(** [assert!(m <= m0)] panics. *)
Definition generate_ba_network (fuel n_nodes m0 m : nat) (rng : S) : option (Outcome (BANetwork * S)) :=
  if decide (m0 < m) then Some Panic else add_nodes fuel m (n_nodes - m0) (BANetwork_new m0) rng.

(** ** The four topologies *)

(** The pairs of indices in the order of the two loops. *)
Definition index_pairs (n : nat) : list (nat * nat) :=
  flat_map (fun i => map (fun j => (i, j)) (seq (i + 1) (n - (i + 1)))) (seq 0 n).

Fixpoint er_edges (probability : F) (pairs : list (nat * nat)) (rng : S) : list (nat * nat) :=
  match pairs with
  | [] => []
  | ij :: pairs =>
      let '(x, rng) := next_f64 rng in
      if f_ltb x probability then ij :: er_edges probability pairs rng else er_edges probability pairs rng
  end.

Definition random_er_graph (nodes_address : list string) (probability : F) (rng : S) : GraphCalls :=
  mkGraph nodes_address (er_edges probability (index_pairs (length nodes_address)) rng).

(** Nodes and edges are added in the iteration order [order] of the adjacency
    map; an edge refers to the positions of its ends in that order. *)
Definition random_ba_graph (fuel : nat) (order : list nat) (nodes_address : list string) (rng : S)
    : option (Outcome GraphCalls) :=
  match generate_ba_network fuel (length nodes_address) 3 2 rng with
  | None => None
  | Some Panic => Some Panic
  | Some (Ret (net, _)) =>
      let position x := length (take_while (fun y => negb (bool_decide (y = x))) order) in
      Some (Ret (mkGraph (map (fun x => nth x nodes_address "") order)
        (flat_map (fun x => map (fun y => (position x, position y))
           (elements (get_or ∅ (adjacency net) x))) order)))
  end.

Definition pair_le (a b : nat * nat) : Prop := a.1 < b.1 \/ (a.1 = b.1 /\ a.2 <= b.2).
#[export] Instance pair_le_dec a b : Decision (pair_le a b).
Proof. unfold pair_le. apply _. Defined.

Definition LINKS_PER_NEW_NODE : nat := 9.
Definition INITIAL_CLIQUE_SIZE : nat := LINKS_PER_NEW_NODE + 1.

Definition random_eth_empirical_graph (fuel : nat) (nodes_address : list string) (rng : S)
    : option (Outcome GraphCalls) :=
  let node_number := length nodes_address in
  let initial_clique := Nat.min node_number INITIAL_CLIQUE_SIZE in
  let links_per_new_node := Nat.min LINKS_PER_NEW_NODE (initial_clique - 1) in
  if decide (node_number < 2) then Some (Ret (mkGraph nodes_address [])) else
  match generate_ba_network fuel node_number initial_clique links_per_new_node rng with
  | None => None
  | Some Panic => Some Panic
  | Some (Ret (net, _)) =>
      let edges := flat_map (fun sn => map (pair sn.1) (filter (fun t => sn.1 < t) (elements sn.2)))
                     (map_to_list (adjacency net)) in
      Some (Ret (mkGraph nodes_address (merge_sort pair_le edges)))
  end.

(** *** Watts-Strogatz *)

Definition undirected (u v : nat) : nat * nat := (Nat.min u v, Nat.max u v).

(** The regular ring: every node with its [k / 2] successors. *)
Definition ring_edges (n k : nat) : gset (nat * nat) :=
  list_to_set (flat_map (fun i => map (fun j => undirected i ((i + j) mod n)) (seq 1 (k / 2))) (seq 0 n)).

(** The end a rewired edge gets: redrawn until the edge is new. *)
Fixpoint rewire (fuel n u : nat) (edges final_edges : gset (nat * nat)) (rng : S) : option (nat * S) :=
  match fuel with
  | O => None
  | Datatypes.S fuel =>
      let '(new_v, rng) := next_usize n rng in
      if decide (new_v = u \/ undirected u new_v ∈ edges \/ undirected u new_v ∈ final_edges)
      then rewire fuel n u edges final_edges rng
      else Some (new_v, rng)
  end.

Fixpoint rewire_all (fuel n : nat) (p : F) (edges : gset (nat * nat)) (l : list (nat * nat))
    (final_edges : gset (nat * nat)) (rng : S) : option (gset (nat * nat)) :=
  match l with
  | [] => Some final_edges
  | (u, v) :: l =>
      let '(x, rng) := next_f64 rng in
      if f_ltb x p then
        match rewire fuel n u edges final_edges rng with
        | None => None
        | Some (new_v, rng) =>
            rewire_all fuel n p edges l ({[undirected u new_v]} ∪ final_edges) rng
        end
      else rewire_all fuel n p edges l ({[(u, v)]} ∪ final_edges) rng
  end.

Definition random_ws_graph (fuel : nat) (nodes_address : list string) (k : nat) (p : F) (rng : S)
    : option (Outcome GraphCalls) :=
  let n := length nodes_address in
  if decide (n <= k) then Some Panic else
  if decide (k mod 2 <> 0) then Some Panic else
  let edges := ring_edges n k in
  match rewire_all fuel n p edges (merge_sort pair_le (elements edges)) ∅ rng with
  | None => None
  | Some final_edges =>
      Some (Ret (mkGraph nodes_address (merge_sort pair_le (elements final_edges))))
  end.

End generators.

(** [graph_edges]: labels of the edges without the reverse of an earlier one;
    sorted lexicographically by the order [le] of the labels. *)
Section edges.
Variable le : string * string -> string * string -> Prop.
Context `{!forall a b, Decision (le a b)}.

Definition graph_edges (g : GraphCalls) : list (string * string) :=
  merge_sort le
    (fold_left (fun vec e =>
       let from := nth e.1 (g_nodes g) "" in
       let to := nth e.2 (g_nodes g) "" in
       if existsb (fun x => bool_decide (x = (to, from))) vec then vec else vec ++ [(from, to)])
       (g_edges g) []).

End edges.

(** ** The preferential-attachment network is well formed *)

(** The neighbours of a node. *)
Definition nbrs (net : BANetwork) (i : nat) : gset nat := get_or ∅ (adjacency net) i.

Record ba_ok (net : BANetwork) : Prop := {
  ba_dom : forall i, is_Some (adjacency net !! i) <-> i < length (degrees net);
  ba_sym : forall i j, j ∈ nbrs net i -> i ∈ nbrs net j;
  ba_irr : forall i, i ∉ nbrs net i;
  ba_range : forall i j, j ∈ nbrs net i -> i < length (degrees net) /\ j < length (degrees net);
  ba_degree : forall i d, degrees net !! i = Some d -> d = size (nbrs net i);
  ba_total : list_sum (degrees net) = total_edges net
}.

Lemma choose_walk_spec target degs : forall node sum,
  sum <= target < sum + list_sum degs ->
  exists v, choose_walk target node sum degs = Ret v /\ node <= v < node + length degs.
Proof.
  induction degs as [|d degs IH]; intros node sum Hs; simpl in *; [lia|].
  case_decide; [exists node; split; [done|lia]|].
  destruct (IH (S node) (sum + d) ltac:(lia)) as (v & E & Hv). exists v. split; [done|lia].
Qed.

Lemma alter_fold_lookup (l : list nat) : forall (degs : list nat) i,
  NoDup l ->
  fold_left (fun degs target => alter S target degs) l degs !! i
  = (if decide (i ∈ l) then S <$> degs !! i else degs !! i).
Proof.
  induction l as [|t l IH]; intros degs i Hnd; cbn [fold_left]; [by rewrite decide_False by set_solver|].
  inversion_clear Hnd as [|? ? Hni Hnd']. rewrite IH by done. destruct (decide (i = t)) as [->|Hne].
  - rewrite decide_False by done. rewrite decide_True by left. by rewrite list_lookup_alter_eq.
  - rewrite list_lookup_alter_ne by done. destruct (decide (i ∈ l)).
    + by rewrite decide_True by (by right).
    + rewrite decide_False; [done|]. set_solver.
Qed.

Lemma alter_fold_length (l : list nat) : forall (degs : list nat), length (fold_left (fun degs target => alter S target degs) l degs) = length degs.
Proof. induction l as [|t l IH]; intros degs; simpl; [done|]. by rewrite IH, length_alter. Qed.

Lemma list_sum_alter (degs : list nat) i : i < length degs -> list_sum (alter S i degs) = S (list_sum degs).
Proof.
  revert i. induction degs as [|d degs IH]; intros i Hi; simpl in Hi; [lia|].
  destruct i as [|i]; [done|]. change (alter S (Datatypes.S i) (d :: degs)) with (d :: alter S i degs).
  simpl. rewrite IH; lia.
Qed.

Lemma alter_fold_sum (l : list nat) : forall (degs : list nat), (forall t, t ∈ l -> t < length degs) ->
  list_sum (fold_left (fun degs target => alter S target degs) l degs) = list_sum degs + length l.
Proof.
  induction l as [|t l IH]; intros degs Hl; simpl; [lia|]. rewrite IH.
  - rewrite list_sum_alter by (apply Hl; left). lia.
  - intros x Hx. rewrite length_alter. apply Hl. by right.
Qed.

Lemma adj_fold_get new l : forall (adj : gmap nat (gset nat)) i, NoDup l ->
  get_or ∅ (fold_left (fun adj target => entry_update ∅ (fun s => {[new]} ∪ s) target adj) l adj) i
  = (if decide (i ∈ l) then {[new]} ∪ get_or ∅ adj i else get_or ∅ adj i).
Proof.
  induction l as [|t l IH]; intros adj i Hnd; cbn [fold_left]; [by rewrite decide_False by set_solver|].
  inversion_clear Hnd as [|? ? Hni Hnd']. rewrite IH by done. destruct (decide (i = t)) as [->|Hne].
  - rewrite decide_False by done. rewrite decide_True by left. by rewrite entry_update_eq.
  - rewrite entry_update_ne by done. destruct (decide (i ∈ l)).
    + by rewrite decide_True by (by right).
    + rewrite decide_False; [done|]. set_solver.
Qed.

Lemma adj_fold_dom new l : forall (adj : gmap nat (gset nat)) i,
  is_Some (fold_left (fun adj target => entry_update ∅ (fun s => {[new]} ∪ s) target adj) l adj !! i)
  <-> i ∈ l \/ is_Some (adj !! i).
Proof.
  induction l as [|t l IH]; intros adj i; cbn [fold_left]; [set_solver|]. rewrite IH. unfold entry_update.
  destruct (decide (t = i)) as [->|Hne].
  - rewrite lookup_insert_eq. set_solver.
  - rewrite lookup_insert_ne by done. set_solver.
Qed.

Lemma attach_total_fold (l : list nat) : forall k, fold_left (fun total _ => total + 2) l k = k + 2 * length l.
Proof. induction l as [|x l IH]; intros k; simpl; [lia|]. rewrite IH. lia. Qed.

(** A new node linked to nodes of a well-formed network. *)
Section attach_facts.
Variables (net : BANetwork) (set : gset nat).
Hypothesis Hok : ba_ok net.
Hypothesis Hset : forall t, t ∈ set -> t < length (degrees net).
Let n := length (degrees net).

Lemma attach_nbrs i : nbrs (attach net set) i
  = if decide (i = n) then set
    else if decide (i ∈ set) then {[n]} ∪ nbrs net i else nbrs net i.
Proof.
  unfold nbrs, attach; simpl. fold n. case_decide as Hi.
  - subst. by rewrite get_or_insert_eq.
  - rewrite get_or_insert_ne by done. rewrite adj_fold_get by apply NoDup_elements.
    destruct (decide (i ∈ elements set)) as [He|He]; [rewrite decide_True by set_solver|rewrite decide_False by set_solver]; done.
Qed.

Lemma length_attach : length (degrees (attach net set)) = n + 1.
Proof. simpl. rewrite length_app, alter_fold_length. simpl. unfold n. lia. Qed.

Lemma attach_dom i : is_Some (adjacency (attach net set) !! i) <-> i < length (degrees (attach net set)).
Proof.
  rewrite length_attach. simpl. fold n. destruct (decide (i = n)) as [->|Hne].
  - rewrite lookup_insert_eq. split; [lia|by eexists].
  - rewrite lookup_insert_ne by done. rewrite adj_fold_dom, (ba_dom _ Hok). fold n.
    split; [intros [Hi%elem_of_elements|Hi]; [apply Hset in Hi; unfold n; lia|lia]|intros; right; lia].
Qed.

Lemma attach_sym i j : j ∈ nbrs (attach net set) i -> i ∈ nbrs (attach net set) j.
Proof.
  destruct (decide (i = n)) as [->|Hi], (decide (j = n)) as [->|Hj]; [done|..]; rewrite !attach_nbrs.
  - rewrite decide_True, decide_False by done. intros Hjs. rewrite decide_True by done.
    apply elem_of_union. left. by apply elem_of_singleton.
  - rewrite decide_False, (decide_True (P := n = n)) by done. case_decide; [done|].
    intros Hr%(ba_range _ Hok). fold n in Hr. lia.
  - rewrite (decide_False (P := i = n)), (decide_False (P := j = n)) by done. intros Hji.
    assert (Hij : i ∈ nbrs net j).
    { apply (ba_sym _ Hok). case_decide; [|done]. by apply elem_of_union in Hji as [Hji%elem_of_singleton|]. }
    destruct (decide (j ∈ set)); [apply elem_of_union; by right|done].
Qed.

Lemma attach_irr i : i ∉ nbrs (attach net set) i.
Proof.
  rewrite attach_nbrs. repeat case_decide; subst.
  - intros Hi. apply Hset in Hi. unfold n in Hi. lia.
  - intros [Hi%elem_of_singleton|Hi]%elem_of_union; [done|by apply (ba_irr _ Hok i)].
  - apply (ba_irr _ Hok).
Qed.

Lemma attach_range i j : j ∈ nbrs (attach net set) i ->
  i < length (degrees (attach net set)) /\ j < length (degrees (attach net set)).
Proof.
  rewrite length_attach, attach_nbrs. repeat case_decide; subst.
  - intros Hj. apply Hset in Hj. fold n in Hj. lia.
  - intros [Hj%elem_of_singleton|Hj]%elem_of_union.
    { subst. split; [|lia]. match goal with Hin : i ∈ set |- _ => apply Hset in Hin; fold n in Hin; lia end. }
    apply (ba_range _ Hok) in Hj. fold n in Hj. lia.
  - intros Hj. apply (ba_range _ Hok) in Hj. fold n in Hj. lia.
Qed.

Lemma attach_degree i d : degrees (attach net set) !! i = Some d -> d = size (nbrs (attach net set) i).
Proof.
  simpl. rewrite attach_nbrs. destruct (decide (i = n)) as [->|Hne].
  - rewrite lookup_app_r by (rewrite alter_fold_length; unfold n; lia).
    rewrite alter_fold_length. fold n. replace (n - n) with 0 by lia. simpl. congruence.
  - intros Hd. assert (Hi : i < n).
    { apply lookup_lt_Some in Hd. rewrite length_app, alter_fold_length in Hd. simpl in Hd. unfold n in *. lia. }
    rewrite lookup_app_l in Hd by (rewrite alter_fold_length; done).
    rewrite alter_fold_lookup in Hd by apply NoDup_elements.
    destruct (decide (i ∈ elements set)) as [He|He].
    + rewrite decide_True by set_solver. destruct (degrees net !! i) as [d0|] eqn:E; [|done].
      simpl in Hd. injection Hd as <-. apply (ba_degree _ Hok) in E. rewrite size_union, size_singleton; [by rewrite E|].
      intros x Hx%elem_of_singleton Hx2. subst. apply (ba_range _ Hok) in Hx2. fold n in Hx2. lia.
    + rewrite decide_False by set_solver. by apply (ba_degree _ Hok).
Qed.

Lemma attach_ok : ba_ok (attach net set).
Proof.
  split; [exact attach_dom|exact attach_sym|exact attach_irr|exact attach_range|exact attach_degree|].
  simpl. rewrite list_sum_app, alter_fold_sum by (intros t Ht%elem_of_elements; auto).
  rewrite (ba_total _ Hok), attach_total_fold. simpl. unfold size, set_size. simpl. lia.
Qed.

End attach_facts.

Lemma new_nbrs m0 i : nbrs (BANetwork_new m0) i
  = if decide (i < m0) then list_to_set (filter (fun j => i <> j) (seq 0 m0)) else ∅.
Proof.
  unfold nbrs, BANetwork_new, get_or; simpl.
  set (f := fun i => (i, list_to_set (filter (fun j => i <> j) (seq 0 m0)) : gset nat)).
  assert (Hfst : (map f (seq 0 m0)).*1 = seq 0 m0).
  { change (fst <$> (f <$> seq 0 m0) = seq 0 m0). rewrite <- list_fmap_compose. apply list_fmap_id. }
  case_decide as Hi.
  - rewrite (collect_map_lookup _ i (list_to_set (filter (fun j => i <> j) (seq 0 m0)))); [done|..].
    + rewrite Hfst. apply NoDup_seq.
    + apply (list_elem_of_fmap_2 f). apply elem_of_seq. lia.
  - rewrite collect_map_None; [done|]. rewrite Hfst. rewrite elem_of_seq. lia.
Qed.

Lemma new_nbrs_elem m0 i j : j ∈ nbrs (BANetwork_new m0) i <-> i < m0 /\ j < m0 /\ i <> j.
Proof.
  rewrite new_nbrs. case_decide.
  - rewrite elem_of_list_to_set, list_elem_of_filter, elem_of_seq. split; intros; lia.
  - split; [set_solver|lia].
Qed.

Lemma length_filter_ne i n : i < n -> length (filter (fun j => i <> j) (seq 0 n)) = n - 1.
Proof.
  intros Hi. assert (Hp : seq 0 n ≡ₚ i :: filter (fun j => i <> j) (seq 0 n)).
  { apply NoDup_Permutation; [apply NoDup_seq| |].
    - constructor; [rewrite list_elem_of_filter; naive_solver|apply NoDup_filter, NoDup_seq].
    - intros x. rewrite elem_of_cons, list_elem_of_filter, elem_of_seq.
      destruct (decide (x = i)); [subst; split; [by left|intros; lia]|].
      split; [intros; right; split; [naive_solver|lia]|intros [|[_ ?]]; [done|lia]]. }
  apply Permutation_length in Hp. rewrite length_seq in Hp. simpl in Hp. lia.
Qed.

Lemma new_ok m0 : ba_ok (BANetwork_new m0).
Proof.
  split.
  - intros i. unfold BANetwork_new. cbn [adjacency degrees]. rewrite collect_map_dom, length_replicate.
    rewrite list_elem_of_fmap. split.
    + intros ([k s] & -> & Hk). apply list_elem_of_fmap in Hk as (x & [= -> ->] & Hx). apply elem_of_seq in Hx. simpl. lia.
    + intros Hi. eexists (i, _). split; [done|]. apply list_elem_of_fmap. exists i. split; [done|]. apply elem_of_seq. lia.
  - intros i j. rewrite !new_nbrs_elem. naive_solver.
  - intros i. rewrite new_nbrs_elem. naive_solver.
  - intros i j. rewrite new_nbrs_elem. unfold BANetwork_new. cbn [degrees]. rewrite length_replicate. lia.
  - intros i d. unfold BANetwork_new at 1. cbn [degrees]. intros [-> Hi]%lookup_replicate.
    rewrite new_nbrs, decide_True by done. rewrite size_list_to_set by apply NoDup_filter, NoDup_seq.
    by rewrite length_filter_ne.
  - unfold BANetwork_new. cbn [degrees total_edges]. generalize (m0 - 1) as k. intros k.
    induction m0 as [|m0 IH]; simpl; [done|]. by rewrite IH.
Qed.

(** Two nodes joined by a path of links. *)
Definition linked (net : BANetwork) : relation nat := rtc (fun i j => j ∈ nbrs net i).

Definition connected (net : BANetwork) : Prop := forall i, i < length (degrees net) -> linked net 0 i.

Lemma new_connected m0 : connected (BANetwork_new m0).
Proof.
  intros i. unfold BANetwork_new at 1. cbn [degrees]. rewrite length_replicate. intros Hi.
  destruct (decide (i = 0)) as [->|Hne]; [apply rtc_refl|]. apply rtc_once. apply new_nbrs_elem. lia.
Qed.

Lemma attach_connected net set : ba_ok net -> (forall t, t ∈ set -> t < length (degrees net)) ->
  set ≢ ∅ -> connected net -> connected (attach net set).
Proof.
  intros Hok Hset Hne Hc i Hi. simpl in Hi. rewrite length_app, alter_fold_length in Hi. simpl in Hi.
  assert (Hmono : forall x y, linked net x y -> linked (attach net set) x y).
  { intros x y. apply rtc_subrel. intros a b Hab. rewrite attach_nbrs by done.
    destruct Hok as [_ _ _ Hrange _ _]. pose proof (Hrange _ _ Hab).
    rewrite decide_False by lia. case_decide; [apply elem_of_union; by right|done]. }
  destruct (decide (i < length (degrees net))) as [Hlt|Hge]; [by apply Hmono, Hc|].
  assert (i = length (degrees net)) as -> by lia.
  apply set_choose in Hne as [t Ht]. pose proof (Hset t Ht) as Htl.
  apply rtc_r with t; [by apply Hmono, Hc|]. rewrite attach_nbrs by done.
  rewrite decide_False by lia. rewrite decide_True by done. apply elem_of_union. left. by apply elem_of_singleton.
Qed.

Section ba_facts.
Context {F S : Type} `{RngState F S} `{!RngStateLaws F S}.

Lemma choose_targets_ok fuel m net : forall set rng,
  ba_ok net -> 0 < total_edges net -> (forall t, t ∈ set -> t < length (degrees net)) ->
  size set <= m -> size set <= length (degrees net) ->
  match choose_targets fuel m net set rng with
  | None => True
  | Some Panic => False
  | Some (Ret (s, _)) =>
      (forall t, t ∈ s -> t < length (degrees net)) /\ size s = Nat.min m (length (degrees net))
  end.
Proof.
  induction fuel as [|fuel IH]; intros set rng Hok Htot Hset Hm Hl; cbn [choose_targets];
    (case_decide as Hd; [|split; [done|lia]]); [done|].
  pose proof (next_usize_lt (total_edges net) rng Htot) as Hdraw.
  destruct (next_usize (total_edges net) rng) as [draw rng'] eqn:Er. simpl in Hdraw.
  destruct (choose_walk_spec draw (degrees net) 0 0) as (v & Ev & Hv).
  { rewrite (ba_total _ Hok). lia. }
  unfold choose_node. rewrite Ev. rewrite decide_True by lia.
  assert (Hsz : size ({[v]} ∪ set) <= Datatypes.S (size set)).
  { rewrite size_union_alt, size_singleton. assert (size (set ∖ {[v]}) <= size set); [|lia].
    apply subseteq_size. set_solver. }
  apply IH; try done; [|lia|lia]. intros t [->%elem_of_singleton|Ht]%elem_of_union; [lia|auto].
Qed.

Lemma choose_targets_mono fuel0 fuel m net : forall set rng r,
  fuel0 <= fuel -> choose_targets (F := F) fuel0 m net set rng = Some r ->
  choose_targets (F := F) fuel m net set rng = Some r.
Proof.
  revert fuel. induction fuel0 as [|fuel0 IH]; intros fuel set rng r Hle; cbn [choose_targets].
  - case_decide; [done|]. intros [= <-]. destruct fuel; cbn [choose_targets]; by rewrite decide_False.
  - destruct fuel as [|fuel]; [lia|]. cbn [choose_targets]. case_decide; [|done].
    destruct (next_usize _ _). destruct (choose_node _ _); [|done]. apply IH. lia.
Qed.

Lemma choose_walk_reaches degs v d : forall node sum,
  degs !! v = Some d -> 0 < d ->
  exists draw, sum <= draw < sum + list_sum degs /\ choose_walk draw node sum degs = Ret (node + v).
Proof.
  revert v. induction degs as [|d0 degs IH]; intros v node sum Hv Hd; [done|]. destruct v as [|v].
  - injection Hv as ->. exists sum. simpl. rewrite decide_True by lia. split; [lia|]. f_equal. lia.
  - destruct (IH v (Datatypes.S node) (sum + d0) Hv Hd) as (draw & Hr & E). exists draw. simpl.
    rewrite decide_False by lia. rewrite E. split; [lia|]. f_equal. lia.
Qed.

(** Every node has a link. *)
Definition no_isolated (net : BANetwork) : Prop := Forall (fun d => 0 < d) (degrees net).

Lemma fresh_node net (set : gset nat) :
  (forall t, t ∈ set -> t < length (degrees net)) -> size set < length (degrees net) ->
  exists v, v < length (degrees net) /\ v ∉ set.
Proof.
  intros Hset Hsz. destruct (decide ((list_to_set (seq 0 (length (degrees net))) : gset nat) ⊆ set)) as [Hin|Hin].
  - apply subseteq_size in Hin. rewrite size_list_to_set, length_seq in Hin by apply NoDup_seq. lia.
  - assert (Hne : (list_to_set (seq 0 (length (degrees net))) : gset nat) ∖ set ≢ ∅).
    { intros E. apply Hin. intros x Hx. destruct (decide (x ∈ set)); [done|]. set_solver. }
    apply set_choose in Hne as [v Hv]. exists v.
    apply elem_of_difference in Hv as [Hv ?]. apply elem_of_list_to_set, elem_of_seq in Hv. split; [lia|done].
Qed.

(** A budget of draws is enough from [set] and [rng] on. *)
Definition draws_suffice (m : nat) (net : BANetwork) (set : gset nat) (rng : S) : Prop :=
  exists fuel0, forall fuel, fuel0 <= fuel -> choose_targets (F := F) fuel m net set rng <> None.

Lemma draws_suffice_step m net set rng v draw rng' :
  next_usize (total_edges net) rng = (draw, rng') -> choose_node net draw = Ret v ->
  v < length (degrees net) -> draws_suffice m net ({[v]} ∪ set) rng' -> draws_suffice m net set rng.
Proof.
  intros Er Ev Hv [fuel0 Hf]. exists (Datatypes.S fuel0). intros fuel Hfuel. destruct fuel as [|fuel]; [lia|].
  cbn [choose_targets]. case_decide; [|done]. rewrite Er, Ev. rewrite decide_True by lia. apply Hf. lia.
Qed.

Lemma choose_targets_ends `{!RngFair F S} m net :
  ba_ok net -> no_isolated net -> 0 < total_edges net ->
  forall missing set rng, (forall t, t ∈ set -> t < length (degrees net)) ->
  length (degrees net) <= size set + missing -> draws_suffice m net set rng.
Proof.
  intros Hok Hiso Htot. induction missing as [missing IH] using lt_wf_ind. intros set rng Hset Hmiss.
  destruct (decide (size set < m /\ size set < length (degrees net))) as [Hgo|Hstop].
  2:{ exists 0. intros fuel _. destruct fuel; cbn [choose_targets]; by rewrite decide_False. }
  destruct (fresh_node net set Hset (proj2 Hgo)) as (v & Hv & Hvs).
  destruct (lookup_lt_is_Some_2 _ _ Hv) as [d Hd].
  destruct (choose_walk_reaches (degrees net) v d 0 0 Hd) as (draw & Hdraw & Ewalk).
  { by apply (proj1 (Forall_lookup _ _) Hiso v). }
  rewrite (ba_total _ Hok) in Hdraw. destruct (draws_meet (total_edges net) rng draw ltac:(lia)) as [k Hk].
  revert rng Hk. induction k as [|k IHk]; intros rng Hk; simpl in Hk;
    pose proof (next_usize_lt (total_edges net) rng Htot) as Hlt;
    destruct (next_usize (total_edges net) rng) as [dr rng'] eqn:Er; simpl in Hk, Hlt.
  all: destruct (choose_walk_spec dr (degrees net) 0 0) as (v' & Ev' & Hv'); [rewrite (ba_total _ Hok); lia|].
  all: assert (Hgrow : v' ∉ set -> draws_suffice m net ({[v']} ∪ set) rng').
  1,3: intros Hnew; apply (IH (missing - 1)); [lia| |];
       [intros t [->%elem_of_singleton|Ht]%elem_of_union; [lia|auto]
       |rewrite size_union, size_singleton by set_solver; lia].
  all: eapply draws_suffice_step; [exact Er|exact Ev'|lia|].
  - apply Hgrow. subst dr. rewrite Ewalk in Ev'. injection Ev' as <-. done.
  - destruct (decide (v' ∈ set)); [|by apply Hgrow].
    replace ({[v']} ∪ set) with set by set_solver. by apply IHk.
Qed.

(** What generation keeps true of the network. *)
Record ba_inv (net : BANetwork) : Prop := {
  inv_ok : ba_ok net;
  inv_iso : no_isolated net;
  inv_conn : connected net;
  inv_tot : 0 < total_edges net;
  inv_len : 1 <= length (degrees net)
}.

Lemma attach_inv net set : ba_inv net -> (forall t, t ∈ set -> t < length (degrees net)) ->
  0 < size set -> ba_inv (attach net set).
Proof.
  intros [Hok Hiso Hc Htot Hlen] Hset Hsz. split.
  - by apply attach_ok.
  - unfold no_isolated; simpl. apply Forall_app. split; [|apply Forall_singleton; done].
    apply Forall_lookup. intros i d Hd. rewrite alter_fold_lookup in Hd by apply NoDup_elements.
    destruct (degrees net !! i) as [d0|] eqn:E; [|by case_decide].
    pose proof (proj1 (Forall_lookup _ _) Hiso i d0 E) as Hpos. simpl in Hpos.
    case_decide; simpl in Hd; injection Hd as <-; lia.
  - apply attach_connected; try done. intros E. apply size_empty_iff in E. lia.
  - simpl. rewrite attach_total_fold. lia.
  - rewrite length_attach. lia.
Qed.

Lemma new_inv m0 : 2 <= m0 -> ba_inv (BANetwork_new m0).
Proof.
  intros Hm0. split; [apply new_ok| |apply new_connected|simpl; nia|simpl; rewrite length_replicate; lia].
  unfold no_isolated; simpl. apply Forall_replicate. lia.
Qed.

Lemma add_node_ok `{!RngFair F S} m net rng : 1 <= m -> ba_inv net ->
  exists fuel0 net' rng', ba_inv net' /\ length (degrees net') = length (degrees net) + 1
    /\ forall fuel, fuel0 <= fuel -> add_node (F := F) fuel m net rng = Some (Ret (net', rng')).
Proof.
  intros Hm Hinv. pose proof Hinv as [Hok Hiso Hc Htot Hlen].
  destruct (choose_targets_ends m net Hok Hiso Htot (length (degrees net)) ∅ rng) as [fuel0 Hf]; [set_solver|lia|].
  pose proof (choose_targets_ok fuel0 m net ∅ rng Hok Htot) as Hct. rewrite size_empty in Hct.
  specialize (Hct ltac:(set_solver) ltac:(lia) ltac:(lia)). pose proof (Hf fuel0 ltac:(lia)) as Hf0.
  destruct (choose_targets fuel0 m net ∅ rng) as [[[s rng']|]|] eqn:E; [|done|done].
  destruct Hct as [Hs Hsz]. exists fuel0, (attach net s), rng'.
  split_and!; [apply attach_inv; [done..|lia]|apply length_attach|].
  intros fuel Hfuel. unfold add_node. rewrite (choose_targets_mono fuel0 fuel) with (r := Ret (s, rng')); [|done..].
  rewrite decide_True; [done|]. apply Forall_forall. intros t Ht%elem_of_elements. split; [|by apply Hs].
  apply (ba_dom _ Hok), Hs, Ht.
Qed.

Lemma add_nodes_ok `{!RngFair F S} m count : forall net rng, 1 <= m -> ba_inv net ->
  exists fuel0 net' rng', ba_inv net' /\ length (degrees net') = length (degrees net) + count
    /\ forall fuel, fuel0 <= fuel -> add_nodes (F := F) fuel m count net rng = Some (Ret (net', rng')).
Proof.
  induction count as [|count IH]; intros net rng Hm Hinv.
  { exists 0, net, rng. split_and!; [done|lia|done]. }
  destruct (add_node_ok m net rng Hm Hinv) as (f1 & net1 & rng1 & Hinv1 & Hl1 & H1).
  destruct (IH net1 rng1 Hm Hinv1) as (f2 & net2 & rng2 & Hinv2 & Hl2 & H2).
  exists (Nat.max f1 f2), net2, rng2. split_and!; [done|lia|].
  intros fuel Hf. cbn [add_nodes]. rewrite H1 by lia. apply H2. lia.
Qed.

(** Generating a preferential-attachment network ends, for a generator whose
    draws meet every value, and gives a simple connected graph: for an initial
    clique of at least two nodes and [1 <= m <= m0] links per new node there is a
    budget of redraws from which on generation returns, never panics, and returns
    a network whose adjacency is symmetric and without self-loops, whose degrees
    count the neighbours and sum to twice the number of links, with as many nodes as
    asked for, none of them isolated and all linked to the first. *)
Theorem ba_network_wellformed `{!RngFair F S} (n_nodes m0 m : nat) (rng : S) :
  2 <= m0 -> 1 <= m <= m0 -> m0 <= n_nodes ->
  exists fuel0 net rng',
    (forall fuel, fuel0 <= fuel -> generate_ba_network (F := F) fuel n_nodes m0 m rng = Some (Ret (net, rng')))
    /\ ba_ok net /\ no_isolated net /\ connected net /\ length (degrees net) = n_nodes.
Proof.
  intros Hm0 Hm Hn.
  destruct (add_nodes_ok m (n_nodes - m0) (BANetwork_new m0) rng ltac:(lia) (new_inv m0 Hm0))
    as (fuel0 & net & rng' & [Hok Hiso Hc _ _] & Hlen & Hf).
  exists fuel0, net, rng'. simpl in Hlen. rewrite length_replicate in Hlen. split_and!; [|done..|lia].
  intros fuel Hfuel. unfold generate_ba_network. rewrite decide_False by lia. by apply Hf.
Qed.

(** The Watts-Strogatz generator can loop forever: on three nodes with [k = 2]
    the ring is already the complete graph, so once an edge is to be rewired no
    draw is ever acceptable, whatever the generator returns and however long it
    runs. *)
Theorem ws_rewire_never_ends (fuel u : nat) (final_edges : gset (nat * nat)) (rng : S) :
  u < 3 -> rewire (F := F) fuel 3 u (ring_edges 3 2) final_edges rng = None.
Proof.
  intros Hu. revert rng. induction fuel as [|fuel IH]; intros rng; [done|]. cbn [rewire].
  pose proof (next_usize_lt 3 rng ltac:(lia)) as Hd. destruct (next_usize 3 rng) as [v rng']. simpl in Hd.
  rewrite decide_True; [apply IH|].
  assert (Hin : forall a b, a < 3 -> b < 3 -> a <> b -> undirected a b ∈ ring_edges 3 2).
  { intros a b Ha Hb Hab. unfold ring_edges, undirected.
    destruct a as [|[|[|]]], b as [|[|[|]]]; try lia; vm_compute; reflexivity. }
  destruct (decide (v = u)); [by left|]. right. left. apply Hin; lia.
Qed.

End ba_facts.
