(* ===== verification/Network.v ===== *)
(** * Simulation set-up

    src/src/network/mod.rs: the simulation configuration and its resolution,
    relay profiles, the stake distribution, the choice of adversarial and lazy
    nodes, and the transaction generator.  Seeded shuffles are third-party
    ([Shuffle]); the iteration order of a hash map is an argument wherever the
    source goes through one. *)

From Stdlib Require Import Reals Lra Sorted.
From stdpp Require Import sorting pretty.
From S2P Require Export Metrics Graph TopoStakeFacts.
Local Open Scope rust_scope.

Inductive AdversaryPlacement := PlaceRandom | HighDegree | HighBetweenness.
Inductive AttackMode := AttackNone | MaxScore | PathPadding | Flooding.
Inductive RelayProfile := Active | Normal | Lazy | Mixed.

#[export] Instance AttackMode_eq_dec : EqDecision AttackMode.
Proof. solve_decision. Defined.
#[export] Instance RelayProfile_eq_dec : EqDecision RelayProfile.
Proof. solve_decision. Defined.

Definition AdversaryPlacement_fmt (p : AdversaryPlacement) : string :=
  match p with
  | PlaceRandom => "random"
  | HighDegree => "high-degree"
  | HighBetweenness => "high-betweenness"
  end.

Definition AttackMode_fmt (m : AttackMode) : string :=
  match m with
  | AttackNone => "none"
  | MaxScore => "max-score"
  | PathPadding => "path-padding"
  | Flooding => "flooding"
  end.

Definition RelayProfile_fmt (p : RelayProfile) : string :=
  match p with
  | Active => "active"
  | Normal => "normal"
  | Lazy => "lazy"
  | Mixed => "mixed"
  end.

Definition node_relay_profile (config_profile : RelayProfile) (node_index : nat) : RelayProfile :=
  match config_profile with
  | Mixed =>
      match node_index mod 3 with
      | 0 => Active
      | 1 => Normal
      | _ => Lazy
      end
  | other => other
  end.

(** [SliceRandom::shuffle] with a generator seeded by a [u64]. *)
Class Shuffle := shuffle : forall A : Type, Z -> list A -> list A.
Class ShuffleLaws `{Shuffle} : Prop := shuffle_perm A seed (l : list A) : shuffle A seed l ≡ₚ l.

(** [Ord for str]: bytewise lexicographic. *)
Definition str_le (a b : string) : Prop := String.leb a b = true.
#[export] Instance str_le_dec a b : Decision (str_le a b).
Proof. unfold str_le. apply _. Defined.

Definition indexed_le (a b : Z * string) : Prop := (a.1 < b.1)%Z \/ (a.1 = b.1 /\ str_le a.2 b.2).
#[export] Instance indexed_le_dec a b : Decision (indexed_le a b).
Proof. unfold indexed_le. apply _. Defined.

Record SimulationConfig {F : Type} := mkSimulationConfig {
  node_num : Z; sybil_node_num : Z; fake_node_num : Z; unstable_node_num : Z;
  unstable_fraction : F; offline_probability : F;
  outage_start_epoch : Z; outage_duration_epochs : Z; outage_validator_ids : string;
  outage_common_slot_randomness : bool;
  trans_num_per_second : Z; slot_duration : Z; slot_per_epoch : Z;
  pow_difficulty : Z; pow_max_threads : Z;
  consensus_type : ConsensusType; topology : TopologyType; gini : F; transaction_fee : F;
  graph_seed : Z; wallet_seed : Z; workload_seed : Z; election_seed : Z; failure_seed : Z;
  attack_seed : Z; sim_base_reward : F; max_tx_per_block : Z; topostake_config : TopoStakeConfig F;
  max_epochs : Z; metrics_prefix : string; run_id : string; output_dir : string;
  real_time : bool; time_scale : F; network_delay_multiplier : F;
  validator_scale_capacity_penalty : F; topostake_scale_capacity_bonus : F;
  validator_scale_latency_penalty : F; topostake_scale_latency_reduction : F;
  topostake_latency_reduction_s : F;
  relay_profile : RelayProfile; relay_background_profile : RelayProfile; focal_relayer_count : Z;
  lazy_fraction : F; adversary_stake_fraction : F; adversary_placement : AdversaryPlacement;
  attack_mode : AttackMode; padding_identities : Z; attack_tx_rate_multiplier : F
}.
Arguments SimulationConfig : clear implicits.

Section network.
Context {F : Type} `{F64 F}.
Implicit Types (c : SimulationConfig F).

(** [if x <= 0 || !x.is_finite() { x = d }] and its [x < 0] variant. *)
Definition positive_or (d x : F) : F := if f_leb x f0 || negb (f_is_finite x) then d else x.
Definition nonneg_or (d x : F) : F := if f_ltb x f0 || negb (f_is_finite x) then d else x.

(** [SimulationConfig::resolved], [now] being the clock's reading. *)
Definition resolved (now : Z) c : SimulationConfig F :=
  let run := if is_blank (run_id c) then "run-" +:+ pretty now else run_id c in
  let out := if is_blank (output_dir c) then "results/" +:+ run else output_dir c in
  {| node_num := node_num c; sybil_node_num := sybil_node_num c; fake_node_num := fake_node_num c;
     unstable_node_num := unstable_node_num c;
     unstable_fraction := f_clamp (unstable_fraction c) f0 f1;
     offline_probability := f_clamp (offline_probability c) f0 f1;
     outage_start_epoch := outage_start_epoch c; outage_duration_epochs := outage_duration_epochs c;
     outage_validator_ids := outage_validator_ids c;
     outage_common_slot_randomness := outage_common_slot_randomness c;
     trans_num_per_second := trans_num_per_second c; slot_duration := slot_duration c;
     slot_per_epoch := slot_per_epoch c; pow_difficulty := pow_difficulty c;
     pow_max_threads := pow_max_threads c; consensus_type := consensus_type c; topology := topology c;
     gini := gini c; transaction_fee := transaction_fee c; graph_seed := graph_seed c;
     wallet_seed := wallet_seed c; workload_seed := workload_seed c; election_seed := election_seed c;
     failure_seed := failure_seed c; attack_seed := attack_seed c; sim_base_reward := sim_base_reward c;
     max_tx_per_block := max_tx_per_block c; topostake_config := topostake_config c;
     max_epochs := max_epochs c; metrics_prefix := metrics_prefix c; run_id := run; output_dir := out;
     real_time := real_time c;
     time_scale := positive_or f1 (time_scale c);
     network_delay_multiplier := positive_or f1 (network_delay_multiplier c);
     validator_scale_capacity_penalty := nonneg_or f0 (validator_scale_capacity_penalty c);
     topostake_scale_capacity_bonus := nonneg_or f0 (topostake_scale_capacity_bonus c);
     validator_scale_latency_penalty := nonneg_or f0 (validator_scale_latency_penalty c);
     topostake_scale_latency_reduction := nonneg_or f0 (topostake_scale_latency_reduction c);
     topostake_latency_reduction_s := nonneg_or f0 (topostake_latency_reduction_s c);
     relay_profile := relay_profile c; relay_background_profile := relay_background_profile c;
     focal_relayer_count := focal_relayer_count c;
     lazy_fraction := f_clamp (lazy_fraction c) f0 f1;
     adversary_stake_fraction := f_clamp (adversary_stake_fraction c) f0 f1;
     adversary_placement := adversary_placement c; attack_mode := attack_mode c;
     padding_identities := padding_identities c;
     attack_tx_rate_multiplier := nonneg_or f0 (attack_tx_rate_multiplier c) |}.

(** [x as u32] of a float saturates. *)
Definition as_u32 (z : Z) : Z := Z.max 0 (Z.min z U32_MAX).

Definition effective_unstable_node_num c : Z :=
  if (0 <? unstable_node_num c)%Z then unstable_node_num c
  else as_u32 (f_round (f_mul (f_of_Z (node_num c)) (unstable_fraction c))).

Definition effective_fake_node_num c : Z :=
  if decide (attack_mode c = PathPadding) then Z.max (fake_node_num c) (padding_identities c)
  else fake_node_num c.

Definition effective_max_tx_per_block c : Z :=
  let base_capacity := f_of_Z (Z.max (max_tx_per_block c) 1) in
  let scale_ratio := f_max (f_div (f_of_Z (node_num c)) (f_of_Z 50)) f1 in
  let scale_pressure := f_ln scale_ratio in
  let capacity := f_div base_capacity
                    (f_add f1 (f_mul (validator_scale_capacity_penalty c) scale_pressure)) in
  let capacity := if decide (consensus_type c = TopoStake)
                  then f_mul capacity (f_add f1 (topostake_scale_capacity_bonus c)) else capacity in
  f_floor (f_clamp (f_of_Z (f_round capacity)) f1 base_capacity).

Definition confirmation_latency_adjustment_s c : F :=
  let scale_ratio := f_max (f_div (f_of_Z (node_num c)) (f_of_Z 50)) f1 in
  let scale_pressure := f_mul (f_ln scale_ratio) scale_ratio in
  let adjustment := f_mul (validator_scale_latency_penalty c) scale_pressure in
  if decide (consensus_type c = TopoStake) then
    f_sub (f_mul adjustment (f_sub f1 (f_clamp (topostake_scale_latency_reduction c) f0 f1)))
      (topostake_latency_reduction_s c)
  else adjustment.

(** ** Lazy relays *)

Definition LAZY_SEED_MASK : Z := 0x52454c41595f4d49.

Definition select_lazy_relayer_addresses `{Shuffle} (candidates : list (Z * string))
    (lazy_fraction : F) (failure_seed : Z) : gset string :=
  let sorted := merge_sort indexed_le candidates in
  let addresses := shuffle string (Z.lxor failure_seed LAZY_SEED_MASK) (map snd sorted) in
  let lazy_count :=
    Nat.min (Z.to_nat (f_round (f_mul (f_of_nat (length addresses)) (f_clamp lazy_fraction f0 f1))))
      (length addresses) in
  list_to_set (take lazy_count addresses).

(** ** Stake distribution *)

Definition exp_stakes (n : nat) (lambda : F) : list F :=
  map (fun i => f_exp (f_neg (f_mul lambda (f_div (f_of_nat i) (f_of_nat n))))) (seq 0 n).

Fixpoint gini_bisect (iterations : nat) (n : nat) (target low high : F) : F :=
  match iterations with
  | O => f_div (f_add low high) f2
  | S iterations =>
      let mid := f_div (f_add low high) f2 in
      if f_ltb (calculate_gini (exp_stakes n mid)) target
      then gini_bisect iterations n target mid high
      else gini_bisect iterations n target low mid
  end.

Definition gini_lambda (n : nat) (target_gini : F) : F :=
  if f_ltb target_gini (f_dec 1 2) then f0
  else if f_gtb target_gini (f_dec 99 2) then f_of_Z 20
  else gini_bisect 30 n target_gini f0 (f_of_Z 20).

(** The shuffle sorts by a random key plus a fraction of the stake; [sort_keys]
    are the generator's draws. *)
Definition keyed_le (sort_keys : list F) (a b : nat * F) : Prop :=
  let key x := f_add (nth x.1 sort_keys f0) (f_mul x.2 (f_dec 3 1)) in
  f_leb (key a) (key b) = true.
#[export] Instance keyed_le_dec ks a b : Decision (keyed_le ks a b).
Proof. unfold keyed_le. apply _. Defined.

Definition generate_stake_by_gini (node_num : nat) (target_gini : F) (sort_keys : list F) : list F :=
  if decide (node_num = 0) then [] else
  let stakes := exp_stakes node_num (gini_lambda node_num target_gini) in
  let sum := fsum stakes in
  let scale_factor := f_div (f_of_nat node_num) sum in
  let stakes := map (fun s => f_mul s scale_factor) stakes in
  map snd (merge_sort (keyed_le sort_keys) (enumerate stakes)).

(** ** The adversarial coalition *)

Definition degree_le (node_degrees : gmap string Z) (a b : string) : Prop :=
  let d x := get_or 0%Z node_degrees x in
  (d b < d a)%Z \/ (d a = d b /\ str_le a b).
#[export] Instance degree_le_dec m a b : Decision (degree_le m a b).
Proof. unfold degree_le. apply _. Defined.

Definition betweenness_le (node_betweenness : gmap string F) (a b : string) : Prop :=
  let d x := get_or f0 node_betweenness x in
  f_ltb (d b) (d a) = true \/ (f_ltb (d a) (d b) = false /\ str_le a b).
#[export] Instance betweenness_le_dec m a b : Decision (betweenness_le m a b).
Proof. unfold betweenness_le. apply _. Defined.

(** Candidates in order until the target is reached. *)
Fixpoint take_stake (stake_map : gmap string F) (target selected_stake : F) (l : list string)
    : list string :=
  match l with
  | [] => []
  | addr :: l =>
      if f_geb selected_stake target then []
      else addr :: take_stake stake_map target (f_add selected_stake (get_or f0 stake_map addr)) l
  end.

Definition candidate_order `{Shuffle} (node_degrees : gmap string Z) (node_betweenness : gmap string F)
    (placement : AdversaryPlacement) (attack_seed : Z) (keys : list string) : list string :=
  match placement with
  | PlaceRandom => shuffle string attack_seed (merge_sort str_le keys)
  | HighDegree => merge_sort (degree_le node_degrees) keys
  | HighBetweenness => merge_sort (betweenness_le node_betweenness) keys
  end.

(** [keys] is the iteration order of the stake map. *)
Definition select_adversarial_nodes `{Shuffle} (keys : list string) (stake_map : gmap string F)
    (node_degrees : gmap string Z) (node_betweenness : gmap string F) (target_stake_fraction : F)
    (placement : AdversaryPlacement) (attack_seed : Z) : gset string :=
  if f_leb target_stake_fraction f0 || bool_decide (stake_map = ∅) then ∅ else
  let target := f_mul (fsum (map_values stake_map)) (f_clamp target_stake_fraction f0 f1) in
  list_to_set (take_stake stake_map target f0
    (candidate_order node_degrees node_betweenness placement attack_seed keys)).

Definition adversary_stake_share (adversarial_nodes : gset string) (stake_map : gmap string F) : F :=
  let total := fsum (map_values stake_map) in
  if f_leb total f0 then f0 else
  f_div (fsum (map (fun addr => get_or f0 stake_map addr) (elements adversarial_nodes))) total.

(** [padding_identities.saturating_add(1).max(1)]. *)
Definition split_padding_stake (total_stake : F) (padding_identities : Z) : list F :=
  let identities := Z.max (Z.min (padding_identities + 1) U32_MAX) 1 in
  replicate (Z.to_nat identities) (f_div total_stake (f_of_Z identities)).

Definition flooding_fee_spent (generated_tx : Z) (transaction_fee : F) : F :=
  f_mul (f_mul (f_of_Z generated_tx) f2) transaction_fee.

(** ** The transaction generator *)

Record Generator := mkGenerator {
  tg_nodes_sender : gset string;
  tg_nodes_address : list string;
  tg_generated_tx_counter : Z;
  tg_fee_spent : gmap string F;
  tg_transaction_fee : F;
  tg_adversarial_nodes : gset string
}.

Fixpoint draw_other `{RngState F St} (fuel : nat) (addresses : list string) (from : string) (rng : St)
    : option (string * St) :=
  match fuel with
  | O => None
  | S fuel =>
      let '(i, rng) := next_usize (length addresses) rng in
      let to := nth i addresses "" in
      if decide (to = from) then draw_other fuel addresses from rng else Some (to, rng)
  end.

(** [send_ok from] is whether the node's mailbox accepted the message; the result
    has the message sent, its mailbox and its receiver; [None] when the budget of
    redraws for a distinct receiver was exhausted. *)
Definition emit_one_transaction `{RngState F St} (fuel : nat) (send_ok : string -> bool)
    (adversarial_only : bool) (g : Generator) (rng : St)
    : option (Generator * option (string * string) * St) :=
  let candidates := if adversarial_only
                    then filter (fun addr => addr ∈ tg_adversarial_nodes g) (tg_nodes_address g)
                    else tg_nodes_address g in
  if decide (length candidates < 2 \/ length (tg_nodes_address g) < 2) then Some (g, None, rng) else
  let '(i, rng) := next_usize (length candidates) rng in
  let from := nth i candidates "" in
  match draw_other fuel (tg_nodes_address g) from rng with
  | None => None
  | Some (to, rng) =>
      if decide (from ∉ tg_nodes_sender g) then Some (g, None, rng) else
      if negb (send_ok from) then Some (g, None, rng) else
      Some (mkGenerator (tg_nodes_sender g) (tg_nodes_address g)
              (u64_add (tg_generated_tx_counter g) 1)
              (entry_update f0 (fun x => f_add x (f_mul f2 (tg_transaction_fee g))) from (tg_fee_spent g))
              (tg_transaction_fee g) (tg_adversarial_nodes g), Some (from, to), rng)
  end.

End network.
Arguments Generator : clear implicits.

(** ** The order of strings *)

Section str_order.

Lemma ascii_compare_eq a b : Ascii.compare a b = Eq -> a = b.
Proof.
  unfold Ascii.compare. intros E%N.compare_eq. rewrite <- (Ascii.ascii_N_embedding a), <- (Ascii.ascii_N_embedding b).
  by rewrite E.
Qed.

Lemma ascii_compare_refl a : Ascii.compare a a = Eq.
Proof. unfold Ascii.compare. apply N.compare_refl. Qed.

Lemma str_le_compare a b : str_le a b <-> String.compare a b <> Gt.
Proof. unfold str_le, String.leb. destruct (String.compare a b); split; try done; by intros []. Qed.

#[export] Instance str_le_trans : Transitive str_le.
Proof.
  intros a b c. rewrite !str_le_compare. revert b c.
  induction a as [|x a IH]; intros [|y b] [|z c]; simpl; try done.
  destruct (Ascii.compare x y) eqn:E1, (Ascii.compare y z) eqn:E2; try done; intros H1 H2.
  - apply ascii_compare_eq in E1 as ->, E2 as ->. rewrite ascii_compare_refl. by eapply IH.
  - apply ascii_compare_eq in E1 as ->. by rewrite E2.
  - apply ascii_compare_eq in E2 as ->. by rewrite E1.
  - destruct (Ascii.compare x z) eqn:E3; [|done|].
    + apply ascii_compare_eq in E3 as ->. unfold Ascii.compare in *.
      rewrite N.compare_lt_iff in E1, E2. lia.
    + unfold Ascii.compare in *. rewrite N.compare_lt_iff in E1, E2. rewrite N.compare_gt_iff in E3. lia.
Qed.

#[export] Instance str_le_antisym : AntiSymm (=) str_le.
Proof. intros a b Hab Hba. by apply String.leb_antisym. Qed.

#[export] Instance str_le_total : Total str_le.
Proof. intros a b. apply String.leb_total. Qed.

End str_order.

(** A sort by a total order does not depend on the order of its input. *)
Lemma merge_sort_perm {A} (R : A -> A -> Prop) `{!forall a b, Decision (R a b)}
    `{!Transitive R, !AntiSymm (=) R, !Total R} l1 l2 :
  l1 ≡ₚ l2 -> merge_sort R l1 = merge_sort R l2.
Proof.
  intros Hp. apply (Sorted_unique R); [by apply Sorted_merge_sort..|].
  by rewrite !merge_sort_Permutation.
Qed.

Section orders.
Variable m : gmap string Z.

#[export] Instance degree_le_trans : Transitive (degree_le m).
Proof. intros a b c. unfold degree_le. cbv zeta. intros [?|[? ?]] [?|[? ?]]; try (left; lia). right. split; [lia|by etrans]. Qed.
#[export] Instance degree_le_antisym : AntiSymm (=) (degree_le m).
Proof. intros a b. unfold degree_le. cbv zeta. intros [?|[? ?]] [?|[? ?]]; try lia. by apply (anti_symm str_le). Qed.
#[export] Instance degree_le_total : Total (degree_le m).
Proof.
  intros a b. unfold degree_le; cbv zeta. destruct (total str_le a b), (Z.lt_trichotomy (get_or 0%Z m a) (get_or 0%Z m b)) as [?|[?|?]]; naive_solver lia.
Qed.

End orders.

Section orders_R.
Local Open Scope R_scope.
Variable m : gmap string R.

Lemma betweenness_le_R a b : betweenness_le m a b <->
  get_or 0 m b < get_or 0 m a \/ (get_or 0 m b <= get_or 0 m a /\ str_le a b).
Proof.
  unfold betweenness_le, f0; simpl. rewrite Rltb_lt, Rltb_ge. done.
Qed.

#[export] Instance betweenness_le_trans : Transitive (betweenness_le m).
Proof.
  intros a b c. rewrite !betweenness_le_R. intros [?|[? ?]] [?|[? ?]]; try (left; lra).
  right. split; [lra|by etrans].
Qed.
#[export] Instance betweenness_le_antisym : AntiSymm (=) (betweenness_le m).
Proof. intros a b. rewrite !betweenness_le_R. intros [?|[? ?]] [?|[? ?]]; try lra. by apply (anti_symm str_le). Qed.
#[export] Instance betweenness_le_total : Total (betweenness_le m).
Proof.
  intros a b. rewrite !betweenness_le_R.
  destruct (Rtotal_order (get_or 0 m a) (get_or 0 m b)) as [?|[?|?]]; [right; by left| |left; by left].
  destruct (total str_le a b); [left|right]; right; split; try done; lra.
Qed.

End orders_R.

(** ** The coalition *)

Section coalition.
Local Open Scope R_scope.
Context `{Shuffle} `{!ShuffleLaws}.
Implicit Types (stake_map : gmap string R).

(** Paired experiments select the same coalition: the adversarial nodes chosen
    for a placement do not depend on the iteration order of the stake map. *)
Theorem adversary_selection_deterministic (keys1 keys2 : list string) stake_map
    (node_degrees : gmap string Z) (node_betweenness : gmap string R) (fraction : R)
    (placement : AdversaryPlacement) (seed : Z) :
  keys1 ≡ₚ keys2 ->
  select_adversarial_nodes keys1 stake_map node_degrees node_betweenness fraction placement seed
  = select_adversarial_nodes keys2 stake_map node_degrees node_betweenness fraction placement seed.
Proof.
  intros Hp. unfold select_adversarial_nodes, candidate_order. case_match; [done|].
  f_equal. f_equal.
  destruct placement; [f_equal|..]; (apply merge_sort_perm; [apply _..|done]).
Qed.

Definition stake_of stake_map (l : list string) : R := fsum (map (fun a => get_or 0 stake_map a) l).

Lemma take_stake_prefix stake_map target acc l :
  exists rest, l = take_stake stake_map target acc l ++ rest
    /\ (rest = [] \/ target <= acc + stake_of stake_map (take_stake stake_map target acc l))
    /\ (forall l' x, take_stake stake_map target acc l = l' ++ [x] -> acc + stake_of stake_map l' < target).
Proof.
  revert acc. induction l as [|a l IH]; intros acc; cbn [take_stake].
  { exists []. split_and!; [done|by left|]. intros l' x E. by destruct l'. }
  unfold f_geb; simpl. destruct (Rleb target acc) eqn:E.
  - apply Rleb_le in E. exists (a :: l). unfold stake_of. simpl. rewrite fsum_nil. split_and!; [done|right; lra|].
    intros l' x El. by destruct l'.
  - apply Rleb_gt in E. destruct (IH (acc + get_or 0 stake_map a)) as (rest & El & Hr & Hl).
    exists rest. split_and!.
    + simpl. f_equal. exact El.
    + destruct Hr as [->|Hr]; [by left|]. right. unfold stake_of in *. cbn [map]. rewrite fsum_cons.
      change (f0 (F := R)) with 0 in *. lra.
    + intros l' x E'. destruct l' as [|y l']; [unfold stake_of; simpl; rewrite fsum_nil; lra|].
      simpl in E'. injection E' as <- E'. apply Hl in E'. unfold stake_of in *. cbn [map]. rewrite fsum_cons. lra.
Qed.

Lemma map_values_keys stake_map : fsum (map_values stake_map) = stake_of stake_map (map_keys stake_map).
Proof.
  unfold stake_of, map_values, map_keys. change (map_to_list stake_map).*1 with (map fst (map_to_list stake_map)).
  change (map_to_list stake_map).*2 with (map snd (map_to_list stake_map)). rewrite map_map.
  apply fsum_map_ext. intros [k v] Hkv. apply elem_of_map_to_list in Hkv. unfold get_or. simpl. by rewrite Hkv.
Qed.

(** The coalition holds the stake it was asked to hold, and not a node more: with
    non-negative stakes, the selected nodes are a prefix of the placement's order
    whose stake reaches the target share, while without its last node the prefix
    does not. *)
Theorem coalition_reaches_target stake_map (node_degrees : gmap string Z)
    (node_betweenness : gmap string R) (fraction : R) (placement : AdversaryPlacement) (seed : Z) :
  (forall a v, stake_map !! a = Some v -> 0 <= v) -> stake_map <> ∅ -> 0 < fraction ->
  let target := fsum (map_values stake_map) * Rmin fraction 1 in
  exists chosen,
    select_adversarial_nodes (map_keys stake_map) stake_map node_degrees node_betweenness fraction
      placement seed = list_to_set chosen
    /\ NoDup chosen /\ target <= stake_of stake_map chosen
    /\ forall l x, chosen = l ++ [x] -> stake_of stake_map l < target.
Proof.
  intros Hnn Hne Hf target. unfold select_adversarial_nodes.
  change (f_leb fraction f0) with (Rleb fraction 0). rewrite (proj2 (Rleb_gt fraction 0) Hf).
  rewrite bool_decide_false by done. cbn [orb].
  assert (Hclamp : f_clamp fraction f0 f1 = Rmin fraction 1).
  { unfold f_clamp, f0, f1; simpl. rewrite (proj2 (Rltb_ge fraction 0)) by lra.
    destruct (Rltb 1 fraction) eqn:E.
    - apply Rltb_lt in E. by rewrite Rmin_right by lra.
    - apply Rltb_ge in E. by rewrite Rmin_left by lra. }
  rewrite Hclamp. simpl f_mul. fold target. change (f0 (F := R)) with 0.
  set (ord := candidate_order node_degrees node_betweenness placement seed (map_keys stake_map)).
  assert (Hord : ord ≡ₚ map_keys stake_map).
  { unfold ord, candidate_order. destruct placement; rewrite ?shuffle_perm; apply merge_sort_Permutation. }
  destruct (take_stake_prefix stake_map target 0 ord) as (rest & El & Hr & Hl).
  set (chosen := take_stake stake_map target 0 ord) in *. exists chosen.
  assert (Hnd : NoDup ord).
  { rewrite Hord. apply NoDup_fst_map_to_list. }
  split_and!; [done| | |].
  - rewrite El in Hnd. by apply NoDup_app in Hnd as [? _].
  - destruct Hr as [->|Hr]; [|lra]. rewrite app_nil_r in El. rewrite <- El.
    unfold stake_of. rewrite (fsum_map_perm _ _ _ Hord). fold (stake_of stake_map (map_keys stake_map)).
    rewrite <- map_values_keys. unfold target. pose proof (Rmin_r fraction 1).
    assert (0 <= fsum (map_values stake_map)).
    { rewrite map_values_keys. apply fsum_map_nonneg. intros a _. unfold get_or.
      destruct (stake_map !! a) eqn:Ea; simpl; [by eapply Hnn|lra]. }
    rewrite <- (Rmult_1_r (fsum (map_values stake_map))) at 2. apply Rmult_le_compat_l; lra.
  - intros l x E. apply Hl in E. lra.
Qed.

End coalition.

(** ** Configuration, stakes and the fee ledger *)

Section setup.
Local Open Scope R_scope.

Definition unit_interval (x : R) : Prop := 0 <= x <= 1.

Lemma f_clamp_01 (x : R) : unit_interval (f_clamp x f0 f1).
Proof. unfold unit_interval, f_clamp, f0, f1; simpl. f64_cases; lra. Qed.

Lemma f_clamp_id (x : R) : unit_interval x -> f_clamp x f0 f1 = x.
Proof. unfold unit_interval, f_clamp, f0, f1; simpl. intros ?. f64_cases; lra. Qed.

Lemma positive_or_pos (x : R) : 0 < positive_or f1 x.
Proof. unfold positive_or, f0, f1; simpl. f64_cases; simpl; lra. Qed.
Lemma positive_or_id (x : R) : 0 < x -> positive_or f1 x = x.
Proof. unfold positive_or, f0, f1; simpl. intros ?. f64_cases; simpl; lra. Qed.
Lemma nonneg_or_nonneg (x : R) : 0 <= nonneg_or f0 x.
Proof. unfold nonneg_or, f0; simpl. f64_cases; simpl; lra. Qed.
Lemma nonneg_or_id (x : R) : 0 <= x -> nonneg_or f0 x = x.
Proof. unfold nonneg_or, f0; simpl. intros ?. f64_cases; simpl; lra. Qed.

Lemma is_blank_prefix s t : is_blank (s +:+ t) = true -> is_blank s = true.
Proof. induction s as [|c s IH]; [done|]. simpl. intros [? ?]%andb_true_iff. rewrite IH by done. by rewrite andb_true_r. Qed.

(** [resolved] makes every simulation parameter meaningful and is idempotent:
    afterwards the time scale and the delay multiplier are positive, penalties and
    rates are non-negative, fractions are in the unit interval, the run has a name
    and a directory, and resolving again, at any later time, changes nothing. *)
Theorem resolved_is_sane (now later : Z) (c : SimulationConfig R) :
  let r := resolved now c in
  0 < time_scale r /\ 0 < network_delay_multiplier r
  /\ 0 <= validator_scale_capacity_penalty r /\ 0 <= topostake_scale_capacity_bonus r
  /\ 0 <= validator_scale_latency_penalty r /\ 0 <= topostake_scale_latency_reduction r
  /\ 0 <= topostake_latency_reduction_s r /\ 0 <= attack_tx_rate_multiplier r
  /\ Forall unit_interval [unstable_fraction r; offline_probability r; adversary_stake_fraction r; lazy_fraction r]
  /\ is_blank (run_id r) = false /\ is_blank (output_dir r) = false
  /\ resolved later r = r.
Proof.
  intros r.
  assert (Hrun : is_blank (run_id r) = false).
  { simpl. destruct (is_blank (run_id c)) eqn:E; [|done]. destruct (is_blank ("run-" +:+ pretty now)) eqn:E'; [|done].
    by apply (is_blank_prefix "run-") in E'. }
  assert (Hout : is_blank (output_dir r) = false).
  { simpl. destruct (is_blank (output_dir c)) eqn:E; [|done].
    match goal with |- ?b = false => destruct b eqn:E' end; [|done].
    by apply (is_blank_prefix "results/") in E'. }
  split_and!; try (apply positive_or_pos || apply nonneg_or_nonneg); try done.
  - rewrite !Forall_cons, Forall_nil. split_and!; [apply f_clamp_01..|done].
  - unfold resolved at 1. rewrite Hrun, Hout. unfold r, resolved; cbn -[f_clamp positive_or nonneg_or is_blank].
    f_equal; try (apply f_clamp_id, f_clamp_01); try (apply positive_or_id, positive_or_pos);
      try (apply nonneg_or_id, nonneg_or_nonneg).
Qed.

Lemma exp_stakes_pos n (lambda : R) s : s ∈ exp_stakes n lambda -> 0 < s.
Proof. unfold exp_stakes. intros Hs. apply list_elem_of_fmap in Hs as (i & -> & _). simpl. apply exp_pos. Qed.

Lemma map_snd_imap {A} (l : list A) : map snd (enumerate l) = l.
Proof. unfold enumerate. change (map snd (imap pair l)) with (snd <$> imap pair l).
  rewrite fmap_imap. induction l as [|x l IH] using rev_ind; [done|]. rewrite imap_app, IH. done. Qed.

(** The generated stake distribution is normalised: for any number of nodes and
    any target inequality, every node gets a positive stake and the stakes add up
    to the number of nodes. *)
Theorem stakes_normalised (n : nat) (target : R) (sort_keys : list R) :
  (0 < n)%nat ->
  let stakes := generate_stake_by_gini n target sort_keys in
  length stakes = n /\ (forall s, s ∈ stakes -> 0 < s) /\ fsum stakes = INR n.
Proof.
  intros Hn stakes. unfold stakes, generate_stake_by_gini. rewrite decide_False by lia.
  set (l := exp_stakes n (gini_lambda n target)).
  assert (Hlen : length l = n) by (unfold l, exp_stakes; by rewrite length_map, length_seq).
  assert (Hpos : 0 < fsum l).
  { destruct l as [|x l'] eqn:E; [simpl in Hlen; lia|]. rewrite fsum_cons.
    assert (Hall : forall s, s ∈ x :: l' -> 0 < s) by (intros s; rewrite <- E; apply exp_stakes_pos).
    assert (0 < x) by (apply Hall; left).
    assert (0 <= fsum l'); [|lra]. rewrite <- (map_id l'). apply fsum_map_nonneg.
    intros s Hs. left. apply Hall. by right. }
  set (k := f_div (f_of_nat n) (fsum l)). set (scaled := map (fun s => f_mul s k) l).
  assert (Hk : k = INR n / fsum l) by (unfold k, f_of_nat; simpl; by rewrite <- INR_IZR_INZ).
  assert (Hkpos : 0 < k) by (rewrite Hk; apply Rdiv_lt_0_compat; [by apply lt_0_INR|done]).
  assert (Hperm : map snd (merge_sort (keyed_le sort_keys) (enumerate scaled)) ≡ₚ scaled).
  { rewrite <- (map_snd_imap scaled) at 2. apply Permutation_map, merge_sort_Permutation. }
  split_and!.
  - rewrite (Permutation_length Hperm). unfold scaled. by rewrite length_map.
  - intros s Hs. rewrite Hperm in Hs. apply list_elem_of_fmap in Hs as (x & -> & Hx).
    apply Rmult_lt_0_compat; [by eapply exp_stakes_pos|done].
  - rewrite (fsum_perm _ _ Hperm). unfold scaled.
    rewrite (fsum_map_ext _ (fun s => k * s)) by (intros; simpl; ring).
    rewrite fsum_map_scale, map_id, Hk. field. lra.
Qed.

(** Splitting a stake over padding identities conserves it. *)
Theorem padding_stake_conserved (total : R) (identities : Z) :
  fsum (split_padding_stake total identities) = total.
Proof.
  unfold split_padding_stake. set (k := Z.max (Z.min (identities + 1) U32_MAX) 1).
  assert (Hk : (1 <= k)%Z) by (unfold k; lia). simpl.
  assert (Hrep : forall n (x : R), fsum (replicate n x) = INR n * x).
  { induction n as [|n IH]; intros x; [simpl; rewrite fsum_nil; lra|].
    cbn [replicate]. rewrite fsum_cons, IH, S_INR. lra. }
  rewrite Hrep, INR_IZR_INZ, Z2Nat.id by lia. apply (IZR_le 1) in Hk. field. lra.
Qed.

Context `{RngState R St}.

(** The ledger accounts for every generated transaction. *)
Definition ledger_ok (g : Generator R) : Prop :=
  fsum (map_values (tg_fee_spent g)) = flooding_fee_spent (tg_generated_tx_counter g) (tg_transaction_fee g).

Lemma record_fee_ok (g : Generator R) (from : string) :
  ledger_ok g -> (0 <= tg_generated_tx_counter g < U64_MAX)%Z ->
  ledger_ok (mkGenerator (tg_nodes_sender g) (tg_nodes_address g) (u64_add (tg_generated_tx_counter g) 1)
    (entry_update f0 (fun x => f_add x (f_mul f2 (tg_transaction_fee g))) from (tg_fee_spent g))
    (tg_transaction_fee g) (tg_adversarial_nodes g)).
Proof.
  intros Hok Hc. unfold ledger_ok in *. cbn [tg_fee_spent tg_generated_tx_counter tg_transaction_fee].
  etrans; [apply (sum_entry_update (tg_fee_spent g) from (2 * tg_transaction_fee g))|].
  rewrite Hok. unfold flooding_fee_spent. rewrite u64_add_small by (try split; lia).
  unfold f2; simpl. rewrite plus_IZR. ring.
Qed.

Lemma draw_other_ends `{!RngStateLaws R St, !RngFair R St} (addresses : list string) (from : string) (rng : St) :
  NoDup addresses -> (2 <= length addresses)%nat ->
  exists fuel0 to rng', to <> from /\ to ∈ addresses
    /\ forall fuel, (fuel0 <= fuel)%nat -> draw_other fuel addresses from rng = Some (to, rng').
Proof.
  intros Hnd Hlen.
  assert (Hother : exists i to, addresses !! i = Some to /\ to <> from).
  { destruct addresses as [|a [|b l]]; [simpl in Hlen; lia..|]. destruct (decide (a = from)) as [->|]; [|by exists 0%nat, a].
    exists 1%nat, b. split; [done|]. inversion Hnd as [|? ? Hni]; subst. set_solver. }
  destruct Hother as (i & to & Hi & Hto).
  destruct (draws_meet (length addresses) rng i) as [k Hk]; [by eapply lookup_lt_Some|].
  revert rng Hk. induction k as [|k IH]; intros rng Hk; simpl in Hk;
    pose proof (next_usize_lt (length addresses) rng ltac:(lia)) as Hlt;
    destruct (next_usize (length addresses) rng) as [j rng1] eqn:Er; simpl in Hk, Hlt.
  - subst j. exists 1%nat, to, rng1. split_and!; [done|by eapply list_elem_of_lookup_2|].
    intros [|fuel] Hf; [lia|]. cbn [draw_other]. rewrite Er, (nth_lookup_Some _ _ "" _ Hi). by rewrite decide_False.
  - destruct (lookup_lt_is_Some_2 addresses j Hlt) as [x Hx]. pose proof (nth_lookup_Some _ _ "" _ Hx) as Hn.
    destruct (decide (x = from)) as [->|Hne].
    + destruct (IH rng1 Hk) as (fuel0 & to' & rng' & ? & ? & Hf). exists (S fuel0), to', rng'. split_and!; [done..|].
      intros [|fuel] Hfuel; [lia|]. cbn [draw_other]. rewrite Er, Hn. rewrite decide_True by done. apply Hf. lia.
    + exists 1%nat, x, rng1. split_and!; [done|by eapply list_elem_of_lookup_2|].
      intros [|fuel] Hf; [lia|]. cbn [draw_other]. rewrite Er, Hn. by rewrite decide_False.
Qed.

(** The transaction generator returns, for a generator whose draws meet every
    value, and keeps an exact fee ledger: whatever is drawn and whichever mailboxes
    are full, the fees recorded over all senders stay equal to twice the fee (the
    distributable part and the irrecoverable cost) times the number of
    transactions counted as generated; a sent message goes from one node to
    another, the sender is adversarial when only adversaries flood, and nothing
    changes when no message is sent. *)
Theorem fee_ledger_exact `{!RngStateLaws R St, !RngFair R St} (send_ok : string -> bool)
    (adversarial_only : bool) (g : Generator R) (rng : St) :
  ledger_ok g -> (0 <= tg_generated_tx_counter g < U64_MAX)%Z -> NoDup (tg_nodes_address g) ->
  exists fuel0 g' sent rng',
    (forall fuel, (fuel0 <= fuel)%nat ->
       emit_one_transaction fuel send_ok adversarial_only g rng = Some (g', sent, rng'))
    /\ ledger_ok g'
    /\ match sent with
       | None => g' = g
       | Some (from, to) =>
           from <> to /\ from ∈ tg_nodes_address g /\ to ∈ tg_nodes_address g
           /\ (adversarial_only = true -> from ∈ tg_adversarial_nodes g)
           /\ tg_generated_tx_counter g' = (tg_generated_tx_counter g + 1)%Z
       end.
Proof.
  intros Hok Hc Hnd. unfold emit_one_transaction.
  set (cands := if adversarial_only then _ else _).
  assert (Hcands : forall x, x ∈ cands -> x ∈ tg_nodes_address g
            /\ (adversarial_only = true -> x ∈ tg_adversarial_nodes g)).
  { intros x. unfold cands. destruct adversarial_only; [rewrite list_elem_of_filter; naive_solver|done]. }
  case_decide as Hlen; [exists 0%nat, g, None, rng; done|].
  pose proof (next_usize_lt (length cands) rng ltac:(lia)) as Hlt.
  destruct (next_usize (length cands) rng) as [i rng1]. simpl in Hlt.
  destruct (lookup_lt_is_Some_2 cands i Hlt) as [from Hfrom]. rewrite (nth_lookup_Some _ _ "" _ Hfrom).
  destruct (Hcands from) as [Hin Hadv]; [by eapply list_elem_of_lookup_2|].
  destruct (draw_other_ends (tg_nodes_address g) from rng1 Hnd ltac:(lia)) as (fuel0 & to & rng2 & Hne & Hto & Hf).
  exists fuel0. destruct (decide (from ∉ tg_nodes_sender g)) as [Hs|Hs];
    [|destruct (send_ok from) eqn:Eok]; cbn [negb].
  2: eexists _, (Some (from, to)), rng2. 1,3: exists g, None, rng2.
  all: split; [intros fuel Hfuel; by rewrite Hf by done|].
  all: try done.
  split; [by apply record_fee_ok|]. split_and!; try done. cbn [tg_generated_tx_counter].
  rewrite u64_add_small by (try split; lia). done.
Qed.

End setup.
