(* ===== verification/Message.v ===== *)
(** * Messages

    src/src/network/message.rs and the slot data of
    src/src/network/world_state.rs that messages carry. *)

From S2P Require Export Consensus Blockchain.
Local Open Scope rust_scope.

(** The slot a node or the world state is in; [slot_duration] in seconds. *)
Record SlotManager := mkSlotManager {
  randao_seeds : list RandaoSeed;
  sl_slot_duration : Z;
  current_epoch : Z;
  current_slot : Z;
  next_seed : bytes;
  start_timestamp : Z
}.

Inductive Message {F : Type} :=
  | SendBlock (block : Block F) (from : string)
  | SendTransactionPaths (transaction_paths : TransactionPaths F) (from : string)
  | GenerateBlock
  | GenerateTransactionPaths (to : string)
  | SendRandaoSeed
  | ReceiveRandaoSeed (randao_seed : RandaoSeed)
  | BecomeValidator (stake_map : gmap string F)
  | ReceiveBecomeValidator (validator : Validator F)
  | UpdateSlot (slot : SlotManager)
  | PrintBlockchain
  | RequestBlockSync (last_block_index : Z) (from : string)
  | ResponseBlockSync (sync_blocks : list (Block F)) (from : string)
  | UpdateValidatorStake (addr : string) (new_stake : F)
  | UpdateAccountBalance (addr : string) (new_balance : F)
  | UpdateNodeBalance (new_balance : F)
  | BlockProductionFailed (node_index slot : Z) (reason : string).
Arguments Message : clear implicits.

(** What a handler does besides changing state: it sends a message to a node, or to
    the world state. *)
Inductive Send {F : Type} :=
  | ToNode (addr : string) (msg : Message F)
  | ToWorld (msg : Message F).
Arguments Send : clear implicits.
