(* ===== verification/Sync.v ===== *)
(** * Chain synchronisation

    The part of the [ResponseBlockSync] handlers of src/src/network/node.rs and
    src/src/network/world_state.rs that changes the chain: replacing it by a
    snapshot, and finding the first block that is new or differs, cutting the
    chain there and adding the rest. *)

From S2P Require Export Message.
Local Open Scope rust_scope.

Section sync.
Context {F : Type} `{F64 F} `{Crypto} `{TxSerde F} `{BlockSerde}.
Implicit Types (bc : Blockchain F) (b : Block F) (sync : list (Block F)).

(** The chain and its index are cleared and filled with the received blocks,
    which are not verified. *)
Definition replace_chain bc sync : Blockchain F :=
  mkBlockchain sync (fold_left index_insert sync ∅) (max_blocks_in_memory bc).

(** Where to resume: the index in the response, and the height of the local block
    that differs if there is one. *)
Fixpoint find_fork bc (current_index : Z) (i : nat) sync : option (nat * option Z) :=
  match sync with
  | [] => None
  | sync_block :: sync =>
      let height := h_index (header sync_block) in
      match List.find (fun b => (h_index (header b) =? height)%Z) (blocks bc) with
      | Some local_block =>
          if decide (h_hash (header local_block) <> h_hash (header sync_block))
          then Some (i, Some height)
          else find_fork bc current_index (S i) sync
      | None =>
          if (current_index <? height)%Z then Some (i, None)
          else find_fork bc current_index (S i) sync
      end
  end.

(** The chain below [height]; the slice panics outside the window. *)
Definition truncate_chain bc (height : Z) : Outcome (Blockchain F) :=
  let local_start := default 0%Z (h_index ∘ header <$> head (blocks bc)) in
  let truncate_idx := Z.to_nat (u64_sub height local_start) in
  if decide (length (blocks bc) < truncate_idx) then Panic else
  let hashes_to_remove := concat (map tx_hashes (drop truncate_idx (blocks bc))) in
  Ret (mkBlockchain (take truncate_idx (blocks bc))
         (fold_left (fun s x => s ∖ {[x]}) hashes_to_remove (transaction_index bc))
         (max_blocks_in_memory bc)).

(** Adds blocks until one is refused; the blocks that were added, and whether all
    were. *)
Fixpoint add_synced bc sync : Outcome (Blockchain F * list (Block F) * bool) :=
  match sync with
  | [] => Ret (bc, [], true)
  | sync_block :: sync =>
      let! (bc, r) := add_block bc sync_block in
      match r with
      | Err _ => Ret (bc, [], false)
      | Ok _ =>
          let! (bc, added, success) := add_synced bc sync in
          Ret (bc, sync_block :: added, success)
      end
  end.

Definition resolve_fork bc (current_index : Z) sync : Outcome (Blockchain F * list (Block F)) :=
  match find_fork bc current_index 0 sync with
  | None => Ret (bc, [])
  | Some (start_idx, diverged) =>
      let! bc := match diverged with
                 | Some height => truncate_chain bc height
                 | None => Ret bc
                 end in
      let! (bc, added, _) := add_synced bc (drop start_idx sync) in
      Ret (bc, added)
  end.

(** ** Facts *)

(** Blocks as a chain holds them: each extends the one before, and no transaction
    is in two of them. *)
Record blocks_ok (l : list (Block F)) : Prop := {
  bk_linked : forall i a b, l !! i = Some a -> l !! S i = Some b -> extends a b;
  bk_disjoint : forall i j a b h, l !! i = Some a -> l !! j = Some b ->
      h ∈ tx_hashes a -> h ∈ tx_hashes b -> i = j
}.

Lemma chain_blocks_ok bc : chain_ok bc -> blocks_ok (blocks bc).
Proof. intros [Hl _ Hd _ _]. by split. Qed.

Lemma blocks_ok_drop l k : blocks_ok l -> blocks_ok (drop k l).
Proof.
  intros [Hl Hd]. split.
  - intros i a b. rewrite !lookup_drop. replace (k + S i) with (S (k + i)) by lia. apply Hl.
  - intros i j a b h. rewrite !lookup_drop. intros Ha Hb Hha Hhb.
    enough (k + i = k + j) by lia. by eapply Hd.
Qed.

Lemma blocks_ok_take l k : blocks_ok l -> blocks_ok (take k l).
Proof.
  intros [Hl Hd]. split.
  - intros i a b. rewrite !lookup_take_Some. intros [? _] [? _]. by eapply Hl.
  - intros i j a b h. rewrite !lookup_take_Some. intros [? _] [? _]. by eapply Hd.
Qed.

Lemma fold_index_insert_spec sync : forall index h,
  h ∈ fold_left index_insert sync index <-> h ∈ index \/ exists b, b ∈ sync /\ h ∈ tx_hashes b.
Proof.
  induction sync as [|b sync IH]; intros index h; cbn [fold_left].
  - split; [by left|]. intros [?|(b & Hb & _)]; [done|]. by apply elem_of_nil in Hb.
  - rewrite IH, index_insert_spec. setoid_rewrite elem_of_cons. naive_solver.
Qed.

Lemma replace_chain_ok bc sync :
  blocks_ok sync -> length sync <= max_blocks_in_memory bc -> 1 <= max_blocks_in_memory bc ->
  chain_ok (replace_chain bc sync).
Proof.
  intros [Hl Hd] Hw Hc. split; simpl; try done.
  intros b h Hb Hh. apply fold_index_insert_spec. right. eauto.
Qed.

Lemma truncate_chain_ok bc height bc' :
  chain_ok bc -> truncate_chain bc height = Ret bc' -> chain_ok bc'.
Proof.
  intros Hok. unfold truncate_chain. case_decide as Hk; [done|]. intros [= <-].
  set (k := Z.to_nat _) in *. pose proof (blocks_ok_take _ k (chain_blocks_ok _ Hok)) as [Hl Hd].
  pose proof Hok as [_ Hidx Hdis Hw Hc]. split; simpl; try done.
  - intros b h Hb Hh. apply index_remove_spec. apply list_elem_of_lookup in Hb as [i Hi].
    apply lookup_take_Some in Hi as [Hi Hik]. split.
    + apply (Hidx b h); [by eapply list_elem_of_lookup_2|done].
    + intros Hin. apply list_elem_of_In, in_concat in Hin as (hs & Hhs & Hin%list_elem_of_In).
      apply list_elem_of_In, list_elem_of_fmap in Hhs as (c & -> & Hc').
      apply list_elem_of_lookup in Hc' as [j Hj]. rewrite lookup_drop in Hj.
      pose proof (Hdis _ _ _ _ _ Hi Hj Hh Hin). lia.
  - rewrite length_take. lia.
Qed.

Lemma add_synced_ok sync : forall bc bc' added success,
  chain_ok bc -> add_synced bc sync = Ret (bc', added, success) -> chain_ok bc'.
Proof.
  induction sync as [|b sync IH]; intros bc bc' added success Hok; simpl; [by intros [= <- _ _]|].
  destruct (add_block bc b) as [[bc1 r]|] eqn:E; simpl; [|done].
  pose proof (add_block_chain_ok _ _ _ _ Hok E) as Hok1. destruct r; [|by intros [= <- _ _]].
  destruct (add_synced bc1 sync) as [[[bc2 added'] success']|] eqn:E2; simpl; [|done].
  intros [= <- _ _]. by eapply IH.
Qed.

Lemma resolve_fork_ok bc current_index sync bc' added :
  chain_ok bc -> resolve_fork bc current_index sync = Ret (bc', added) -> chain_ok bc'.
Proof.
  intros Hok. unfold resolve_fork. destruct (find_fork bc current_index 0 sync) as [[k d]|]; [|by intros [= <- _]].
  destruct (match d with Some height => truncate_chain bc height | None => Ret bc end) as [bc1|] eqn:E; simpl; [|done].
  destruct (add_synced bc1 (drop k sync)) as [[[bc2 a] s]|] eqn:E2; simpl; [|done].
  intros [= <- _]. eapply add_synced_ok; [|exact E2].
  destruct d; [by eapply truncate_chain_ok|by simplify_eq].
Qed.

(** ** Chains that hold verified blocks only *)

Definition verified b : Prop := Block_verify b = Ret true.

(** A chain of a participant: the chain invariant, the window every participant
    has, at least one block, and only blocks that verify. *)
Record good_chain (cap : nat) bc : Prop := {
  gc_ok : chain_ok bc;
  gc_cap : max_blocks_in_memory bc = cap;
  gc_nonempty : blocks bc <> [];
  gc_verified : Forall verified (blocks bc)
}.

(** Blocks as a participant sends them. *)
Record good_blocks (cap : nat) (l : list (Block F)) : Prop := {
  gb_ok : blocks_ok l;
  gb_length : length l <= cap;
  gb_verified : Forall verified l
}.

Lemma good_chain_new g : verified g -> good_chain 100 (Blockchain_new g).
Proof. intros Hg. split; [apply chain_ok_new|done|done|by apply Forall_singleton]. Qed.

Lemma good_chain_blocks cap bc : good_chain cap bc -> good_blocks cap (blocks bc).
Proof. intros [Hok <- _ Hv]. split; [by apply chain_blocks_ok|apply Hok|done]. Qed.

Lemma good_blocks_drop cap k l : good_blocks cap l -> good_blocks cap (drop k l).
Proof.
  intros [Hok Hl Hv]. split; [by apply blocks_ok_drop|rewrite length_drop; lia|by apply Forall_drop].
Qed.

Lemma add_block_verified bc b bc' r :
  Forall verified (blocks bc) -> add_block bc b = Ret (bc', r) -> Forall verified (blocks bc').
Proof.
  intros Hv E. apply add_block_inv in E. destruct r as [[]|]; [|by subst].
  destruct (last (blocks bc)) as [lb|].
  - destruct E as [(Hb & _) ->]. simpl.
    assert (Forall verified (blocks bc ++ [b])) by (apply Forall_app; split; [done|by apply Forall_singleton]).
    case_decide; [by apply Forall_drop|done].
  - destruct E as [Hb ->]. by apply Forall_singleton.
Qed.

Lemma add_block_cap bc b bc' r :
  add_block bc b = Ret (bc', r) -> max_blocks_in_memory bc' = max_blocks_in_memory bc.
Proof.
  intros E. apply add_block_inv in E. destruct r as [[]|]; [|by subst].
  by destruct (last (blocks bc)); destruct E as [_ ->].
Qed.

Lemma add_block_good cap bc b bc' r :
  good_chain cap bc -> add_block bc b = Ret (bc', r) -> good_chain cap bc'.
Proof.
  intros [Hok Hcap Hne Hv] E. split.
  - by eapply add_block_chain_ok.
  - by rewrite (add_block_cap _ _ _ _ E).
  - by eapply add_block_nonempty.
  - by eapply add_block_verified.
Qed.

Lemma replace_chain_good cap bc l :
  good_chain cap bc -> good_blocks cap l -> l <> [] -> good_chain cap (replace_chain bc l).
Proof.
  intros [Hok Hcap _ _] [Hl Hlen Hv] Hne. split; [|done..].
  apply replace_chain_ok; [done|by rewrite Hcap|apply Hok].
Qed.

Lemma add_synced_good cap sync : forall bc bc' added success,
  good_chain cap bc -> add_synced bc sync = Ret (bc', added, success) -> good_chain cap bc'.
Proof.
  induction sync as [|b sync IH]; intros bc bc' added success Hok; simpl; [by intros [= <- _ _]|].
  destruct (add_block bc b) as [[bc1 r]|] eqn:E; simpl; [|done].
  pose proof (add_block_good _ _ _ _ _ Hok E) as Hok1. destruct r; [|by intros [= <- _ _]].
  destruct (add_synced bc1 sync) as [[[bc2 added'] success']|] eqn:E2; simpl; [|done].
  intros [= <- _ _]. by eapply IH.
Qed.

(** A verified block is accepted by an empty chain. *)
Lemma add_synced_from_empty cap bc b sync bc' added success :
  blocks bc = [] -> max_blocks_in_memory bc = cap -> 1 <= cap -> verified b ->
  add_synced bc (b :: sync) = Ret (bc', added, success) -> good_chain cap bc'.
Proof.
  intros Hb Hcap Hpos Hv. simpl. unfold add_block. rewrite Hb, Hv. simpl.
  match goal with |- context [add_synced ?c sync] => set (bc1 := c) end.
  destruct (add_synced bc1 sync) as [[[bc2 added'] success']|] eqn:E2; simpl; [|done].
  intros [= <- _ _]. eapply add_synced_good; [|exact E2]. split; [|done|done|by apply Forall_singleton].
  apply chain_ok_single. lia.
Qed.

(** The block at which a fork is found. *)
Lemma find_fork_at bc ci sync : forall i k d,
  find_fork bc ci i sync = Some (k, d) -> i <= k /\ exists b, sync !! (k - i) = Some b.
Proof.
  induction sync as [|b sync IH]; intros i k d; simpl; [done|].
  assert (Hstep : find_fork bc ci (S i) sync = Some (k, d) ->
            i <= k /\ exists c, (b :: sync) !! (k - i) = Some c).
  { intros (Hk & c & Hc)%IH. split; [lia|]. exists c. by replace (k - i) with (S (k - S i)) by lia. }
  assert (Hhere : Some (i, d) = Some (k, d) -> i <= k /\ exists c, (b :: sync) !! (k - i) = Some c).
  { intros [= ->]. split; [lia|]. exists b. by rewrite Nat.sub_diag. }
  destruct (List.find _ (blocks bc)).
  - case_decide; [|done]. intros [= -> <-]. by apply Hhere.
  - case_match; [|done]. intros [= -> <-]. by apply Hhere.
Qed.

Lemma truncate_chain_good cap bc height bc' :
  good_chain cap bc -> truncate_chain bc height = Ret bc' ->
  chain_ok bc' /\ max_blocks_in_memory bc' = cap /\ Forall verified (blocks bc').
Proof.
  intros [Hok Hcap _ Hv] E. split; [by eapply truncate_chain_ok|]. revert E. unfold truncate_chain.
  case_decide; [done|]. intros [= <-]. simpl. split; [done|by apply Forall_take].
Qed.

Lemma resolve_fork_good cap bc current_index sync bc' added :
  good_chain cap bc -> Forall verified sync ->
  resolve_fork bc current_index sync = Ret (bc', added) -> good_chain cap bc'.
Proof.
  intros Hg Hs. unfold resolve_fork.
  destruct (find_fork bc current_index 0 sync) as [[k d]|] eqn:Ef; [|by intros [= <- _]].
  destruct (match d with Some height => truncate_chain bc height | None => Ret bc end) as [bc1|] eqn:E;
    simpl; [|done].
  destruct (add_synced bc1 (drop k sync)) as [[[bc2 a] s]|] eqn:E2; simpl; [|done].
  intros [= <- _]. apply find_fork_at in Ef as (_ & b & Hb). rewrite Nat.sub_0_r in Hb.
  assert (Hg1 : chain_ok bc1 /\ max_blocks_in_memory bc1 = cap /\ Forall verified (blocks bc1)).
  { destruct d; [by eapply truncate_chain_good|]. simplify_eq. destruct Hg as [? ? _ ?]. done. }
  destruct Hg1 as (Hok1 & Hcap1 & Hv1). destruct (blocks bc1) as [|b1 l1] eqn:Eb.
  - rewrite (drop_S sync b k Hb) in E2. eapply add_synced_from_empty; [exact Eb|done| |exact (Forall_lookup_1 _ _ _ _ Hs Hb)|exact E2].
    rewrite <- Hcap1. apply Hok1.
  - eapply add_synced_good; [|exact E2]. split; [done|done|by rewrite Eb|by rewrite Eb].
Qed.

End sync.
