(* ===== verification/Shared.v ===== *)
(** * State shared by the tasks of the simulation

    The nodes and the world state of src/src/network run as tasks that share some
    objects: the process-wide registry and caches of [Wallet] and [Path], and for
    every node its mempool, its availability flag and its counter of forwarded
    paths, which the world state reads (and, for the mempool of a proposer and the
    flags, writes).  [Shared] is that store, keyed by the node's address.  Also
    here: the choice of the transactions of a block, which
    src/src/network/node.rs and src/src/network/world_state.rs both contain. *)

From stdpp Require Import sorting.
From S2P Require Export Sync.
Local Open Scope rust_scope.

(** The iteration order of a hash map. *)
Class MapOrder := iter_map : forall A : Type, gmap string A -> list (string * A).
Class MapOrderLaws `{MapOrder} : Prop :=
  iter_map_perm A (m : gmap string A) : iter_map A m ≡ₚ map_to_list m.
Arguments iter_map {_} {A} m.

(** [serde_json] on [LogicalTxMetadata]. *)
Class MetaSerde := {
  meta_to_vec : Z * Z -> bytes;
  meta_from_slice : bytes -> option (Z * Z)
}.
Class MetaSerdeLaws `{MetaSerde} : Prop :=
  meta_round_trip e s : is_u64 e -> is_u64 s -> meta_from_slice (meta_to_vec (e, s)) = Some (e, s).

Definition logical_tx_metadata `{MetaSerde} (created_epoch created_slot : Z) : bytes :=
  meta_to_vec (created_epoch, created_slot).

Abbreviation Mempool F := (gmap string (TransactionPaths F)).

Section shared.
Context {F : Type} `{F64 F} `{Crypto} `{TxSerde F} `{BlockSerde} `{MapOrder}.

Record Shared := mkShared {
  sh_registry : Registry;
  sh_caches : PathCaches;
  sh_mempools : gmap string (Mempool F);
  sh_available : gmap string bool;
  sh_forwarded : gmap string Z
}.

Definition set_caches (sh : Shared) c : Shared :=
  mkShared (sh_registry sh) c (sh_mempools sh) (sh_available sh) (sh_forwarded sh).
Definition set_mempool (sh : Shared) (addr : string) (m : Mempool F) : Shared :=
  mkShared (sh_registry sh) (sh_caches sh) (<[addr := m]> (sh_mempools sh)) (sh_available sh) (sh_forwarded sh).
Definition set_available (sh : Shared) (m : gmap string bool) : Shared :=
  mkShared (sh_registry sh) (sh_caches sh) (sh_mempools sh) m (sh_forwarded sh).
Definition count_forward (sh : Shared) (addr : string) : Shared :=
  mkShared (sh_registry sh) (sh_caches sh) (sh_mempools sh) (sh_available sh)
    (entry_update 0%Z (fun n => u64_add n 1) addr (sh_forwarded sh)).

Definition mempool_of (sh : Shared) (addr : string) : Mempool F := get_or ∅ (sh_mempools sh) addr.
Definition available (sh : Shared) (addr : string) : bool := get_or true (sh_available sh) addr.

(** ** The transactions of a block *)

Definition path_hash (p : TransactionPaths F) : string := tx_hash (tp_transaction p).

(** Higher fees first, then earlier transactions; incomparable fees are equal. *)
Definition pack_le (a b : TransactionPaths F) : Prop :=
  let fa := tx_fee (tp_transaction a) in
  let fb := tx_fee (tp_transaction b) in
  f_ltb fb fa = true
  \/ (f_ltb fa fb = false /\ (tx_timestamp (tp_transaction a) <= tx_timestamp (tp_transaction b))%Z).
#[export] Instance pack_le_dec a b : Decision (pack_le a b).
Proof. unfold pack_le. apply _. Defined.

Definition to_pack (max_tx_per_block : nat) (bc : Blockchain F) (mempool : Mempool F)
    : list (TransactionPaths F) :=
  let valid_paths := filter (fun p => exist_transaction bc (path_hash p) = false)
                       (map snd (iter_map mempool)) in
  take max_tx_per_block (merge_sort pack_le valid_paths).

Definition remove_all (hashes : list string) (mempool : Mempool F) : Mempool F :=
  fold_left (fun m h => delete h m) hashes mempool.

(** The aggregates of the packed paths; the aggregation may panic. *)
Fixpoint aggregate_all (reg : Registry) (l : list (TransactionPaths F)) : Outcome (list AggregatedSignedPaths) :=
  match l with
  | [] => Ret []
  | p :: l =>
      let! a := from_transaction_paths reg p in
      let! r := aggregate_all reg l in
      Ret (a :: r)
  end.

(** The block on top of [bc] with the packed transactions. *)
Definition packed_block (reg : Registry) (now : Z) (bc : Blockchain F) (epoch slot : Z)
    (packed : list (TransactionPaths F)) (wallet : Wallet) : Outcome (Result (Block F) BlockError) :=
  let! aggregated := aggregate_all reg packed in
  let! last_index := get_last_index bc in
  let! last_hash := get_last_hash bc in
  Block_new now (u64_add last_index 1) epoch slot last_hash
    (mkBody (map tp_transaction packed) aggregated) wallet.

End shared.
Arguments Shared F {_}.
