(* ===== verification/Ledger.v ===== *)
(** * The ledger the chain implements

    The chain of src/src/blockchain/mod.rs keeps a window of blocks and an index of
    transaction hashes.  What it promises is stated here without either: a ledger
    of every block accepted since genesis, which accepts a block that verifies,
    extends the last one and repeats no transaction of any earlier block.  The
    chain refines the ledger. *)

From S2P Require Export Blockchain.
Local Open Scope rust_scope.

Section ledger.
Context {F : Type} `{F64 F} `{Crypto} `{TxSerde F} `{BlockSerde}.
Implicit Types (L : list (Block F)) (bc : Blockchain F) (b : Block F).

#[export] Instance extends_dec a b : Decision (extends a b).
Proof. unfold extends. apply _. Defined.

(** No transaction of [b] is in a block of the ledger. *)
Definition fresh L b : Prop := Forall (fun h => Forall (fun a => h ∉ tx_hashes a) L) (tx_hashes b).
#[export] Instance fresh_dec L b : Decision (fresh L b).
Proof. unfold fresh. apply _. Defined.

(** Accepting a block; a height that was already passed is refused before the
    block is looked at. *)
Definition ledger_add L b : Outcome (list (Block F) * bool) :=
  match last L with
  | None => Panic
  | Some tip =>
      if (h_index (header b) <? u64_add (h_index (header tip)) 1)%Z then Ret (L, false) else
      let! ok := Block_verify b in
      if ok && bool_decide (extends tip b) && bool_decide (fresh L b) then Ret (L ++ [b], true)
      else Ret (L, false)
  end.

Fixpoint run_ledger L (bs : list (Block F)) : Outcome (list (Block F) * list bool) :=
  match bs with
  | [] => Ret (L, [])
  | b :: bs =>
      let! (L, ok) := ledger_add L b in
      let! (L, oks) := run_ledger L bs in
      Ret (L, ok :: oks)
  end.

Fixpoint run_chain bc (bs : list (Block F)) : Outcome (Blockchain F * list bool) :=
  match bs with
  | [] => Ret (bc, [])
  | b :: bs =>
      let! (bc, r) := add_block bc b in
      let! (bc, oks) := run_chain bc bs in
      Ret (bc, is_ok r :: oks)
  end.

(** The window holds the newest blocks of the ledger, the index every hash. *)
Record represents bc L : Prop := {
  rp_nonempty : L <> [];
  rp_window : blocks bc = drop (length L - max_blocks_in_memory bc) L;
  rp_capacity : 1 <= max_blocks_in_memory bc;
  rp_index : forall h, h ∈ transaction_index bc <-> exists a, a ∈ L /\ h ∈ tx_hashes a
}.

Lemma represents_last bc L : represents bc L -> last (blocks bc) = last L.
Proof.
  intros [Hne Hw Hc _]. rewrite Hw, !last_lookup, length_drop, lookup_drop. f_equal.
  destruct L; [done|]. simpl in *. lia.
Qed.

Lemma represents_fresh bc L b : represents bc L ->
  fresh L b <-> forall h, h ∈ tx_hashes b -> h ∉ transaction_index bc.
Proof.
  intros [_ _ _ Hi]. unfold fresh. rewrite Forall_forall. setoid_rewrite Forall_forall. split.
  - intros Hf h Hh Hin. apply Hi in Hin as (a & Ha & Hha). by apply (Hf h Hh a).
  - intros Hf h Hh a Ha Hha. apply (Hf h Hh). apply Hi. eauto.
Qed.

Lemma represents_appended bc L b : represents bc L -> represents (appended bc b) (L ++ [b]).
Proof.
  intros [Hne Hw Hc Hi]. split; simpl; [by destruct L| |done|].
  - rewrite Hw, !length_app, length_drop. simpl.
    assert (1 <= length L) by (destruct L; [done|simpl; lia]).
    case_decide as Hd.
    + rewrite <- drop_app_le by lia. rewrite drop_drop. f_equal. lia.
    + rewrite drop_app_le by lia. f_equal. f_equal. lia.
  - intros h. rewrite index_insert_spec, Hi. setoid_rewrite elem_of_app. setoid_rewrite list_elem_of_singleton. naive_solver.
Qed.

Lemma represents_add bc L b : represents bc L ->
  match add_block bc b, ledger_add L b with
  | Panic, Panic => True
  | Ret (bc', r), Ret (L', ok) => is_ok r = ok /\ represents bc' L'
  | _, _ => False
  end.
Proof.
  intros Hr. pose proof (represents_last bc L Hr) as Hl. unfold ledger_add.
  destruct (last L) as [tip|] eqn:El; [|destruct Hr as [Hne _ _ _]; by apply last_None in El].
  destruct (add_block bc b) as [[bc' r]|] eqn:Ea.
  - pose proof Ea as Einv. apply add_block_inv in Einv. rewrite Hl in Einv.
    destruct r as [[]|e]; simpl.
    + destruct Einv as [(Hv & Hext & Hfr) ->]. pose proof Hext as (_ & _ & Hidx & _).
      rewrite Hidx, Z.ltb_irrefl, Hv. simpl. rewrite !bool_decide_true; [|by eapply represents_fresh|done].
      simpl. split; [done|by apply represents_appended].
    + subst bc'. destruct (h_index (header b) <? u64_add (h_index (header tip)) 1)%Z eqn:Eix; [by split|].
      pose proof Ea as Ea0. unfold add_block, get_last_block in Ea. rewrite Hl in Ea.
      destruct (blocks bc) as [|b0 l] eqn:Eb; [done|]. simpl in Ea. rewrite Eix in Ea.
      destruct (Block_verify b) as [ok|] eqn:Hv; simpl in *; [|done]. destruct ok; simpl; [|by split].
      destruct (bool_decide (extends tip b)) eqn:E1; simpl; [|by split].
      destruct (bool_decide (fresh L b)) eqn:E2; [|by split]. exfalso.
      apply bool_decide_eq_true in E1, E2.
      assert (Hacc : acceptable bc tip b) by (split_and!; [done|done|by apply (represents_fresh bc L)]).
      rewrite <- Eb in Hl. apply (add_block_accept bc tip b Hl) in Hacc. congruence.
  - unfold add_block, get_last_block in Ea. rewrite Hl in Ea. destruct (blocks bc) as [|b0 l] eqn:Eb; [done|].
    simpl in Ea. destruct (_ <? _)%Z; [done|]. destruct (Block_verify b) as [ok|]; simpl in *; [|done].
    exfalso. revert Ea. destruct ok; simpl; [|done]. by repeat case_match.
Qed.

(** C3: The chain refines the ledger of every block since genesis: whatever blocks
    it is offered, one after the other, it gives the answers of the ledger (and
    panics exactly when the ledger's check of the block does), and afterwards its
    window is the newest part of the ledger and its index the set of all its
    transactions, although all older blocks were forgotten. *)
Theorem chain_refines_ledger (genesis : Block F) (bs : list (Block F)) :
  match run_chain (Blockchain_new genesis) bs, run_ledger [genesis] bs with
  | Panic, Panic => True
  | Ret (bc, answers), Ret (L, answers') => answers = answers' /\ represents bc L
  | _, _ => False
  end.
Proof.
  assert (Hinit : represents (Blockchain_new genesis) [genesis]).
  { split; simpl; [done|done|lia|]. intros h. rewrite index_insert_spec.
    setoid_rewrite list_elem_of_singleton. set_solver. }
  revert Hinit. generalize (Blockchain_new genesis) as bc, [genesis] as L.
  induction bs as [|b bs IH]; intros bc L Hr; simpl; [done|].
  pose proof (represents_add bc L b Hr) as Hadd.
  destruct (add_block bc b) as [[bc1 r]|], (ledger_add L b) as [[L1 ok]|]; simpl; try done.
  destruct Hadd as [<- Hr1]. specialize (IH bc1 L1 Hr1).
  destruct (run_chain bc1 bs) as [[bc2 o1]|], (run_ledger L1 bs) as [[L2 o2]|]; simpl; try done.
  destruct IH as [-> ?]. done.
Qed.

End ledger.
