(* ===== verification/SyncFacts.v ===== *)
(** * Correctness of synchronisation

    A participant that is behind catches up exactly with its peer, and what is
    lost when the gap exceeds the window. *)

From S2P Require Export Sync Ledger.
Local Open Scope rust_scope.

Section syncfacts.
Context {F : Type} `{F64 F} `{Crypto} `{TxSerde F} `{BlockSerde}.
Implicit Types (bc : Blockchain F) (b : Block F) (l bs : list (Block F)).

(** Heights that grow by one. *)
Definition heights_from (start : Z) l : Prop :=
  forall i b, l !! i = Some b -> h_index (header b) = (start + Z.of_nat i)%Z.

Lemma heights_linked l start :
  (forall i a b, l !! i = Some a -> l !! S i = Some b -> extends a b) ->
  (forall b, head l = Some b -> h_index (header b) = start) ->
  (0 <= start)%Z -> (start + Z.of_nat (length l) <= U64_MAX)%Z -> heights_from start l.
Proof.
  intros Hl Hs H0' Hm i. induction i as [|i IH]; intros b Hb.
  - rewrite Z.add_0_r. apply Hs. by destruct l.
  - destruct (lookup_lt_is_Some_2 l i) as [a Ha]; [apply lookup_lt_Some in Hb; lia|].
    destruct (Hl i a b Ha Hb) as (_ & _ & Hi & _). rewrite Hi, (IH a Ha). unfold u64_add.
    apply lookup_lt_Some in Hb. rewrite wrap64_small; [lia|]. unfold is_u64. lia.
Qed.

Lemma find_height start l i b : heights_from start l -> l !! i = Some b ->
  List.find (fun c => (h_index (header c) =? h_index (header b))%Z) l = Some b.
Proof.
  intros Hh Hb. rewrite (Hh i b Hb). revert start i Hh Hb.
  induction l as [|c l IH]; intros start i Hh Hb; [done|]. simpl.
  rewrite (Hh 0 c eq_refl). destruct i as [|i].
  - simplify_eq. by rewrite Z.add_0_r, Z.eqb_refl.
  - destruct (Z.eqb_spec (start + Z.of_nat 0) (start + Z.of_nat (S i))); [lia|].
    replace (start + Z.of_nat (S i))%Z with ((start + 1) + Z.of_nat i)%Z by lia. apply IH; [|done].
    intros j d Hd. rewrite (Hh (S j) d Hd). lia.
Qed.

Lemma find_height_none start l h : heights_from start l -> (start + Z.of_nat (length l) <= h)%Z ->
  List.find (fun c => (h_index (header c) =? h)%Z) l = None.
Proof.
  intros Hh Hge. destruct (List.find _ l) as [c|] eqn:E; [|done]. exfalso.
  apply find_some in E as [Hc He%Z.eqb_eq]. apply list_elem_of_In, list_elem_of_lookup in Hc as [i Hi].
  rewrite (Hh i c Hi) in He. apply lookup_lt_Some in Hi. lia.
Qed.

(** The known part of a response is skipped. *)
Lemma find_fork_skip bc ci start l sync : forall i,
  heights_from start (blocks bc) -> (forall b, b ∈ l -> b ∈ blocks bc) ->
  find_fork bc ci i (l ++ sync) = find_fork bc ci (i + length l) sync.
Proof.
  induction l as [|b l IH]; intros i Hh Hin; simpl; [by rewrite Nat.add_0_r|].
  assert (Hb : b ∈ blocks bc) by (apply Hin; left). apply list_elem_of_lookup in Hb as [j Hj].
  rewrite (find_height start (blocks bc) j b Hh Hj), decide_False by (intros Hne; by apply Hne).
  rewrite IH; [f_equal; lia|done|]. intros c Hc. apply Hin. by right.
Qed.

(** Blocks that the chain accepts one after the other are all added. *)
Lemma add_synced_all bs : forall bc bc' oks,
  run_chain bc bs = Ret (bc', oks) -> Forall (eq true) oks -> add_synced bc bs = Ret (bc', bs, true).
Proof.
  induction bs as [|b bs IH]; intros bc bc' oks; simpl; [by intros [= <- <-]|].
  destruct (add_block bc b) as [[bc1 r]|] eqn:E; simpl; [|done].
  destruct (run_chain bc1 bs) as [[bc2 oks2]|] eqn:E2; simpl; [|done]. intros [= <- <-] Hok.
  inversion_clear Hok as [|? ? Hr Hoks]. destruct r as [[]|]; [|done].
  by rewrite (IH _ _ _ E2 Hoks).
Qed.

(** The first accepted block is the next one. *)
Lemma run_chain_head bc b bs bc' oks tip :
  run_chain bc (b :: bs) = Ret (bc', oks) -> Forall (eq true) oks -> last (blocks bc) = Some tip ->
  h_index (header b) = u64_add (h_index (header tip)) 1.
Proof.
  simpl. destruct (add_block bc b) as [[bc1 r]|] eqn:E; simpl; [|done].
  destruct (run_chain bc1 bs) as [[bc2 oks2]|]; simpl; [|done]. intros [= <- <-] Hok Hl.
  inversion_clear Hok as [|? ? Hr _]. destruct r as [[]|]; [|done].
  apply add_block_inv in E. rewrite Hl in E. destruct E as [(_ & (_ & _ & Hi & _) & _) _]. done.
Qed.

(** A participant that is behind catches up: when a peer's chain is the own
    chain [bc] with further blocks [bs] accepted on top, and the response contains,
    after any blocks the participant already has, those blocks, then handling the
    response skips what is known, adds every new block in order and ends with
    exactly the peer's chain, its window and its index.  Heights are assumed to stay
    below the 64-bit limit. *)
Theorem sync_catches_up bc (peer : Blockchain F) (known bs : list (Block F)) (first tip : Block F)
    (oks : list bool) :
  chain_ok bc -> head (blocks bc) = Some first -> last (blocks bc) = Some tip ->
  (0 <= h_index (header first))%Z ->
  (h_index (header first) + Z.of_nat (length (blocks bc)) <= U64_MAX)%Z ->
  run_chain bc bs = Ret (peer, oks) -> Forall (eq true) oks ->
  (forall b, b ∈ known -> b ∈ blocks bc) ->
  resolve_fork bc (h_index (header tip)) (known ++ bs) = Ret (peer, bs).
Proof.
  intros Hok Hf Hl H0' Hm Hrun Hoks Hk.
  assert (Hh : heights_from (h_index (header first)) (blocks bc)).
  { apply heights_linked; [apply Hok| |done|done]. intros b Hb. by simplify_eq. }
  unfold resolve_fork. rewrite (find_fork_skip _ _ (h_index (header first))) by done. simpl.
  destruct bs as [|b bs].
  { simpl in *. by simplify_eq. }
  pose proof (run_chain_head _ _ _ _ _ _ Hrun Hoks Hl) as Hi.
  assert (Htip : h_index (header tip) = (h_index (header first) + Z.of_nat (length (blocks bc) - 1))%Z).
  { rewrite last_lookup in Hl. rewrite (Hh _ _ Hl). do 2 f_equal. lia. }
  assert (Hlen : 1 <= length (blocks bc)) by (destruct (blocks bc); [done|simpl; lia]).
  unfold u64_add in Hi. rewrite wrap64_small in Hi by (unfold is_u64; lia).
  cbn [find_fork]. rewrite (find_height_none _ _ _ Hh) by lia.
  destruct (Z.ltb_spec (h_index (header tip)) (h_index (header b))); [|lia].
  simpl. rewrite drop_app_length. by rewrite (add_synced_all _ _ _ _ Hrun Hoks).
Qed.

(** Replacing the chain by a snapshot forgets the transactions of blocks outside
    the window.  When a peer refuses a block because one of its transactions is in a
    block that has left the window, a participant that has just adopted the peer's
    window accepts the same block: its transaction is included a second time. *)
Theorem snapshot_forgets_transactions bc (peer : Blockchain F) (lb b : Block F) (h : string) :
  last (blocks peer) = Some lb -> Block_verify b = Ret true -> extends lb b ->
  h ∈ tx_hashes b -> h ∈ transaction_index peer ->
  (forall c, c ∈ blocks peer -> forall h, h ∈ tx_hashes c -> h ∉ tx_hashes b) ->
  add_block peer b = Ret (peer, Err TransactionExists)
  /\ add_block (replace_chain bc (blocks peer)) b = Ret (appended (replace_chain bc (blocks peer)) b, Ok ()).
Proof.
  intros Hl Hv He Hh Hi Hw. split.
  - destruct (add_block peer b) as [[peer' r]|] eqn:E.
    + pose proof E as E'. apply add_block_inv in E'. rewrite Hl in E'. destruct r as [[]|e].
      { destruct E' as [(_ & _ & Hf) _]. by destruct (Hf h). }
      subst peer'. f_equal. f_equal. f_equal. destruct He as (Hp & Hne & Hix & Hep & Hsl).
      unfold add_block, get_last_block in E. destruct (blocks peer) as [|b0 l]; [done|]. rewrite Hl in E. simpl in E.
      rewrite Hix, Z.ltb_irrefl, Hv in E. simpl in E. rewrite !decide_False in E by congruence.
      destruct (Z.ltb_spec (h_epoch (header b)) (h_epoch (header lb))); [lia|].
      destruct (bool_decide_reflect (h_epoch (header lb) = h_epoch (header b))) as [Ee|]; simpl in E.
      * destruct (Z.ltb_spec (h_slot (header b)) (h_slot (header lb))); [specialize (Hsl Ee); lia|].
        destruct (existsb _ _); by simplify_eq.
      * destruct (existsb _ _); by simplify_eq.
    + exfalso. unfold add_block, get_last_block in E. rewrite Hl in E. destruct (blocks peer); [done|]. simpl in E.
      destruct (_ <? _)%Z; [done|]. rewrite Hv in E. simpl in E. revert E. by repeat case_match.
  - apply (add_block_accept _ lb); [done|]. split_and!; [done..|]. intros x Hx. simpl.
    rewrite fold_index_insert_spec. intros [?|(c & Hc & Hxc)]; [set_solver|]. by apply (Hw c Hc x).
Qed.

End syncfacts.
