(* ===== verification/Node.v ===== *)
(** * Nodes

    src/src/network/node.rs.  A node is a task that handles one message at a time;
    [handle] is the body of its loop.  Its mempool, its availability flag and its
    counter of forwarded paths are shared with the world state and live in
    [Shared].  Messages to other tasks are returned in the order in which the
    handler sends or spawns them; whether and when they arrive is the concern of
    [System].  Clock readings and random bytes are arguments; log output and the
    writing of the chain to a file are left out. *)

From stdpp Require Import pretty.
From S2P Require Export Shared Network.
Local Open Scope rust_scope.

Inductive NodeType := Honest | Selfish | Sybil | Unstable.

Definition NodeType_fmt (t : NodeType) : string :=
  match t with
  | Honest => "Honest"
  | Selfish => "Selfish"
  | Sybil => "Sybil"
  | Unstable => "Unstable"
  end.

Record Neighbor := mkNeighbor { nb_index : Z; nb_address : string }.

(** [StdRng::seed_from_u64] and [gen_bool]. *)
Class RngBool (F St : Type) := {
  seed_from_u64 : Z -> St;
  next_bool : F -> St -> bool * St
}.

Section node.
Context {F St : Type} `{F64 F} `{Crypto} `{TxSerde F} `{BlockSerde} `{MapOrder} `{MetaSerde} `{RngBool F St}.

Inductive Node := mkNode {
  n_index : Z;
  n_epoch : Z;
  n_slot : Z;
  n_wallet : Wallet;
  n_blockchain : Blockchain F;
  n_neighbors : list Neighbor;
  n_type : NodeType;
  n_sybil_nodes : list Node;
  n_is_online : bool;
  n_online_last_slot : bool;
  n_offline_until : option Z;
  n_offline_probability : F;
  n_sync_in_progress : bool;
  n_transaction_fee : F;
  n_balance : F;
  n_max_tx_per_block : nat;
  n_consensus : ConsensusType;
  n_max_mempool_size : nat;
  n_hash_power : F;
  n_tx_propagation_delay : Z;
  n_relay_profile : RelayProfile;
  n_failure_rng : St
}.

(** ** Field updates and setters *)

Definition set_clock (n : Node) (epoch slot : Z) : Node :=
  mkNode (n_index n) epoch slot (n_wallet n) (n_blockchain n) (n_neighbors n) (n_type n) (n_sybil_nodes n)
    (n_is_online n) (n_online_last_slot n) (n_offline_until n) (n_offline_probability n)
    (n_sync_in_progress n) (n_transaction_fee n) (n_balance n) (n_max_tx_per_block n) (n_consensus n)
    (n_max_mempool_size n) (n_hash_power n) (n_tx_propagation_delay n) (n_relay_profile n) (n_failure_rng n).

Definition set_chain (n : Node) (bc : Blockchain F) : Node :=
  mkNode (n_index n) (n_epoch n) (n_slot n) (n_wallet n) bc (n_neighbors n) (n_type n) (n_sybil_nodes n)
    (n_is_online n) (n_online_last_slot n) (n_offline_until n) (n_offline_probability n)
    (n_sync_in_progress n) (n_transaction_fee n) (n_balance n) (n_max_tx_per_block n) (n_consensus n)
    (n_max_mempool_size n) (n_hash_power n) (n_tx_propagation_delay n) (n_relay_profile n) (n_failure_rng n).

Definition set_neighbors (n : Node) (l : list Neighbor) : Node :=
  mkNode (n_index n) (n_epoch n) (n_slot n) (n_wallet n) (n_blockchain n) l (n_type n) (n_sybil_nodes n)
    (n_is_online n) (n_online_last_slot n) (n_offline_until n) (n_offline_probability n)
    (n_sync_in_progress n) (n_transaction_fee n) (n_balance n) (n_max_tx_per_block n) (n_consensus n)
    (n_max_mempool_size n) (n_hash_power n) (n_tx_propagation_delay n) (n_relay_profile n) (n_failure_rng n).

Definition set_node_type (n : Node) (node_type : NodeType) : Node :=
  mkNode (n_index n) (n_epoch n) (n_slot n) (n_wallet n) (n_blockchain n) (n_neighbors n) node_type
    (n_sybil_nodes n) (n_is_online n) (n_online_last_slot n) (n_offline_until n) (n_offline_probability n)
    (n_sync_in_progress n) (n_transaction_fee n) (n_balance n) (n_max_tx_per_block n) (n_consensus n)
    (n_max_mempool_size n) (n_hash_power n) (n_tx_propagation_delay n) (n_relay_profile n) (n_failure_rng n).

Definition set_online (n : Node) (is_online : bool) (until : option Z) : Node :=
  mkNode (n_index n) (n_epoch n) (n_slot n) (n_wallet n) (n_blockchain n) (n_neighbors n) (n_type n)
    (n_sybil_nodes n) is_online (n_online_last_slot n) until (n_offline_probability n)
    (n_sync_in_progress n) (n_transaction_fee n) (n_balance n) (n_max_tx_per_block n) (n_consensus n)
    (n_max_mempool_size n) (n_hash_power n) (n_tx_propagation_delay n) (n_relay_profile n) (n_failure_rng n).

Definition set_online_last_slot (n : Node) (b : bool) : Node :=
  mkNode (n_index n) (n_epoch n) (n_slot n) (n_wallet n) (n_blockchain n) (n_neighbors n) (n_type n)
    (n_sybil_nodes n) (n_is_online n) b (n_offline_until n) (n_offline_probability n) (n_sync_in_progress n)
    (n_transaction_fee n) (n_balance n) (n_max_tx_per_block n) (n_consensus n) (n_max_mempool_size n)
    (n_hash_power n) (n_tx_propagation_delay n) (n_relay_profile n) (n_failure_rng n).

Definition set_sync (n : Node) (b : bool) : Node :=
  mkNode (n_index n) (n_epoch n) (n_slot n) (n_wallet n) (n_blockchain n) (n_neighbors n) (n_type n)
    (n_sybil_nodes n) (n_is_online n) (n_online_last_slot n) (n_offline_until n) (n_offline_probability n) b
    (n_transaction_fee n) (n_balance n) (n_max_tx_per_block n) (n_consensus n) (n_max_mempool_size n)
    (n_hash_power n) (n_tx_propagation_delay n) (n_relay_profile n) (n_failure_rng n).

Definition set_balance (n : Node) (balance : F) : Node :=
  mkNode (n_index n) (n_epoch n) (n_slot n) (n_wallet n) (n_blockchain n) (n_neighbors n) (n_type n)
    (n_sybil_nodes n) (n_is_online n) (n_online_last_slot n) (n_offline_until n) (n_offline_probability n)
    (n_sync_in_progress n) (n_transaction_fee n) balance (n_max_tx_per_block n) (n_consensus n)
    (n_max_mempool_size n) (n_hash_power n) (n_tx_propagation_delay n) (n_relay_profile n) (n_failure_rng n).

Definition set_rng (n : Node) (rng : St) : Node :=
  mkNode (n_index n) (n_epoch n) (n_slot n) (n_wallet n) (n_blockchain n) (n_neighbors n) (n_type n)
    (n_sybil_nodes n) (n_is_online n) (n_online_last_slot n) (n_offline_until n) (n_offline_probability n)
    (n_sync_in_progress n) (n_transaction_fee n) (n_balance n) (n_max_tx_per_block n) (n_consensus n)
    (n_max_mempool_size n) (n_hash_power n) (n_tx_propagation_delay n) (n_relay_profile n) rng.

Definition set_transaction_fee (n : Node) (fee : F) : Node :=
  mkNode (n_index n) (n_epoch n) (n_slot n) (n_wallet n) (n_blockchain n) (n_neighbors n) (n_type n)
    (n_sybil_nodes n) (n_is_online n) (n_online_last_slot n) (n_offline_until n) (n_offline_probability n)
    (n_sync_in_progress n) fee (n_balance n) (n_max_tx_per_block n) (n_consensus n) (n_max_mempool_size n)
    (n_hash_power n) (n_tx_propagation_delay n) (n_relay_profile n) (n_failure_rng n).

Definition set_hash_power (n : Node) (hash_power : F) : Node :=
  mkNode (n_index n) (n_epoch n) (n_slot n) (n_wallet n) (n_blockchain n) (n_neighbors n) (n_type n)
    (n_sybil_nodes n) (n_is_online n) (n_online_last_slot n) (n_offline_until n) (n_offline_probability n)
    (n_sync_in_progress n) (n_transaction_fee n) (n_balance n) (n_max_tx_per_block n) (n_consensus n)
    (n_max_mempool_size n) hash_power (n_tx_propagation_delay n) (n_relay_profile n) (n_failure_rng n).

Definition set_offline_probability (n : Node) (probability : F) : Node :=
  mkNode (n_index n) (n_epoch n) (n_slot n) (n_wallet n) (n_blockchain n) (n_neighbors n) (n_type n)
    (n_sybil_nodes n) (n_is_online n) (n_online_last_slot n) (n_offline_until n) (f_clamp probability f0 f1)
    (n_sync_in_progress n) (n_transaction_fee n) (n_balance n) (n_max_tx_per_block n) (n_consensus n)
    (n_max_mempool_size n) (n_hash_power n) (n_tx_propagation_delay n) (n_relay_profile n) (n_failure_rng n).

Fixpoint set_tx_propagation_delay (n : Node) (delay : Z) : Node :=
  mkNode (n_index n) (n_epoch n) (n_slot n) (n_wallet n) (n_blockchain n) (n_neighbors n) (n_type n)
    (map (fun s => set_tx_propagation_delay s delay) (n_sybil_nodes n)) (n_is_online n)
    (n_online_last_slot n) (n_offline_until n) (n_offline_probability n) (n_sync_in_progress n)
    (n_transaction_fee n) (n_balance n) (n_max_tx_per_block n) (n_consensus n) (n_max_mempool_size n)
    (n_hash_power n) delay (n_relay_profile n) (n_failure_rng n).

Fixpoint set_relay_profile (n : Node) (profile : RelayProfile) : Node :=
  mkNode (n_index n) (n_epoch n) (n_slot n) (n_wallet n) (n_blockchain n) (n_neighbors n) (n_type n)
    (map (fun s => set_relay_profile s profile) (n_sybil_nodes n)) (n_is_online n) (n_online_last_slot n)
    (n_offline_until n) (n_offline_probability n) (n_sync_in_progress n) (n_transaction_fee n) (n_balance n)
    (n_max_tx_per_block n) (n_consensus n) (n_max_mempool_size n) (n_hash_power n)
    (n_tx_propagation_delay n) profile (n_failure_rng n).

Fixpoint set_failure_seed (n : Node) (seed : Z) : Node :=
  mkNode (n_index n) (n_epoch n) (n_slot n) (n_wallet n) (n_blockchain n) (n_neighbors n) (n_type n)
    (map (fun s => set_failure_seed s seed) (n_sybil_nodes n)) (n_is_online n) (n_online_last_slot n)
    (n_offline_until n) (n_offline_probability n) (n_sync_in_progress n) (n_transaction_fee n) (n_balance n)
    (n_max_tx_per_block n) (n_consensus n) (n_max_mempool_size n) (n_hash_power n)
    (n_tx_propagation_delay n) (n_relay_profile n)
    (seed_from_u64 (Z.lxor seed (wrap64 (Z.shiftl (n_index n) 32)))).

Definition get_address (n : Node) : string := address (n_wallet n).
Definition get_balance (n : Node) : F := n_balance n.

(** [address[0..5]] panics on a shorter address. *)
Definition short_address (addr : string) : Outcome string := expect (slice addr 0 5).
Definition short_address_with_index (index : Z) (addr : string) : Outcome string :=
  let! s := short_address addr in Ret (pretty index +:+ "-" +:+ s).

Definition deduct_balance (n : Node) (amount : F) : Node * bool :=
  if f_geb (n_balance n) amount then (set_balance n (f_sub (n_balance n) amount), true) else (n, false).

(** ** Construction *)

Definition fresh_node (index epoch slot : Z) (bc : Blockchain F) (wallet : Wallet) (t : NodeType)
    (sybils : list Node) (max_tx_per_block : nat) (consensus : ConsensusType) (rng : St) : Node :=
  mkNode index epoch slot wallet bc [] t sybils true true None (f_dec 1 1) false f0 f0 max_tx_per_block
    consensus max_tx_per_block f1 50 Normal rng.

(** The wallet of a node: drawn when the seed is zero, derived from it otherwise. *)
Definition node_wallet (reg : Registry) (wallet_seed index : Z) (sk : SecretKey) : Outcome (Registry * Wallet) :=
  if (wallet_seed =? 0)%Z then Wallet_new reg sk else new_deterministic reg wallet_seed index.

Definition Node_new (reg : Registry) (sk : SecretKey) (index epoch slot : Z) (bc : Blockchain F)
    (max_tx_per_block : nat) (consensus : ConsensusType) (wallet_seed : Z) : Outcome (Registry * Node) :=
  let! (reg, wallet) := node_wallet reg wallet_seed index sk in
  Ret (reg, fresh_node index epoch slot bc wallet Honest [] max_tx_per_block consensus
              (seed_from_u64 (Z.lxor wallet_seed index))).

Definition new_with_wallet (index epoch slot : Z) (bc : Blockchain F) (wallet : Wallet)
    (max_tx_per_block : nat) (consensus : ConsensusType) : Node :=
  fresh_node index epoch slot bc wallet Honest [] max_tx_per_block consensus (seed_from_u64 index).

(** The fake nodes, [sk i] being the key drawn for the [i]-th; the index wraps at
    32 bits. *)
Fixpoint sybil_identities (reg : Registry) (sk : nat -> SecretKey) (index epoch slot : Z) (bc : Blockchain F)
    (max_tx_per_block : nat) (consensus : ConsensusType) (wallet_seed : Z) (idxs : list nat)
    : Outcome (Registry * list Node) :=
  match idxs with
  | [] => Ret (reg, [])
  | i :: idxs =>
      let! (reg, n) := Node_new reg (sk i) ((index * 1000 + Z.of_nat i) mod 2 ^ 32) epoch slot bc
                         max_tx_per_block consensus wallet_seed in
      let! (reg, rest) := sybil_identities reg sk index epoch slot bc max_tx_per_block consensus wallet_seed idxs in
      Ret (reg, set_node_type n Sybil :: rest)
  end.

Definition new_with_sybil_nodes (reg : Registry) (sk : nat -> SecretKey) (index epoch slot : Z)
    (bc : Blockchain F) (fake_node_num : nat) (max_tx_per_block : nat) (consensus : ConsensusType)
    (wallet_seed : Z) : Outcome (Registry * Node) :=
  let! (reg, sybils) := sybil_identities reg sk index epoch slot bc max_tx_per_block consensus wallet_seed
                          (seq 0 fake_node_num) in
  let! (reg, wallet) := node_wallet reg wallet_seed index (sk fake_node_num) in
  Ret (reg, fresh_node index epoch slot bc wallet Sybil sybils max_tx_per_block consensus
              (seed_from_u64 (Z.lxor wallet_seed index))).

(** ** Forwarding *)

Definition relay_forward_probability (n : Node) : F :=
  match n_relay_profile n with
  | Active => f1
  | Normal | Mixed => f_dec 75 2
  | Lazy => f_dec 25 2
  end.

(** [gen_bool] panics on a probability outside the unit interval. *)
Definition gen_bool (n : Node) (p : F) : Outcome (Node * bool) :=
  if negb (f_leb f0 p && f_leb p f1) then Panic else
  let '(b, rng) := next_bool p (n_failure_rng n) in Ret (set_rng n rng, b).

Definition should_forward_relay_path (n : Node) : Outcome (Node * bool) :=
  gen_bool n (relay_forward_probability n).

(** The path with a pending hop to a neighbour, as a message. *)
Definition offer (n : Node) (p : TransactionPaths F) (wallet : Wallet) (nb : Neighbor) : option (Send F) :=
  let '(p, ok) := append_outgoing_hop p (nb_address nb) wallet in
  if ok then Some (ToNode (nb_address nb) (SendTransactionPaths p (get_address n))) else None.

(** The loop that forwards a received path; [online_at i] is the availability flag
    as it is read before the [i]-th neighbour. *)
Fixpoint forward (online_at : nat -> bool) (i : nat) (n : Node) (sh : Shared F) (p : TransactionPaths F)
    (from : string) (neighbors : list Neighbor) : Outcome (Node * Shared F * list (Send F)) :=
  match neighbors with
  | [] => Ret (n, sh, [])
  | nb :: rest =>
      if negb (online_at i) then Ret (n, sh, []) else
      if decide (from = nb_address nb) then forward online_at (S i) n sh p from rest else
      let! (n, go) := should_forward_relay_path n in
      if negb go then forward online_at (S i) n sh p from rest else
      match offer n p (n_wallet n) nb with
      | None => forward online_at (S i) n sh p from rest
      | Some msg =>
          let! (n, sh, out) := forward online_at (S i) n (count_forward sh (get_address n)) p from rest in
          Ret (n, sh, msg :: out)
      end
  end.

(** A Sybil node extends the path through its fake identities: a failed
    acknowledgement leaves the pending hop in place. *)
Fixpoint forge (reg : Registry) (c : PathCaches) (p : TransactionPaths F) (wallet : Wallet)
    (sybils : list Node) : Outcome (PathCaches * TransactionPaths F * Wallet) :=
  match sybils with
  | [] => Ret (c, p, wallet)
  | s :: sybils =>
      let '(p, ok) := append_outgoing_hop p (get_address s) wallet in
      if negb ok then forge reg c p wallet sybils else
      let! (c, p, ok) := complete_pending_hop reg c p (n_wallet s) in
      forge reg c p (if ok then n_wallet s else wallet) sybils
  end.

(** The forged path goes to every neighbour but [from]. *)
Definition forged_offers (n : Node) (p : TransactionPaths F) (wallet : Wallet) (from : option string)
    : list (Send F) :=
  omap (fun nb => if decide (from = Some (nb_address nb)) then None else offer n p wallet nb) (n_neighbors n).

(** ** Handlers *)

Abbreviation Handled := (Outcome (Node * Shared F * list (Send F))).

Definition own_mempool (n : Node) (sh : Shared F) : Mempool F := mempool_of sh (get_address n).
Definition set_own_mempool (n : Node) (sh : Shared F) (m : Mempool F) : Shared F :=
  set_mempool sh (get_address n) m.

Definition generate_block (now : Z) (n : Node) (sh : Shared F) (epoch slot : Z)
    : Outcome (Node * Shared F * Result (Block F) BlockError) :=
  let mempool := own_mempool n sh in
  let packed := to_pack (n_max_tx_per_block n) (n_blockchain n) mempool in
  let sh := if decide (packed = []) then sh
            else set_own_mempool n sh (remove_all (map path_hash packed) mempool) in
  let! r := packed_block (sh_registry sh) now (n_blockchain n) epoch slot packed (n_wallet n) in
  match r with
  | Err e => Ret (n, sh, Err e)
  | Ok block =>
      let! (bc, added) := add_block (n_blockchain n) block in
      match added with
      | Err _ => Ret (set_chain n bc, sh, Err InvalidBlock)
      | Ok _ => Ret (set_chain n bc, sh, Ok block)
      end
  end.

Definition on_send_block (n : Node) (sh : Shared F) (block : Block F) (from : string) : Handled :=
  let! (bc, r) := add_block (n_blockchain n) block in
  match r with
  | Err ParentHashMismatch =>
      let! last_block_index := get_last_index bc in
      if n_sync_in_progress n then Ret (n, sh, []) else
      Ret (set_sync n true, sh, [ToWorld (RequestBlockSync last_block_index (get_address n))])
  | Err _ => Ret (n, sh, [])
  | Ok _ =>
      let sh := set_own_mempool n sh (remove_all (tx_hashes block) (own_mempool n sh)) in
      Ret (set_chain n bc, sh,
           omap (fun nb => if decide (from = nb_address nb) then None
                           else Some (ToNode (nb_address nb) (SendBlock block (get_address n))))
             (n_neighbors n))
  end.

Definition on_transaction_paths (online_at : nat -> bool) (n : Node) (sh : Shared F)
    (p : TransactionPaths F) (from : string) : Handled :=
  let hash := path_hash p in
  if exist_transaction (n_blockchain n) hash then Ret (n, sh, []) else
  if decide (is_Some (own_mempool n sh !! hash)) then Ret (n, sh, []) else
  let! (c, p, ok) := complete_pending_hop (sh_registry sh) (sh_caches sh) p (n_wallet n) in
  let sh := set_caches sh c in
  if negb ok then Ret (n, sh, []) else
  let sh := set_own_mempool n sh (<[path_hash p := p]> (own_mempool n sh)) in
  match n_type n with
  | Selfish =>
      let! (n, dropped) := gen_bool n (f_dec 5 1) in
      if (dropped : bool) then Ret (n, sh, []) else forward online_at 0 n sh p from (n_neighbors n)
  | Sybil =>
      let! (c, fake_paths, wallet) := forge (sh_registry sh) (sh_caches sh) p (n_wallet n) (n_sybil_nodes n) in
      Ret (n, set_caches sh c, forged_offers n fake_paths wallet (Some from))
  | _ => forward online_at 0 n sh p from (n_neighbors n)
  end.

Definition on_generate_block (now : Z) (n : Node) (sh : Shared F) : Handled :=
  if n_sync_in_progress n then Ret (n, sh, []) else
  let! _ := get_last_block (n_blockchain n) in
  let! (n, sh, r) := generate_block now n sh (n_epoch n) (n_slot n) in
  match r with
  | Err _ => Ret (n, sh, [])
  | Ok block =>
      Ret (n, sh,
           map (fun nb => ToNode (nb_address nb) (SendBlock block (get_address n))) (n_neighbors n)
           ++ [ToWorld (SendBlock block (get_address n))])
  end.

Definition on_generate_transaction (now : Z) (n : Node) (sh : Shared F) (to : string) : Handled :=
  let total_transaction_cost := f_mul f2 (n_transaction_fee n) in
  let '(n, paid) := deduct_balance n total_transaction_cost in
  if negb paid then Ret (n, sh, []) else
  let balance_msg := ToWorld (UpdateAccountBalance (get_address n) (n_balance n)) in
  let transaction := with_data (with_fee now to 0 (n_transaction_fee n) (n_wallet n))
                       (logical_tx_metadata (n_epoch n) (n_slot n)) in
  let p := new_with_epoch transaction (n_epoch n) in
  let mempool := own_mempool n sh in
  if decide (n_max_mempool_size n <= size mempool /\ mempool !! path_hash p = None)
  then Ret (n, sh, [balance_msg]) else
  let sh := set_own_mempool n sh (<[path_hash p := p]> mempool) in
  match n_type n with
  | Sybil =>
      let! (c, p, wallet) := forge (sh_registry sh) (sh_caches sh) p (n_wallet n) (n_sybil_nodes n) in
      Ret (n, set_caches sh c, balance_msg :: forged_offers n p wallet None)
  | _ => Ret (n, sh, balance_msg :: omap (offer n p (n_wallet n)) (n_neighbors n))
  end.

Definition on_send_randao_seed (seed : bytes) (n : Node) (sh : Shared F) : Handled :=
  Ret (n, sh, [ToWorld (ReceiveRandaoSeed (RandaoSeed_new (n_wallet n) seed))]).

Definition on_become_validator (n : Node) (sh : Shared F) (stake_map : gmap string F) : Handled :=
  let my_stake := get_or (n_balance n) stake_map (get_address n) in
  let n := set_balance n my_stake in
  let announce addr stake power := ToWorld (ReceiveBecomeValidator (mkValidator addr stake power)) in
  match n_type n with
  | Sybil =>
      let stake := f_div my_stake (f_of_nat (length (n_sybil_nodes n) + 1)) in
      Ret (n, sh, announce (get_address n) stake (n_hash_power n)
                  :: map (fun s => announce (get_address s) stake (n_hash_power s)) (n_sybil_nodes n))
  | _ => Ret (n, sh, [announce (get_address n) my_stake (n_hash_power n)])
  end.

(** What a node asks its neighbours for when it is back. *)
Definition sync_requests (n : Node) : list (Send F) :=
  let last_block_index := u64_sub (Z.of_nat (length (blocks (n_blockchain n)))) 1 in
  map (fun nb => ToNode (nb_address nb) (RequestBlockSync last_block_index (get_address n))) (n_neighbors n).

Definition on_update_slot (n : Node) (sh : Shared F) (slot : SlotManager) : Handled :=
  let old_epoch := n_epoch n in
  let n := set_clock n (current_epoch slot) (Message.current_slot slot) in
  let scheduled_online := available sh (get_address n) in
  let out := if scheduled_online && negb (n_online_last_slot n) then sync_requests n else [] in
  let n := set_online_last_slot n scheduled_online in
  match n_type n with
  | Unstable =>
      let back := match n_offline_until n with
                  | Some e => negb (n_is_online n) && (e <=? n_epoch n)%Z
                  | None => false
                  end in
      let out := out ++ (if back then sync_requests n else []) in
      let n := if back then set_online n true None else n in
      if n_is_online n && negb (n_epoch n =? old_epoch)%Z && bool_decide (n_offline_until n = None) then
        let! (n, fails) := gen_bool n (n_offline_probability n) in
        Ret (if (fails : bool) then set_online n false (Some (u64_add (n_epoch n) 1)) else n, sh, out)
      else Ret (n, sh, out)
  | _ => Ret (n, sh, out)
  end.

(** The blocks a neighbour is sent. *)
Definition blocks_from (bc : Blockchain F) (requested_index : Z) : list (Block F) :=
  match head (blocks bc) with
  | None => []
  | Some first_block =>
      let oldest_index := h_index (header first_block) in
      if (oldest_index <=? requested_index)%Z
      then drop (Z.to_nat (requested_index - oldest_index)) (blocks bc)
      else blocks bc
  end.

Definition on_request_sync (n : Node) (sh : Shared F) (requested_index : Z) (from : string) : Handled :=
  if n_sync_in_progress n then Ret (n, sh, []) else
  if decide (from = "world_state") then
    Ret (n, sh, [ToWorld (ResponseBlockSync (blocks (n_blockchain n)) (get_address n))]) else
  let sync_blocks := blocks_from (n_blockchain n) requested_index in
  if decide (sync_blocks = []) then Ret (n, sh, []) else
  if decide (from = "") then Ret (n, sh, []) else
  match List.find (fun nb => bool_decide (nb_address nb = from)) (n_neighbors n) with
  | Some nb => Ret (n, sh, [ToNode (nb_address nb) (ResponseBlockSync sync_blocks (get_address n))])
  | None => Ret (n, sh, [])
  end.

Definition replace_local_chain_with_snapshot (n : Node) (sh : Shared F) (sync_blocks : list (Block F))
    : Node * Shared F :=
  let included := concat (map tx_hashes sync_blocks) in
  let sh := if decide (included = []) then sh
            else set_own_mempool n sh (remove_all included (own_mempool n sh)) in
  (set_sync (set_chain n (replace_chain (n_blockchain n) sync_blocks)) false, sh).

Definition on_response_sync (n : Node) (sh : Shared F) (sync_blocks : list (Block F)) (from : string) : Handled :=
  match head sync_blocks, last sync_blocks with
  | Some first_block, Some last_block =>
      if decide (from = "world_state") then
        let '(n, sh) := replace_local_chain_with_snapshot n sh sync_blocks in Ret (n, sh, []) else
      let! current_index := get_last_index (n_blockchain n) in
      let response_index := h_index (header last_block) in
      let response_start_index := h_index (header first_block) in
      if (response_index <=? current_index)%Z then Ret (n, sh, []) else
      if (u64_add current_index 1 <? response_start_index)%Z then
        let bc := replace_chain (n_blockchain n) sync_blocks in
        let sh := set_own_mempool n sh (remove_all (elements (transaction_index bc)) (own_mempool n sh)) in
        Ret (set_sync (set_chain n bc) false, sh, [])
      else
        let! (bc, added) := resolve_fork (n_blockchain n) current_index sync_blocks in
        let sh := set_own_mempool n sh (remove_all (concat (map tx_hashes added)) (own_mempool n sh)) in
        Ret (set_sync (set_chain n bc) false, sh, [])
  | _, _ => Ret (n, sh, [])
  end.

(** The readings a handler makes of its surroundings: the clock, random bytes, and
    the availability flag as it is read while forwarding. *)
Record Readings := mkReadings {
  rd_now : Z;
  rd_seed : bytes;
  rd_online_at : nat -> bool
}.

Definition handle (rd : Readings) (n : Node) (sh : Shared F) (msg : Message F) : Handled :=
  let offline := negb (n_is_online n) || negb (available sh (get_address n)) in
  match msg with
  | UpdateSlot slot => on_update_slot n sh slot
  | _ =>
      if offline then
        match msg with
        | GenerateBlock => Ret (n, sh, [ToWorld (BlockProductionFailed (n_index n) (n_slot n) "node_offline")])
        | _ => Ret (n, sh, [])
        end
      else
        match msg with
        | SendBlock block from => on_send_block n sh block from
        | SendTransactionPaths p from => on_transaction_paths (rd_online_at rd) n sh p from
        | GenerateBlock => on_generate_block (rd_now rd) n sh
        | GenerateTransactionPaths to => on_generate_transaction (rd_now rd) n sh to
        | SendRandaoSeed => on_send_randao_seed (rd_seed rd) n sh
        | BecomeValidator stake_map => on_become_validator n sh stake_map
        | UpdateNodeBalance new_balance => Ret (set_balance n new_balance, sh, [])
        | RequestBlockSync requested_index from => on_request_sync n sh requested_index from
        | ResponseBlockSync sync_blocks from => on_response_sync n sh sync_blocks from
        | _ => Ret (n, sh, [])
        end
  end.

End node.
Arguments Node F St {_}.
