(* ===== verification/NodeFacts.v ===== *)
(** * Correctness of nodes

    What every handler of [Node] preserves: the chain stays well formed and holds
    verified blocks only, mempools stay typed (every entry under its own hash,
    ending at the owner, with no pending hop), and the blocks a node sends are
    those of a well-formed chain.  Then the behaviour of single handlers. *)

From Stdlib Require Import Reals Lra.
From S2P Require Export Node.
Local Open Scope rust_scope.

Section nodefacts.
Context {F St : Type} `{F64 F} `{Crypto} `{TxSerde F} `{BlockSerde} `{MapOrder} `{MetaSerde} `{RngBool F St}.
Implicit Types (n : Node F St) (sh : Shared F) (p : TransactionPaths F) (m : Mempool F).

(** ** Mempools *)

(** An entry of the mempool of [addr]. *)
Record entry_typed (addr h : string) p : Prop := {
  et_key : path_hash p = h;
  et_tail : current_tail p = addr;
  et_complete : has_pending_hop p = false
}.

Definition mempool_typed (addr : string) m : Prop := map_Forall (entry_typed addr) m.
Definition shared_typed sh : Prop := map_Forall mempool_typed (sh_mempools sh).

Lemma mempool_of_typed sh addr : shared_typed sh -> mempool_typed addr (mempool_of sh addr).
Proof.
  intros Hs. unfold mempool_of, get_or. destruct (sh_mempools sh !! addr) eqn:E; simpl.
  - by apply (Hs addr).
  - apply map_Forall_empty.
Qed.

Lemma set_mempool_typed sh addr m :
  shared_typed sh -> mempool_typed addr m -> shared_typed (set_mempool sh addr m).
Proof. intros Hs Hm. by apply map_Forall_insert_2. Qed.

Lemma remove_all_lookup hashes : forall m h,
  remove_all hashes m !! h = if decide (h ∈ hashes) then None else m !! h.
Proof.
  induction hashes as [|x hashes IH]; intros m h.
  - case_decide as Hh; [by apply not_elem_of_nil in Hh|done].
  - change (remove_all (x :: hashes) m) with (remove_all hashes (delete x m)). rewrite IH.
    destruct (decide (h = x)) as [->|Hne].
    + rewrite lookup_delete_eq. do 2 case_decide; set_solver.
    + rewrite lookup_delete_ne by done. do 2 case_decide; set_solver.
Qed.

Lemma remove_all_typed addr hashes m : mempool_typed addr m -> mempool_typed addr (remove_all hashes m).
Proof.
  intros Hm h p. rewrite remove_all_lookup. case_decide; [done|]. apply Hm.
Qed.

Lemma insert_typed addr h p m :
  mempool_typed addr m -> entry_typed addr h p -> mempool_typed addr (<[h := p]> m).
Proof. intros Hm Hp. by apply map_Forall_insert_2. Qed.

(** An acknowledged path is the same transaction's, ends at the receiver and is
    complete. *)
Lemma complete_pending_hop_typed reg c p (w : Wallet) c' p' :
  complete_pending_hop reg c p w = Ret (c', p', true) -> entry_typed (address w) (path_hash p) p'.
Proof.
  unfold complete_pending_hop. destruct (last (tp_paths p)) as [hop|] eqn:El.
  2:{ intros [= _ <- Ho]. split; [done|..]; unfold current_tail, has_pending_hop; rewrite El; [|done].
      by apply bool_decide_eq_true in Ho. }
  case_decide as Ht; [done|].
  destruct (receiver_signature hop) eqn:Er.
  { intros [= _ <-]. split; [done|..]; unfold current_tail, has_pending_hop; rewrite El; [done|].
    by rewrite bool_decide_false by (by rewrite Er). }
  destruct (verify_pending_sender_signature reg p) as [[]|]; simpl; [|done..].
  destruct (hex_decode (hop_prefix hop)); [|done]. destruct (receipt_admit _ _ _) as [c1 []]; simpl; [|done].
  intros [= _ <-]. split; [done|..];
    unfold current_tail, has_pending_hop, set_last_receiver; simpl; rewrite El, last_snoc; done.
Qed.

(** ** Frames *)

(** Forwarding changes only the random generator and the counter of forwards, and
    sends paths to neighbours. *)
Lemma gen_bool_frame n pr n' b : gen_bool n pr = Ret (n', b) -> n' = set_rng n (n_failure_rng n').
Proof. unfold gen_bool. case_match; [done|]. destruct (next_bool _ _). by intros [= <- _]. Qed.

Lemma set_rng_twice n r1 r2 : set_rng (set_rng n r1) r2 = set_rng n r2.
Proof. done. Qed.

Lemma set_rng_self n : set_rng n (n_failure_rng n) = n.
Proof. by destruct n. Qed.

(** A message that carries no blocks of a chain. *)
Definition is_path_msg (s : Send F) : Prop :=
  match s with ToNode _ (SendTransactionPaths _ _) => True | _ => False end.

Lemma offer_path_msg n p w nb s : offer n p w nb = Some s -> is_path_msg s.
Proof. unfold offer. destruct (append_outgoing_hop _ _ _) as [? []]; [|done]. by intros [= <-]. Qed.

Lemma forward_frame online_at from p l : forall i n sh n' sh' out,
  forward online_at i n sh p from l = Ret (n', sh', out) ->
  n' = set_rng n (n_failure_rng n') /\ sh_mempools sh' = sh_mempools sh
  /\ sh_registry sh' = sh_registry sh /\ Forall is_path_msg out.
Proof.
  induction l as [|nb l IH]; intros i n sh n' sh' out; simpl.
  { intros [= <- <- <-]. by rewrite set_rng_self. }
  destruct (negb (online_at i)); [intros [= <- <- <-]; by rewrite set_rng_self|].
  case_decide; [apply IH|].
  destruct (should_forward_relay_path n) as [[n1 go]|] eqn:Eg; simpl; [|done].
  apply gen_bool_frame in Eg as ->. destruct (negb go).
  { intros (Hn & Hrest)%IH. split; [exact Hn|done]. }
  destruct (offer _ p _ nb) as [msg|] eqn:Eo.
  - destruct (forward _ _ _ _ _ _ _) as [[[n2 sh2] out2]|] eqn:Ef; simpl; [|done].
    intros [= <- <- <-]. apply IH in Ef as (Hn & Hm & Hr & Hout).
    split_and!; [exact Hn|done..|]. constructor; [by eapply offer_path_msg|done].
  - intros (Hn & Hrest)%IH. split; [exact Hn|done].
Qed.

Lemma forged_offers_paths n p w from : Forall is_path_msg (forged_offers n p w from).
Proof.
  unfold forged_offers. apply Forall_forall. intros s Hs. apply list_elem_of_omap in Hs as (nb & _ & Hs).
  case_decide; [done|]. by eapply offer_path_msg.
Qed.

(** ** The invariant of a node *)

(** Blocks in a message are blocks of a well-formed chain. *)
Definition good_msg (cap : nat) (msg : Message F) : Prop :=
  match msg with ResponseBlockSync l _ => good_blocks cap l | _ => True end.
Definition good_send (cap : nat) (s : Send F) : Prop :=
  match s with ToNode _ msg | ToWorld msg => good_msg cap msg end.

Lemma path_msg_good cap out : Forall is_path_msg out -> Forall (good_send cap) out.
Proof. intros Hf. eapply Forall_impl; [exact Hf|]. by intros [? []|]. Qed.

(** What a handler leaves: a well-formed chain, typed mempools, and messages whose
    blocks are well formed. *)
Definition node_good (cap : nat) n sh (out : list (Send F)) : Prop :=
  good_chain cap (n_blockchain n) /\ shared_typed sh /\ Forall (good_send cap) out.

Lemma node_good_quiet cap n sh : good_chain cap (n_blockchain n) -> shared_typed sh -> node_good cap n sh [].
Proof. intros. split_and!; [done|done|by apply Forall_nil_2]. Qed.

Section handlers.
Context (cap : nat).

Lemma remove_own_typed n sh hashes :
  shared_typed sh -> shared_typed (set_own_mempool n sh (remove_all hashes (own_mempool n sh))).
Proof. intros Hs. apply set_mempool_typed; [done|]. by apply remove_all_typed, mempool_of_typed. Qed.

Lemma on_send_block_good n sh b from n' sh' out :
  good_chain cap (n_blockchain n) -> shared_typed sh ->
  on_send_block n sh b from = Ret (n', sh', out) -> node_good cap n' sh' out.
Proof.
  intros Hg Hs. unfold on_send_block.
  destruct (add_block (n_blockchain n) b) as [[bc r]|] eqn:E; simpl; [|done].
  pose proof (add_block_good _ _ _ _ _ Hg E) as Hg'. destruct r as [[]|e].
  - intros [= <- <- <-]. split_and!; [done|by apply remove_own_typed|].
    apply Forall_forall. intros s (nb & _ & Hnb)%list_elem_of_omap. case_decide; [done|]. by simplify_eq.
  - destruct e; try (intros [= <- <- <-]; by apply node_good_quiet).
    destruct (get_last_index bc); simpl; [|done]. case_match; intros [= <- <- <-]; [by apply node_good_quiet|].
    split_and!; [done..|]. by repeat constructor.
Qed.

Lemma forward_good n sh online_at p from n' sh' out :
  good_chain cap (n_blockchain n) -> shared_typed sh ->
  forward online_at 0 n sh p from (n_neighbors n) = Ret (n', sh', out) -> node_good cap n' sh' out.
Proof.
  intros Hg Hs (Hn & Hm & _ & Hout)%forward_frame. rewrite Hn. split_and!; [done| |by apply path_msg_good].
  unfold shared_typed. by rewrite Hm.
Qed.

Lemma on_transaction_paths_good n sh online_at p from n' sh' out :
  good_chain cap (n_blockchain n) -> shared_typed sh ->
  on_transaction_paths online_at n sh p from = Ret (n', sh', out) -> node_good cap n' sh' out.
Proof.
  intros Hg Hs. unfold on_transaction_paths. case_match; [intros [= <- <- <-]; by apply node_good_quiet|].
  case_decide; [intros [= <- <- <-]; by apply node_good_quiet|].
  destruct (complete_pending_hop _ _ _ _) as [[[c p'] ok]|] eqn:Ec; simpl; [|done].
  destruct ok; simpl; [|intros [= <- <- <-]; by apply node_good_quiet].
  pose proof (complete_pending_hop_typed _ _ _ _ _ _ Ec) as Het.
  match goal with |- context [set_own_mempool n ?s ?m] => set (sh1 := set_own_mempool n s m) end.
  assert (Hs1 : shared_typed sh1).
  { apply set_mempool_typed; [done|]. apply insert_typed; [by apply mempool_of_typed|].
    destruct Het as [Hk Ht Hp]. by split. }
  destruct (n_type n) eqn:Et; try (by apply forward_good).
  - destruct (gen_bool _ _) as [[n1 dropped]|] eqn:Eg; simpl; [|done]. apply gen_bool_frame in Eg.
    assert (Hc1 : n_blockchain n1 = n_blockchain n) by (by rewrite Eg).
    destruct dropped; [intros [= <- <- <-]; apply node_good_quiet; [by rewrite Hc1|done]|].
    intros Hf. eapply forward_good; [|exact Hs1|].
    + by rewrite Hc1.
    + exact Hf.
  - destruct (forge _ _ _ _ _) as [[[c1 fp] w1]|]; simpl; [|done]. intros [= <- <- <-].
    split_and!; [done|done|]. apply path_msg_good, forged_offers_paths.
Qed.

Lemma generate_block_good now n sh epoch slot n' sh' r :
  good_chain cap (n_blockchain n) -> shared_typed sh ->
  generate_block now n sh epoch slot = Ret (n', sh', r) ->
  good_chain cap (n_blockchain n') /\ shared_typed sh'.
Proof.
  intros Hg Hs. unfold generate_block.
  match goal with |- context [packed_block (sh_registry ?s)] => set (sh1 := s) end.
  assert (Hs1 : shared_typed sh1) by (unfold sh1; case_decide; [done|by apply remove_own_typed]).
  destruct (packed_block _ _ _ _ _ _ _) as [[b|e]|]; simpl; [|by intros [= <- <- _]|done].
  destruct (add_block (n_blockchain n) b) as [[bc r']|] eqn:E; simpl; [|done].
  pose proof (add_block_good _ _ _ _ _ Hg E) as Hg'. destruct r'; intros [= <- <- _]; done.
Qed.

Lemma on_generate_block_good now n sh n' sh' out :
  good_chain cap (n_blockchain n) -> shared_typed sh ->
  on_generate_block now n sh = Ret (n', sh', out) -> node_good cap n' sh' out.
Proof.
  intros Hg Hs. unfold on_generate_block. case_match; [intros [= <- <- <-]; by apply node_good_quiet|].
  destruct (get_last_block (n_blockchain n)); simpl; [|done].
  destruct (generate_block _ _ _ _ _) as [[[n1 sh1] r]|] eqn:E; simpl; [|done].
  apply generate_block_good in E as [Hg1 Hs1]; [|done..].
  destruct r; intros [= <- <- <-]; [|by apply node_good_quiet]. split_and!; [done..|].
  apply Forall_app. split; [|by repeat constructor]. apply Forall_forall.
  intros s (nb & -> & _)%list_elem_of_fmap. done.
Qed.

Lemma on_generate_transaction_good now n sh to n' sh' out :
  good_chain cap (n_blockchain n) -> shared_typed sh ->
  on_generate_transaction now n sh to = Ret (n', sh', out) -> node_good cap n' sh' out.
Proof.
  intros Hg Hs. unfold on_generate_transaction.
  destruct (deduct_balance n _) as [n1 paid] eqn:Ed.
  assert (Hn1 : n_blockchain n1 = n_blockchain n /\ n_wallet n1 = n_wallet n).
  { unfold deduct_balance in Ed. destruct (f_geb _ _); by injection Ed as <- _. }
  destruct Hn1 as [Hc1 Hw1]. destruct paid; simpl.
  2:{ intros [= <- <- <-]. apply node_good_quiet; [by rewrite Hc1|done]. }
  case_decide.
  { intros [= <- <- <-]. split_and!; [by rewrite Hc1|done|by repeat constructor]. }
  match goal with |- context [set_own_mempool n1 sh ?m] => set (sh1 := set_own_mempool n1 sh m) end.
  assert (Hs1 : shared_typed sh1).
  { apply set_mempool_typed; [done|]. apply insert_typed; [by apply mempool_of_typed|]. done. }
  destruct (n_type n1).
  3:{ destruct (forge _ _ _ _ _) as [[[c1 fp] w1]|]; simpl; [|done]. intros [= <- <- <-].
      split_and!; [by rewrite Hc1|done|]. constructor; [done|]. apply path_msg_good, forged_offers_paths. }
  all: intros [= <- <- <-]; split_and!; [by rewrite Hc1|done|]; constructor; [done|]; apply path_msg_good;
    apply Forall_forall; intros s (nb & _ & Hnb)%list_elem_of_omap; by eapply offer_path_msg.
Qed.

Lemma sync_requests_good n : Forall (good_send cap) (sync_requests n).
Proof. apply Forall_forall. by intros s (nb & -> & _)%list_elem_of_fmap. Qed.

Lemma on_update_slot_good n sh slot n' sh' out :
  good_chain cap (n_blockchain n) -> shared_typed sh ->
  on_update_slot n sh slot = Ret (n', sh', out) -> node_good cap n' sh' out.
Proof.
  intros Hg Hs. unfold on_update_slot.
  match goal with |- context [set_online_last_slot ?a ?b] => set (n1 := set_online_last_slot a b) end.
  match goal with |- context [if ?c then sync_requests ?a else []] =>
    set (out1 := if c then sync_requests a else []) end.
  assert (Hout1 : Forall (good_send cap) out1).
  { unfold out1. case_match; [apply sync_requests_good|by apply Forall_nil_2]. }
  assert (Hg1 : good_chain cap (n_blockchain n1)) by done. clearbody n1 out1.
  destruct (n_type _); try (intros [= <- <- <-]; by split_and!).
  cbv zeta. set (back := match n_offline_until n1 with Some e => _ | None => false end).
  set (n2 := if back then set_online n1 true None else n1).
  assert (Hg2 : good_chain cap (n_blockchain n2)) by (unfold n2; by destruct back).
  set (out2 := out1 ++ (if back then sync_requests n1 else [])).
  assert (Hout2 : Forall (good_send cap) out2).
  { apply Forall_app. split; [done|]. destruct back; [apply sync_requests_good|by apply Forall_nil_2]. }
  clearbody n2 out2. case_match; [|intros [= <- <- <-]; by split_and!].
  destruct (gen_bool n2 _) as [[n3 fails]|] eqn:Eg; simpl; [|done]. apply gen_bool_frame in Eg.
  assert (Hg3 : good_chain cap (n_blockchain n3)) by (by rewrite Eg).
  intros [= <- <- <-]. split_and!; [by destruct fails|done|done].
Qed.

Lemma blocks_from_good bc i : good_chain cap bc -> good_blocks cap (blocks_from bc i).
Proof.
  intros Hg. pose proof (good_chain_blocks _ _ Hg) as Hb. unfold blocks_from.
  destruct (head (blocks bc)) as [b|] eqn:E.
  - case_match; [by apply good_blocks_drop|done].
  - destruct (blocks bc); [|done]. done.
Qed.

Lemma on_request_sync_good n sh i from n' sh' out :
  good_chain cap (n_blockchain n) -> shared_typed sh ->
  on_request_sync n sh i from = Ret (n', sh', out) -> node_good cap n' sh' out.
Proof.
  intros Hg Hs. unfold on_request_sync. case_match; [intros [= <- <- <-]; by apply node_good_quiet|].
  case_decide.
  { intros [= <- <- <-]. split_and!; [done..|]. apply Forall_singleton. by apply good_chain_blocks. }
  case_decide; [intros [= <- <- <-]; by apply node_good_quiet|].
  case_decide; [intros [= <- <- <-]; by apply node_good_quiet|].
  destruct (List.find _ _); intros [= <- <- <-]; [|by apply node_good_quiet].
  split_and!; [done..|]. apply Forall_singleton. by apply blocks_from_good.
Qed.

Lemma on_response_sync_good n sh l from n' sh' out :
  good_chain cap (n_blockchain n) -> shared_typed sh -> good_blocks cap l ->
  on_response_sync n sh l from = Ret (n', sh', out) -> node_good cap n' sh' out.
Proof.
  intros Hg Hs Hl. unfold on_response_sync.
  destruct (head l) as [fb|] eqn:Eh; [|intros [= <- <- <-]; by apply node_good_quiet].
  destruct (last l) as [lb|]; [|intros [= <- <- <-]; by apply node_good_quiet].
  assert (Hne : l <> []) by (by intros ->).
  case_decide.
  { unfold replace_local_chain_with_snapshot. intros [= <- <- <-].
    apply node_good_quiet; [by apply replace_chain_good|]. case_decide; [done|by apply remove_own_typed]. }
  destruct (get_last_index (n_blockchain n)) as [ci|]; simpl; [|done].
  case_match; [intros [= <- <- <-]; by apply node_good_quiet|].
  case_match.
  { intros [= <- <- <-]. apply node_good_quiet; [by apply replace_chain_good|by apply remove_own_typed]. }
  destruct (resolve_fork _ _ _) as [[bc added]|] eqn:Er; simpl; [|done]. intros [= <- <- <-].
  apply node_good_quiet; [|by apply remove_own_typed].
  eapply resolve_fork_good; [exact Hg|apply Hl|exact Er].
Qed.

Lemma on_become_validator_good n sh stakes n' sh' out :
  good_chain cap (n_blockchain n) -> shared_typed sh ->
  on_become_validator n sh stakes = Ret (n', sh', out) -> node_good cap n' sh' out.
Proof.
  intros Hg Hs. unfold on_become_validator. simpl.
  destruct (n_type n); intros [= <- <- <-]; (split_and!; [done..|]; constructor; [done|]);
    try by apply Forall_nil_2.
  apply Forall_forall. by intros s (nb & -> & _)%list_elem_of_fmap.
Qed.

(** Every message leaves a node in a good state. *)
Lemma handle_good rd n sh msg n' sh' out :
  good_chain cap (n_blockchain n) -> shared_typed sh -> good_msg cap msg ->
  handle rd n sh msg = Ret (n', sh', out) -> node_good cap n' sh' out.
Proof.
  intros Hg Hs Hm. unfold handle.
  destruct msg; try (by apply on_update_slot_good);
    (destruct (_ || _); [intros [= <- <- <-]; first [by apply node_good_quiet | split_and!; [done|done|by apply Forall_singleton]]|]);
    try (intros [= <- <- <-]; by apply node_good_quiet).
  - by apply on_send_block_good.
  - by apply on_transaction_paths_good.
  - by apply on_generate_block_good.
  - by apply on_generate_transaction_good.
  - intros [= <- <- <-]. split_and!; [done..|by repeat constructor].
  - by apply on_become_validator_good.
  - by apply on_request_sync_good.
  - by apply on_response_sync_good.
Qed.

End handlers.

(** ** A hop between two nodes *)

(** A node that takes part and has not seen the transaction. *)
Record ready_for n sh (h : string) : Prop := {
  rf_online : n_is_online n = true;
  rf_available : available sh (get_address n) = true;
  rf_new : exist_transaction (n_blockchain n) h = false;
  rf_absent : own_mempool n sh !! h = None;
  rf_honest : n_type n = Honest
}.

(** The forwarding probability is one a generator accepts. *)
Definition probability_ok n : Prop :=
  f_leb f0 (relay_forward_probability n) && f_leb (relay_forward_probability n) f1 = true.

Lemma forward_total online_at from p l : forall i n sh,
  probability_ok n -> exists n' sh' out, forward online_at i n sh p from l = Ret (n', sh', out).
Proof.
  induction l as [|nb l IH]; intros i n sh Hp; simpl; [by eauto|].
  destruct (negb (online_at i)); [by eauto|]. case_decide; [by apply IH|].
  unfold should_forward_relay_path, gen_bool. pose proof Hp as Hp'. unfold probability_ok in Hp'. rewrite Hp'. simpl.
  destruct (next_bool _ _) as [go rng]. simpl. destruct (negb go); [by apply IH|].
  destruct (offer _ p _ nb); [|by apply IH].
  destruct (IH (S i) (set_rng n rng) (count_forward sh (get_address (set_rng n rng))) Hp) as (n' & sh' & out & ->).
  simpl. eauto.
Qed.

Lemma mempool_of_set sh addr m : mempool_of (set_mempool sh addr m) addr = m.
Proof. unfold mempool_of, get_or. simpl. by rewrite lookup_insert_eq. Qed.

Lemma honest_receives rd n sh p from c p' :
  ready_for n sh (path_hash p) -> probability_ok n ->
  complete_pending_hop (sh_registry sh) (sh_caches sh) p (n_wallet n) = Ret (c, p', true) ->
  exists n' sh' out,
    handle rd n sh (SendTransactionPaths p from) = Ret (n', sh', out)
    /\ n' = set_rng n (n_failure_rng n') /\ own_mempool n sh' !! path_hash p = Some p'.
Proof.
  intros [Hon Hav Hnew Habs Hty] Hp Hc. unfold handle. rewrite Hon, Hav. simpl.
  unfold on_transaction_paths. rewrite Hnew, decide_False by (rewrite Habs; by intros [? ?]).
  rewrite Hc. simpl. rewrite Hty.
  match goal with |- context [forward _ _ _ ?s _ _ _] => set (sh1 := s) end.
  destruct (forward_total (rd_online_at rd) from p' (n_neighbors n) 0 n sh1 Hp) as (n' & sh' & out & Hf).
  exists n', sh', out. split; [done|]. apply forward_frame in Hf as (Hn & Hm & _ & _). split; [done|].
  unfold own_mempool, mempool_of. rewrite Hm. fold (mempool_of sh1 (get_address n)).
  unfold sh1, set_own_mempool. rewrite mempool_of_set.
  apply complete_pending_hop_typed in Hc as [-> _ _]. apply lookup_insert_eq.
Qed.

(** A hop between two nodes succeeds.  A node whose copy of a path is complete
    offers it to a neighbour that is not yet on the path; an honest neighbour that is
    online, does not know the transaction and has not acknowledged it before handles
    the message, and its mempool then holds the path extended by exactly that hop,
    signed and acknowledged, complete again: ready for the next hop. *)
Theorem relayed_path_arrives `{!CryptoLaws} (rd : Readings) (n1 n2 : Node F St) (sh : Shared F)
    (p : TransactionPaths F) (nb : Neighbor) :
  registered (sh_registry sh) (n_wallet n1) -> registered (sh_registry sh) (n_wallet n2) ->
  complete_upto (sh_registry sh) p (n_wallet n1) ->
  nb_address nb = get_address n2 -> get_address n2 ∉ node_sequence p ->
  receipt_commitments (sh_caches sh) !! receipt_key p (get_address n2) = None ->
  ready_for n2 sh (path_hash p) -> probability_ok n2 ->
  exists msg n2' sh' out p',
    offer n1 p (n_wallet n1) nb = Some (ToNode (get_address n2) msg)
    /\ handle rd n2 sh msg = Ret (n2', sh', out)
    /\ own_mempool n2 sh' !! path_hash p = Some p'
    /\ node_sequence p' = node_sequence p ++ [get_address n2]
    /\ complete_upto (sh_registry sh) p' (n_wallet n2).
Proof.
  intros Hr1 Hr2 Hc Hnb Hin Hrc Hrf Hp.
  destruct (relay_one (sh_registry sh) (sh_caches sh) p _ _ Hr1 Hr2 Hc Hin Hrc) as (cm & h & Happ & Hrest).
  unfold append_completed_hop in Happ. unfold offer. rewrite Hnb. unfold get_address in *.
  destruct (append_outgoing_hop p (address (n_wallet n2)) (n_wallet n1)) as [p1 ok] eqn:Ea.
  destruct ok; [|done].
  assert (Hh1 : path_hash p1 = path_hash p).
  { revert Ea. unfold append_outgoing_hop. repeat case_match; intros [= <-]; done. }
  rewrite <- Hh1 in Hrf. rewrite <- Hh1.
  destruct (honest_receives rd n2 sh p1 (address (n_wallet n1)) _ _ Hrf Hp Happ) as (n' & sh' & out & Hh & _ & Hm).
  destruct Hrest as [Hto Hcomplete].
  eexists _, n', sh', out, _. split_and!; [done|exact Hh|exact Hm| |exact Hcomplete].
  rewrite node_sequence_app. simpl. by rewrite Hto.
Qed.

(** A node admits a transaction it has not verified: a transaction that names the
    node itself as its sender, with a signature that does not verify, arrives with
    an empty path from anybody, and the node stores it in its mempool (and offers
    it to its neighbours).  An empty path is acknowledged on the sender's name
    alone. *)
Theorem unverified_transaction_admitted (rd : Readings) (n : Node F St) (sh : Shared F)
    (t : Transaction F) (epoch : Z) (from : string) :
  Transaction_verify t = Ret false -> tx_from t = get_address n ->
  ready_for n sh (tx_hash t) -> probability_ok n ->
  exists n' sh' out,
    handle rd n sh (SendTransactionPaths (new_with_epoch t epoch) from) = Ret (n', sh', out)
    /\ own_mempool n sh' !! tx_hash t = Some (new_with_epoch t epoch).
Proof.
  intros _ Hf Hrf Hp.
  destruct (honest_receives rd n sh (new_with_epoch t epoch) from (sh_caches sh) (new_with_epoch t epoch))
    as (n' & sh' & out & Hh & _ & Hm); [done|done| |by eauto].
  unfold complete_pending_hop. simpl. by rewrite bool_decide_true.
Qed.

(** The validators a node announces. *)
Definition announced (out : list (Send F)) : list (Validator F) :=
  omap (fun s => match s with ToWorld (ReceiveBecomeValidator v) => Some v | _ => None end) out.

End nodefacts.

(** ** Stake of a Sybil node *)

Section sybil.
Local Open Scope R_scope.
Context {St : Type} `{Crypto} `{TxSerde R} `{BlockSerde} `{MapOrder} `{MetaSerde} `{RngBool R St}.

Lemma announced_sybils (l : list (Node R St)) (stake : R) :
  announced (map (fun s => ToWorld (ReceiveBecomeValidator (mkValidator (get_address s) stake (n_hash_power s)))) l)
  = map (fun s => mkValidator (get_address s) stake (n_hash_power s)) l.
Proof. induction l as [|s l IH]; [done|]. simpl. f_equal. apply IH. Qed.

Lemma announced_cons (v : Validator R) out :
  announced (ToWorld (ReceiveBecomeValidator v) :: out) = v :: announced out.
Proof. done. Qed.

(** Fake identities do not create stake: however many identities a Sybil node
    announces, one validator each, their stakes are equal and add up to the stake
    the node was given; a node of another type announces itself with all of it. *)
Theorem sybil_stake_conserved (rd : Readings) (n n' : Node R St) (sh sh' : Shared R)
    (stakes : gmap string R) (out : list (Send R)) :
  n_is_online n = true -> available sh (get_address n) = true ->
  handle rd n sh (BecomeValidator stakes) = Ret (n', sh', out) ->
  n_balance n' = get_or (n_balance n) stakes (get_address n)
  /\ fsum (map v_stake (announced out)) = n_balance n'
  /\ map v_address (announced out)
     = get_address n :: match n_type n with Sybil => map get_address (n_sybil_nodes n) | _ => [] end.
Proof.
  intros Hon Hav. unfold handle. rewrite Hon, Hav. simpl. unfold on_become_validator.
  set (stake := get_or (n_balance n) stakes (get_address n)). simpl n_type.
  destruct (n_type n); intros [= <- <- <-]; (split; [done|]);
    try (split; [|done]; rewrite announced_cons; change (announced []) with (@nil (Validator R));
      cbn [map v_stake]; rewrite fsum_cons, fsum_nil; simpl n_balance; lra).
  cbv beta zeta. rewrite announced_cons. change (n_sybil_nodes (set_balance n stake)) with (n_sybil_nodes n).
  set (k := length (n_sybil_nodes n)).
  set (part := stake / IZR (Z.of_nat (k + 1))).
  rewrite announced_sybils. cbn [map]. rewrite !map_map, fsum_cons. cbn [v_stake v_address]. split; [|done].
  assert (Hsum : forall l : list (Node R St), fsum (map (fun _ => part) l) = INR (length l) * part).
  { induction l as [|x l IH]; cbn [map]; [rewrite fsum_nil; simpl; lra|]. rewrite fsum_cons, IH.
    cbn [length]. rewrite S_INR. lra. }
  rewrite Hsum. fold k. unfold part. rewrite <- INR_IZR_INZ, plus_INR. simpl.
  pose proof (pos_INR k). field. lra.
Qed.

End sybil.
