(* ===== verification/Packing.v ===== *)
(** * The transactions a block takes from a mempool

    [to_pack] of [Shared], over the reals: an optimal selection. *)

From Stdlib Require Import Reals Lra Sorted.
From stdpp Require Import sorting.
From S2P Require Export NodeFacts.
Local Open Scope rust_scope.

Section packing.
Context `{Crypto} `{TxSerde R} `{BlockSerde} `{MapOrder} `{!MapOrderLaws}.
Implicit Types (p q : TransactionPaths R) (m : Mempool R) (bc : Blockchain R).

Lemma pack_le_R p q :
  pack_le p q <->
  (tx_fee (tp_transaction q) < tx_fee (tp_transaction p))%R
  \/ (tx_fee (tp_transaction q) <= tx_fee (tp_transaction p))%R
     /\ (tx_timestamp (tp_transaction p) <= tx_timestamp (tp_transaction q))%Z.
Proof.
  unfold pack_le. change (f_ltb (F := R)) with Rltb. rewrite Rltb_lt.
  destruct (Rltb (tx_fee (tp_transaction p)) (tx_fee (tp_transaction q))) eqn:E.
  - apply Rltb_lt in E. split; [naive_solver|]. intros [?|[? ?]]; [by left|lra].
  - apply Rltb_ge in E. split; [naive_solver|]. intros [?|[_ ?]]; [by left|by right].
Qed.

#[local] Instance pack_le_total : Total (pack_le (F := R)).
Proof.
  intros p q. rewrite !pack_le_R.
  destruct (Rtotal_order (tx_fee (tp_transaction p)) (tx_fee (tp_transaction q))) as [?|[?|?]];
    [right; left; lra| |left; left; lra].
  destruct (Z.le_ge_cases (tx_timestamp (tp_transaction p)) (tx_timestamp (tp_transaction q)));
    [left|right]; right; (split; [lra|done]).
Qed.

#[local] Instance pack_le_trans : Transitive (pack_le (F := R)).
Proof.
  intros p q r. rewrite !pack_le_R. intros [?|[? ?]] [?|[? ?]]; try (left; lra). right. split; [lra|lia].
Qed.

(** The transactions of a mempool that a block on top of [bc] may take. *)
Definition packable bc m : list (TransactionPaths R) :=
  filter (fun p => exist_transaction bc (path_hash p) = false) (map snd (map_to_list m)).

(** Every entry is stored under its own hash. *)
Definition keyed m : Prop := map_Forall (fun h p => path_hash p = h) m.

Lemma typed_keyed addr m : mempool_typed addr m -> keyed m.
Proof. intros Hm h p Hp. by destruct (Hm h p Hp). Qed.

Lemma packable_spec bc m p : keyed m ->
  p ∈ packable bc m <-> m !! path_hash p = Some p /\ exist_transaction bc (path_hash p) = false.
Proof.
  intros Hk. unfold packable. rewrite list_elem_of_filter, list_elem_of_fmap. split.
  - intros (He & [h q] & Hq & Hin). simpl in Hq. subst q. apply elem_of_map_to_list in Hin.
    split; [by rewrite (Hk _ _ Hin)|done].
  - intros (Hm & He). split; [done|]. exists (path_hash p, p). split; [done|]. by apply elem_of_map_to_list.
Qed.

Lemma packable_nodup bc m : keyed m -> NoDup (packable bc m).
Proof.
  intros Hk. apply NoDup_filter. pose proof (NoDup_fst_map_to_list m) as Hnd.
  assert (Hall : Forall (fun hp => path_hash hp.2 = hp.1) (map_to_list m)).
  { apply Forall_forall. intros [h p] Hp. apply elem_of_map_to_list in Hp. exact (Hk _ _ Hp). }
  induction (map_to_list m) as [|[h p] l IH]; simpl; [constructor|].
  inversion_clear Hall as [|? ? Hp Hl]. apply NoDup_cons in Hnd as [Hh Hnd]. apply NoDup_cons. split; [|by apply IH].
  intros Hin. apply Hh. apply list_elem_of_fmap in Hin as ([h' p'] & Heq & Hin). simpl in *. subst p'.
  apply list_elem_of_fmap. exists (h', p). split; [|done]. simpl. rewrite Forall_forall in Hl.
  specialize (Hl _ Hin). simpl in *. congruence.
Qed.

Lemma to_pack_prefix n bc m :
  exists rest, to_pack n bc m ++ rest ≡ₚ packable bc m
    /\ StronglySorted pack_le (to_pack n bc m ++ rest)
    /\ length (to_pack n bc m) = Nat.min n (length (packable bc m)).
Proof.
  unfold to_pack. set (l := filter _ _).
  assert (Hl : l ≡ₚ packable bc m).
  { unfold l, packable. apply filter_Permutation, Permutation_map, iter_map_perm. }
  exists (drop n (merge_sort pack_le l)). rewrite take_drop, length_take. split_and!.
  - by rewrite merge_sort_Permutation.
  - apply StronglySorted_merge_sort; apply _.
  - rewrite merge_sort_Permutation, Hl. lia.
Qed.

Lemma StronglySorted_app_inv {A} (R : A -> A -> Prop) l1 l2 :
  StronglySorted R (l1 ++ l2) -> StronglySorted R l1 /\ forall x y, x ∈ l1 -> y ∈ l2 -> R x y.
Proof.
  induction l1 as [|a l1 IH]; simpl; intros Hs; [split; [constructor|by intros ? ? ?%elem_of_nil]|].
  inversion_clear Hs as [|? ? Hs' Hf]. destruct (IH Hs') as [Hs1 Hc]. apply Forall_app in Hf as [Hf1 Hf2].
  split; [by constructor|]. intros x y [->|Hx]%elem_of_cons Hy; [by eapply Forall_forall|by apply Hc].
Qed.

(** A block takes the best transactions: from a mempool whose entries are stored
    under their own hash, [to_pack] selects distinct entries that are not in the
    chain, as many as fit, ordered by fee (highest first) and then by age, and every
    packable transaction that is left out comes after every one that was taken;
    removing the packed ones then leaves exactly the others. *)
Theorem packing_is_best (max_tx : nat) bc m :
  keyed m ->
  let packed := to_pack max_tx bc m in
  (forall p, p ∈ packed -> m !! path_hash p = Some p /\ exist_transaction bc (path_hash p) = false)
  /\ NoDup packed /\ StronglySorted pack_le packed
  /\ length packed = Nat.min max_tx (length (packable bc m))
  /\ (forall p q, p ∈ packed -> q ∈ packable bc m -> q ∉ packed -> pack_le p q)
  /\ (forall h p, remove_all (map path_hash packed) m !! h = Some p <-> m !! h = Some p /\ p ∉ packed).
Proof.
  intros Hk packed. destruct (to_pack_prefix max_tx bc m) as (rest & Hp & Hs & Hlen). fold packed in Hp, Hs, Hlen.
  pose proof (packable_nodup bc m Hk) as Hnd. rewrite <- Hp in Hnd. apply NoDup_app in Hnd as (Hnd & _ & _).
  apply StronglySorted_app_inv in Hs as [Hs Hrest].
  assert (Hin : forall p, p ∈ packed -> m !! path_hash p = Some p /\ exist_transaction bc (path_hash p) = false).
  { intros p Hpp. apply packable_spec; [done|]. rewrite <- Hp. apply elem_of_app. by left. }
  split_and!; try done.
  - intros p q Hpp Hq Hnq. apply Hrest; [done|]. rewrite <- Hp in Hq. apply elem_of_app in Hq. tauto.
  - intros h p. rewrite remove_all_lookup. case_decide as Hh.
    + split; [done|]. intros [Hm Hnp]. destruct Hnp. apply list_elem_of_fmap in Hh as (q & -> & Hq).
      destruct (Hin q Hq) as [Hmq _]. congruence.
    + split; [|tauto]. intros Hm. split; [done|]. intros Hpp. apply Hh. rewrite <- (Hk _ _ Hm).
      by apply list_elem_of_fmap_2.
Qed.

End packing.
