(* ===== verification/WorldReport.v ===== *)
(** * Reports of the world state

    The measurements of src/src/network/world_state.rs that are functions of the
    blocks of an epoch, the validators and the consensus snapshot: estimated
    rewards, raw contributions, organic capture, latencies and path counts, and the
    rows written for an epoch.  Path evidence is checked through [PathVerifier],
    as in [TopoStake]; unlike the protocol, the reports do not limit the number of
    hops. *)

From stdpp Require Import pretty.
From S2P Require Export Message Metrics Shared.
Local Open Scope rust_scope.

Record EpochRewardReport {F : Type} := mkRewardReport {
  proposer_by_address : gmap string F;
  relay_by_address : gmap string F;
  total_proposer_reward : F;
  total_relay_reward : F;
  burned_relay_fee : F
}.
Arguments EpochRewardReport : clear implicits.
Arguments mkRewardReport {F}.

Record OrganicCaptureReport {F : Type} := mkOrganicReport {
  oc_included_tx : Z;
  oc_valid_path_count : Z;
  oc_relay_reward : F;
  oc_adversary_relay_reward : F;
  oc_raw_contribution : F;
  oc_adversary_raw_contribution : F
}.
Arguments OrganicCaptureReport : clear implicits.
Arguments mkOrganicReport {F}.

Section report.
Context {F : Type} `{F64 F} `{PathVerifier F}.
Implicit Types (block : Block F) (blocks : list (Block F)) (validators : list (Validator F))
  (snapshot : ConsensusMetricsSnapshot F) (adversarial : gset string).

(** ** Evidence *)

(** [Block::verify_path_evidence]. *)
Definition evidence_ok block (idx : nat) : bool :=
  match transactions (body block) !! idx, paths (body block) !! idx with
  | Some tx, Some path => path_verifies path tx (h_miner (header block)) (h_epoch (header block))
  | _, _ => false
  end.

(** The identities of a path that counts: valid evidence of at least two hops. *)
Definition evidence_path block (idx : nat) : option (list string) :=
  match paths (body block) !! idx with
  | None => None
  | Some path =>
      if negb (evidence_ok block idx) then None else
      let nodes := full_path path (h_miner (header block)) in
      if decide (length nodes - 1 < 2) then None else Some nodes
  end.

(** ** Raw contribution *)

Definition ws_raw_epoch_contribution blocks validators snapshot : gmap string F :=
  let vset := validator_set validators in
  let depth := default 1 (ms_depth snapshot) in
  fold_left (fun raw block =>
    fold_left (fun raw itx =>
      match evidence_path block itx.1 with
      | None => raw
      | Some nodes =>
          let path_length := length nodes - 1 in
          fold_left (fun raw position =>
            let relayer := nth position nodes "" in
            if decide (relayer ∈ vset) then
              let g := gamma_for_depth depth position path_length in
              let q := transaction_credit_weight (tx_irrecoverable_cost (itx.2 : Transaction F))
                         (default f1 (ms_score_cost_reference snapshot)) in
              entry_update f0 (fun x => f_add x (f_mul q g)) relayer raw
            else raw) (relay_positions path_length) raw
      end) (enumerate (transactions (body block))) raw)
    blocks ∅.

(** ** Estimated rewards *)

Definition pay_relay (depth : nat) (vset : gset string) (relay_budget : F) (nodes : list string)
    (acc : F * gmap string F) (position : nat) : F * gmap string F :=
  let relayer := nth position nodes "" in
  if decide (relayer ∈ vset) then
    let amount := f_mul relay_budget (gamma_for_depth depth position (length nodes - 1)) in
    if f_gtb amount f0
    then (f_add acc.1 amount, entry_update f0 (fun x => f_add x amount) relayer acc.2) else acc
  else acc.

Definition estimate_transaction block (vset : gset string) (depth : nat) (theta : F)
    (r : EpochRewardReport F) (itx : nat * Transaction F) : EpochRewardReport F :=
  let relay_budget := f_mul (f_sub f1 theta) (tx_fee itx.2) in
  match evidence_path block itx.1 with
  | None => mkRewardReport (proposer_by_address r) (relay_by_address r) (total_proposer_reward r)
              (total_relay_reward r) (f_add (burned_relay_fee r) relay_budget)
  | Some nodes =>
      let '(paid, relay) := fold_left (pay_relay depth vset relay_budget nodes)
                              (relay_positions (length nodes - 1)) (f0, relay_by_address r) in
      mkRewardReport (proposer_by_address r) relay (total_proposer_reward r)
        (f_add (total_relay_reward r) paid)
        (f_add (burned_relay_fee r) (f_max (f_sub relay_budget paid) f0))
  end.

Definition estimate_block (base_reward : F) (vset : gset string) snapshot
    (r : EpochRewardReport F) block : EpochRewardReport F :=
  let theta := default f1 (ms_proposer_fee_ratio snapshot) in
  let total_fee := fsum (map tx_fee (transactions (body block))) in
  let proposer_reward := match ms_depth snapshot with
                         | Some _ => f_add base_reward (f_mul theta total_fee)
                         | None => f_add base_reward total_fee
                         end in
  let r := mkRewardReport
             (entry_update f0 (fun x => f_add x proposer_reward) (h_miner (header block)) (proposer_by_address r))
             (relay_by_address r) (f_add (total_proposer_reward r) proposer_reward)
             (total_relay_reward r) (burned_relay_fee r) in
  match ms_depth snapshot with
  | None => r
  | Some depth => fold_left (estimate_transaction block vset depth theta) (enumerate (transactions (body block))) r
  end.

Definition empty_reward_report : EpochRewardReport F := mkRewardReport ∅ ∅ f0 f0 f0.

Definition estimate_epoch_rewards (base_reward : F) blocks validators snapshot : EpochRewardReport F :=
  fold_left (estimate_block base_reward (validator_set validators) snapshot) blocks empty_reward_report.

Definition total_by_address `{MapOrder} (r : EpochRewardReport F) : gmap string F :=
  fold_left (fun totals ar => entry_update f0 (fun x => f_add x ar.2) ar.1 totals)
    (iter_map (relay_by_address r)) (proposer_by_address r).

(** ** Organic capture *)

Definition adversary_relay_reward_share (r : OrganicCaptureReport F) : F :=
  if f_gtb (oc_relay_reward r) f0 then f_div (oc_adversary_relay_reward r) (oc_relay_reward r) else f0.

Definition adversary_raw_contribution_share (r : OrganicCaptureReport F) : F :=
  if f_gtb (oc_raw_contribution r) f0
  then f_div (oc_adversary_raw_contribution r) (oc_raw_contribution r) else f0.

Definition capture_relay adversarial (vset : gset string) (depth : nat) (relay_budget q : F)
    (nodes : list string) (r : OrganicCaptureReport F) (position : nat) : OrganicCaptureReport F :=
  let relayer := nth position nodes "" in
  if decide (relayer ∈ vset) then
    let g := gamma_for_depth depth position (length nodes - 1) in
    let reward := f_mul relay_budget g in
    let contribution := f_mul q g in
    let adv := bool_decide (relayer ∈ adversarial) in
    mkOrganicReport (oc_included_tx r) (oc_valid_path_count r)
      (f_add (oc_relay_reward r) reward)
      (if adv then f_add (oc_adversary_relay_reward r) reward else oc_adversary_relay_reward r)
      (f_add (oc_raw_contribution r) contribution)
      (if adv then f_add (oc_adversary_raw_contribution r) contribution else oc_adversary_raw_contribution r)
  else r.

Definition capture_transaction adversarial (vset : gset string) (depth : nat) (theta cost_reference : F) block
    (r : OrganicCaptureReport F) (itx : nat * Transaction F) : OrganicCaptureReport F :=
  if decide (tx_from itx.2 ∈ adversarial) then r else
  let r := mkOrganicReport (u64_add (oc_included_tx r) 1) (oc_valid_path_count r) (oc_relay_reward r)
             (oc_adversary_relay_reward r) (oc_raw_contribution r) (oc_adversary_raw_contribution r) in
  match evidence_path block itx.1 with
  | None => r
  | Some nodes =>
      let r := mkOrganicReport (oc_included_tx r) (u64_add (oc_valid_path_count r) 1) (oc_relay_reward r)
                 (oc_adversary_relay_reward r) (oc_raw_contribution r) (oc_adversary_raw_contribution r) in
      fold_left (capture_relay adversarial vset depth (f_mul (f_sub f1 theta) (tx_fee itx.2))
                   (transaction_credit_weight (tx_irrecoverable_cost itx.2) cost_reference) nodes)
        (relay_positions (length nodes - 1)) r
  end.

Definition empty_organic_report : OrganicCaptureReport F := mkOrganicReport 0 0 f0 f0 f0 f0.

Definition organic_capture_report adversarial blocks validators snapshot : OrganicCaptureReport F :=
  let theta := default f1 (ms_proposer_fee_ratio snapshot) in
  let cost_reference := default f1 (ms_score_cost_reference snapshot) in
  match ms_depth snapshot with
  | None => empty_organic_report
  | Some depth =>
      fold_left (fun r block =>
        fold_left (capture_transaction adversarial (validator_set validators) depth theta cost_reference block)
          (enumerate (transactions (body block))) r) blocks empty_organic_report
  end.

(** ** Latency and path counts *)

Definition tx_logical_slot `{MetaSerde} (tx : Transaction F) (slots_per_epoch : Z) : option Z :=
  match meta_from_slice (tx_data tx) with
  | Some (created_epoch, created_slot) =>
      Some (u64_add (u64_mul created_epoch slots_per_epoch) created_slot)
  | None => None
  end.

Definition logical_time_seconds (epoch slot slots_per_epoch slot_duration : Z) : Z :=
  u64_mul (u64_add (u64_mul epoch slots_per_epoch) slot) slot_duration.

(** A row of the inclusion samples. *)
Record InclusionSample := mkSample {
  is_epoch : Z;
  is_tx_hash : string;
  is_created_slot : Z;
  is_included_slot : Z;
  is_latency : F;
  is_evidence_eligible : bool
}.

(** What the loop over the transactions of an epoch accumulates. *)
Record EpochScan := mkScan {
  es_latencies : list F;
  es_path_lengths : list F;
  es_valid : Z;
  es_invalid : Z;
  es_conflicts : Z;
  es_samples : list InclusionSample
}.

Definition scan_transaction `{MetaSerde} (c : PathCaches) (slot_per_epoch slot_duration : Z) (adjustment : F) block
    (s : EpochScan) (itx : nat * Transaction F) : EpochScan :=
  let '(idx, tx) := itx in
  let included_slot := u64_add (u64_mul (h_epoch (header block)) slot_per_epoch) (h_slot (header block)) in
  let eligible := evidence_ok block idx in
  let '(latencies, samples) :=
    match tx_logical_slot tx slot_per_epoch with
    | Some created_slot =>
        let slots := u64_sat_sub included_slot created_slot in
        let latency := f_max (f_add (f_mul (f_of_Z slots) (f_of_Z slot_duration)) adjustment) f0 in
        (es_latencies s ++ [latency],
         es_samples s ++ [mkSample (h_epoch (header block)) (tx_hash tx) created_slot included_slot latency eligible])
    | None => (es_latencies s, es_samples s)
    end in
  let '(path_lengths, conflicts) :=
    match paths (body block) !! idx with
    | Some path =>
        let nodes := full_path path (h_miner (header block)) in
        (es_path_lengths s ++ [f_of_nat (length nodes - 1)],
         fold_left (fun k receiver => u64_add k (conflicting_receipt_count c (tx_hash tx) (asp_epoch path) receiver))
           nodes (es_conflicts s))
    | None => (es_path_lengths s, es_conflicts s)
    end in
  mkScan latencies path_lengths
    (if eligible then u64_add (es_valid s) 1 else es_valid s)
    (if eligible then es_invalid s else u64_add (es_invalid s) 1) conflicts samples.

Definition scan_epoch `{MetaSerde} (c : PathCaches) (slot_per_epoch slot_duration : Z) (adjustment : F) blocks : EpochScan :=
  fold_left (fun s block =>
    fold_left (scan_transaction c slot_per_epoch slot_duration adjustment block)
      (enumerate (transactions (body block))) s) blocks (mkScan [] [] 0 0 0 []).

(** ** Weight bounds of the adversary *)

(** The proposer weights an epoch is measured with. *)
Definition proposer_weights validators snapshot : gmap string F :=
  if decide (ms_normalized_proposer_weights snapshot = ∅) then normalized_stake validators
  else ms_normalized_proposer_weights snapshot.

Definition damped_mass adversarial snapshot : F :=
  fsum (map (fun addr => get_or f0 (ms_normalized_score snapshot) addr) (elements adversarial)).

Definition stake_map validators : gmap string F := collect_map (map (fun v => (v_address v, v_stake v)) validators).

Definition score_dependent_bound adversarial validators snapshot : F :=
  let a := share_for adversarial (stake_map validators) in
  let eta := default f0 (ms_eta snapshot) in
  let bonus_cap := default f0 (ms_bonus_cap snapshot) in
  let zeta := default f1 (ms_bonus_zeta snapshot) in
  let coalition_bonus := if f_gtb a f0
                         then propagation_bonus (f_div (damped_mass adversarial snapshot) a) bonus_cap zeta
                         else f0 in
  let coalition_weight := f_mul a (f_add f1 (f_mul eta coalition_bonus)) in
  let whole := f_sub (f_add coalition_weight f1) a in
  if f_gtb whole f0 then f_div coalition_weight whole else f0.

Definition theoretical_bound adversarial validators snapshot : F :=
  let a := share_for adversarial (stake_map validators) in
  let c := f_mul (default f0 (ms_eta snapshot)) (default f0 (ms_bonus_cap snapshot)) in
  if f_gtb (f_add f1 (f_mul a c)) f0
  then f_div (f_mul a (f_add f1 c)) (f_add f1 (f_mul a c)) else f0.

Definition bound_violation adversarial validators snapshot : bool :=
  f_gtb (share_for adversarial (proposer_weights validators snapshot))
    (f_add (score_dependent_bound adversarial validators snapshot) (f_dec 1 9)).

End report.
Arguments InclusionSample : clear implicits.
Arguments EpochScan : clear implicits.
