(* ===== verification/WorldState.v ===== *)
(** * The world state

    src/src/network/world_state.rs: the task that advances slots and epochs, selects
    the proposer, builds and applies the canonical block, settles rewards into
    account balances and writes the metrics of the run.  The task holds its lock
    for a whole slot change and for a whole message, so each is one step here.

    The state is split in the part that is fixed once the network is built
    ([WorldConfig]), the outage scenario, the counters behind the metrics, and the
    rest.  Mempools and availability flags are shared with the nodes
    ([Shared]).  Rows for the metrics files are events, like the messages sent. *)

From Stdlib Require Import Ascii.
From stdpp Require Import pretty.
From S2P Require Export WorldReport.
Local Open Scope rust_scope.

Record RunSummary {F : Type} := mkRunSummary {
  rs_run_id : string;
  rs_completed_epochs : Z;
  rs_generated_tx : Z;
  rs_included_tx : Z;
  rs_success : Z;
  rs_failed : Z;
  rs_adversary_fee_spent : F;
  rs_adversary_reward_income : F;
  rs_adversary_net_income : F
}.
Arguments RunSummary : clear implicits.
Arguments mkRunSummary {F}.

(** A row of the proposer duties. *)
Record ProposerDuty {F : Type} := mkDuty {
  pd_epoch : Z;
  pd_slot : Z;
  pd_validator_id : string;
  pd_proposer_address : string;
  pd_proposer_stake : F;
  pd_proposer_weight : F;
  pd_outage_active : bool;
  pd_outage_group : bool;
  pd_scheduled_online : bool;
  pd_block_produced : bool;
  pd_failure_reason : string
}.
Arguments ProposerDuty : clear implicits.
Arguments mkDuty {F}.

(** What the world state does to its surroundings. *)
Inductive Event {F : Type} :=
  | Sent (s : Send F)
  | WroteSlot (m : SlotMetrics F)
  | WroteEpoch (m : EpochMetrics F)
  | WroteNode (m : NodeEpochMetrics F)
  | WroteSamples (l : list (InclusionSample F))
  | WroteDuty (d : ProposerDuty F)
  | WroteSummary (s : RunSummary F).
Arguments Event : clear implicits.

Record Outage := mkOutage {
  outage_start_epoch : Z;
  outage_duration_epochs : Z;
  outage_validator_indices : gset Z;
  outage_validator_addresses : gset string;
  outage_common_slot_randomness : bool
}.

Record EpochCounters {F : Type} := mkCounters {
  last_generated_tx_counter : Z;
  last_relay_forward_attempts : gmap string Z;
  epoch_proposer_counts : gmap string Z;
  total_included_tx : Z;
  total_reward_income : gmap string F;
  block_production_success : Z;
  block_production_failed : Z;
  last_block_production_success : Z;
  last_block_production_failed : Z
}.
Arguments EpochCounters : clear implicits.
Arguments mkCounters {F}.

(** [u64 as i64]. *)
Definition as_i64 (z : Z) : Z := if (z <? 2 ^ 63)%Z then z else (z - 2 ^ 64)%Z.

Definition derive_election_seed `{Crypto} (election_seed epoch slot block_index : Z) : bytes :=
  Hasher_hash (to_le_bytes 8 election_seed ++ to_le_bytes 8 epoch ++ to_le_bytes 8 slot
               ++ to_le_bytes 8 block_index).

Section world.
Context {F S : Type} `{F64 F} `{Crypto} `{TxSerde F} `{BlockSerde} `{MapOrder} `{MetaSerde}
  `{PathVerifier F} `{Consensus F S}.

(** What is fixed once the network is built; durations in seconds. *)
Record WorldConfig := mkWorldConfig {
  slot_duration : Z;
  slot_per_epoch : Z;
  election_seed : Z;
  wc_run_id : string;
  wc_base_reward : F;
  wc_max_epochs : Z;
  wc_max_tx_per_block : nat;
  wc_latency_adjustment : F;
  nodes_sender : gmap string unit;
  node_wallets : gmap string Wallet;
  node_relay_profiles : gmap string string;
  nodes_index : gmap string Z;
  adversarial_nodes : gset string;
  focal_relayer_nodes : gset string;
  node_degrees : gmap string Z;
  node_betweenness : gmap string F
}.

Record WorldState := mkWorld {
  w_config : WorldConfig;
  w_outage : Outage;
  w_slot : SlotManager;
  w_validators : list (Validator F);
  w_balances : gmap string F;
  w_blockchain : Blockchain F;
  w_consensus : S;
  w_counters : EpochCounters F;
  w_logical_slot : Z
}.

Implicit Types (w : WorldState) (sh : Shared F).

Definition w_set_slot w (slot : SlotManager) : WorldState :=
  mkWorld (w_config w) (w_outage w) slot (w_validators w) (w_balances w) (w_blockchain w) (w_consensus w)
    (w_counters w) (w_logical_slot w).
Definition w_set_balances w (m : gmap string F) : WorldState :=
  mkWorld (w_config w) (w_outage w) (w_slot w) (w_validators w) m (w_blockchain w) (w_consensus w)
    (w_counters w) (w_logical_slot w).
Definition w_set_chain w (bc : Blockchain F) : WorldState :=
  mkWorld (w_config w) (w_outage w) (w_slot w) (w_validators w) (w_balances w) bc (w_consensus w)
    (w_counters w) (w_logical_slot w).
Definition w_set_consensus w (s : S) : WorldState :=
  mkWorld (w_config w) (w_outage w) (w_slot w) (w_validators w) (w_balances w) (w_blockchain w) s
    (w_counters w) (w_logical_slot w).
Definition w_set_counters w (c : EpochCounters F) : WorldState :=
  mkWorld (w_config w) (w_outage w) (w_slot w) (w_validators w) (w_balances w) (w_blockchain w) (w_consensus w)
    c (w_logical_slot w).

Definition count_success w : WorldState :=
  let c := w_counters w in
  w_set_counters w (mkCounters (last_generated_tx_counter c) (last_relay_forward_attempts c)
    (epoch_proposer_counts c) (total_included_tx c) (total_reward_income c)
    (u64_add (block_production_success c) 1) (block_production_failed c)
    (last_block_production_success c) (last_block_production_failed c)).
Definition count_failure w : WorldState :=
  let c := w_counters w in
  w_set_counters w (mkCounters (last_generated_tx_counter c) (last_relay_forward_attempts c)
    (epoch_proposer_counts c) (total_included_tx c) (total_reward_income c)
    (block_production_success c) (u64_add (block_production_failed c) 1)
    (last_block_production_success c) (last_block_production_failed c)).
Definition count_proposer w (addr : string) : WorldState :=
  let c := w_counters w in
  w_set_counters w (mkCounters (last_generated_tx_counter c) (last_relay_forward_attempts c)
    (entry_update 0%Z (fun n => u64_add n 1) addr (epoch_proposer_counts c))
    (total_included_tx c) (total_reward_income c)
    (block_production_success c) (block_production_failed c)
    (last_block_production_success c) (last_block_production_failed c)).

(** [WorldState::new] *)
Definition WorldState_new (cfg : WorldConfig) (genesis_block : Block F) (bc : Blockchain F) (s : S) : WorldState :=
  mkWorld cfg (mkOutage U64_MAX 0 ∅ ∅ false)
    (mkSlotManager [] (slot_duration cfg) 0 0 (derive_election_seed (election_seed cfg) 0 0 0)
       (h_timestamp (header genesis_block)))
    [] ∅ bc s (mkCounters 0 ∅ ∅ 0 ∅ 0 0 0 0) 0.

(** ** Scheduled outages *)

Definition configure_scheduled_outage w (start_epoch duration_epochs : Z) (validator_ids : string)
    (common_slot_randomness : bool) : WorldState :=
  let indices : gset Z := list_to_set (omap (fun value =>
    let trimmed := trim value in if decide (trimmed = "") then None else parse_u32 trimmed)
    (split_commas validator_ids)) in
  let addresses : gset string := list_to_set (omap (fun ai =>
    if decide (ai.2 ∈ indices) then Some ai.1 else None) (map_to_list (nodes_index (w_config w)))) in
  mkWorld (w_config w) (mkOutage start_epoch duration_epochs indices addresses common_slot_randomness)
    (w_slot w) (w_validators w) (w_balances w) (w_blockchain w) (w_consensus w) (w_counters w) (w_logical_slot w).

Definition scheduled_outage_active w (epoch : Z) : bool :=
  let o := w_outage w in
  if bool_decide (outage_validator_addresses o = ∅) || (epoch <? outage_start_epoch o)%Z then false else
  (outage_duration_epochs o =? 0)%Z
  || (epoch <? u64_sat_add (outage_start_epoch o) (outage_duration_epochs o))%Z.

Definition update_scheduled_availability w sh (epoch : Z) : Shared F :=
  let outage_active := scheduled_outage_active w epoch in
  set_available sh (map_imap (fun addr _ =>
    Some (negb outage_active || bool_decide (addr ∉ outage_validator_addresses (w_outage w))))
    (sh_available sh)).

(** ** Blocks *)

(** The canonical block of a proposer; its transactions leave its mempool. *)
Definition build_canonical_block (now : Z) w sh (miner : Validator F) (epoch slot : Z)
    : Outcome (Shared F * Result (Block F) BlockError) :=
  match node_wallets (w_config w) !! v_address miner, sh_mempools sh !! v_address miner with
  | Some wallet, Some mempool =>
      let packed := to_pack (wc_max_tx_per_block (w_config w)) (w_blockchain w) mempool in
      let sh := if decide (packed = []) then sh
                else set_mempool sh (v_address miner) (remove_all (map path_hash packed) mempool) in
      let! r := packed_block (sh_registry sh) now (w_blockchain w) epoch slot packed wallet in
      Ret (sh, r)
  | _, _ => Ret (sh, Err InvalidBlock)
  end.

(** Reward deltas into balances; the addresses that changed, with their balance. *)
Definition credit (balances : gmap string F) (deltas : list (BalanceDelta F)) : gmap string F :=
  fold_left (fun m d => entry_update f0 (fun x => f_add x (bd_amount d)) (bd_address d) m) deltas balances.

Definition balance_updates (balances : gmap string F) (deltas : list (BalanceDelta F)) : list (string * F) :=
  omap (fun addr => pair addr <$> balances !! addr)
    (elements (list_to_set (map bd_address deltas) : gset string)).

(** Rewards of a block that was added: to the consensus, the balances, the nodes. *)
Definition settle_block w (block : Block F) : WorldState * list (Event F) :=
  let '(s, reward_deltas) := c_distribute_rewards (w_consensus w) block (w_validators w) in
  let balances := credit (w_balances w) reward_deltas in
  let out := omap (fun ab => match nodes_sender (w_config w) !! ab.1 with
                             | Some _ => Some (Sent (ToNode ab.1 (UpdateNodeBalance ab.2)))
                             | None => None
                             end) (balance_updates balances reward_deltas) in
  (w_set_balances (w_set_consensus w s) balances, out).

Definition apply_canonical_block w (block : Block F)
    : Outcome (WorldState * list (Event F) * Result unit BlockChainError) :=
  let! (bc, r) := add_block (w_blockchain w) block in
  match r with
  | Err e => Ret (w, [], Err e)
  | Ok _ =>
      let '(w, out) := settle_block (count_success (w_set_chain w bc)) block in
      Ret (w, out, Ok tt)
  end.

(** ** Metrics *)

Definition collect_slot_metrics w (miner : Validator F) : Outcome (SlotMetrics F) :=
  let! last_block := get_last_block (w_blockchain w) in
  let slot := w_slot w in
  let txs := transactions (body last_block) in
  let stake_values := map v_stake (w_validators w) in
  Ret {| sm_epoch := current_epoch slot; sm_slot := Message.current_slot slot; sm_miner := v_address miner;
         sm_proposer_stake := v_stake miner;
         sm_timestamp := logical_time_seconds (current_epoch slot) (Message.current_slot slot)
                           (slot_per_epoch (w_config w)) (slot_duration (w_config w));
         sm_block_hash := h_hash (header last_block);
         sm_tx_count := Z.of_nat (length txs);
         sm_throughput := f_div (f_of_nat (length txs)) (f_max (f_of_Z (slot_duration (w_config w))) f1);
         sm_path_stats := calculate_path_stats (get_all_paths last_block);
         sm_stake_concentration := calculate_stake_concentration stake_values;
         sm_gini_coefficient := calculate_gini stake_values;
         sm_consensus_type := c_name (F := F) (S := S);
         sm_consensus_state := c_state_summary (w_consensus w);
         sm_tx_packing_delay_stats :=
           calculate_tx_packing_delay (map tx_timestamp txs) (h_timestamp (header last_block));
         sm_block_production_success := block_production_success (w_counters w);
         sm_block_production_failed := block_production_failed (w_counters w) |}.

(** The clock, and what is read from the transaction generator, which keeps running:
    reading 0 for the report of an epoch, 1 for the summary written with it, and 2
    for the summary of the run. *)
Record WorldReadings := mkWorldReadings {
  wr_now : Z;
  wr_generated : nat -> Z;
  wr_fee_spent : nat -> gmap string F
}.

Definition sum_over (addrs : gset string) (m : gmap string F) : F :=
  fsum (map (fun addr => get_or f0 m addr) (elements addrs)).

Definition run_summary (rd : WorldReadings) (reading : nat) w (completed_epochs : Z) : RunSummary F :=
  let adversary_fee_spent := sum_over (adversarial_nodes (w_config w)) (wr_fee_spent rd reading) in
  let adversary_reward_income := sum_over (adversarial_nodes (w_config w)) (total_reward_income (w_counters w)) in
  mkRunSummary (wc_run_id (w_config w)) completed_epochs (wr_generated rd reading) (total_included_tx (w_counters w))
    (block_production_success (w_counters w)) (block_production_failed (w_counters w))
    adversary_fee_spent adversary_reward_income (f_sub adversary_reward_income adversary_fee_spent).

(** The epoch's blocks: the genesis block and blocks of other epochs are left out. *)
Definition epoch_blocks_of (epoch : Z) (l : list (Block F)) : list (Block F) :=
  filter (fun b => (0 < h_index (header b))%Z /\ h_epoch (header b) = epoch) l.

Definition epoch_row (rd : WorldReadings) w sh (epoch : Z) (epoch_blocks : list (Block F))
    (validators : list (Validator F)) : EpochMetrics F * list (InclusionSample F) :=
  let cfg := w_config w in
  let k := w_counters w in
  let snapshot := c_metrics_snapshot (F := F) (w_consensus w) in
  let included_tx := fold_left (fun n b => u64_add n (Z.of_nat (length (transactions (body b))))) epoch_blocks 0%Z in
  let logical_epoch_secs := f_max (f_mul (f_of_Z (slot_per_epoch cfg)) (f_of_Z (slot_duration cfg))) f1 in
  let scan := scan_epoch (sh_caches sh) (slot_per_epoch cfg) (slot_duration cfg) (wc_latency_adjustment cfg) epoch_blocks in
  let reward_report := estimate_epoch_rewards (wc_base_reward cfg) epoch_blocks validators snapshot in
  let organic := organic_capture_report (adversarial_nodes cfg) epoch_blocks validators snapshot in
  let stake_values := map v_stake validators in
  let weights := proposer_weights validators snapshot in
  let weight_values := map (fun v => get_or f0 weights (v_address v)) validators in
  let proposer_total := fold_left u64_add (map_values (epoch_proposer_counts k)) 0%Z in
  let adversary_proposers :=
    fold_left u64_add (map (fun a => get_or 0%Z (epoch_proposer_counts k) a) (elements (adversarial_nodes cfg))) 0%Z in
  let epoch_success := u64_sat_sub (block_production_success k) (last_block_production_success k) in
  let epoch_failed := u64_sat_sub (block_production_failed k) (last_block_production_failed k) in
  let epoch_attempts := u64_add epoch_success epoch_failed in
  ({| em_epoch := epoch;
      em_generated_tx := u64_sat_sub (wr_generated rd 0) (last_generated_tx_counter k);
      em_included_tx := included_tx;
      em_throughput := f_div (f_of_Z included_tx) logical_epoch_secs;
      em_p50_inclusion_latency_s := percentile_f64 (es_latencies scan) (f_dec 50 2);
      em_p95_inclusion_latency_s := percentile_f64 (es_latencies scan) (f_dec 95 2);
      em_p99_inclusion_latency_s := percentile_f64 (es_latencies scan) (f_dec 99 2);
      em_block_success_ratio :=
        if (epoch_attempts =? 0)%Z then f0 else f_div (f_of_Z epoch_success) (f_of_Z epoch_attempts);
      em_avg_path_length :=
        match es_path_lengths scan with
        | [] => f0
        | _ => f_div (fsum (es_path_lengths scan)) (f_of_nat (length (es_path_lengths scan)))
        end;
      em_p95_path_length := percentile_f64 (es_path_lengths scan) (f_dec 95 2);
      em_valid_path_count := es_valid scan;
      em_invalid_path_count := es_invalid scan;
      em_conflicting_receipt_count := es_conflicts scan;
      em_active_score_epoch := default (-1)%Z (as_i64 <$> ms_active_score_epoch snapshot);
      em_latest_score_epoch := default (-1)%Z (as_i64 <$> ms_latest_score_epoch snapshot);
      em_total_proposer_reward := total_proposer_reward reward_report;
      em_total_relay_reward := total_relay_reward reward_report;
      em_burned_relay_fee := burned_relay_fee reward_report;
      em_organic_included_tx := oc_included_tx organic;
      em_organic_valid_path_count := oc_valid_path_count organic;
      em_organic_relay_reward := oc_relay_reward organic;
      em_adversary_organic_relay_reward := oc_adversary_relay_reward organic;
      em_adversary_organic_relay_reward_share := adversary_relay_reward_share organic;
      em_organic_raw_contribution := oc_raw_contribution organic;
      em_adversary_organic_raw_contribution := oc_adversary_raw_contribution organic;
      em_adversary_organic_raw_contribution_share := adversary_raw_contribution_share organic;
      em_stake_gini := calculate_gini stake_values;
      em_stake_hhi := calculate_hhi stake_values;
      em_proposer_weight_gini := calculate_gini weight_values;
      em_proposer_weight_hhi := calculate_hhi weight_values;
      em_adversary_real_stake_share := share_for (adversarial_nodes cfg) (stake_map validators);
      em_adversary_score_share := share_for (adversarial_nodes cfg) (ms_normalized_score snapshot);
      em_adversary_damped_score_mass := damped_mass (adversarial_nodes cfg) snapshot;
      em_adversary_proposer_weight_share := share_for (adversarial_nodes cfg) weights;
      em_score_dependent_proposer_weight_bound := score_dependent_bound (adversarial_nodes cfg) validators snapshot;
      em_theoretical_proposer_weight_bound := theoretical_bound (adversarial_nodes cfg) validators snapshot;
      em_observed_adversary_proposer_share :=
        if (proposer_total =? 0)%Z then f0 else f_div (f_of_Z adversary_proposers) (f_of_Z proposer_total);
      em_bound_violation := bound_violation (adversarial_nodes cfg) validators snapshot |},
   es_samples scan).

Definition node_row (rd : WorldReadings) w sh (epoch : Z) (validators : list (Validator F))
    (raw_contribution : gmap string F) (reward_report : EpochRewardReport F)
    (previous_forward_attempts : Z) (v : Validator F) : NodeEpochMetrics F :=
  let cfg := w_config w in
  let snapshot := c_metrics_snapshot (F := F) (w_consensus w) in
  let addr := v_address v in
  let s_hat := get_or f0 (normalized_stake validators) addr in
  let raw := get_or f0 raw_contribution addr in
  let proposer_reward := get_or f0 (proposer_by_address reward_report) addr in
  let relay_reward := get_or f0 (relay_by_address reward_report) addr in
  let fee := get_or f0 (wr_fee_spent rd 0) addr in
  {| ne_epoch := epoch;
     ne_validator_id := match nodes_index cfg !! addr with Some idx => pretty idx | None => addr end;
     ne_relay_profile := get_or "normal" (node_relay_profiles cfg) addr;
     ne_focal_relayer := bool_decide (addr ∈ focal_relayer_nodes cfg);
     ne_adversarial := bool_decide (addr ∈ adversarial_nodes cfg);
     ne_economic_stake := v_stake v;
     ne_balance := get_or f0 (w_balances w) addr;
     ne_raw_contribution := raw;
     ne_saturated_contribution := saturated_contribution raw s_hat (default f1 (ms_saturation_k snapshot));
     ne_ema_score := get_or f0 (ms_score_history snapshot) addr;
     ne_normalized_score := get_or f0 (ms_normalized_score snapshot) addr;
     ne_bonus := get_or f0 (ms_bonuses snapshot) addr;
     ne_unnormalized_proposer_weight := get_or s_hat (ms_unnormalized_proposer_weights snapshot) addr;
     ne_normalized_proposer_weight := get_or f0 (proposer_weights validators snapshot) addr;
     ne_proposer_count := get_or 0%Z (epoch_proposer_counts (w_counters w)) addr;
     ne_relay_reward := relay_reward;
     ne_proposer_reward := proposer_reward;
     ne_fee_spent := fee;
     ne_net_income := f_sub (f_add proposer_reward relay_reward) fee;
     ne_relay_forward_attempts := u64_sat_sub (get_or 0%Z (sh_forwarded sh) addr) previous_forward_attempts;
     ne_degree := get_or 0%Z (node_degrees cfg) addr;
     ne_betweenness := get_or f0 (node_betweenness cfg) addr |}.

(** The rows of the validators, with the counters of forwarded paths updated one
    validator at a time. *)
Fixpoint node_rows (rd : WorldReadings) w sh (epoch : Z) (validators : list (Validator F))
    (raw_contribution : gmap string F) (reward_report : EpochRewardReport F)
    (last_attempts : gmap string Z) (l : list (Validator F)) : gmap string Z * list (NodeEpochMetrics F) :=
  match l with
  | [] => (last_attempts, [])
  | v :: l =>
      let row := node_row rd w sh epoch validators raw_contribution reward_report
                   (get_or 0%Z last_attempts (v_address v)) v in
      let '(last_attempts, rows) :=
        node_rows rd w sh epoch validators raw_contribution reward_report
          (<[v_address v := get_or 0%Z (sh_forwarded sh) (v_address v)]> last_attempts) l in
      (last_attempts, row :: rows)
  end.

Definition collect_epoch_metrics (rd : WorldReadings) w sh (epoch : Z) (l : list (Block F))
    (validators : list (Validator F)) : WorldState * list (Event F) :=
  let k := w_counters w in
  let snapshot := c_metrics_snapshot (F := F) (w_consensus w) in
  let epoch_blocks := epoch_blocks_of epoch l in
  let '(row, samples) := epoch_row rd w sh epoch epoch_blocks validators in
  let reward_report := estimate_epoch_rewards (wc_base_reward (w_config w)) epoch_blocks validators snapshot in
  let raw := ws_raw_epoch_contribution epoch_blocks validators snapshot in
  let income := fold_left (fun m ar => entry_update f0 (fun x => f_add x ar.2) ar.1 m)
                  (iter_map (total_by_address reward_report)) (total_reward_income k) in
  let '(attempts, rows) := node_rows rd w sh epoch validators raw reward_report (last_relay_forward_attempts k) validators in
  let w := w_set_counters w
    (mkCounters (wr_generated rd 0) attempts ∅ (u64_add (total_included_tx k) (em_included_tx row)) income
       (block_production_success k) (block_production_failed k)
       (block_production_success k) (block_production_failed k)) in
  (w, (if decide (samples = []) then [] else [WroteSamples samples]) ++ [WroteEpoch row]
      ++ map WroteNode rows ++ [WroteSummary (run_summary rd 1 w (u64_add epoch 1))]).

(** ** Slots and epochs *)

Definition seed_block_index w : Outcome Z :=
  let! block_index := get_last_index (w_blockchain w) in
  Ret (if outage_common_slot_randomness (w_outage w) then 0%Z else u64_add block_index 1).

(** [next_epoch]; the last component is whether the process exits. *)
Definition ws_next_epoch (rd : WorldReadings) w sh
    : Outcome (WorldState * Shared F * list (Event F) * bool) :=
  let epoch := current_epoch (w_slot w) in
  let next_epoch := u64_add epoch 1 in
  let sh := if scheduled_outage_active w next_epoch then update_scheduled_availability w sh next_epoch else sh in
  let! l := get_last_epoch_block (w_blockchain w) in
  let validators := w_validators w in
  let w := w_set_consensus w (c_on_epoch_end (w_consensus w) l validators) in
  let '(w, out) := collect_epoch_metrics rd w sh epoch l validators in
  let sh := if scheduled_outage_active w next_epoch then sh else update_scheduled_availability w sh next_epoch in
  let! index := seed_block_index w in
  let w := w_set_slot w (mkSlotManager [] (slot_duration (w_config w)) next_epoch 0
             (derive_election_seed (election_seed (w_config w)) next_epoch 0 index) (wr_now rd)) in
  if (wc_max_epochs (w_config w) <=? next_epoch)%Z
  then Ret (w, sh, out ++ [WroteSummary (run_summary rd 2 w next_epoch)], true)
  else Ret (w, sh, out, false).

(** The clock: the next slot of the epoch, or the first of the next. *)
Definition advance_clock (rd : WorldReadings) w sh
    : Outcome (WorldState * Shared F * list (Event F) * bool) :=
  let slot := w_slot w in
  if (u64_sub (slot_per_epoch (w_config w)) 1 <=? Message.current_slot slot)%Z then ws_next_epoch rd w sh else
  let next_slot := u64_add (Message.current_slot slot) 1 in
  let! index := seed_block_index w in
  Ret (w_set_slot w (mkSlotManager [] (slot_duration (w_config w)) (current_epoch slot) next_slot
         (derive_election_seed (election_seed (w_config w)) (current_epoch slot) next_slot index) (wr_now rd)),
       sh, [], false).

Definition write_proposer_duty w (proposer : Validator F) (weight : F) (online produced : bool)
    (reason : string) : ProposerDuty F :=
  mkDuty (current_epoch (w_slot w)) (Message.current_slot (w_slot w))
    (match nodes_index (w_config w) !! v_address proposer with Some i => pretty i | None => "" end)
    (v_address proposer) (v_stake proposer) weight
    (scheduled_outage_active w (current_epoch (w_slot w)))
    (bool_decide (v_address proposer ∈ outage_validator_addresses (w_outage w)))
    online produced reason.

(** The proposer's turn: the block, if it is online and builds one that is accepted. *)
Definition produce (rd : WorldReadings) w sh (miner : Validator F)
    : Outcome (WorldState * Shared F * list (Event F) * bool * string) :=
  let slot := w_slot w in
  if negb (available sh (v_address miner)) then Ret (count_failure w, sh, [], false, "scheduled_outage") else
  let! (sh, r) := build_canonical_block (wr_now rd) w sh miner (current_epoch slot) (Message.current_slot slot) in
  match r with
  | Err _ => Ret (count_failure w, sh, [], false, "build_failed")
  | Ok block =>
      let! (w, out, r) := apply_canonical_block w block in
      match r with
      | Err _ => Ret (count_failure w, sh, out, false, "apply_failed")
      | Ok _ =>
          Ret (w, sh, out ++ map (fun sender => Sent (ToNode sender.1 (SendBlock block (v_address miner))))
                               (iter_map (nodes_sender (w_config w))), true, "")
      end
  end.

(** The messages that open a slot. *)
Definition slot_messages w : list (Event F) :=
  map (fun sender => Sent (ToNode sender.1 (UpdateSlot (w_slot w)))) (iter_map (nodes_sender (w_config w)))
  ++ omap (fun v => match nodes_sender (w_config w) !! v_address v with
                    | Some _ => Some (Sent (ToNode (v_address v) SendRandaoSeed))
                    | None => None
                    end) (w_validators w).

(** What follows the selection of [miner]. *)
Definition proposer_turn (rd : WorldReadings) w sh (miner : Validator F)
    : Outcome (WorldState * Shared F * list (Event F)) :=
  let w := count_proposer w (v_address miner) in
  let scheduled_online := available sh (v_address miner) in
  let! (w, sh, out, produced, reason) := produce rd w sh miner in
  let snapshot := c_metrics_snapshot (F := F) (w_consensus w) in
  let weight := get_or f0 (proposer_weights (w_validators w) snapshot) (v_address miner) in
  let duty := WroteDuty (write_proposer_duty w miner weight scheduled_online produced reason) in
  if (produced : bool) then
    let! m := collect_slot_metrics w miner in
    Ret (w, sh, out ++ [duty; WroteSlot m])
  else Ret (w, sh, out ++ [duty]).

Definition ws_next_slot (rd : WorldReadings) w sh : Outcome (WorldState * Shared F * list (Event F) * bool) :=
  let! block_index := get_last_index (w_blockchain w) in
  let! (w, sh, out, exits) := advance_clock rd w sh in
  if (exits : bool) then Ret (w, sh, out, true) else
  let s := c_next_slot (w_consensus w) (w_validators w) block_index in
  let w := mkWorld (w_config w) (w_outage w) (w_slot w) (w_validators w) (w_balances w) (w_blockchain w) s
             (w_counters w) (u64_add (w_logical_slot w) 1) in
  let sh := update_scheduled_availability w sh (current_epoch (w_slot w)) in
  let out := out ++ slot_messages w in
  let! (s, r) := c_select_proposer (w_consensus w) (w_validators w) (next_seed (w_slot w)) in
  let w := w_set_consensus w s in
  match r with
  | Err _ => Ret (w, sh, out, false)
  | Ok miner =>
      let! (w, sh, out') := proposer_turn rd w sh miner in
      Ret (w, sh, out ++ out', false)
  end.

(** ** Messages *)

Definition ws_on_send_block w (block : Block F) : Outcome (WorldState * list (Event F)) :=
  let! (bc, r) := add_block (w_blockchain w) block in
  match r with
  | Err DuplicateBlocksReceived => Ret (w, [])
  | Err IndexTooSmall => Ret (w, [])
  | Err _ => Ret (count_failure w, [])
  | Ok _ => Ret (settle_block (count_success (w_set_chain w bc)) block)
  end.

Definition ws_on_response_sync w (sync_blocks : list (Block F)) : Outcome (WorldState * list (Event F)) :=
  match head sync_blocks, last sync_blocks with
  | Some first_block, Some last_block =>
      let! current_index := get_last_index (w_blockchain w) in
      if (u64_add current_index 1 <? h_index (header first_block))%Z
      then Ret (w_set_chain w (replace_chain (w_blockchain w) sync_blocks), []) else
      if (h_index (header last_block) <=? current_index)%Z then Ret (w, []) else
      let! (bc, _) := resolve_fork (w_blockchain w) current_index sync_blocks in
      Ret (w_set_chain w bc, [])
  | _, _ => Ret (w, [])
  end.

Definition ws_become_validator w (validator : Validator F) : WorldState :=
  let others := filter (fun v => v_address v <> v_address validator) (w_validators w) in
  mkWorld (w_config w) (w_outage w) (w_slot w) (others ++ [validator])
    (entry_update (v_stake validator) (fun x => x) (v_address validator) (w_balances w))
    (w_blockchain w) (w_consensus w) (w_counters w) (w_logical_slot w).

Definition ws_handle w (msg : Message F) : Outcome (WorldState * list (Event F)) :=
  match msg with
  | ReceiveRandaoSeed seed =>
      let s := w_slot w in
      Ret (w_set_slot w (mkSlotManager (randao_seeds s ++ [seed]) (sl_slot_duration s) (current_epoch s)
                           (Message.current_slot s) (next_seed s) (start_timestamp s)), [])
  | ReceiveBecomeValidator validator => Ret (ws_become_validator w validator, [])
  | UpdateAccountBalance addr new_balance => Ret (w_set_balances w (<[addr := new_balance]> (w_balances w)), [])
  | SendBlock block _ => ws_on_send_block w block
  | RequestBlockSync _ from =>
      match nodes_sender (w_config w) !! from with
      | Some _ => Ret (w, [Sent (ToNode from (ResponseBlockSync (blocks (w_blockchain w)) "world_state"))])
      | None => Ret (w, [])
      end
  | BlockProductionFailed _ _ _ => Ret (count_failure w, [])
  | ResponseBlockSync sync_blocks _ => ws_on_response_sync w sync_blocks
  | _ => Ret (w, [])
  end.

End world.
Arguments WorldConfig F {_}.
Arguments WorldState F S {_}.
Arguments WorldReadings F : clear implicits.
