(* ===== verification/WorldFacts.v ===== *)
(** * Correctness of the world state

    The chain and the messages of the world state stay well formed; the clock
    counts slots and ends the run on time; a block holds the best transactions of
    the proposer's mempool; an online proposer produces a block; rewards reach the
    balances. *)

From Stdlib Require Import Reals Lra Sorted.
From stdpp Require Import sorting.
From S2P Require Export NodeFacts TopoStakeFacts WorldState.
Local Open Scope rust_scope.

Section worldfacts.
Context {F S : Type} `{F64 F} `{Crypto} `{TxSerde F} `{BlockSerde} `{MapOrder} `{MetaSerde}
  `{PathVerifier F} `{Consensus F S}.
Implicit Types (w : WorldState F S) (sh : Shared F) (rd : WorldReadings F).

(** ** Well-formed chain and messages *)

Definition good_event (cap : nat) (e : Event F) : Prop :=
  match e with Sent s => good_send cap s | _ => True end.

Definition world_good (cap : nat) w sh (out : list (Event F)) : Prop :=
  good_chain cap (w_blockchain w) /\ shared_typed sh /\ Forall (good_event cap) out.

Lemma settle_block_chain w b : w_blockchain (settle_block w b).1 = w_blockchain w.
Proof. unfold settle_block. by destruct (c_distribute_rewards _ _ _). Qed.

Lemma settle_block_good cap w b : Forall (good_event cap) (settle_block w b).2.
Proof.
  unfold settle_block. destruct (c_distribute_rewards _ _ _) as [s d]. simpl.
  apply Forall_forall. intros e (ab & _ & He)%list_elem_of_omap. case_match; by simplify_eq.
Qed.

Lemma apply_canonical_block_good cap w b w' out r :
  good_chain cap (w_blockchain w) -> apply_canonical_block w b = Ret (w', out, r) ->
  good_chain cap (w_blockchain w') /\ Forall (good_event cap) out.
Proof.
  intros Hg. unfold apply_canonical_block.
  destruct (add_block (w_blockchain w) b) as [[bc r']|] eqn:E; simpl; [|done].
  pose proof (add_block_good _ _ _ _ _ Hg E) as Hg'. destruct r'; [|by intros [= <- <- _]; split; [|apply Forall_nil_2]].
  pose proof (settle_block_chain (count_success (w_set_chain w bc)) b) as Hc.
  pose proof (settle_block_good cap (count_success (w_set_chain w bc)) b) as Ho.
  destruct (settle_block _ b) as [w1 out1]. simpl in *. intros [= <- <- _]. by rewrite Hc.
Qed.

Lemma build_canonical_block_typed now w sh miner epoch slot sh' r :
  shared_typed sh -> build_canonical_block now w sh miner epoch slot = Ret (sh', r) -> shared_typed sh'.
Proof.
  intros Hs. unfold build_canonical_block.
  destruct (node_wallets _ !! _); [|by intros [= <- _]].
  destruct (sh_mempools sh !! v_address miner) as [m|] eqn:Em; [|by intros [= <- _]].
  destruct (packed_block _ _ _ _ _ _ _); simpl; [|done]. intros [= <- _].
  case_decide; [done|]. apply set_mempool_typed; [done|]. apply remove_all_typed. by apply (Hs _ _ Em).
Qed.

Lemma produce_good cap rd w sh miner w' sh' out ok reason :
  good_chain cap (w_blockchain w) -> shared_typed sh ->
  produce rd w sh miner = Ret (w', sh', out, ok, reason) -> world_good cap w' sh' out.
Proof.
  intros Hg Hs. unfold produce.
  destruct (negb _); [intros [= <- <- <- _ _]; split_and!; [done..|by apply Forall_nil_2]|].
  destruct (build_canonical_block _ _ _ _ _ _) as [[sh1 r]|] eqn:Eb; simpl; [|done].
  apply build_canonical_block_typed in Eb; [|done].
  destruct r as [b|]; [|intros [= <- <- <- _ _]; split_and!; [done..|by apply Forall_nil_2]].
  destruct (apply_canonical_block w b) as [[[w1 out1] r1]|] eqn:Ea; simpl; [|done].
  apply (apply_canonical_block_good cap) in Ea as [Hg1 Ho1]; [|done].
  destruct r1; intros [= <- <- <- _ _]; split_and!; try done.
  apply Forall_app. split; [done|]. apply Forall_forall. by intros e (x & -> & _)%list_elem_of_fmap.
Qed.

Lemma proposer_turn_good cap rd w sh miner w' sh' out :
  good_chain cap (w_blockchain w) -> shared_typed sh ->
  proposer_turn rd w sh miner = Ret (w', sh', out) -> world_good cap w' sh' out.
Proof.
  intros Hg Hs. unfold proposer_turn.
  destruct (produce _ _ _ _) as [[[[[w1 sh1] out1] ok] reason]|] eqn:E; simpl; [|done].
  apply (produce_good cap) in E as (Hg1 & Hs1 & Ho1); [|done..].
  destruct ok.
  - destruct (collect_slot_metrics w1 miner); simpl; [|done]. intros [= <- <- <-]. split_and!; try done.
    apply Forall_app. split; [done|]. by repeat constructor.
  - intros [= <- <- <-]. split_and!; try done. apply Forall_app. split; [done|]. by repeat constructor.
Qed.

Lemma update_availability_typed w sh epoch :
  shared_typed sh -> shared_typed (update_scheduled_availability w sh epoch).
Proof. done. Qed.

(** Collecting metrics touches only the counters. *)
Lemma collect_epoch_metrics_frame rd w sh epoch l vs w' out :
  collect_epoch_metrics rd w sh epoch l vs = (w', out) ->
  w' = w_set_counters w (w_counters w') /\ forall cap, Forall (good_event cap) out.
Proof.
  unfold collect_epoch_metrics. destruct (epoch_row _ _ _ _ _ _) as [row samples].
  destruct (node_rows _ _ _ _ _ _ _ _ _) as [attempts rows]. intros [= <- <-]. split; [done|]. intros cap.
  apply Forall_app. split; [case_decide; [by apply Forall_nil_2|by apply Forall_singleton]|].
  constructor; [done|]. apply Forall_app. split; [|by apply Forall_singleton].
  apply Forall_forall. by intros e (x & -> & _)%list_elem_of_fmap.
Qed.

(** What a change of the clock leaves as it was. *)
Record same_but_clock w w' : Prop := {
  sbc_config : w_config w' = w_config w;
  sbc_chain : w_blockchain w' = w_blockchain w;
  sbc_validators : w_validators w' = w_validators w;
  sbc_balances : w_balances w' = w_balances w;
  sbc_outage : w_outage w' = w_outage w;
  sbc_logical : w_logical_slot w' = w_logical_slot w
}.

Lemma ws_next_epoch_frame rd w sh w' sh' out exits :
  ws_next_epoch rd w sh = Ret (w', sh', out, exits) ->
  same_but_clock w w' /\ sh_mempools sh' = sh_mempools sh /\ (forall cap, Forall (good_event cap) out)
  /\ current_epoch (w_slot w') = u64_add (current_epoch (w_slot w)) 1 /\ Message.current_slot (w_slot w') = 0%Z
  /\ exits = (wc_max_epochs (w_config w) <=? u64_add (current_epoch (w_slot w)) 1)%Z.
Proof.
  unfold ws_next_epoch. destruct (get_last_epoch_block (w_blockchain w)) as [l|]; simpl; [|done].
  match goal with |- context [collect_epoch_metrics rd ?a ?s ?e l ?v] =>
    set (w0 := a); set (sh0 := s); destruct (collect_epoch_metrics rd w0 sh0 e l v) as [w1 out1] eqn:Ec end.
  apply collect_epoch_metrics_frame in Ec as [Hw1 Ho1].
  destruct (seed_block_index w1) as [ix|]; simpl; [|done].
  assert (Hc : w_config w1 = w_config w) by (by rewrite Hw1).
  assert (Hsh0 : sh_mempools sh0 = sh_mempools sh) by (unfold sh0; by case_match).
  rewrite Hc. case_match eqn:E; intros [= <- <- <- <-]; rewrite Hw1; simpl; split_and!;
    try done; try (by case_match).
  intros cap. apply Forall_app. split; [done|by apply Forall_singleton].
Qed.

Lemma advance_clock_frame rd w sh w' sh' out exits :
  advance_clock rd w sh = Ret (w', sh', out, exits) ->
  same_but_clock w w' /\ sh_mempools sh' = sh_mempools sh /\ (forall cap, Forall (good_event cap) out)
  /\ if (u64_sub (slot_per_epoch (w_config w)) 1 <=? Message.current_slot (w_slot w))%Z
     then current_epoch (w_slot w') = u64_add (current_epoch (w_slot w)) 1
          /\ Message.current_slot (w_slot w') = 0%Z
          /\ exits = (wc_max_epochs (w_config w) <=? u64_add (current_epoch (w_slot w)) 1)%Z
     else current_epoch (w_slot w') = current_epoch (w_slot w)
          /\ Message.current_slot (w_slot w') = u64_add (Message.current_slot (w_slot w)) 1 /\ exits = false.
Proof.
  unfold advance_clock. case_match eqn:E.
  - intros (? & ? & ? & ? & ? & ?)%ws_next_epoch_frame. done.
  - destruct (seed_block_index w); simpl; [|done]. intros [= <- <- <- <-]. split_and!; try done.
Qed.

Lemma slot_messages_good cap w : Forall (good_event cap) (slot_messages w).
Proof.
  apply Forall_app. split; apply Forall_forall.
  - by intros e (x & -> & _)%list_elem_of_fmap.
  - intros e (v & _ & He)%list_elem_of_omap. case_match; by simplify_eq.
Qed.

(** The parts of [ws_next_slot] after the clock has advanced. *)
Lemma ws_next_slot_inv rd w sh w' sh' out exits :
  ws_next_slot rd w sh = Ret (w', sh', out, exits) ->
  exists w1 sh1 out1,
    advance_clock rd w sh = Ret (w1, sh1, out1, exits)
    /\ (exits = true -> w' = w1 /\ sh' = sh1 /\ out = out1)
    /\ (exits = false ->
        exists s2, let w2 := mkWorld (w_config w1) (w_outage w1) (w_slot w1) (w_validators w1) (w_balances w1)
                               (w_blockchain w1) s2 (w_counters w1) (u64_add (w_logical_slot w1) 1) in
        let sh2 := update_scheduled_availability w2 sh1 (current_epoch (w_slot w1)) in
        (w' = w2 /\ sh' = sh2 /\ out = out1 ++ slot_messages w2)
        \/ exists miner out3, proposer_turn rd w2 sh2 miner = Ret (w', sh', out3)
                            /\ out = (out1 ++ slot_messages w2) ++ out3).
Proof.
  unfold ws_next_slot. destruct (get_last_index (w_blockchain w)) as [bi|]; simpl; [|done].
  destruct (advance_clock rd w sh) as [[[[w1 sh1] out1] ex]|]; simpl; [|done].
  destruct ex; [intros [= <- <- <- <-]; by exists w1, sh1, out1|].
  destruct (c_select_proposer _ _ _) as [[s r]|]; simpl; [|done]. destruct r as [miner|e].
  - destruct (proposer_turn _ _ _ _) as [[[w3 sh3] out3]|] eqn:Ep; simpl; [|done].
    intros [= <- <- <- <-]. exists w1, sh1, out1. split_and!; [done|done|]. intros _. exists s. right.
    by exists miner, out3.
  - intros [= <- <- <- <-]. exists w1, sh1, out1. split_and!; [done|done|]. intros _. exists s. by left.
Qed.

Lemma ws_next_slot_good cap rd w sh w' sh' out exits :
  good_chain cap (w_blockchain w) -> shared_typed sh ->
  ws_next_slot rd w sh = Ret (w', sh', out, exits) -> world_good cap w' sh' out.
Proof.
  intros Hg Hs (w1 & sh1 & out1 & Ha & Hex & Hgo)%ws_next_slot_inv.
  apply advance_clock_frame in Ha as ([_ Hc1 _ _ _ _] & Hm1 & Ho1 & _).
  assert (Hs1 : shared_typed sh1) by (unfold shared_typed; by rewrite Hm1).
  destruct exits.
  - destruct (Hex eq_refl) as (-> & -> & ->). split_and!; [by rewrite Hc1|done|done].
  - destruct (Hgo eq_refl) as (s2 & [(-> & -> & ->)|(miner & out3 & Hp & ->)]).
    + split_and!; [by rewrite Hc1|done|]. apply Forall_app. split; [done|apply slot_messages_good].
    + apply (proposer_turn_good cap) in Hp as (Hg3 & Hs3 & Ho3); [|by simpl; rewrite Hc1|done].
      split_and!; [done|done|]. rewrite !Forall_app. split_and!; [done|apply slot_messages_good|done].
Qed.

Lemma ws_handle_good cap w msg w' out :
  good_chain cap (w_blockchain w) -> good_msg cap msg -> ws_handle w msg = Ret (w', out) ->
  good_chain cap (w_blockchain w') /\ Forall (good_event cap) out.
Proof.
  intros Hg Hm. unfold ws_handle.
  destruct msg; try (intros [= <- <-]; split; [done|by apply Forall_nil_2]).
  - unfold ws_on_send_block. destruct (add_block (w_blockchain w) block) as [[bc r]|] eqn:E; simpl; [|done].
    pose proof (add_block_good _ _ _ _ _ Hg E) as Hg'. destruct r as [[]|e].
    + pose proof (settle_block_chain (count_success (w_set_chain w bc)) block) as Hc.
      pose proof (settle_block_good cap (count_success (w_set_chain w bc)) block) as Ho.
      destruct (settle_block _ block) as [w1 out1]. simpl in *. intros [= <- <-]. by rewrite Hc.
    + destruct e; intros [= <- <-]; (split; [done|by apply Forall_nil_2]).
  - case_match; intros [= <- <-]; (split; [done|]); [|by apply Forall_nil_2].
    apply Forall_singleton. by apply good_chain_blocks.
  - unfold ws_on_response_sync. destruct (head sync_blocks) as [fb|] eqn:Eh;
      [|intros [= <- <-]; split; [done|by apply Forall_nil_2]].
    destruct (last sync_blocks); [|intros [= <- <-]; split; [done|by apply Forall_nil_2]].
    assert (Hne : sync_blocks <> []) by (by intros ->).
    destruct (get_last_index (w_blockchain w)); simpl; [|done].
    case_match; [intros [= <- <-]; split; [by apply replace_chain_good|by apply Forall_nil_2]|].
    case_match; [intros [= <- <-]; split; [done|by apply Forall_nil_2]|].
    destruct (resolve_fork _ _ _) as [[bc added]|] eqn:Er; simpl; [|done].
    intros [= <- <-]. split; [|by apply Forall_nil_2]. eapply resolve_fork_good; [exact Hg|apply Hm|exact Er].
Qed.

(** ** The clock *)

(** What the clock shows, and the configuration it runs under. *)
Definition clock w : Z * Z * Z * WorldConfig F :=
  (current_epoch (w_slot w), Message.current_slot (w_slot w), w_logical_slot w, w_config w).

Lemma settle_block_clock w b : clock (settle_block w b).1 = clock w.
Proof. unfold settle_block. by destruct (c_distribute_rewards _ _ _). Qed.

Lemma produce_clock rd w sh miner w' sh' out ok reason :
  produce rd w sh miner = Ret (w', sh', out, ok, reason) -> clock w' = clock w.
Proof.
  unfold produce. destruct (negb _); [by intros [= <- _ _ _ _]|].
  destruct (build_canonical_block _ _ _ _ _ _) as [[sh1 r]|]; simpl; [|done].
  destruct r as [b|]; [|by intros [= <- _ _ _ _]]. unfold apply_canonical_block.
  destruct (add_block _ b) as [[bc r]|]; simpl; [|done]. destruct r; simpl; [|by intros [= <- _ _ _ _]].
  pose proof (settle_block_clock (count_success (w_set_chain w bc)) b) as Hc.
  destruct (settle_block _ b) as [w1 out1]. simpl in *. by intros [= <- _ _ _ _].
Qed.

Lemma proposer_turn_clock rd w sh miner w' sh' out :
  proposer_turn rd w sh miner = Ret (w', sh', out) -> clock w' = clock w.
Proof.
  unfold proposer_turn. destruct (produce _ _ _ _) as [[[[[w1 sh1] out1] ok] reason]|] eqn:E; simpl; [|done].
  apply produce_clock in E. destruct ok; [destruct (collect_slot_metrics _ _); simpl; [|done]|];
    by intros [= <- _ _].
Qed.

Lemma ws_handle_clock w msg w' out : ws_handle w msg = Ret (w', out) -> clock w' = clock w.
Proof.
  unfold ws_handle. destruct msg; try (by intros [= <- _]).
  - unfold ws_on_send_block. destruct (add_block _ block) as [[bc r]|]; simpl; [|done].
    destruct r as [[]|[]]; try (by intros [= <- _]).
    pose proof (settle_block_clock (count_success (w_set_chain w bc)) block) as Hc.
    destruct (settle_block _ block) as [w1 out1]. simpl in *. by intros [= <- _].
  - by case_match; intros [= <- _].
  - unfold ws_on_response_sync. destruct (head sync_blocks), (last sync_blocks); try (by intros [= <- _]).
    destruct (get_last_index _); simpl; [|done]. do 2 (case_match; [by intros [= <- _]|]).
    destruct (resolve_fork _ _ _) as [[? ?]|]; simpl; [|done]. by intros [= <- _].
Qed.

(** A run of the world state: slot changes and messages in any order, up to but not
    including the one at which it exits.  Nodes may change the shared objects in
    between.  The index is the number of slot changes. *)
Inductive world_run (w0 : WorldState F S) : nat -> WorldState F S -> Prop :=
  | wr_start : world_run w0 0 w0
  | wr_slot k w rd sh w' sh' out :
      world_run w0 k w -> ws_next_slot rd w sh = Ret (w', sh', out, false) -> world_run w0 (1 + k) w'
  | wr_message k w msg w' out :
      world_run w0 k w -> ws_handle w msg = Ret (w', out) -> world_run w0 k w'.

(** The clock after [k] slot changes. *)
Definition shows (cfg : WorldConfig F) (k : Z) w : Prop :=
  clock w = ((k / slot_per_epoch cfg)%Z, (k mod slot_per_epoch cfg)%Z, k, cfg).

Lemma clock_tick rd w sh w' sh' out exits cfg k :
  (1 <= slot_per_epoch cfg)%Z -> (slot_per_epoch cfg * wc_max_epochs cfg <= U64_MAX)%Z ->
  (0 <= k < slot_per_epoch cfg * wc_max_epochs cfg)%Z -> shows cfg k w ->
  ws_next_slot rd w sh = Ret (w', sh', out, exits) ->
  exits = bool_decide (k + 1 = slot_per_epoch cfg * wc_max_epochs cfg)%Z
  /\ (exits = false -> shows cfg (k + 1) w').
Proof.
  intros Hspe Hmax Hk [= He Hsl Hlog Hcfg] (w1 & sh1 & out1 & Ha & _ & Hgo)%ws_next_slot_inv.
  apply advance_clock_frame in Ha as ([Hc1 _ _ _ _ Hl1] & _ & _ & Hclk). rewrite Hcfg, Hsl, He in Hclk.
  set (spe := slot_per_epoch cfg) in *. set (n := wc_max_epochs cfg) in *.
  pose proof (Z.div_mod k spe ltac:(lia)) as Hdm. pose proof (Z.mod_pos_bound k spe ltac:(lia)) as Hmb.
  assert (Hq : (0 <= k / spe < n)%Z) by (split; [apply Z.div_pos; lia|apply Z.div_lt_upper_bound; lia]).
  assert (HU : (spe <= U64_MAX /\ n <= U64_MAX)%Z) by nia.
  unfold u64_sub, u64_add in Hclk. rewrite !wrap64_small in Hclk by (unfold is_u64; lia).
  assert (Hfin : exits = bool_decide (k + 1 = spe * n)%Z
            /\ current_epoch (w_slot w1) = ((k + 1) / spe)%Z /\ Message.current_slot (w_slot w1) = ((k + 1) mod spe)%Z).
  { destruct (Z.leb_spec (spe - 1) (k mod spe)) as [Hlast|Hin]; destruct Hclk as (Hce & Hcs & ->).
    - assert (Hk1 : (k + 1 = spe * (k / spe + 1))%Z) by lia. rewrite Hce, Hcs, Hk1.
      rewrite Z.mul_comm, Z.div_mul, Z.mod_mul by lia. split_and!; [|done|done].
      destruct (Z.leb_spec n (k / spe + 1)); symmetry; [apply bool_decide_true|apply bool_decide_false]; nia.
    - rewrite Hce, Hcs. split_and!.
      + symmetry. apply bool_decide_false. nia.
      + apply Z.div_unique_pos with (k mod spe + 1)%Z; lia.
      + apply Z.mod_unique_pos with (k / spe)%Z; lia. }
  destruct Hfin as (Hex & Hce & Hcs). split; [done|]. intros Hf. destruct (Hgo Hf) as (s2 & Hr). cbv zeta in Hr.
  match type of Hr with ?a \/ _ => match a with w' = ?v /\ _ => set (w2 := v) in Hr end end.
  assert (Hw2 : shows cfg (k + 1) w2).
  { unfold shows, clock, w2. simpl. rewrite Hce, Hcs, Hl1, Hlog, Hc1, Hcfg. unfold u64_add.
    rewrite wrap64_small by (unfold is_u64; lia). done. }
  destruct Hr as [(-> & _)|(miner & out3 & Hp%proposer_turn_clock & _)]; [done|]. unfold shows. by rewrite Hp.
Qed.

(** The clock of the simulation refines a counter of slot changes.  In every run
    from the initial state (slot changes and messages in any order, any consensus
    protocol, failing or missing proposers included), after [k] slot changes the
    epoch is [k / slots per epoch], the slot is [k mod slots per epoch] and the
    logical slot is [k]; and the next slot change ends the run exactly when it is
    number [slots per epoch * epochs].  The total is assumed to fit in 64 bits. *)
Theorem clock_refines_counter (cfg : WorldConfig F) (genesis : Block F) (bc : Blockchain F) (s : S)
    (k : nat) w :
  (1 <= slot_per_epoch cfg)%Z -> (1 <= wc_max_epochs cfg)%Z ->
  (slot_per_epoch cfg * wc_max_epochs cfg <= U64_MAX)%Z ->
  world_run (WorldState_new cfg genesis bc s) k w ->
  shows cfg (Z.of_nat k) w
  /\ (Z.of_nat k < slot_per_epoch cfg * wc_max_epochs cfg)%Z
  /\ forall rd sh w' sh' out exits, ws_next_slot rd w sh = Ret (w', sh', out, exits) ->
       (exits = true <-> Z.of_nat (1 + k) = slot_per_epoch cfg * wc_max_epochs cfg)%Z.
Proof.
  intros Hspe Hn Hmax Hrun.
  assert (Hinv : shows cfg (Z.of_nat k) w /\ (Z.of_nat k < slot_per_epoch cfg * wc_max_epochs cfg)%Z).
  { induction Hrun as [|k w rd sh w' sh' out _ [IH Hk] E|k w msg w' out _ [IH Hk] E].
    - split; [|simpl; nia]. unfold shows, clock. simpl. by rewrite Z.mod_0_l, Z.div_0_l by lia.
    - assert (Hk' : (0 <= Z.of_nat k < slot_per_epoch cfg * wc_max_epochs cfg)%Z) by lia.
      destruct (clock_tick _ _ _ _ _ _ _ _ _ Hspe Hmax Hk' IH E) as [Hex Hs].
      symmetry in Hex. apply bool_decide_eq_false in Hex.
      replace (Z.of_nat (1 + k)) with (Z.of_nat k + 1)%Z by lia. split; [by apply Hs|lia].
    - split; [|done]. unfold shows. by rewrite (ws_handle_clock _ _ _ _ E). }
  destruct Hinv as [Hs Hk]. split_and!; [done|done|]. intros rd sh w' sh' out exits E.
  assert (Hk' : (0 <= Z.of_nat k < slot_per_epoch cfg * wc_max_epochs cfg)%Z) by lia.
  destruct (clock_tick _ _ _ _ _ _ _ _ _ Hspe Hmax Hk' Hs E) as [-> _].
  rewrite bool_decide_eq_true. lia.
Qed.

(** ** Scheduled outages *)

(** The validator indices named by a scenario. *)
Definition outage_indices (validator_ids : string) : list Z :=
  omap (fun value => let trimmed := trim value in if decide (trimmed = "") then None else parse_u32 trimmed)
    (split_commas validator_ids).

(** [addr] belongs to a validator that the scenario names. *)
Definition in_outage w (validator_ids : string) (addr : string) : Prop :=
  exists i, nodes_index (w_config w) !! addr = Some i /\ i ∈ outage_indices validator_ids.

(** The epochs of an outage: from [start], for ever when the duration is zero. *)
Definition outage_epoch (start duration epoch : Z) : Prop :=
  (start <= epoch)%Z /\ (duration = 0 \/ epoch < u64_sat_add start duration)%Z.

Lemma outage_addresses w start duration ids common addr :
  addr ∈ outage_validator_addresses (w_outage (configure_scheduled_outage w start duration ids common))
  <-> in_outage w ids addr.
Proof.
  simpl. rewrite elem_of_list_to_set, list_elem_of_omap. unfold in_outage. split.
  - intros ([a i] & Hin & Hd). apply elem_of_map_to_list in Hin. case_decide as Hi; [|done]. simplify_eq/=.
    exists i. split; [done|]. by apply elem_of_list_to_set in Hi.
  - intros (i & Hl & Hi). exists (addr, i). split; [by apply elem_of_map_to_list|]. simpl.
    rewrite decide_True; [done|]. by apply elem_of_list_to_set.
Qed.

(** A scheduled outage takes exactly the named validators offline, exactly in its
    epochs: after a scenario is configured, the availability flag that is set for an
    epoch is false just when the node's index is in the list and the epoch lies in
    the window (which never ends when the duration is zero); and a proposer whose
    flag is false produces nothing: the slot counts as failed, nothing else of the
    world state changes and no message is sent. *)
Theorem outage_respected w (start duration : Z) (ids : string) (common : bool) sh (epoch : Z) (addr : string)
    (flag : bool) :
  sh_available sh !! addr = Some flag ->
  let w' := configure_scheduled_outage w start duration ids common in
  let sh' := update_scheduled_availability w' sh epoch in
  (available sh' addr = false <-> in_outage w ids addr /\ outage_epoch start duration epoch)
  /\ (available sh' addr = false -> forall rd miner, v_address miner = addr ->
        produce rd w' sh' miner = Ret (count_failure w', sh', [], false, "scheduled_outage")).
Proof.
  intros Hf w' sh'. split.
  - unfold available, sh', update_scheduled_availability, get_or. simpl.
    rewrite map_lookup_imap, Hf. simpl. rewrite orb_false_iff, negb_false_iff, bool_decide_eq_false.
    unfold scheduled_outage_active, w'. cbn [w_outage configure_scheduled_outage outage_start_epoch outage_duration_epochs].
    set (addrs := outage_validator_addresses _). rewrite <- (outage_addresses w start duration ids common addr).
    fold addrs. unfold outage_epoch. split.
    + intros [Hact Hin]. apply dec_stable in Hin. split; [done|].
      destruct (bool_decide (addrs = ∅)); [done|]. simpl in Hact.
      destruct (Z.ltb_spec epoch start); [done|]. apply orb_true_iff in Hact as [Hz%Z.eqb_eq|Hlt%Z.ltb_lt]; lia.
    + intros (Hin & Hge & Hd). split; [|tauto]. rewrite bool_decide_false by set_solver. simpl.
      destruct (Z.ltb_spec epoch start); [lia|]. apply orb_true_iff. rewrite Z.eqb_eq, Z.ltb_lt. done.
  - intros Hoff rd miner Hm. unfold produce. rewrite Hm, Hoff. done.
Qed.

End worldfacts.
