(* ===== verification/Production.v ===== *)
(** * Block production

    When the proposer of a slot produces a block ([produce] of [WorldState]), and
    how an unverified transaction in its mempool prevents it. *)

From stdpp Require Import sorting.
From S2P Require Export WorldFacts.
Local Open Scope rust_scope.

Section production.
Context {F S : Type} `{F64 F} `{Crypto} `{!CryptoLaws} `{TxSerde F} `{BlockSerde} `{MapOrder} `{MetaSerde}
  `{PathVerifier F} `{Consensus F S}.
Implicit Types (w : WorldState F S) (sh : Shared F) (rd : WorldReadings F) (packed : list (TransactionPaths F)).

(** ** Building never panics *)

(** [bls_aggregated_sign] unwraps [add_signature], but is reached only after
    [verify_completed_hops]: the signatures it adds have each been verified. *)
Lemma aggregate_total reg (p : TransactionPaths F) : exists a, from_transaction_paths reg p = Ret a.
Proof.
  unfold from_transaction_paths. do 2 (case_decide; [by eexists|]).
  destruct (verify_completed_hops reg p) eqn:Hv; [|by eexists]. simpl negb. cbv iota.
  destruct (hop_signatures_claims reg p 0 Hv ltac:(lia)) as (l & Hl & Hsig & _ & _).
  rewrite drop_0 in Hsig. rewrite Hsig. destruct l as [|x l]; [by eexists|]. cbn [map bls_aggregated_sign].
  destruct (bls_aggregate_valid x l Hl) as [agg ->]. by eexists.
Qed.

Lemma aggregate_all_total reg packed :
  exists l, aggregate_all reg packed = Ret l /\ length l = length packed.
Proof.
  induction packed as [|p packed (l & E & Hl)]; [by exists []|]. simpl.
  destruct (aggregate_total reg p) as [a ->]. exists (a :: l). simpl. by rewrite E, Hl.
Qed.

Lemma merkle_root_total ds : exists r, cal_merkle_root (map hex_encode ds) = Ret r.
Proof. unfold cal_merkle_root. rewrite merkle_loop_digests. by eexists. Qed.

Lemma path_root_total l : exists r, cal_path_root l = Ret r.
Proof.
  unfold cal_path_root. rewrite <- (map_map (fun p => Hasher_hash (asp_json p)) hex_encode).
  apply merkle_root_total.
Qed.

(** A hash of a verified transaction is the rendering of a digest. *)
Lemma verified_hashes (txs : list (Transaction F)) :
  all_verify txs = Ret true -> exists ds, map tx_hash txs = map hex_encode ds.
Proof.
  intros Hv. exists (map (fun t => Hasher_hash (tx_json (tx_blank t))) txs). rewrite map_map.
  apply map_ext_in. intros t Ht%list_elem_of_In. apply verify_hash. by eapply all_verify_elem.
Qed.

Lemma all_verify_forall (txs : list (Transaction F)) :
  Forall (fun t => Transaction_verify t = Ret true) txs -> all_verify txs = Ret true.
Proof. induction 1 as [|t txs Ht _ IH]; [done|]. simpl. by rewrite Ht. Qed.

Lemma packed_block_total reg now (bc : Blockchain F) epoch slot packed wallet lb :
  last (blocks bc) = Some lb ->
  Forall (fun p => Transaction_verify (tp_transaction p) = Ret true) packed ->
  exists b, packed_block reg now bc epoch slot packed wallet = Ret (Ok b)
    /\ Block_verify b = Ret true
    /\ transactions (body b) = map tp_transaction packed
    /\ h_parent_hash (header b) = h_hash (header lb)
    /\ h_index (header b) = u64_add (h_index (header lb)) 1
    /\ h_epoch (header b) = epoch /\ h_slot (header b) = slot /\ h_miner (header b) = address wallet.
Proof.
  intros Hl Hv. unfold packed_block. destruct (aggregate_all_total reg packed) as (agg & -> & Hlen).
  unfold get_last_index, get_last_hash, get_last_block. rewrite Hl. simpl.
  assert (Hav : all_verify (map tp_transaction packed) = Ret true) by (by apply all_verify_forall, Forall_fmap).
  destruct (verified_hashes _ Hav) as [ds Hds]. destruct (merkle_root_total ds) as [mr Hmr].
  destruct (path_root_total agg) as [pr Hpr].
  unfold Block_new. cbn [transactions paths]. rewrite decide_False by (rewrite length_map; lia).
  rewrite Hav. cbn [outcome_bind negb]. rewrite Hds, Hmr. cbn [outcome_bind]. rewrite Hpr. cbn [outcome_bind].
  eexists. split; [done|]. split_and!; try done. apply verify_base_true. cbn [body transactions paths].
  split_and!; [rewrite length_map; lia|done| |done|done]. unfold tx_hashes. cbn [body transactions].
  by rewrite Hds.
Qed.

(** ** An online proposer produces *)

(** The proposer of the slot is online and has a wallet and a mempool. *)
Record can_propose w sh (miner : Validator F) (wallet : Wallet) (mempool : Mempool F) : Prop := {
  cp_available : available sh (v_address miner) = true;
  cp_wallet : node_wallets (w_config w) !! v_address miner = Some wallet;
  cp_mempool : sh_mempools sh !! v_address miner = Some mempool
}.

(** The clock is not behind the last block. *)
Definition not_behind w (lb : Block F) : Prop :=
  let s := w_slot w in
  (h_epoch (header lb) <= current_epoch s)%Z
  /\ (h_epoch (header lb) = current_epoch s -> h_slot (header lb) <= Message.current_slot s)%Z.

Definition packs w (mempool : Mempool F) : list (TransactionPaths F) :=
  to_pack (wc_max_tx_per_block (w_config w)) (w_blockchain w) mempool.

(** The mempool a proposer is left with. *)
Definition after_packing w sh (miner : Validator F) (mempool : Mempool F) : Shared F :=
  if decide (packs w mempool = []) then sh
  else set_mempool sh (v_address miner) (remove_all (map path_hash (packs w mempool)) mempool).

Lemma to_pack_fresh n (bc : Blockchain F) mempool p :
  p ∈ to_pack n bc mempool -> exist_transaction bc (path_hash p) = false.
Proof.
  unfold to_pack. intros Hp.
  assert (Hp' : p ∈ merge_sort pack_le (filter (fun p => exist_transaction bc (path_hash p) = false)
                     (map snd (iter_map mempool)))).
  { rewrite <- (take_drop n). apply elem_of_app. by left. }
  rewrite merge_sort_Permutation in Hp'. by apply list_elem_of_filter in Hp' as [? _].
Qed.

Lemma build_canonical_block_eq now w sh miner wallet mempool epoch slot :
  can_propose w sh miner wallet mempool ->
  build_canonical_block now w sh miner epoch slot
  = let! r := packed_block (sh_registry sh) now (w_blockchain w) epoch slot (packs w mempool) wallet in
    Ret (after_packing w sh miner mempool, r).
Proof.
  intros [_ Hw Hm]. unfold build_canonical_block, after_packing, packs. rewrite Hw, Hm.
  by case_decide.
Qed.

(** C37: An online proposer produces a block.  In a slot whose proposer is available
    and has a wallet and a mempool of transactions that verify, on a chain whose
    last block is not ahead of the clock, the world state builds a block, the chain
    accepts it and it becomes the last block: it carries exactly the transactions
    selected from the mempool, in the slot of the clock, signed off by the proposer,
    and the mempool loses exactly those.  The new header's hash is assumed to differ
    from the last block's. *)
Theorem proposer_produces rd w sh (miner : Validator F) (wallet : Wallet) (mempool : Mempool F) (lb : Block F) :
  can_propose w sh miner wallet mempool ->
  last (blocks (w_blockchain w)) = Some lb ->
  not_behind w lb ->
  Forall (fun p => Transaction_verify (tp_transaction p) = Ret true) (packs w mempool) ->
  (forall b, packed_block (sh_registry sh) (wr_now rd) (w_blockchain w) (current_epoch (w_slot w))
               (Message.current_slot (w_slot w)) (packs w mempool) wallet = Ret (Ok b) ->
             h_hash (header b) <> h_hash (header lb)) ->
  exists w' out b,
    produce rd w sh miner = Ret (w', after_packing w sh miner mempool, out, true, "")
    /\ last (blocks (w_blockchain w')) = Some b
    /\ transactions (body b) = map tp_transaction (packs w mempool)
    /\ h_miner (header b) = address wallet
    /\ h_epoch (header b) = current_epoch (w_slot w) /\ h_slot (header b) = Message.current_slot (w_slot w).
Proof.
  intros Hcp Hl [Hep Hsl] Hv Hh.
  destruct (packed_block_total (sh_registry sh) (wr_now rd) (w_blockchain w) (current_epoch (w_slot w))
    (Message.current_slot (w_slot w)) (packs w mempool) wallet lb Hl Hv)
    as (b & Hb & Hbv & Htx & Hpar & Hix & Hbe & Hbs & Hmin).
  assert (Hacc : acceptable (w_blockchain w) lb b).
  { split_and!; [done| |].
    - split_and!; [done|by apply Hh|done|by rewrite Hbe|by rewrite Hbe, Hbs].
    - intros h Hin. unfold tx_hashes in Hin. rewrite Htx in Hin.
      apply list_elem_of_fmap in Hin as (t & -> & Ht). apply list_elem_of_fmap in Ht as (p & -> & Hp).
      apply to_pack_fresh in Hp. unfold exist_transaction in Hp. by apply bool_decide_eq_false in Hp. }
  unfold produce. rewrite (cp_available _ _ _ _ _ Hcp). cbn [negb].
  rewrite (build_canonical_block_eq _ _ _ _ _ _ _ _ Hcp), Hb. cbn [outcome_bind].
  unfold apply_canonical_block. rewrite (add_block_accept _ _ _ Hl Hacc). cbn [outcome_bind].
  set (w1 := count_success (w_set_chain w (appended (w_blockchain w) b))).
  pose proof (settle_block_chain w1 b) as Hc. destruct (settle_block w1 b) as [w2 out2]. cbn [fst] in Hc.
  eexists w2, _, b. split; [done|]. rewrite Hc. split_and!; try done. simpl.
  case_decide as Hd; [|by rewrite last_snoc]. rewrite length_app in Hd. simpl in Hd.
  destruct (blocks (w_blockchain w)) as [|b0 l]; [done|]. simpl. by rewrite drop_0, last_snoc.
Qed.

(** ** An unverified transaction *)

(** Verification of a list that does not panic and meets a transaction that fails. *)
Lemma all_verify_false (txs : list (Transaction F)) t :
  Forall (fun t => Transaction_verify t <> Panic) txs -> t ∈ txs -> Transaction_verify t = Ret false ->
  all_verify txs = Ret false.
Proof.
  induction 1 as [|x txs Hx _ IH]; [by intros ?%elem_of_nil|]. intros Ht Hf. simpl.
  destruct (Transaction_verify x) as [[]|] eqn:E; simpl; [|done|done].
  apply elem_of_cons in Ht as [->|Ht]; [congruence|by apply IH].
Qed.

(** One unverified transaction costs the proposer its slot and its other
    transactions.  When a transaction that does not verify is among those selected
    from the mempool (the checks of the others returning normally), no block is
    built: the slot counts as failed and the chain stays as it is, but every
    selected transaction, the valid ones included, has left the mempool. *)
Theorem unverified_transaction_fails_slot rd w sh (miner : Validator F) (wallet : Wallet)
    (mempool : Mempool F) (lb : Block F) (p : TransactionPaths F) :
  can_propose w sh miner wallet mempool -> last (blocks (w_blockchain w)) = Some lb ->
  p ∈ packs w mempool -> Transaction_verify (tp_transaction p) = Ret false ->
  Forall (fun q => Transaction_verify (tp_transaction q) <> Panic) (packs w mempool) ->
  produce rd w sh miner = Ret (count_failure w, after_packing w sh miner mempool, [], false, "build_failed")
  /\ forall q, q ∈ packs w mempool ->
       mempool_of (after_packing w sh miner mempool) (v_address miner) !! path_hash q = None.
Proof.
  intros Hcp Hl Hp Hf Hnp. split.
  - unfold produce. rewrite (cp_available _ _ _ _ _ Hcp). cbn [negb].
    rewrite (build_canonical_block_eq _ _ _ _ _ _ _ _ Hcp). unfold packed_block.
    destruct (aggregate_all_total (sh_registry sh) (packs w mempool)) as (agg & -> & Hlen).
    unfold get_last_index, get_last_hash, get_last_block. rewrite Hl. cbn [outcome_bind expect].
    unfold Block_new. cbn [transactions paths]. rewrite decide_False by (rewrite length_map; lia).
    rewrite (all_verify_false _ (tp_transaction p)); [done| |by apply list_elem_of_fmap_2|done].
    by apply Forall_fmap.
  - intros q Hq. unfold after_packing. rewrite decide_False by (intros E; rewrite E in Hq; by apply elem_of_nil in Hq).
    rewrite mempool_of_set, remove_all_lookup. rewrite decide_True by (by apply list_elem_of_fmap_2). done.
Qed.

End production.
