(* ===== verification/Accounts.v ===== *)
(** * Accounts

    How the rewards of an accepted block reach the balances of the world state
    ([settle_block] and [apply_canonical_block] of [WorldState]), over the reals. *)

From Stdlib Require Import Reals Lra.
From S2P Require Export WorldFacts.
Local Open Scope rust_scope.

Section accounts.
Local Open Scope R_scope.
Context {S : Type} `{Crypto} `{TxSerde R} `{BlockSerde} `{MapOrder} `{MetaSerde} `{PathVerifier R} `{Consensus R S}.
Implicit Types (w : WorldState R S) (m : gmap string R) (ds : list (BalanceDelta R)).

(** What [addr] receives. *)
Definition received (addr : string) ds : R :=
  fsum (map (fun d => if decide (bd_address d = addr) then bd_amount d else 0) ds).

Definition total_balance m : R := fsum (map_values m).

Lemma credit_get ds : forall m addr, get_or 0 (credit m ds) addr = get_or 0 m addr + received addr ds.
Proof.
  induction ds as [|d ds IH]; intros m addr; [unfold received; cbn [map]; rewrite fsum_nil; simpl; lra|].
  change (credit m (d :: ds))
    with (credit (entry_update f0 (fun x => f_add x (bd_amount d)) (bd_address d) m) ds).
  rewrite IH. unfold received. cbn [map]. rewrite fsum_cons. case_decide as He.
  - subst addr. change (f0 (F := R)) with 0. rewrite entry_update_eq. simpl. lra.
  - change (f0 (F := R)) with 0. rewrite entry_update_ne by done. lra.
Qed.

Lemma credit_total ds : forall m, total_balance (credit m ds) = total_balance m + amounts ds.
Proof.
  induction ds as [|d ds IH]; intros m; [unfold amounts; cbn [map]; rewrite fsum_nil; simpl; lra|].
  change (credit m (d :: ds))
    with (credit (entry_update f0 (fun x => f_add x (bd_amount d)) (bd_address d) m) ds).
  rewrite IH. unfold amounts at 2. cbn [map]. rewrite fsum_cons. fold (amounts ds).
  unfold total_balance at 1. change (fun x : R => f_add x (bd_amount d)) with (fun x : R => x + bd_amount d).
  change (f0 (F := R)) with 0. rewrite sum_entry_update. unfold total_balance. lra.
Qed.

Lemma credit_touched ds : forall m d, d ∈ ds -> is_Some (credit m ds !! bd_address d).
Proof.
  assert (Hkeep : forall ds m addr, is_Some (m !! addr) -> is_Some (credit m ds !! addr)).
  { clear ds. induction ds as [|d ds IH]; intros m addr Hm; [done|]. apply (IH (entry_update _ _ _ m)).
    unfold entry_update. destruct (decide (bd_address d = addr)) as [<-|Hne].
    - rewrite lookup_insert_eq. by eexists.
    - by rewrite lookup_insert_ne. }
  induction ds as [|x ds IH]; intros m d Hd; [by apply elem_of_nil in Hd|].
  apply elem_of_cons in Hd as [->|Hd]; [|by apply (IH (entry_update _ _ _ m))].
  apply (Hkeep ds (entry_update _ _ _ m)). unfold entry_update. rewrite lookup_insert_eq. by eexists.
Qed.

(** The notices sent to nodes. *)
Lemma balance_updates_complete m ds d : d ∈ ds ->
  (bd_address d, get_or 0 (credit m ds) (bd_address d)) ∈ balance_updates (credit m ds) ds.
Proof.
  intros Hd. unfold balance_updates. apply list_elem_of_omap. exists (bd_address d). split.
  - apply elem_of_elements, elem_of_list_to_set. by apply list_elem_of_fmap_2.
  - destruct (credit_touched ds m d Hd) as [x Hx]. unfold get_or. rewrite Hx. done.
Qed.

Lemma apply_canonical_block_inv w b w' out :
  apply_canonical_block w b = Ret (w', out, Ok ()) ->
  exists bc, add_block (w_blockchain w) b = Ret (bc, Ok ())
    /\ (w', out) = settle_block (count_success (w_set_chain w bc)) b.
Proof.
  unfold apply_canonical_block. destruct (add_block _ b) as [[bc [[]|]]|]; simpl; [|done|done].
  destruct (settle_block _ b) as [w1 out1] eqn:E. intros [= <- <-]. exists bc. by rewrite E.
Qed.

(** The rewards a protocol hands out for an accepted block reach the accounts,
    whatever the protocol: every address gains exactly the amounts of its own
    deltas, all balances together gain exactly the sum, and every node that was
    paid is sent its new balance. *)
Theorem rewards_reach_balances w (b : Block R) w' (out : list (Event R)) :
  apply_canonical_block w b = Ret (w', out, Ok ()) ->
  let '(s', ds) := c_distribute_rewards (w_consensus w) b (w_validators w) in
  w_consensus w' = s' /\ w_validators w' = w_validators w
  /\ (forall addr, get_or 0 (w_balances w') addr = get_or 0 (w_balances w) addr + received addr ds)
  /\ total_balance (w_balances w') = total_balance (w_balances w) + amounts ds
  /\ (forall d, d ∈ ds -> nodes_sender (w_config w) !! bd_address d = Some tt ->
        Sent (ToNode (bd_address d) (UpdateNodeBalance (get_or 0 (w_balances w') (bd_address d)))) ∈ out).
Proof.
  intros (bc & _ & E)%apply_canonical_block_inv. unfold settle_block in E. simpl in E.
  destruct (c_distribute_rewards _ b _) as [s' ds]. injection E as -> ->. simpl. split_and!; try done.
  - intros addr. apply credit_get.
  - apply credit_total.
  - intros d Hd Hs. apply list_elem_of_omap. eexists. split; [by apply balance_updates_complete|].
    simpl. by rewrite Hs.
Qed.

End accounts.

(** ** Supply under TopoStake *)

Section supply.
Local Open Scope R_scope.
Context `{Crypto} `{TxSerde R} `{BlockSerde} `{MapOrder} `{MetaSerde} `{Rng R} `{PathVerifier R} `{FloatFmt R}.
Implicit Types (w : WorldState R (TopoStakeConsensus R)) (st : TopoStakeConsensus R).

(** Money in accounts and in rewards that are not yet paid. *)
Definition supply w : R := total_balance (w_balances w) + amounts (queued (pending_rewards (w_consensus w))).

(** What a block adds to it. *)
Definition minted st (vs : list (Validator R)) (b : Block R) : R :=
  let p := compute_block_rewards st b vs in base_reward st + rp_total_fee p - rp_burned_relay_fee p.

(** Blocks applied one after the other. *)
Inductive applied : WorldState R (TopoStakeConsensus R) -> list (Block R) -> WorldState R (TopoStakeConsensus R) -> Prop :=
  | ap_nil w : applied w [] w
  | ap_cons w b bs w1 out w2 :
      apply_canonical_block w b = Ret (w1, out, Ok ()) -> applied w1 bs w2 -> applied w (b :: bs) w2.

Lemma applied_step w b w' out :
  config_ok (config (w_consensus w)) -> path_fits (max_path_hops (config (w_consensus w))) ->
  (forall tx, tx ∈ transactions (body b) -> 0 <= tx_fee tx) ->
  apply_canonical_block w b = Ret (w', out, Ok ()) ->
  supply w' = supply w + minted (w_consensus w) (w_validators w) b
  /\ w_validators w' = w_validators w
  /\ exists q, w_consensus w' = set_pending_rewards (w_consensus w) q.
Proof.
  intros Hcfg Hfit Hfee (bc & _ & E)%apply_canonical_block_inv. unfold settle_block in E.
  cbn [c_distribute_rewards topostake_consensus w_consensus w_validators count_success w_set_counters w_set_chain] in E.
  rewrite distribute_rewards_eq in E. cbv zeta in E. injection E as -> _. simpl.
  split_and!; [|done|by eexists]. unfold supply, minted. simpl.
  set (q := pending_rewards (w_consensus w) ++ [_]). set (now := h_index (header b)).
  pose proof (settle_front_split now q) as Hsplit. apply (f_equal amounts) in Hsplit.
  rewrite amounts_app in Hsplit. unfold q at 1 in Hsplit. rewrite queued_app, amounts_app in Hsplit.
  unfold queued at 2 in Hsplit. simpl in Hsplit. rewrite app_nil_r in Hsplit.
  destruct (plan_conserves (w_consensus w) b (w_validators w) Hcfg Hfit Hfee) as (Hc & Ha & _).
  rewrite credit_total. lra.
Qed.

(** C11: The supply is accounted for along the chain: applying any sequence of blocks
    with non-negative fees, the balances and the queued rewards together grow by
    exactly the base reward and the fees of every block less what was burned.  No
    reward is lost or created between the protocol's queue and the accounts. *)
Theorem supply_accounted w (bs : list (Block R)) w' :
  config_ok (config (w_consensus w)) -> path_fits (max_path_hops (config (w_consensus w))) ->
  Forall (fun b => forall tx, tx ∈ transactions (body b) -> 0 <= tx_fee tx) bs ->
  applied w bs w' ->
  supply w' = supply w + fsum (map (minted (w_consensus w) (w_validators w)) bs).
Proof.
  intros Hcfg Hfit Hfee Hap. induction Hap as [w|w b bs w1 out w2 E Hap IH].
  - cbn [map]. rewrite fsum_nil. lra.
  - inversion_clear Hfee as [|? ? Hb Hbs]. cbn [map]. rewrite fsum_cons.
    destruct (applied_step _ _ _ _ Hcfg Hfit Hb E) as (Hs & Hv & q & Hq).
    rewrite Hq, Hv in IH. rewrite (IH Hcfg Hfit Hbs), Hs. unfold minted.
    change (compute_block_rewards (set_pending_rewards ?a ?b) ?c ?d) with (compute_block_rewards a c d). simpl. lra.
Qed.

End supply.
