(* ===== verification/ReportFacts.v ===== *)
(** * Correctness of the reports

    The rewards and contributions the world state reports are those of the
    protocol, and the weight bound it checks at every epoch cannot be violated. *)

From Stdlib Require Import Reals Lra.
From S2P Require Export Accounts.
Local Open Scope rust_scope.

Section rewards.
Local Open Scope R_scope.
Context `{Rng R} `{PathVerifier R} `{MapOrder} `{!MapOrderLaws}.
Implicit Types (st : TopoStakeConsensus R) (b : Block R) (r : EpochRewardReport R) (m : gmap string R).

(** Every path of the block is short enough for the protocol. *)
Definition within (cfg : TopoStakeConfig R) b : Prop :=
  Forall (fun p => (length (full_path p (h_miner (header b))) - 1 <= max_path_hops cfg)%nat) (paths (body b)).

Lemma evidence_eligible cfg b idx tx :
  within cfg b -> transactions (body b) !! idx = Some tx ->
  evidence_path b idx = eligible_path cfg b idx tx.
Proof.
  intros Hw Htx. unfold evidence_path, eligible_path, evidence_ok. rewrite Htx.
  destruct (paths (body b) !! idx) as [p|] eqn:Ep; [|done].
  unfold valid_path_record. pose proof (Forall_lookup_1 _ _ _ _ Hw Ep) as Hp. simpl in Hp.
  by rewrite bool_decide_true.
Qed.

Lemma credit_snoc m ds d :
  credit m (ds ++ [d]) = entry_update f0 (fun x => f_add x (bd_amount d)) (bd_address d) (credit m ds).
Proof. unfold credit. by rewrite fold_left_app. Qed.

(** The report pays the relays the protocol pays. *)
Lemma pay_relay_steps D vset budget nodes m l : forall a ds,
  fold_left (pay_relay D vset budget nodes) l (a, credit m ds)
  = (let r := fold_left (pay_step D vset budget nodes) l (a, ds) in (r.1, credit m r.2)).
Proof.
  induction l as [|i l IH]; intros a ds; [done|]. cbn [fold_left].
  assert (Hstep : pay_relay D vset budget nodes (a, credit m ds) i
    = ((pay_step D vset budget nodes (a, ds) i).1, credit m (pay_step D vset budget nodes (a, ds) i).2)).
  { unfold pay_relay, pay_step. cbn [fst snd]. case_decide; [|done]. case_match; [|done].
    cbn [fst snd]. by rewrite credit_snoc. }
  rewrite Hstep. destruct (pay_step D vset budget nodes (a, ds) i) as [a' ds']. apply IH.
Qed.

Lemma relay_payments_report D vset budget nodes m :
  fold_left (pay_relay D vset budget nodes) (relay_positions (length nodes - 1)) (f0, m)
  = ((relay_payments D vset budget nodes).1, credit m (relay_payments D vset budget nodes).2).
Proof. exact (pay_relay_steps D vset budget nodes m _ f0 []). Qed.

(** A report [r'] after [r] grows as the accumulator [p'] of the protocol after [p]. *)
Definition grows r r' (p p' : list (BalanceDelta R) * R * R) : Prop :=
  exists pushed,
    p'.1.1 = p.1.1 ++ pushed
    /\ relay_by_address r' = credit (relay_by_address r) pushed
    /\ proposer_by_address r' = proposer_by_address r
    /\ total_proposer_reward r' = total_proposer_reward r
    /\ total_relay_reward r' - total_relay_reward r = p'.1.2 - p.1.2
    /\ burned_relay_fee r' - burned_relay_fee r = p'.2 - p.2.

Lemma grows_refl r p : grows r r p p.
Proof. exists []. rewrite app_nil_r. split_and!; try done; lra. Qed.

Lemma grows_trans r1 r2 r3 p1 p2 p3 : grows r1 r2 p1 p2 -> grows r2 r3 p2 p3 -> grows r1 r3 p1 p3.
Proof.
  intros (x & A1 & A2 & A3 & A4 & A5 & A6) (y & B1 & B2 & B3 & B4 & B5 & B6). exists (x ++ y).
  rewrite B1, A1, app_assoc, B2, A2, B3, A3, B4, A4. unfold credit. rewrite fold_left_app. split_and!; try done; lra.
Qed.

Lemma estimate_step st b vset i tx r p : within (config st) b -> transactions (body b) !! i = Some tx ->
  grows r (estimate_transaction b vset (target_depth (config st)) (proposer_fee_ratio (config st)) r (i, tx))
    p (reward_step st b vset p (i, tx)).
Proof.
  intros Hw Hi. destruct p as [[rewards relay] burned]. unfold estimate_transaction, reward_step. cbn [fst snd].
  rewrite (evidence_eligible (config st) b i tx Hw Hi).
  destruct (eligible_path (config st) b i tx) as [nodes|].
  - rewrite relay_payments_report. destruct (relay_payments _ _ _ _) as [paid ds]. cbn [fst snd].
    exists ds. simpl. split_and!; try done; lra.
  - exists []. rewrite app_nil_r. simpl. split_and!; try done; lra.
Qed.

(** The loop over the transactions of a block, in the report and in the protocol. *)
Lemma estimate_steps st b vset l : within (config st) b ->
  (forall ix, ix ∈ l -> transactions (body b) !! ix.1 = Some ix.2) -> forall r p,
  grows r (fold_left (estimate_transaction b vset (target_depth (config st)) (proposer_fee_ratio (config st))) l r)
    p (fold_left (reward_step st b vset) l p).
Proof.
  intros Hw. induction l as [|[i tx] l IH]; intros Hl r p; [apply grows_refl|]. cbn [fold_left].
  eapply grows_trans; [|apply IH; intros; apply Hl; by right].
  apply estimate_step; [done|]. apply (Hl (i, tx)). left.
Qed.

(** What an address has in a report. *)
Definition reported r (addr : string) : R :=
  get_or 0 (proposer_by_address r) addr + get_or 0 (relay_by_address r) addr.

Lemma estimate_block_plan st b (vs : list (Validator R)) r : within (config st) b ->
  let r' := estimate_block (base_reward st) (validator_set vs) (metrics_snapshot st) r b in
  let p := compute_block_rewards st b vs in
  total_proposer_reward r' = total_proposer_reward r + rp_proposer_reward p
  /\ total_relay_reward r' = total_relay_reward r + rp_relay_reward p
  /\ burned_relay_fee r' = burned_relay_fee r + rp_burned_relay_fee p
  /\ forall addr, reported r' addr = reported r addr + received addr (rp_rewards p).
Proof.
  intros Hw. unfold estimate_block, compute_block_rewards.
  change (default f1 (ms_proposer_fee_ratio (metrics_snapshot st))) with (proposer_fee_ratio (config st)).
  change (ms_depth (metrics_snapshot st)) with (Some (target_depth (config st))). cbv iota zeta.
  set (fee := fsum (map tx_fee (transactions (body b)))).
  set (pr := f_add (base_reward st) (f_mul (proposer_fee_ratio (config st)) fee)).
  set (r1 := mkRewardReport _ _ _ _ _).
  destruct (estimate_steps st b (validator_set vs) (enumerate (transactions (body b))) Hw
    ltac:(intros [i tx] Hi; by apply elem_of_enumerate) r1 ([mkBalanceDelta (h_miner (header b)) pr], f0, f0))
    as (pushed & Hrw & Hrel & Hprop & Htp & Htr & Hbn).
  destruct (fold_left (reward_step _ _ _) _ _) as [[rewards relay] burned]. cbn [fst snd] in *.
  cbn [rp_proposer_reward rp_relay_reward rp_burned_relay_fee rp_rewards].
  unfold r1 in *. cbn [proposer_by_address relay_by_address total_proposer_reward total_relay_reward burned_relay_fee] in *.
  change (f0 (F := R)) with 0 in *. split_and!; [rewrite Htp; done|lra|lra|].
  intros addr. unfold reported. rewrite Hprop, Hrel, credit_get, Hrw. unfold received at 2.
  cbn [map app bd_address bd_amount]. rewrite fsum_cons. fold (received addr pushed).
  change (f0 (F := R)) with 0. case_decide as He.
  - subst addr. rewrite entry_update_eq. simpl. lra.
  - rewrite entry_update_ne by done. lra.
Qed.

(** The sum of the entries of a map under one key. *)
Lemma sum_key m addr :
  fsum (map (fun kv => if decide (kv.1 = addr) then kv.2 else 0) (map_to_list m)) = get_or 0 m addr.
Proof.
  assert (Hz : forall l : list (string * R), addr ∉ l.*1 ->
    fsum (map (fun kv => if decide (kv.1 = addr) then kv.2 else 0) l) = 0).
  { induction l as [|[k v] l IH]; intros Hn; cbn [map]; [by rewrite fsum_nil|]. rewrite fsum_cons.
    cbn [fst snd]. rewrite decide_False by set_solver. rewrite IH; [lra|set_solver]. }
  unfold get_or. destruct (m !! addr) as [v|] eqn:E; simpl.
  - rewrite <- (insert_delete_id m addr v E).
    rewrite (fsum_map_perm _ _ _ (map_to_list_insert _ addr v (lookup_delete_eq m addr))).
    cbn [map]. rewrite fsum_cons. cbn [fst snd]. rewrite decide_True by done. rewrite Hz; [lra|].
    intros Hin. apply list_elem_of_fmap in Hin as ([k x] & -> & Hin). apply elem_of_map_to_list in Hin.
    simpl in Hin. by rewrite lookup_delete_eq in Hin.
  - apply Hz. intros Hin. apply list_elem_of_fmap in Hin as ([k x] & -> & Hin).
    apply elem_of_map_to_list in Hin. simpl in *. congruence.
Qed.

Lemma total_by_address_get r addr : get_or 0 (total_by_address r) addr = reported r addr.
Proof.
  unfold total_by_address, reported.
  set (ds := map (fun ar : string * R => mkBalanceDelta ar.1 ar.2) (iter_map (relay_by_address r))).
  assert (Hfold : forall (l : list (string * R)) m,
    fold_left (fun totals ar => entry_update f0 (fun x => f_add x ar.2) ar.1 totals) l m
    = credit m (map (fun ar => mkBalanceDelta ar.1 ar.2) l)).
  { induction l as [|x l IH]; intros m; [done|]. cbn [fold_left map]. by rewrite IH. }
  rewrite Hfold. fold ds. rewrite credit_get. f_equal. unfold ds, received. rewrite map_map.
  cbn [bd_address bd_amount]. rewrite (fsum_map_perm _ _ _ (iter_map_perm R (relay_by_address r))). apply sum_key.
Qed.

(** The contributions of a report are those of the protocol. *)
Lemma raw_contribution_eq st (bs : list (Block R)) (vs : list (Validator R)) :
  Forall (within (config st)) bs ->
  ws_raw_epoch_contribution bs vs (metrics_snapshot st) = raw_epoch_contribution st bs vs.
Proof.
  intros Hw. unfold ws_raw_epoch_contribution, raw_epoch_contribution.
  change (default f1 (ms_score_cost_reference (metrics_snapshot st))) with (score_cost_reference (config st)).
  change (default 1%nat (ms_depth (metrics_snapshot st))) with (target_depth (config st)). cbv zeta.
  generalize (∅ : gmap string R) as m. induction Hw as [|b bs Hb _ IH]; intros m; [done|]. cbn [fold_left].
  rewrite IH. f_equal. clear IH.
  assert (Hgen : forall l, (forall ix, ix ∈ l -> transactions (body b) !! ix.1 = Some ix.2) -> forall m,
    fold_left (fun raw itx => match evidence_path b itx.1 with
      | None => raw
      | Some nodes => fold_left (fun raw position =>
          if decide (nth position nodes "" ∈ validator_set vs)
          then entry_update f0 (fun x => f_add x (f_mul
                 (transaction_credit_weight (tx_irrecoverable_cost itx.2) (score_cost_reference (config st)))
                 (gamma_for_depth (target_depth (config st)) position (length nodes - 1))))
                 (nth position nodes "") raw
          else raw) (relay_positions (length nodes - 1)) raw
      end) l m
    = fold_left (credit_transaction (config st) (validator_set vs) b) l m).
  { induction l as [|[i tx] l IHl]; intros Hl m'; [done|]. cbn [fold_left].
    rewrite IHl by (intros; apply Hl; by right). f_equal. unfold credit_transaction. cbn [fst snd].
    by rewrite (evidence_eligible (config st) b i tx Hb (Hl (i, tx) ltac:(left))). }
  apply Hgen. intros [i tx] Hi. by apply elem_of_enumerate.
Qed.

(** The epoch report agrees with the protocol.  For blocks whose paths are within
    the protocol's hop limit, the totals the world state reports for an epoch
    (proposer rewards, relay rewards, burned fees) are the sums of the protocol's
    reward plans for those blocks, the reported reward of every address is the sum
    of what the plans give it, and the reported contributions are exactly those the
    protocol scores. *)
Theorem report_matches_rewards st (bs : list (Block R)) (vs : list (Validator R)) :
  Forall (within (config st)) bs ->
  let r := estimate_epoch_rewards (base_reward st) bs vs (metrics_snapshot st) in
  let plans := map (fun b => compute_block_rewards st b vs) bs in
  total_proposer_reward r = fsum (map rp_proposer_reward plans)
  /\ total_relay_reward r = fsum (map rp_relay_reward plans)
  /\ burned_relay_fee r = fsum (map rp_burned_relay_fee plans)
  /\ (forall addr, get_or 0 (total_by_address r) addr = fsum (map (fun p => received addr (rp_rewards p)) plans))
  /\ ws_raw_epoch_contribution bs vs (metrics_snapshot st) = raw_epoch_contribution st bs vs.
Proof.
  intros Hw r plans.
  assert (Hgen : forall r0,
    let r := fold_left (estimate_block (base_reward st) (validator_set vs) (metrics_snapshot st)) bs r0 in
    total_proposer_reward r = total_proposer_reward r0 + fsum (map rp_proposer_reward plans)
    /\ total_relay_reward r = total_relay_reward r0 + fsum (map rp_relay_reward plans)
    /\ burned_relay_fee r = burned_relay_fee r0 + fsum (map rp_burned_relay_fee plans)
    /\ forall addr, reported r addr = reported r0 addr + fsum (map (fun p => received addr (rp_rewards p)) plans)).
  { unfold plans. clear r plans. induction Hw as [|b bs Hb _ IH]; intros r0.
    { cbn [map fold_left]. rewrite !fsum_nil. split_and!; intros; lra. }
    cbn [map fold_left].
    destruct (estimate_block_plan st b vs r0 Hb) as (E1 & E2 & E3 & E4).
    destruct (IH (estimate_block (base_reward st) (validator_set vs) (metrics_snapshot st) r0 b)) as (G1 & G2 & G3 & G4).
    rewrite !fsum_cons, G1, G2, G3, E1, E2, E3. split_and!; try lra.
    intros addr. rewrite fsum_cons, G4, E4. lra. }
  destruct (Hgen empty_reward_report) as (G1 & G2 & G3 & G4). simpl in G1, G2, G3.
  unfold r, estimate_epoch_rewards. split_and!.
  - rewrite G1. lra.
  - rewrite G2. lra.
  - rewrite G3. lra.
  - intros addr. rewrite total_by_address_get, G4. unfold reported. simpl. unfold get_or. rewrite lookup_empty. simpl. lra.
  - by apply raw_contribution_eq.
Qed.

End rewards.

(** ** The weight bound *)

Section bound.
Local Open Scope R_scope.
Context `{Rng R} `{PathVerifier R}.
Implicit Types (st : TopoStakeConsensus R) (vs : list (Validator R)) (adversarial : gset string).

(** The validators of a set of addresses, and the others. *)
Definition members adversarial vs : list (Validator R) := filter (fun v => v_address v ∈ adversarial) vs.
Definition others adversarial vs : list (Validator R) := filter (fun v => v_address v ∉ adversarial) vs.

Lemma members_split adversarial vs : vs ≡ₚ members adversarial vs ++ others adversarial vs.
Proof.
  unfold members, others. symmetry. apply filter_app_complement.
Qed.

Lemma members_nodup adversarial vs : NoDup (addrs vs) -> NoDup (addrs (members adversarial vs)).
Proof.
  unfold addrs. rewrite (Permutation_map v_address (members_split adversarial vs)), map_app.
  by intros (? & _ & _)%NoDup_app.
Qed.

Lemma per_validator_absent f vs addr : addr ∉ addrs vs -> get_or 0 (per_validator f vs) addr = 0.
Proof.
  intros Ha. unfold get_or. replace (per_validator f vs !! addr) with (@None R); [done|]. symmetry.
  unfold per_validator, collect_map. cut (forall m : gmap string R, m !! addr = None ->
    fold_left (fun m kv => <[kv.1 := kv.2]> m) (map (fun v => (v_address v, f v)) vs) m !! addr = None).
  { intros Hg. by apply Hg. }
  unfold addrs in Ha. induction vs as [|v vs IH]; intros m Hm; [done|]. cbn [map fold_left fst snd].
  cbn [map] in Ha. apply not_elem_of_cons in Ha as [Hv Ha]. apply IH; [done|]. by rewrite lookup_insert_ne.
Qed.

(** Summing a map of the validators over a set of addresses. *)
Lemma sum_members f vs adversarial : NoDup (addrs vs) ->
  fsum (map (fun addr => get_or 0 (per_validator f vs) addr) (elements adversarial))
  = fsum (map f (members adversarial vs)).
Proof.
  intros Hnd. set (A := list_to_set (addrs vs) : gset string).
  assert (Hp : elements adversarial ≡ₚ addrs (members adversarial vs) ++ elements (adversarial ∖ A)).
  { apply NoDup_Permutation; [apply NoDup_elements| |].
    - apply NoDup_app. split_and!; [|..|apply NoDup_elements].
      + by apply members_nodup.
      + intros x Hx Hx'. apply elem_of_elements, elem_of_difference in Hx' as [_ Hx']. apply Hx'.
        apply elem_of_list_to_set. unfold addrs in *. apply list_elem_of_fmap in Hx as (v & -> & Hv).
        apply list_elem_of_filter in Hv as [_ Hv]. by apply list_elem_of_fmap_2.
    - intros x. rewrite elem_of_app, !elem_of_elements, elem_of_difference. unfold A. rewrite elem_of_list_to_set.
      split.
      + intros Hx. destruct (decide (x ∈ addrs vs)) as [Hin|]; [left|by right].
        unfold addrs in *. apply list_elem_of_fmap in Hin as (v & -> & Hv). apply list_elem_of_fmap_2.
        by apply list_elem_of_filter.
      + intros [Hx|[Hx _]]; [|done]. unfold addrs in Hx. apply list_elem_of_fmap in Hx as (v & -> & Hv).
        by apply list_elem_of_filter in Hv as [? _]. }
  rewrite (fsum_map_perm _ _ _ Hp), map_app, fsum_app.
  rewrite (fsum_map_ext (fun addr => get_or 0 (per_validator f vs) addr) (fun _ => 0) (elements (adversarial ∖ A))).
  - assert (Hz : forall l : list string, fsum (map (fun _ => 0) l) = 0).
    { induction l as [|x l IH]; cbn [map]; rewrite ?fsum_nil, ?fsum_cons; lra. }
    rewrite Hz, Rplus_0_r. unfold addrs. rewrite map_map. apply fsum_map_ext.
    intros v Hv. apply per_validator_get; [done|]. by apply list_elem_of_filter in Hv as [_ ?].
  - intros x Hx. apply per_validator_absent. apply elem_of_elements, elem_of_difference in Hx as [_ Hx].
    intros Hin. apply Hx. by apply elem_of_list_to_set.
Qed.

(** Validators with distinct addresses and positive stakes. *)
Record all_staked vs : Prop := {
  as_nodup : NoDup (addrs vs);
  as_nonempty : vs <> [];
  as_positive : forall v, v ∈ vs -> 0 < v_stake v
}.

Lemma sum_positive {A} (f : A -> R) l : l <> [] -> (forall x, x ∈ l -> 0 < f x) -> 0 < fsum (map f l).
Proof.
  destruct l as [|x l]; [done|]. intros _ Hf. cbn [map]. rewrite fsum_cons.
  assert (0 < f x) by (apply Hf; left).
  assert (0 <= fsum (map f l)); [|lra]. apply fsum_map_nonneg. intros y Hy. left. apply Hf. by right.
Qed.

Lemma all_staked_staked vs : all_staked vs -> staked vs.
Proof.
  intros [Hnd Hne Hp]. split; [done|]. apply sum_positive; [done|]. intros v Hv.
  rewrite Rmax_left by (left; by apply Hp). by apply Hp.
Qed.

Lemma share_positive vs v : all_staked vs -> v ∈ vs -> 0 < share vs v.
Proof.
  intros Hs Hv. rewrite share_eq by (done || by apply all_staked_staked).
  rewrite Rmax_left by (left; by apply Hs). apply Rmult_lt_0_compat; [by apply Hs|].
  apply Rinv_0_lt_compat. apply (st_total vs). by apply all_staked_staked.
Qed.

(** The stake share of a set of addresses. *)
Lemma stake_share_for vs adversarial : all_staked vs ->
  share_for adversarial (stake_map vs) = fsum (map (share vs) (members adversarial vs)).
Proof.
  intros Hs. pose proof Hs as [Hnd Hne Hp]. unfold share_for, stake_map.
  change (collect_map _) with (per_validator v_stake vs). rewrite (per_validator_sum v_stake vs Hnd).
  set (T := fsum (map v_stake vs)). assert (HT : 0 < T) by (by apply sum_positive).
  change (f_leb T f0) with (Rleb T 0). destruct (Rleb T 0) eqn:E; [apply Rleb_le in E; lra|]. clear E.
  change (f0 (F := R)) with 0. rewrite (sum_members v_stake vs adversarial Hnd). simpl f_div.
  rewrite (fsum_map_ext (share vs) (fun v => / T * v_stake v) (members adversarial vs)).
  - rewrite fsum_map_scale. unfold Rdiv. ring.
  - intros v Hv. apply list_elem_of_filter in Hv as [_ Hv].
    rewrite share_eq by (done || by apply all_staked_staked).
    rewrite Rmax_left by (left; by apply Hp).
    replace (fsum (map (fun v => Rmax (v_stake v) 0) vs)) with T; [unfold Rdiv; ring|].
    apply fsum_map_ext. intros x Hx. rewrite Rmax_left; [done|]. left. by apply Hp.
Qed.

Lemma frozen_map_nonempty st vs : vs <> [] -> frozen_proposer_weights (freeze_proposer_weights st vs) <> ∅.
Proof.
  intros Hne. destruct vs as [|v vs]; [done|]. simpl.
  match goal with |- normalize_map (collect_map ((_, ?x) :: ?l)) <> ∅ => set (l' := l); set (y := x) end.
  assert (Hm : forall (l : list (string * R)) (m : gmap string R), is_Some (m !! v_address v) ->
    is_Some (fold_left (fun m kv => <[kv.1 := kv.2]> m) l m !! v_address v)).
  { induction l as [|[k z] l IH]; intros m Hm; [done|]. cbn [fold_left fst snd]. apply IH.
    destruct (decide (k = v_address v)) as [->|]; [rewrite lookup_insert_eq; by eexists|by rewrite lookup_insert_ne]. }
  assert (Hs : is_Some ((collect_map ((v_address v, y) :: l') : gmap string R) !! v_address v)).
  { unfold collect_map. cbn [fold_left fst snd]. apply Hm. rewrite lookup_insert_eq. by eexists. }
  intros E. apply (f_equal (fun m => m !! v_address v)) in E. rewrite lookup_empty in E.
  unfold normalize_map in E. destruct Hs as [z Hz]. case_match; by rewrite lookup_fmap, Hz in E.
Qed.

Section coalition.
Context st vs adversarial (Hcfg : config_ok (config st)) (Hs : all_staked vs).
Let snapshot := metrics_snapshot (freeze_proposer_weights st vs).
Let damped (v : Validator R) := get_or 0 (damped_score_for_active_set (active_score_history st) vs (score_floor_kappa (config st)))
                  (v_address v).
Let a := fsum (map (share vs) (members adversarial vs)).
Let mass := fsum (map damped (members adversarial vs)).
Let coalition_weight := fsum (map (weight st vs) (members adversarial vs)).
Let total_weight := fsum (map (weight st vs) vs).

Lemma frozen_share_for : share_for adversarial (proposer_weights vs snapshot) = coalition_weight / total_weight.
Proof.
  pose proof (all_staked_staked vs Hs) as Hst. pose proof (total_weight_ge_1 st vs Hcfg Hst) as Hge.
  assert (Hw : proposer_weights vs snapshot = normalize_map (per_validator (weight st vs) vs)).
  { unfold proposer_weights. rewrite decide_False; [done|]. apply frozen_map_nonempty. apply Hs. }
  rewrite Hw. unfold share_for. set (m := per_validator (weight st vs) vs).
  assert (Hsum : fsum (map_values m) = total_weight) by (apply per_validator_sum; apply Hs).
  assert (Hone : fsum (map_values (normalize_map m)) = 1).
  { unfold normalize_map. rewrite Hsum. change (f_leb total_weight f0) with (Rleb total_weight 0).
    destruct (Rleb total_weight 0) eqn:E; [apply Rleb_le in E; unfold total_weight in E; lra|].
    rewrite (fsum_perm _ _ (map_values_fmap _ m)).
    rewrite (fsum_map_ext _ (fun v => / total_weight * v)) by (intros; simpl; unfold Rdiv; ring).
    rewrite fsum_scale, Hsum. field. unfold total_weight. lra. }
  rewrite Hone. change (f_leb 1 f0) with (Rleb 1 0). destruct (Rleb 1 0) eqn:E; [apply Rleb_le in E; lra|].
  rewrite (fsum_map_ext _ (fun addr => / total_weight * get_or 0 m addr)).
  - rewrite fsum_map_scale. unfold m. rewrite sum_members by apply Hs. simpl. unfold coalition_weight. field.
    unfold total_weight. lra.
  - intros addr _. change (f0 (F := R)) with 0. rewrite normalize_map_get by (rewrite Hsum; unfold total_weight; lra).
    rewrite Hsum. unfold Rdiv. ring.
Qed.

Lemma damped_mass_members : damped_mass adversarial snapshot = mass.
Proof.
  unfold damped_mass, mass. change (f0 (F := R)) with 0.
  change (ms_normalized_score snapshot) with (per_validator
    (fun v => active_score (active_score_history st) v
       / (score_floor_kappa (config st) + fsum (map (active_score (active_score_history st)) vs))) vs).
  rewrite sum_members by apply Hs. apply fsum_map_ext. intros v Hv. apply list_elem_of_filter in Hv as [_ Hv].
  unfold damped. by rewrite damped_get by (done || apply Hs).
Qed.

Lemma damped_nonneg v : v ∈ vs -> 0 <= damped v.
Proof.
  intros Hv. unfold damped. rewrite damped_get by (done || apply Hs).
  apply Rmult_le_pos; [apply active_score_nonneg|]. left. apply Rinv_0_lt_compat.
  apply config_ok_bounds in Hcfg as (_ & _ & _ & _ & Hk & _).
  assert (0 <= fsum (map (active_score (active_score_history st)) vs)); [|lra].
  apply fsum_map_nonneg. intros. apply active_score_nonneg.
Qed.

(** Together the members weigh at most what one validator with their stake and their
    scores would. *)
Lemma coalition_weight_le : members adversarial vs <> [] -> coalition_weight <= weight_of (config st) a mass.
Proof.
  intros Hne. unfold coalition_weight, a, mass.
  set (parts := map (fun v => (share vs v, damped v)) (members adversarial vs)).
  replace (fsum (map (weight st vs) (members adversarial vs)))
    with (fsum (map (fun sc => weight_of (config st) sc.1 sc.2) parts)) by (unfold parts; by rewrite map_map).
  replace (map (share vs) (members adversarial vs)) with (map fst parts) by (unfold parts; by rewrite map_map).
  replace (map damped (members adversarial vs)) with (map snd parts) by (unfold parts; by rewrite map_map).
  apply weight_superadditive; [done|unfold parts; by destruct (members adversarial vs)|].
  apply Forall_forall. intros sc Hsc. unfold parts in Hsc. apply list_elem_of_fmap in Hsc as (v & -> & Hv).
  apply list_elem_of_filter in Hv as [_ Hv]. split; [by apply share_positive|by apply damped_nonneg].
Qed.

Lemma total_weight_split :
  0 <= a <= 1 /\ a <= coalition_weight /\ coalition_weight + (1 - a) <= total_weight.
Proof.
  pose proof (all_staked_staked vs Hs) as Hst.
  assert (Hsub : forall v, v ∈ members adversarial vs \/ v ∈ others adversarial vs -> v ∈ vs).
  { intros v [Hv|Hv]; by apply list_elem_of_filter in Hv as [_ ?]. }
  pose proof (shares_sum vs Hst) as H1'.
  rewrite (fsum_map_perm (share vs) _ _ (members_split adversarial vs)), map_app, fsum_app in H1'. fold a in H1'.
  assert (HW : total_weight = coalition_weight + fsum (map (weight st vs) (others adversarial vs))).
  { unfold total_weight. by rewrite (fsum_map_perm (weight st vs) _ _ (members_split adversarial vs)), map_app, fsum_app. }
  assert (0 <= a) by (apply fsum_map_nonneg; intros v Hv; apply share_nonneg; auto).
  assert (0 <= fsum (map (share vs) (others adversarial vs)))
    by (apply fsum_map_nonneg; intros v Hv; apply share_nonneg; auto).
  assert (a <= coalition_weight) by (apply fsum_map_le; intros v Hv; apply weight_bounds; auto).
  assert (fsum (map (share vs) (others adversarial vs)) <= fsum (map (weight st vs) (others adversarial vs)))
    by (apply fsum_map_le; intros v Hv; apply weight_bounds; auto).
  split_and!; lra.
Qed.

Lemma score_dependent_bound_eq : members adversarial vs <> [] ->
  score_dependent_bound adversarial vs snapshot
  = weight_of (config st) a mass / (weight_of (config st) a mass + 1 - a).
Proof.
  intros Hne. destruct total_weight_split as (Ha & _ & _).
  assert (Hpos : 0 < a).
  { unfold a. apply sum_positive; [done|]. intros v Hv. apply list_elem_of_filter in Hv as [_ Hv].
    by apply share_positive. }
  assert (Hw : a <= weight_of (config st) a mass).
  { eapply Rle_trans; [|by apply coalition_weight_le]. apply total_weight_split. }
  unfold score_dependent_bound. rewrite (stake_share_for vs adversarial Hs), damped_mass_members. fold a.
  change (f_gtb a f0) with (Rltb 0 a). rewrite (proj2 (Rltb_lt 0 a) Hpos).
  assert (Hwo : weight_of (config st) a mass
    = f_mul a (f_add f1 (f_mul (default f0 (ms_eta snapshot))
        (propagation_bonus (f_div mass a) (default f0 (ms_bonus_cap snapshot)) (default f1 (ms_bonus_zeta snapshot)))))).
  { unfold weight_of, bonus_of. change (f_gtb a f0) with (Rltb 0 a). by rewrite (proj2 (Rltb_lt 0 a) Hpos). }
  rewrite <- Hwo. change (f_sub (f_add (weight_of (config st) a mass) f1) a)
    with (weight_of (config st) a mass + 1 - a).
  change (f_gtb ?x f0) with (Rltb 0 x). rewrite (proj2 (Rltb_lt 0 _)) by lra. done.
Qed.

Lemma coalition_bound :
  coalition_weight / total_weight <= score_dependent_bound adversarial vs snapshot
  \/ coalition_weight = 0 /\ score_dependent_bound adversarial vs snapshot = 0.
Proof.
  destruct total_weight_split as (Ha & HA & HT).
  destruct (decide (members adversarial vs = [])) as [Hn|Hne].
  - right. split; [unfold coalition_weight; by rewrite Hn|].
    unfold score_dependent_bound. rewrite (stake_share_for vs adversarial Hs), Hn. cbn [map]. rewrite fsum_nil.
    change (f_gtb 0 f0) with (Rltb 0 0). destruct (Rltb 0 0) eqn:E; [apply Rltb_lt in E; lra|]. simpl.
    replace (0 * _) with 0 by ring. case_match; [unfold Rdiv; ring|done].
  - left. rewrite (score_dependent_bound_eq Hne). pose proof (coalition_weight_le Hne) as Hle.
    set (cw := weight_of (config st) a mass) in *.
    assert (Hpos : 0 < a).
    { unfold a. apply sum_positive; [done|]. intros v Hv. apply list_elem_of_filter in Hv as [_ Hv].
      by apply share_positive. }
    apply Rdiv_le_of_mul; [lra|]. apply Rmult_le_reg_r with (cw + 1 - a); [lra|].
    replace (cw / (cw + 1 - a) * total_weight * (cw + 1 - a)) with (cw * total_weight) by (field; lra). nra.
Qed.

End coalition.

(** C12: The weight bound that the world state checks at the end of every epoch is
    never violated under TopoStake: for a validated configuration and validators
    with distinct addresses and positive stakes, whatever set of addresses is
    adversarial and whatever the epoch's blocks and the scores accumulated before,
    the adversaries' share of the frozen proposer weights is at most the
    score-dependent bound (in exact arithmetic, so with room to spare for the
    tolerance of 1e-9), and the flag written is false. *)
Theorem no_bound_violation st (blocks : list (Block R)) vs adversarial :
  config_ok (config st) -> all_staked vs ->
  let snapshot := metrics_snapshot (on_epoch_end st blocks vs) in
  share_for adversarial (proposer_weights vs snapshot) <= score_dependent_bound adversarial vs snapshot
  /\ bound_violation adversarial vs snapshot = false.
Proof.
  intros Hcfg Hs snapshot. unfold snapshot, on_epoch_end.
  match goal with |- context [freeze_proposer_weights ?x vs] => set (st1 := x) end.
  assert (Hc1 : config st1 = config st).
  { unfold st1, activate_score_roots_for_epoch. by destruct (activate_front _ _ _ _) as [[? ?] ?]. }
  assert (Hcfg1 : config_ok (config st1)) by (by rewrite Hc1). clearbody st1.
  assert (Hle : share_for adversarial (proposer_weights vs (metrics_snapshot (freeze_proposer_weights st1 vs)))
                <= score_dependent_bound adversarial vs (metrics_snapshot (freeze_proposer_weights st1 vs))).
  { rewrite (frozen_share_for st1 vs adversarial Hcfg1 Hs).
    destruct (coalition_bound st1 vs adversarial Hcfg1 Hs) as [Hb|[Hz ->]]; [done|].
    rewrite Hz. unfold Rdiv. lra. }
  split; [done|]. unfold bound_violation, f_gtb. apply Rltb_ge. simpl.
  assert (0 <= f_dec (F := R) 1 9); [|simpl in *; lra]. simpl. unfold Rdiv.
  apply Rmult_le_pos; [lra|]. left. apply Rinv_0_lt_compat. lra.
Qed.

End bound.
