(* ===== verification/Witnesses.v ===== *)
(** * Witnesses

    Concrete instances of the theorems that have hypotheses: each lemma applies
    one theorem to an input on which the hypotheses are evaluated.  The
    third-party interfaces are instantiated by the executable toy functions of
    [Wallet.Toy] and by those below. *)

From Stdlib Require Import Reals Lra.
From stdpp Require Import sorting.
From S2P Require Import Formulas SecurityEval PathFacts Blockchain Baselines TopoStakeFacts Metrics Graph Network.
Import Toy.
Local Open Scope rust_scope.

(** ** Wallets, transactions and paths *)

Definition wallet_a : Wallet := toy_wallet Byte.x61.
Definition wallet_b : Wallet := toy_wallet Byte.x62.
Definition wallet_c : Wallet := toy_wallet Byte.x63.
Definition wallet_d : Wallet := toy_wallet Byte.x64.

Definition toy_registry : Registry :=
  <[address wallet_a := Byte.x61 : BlsPublicKey]>
    (<[address wallet_b := Byte.x62 : BlsPublicKey]> (<[address wallet_c := Byte.x63 : BlsPublicKey]> ∅)).

#[local] Instance toy_tx_json {F} : TxSerde F :=
  fun t => as_bytes (tx_from t) ++ as_bytes (tx_to t) ++ to_le_bytes 8 (tx_amount t)
           ++ to_le_bytes 8 (tx_timestamp t) ++ as_bytes (tx_hash t) ++ as_bytes (tx_signature t) ++ tx_data t.

#[local] Instance toy_block_serde : BlockSerde := {|
  header_json h := to_le_bytes 8 (h_index h) ++ to_le_bytes 8 (h_epoch h) ++ to_le_bytes 8 (h_slot h)
                   ++ as_bytes (h_hash h) ++ as_bytes (h_parent_hash h) ++ as_bytes (h_merkle_root h)
                   ++ as_bytes (h_path_root h) ++ as_bytes (h_miner h);
  asp_json a := as_bytes (String.concat "," (asp_paths a)) ++ as_bytes (asp_signature a)
|}.

Definition toy_tx (n : Z) : Transaction Z := with_costs n (address wallet_c) 5 1%Z 1%Z wallet_a.

Definition toy_path : TransactionPaths Z := new_with_epoch_and_chain_id (toy_tx 1) 3 DEFAULT_TOPOSTAKE_CHAIN_ID.

Lemma toy_registered w : w ∈ [wallet_a; wallet_b; wallet_c] -> registered toy_registry w.
Proof.
  rewrite !elem_of_cons. intros [E|[E|[E|E]]]; [..|by apply elem_of_nil in E]; rewrite E;
    (split; [apply toy_wallet_wf|vm_compute; reflexivity]).
Qed.

Lemma honest_relay_verifies_witness :
  exists c' p' a,
    propagate toy_registry clear_receipt_cache_for_tests toy_path wallet_a [wallet_b; wallet_c] = Ret (c', p', true)
    /\ node_sequence p' = map address [wallet_a; wallet_b; wallet_c]
    /\ TransactionPaths_verify toy_registry p' (current_tail p') = Ret true
    /\ from_transaction_paths toy_registry p' = Ret a
    /\ full_path a (current_tail p') = map address [wallet_a; wallet_b; wallet_c]
    /\ verify_at_epoch_uncached toy_registry a (toy_tx 1) (current_tail p') 3 = Ret true.
Proof.
  apply (honest_relay_verifies toy_registry clear_receipt_cache_for_tests (toy_tx 1) 3
           DEFAULT_TOPOSTAKE_CHAIN_ID wallet_a [wallet_b; wallet_c]).
  - vm_compute. reflexivity.
  - reflexivity.
  - apply Forall_forall. intros w Hw. by apply toy_registered.
  - apply (bool_decide_unpack _). vm_compute. exact I.
  - intros w _. reflexivity.
Defined.

Lemma statement_binds_prefix_witness :
  tx_hash_bytes (tx_hash (toy_tx 1)) = tx_hash_bytes (tx_hash (toy_tx 1))
  /\ 7032030%Z = 7032030%Z /\ 3%Z = 3%Z
  /\ take (0 + 2) (map address [wallet_a; wallet_b; wallet_c]) = take (0 + 2) (map address [wallet_a; wallet_b]).
Proof.
  apply (statement_binds_prefix (tx_hash (toy_tx 1)) (tx_hash (toy_tx 1)) 7032030 7032030 3 3
           (map address [wallet_a; wallet_b; wallet_c]) (map address [wallet_a; wallet_b]) 0 0).
  1-4: by vm_compute.
  1-2: simpl; lia.
  - apply collision_check_sound. vm_compute. reflexivity.
  - vm_compute. reflexivity.
Defined.

(** The value of a computation that returns, [d] if it panics. *)
Definition returned {A} (d : A) (o : Outcome A) : A := match o with Ret a => a | Panic => d end.

(** What the miner [wallet_c] records of the transaction it received through [wallet_b]. *)
Definition toy_record : AggregatedSignedPaths :=
  returned (mkAggregatedSignedPaths 0 0 "" [])
    (from_transaction_paths toy_registry
      (returned (clear_receipt_cache_for_tests, toy_path, false)
        (propagate toy_registry clear_receipt_cache_for_tests toy_path wallet_a [wallet_b; wallet_c])).1.2).

Definition toy_request (miner : string) : request (F := Z) := {|
  rq_record := toy_record; rq_tx := toy_tx 1; rq_miner := miner; rq_epoch := 3 |}.

Lemma verify_cache_transparent_witness :
  run_cached toy_registry clear_receipt_cache_for_tests
    [toy_request (address wallet_c); toy_request (address wallet_b); toy_request (address wallet_c)]
  = run_uncached toy_registry
    [toy_request (address wallet_c); toy_request (address wallet_b); toy_request (address wallet_c)].
Proof.
  apply (verify_cache_transparent toy_registry).
  apply (bool_decide_unpack _). vm_compute. exact I.
Defined.

(** A path over three relays, and the record of its signature over the path in
    which the two relays after the origin are one identity: the verifier rejects
    it, as no such identity is registered, but accepts it after the first record,
    whose answer is in the cache. *)
Definition long_registry : Registry := <[address wallet_d := Byte.x64 : BlsPublicKey]> toy_registry.

Definition long_record : AggregatedSignedPaths :=
  returned (mkAggregatedSignedPaths 0 0 "" [])
    (from_transaction_paths long_registry
      (returned (clear_receipt_cache_for_tests, toy_path, false)
        (propagate long_registry clear_receipt_cache_for_tests toy_path wallet_a [wallet_b; wallet_c; wallet_d])).1.2).

Definition merged_record : AggregatedSignedPaths :=
  mkAggregatedSignedPaths (asp_chain_id long_record) (asp_epoch long_record) (asp_signature long_record)
    [address wallet_a; address wallet_b +:+ ">" +:+ address wallet_c].

Definition long_request (a : AggregatedSignedPaths) : request (F := Z) := {|
  rq_record := a; rq_tx := toy_tx 1; rq_miner := address wallet_d; rq_epoch := 3 |}.

Example cached_answer_of_another_path :
  run_uncached long_registry [long_request long_record; long_request merged_record] = Ret [true; false]
  /\ run_cached long_registry clear_receipt_cache_for_tests
       [long_request long_record; long_request merged_record] = Ret [true; true].
Proof. by split; vm_compute. Qed.

(** The receiver [wallet_b] is asked twice to acknowledge the same hop. *)
Definition toy_pending : TransactionPaths Z := (append_outgoing_hop toy_path (address wallet_b) wallet_a).1.

Definition toy_acknowledge (c : PathCaches) : PathCaches * TransactionPaths Z :=
  (returned (c, toy_pending, false) (complete_pending_hop toy_registry c toy_pending wallet_b)).1.

Definition toy_caches : PathCaches := (toy_acknowledge clear_receipt_cache_for_tests).1.

Definition toy_receipt : string * string := default ("", "") (pending_receipt toy_pending).

Lemma receipt_exclusive_witness : toy_receipt.2 = toy_receipt.2.
Proof.
  apply (receipt_exclusive toy_registry clear_receipt_cache_for_tests toy_caches toy_caches
           (toy_acknowledge toy_caches).1 toy_pending (toy_acknowledge clear_receipt_cache_for_tests).2
           toy_pending (toy_acknowledge toy_caches).2 wallet_b wallet_b toy_receipt.1).
  - split; vm_compute; reflexivity.
  - apply rtc_refl.
  - split; vm_compute; reflexivity.
  - vm_compute. reflexivity.
  - vm_compute. reflexivity.
Defined.

(** ** Blocks and the chain *)

Lemma merkle_root_binds_witness :
  [Hasher_hash []; Hasher_hash [Byte.x01]; Hasher_hash [Byte.x02]]
  = [Hasher_hash []; Hasher_hash [Byte.x01]; Hasher_hash [Byte.x02]].
Proof.
  apply merkle_root_binds.
  - reflexivity.
  - apply (bool_decide_unpack _). vm_compute. exact I.
  - apply (bool_decide_unpack _). vm_compute. exact I.
  - apply collision_check_sound. vm_compute. reflexivity.
  - reflexivity.
Defined.

Definition toy_genesis : Block Z :=
  mkBlock (Header_new 0 0 0 0 "" "" "" "") (mkBody [] []).

Definition toy_block (index epoch slot : Z) (parent : string) (txs : list (Transaction Z)) : Block Z :=
  match returned (Ok toy_genesis) (Block_new 9 index epoch slot parent (mkBody txs []) wallet_c) with
  | Ok b => b
  | Err _ => toy_genesis
  end.

Definition toy_block_1 : Block Z := toy_block 1 0 0 (h_hash (header toy_genesis)) [toy_tx 1; toy_tx 2; toy_tx 3].
Definition toy_block_2 : Block Z := toy_block 2 0 1 (h_hash (header toy_block_1)) [toy_tx 4].
Definition toy_chain : Blockchain Z := Blockchain_new toy_genesis.
Definition toy_chain_1 : Blockchain Z := appended toy_chain toy_block_1.
Definition toy_chain_2 : Blockchain Z := appended toy_chain_1 toy_block_2.

Lemma toy_add_1 : add_block toy_chain toy_block_1 = Ret (toy_chain_1, Ok ()).
Proof. vm_compute. reflexivity. Qed.
Lemma toy_add_2 : add_block toy_chain_1 toy_block_2 = Ret (toy_chain_2, Ok ()).
Proof. vm_compute. reflexivity. Qed.

#[local] Opaque toy_block_1 toy_block_2.

Lemma add_block_correct_witness :
  (add_block toy_chain toy_block_1 = Ret (appended toy_chain toy_block_1, Ok ())
   <-> acceptable toy_chain toy_genesis toy_block_1)
  /\ (forall bc' r, add_block toy_chain toy_block_1 = Ret (bc', r) -> r <> Ok () -> bc' = toy_chain).
Proof. apply (add_block_correct toy_chain toy_block_1 toy_genesis). reflexivity. Defined.

Lemma add_block_preserves_chain_witness : chain_ok toy_chain_1.
Proof.
  apply (add_block_preserves_chain toy_chain toy_block_1 toy_chain_1 (Ok ())); [apply chain_ok_new|].
  exact toy_add_1.
Defined.

Lemma toy_chain_1_ok : chain_ok toy_chain_1.
Proof. exact (add_block_chain_ok _ _ _ _ (chain_ok_new _) toy_add_1). Qed.

Lemma pop_block_preserves_chain_witness :
  chain_ok (pop_block toy_chain_1).1 /\ blocks toy_chain_1 = blocks (pop_block toy_chain_1).1 ++ [toy_block_1]
  /\ (forall h, h ∈ tx_hashes toy_block_1 -> h ∉ transaction_index (pop_block toy_chain_1).1).
Proof.
  apply (pop_block_preserves_chain toy_chain_1 (pop_block toy_chain_1).1 toy_block_1); [apply toy_chain_1_ok|].
  reflexivity.
Defined.

Lemma no_transaction_included_twice_witness : tx_hash (toy_tx 1) ∉ tx_hashes toy_block_2.
Proof.
  apply (no_transaction_included_twice toy_chain toy_chain_1 toy_chain_1 toy_chain_2 toy_block_1 toy_block_2).
  - apply chain_ok_new.
  - done.
  - exact toy_add_1.
  - apply rtc_refl.
  - exact toy_add_2.
  - apply (bool_decide_unpack _). vm_compute. exact I.
Defined.

Lemma last_epoch_blocks_witness :
  get_last_epoch_block toy_chain_1
  = Ret (@filter (Block Z) (list (Block Z)) _ (fun b => h_epoch (header b) = h_epoch (header toy_block_1))
           (fun b => Z.eq_dec (h_epoch (header b)) (h_epoch (header toy_block_1))) (blocks toy_chain_1)).
Proof. apply (last_epoch_blocks toy_chain_1 toy_block_1); [apply toy_chain_1_ok|]. reflexivity. Defined.

Lemma add_block_accepts_repeated_tx_witness :
  add_block toy_chain (repeat_last_tx toy_block_1) = Ret (appended toy_chain (repeat_last_tx toy_block_1), Ok ())
  /\ header (repeat_last_tx toy_block_1) = header toy_block_1
  /\ length (transactions (body (repeat_last_tx toy_block_1))) = S (length (transactions (body toy_block_1))).
Proof.
  apply (add_block_accepts_repeated_tx toy_chain toy_block_1 toy_genesis).
  - reflexivity.
  - vm_compute. reflexivity.
  - vm_compute. lia.
  - exact toy_add_1.
Defined.

Lemma block_new_verifies_witness :
  Block_verify toy_block_1 = Ret true /\ body toy_block_1 = mkBody [toy_tx 1; toy_tx 2; toy_tx 3] []
  /\ h_miner (header toy_block_1) = address wallet_c.
Proof.
  apply (block_new_verifies 9 1 0 0 (h_hash (header toy_genesis)) (mkBody [toy_tx 1; toy_tx 2; toy_tx 3] [])
           wallet_c (Ok toy_block_1)).
  vm_compute. reflexivity.
Defined.
