(* ===== verification/WitnessesModel.v ===== *)
(** * Witnesses for the consensus, metrics and simulation theorems

    Concrete instances, as in [Witnesses]: the random generators are instantiated
    by deterministic toy functions, the path verifier by one that accepts every
    record, the protocol configuration by the frozen one. *)

From Stdlib Require Import Reals Lra Sorted.
From stdpp Require Import sorting.
From S2P Require Import Formulas SecurityEval Baselines TopoStakeFacts Metrics Graph Network Witnesses.
Import Toy.
Local Open Scope rust_scope.

(** ** Randomness and the baselines *)

Definition toy_validators {F} (x : F) : list (Validator F) :=
  map (fun w => mkValidator (address w) x x) [wallet_a; wallet_b; wallet_c].

Lemma combine_seed_order_independent_witness :
  combine_seed (toy_validators 1%Z)
    [RandaoSeed_new wallet_a (replicate 32 Byte.x07); RandaoSeed_new wallet_b (replicate 32 Byte.x0b)]
  = combine_seed (toy_validators 1%Z)
    [RandaoSeed_new wallet_b (replicate 32 Byte.x0b); RandaoSeed_new wallet_a (replicate 32 Byte.x07)].
Proof.
  apply (combine_seed_order_independent (toy_validators 1%Z)); [apply Permutation_swap|].
  repeat (apply Forall_cons_2; [intros _; cbn [rs_seed rs_signature rs_address RandaoSeed_new];
    rewrite verify_sign_by_address by apply toy_wallet_wf; done|]).
  apply Forall_nil_2.
Defined.

#[local] Instance toy_rng : Rng R := {| gen_range_f64 _ hi := (hi / 2)%R; gen_range_usize _ _ := 0 |}.
#[local] Instance toy_rng_laws : RngLaws.
Proof. split; [intros seed hi Hhi; simpl; lra|intros seed n Hn; simpl; lia]. Qed.

(** Three validators with stakes 1, 2 and 3. *)
Definition toy_stakes : list (Validator R) :=
  [mkValidator "a" 1%R 1%R; mkValidator "b" 2%R 1%R; mkValidator "c" 3%R 1%R].

Lemma toy_stakes_sum : fsum (map v_stake toy_stakes) = 6%R.
Proof. unfold toy_stakes. cbn [map v_stake]. rewrite !fsum_cons, fsum_nil. lra. Qed.

Lemma toy_stakes_pos v : v ∈ toy_stakes -> (0 < v_stake v)%R.
Proof. unfold toy_stakes. rewrite !elem_of_cons, elem_of_nil. intros [->|[->|[->|[]]]]; simpl; lra. Qed.

Lemma pos_selects_by_stake_witness :
  exists v l1 l2, Pos.select toy_stakes [] = Ret (Ok v) /\ toy_stakes = l1 ++ v :: l2
    /\ (fsum (map v_stake l1) <= gen_range_f64 [] (fsum (map v_stake toy_stakes))
        < fsum (map v_stake l1) + v_stake v)%R
    /\ (0 < v_stake v)%R.
Proof.
  apply (Pos.pos_selects_by_stake toy_stakes []); [done| |rewrite toy_stakes_sum; lra].
  intros v Hv. left. by apply toy_stakes_pos.
Defined.

#[local] Instance toy_sha256 : Sha256 := fun data => Byte.x00 :: toy_digest data.

Definition toy_pow : Pow.PowConsensus Z := Pow.new 5 2 12 1%Z.
Definition toy_pow_validators : list (Validator Z) := [mkValidator "a" 1%Z 1%Z; mkValidator "b" 1%Z 1%Z].

Lemma pow_winner_has_work_witness :
  mkValidator "b" 1%Z 1%Z ∈ toy_pow_validators /\ Pow.proved_work [] 5 (mkValidator "b" 1%Z 1%Z).
Proof.
  eapply (Pow.pow_winner_has_work toy_pow [] 5 toy_pow_validators).
  - eapply rtc_l; [|apply rtc_once, Pow.rs_timeout].
    apply (Pow.rs_hit [] 5 _ _ 1 {| Pow.wk_states := [(mkValidator "b" 1%Z 1%Z, 0%Z)]; Pow.wk_running := true |} 0
      (mkValidator "b" 1%Z 1%Z) 0);
      (reflexivity || by vm_compute).
  - reflexivity.
Defined.

Lemma miner_keeps_best_witness :
  exists b k, Minotaur.ms_best (Minotaur.mine (fun _ => 3%Z) 7 "a" 5) = Some b
    /\ Minotaur.pb_address b = "a" /\ Minotaur.pb_index b = 7%Z
    /\ k <= 4 /\ Minotaur.pb_max_difficulty b = Minotaur.difficulty_at 7 "a" k
    /\ Minotaur.pb_hash_count b = (Z.of_nat k + 1)%Z
    /\ (forall i, i <= 4 -> (Minotaur.difficulty_at 7 "a" i <= Minotaur.pb_max_difficulty b)%Z)
    /\ (forall i, i < k -> (Minotaur.difficulty_at 7 "a" i < Minotaur.pb_max_difficulty b)%Z).
Proof. apply (Minotaur.miner_keeps_best (fun _ => 3%Z) 7 "a" 4). by vm_compute. Defined.

(** ** Formulas *)

Lemma relay_schedule_witness :
  fsum (map (fun i => gamma_for_depth (F := R) 4 i 5) (relay_positions 5)) = path_budget_for_depth 4 5
  /\ (0 < path_budget_for_depth (F := R) 4 5 <= 1)%R
  /\ (forall i, 1 <= i -> i + 1 < 5 ->
        (0 < gamma_for_depth (F := R) 4 (i + 1) 5 < gamma_for_depth 4 i 5 / 2)%R)
  /\ (path_budget_for_depth (F := R) 4 (5 + 1) < path_budget_for_depth 4 5)%R.
Proof. apply (relay_schedule 4 5); [lia|lia|by vm_compute]. Defined.

(** ** TopoStake *)

Definition toy_config : TopoStakeConfig R := frozen_v1.

Lemma toy_config_ok : config_ok toy_config.
Proof.
  unfold config_ok, toy_config, validate, frozen_v1, f_gtb, f_geb, f0, f1. simpl.
  f64_cases; simpl; try reflexivity; exfalso; simpl in *; lra.
Qed.

(** A fresh state, and one in which "c" has relayed. *)
Definition toy_state : TopoStakeConsensus R := mkTopoStake R toy_config 1%R ∅ ∅ None 0 [] ∅ ∅ ∅ ∅ ∅ [].
Definition toy_scored : TopoStakeConsensus R :=
  mkTopoStake R toy_config 1%R {["c" := 2%R]} {["c" := 2%R]} (Some 0%Z) 2 [] ∅ ∅ ∅ ∅ ∅ [].

Lemma toy_state_new : TopoStakeConsensus_new 1%R toy_config = Ok toy_state.
Proof. unfold TopoStakeConsensus_new. rewrite toy_config_ok. reflexivity. Qed.

Lemma toy_staked : staked toy_stakes.
Proof.
  split; [apply (bool_decide_unpack _); vm_compute; exact I|].
  unfold toy_stakes. cbn [map v_stake]. rewrite !fsum_cons, fsum_nil, !Rmax_left by lra. lra.
Qed.

Lemma frozen_weights_distribution_witness :
  fsum (map (frozen toy_scored toy_stakes) toy_stakes) = 1%R
  /\ forall v, v ∈ toy_stakes -> (0 <= frozen toy_scored toy_stakes v <= 1)%R.
Proof. apply frozen_weights_distribution; [exact toy_config_ok|exact toy_staked]. Defined.

Lemma coalition_weight_bound_witness :
  let c := (eta toy_config * bonus_cap toy_config)%R in
  let coalition := [mkValidator "c" 3%R 1%R] in
  let a := fsum (map (share toy_stakes) coalition) in
  (fsum (map (frozen toy_scored toy_stakes) coalition) <= a * (1 + c) / (1 + a * c))%R
  /\ (fsum (map (frozen toy_scored toy_stakes) coalition) <= (1 + c) * a)%R
  /\ forall v, v ∈ toy_stakes -> (frozen toy_scored toy_stakes v <= (1 + c) * share toy_stakes v)%R.
Proof.
  apply (coalition_weight_bound toy_scored toy_stakes [mkValidator "c" 3%R 1%R]
           [mkValidator "a" 1%R 1%R; mkValidator "b" 2%R 1%R]); [exact toy_config_ok|exact toy_staked|].
  change toy_stakes with ([mkValidator "a" 1%R 1%R; mkValidator "b" 2%R 1%R] ++ [mkValidator "c" 3%R 1%R]).
  apply Permutation_app_comm.
Defined.

Lemma damped_mass_below_one_witness :
  let d := damped_score_for_active_set {["c" := 2%R]} toy_stakes 1%R in
  let mass := fsum (map (active_score {["c" := 2%R]}) toy_stakes) in
  fsum (map (fun v => get_or 0%R d (v_address v)) toy_stakes) = (mass / (1 + mass))%R
  /\ (0 <= mass / (1 + mass) < 1)%R
  /\ forall v, v ∈ toy_stakes -> (0 <= get_or 0%R d (v_address v))%R.
Proof. apply (damped_mass_below_one {["c" := 2%R]} toy_stakes 1%R); [apply toy_staked|lra]. Defined.

(** A path verifier that accepts every record. *)
#[local] Instance toy_verifier {F} : PathVerifier F := fun _ _ _ _ => true.

(** A block of "c" at height [i] with one transaction of "a" that came through "b". *)
Definition toy_fee_block {F} (one : F) (i : Z) : Block F :=
  mkBlock (mkHeader i 0 i "" "" 0 "" "" "c")
    (mkBody [mkTransaction F "a" "b" 1 one one "h" "" 0 []]
            [mkAggregatedSignedPaths DEFAULT_TOPOSTAKE_CHAIN_ID 0 "" ["a"; "b"]]).

Lemma fees_conserved_witness :
  let p := compute_block_rewards toy_state (toy_fee_block 1%R 4) toy_stakes in
  (rp_proposer_reward p + rp_relay_reward p + rp_burned_relay_fee p = base_reward toy_state + rp_total_fee p)%R
  /\ amounts (rp_rewards p) = (rp_proposer_reward p + rp_relay_reward p)%R
  /\ (0 <= rp_relay_reward p)%R /\ (0 <= rp_burned_relay_fee p)%R.
Proof.
  apply (fees_conserved toy_state (toy_fee_block 1%R 4) toy_stakes); [exact toy_config_ok|by vm_compute|].
  intros tx Htx. apply list_elem_of_singleton in Htx as ->. simpl. lra.
Defined.

Lemma settlement_timing_witness :
  let l := [(toy_fee_block 1%R 4, toy_stakes); (toy_fee_block 1%R 5, toy_stakes)] in
  let '(st', paid) := settle_run toy_state (l ++ [(toy_fee_block 1%R 6, toy_stakes)]) in
  let batches := map (batch_of toy_state) (l ++ [(toy_fee_block 1%R 6, toy_stakes)]) in
  paid = queued (filter (due_by 6) batches)
  /\ pending_rewards st' = filter (due_after 6) batches
  /\ forall bv, bv ∈ l ++ [(toy_fee_block 1%R 6, toy_stakes)] ->
       settle_at_block (batch_of toy_state bv) = (h_index (header bv.1) + 2)%Z.
Proof.
  apply (settlement_timing toy_state [(toy_fee_block 1%R 4, toy_stakes); (toy_fee_block 1%R 5, toy_stakes)]
           (toy_fee_block 1%R 6) toy_stakes); [reflexivity|].
  split_and!; [|by vm_compute|repeat constructor; by vm_compute].
  repeat constructor; by vm_compute.
Defined.

Lemma raw_credit_bounded_witness :
  (fsum (map_values (raw_epoch_contribution toy_state [toy_fee_block 1%R 4; toy_fee_block 1%R 5] toy_stakes))
   <= traffic [toy_fee_block 1%R 4; toy_fee_block 1%R 5])%R.
Proof. apply raw_credit_bounded. by vm_compute. Defined.

Lemma saturated_split_no_gain_witness :
  (fsum (map (fun rs => saturated_contribution rs.1 rs.2 1) [(1, 1); (2, 3)])
   <= saturated_contribution (fsum (map fst [(1, 1); (2, 3)])) (fsum (map snd [(1, 1); (2, 3)])) 1)%R.
Proof.
  apply saturated_split_no_gain; [lra|done|].
  repeat (apply Forall_cons_2; [simpl; lra|]). apply Forall_nil_2.
Defined.

Lemma weight_split_no_gain_witness :
  (fsum (map (fun sc => weight_of toy_config sc.1 sc.2) [(1, 1); (2, 3)])
   <= weight_of toy_config (fsum (map fst [(1, 1); (2, 3)])) (fsum (map snd [(1, 1); (2, 3)])))%R.
Proof.
  apply weight_split_no_gain; [exact toy_config_ok|done|].
  repeat (apply Forall_cons_2; [simpl; lra|]). apply Forall_nil_2.
Defined.

(** "a" and "b" hold the frozen weights. *)
Definition toy_frozen : TopoStakeConsensus R :=
  mkTopoStake R toy_config 1%R ∅ ∅ None 0 [] ∅ ∅ ∅ {["a" := (/ 4)%R; "b" := (3 / 4)%R]} ∅ [].

Lemma selection_by_frozen_weight_witness :
  let w v := get_or 0%R (frozen_proposer_weights toy_frozen) (v_address v) in
  exists v l1 l2,
    select_with_frozen_weights toy_frozen toy_stakes [] = Ret (toy_frozen, Ok v)
    /\ toy_stakes = l1 ++ v :: l2
    /\ (let draw := gen_range_f64 [] (fsum (map w toy_stakes)) in
        (draw <= fsum (map w l1) + w v)%R /\ (l1 = [] \/ (fsum (map w l1) < draw)%R)).
Proof.
  apply (selection_by_frozen_weight toy_frozen toy_stakes []); [done| |].
  - intros E%(f_equal (fun m : gmap string R => m !! "a")). vm_compute in E. discriminate.
  - unfold toy_stakes. cbn [map v_address]. rewrite !fsum_cons, fsum_nil. unfold get_or, toy_frozen.
    cbn [frozen_proposer_weights]. simplify_map_eq. simpl. lra.
Defined.

(** ** Metrics *)

Definition toy_values : list R := [1; 2; 3]%R.

Lemma toy_values_sum : fsum toy_values = 6%R.
Proof. unfold toy_values. rewrite !fsum_cons, fsum_nil. lra. Qed.

Lemma toy_values_nonneg a : a ∈ toy_values -> (0 <= a)%R.
Proof. unfold toy_values. rewrite !elem_of_cons, elem_of_nil. intros [->|[->|[->|[]]]]; lra. Qed.

Lemma gini_is_mean_difference_witness :
  calculate_gini toy_values = (pair_differences toy_values / (2 * INR 3 * fsum toy_values))%R
  /\ (0 <= calculate_gini toy_values <= 1)%R.
Proof. apply (gini_is_mean_difference toy_values); [exact toy_values_nonneg|rewrite toy_values_sum; lra]. Defined.

Lemma hhi_bounds_witness : (/ INR 3 <= calculate_hhi toy_values <= 1)%R.
Proof. apply (hhi_bounds toy_values); [exact toy_values_nonneg|rewrite toy_values_sum; lra]. Defined.

(** ** Topologies and the simulation *)

(** A generator that counts: its draws go round every range. *)
#[local] Instance toy_counter : RngState R nat := {|
  next_usize n s := (s mod n, S s);
  next_f64 s := (0%R, S s)
|}.

#[local] Instance toy_counter_laws : RngStateLaws R nat.
Proof. intros n s Hn. simpl. apply Nat.mod_upper_bound. lia. Qed.

Lemma toy_skip k n (s : nat) : skip_draws (F := R) k n s = s + k.
Proof. revert s. induction k as [|k IH]; intros s; simpl; [lia|]. rewrite IH. lia. Qed.

#[local] Instance toy_counter_fair : RngFair R nat.
Proof.
  intros n s i Hi. exists (n * s + i - s). rewrite toy_skip. simpl.
  replace (s + (n * s + i - s)) with (i + s * n) by nia.
  rewrite Nat.Div0.mod_add. by apply Nat.mod_small.
Qed.

Lemma ba_network_wellformed_witness :
  exists fuel0 net rng',
    (forall fuel, fuel0 <= fuel -> generate_ba_network (F := R) fuel 10 3 2 0 = Some (Ret (net, rng')))
    /\ ba_ok net /\ no_isolated net /\ connected net /\ length (degrees net) = 10.
Proof. apply (ba_network_wellformed 10 3 2 0); lia. Defined.

Lemma ws_rewire_never_ends_witness : rewire (F := R) 1000 3 0 (ring_edges 3 2) ∅ 0 = None.
Proof. apply ws_rewire_never_ends. lia. Defined.

#[local] Instance toy_shuffle : Shuffle := fun _ _ l => reverse l.
#[local] Instance toy_shuffle_laws : ShuffleLaws.
Proof. intros A seed l. apply reverse_Permutation. Qed.

Definition toy_stake_map : gmap string R := {["a" := 1%R; "b" := 2%R; "c" := 3%R]}.

Lemma adversary_selection_deterministic_witness :
  select_adversarial_nodes ["a"; "b"; "c"] toy_stake_map {["c" := 4%Z]} ∅ (f_dec 3 1) HighDegree 7
  = select_adversarial_nodes ["b"; "a"; "c"] toy_stake_map {["c" := 4%Z]} ∅ (f_dec 3 1) HighDegree 7.
Proof. apply adversary_selection_deterministic. apply Permutation_swap. Defined.

Lemma coalition_reaches_target_witness :
  let target := (fsum (map_values toy_stake_map) * Rmin (f_dec 3 1) 1)%R in
  exists chosen,
    select_adversarial_nodes (map_keys toy_stake_map) toy_stake_map {["c" := 4%Z]} ∅ (f_dec 3 1) HighDegree 7
      = list_to_set chosen
    /\ NoDup chosen /\ (target <= stake_of toy_stake_map chosen)%R
    /\ forall l x, chosen = l ++ [x] -> (stake_of toy_stake_map l < target)%R.
Proof.
  apply (coalition_reaches_target toy_stake_map); [| |simpl; lra].
  - intros a v. unfold toy_stake_map. rewrite !lookup_insert_Some, lookup_singleton_Some. intros; intuition; subst; lra.
  - intros E%(f_equal (fun m : gmap string R => m !! "a")). vm_compute in E. discriminate.
Defined.

Lemma stakes_normalised_witness :
  let stakes := generate_stake_by_gini 3 (f_dec 3 1) toy_values in
  length stakes = 3 /\ (forall s, s ∈ stakes -> (0 < s)%R) /\ fsum stakes = INR 3.
Proof. apply (stakes_normalised 3 (f_dec 3 1) toy_values). lia. Defined.

Definition toy_generator : Generator R :=
  mkGenerator {["a"; "b"]} ["a"; "b"; "c"] 2 {["a" := 4%R]} 1%R {["a"; "b"]}.

Lemma toy_ledger_ok : ledger_ok toy_generator.
Proof.
  unfold ledger_ok, toy_generator, flooding_fee_spent, map_values, f2.
  cbn [tg_fee_spent tg_generated_tx_counter tg_transaction_fee]. rewrite map_to_list_singleton.
  change (snd <$> [("a", 4%R)]) with [4%R]. rewrite fsum_cons, fsum_nil. simpl. lra.
Qed.

Lemma fee_ledger_exact_witness :
  exists fuel0 g' sent rng',
    (forall fuel, fuel0 <= fuel ->
       emit_one_transaction fuel (fun _ => true) true toy_generator 0 = Some (g', sent, rng'))
    /\ ledger_ok g'
    /\ match sent with
       | None => g' = toy_generator
       | Some (from, to) =>
           from <> to /\ from ∈ tg_nodes_address toy_generator /\ to ∈ tg_nodes_address toy_generator
           /\ (true = true -> from ∈ tg_adversarial_nodes toy_generator)
           /\ tg_generated_tx_counter g' = (tg_generated_tx_counter toy_generator + 1)%Z
       end.
Proof.
  apply (fee_ledger_exact (fun _ => true) true toy_generator 0); [exact toy_ledger_ok|by vm_compute|].
  apply (bool_decide_unpack _). vm_compute. exact I.
Defined.
