(* ===== verification/WitnessesNetwork.v ===== *)
(** * Witnesses for the network theorems

    Concrete instances, as in [Witnesses], for the nodes, the world state and the
    whole system.  Amounts are binary64 floats where a theorem holds for any
    arithmetic, reals otherwise. *)

From Stdlib Require Import Reals Lra Sorted.
From Stdlib Require Import PrimFloat.
From stdpp Require Import sorting.
From S2P Require Import Baselines TopoStakeFacts SyncFacts NodeFacts Packing WorldFacts Production Accounts ReportFacts System Witnesses WitnessesModel.
Import Toy.
Local Open Scope rust_scope.

#[local] Existing Instance toy_tx_json.
#[local] Existing Instance toy_block_serde.
#[local] Existing Instance toy_rng.
#[local] Existing Instance toy_rng_laws.
#[local] Existing Instance toy_verifier.
#[local] Existing Instance Pos.consensus.

#[local] Instance toy_floats : F64 float := F64_float (fun x => x) (fun x => x).
#[local] Instance toy_float_rng : Rng float := {| gen_range_f64 _ hi := (hi / 2)%float; gen_range_usize _ _ := 0 |}.
#[local] Instance toy_fmt {F} : FloatFmt F := {| fmt_fixed _ _ := "0"; fmt_shortest _ := "0" |}.
#[local] Instance toy_order : MapOrder := fun A m => map_to_list m.
#[local] Instance toy_order_laws : MapOrderLaws.
Proof. intros A m. done. Qed.
#[local] Instance toy_meta : MetaSerde := {|
  meta_to_vec es := to_le_bytes 8 es.1 ++ to_le_bytes 8 es.2;
  meta_from_slice _ := None
|}.
#[local] Instance toy_bool {F} : RngBool F bool := {| seed_from_u64 _ := true; next_bool _ s := (s, negb s) |}.

(** A computation that returns, returns what [returned] takes out of it. *)
Definition returns {A} (o : Outcome A) : bool := match o with Ret _ => true | Panic => false end.

Lemma returned_triple {A B C} (d : A * B * C) o :
  returns o = true -> o = Ret ((returned d o).1.1, (returned d o).1.2, (returned d o).2).
Proof. destruct o as [[[a b] c]|]; done. Qed.

(** ** Blocks, nodes and shared objects *)

Section toys.
Context {F : Type} `{F64 F}.

Definition net_tx (one : F) (now : Z) : Transaction F := with_costs now (address wallet_c) 5 one one wallet_a.
Definition net_genesis : Block F := mkBlock (Header_new 0 0 0 0 "" "" "" "") (mkBody [] []).
Definition net_block (index epoch slot : Z) (parent : Block F) (txs : list (Transaction F)) : Block F :=
  match returned (Ok net_genesis) (Block_new 9 index epoch slot (h_hash (header parent)) (mkBody txs []) wallet_c) with
  | Ok b => b
  | Err _ => net_genesis
  end.
Definition net_chain : Blockchain F := Blockchain_new net_genesis.
Definition net_path (t : Transaction F) : TransactionPaths F := new_with_epoch t 0.

(** A node of each wallet, with the neighbours of the middle one. *)
Definition net_node (w : Wallet) (nbs : list Wallet) (balance : F) : Node F bool :=
  set_neighbors (set_balance (new_with_wallet 0 0 0 net_chain w 10 POS) balance)
    (map (fun nb => mkNeighbor 0 (address nb)) nbs).
Definition net_shared (mempools : gmap string (Mempool F)) : Shared F :=
  mkShared toy_registry clear_receipt_cache_for_tests mempools
    (<[address wallet_a := true]> (<[address wallet_b := true]> ∅)) ∅.

End toys.
Definition net_readings : Readings := mkReadings 5 [] (fun _ => true).

Definition nf_tx (now : Z) : Transaction float := net_tx 1%float now.
Definition nf_block_1 : Block float := net_block 1 0 0 net_genesis [nf_tx 1; nf_tx 2].
Definition nf_block_2 : Block float := net_block 2 0 1 nf_block_1 [nf_tx 3].
Definition nf_block_3 : Block float := net_block 3 0 2 nf_block_2 [nf_tx 1].

Lemma nf_genesis_verified : verified (F := float) net_genesis.
Proof. vm_compute. reflexivity. Qed.

Lemma nf_chain_good : good_chain (F := float) 100 net_chain.
Proof. apply good_chain_new, nf_genesis_verified. Qed.

Lemma nf_shared_typed : shared_typed (F := float) (net_shared ∅).
Proof. apply map_Forall_empty. Qed.

(** ** Score activation

    The frozen protocol, with its delay of two epochs: a selection before the first
    end of an epoch, three ends of epochs in which "b" relays, and a block's rewards. *)

Definition nf_stakes : list (Validator float) :=
  [mkValidator "a" 1%float 1%float; mkValidator "b" 1%float 1%float; mkValidator "c" 1%float 1%float].
Definition nf_protocol : TopoStakeConsensus float :=
  mkTopoStake float frozen_v1 1%float ∅ ∅ None 0 [] ∅ ∅ ∅ ∅ ∅ [].
Definition nf_ops : list (protocol_op (F := float)) :=
  Select nf_stakes [] :: replicate 3 (EpochEnd [toy_fee_block 1%float 4] nf_stakes)
  ++ [Rewards (toy_fee_block 1%float 5) nf_stakes].
Definition nf_protocol_after : TopoStakeConsensus float := returned nf_protocol (protocol_run nf_protocol nf_ops).

Lemma score_activation_delay_witness :
  let weights := weights_from frozen_v1 (score_history (run_epochs nf_protocol (take 2 (epochs_of nf_ops)))) nf_stakes in
  next_epoch nf_protocol_after = 3%Z
  /\ active_score_epoch nf_protocol_after = Some 1%Z
  /\ exists st', frozen_proposer_weights st' = weights
       /\ select_with_frozen_weights nf_protocol_after nf_stakes []
          = (let! r := drawn_by weights nf_stakes [] in Ret (st', r)).
Proof.
  assert (Hrun : protocol_run nf_protocol nf_ops = Ret nf_protocol_after) by (vm_compute; reflexivity).
  assert (Hnew : TopoStakeConsensus_new 1%float frozen_v1 = Ok nf_protocol) by (vm_compute; reflexivity).
  pose proof (score_activation_delay 1%float frozen_v1 nf_protocol nf_ops nf_protocol_after nf_stakes []
    Hnew Hrun ltac:(done)) as Hw. cbv zeta in Hw.
  change (Z.to_nat (score_activation_delay_epochs frozen_v1)) with 2 in Hw.
  change (length (epochs_of nf_ops)) with 3 in Hw. change (frozen_set (nf_ops ++ [Select nf_stakes []])) with nf_stakes in Hw.
  rewrite !decide_True in Hw by lia. cbv zeta. apply Hw. by vm_compute.
Defined.

(** ** Synchronisation *)

Definition nf_peer : Blockchain float * list bool := returned (net_chain, []) (run_chain net_chain [nf_block_1; nf_block_2]).

Lemma nf_peer_run : run_chain net_chain [nf_block_1; nf_block_2] = Ret (nf_peer.1, nf_peer.2).
Proof. vm_compute. reflexivity. Qed.

Lemma sync_catches_up_witness :
  resolve_fork net_chain 0 ([net_genesis] ++ [nf_block_1; nf_block_2]) = Ret (nf_peer.1, [nf_block_1; nf_block_2]).
Proof.
  apply (sync_catches_up net_chain nf_peer.1 [net_genesis] [nf_block_1; nf_block_2] net_genesis net_genesis nf_peer.2).
  - apply chain_ok_new.
  - reflexivity.
  - reflexivity.
  - by vm_compute.
  - by vm_compute.
  - exact nf_peer_run.
  - apply (bool_decide_unpack _). vm_compute. exact I.
  - intros b Hb. exact Hb.
Defined.

(** A peer whose window is one block long. *)
Definition nf_short_peer : Blockchain float := mkBlockchain [nf_block_2] (transaction_index nf_peer.1) 1.

Lemma snapshot_forgets_transactions_witness :
  add_block nf_short_peer nf_block_3 = Ret (nf_short_peer, Err TransactionExists)
  /\ add_block (replace_chain net_chain (blocks nf_short_peer)) nf_block_3
     = Ret (appended (replace_chain net_chain (blocks nf_short_peer)) nf_block_3, Ok ()).
Proof.
  apply (snapshot_forgets_transactions net_chain nf_short_peer nf_block_2 nf_block_3 (tx_hash (nf_tx 1))).
  - reflexivity.
  - vm_compute. reflexivity.
  - split_and!; by vm_compute.
  - apply (bool_decide_unpack _). vm_compute. exact I.
  - apply (bool_decide_unpack _). vm_compute. exact I.
  - intros c Hc h Hh. apply list_elem_of_singleton in Hc as ->. revert h Hh.
    apply Forall_forall. apply (bool_decide_unpack _). vm_compute. exact I.
Defined.

(** ** Nodes *)

Definition nf_node_a : Node float bool := net_node wallet_a [wallet_b] 7%float.
Definition nf_node_b : Node float bool := net_node wallet_b [wallet_a; wallet_c] 7%float.

Lemma nf_probability n : n_relay_profile (F := float) (St := bool) n = Normal -> probability_ok n.
Proof. intros Hn. unfold probability_ok, relay_forward_probability. rewrite Hn. vm_compute. reflexivity. Qed.

Lemma nf_ready w h : h = tx_hash (nf_tx 1) \/ h = "ab" -> w = wallet_a \/ w = wallet_b ->
  ready_for (net_node w [wallet_a; wallet_c] 7%float) (net_shared ∅) h.
Proof.
  intros Hh Hw. split; try done; destruct Hw as [->| ->]; try (by vm_compute).
  all: destruct Hh as [->| ->]; by vm_compute.
Qed.

Lemma relayed_path_arrives_witness :
  exists msg n2' sh' out p',
    offer nf_node_a (net_path (nf_tx 1)) wallet_a (mkNeighbor 0 (address wallet_b)) = Some (ToNode (get_address nf_node_b) msg)
    /\ handle net_readings nf_node_b (net_shared ∅) msg = Ret (n2', sh', out)
    /\ own_mempool nf_node_b sh' !! path_hash (net_path (nf_tx 1)) = Some p'
    /\ node_sequence p' = node_sequence (net_path (nf_tx 1)) ++ [get_address nf_node_b]
    /\ complete_upto toy_registry p' wallet_b.
Proof.
  apply (relayed_path_arrives net_readings nf_node_a nf_node_b (net_shared ∅) (net_path (nf_tx 1))
           (mkNeighbor 0 (address wallet_b))).
  - apply toy_registered. by left.
  - apply toy_registered. right. by left.
  - split_and!; [reflexivity|reflexivity|reflexivity].
  - reflexivity.
  - apply (bool_decide_unpack _). vm_compute. exact I.
  - reflexivity.
  - apply nf_ready; [by left|by right].
  - by apply nf_probability.
Defined.

(** A transaction in the name of [wallet_b] that nobody signed. *)
Definition nf_forged : Transaction float := mkTransaction float (address wallet_b) "x" 0 9%float 9%float "ab" "" 0 [].

Lemma unverified_transaction_admitted_witness :
  exists n' sh' out,
    handle net_readings nf_node_b (net_shared ∅) (SendTransactionPaths (new_with_epoch nf_forged 0) "anybody")
    = Ret (n', sh', out)
    /\ own_mempool nf_node_b sh' !! "ab" = Some (new_with_epoch nf_forged 0).
Proof.
  apply (unverified_transaction_admitted net_readings nf_node_b (net_shared ∅) nf_forged 0 "anybody").
  - vm_compute. reflexivity.
  - reflexivity.
  - apply nf_ready; [by right|by right].
  - by apply nf_probability.
Defined.

(** A Sybil node with two fake identities. *)
Definition nr_sybil : Node R bool :=
  fresh_node 0 0 0 net_chain wallet_a Sybil [net_node wallet_b [] 0%R; net_node wallet_c [] 0%R] 10 POS true.

Definition nr_announced : Node R bool * Shared R * list (Send R) :=
  returned (nr_sybil, net_shared ∅, [])
    (handle net_readings nr_sybil (net_shared ∅) (BecomeValidator {[address wallet_a := 6%R]})).

Lemma sybil_stake_conserved_witness :
  n_balance nr_announced.1.1 = get_or 0%R {[address wallet_a := 6%R]} (address wallet_a)
  /\ fsum (map v_stake (announced nr_announced.2)) = n_balance nr_announced.1.1
  /\ map v_address (announced nr_announced.2) = [address wallet_a; address wallet_b; address wallet_c].
Proof.
  apply (sybil_stake_conserved net_readings nr_sybil nr_announced.1.1 (net_shared ∅) nr_announced.1.2
           {[address wallet_a := 6%R]} nr_announced.2).
  - reflexivity.
  - vm_compute. reflexivity.
  - unfold nr_announced. apply (returned_triple (nr_sybil, net_shared ∅, []) _). vm_compute. reflexivity.
Defined.

(** ** Packing *)

Definition nr_mempool : Mempool R :=
  list_to_map (map (fun p => (path_hash p, p)) [net_path (net_tx 1%R 1); net_path (net_tx 2%R 2)]).

Lemma nr_mempool_keyed : keyed nr_mempool.
Proof.
  intros h p Hp. apply elem_of_list_to_map_2 in Hp. apply list_elem_of_fmap in Hp as (q & Hq & _).
  by injection Hq as -> ->.
Qed.

Abbreviation nr_chain := (net_chain (F := R)).

Lemma packing_is_best_witness :
  let packed := to_pack 1 nr_chain nr_mempool in
  (forall p, p ∈ packed -> nr_mempool !! path_hash p = Some p /\ exist_transaction nr_chain (path_hash p) = false)
  /\ NoDup packed /\ StronglySorted pack_le packed
  /\ length packed = Nat.min 1 (length (packable nr_chain nr_mempool))
  /\ (forall p q, p ∈ packed -> q ∈ packable nr_chain nr_mempool -> q ∉ packed -> pack_le p q)
  /\ (forall h p, remove_all (map path_hash packed) nr_mempool !! h = Some p <-> nr_mempool !! h = Some p /\ p ∉ packed).
Proof. apply (packing_is_best 1 nr_chain nr_mempool). exact nr_mempool_keyed. Defined.

(** ** The world state *)

Definition net_config {F} (one : F) : WorldConfig F :=
  mkWorldConfig 12 2 7 "run" one 3 10 one (<[address wallet_a := ()]> ∅)
    (<[address wallet_a := wallet_a]> ∅) ∅ (<[address wallet_a := 4%Z]> ∅) ∅ ∅ ∅ ∅.

Abbreviation nf_pos := ({| Pos.base_reward := 1%float |}).
Definition nf_world : WorldState float (Pos.PosConsensus float) :=
  WorldState_new (net_config 1%float) net_genesis net_chain nf_pos.
Definition nf_world_readings : WorldReadings float := mkWorldReadings 5 (fun _ => 0%Z) (fun _ => ∅).

Definition nf_slot_change : WorldState float (Pos.PosConsensus float) * Shared float * list (Event float) * bool :=
  returned (nf_world, net_shared ∅, [], true) (ws_next_slot nf_world_readings nf_world (net_shared ∅)).

Lemma returned_quad {A B C} (d : A * B * C * bool) o :
  returns o = true -> (returned d o).2 = false ->
  o = Ret ((returned d o).1.1.1, (returned d o).1.1.2, (returned d o).1.2, false).
Proof. destruct o as [[[[a b] c] e]|]; simpl; [|done]. by intros _ ->. Qed.

Lemma nf_world_run : world_run nf_world 1 nf_slot_change.1.1.1.
Proof.
  apply (wr_slot _ 0 nf_world nf_world_readings (net_shared ∅) _ nf_slot_change.1.1.2 nf_slot_change.1.2);
    [apply wr_start|].
  unfold nf_slot_change. apply (returned_quad (nf_world, net_shared ∅, [], true) _); vm_compute; reflexivity.
Qed.

Lemma clock_refines_counter_witness :
  shows (net_config 1%float) (Z.of_nat 1) nf_slot_change.1.1.1
  /\ (Z.of_nat 1 < slot_per_epoch (net_config 1%float) * wc_max_epochs (net_config 1%float))%Z
  /\ forall rd sh w' sh' out exits, ws_next_slot rd nf_slot_change.1.1.1 sh = Ret (w', sh', out, exits) ->
       (exits = true <-> Z.of_nat (1 + 1) = slot_per_epoch (net_config 1%float) * wc_max_epochs (net_config 1%float))%Z.
Proof.
  apply (clock_refines_counter (net_config 1%float) net_genesis net_chain nf_pos 1 nf_slot_change.1.1.1).
  - by vm_compute.
  - by vm_compute.
  - by vm_compute.
  - exact nf_world_run.
Defined.

Lemma outage_respected_witness :
  let w' := configure_scheduled_outage nf_world 2 3 "1, 4" false in
  let sh' := update_scheduled_availability w' (net_shared ∅) 4 in
  (available sh' (address wallet_a) = false
   <-> in_outage nf_world "1, 4" (address wallet_a) /\ outage_epoch 2 3 4)
  /\ (available sh' (address wallet_a) = false -> forall rd miner, v_address miner = address wallet_a ->
        produce rd w' sh' miner = Ret (count_failure w', sh', [], false, "scheduled_outage")).
Proof.
  apply (outage_respected nf_world 2 3 "1, 4" false (net_shared ∅) 4 (address wallet_a) true).
  vm_compute. reflexivity.
Defined.

(** The named validator is indeed offline. *)
Example outage_example :
  available (update_scheduled_availability (configure_scheduled_outage nf_world 2 3 "1, 4" false) (net_shared ∅) 4)
    (address wallet_a) = false.
Proof. vm_compute. reflexivity. Qed.

(** ** Production *)

Definition nf_miner : Validator float := mkValidator (address wallet_a) 1%float 1%float.
Definition nf_mempool (t : Transaction float) : Mempool float := {[tx_hash t := net_path t]}.
Definition nf_shared (t : Transaction float) : Shared float := net_shared {[address wallet_a := nf_mempool t]}.

Lemma nf_can_propose t : can_propose nf_world (nf_shared t) nf_miner wallet_a (nf_mempool t).
Proof. split; [vm_compute; reflexivity|apply lookup_insert_eq|apply lookup_singleton_eq]. Qed.

Lemma nf_packs t : tx_hash t = tx_hash (nf_tx 1) \/ tx_hash t = "ab" -> packs nf_world (nf_mempool t) = [net_path t].
Proof.
  intros Ht. unfold packs, to_pack, nf_mempool, iter_map, toy_order. rewrite map_to_list_singleton.
  cbn [map snd]. rewrite filter_cons_True; [reflexivity|]. unfold path_hash. simpl.
  destruct Ht as [->| ->]; vm_compute; reflexivity.
Qed.

(** The hash of a built block is not that of the genesis block. *)
Definition hash_differs (o : Outcome (Result (Block float) BlockError)) : bool :=
  match o with
  | Ret (Ok b) => negb (bool_decide (h_hash (header b) = h_hash (header (net_genesis (F := float)))))
  | _ => false
  end.

Lemma hash_differs_spec o b : hash_differs o = true -> o = Ret (Ok b) ->
  h_hash (header b) <> h_hash (header (net_genesis (F := float))).
Proof. intros Hd ->. simpl in Hd. by apply negb_true_iff, bool_decide_eq_false in Hd. Qed.

Definition nf_packed : Outcome (Result (Block float) BlockError) :=
  packed_block toy_registry 5 net_chain 0 0 [net_path (nf_tx 1)] wallet_a.

Lemma nf_hash_differs : hash_differs nf_packed = true.
Proof. vm_compute. reflexivity. Qed.

Lemma proposer_produces_witness :
  exists w' out b,
    produce nf_world_readings nf_world (nf_shared (nf_tx 1)) nf_miner
    = Ret (w', after_packing nf_world (nf_shared (nf_tx 1)) nf_miner (nf_mempool (nf_tx 1)), out, true, "")
    /\ last (blocks (w_blockchain w')) = Some b
    /\ transactions (body b) = map tp_transaction (packs nf_world (nf_mempool (nf_tx 1)))
    /\ h_miner (header b) = address wallet_a
    /\ h_epoch (header b) = 0%Z /\ h_slot (header b) = 0%Z.
Proof.
  apply (proposer_produces nf_world_readings nf_world (nf_shared (nf_tx 1)) nf_miner wallet_a
           (nf_mempool (nf_tx 1)) net_genesis).
  - apply nf_can_propose.
  - reflexivity.
  - split; [by vm_compute|intros _; by vm_compute].
  - rewrite nf_packs by (by left). apply Forall_cons_2; [vm_compute; reflexivity|apply Forall_nil_2].
  - rewrite nf_packs by (by left). intros b. exact (hash_differs_spec nf_packed b nf_hash_differs).
Defined.

Lemma unverified_transaction_fails_slot_witness :
  produce nf_world_readings nf_world (nf_shared nf_forged) nf_miner
  = Ret (count_failure nf_world, after_packing nf_world (nf_shared nf_forged) nf_miner (nf_mempool nf_forged), [],
         false, "build_failed")
  /\ forall q, q ∈ packs nf_world (nf_mempool nf_forged) ->
       mempool_of (after_packing nf_world (nf_shared nf_forged) nf_miner (nf_mempool nf_forged)) (v_address nf_miner)
       !! path_hash q = None.
Proof.
  apply (unverified_transaction_fails_slot nf_world_readings nf_world (nf_shared nf_forged) nf_miner wallet_a
           (nf_mempool nf_forged) net_genesis (net_path nf_forged)).
  - apply nf_can_propose.
  - reflexivity.
  - rewrite nf_packs by (by right). left.
  - vm_compute. reflexivity.
  - rewrite nf_packs by (by right). apply Forall_cons_2; [by vm_compute|apply Forall_nil_2].
Defined.

(** ** Accounts and reports *)

Definition nr_world : WorldState R (TopoStakeConsensus R) :=
  WorldState_new (net_config 1%R) net_genesis net_chain toy_state.
Definition nr_block : Block R := net_block 1 0 0 net_genesis [net_tx 1%R 1].

Lemma nr_acceptable : acceptable nr_chain net_genesis nr_block.
Proof.
  split_and!; [vm_compute; reflexivity|split_and!; by vm_compute|].
  intros h _. simpl. apply not_elem_of_empty.
Qed.

Definition nr_settled : WorldState R (TopoStakeConsensus R) * list (Event R) :=
  settle_block (count_success (w_set_chain nr_world (appended nr_chain nr_block))) nr_block.

Lemma nr_applied : apply_canonical_block nr_world nr_block = Ret (nr_settled.1, nr_settled.2, Ok ()).
Proof.
  unfold apply_canonical_block, nr_settled. change (w_blockchain nr_world) with nr_chain.
  rewrite (add_block_accept nr_chain net_genesis nr_block eq_refl nr_acceptable). cbn [outcome_bind].
  by destruct (settle_block _ nr_block).
Qed.

Lemma rewards_reach_balances_witness :
  let '(s', ds) := distribute_rewards toy_state nr_block [] in
  w_consensus nr_settled.1 = s' /\ w_validators nr_settled.1 = []
  /\ (forall addr, get_or 0%R (w_balances nr_settled.1) addr = (get_or 0 (w_balances nr_world) addr + received addr ds)%R)
  /\ total_balance (w_balances nr_settled.1) = (total_balance (w_balances nr_world) + amounts ds)%R
  /\ (forall d, d ∈ ds -> nodes_sender (net_config 1%R) !! bd_address d = Some tt ->
        Sent (ToNode (bd_address d) (UpdateNodeBalance (get_or 0%R (w_balances nr_settled.1) (bd_address d)))) ∈ nr_settled.2).
Proof. exact (rewards_reach_balances nr_world nr_block nr_settled.1 nr_settled.2 nr_applied). Defined.

Lemma nr_fees : Forall (fun b : Block R => forall tx, tx ∈ transactions (body b) -> (0 <= tx_fee tx)%R) [nr_block].
Proof.
  apply Forall_cons_2; [|apply Forall_nil_2].
  assert (Ht : transactions (body nr_block) = [net_tx 1%R 1]).
  { vm_compute. reflexivity. }
  rewrite Ht. intros tx ->%list_elem_of_singleton. simpl. lra.
Qed.

Lemma supply_accounted_witness :
  supply nr_settled.1 = (supply nr_world + fsum (map (minted toy_state []) [nr_block]))%R.
Proof.
  apply (supply_accounted nr_world [nr_block] nr_settled.1).
  - exact toy_config_ok.
  - by vm_compute.
  - exact nr_fees.
  - exact (ap_cons nr_world nr_block [] nr_settled.1 nr_settled.2 nr_settled.1 nr_applied (ap_nil nr_settled.1)).
Defined.

Lemma report_matches_rewards_witness :
  let bs := [toy_fee_block 1%R 4; toy_fee_block 1%R 5] in
  let r := estimate_epoch_rewards 1%R bs toy_stakes (metrics_snapshot toy_state) in
  let plans := map (fun b => compute_block_rewards toy_state b toy_stakes) bs in
  total_proposer_reward r = fsum (map rp_proposer_reward plans)
  /\ total_relay_reward r = fsum (map rp_relay_reward plans)
  /\ burned_relay_fee r = fsum (map rp_burned_relay_fee plans)
  /\ (forall addr, get_or 0%R (total_by_address r) addr = fsum (map (fun p => received addr (rp_rewards p)) plans))
  /\ ws_raw_epoch_contribution bs toy_stakes (metrics_snapshot toy_state) = raw_epoch_contribution toy_state bs toy_stakes.
Proof.
  apply (report_matches_rewards toy_state [toy_fee_block 1%R 4; toy_fee_block 1%R 5] toy_stakes).
  repeat (apply Forall_cons_2; [apply Forall_cons_2; [apply (bool_decide_unpack _); vm_compute; exact I|apply Forall_nil_2]|]).
  apply Forall_nil_2.
Defined.

Lemma no_bound_violation_witness :
  let snapshot := metrics_snapshot (on_epoch_end toy_scored [toy_fee_block 1%R 4] toy_stakes) in
  (share_for {["c"]} (proposer_weights toy_stakes snapshot) <= score_dependent_bound {["c"]} toy_stakes snapshot)%R
  /\ bound_violation {["c"]} toy_stakes snapshot = false.
Proof.
  apply (no_bound_violation toy_scored [toy_fee_block 1%R 4] toy_stakes {["c"]}).
  - exact toy_config_ok.
  - split; [apply toy_staked|done|exact toy_stakes_pos].
Defined.

(** ** The system *)

Definition nf_system : System float (Pos.PosConsensus float) bool :=
  mkSystem nf_world {[address wallet_a := nf_node_a]} (net_shared ∅) [].

Definition nf_commanded : System float (Pos.PosConsensus float) bool :=
  mkSystem nf_world {[address wallet_a := nf_node_a]} (net_shared ∅)
    [ToNode (address wallet_a) (GenerateTransactionPaths (address wallet_b))].

Lemma nf_initial : initial net_genesis nf_system.
Proof.
  split; [exact nf_genesis_verified|done| |apply map_Forall_empty|done].
  apply map_Forall_singleton. done.
Qed.

Lemma system_safe_witness :
  (forall bc, chain_of_participant nf_commanded bc ->
     blocks bc <> []
     /\ (forall i a b, blocks bc !! i = Some a -> blocks bc !! S i = Some b -> extends a b)
     /\ (forall i j a b h, blocks bc !! i = Some a -> blocks bc !! j = Some b ->
           h ∈ tx_hashes a -> h ∈ tx_hashes b -> i = j)
     /\ (forall b t, b ∈ blocks bc -> t ∈ transactions (body b) -> Transaction_verify t = Ret true))
  /\ (forall addr h p, mempool_of (sys_shared nf_commanded) addr !! h = Some p ->
        path_hash p = h /\ current_tail p = addr /\ has_pending_hop p = false).
Proof.
  apply (system_safe net_genesis nf_system nf_commanded).
  - exact nf_initial.
  - apply rtc_once. apply (step_command nf_world _ _ [] (address wallet_a)). exact I.
Defined.




