(* ===== verification/WitnessesClient.v ===== *)
(** * Witnesses for the consensus client

    Concrete instances of the theorems about the evidence runtime and proposer
    selection: an empty environment, a toy hash with 32-byte digests, the
    configuration of a devnet on which TopoStake is active from the start, and a
    few recorded paths. *)

From Stdlib Require Import Reals Lra Sorted.
From S2P Require Import FixedPointFacts ProposerFacts ClientFacts.
Local Open Scope rust_scope.
Local Open Scope Z_scope.

#[local] Instance toy_env : Env := fun _ => None.

(** The sum of the bytes of the preimage, plus the position. *)
#[local] Instance toy_eth_hash : EthHash := fun preimage =>
  map (fun k => byte_of_Z (fold_left (fun acc b => acc + Z_of_byte b) preimage (7 * Z.of_nat k))) (seq 0 32).

Lemma toy_hash_is_32_bytes : hash_is_32_bytes.
Proof. intros preimage. unfold eth_hash, toy_eth_hash. by rewrite length_map, length_seq. Qed.

Definition client_cfg : TopoStakeConfig := devnet_enabled_at 0.

Lemma client_selection_typed : selection_typed client_cfg.
Proof. unfold selection_typed, weights_typed, is_u64. vm_compute. intuition discriminate. Qed.

(** Two paths in epoch 1, one of them offered again in epoch 2. *)
Definition path_1 : TopoStakePathEvidence := mkEvidence "0xaa" [0; 1; 2; 3] 1000000 42000000000000.
Definition path_2 : TopoStakePathEvidence := mkEvidence "0xbb" [2; 1; 0] 500000 21000000000000.
Definition recording : list Op := [RecordPaths 1 3 [path_1; path_2]; RecordPaths 2 0 [path_1]; RecordInvalid 1 2].
Definition client_balances : list (Z * Z) := [(0, 32000000000); (1, 32000000000); (2, 32000000000); (3, 32000000000)].
Definition settling : list Op := [SettleScores 3 client_balances 128000000000; SettleCredits 3].

Lemma recording_typed : Forall typed_op (recording ++ settling).
Proof.
  assert (is_u64 1000000 /\ is_u64 500000) as [? ?] by (unfold is_u64, U64_MAX; lia).
  repeat first [exact I|assumption|apply Forall_nil_2|apply Forall_cons_2].
Qed.

Definition client_state (electra : bool) : StateView := mkStateView (replicate 4 32000000000) electra 32000000000 10.

Lemma client_state_typed electra : state_typed (client_state electra).
Proof. apply Forall_replicate. unfold is_u64, U64_MAX. lia. Qed.

(** ** The evidence runtime *)

Lemma client_fees_conserved_witness :
  match epochs (run client_cfg reset_topostake_evidence_runtime (recording ++ settling)) !! 1 with
  | Some er =>
      zsum (map_values (proposer_credits er)) + zsum (map_values (relay_credits er)) + burned_credit_scaled er = 1500000
      /\ cs_conservation_violation (credit_summary er 1) = false
  | None => False
  end.
Proof.
  assert (total_credit_budget_scaled <$>
    epochs (run client_cfg reset_topostake_evidence_runtime (recording ++ settling)) !! 1 = Some 1500000) as Ht
    by (vm_compute; reflexivity).
  destruct (epochs _ !! 1) as [er|] eqn:Her; [|discriminate]. injection Ht as Ht.
  rewrite <- Ht. apply (client_fees_conserved client_cfg (recording ++ settling) 1 er).
  - unfold fees_configured, is_u64. vm_compute. intuition discriminate.
  - apply recording_typed.
  - exact Her.
  - rewrite Ht. reflexivity.
Defined.

Lemma settlement_is_final_witness :
  map ss_epoch (topostake_settle_scores_through_epoch client_cfg
                  (run client_cfg reset_topostake_evidence_runtime recording) 3 client_balances 128000000000).2 = [1; 2]
  /\ StronglySorted Z.le [1; 2].
Proof.
  split; [vm_compute; reflexivity|].
  assert (map ss_epoch (topostake_settle_scores_through_epoch client_cfg
    (run client_cfg reset_topostake_evidence_runtime recording) 3 client_balances 128000000000).2 = [1; 2]) as E
    by (vm_compute; reflexivity).
  rewrite <- E. eapply (settlement_is_final client_cfg (run client_cfg reset_topostake_evidence_runtime recording)
    3 client_balances 128000000000); [done|apply surjective_pairing].
Defined.

(** A node that asked for the scores of epoch 3 before the settlement keeps none; one
    that asked after it has some. *)
Lemma first_read_decides_witness :
  let rt := run client_cfg reset_topostake_evidence_runtime recording in
  let early := (topostake_evidence_scores_for_epoch rt 3 2).1 in
  (topostake_evidence_scores_for_epoch (run client_cfg early settling) 3 2).2 = ∅
  /\ map_to_list (topostake_evidence_scores_for_epoch (run client_cfg rt settling) 3 2).2 <> [].
Proof.
  cbv zeta. set (rt := run client_cfg reset_topostake_evidence_runtime recording).
  destruct (first_read_decides client_cfg rt 3 2 1 settling) as [E1 E2].
  - reflexivity.
  - vm_compute; reflexivity.
  - vm_compute; reflexivity.
  - rewrite E1, E2. split; [vm_compute; reflexivity|]. vm_compute. discriminate.
Defined.

(** ** Arithmetic *)

Lemma shares_refine_formula_witness :
  let c := get_or 0 (collect_map (topostake_path_relay_contributions 4 [10; 20; 30; 40])) 20 in
  c = 331816112
  /\ (Rabs (IZR c - IZR SCALE * gamma_for_depth (F := R) 4 1 3) <= 15 + 4 * INR 3)%R.
Proof.
  cbv zeta. split; [vm_compute; reflexivity|].
  apply (shares_refine_formula 4 [10; 20; 30; 40] 1 20);
    [lia|unfold is_u64, U64_MAX; lia|apply (bool_decide_unpack _); vm_compute; exact I|unfold path_fits; simpl; lia|reflexivity].
Defined.

Lemma fixed_ln_below_ln_witness :
  (IZR (fixed_ln_1p_scaled 1000000000) <= IZR SCALE * ln (1 + IZR 1000000000 / IZR SCALE))%R
  /\ fixed_ln_1p_scaled 1000000000 <= fixed_ln_1p_scaled 2000000000.
Proof.
  destruct (fixed_ln_below_ln 1000000000 2000000000) as ([_ H1] & H2 & _);
    [unfold is_u64, U64_MAX; lia|unfold is_u64, U64_MAX; lia|lia|]. exact (conj H1 H2).
Defined.

(** ** Selection *)

Lemma shuffle_is_permutation_witness :
  exists f, (forall i, (i < 5)%nat -> compute_shuffled_index i 5 [Byte.x01; Byte.x02] 10 = Some (f i))
            /\ map f (seq 0 5) ≡ₚ seq 0 5.
Proof. apply (shuffle_is_permutation [Byte.x01; Byte.x02] 10 5); [lia|vm_compute; discriminate]. Defined.

(** Validators 0 and 1 against 2 and 3, each with a quarter of the stake. *)
Definition client_totals : TopoStakeEvidenceRuntime * Z :=
  score_total_for_validators_at_epoch client_cfg
    (run client_cfg reset_topostake_evidence_runtime (recording ++ settling)) 4 [0; 1; 2; 3].
Definition client_weights : list Z :=
  match (all_weights client_cfg client_totals.1 (client_state true) 4 128000000000 client_totals.2 [0; 1; 2; 3]).2 with
  | Ok ws => ws
  | Err _ => []
  end.

Lemma client_coalition_bound_witness :
  length client_weights = 4%nat
  /\ zsum (take 2 client_weights) * (64000000000 * 1500000000 + 64000000000 * 1000000000)
     <= 64000000000 * 1500000000 * zsum client_weights.
Proof.
  split; [vm_compute; reflexivity|].
  assert (all_weights client_cfg client_totals.1 (client_state true) 4 128000000000 client_totals.2 [0; 1; 2; 3]
    = ((all_weights client_cfg client_totals.1 (client_state true) 4 128000000000 client_totals.2 [0; 1; 2; 3]).1,
       Ok client_weights)) as Hws by (vm_compute; reflexivity).
  assert (stake_of (client_state true) [0; 1] = 64000000000 /\ stake_of (client_state true) [2; 3] = 64000000000
    /\ max_multiplier client_cfg = 1500000000) as (E1 & E2 & E3) by (vm_compute; auto).
  pose proof (client_coalition_bound client_cfg (recording ++ settling) (client_state true) 4 128000000000
    client_totals.2 [0; 1] [2; 3] client_totals.1 _ client_weights client_selection_typed recording_typed
    (client_state_typed true) eq_refl (surjective_pairing _) Hws) as Hb.
  cbv zeta in Hb. rewrite E1, E2, E3 in Hb. exact Hb.
Defined.

Lemma topostake_proposer_found_witness :
  exists rt' v,
    compute_topostake_proposer_index 4 client_cfg
      (run client_cfg reset_topostake_evidence_runtime (recording ++ settling)) (client_state true) 4 [0; 1; 2; 3]
      [Byte.x2a] = Some (rt', Ok v)
    /\ v ∈ [0; 1; 2; 3].
Proof.
  apply (topostake_proposer_found client_cfg (recording ++ settling) (client_state true) 4 [0; 1; 2; 3] [Byte.x2a]
           128000000000).
  - apply toy_hash_is_32_bytes.
  - apply client_selection_typed.
  - apply recording_typed.
  - apply client_state_typed.
  - discriminate.
  - vm_compute; discriminate.
  - reflexivity.
Defined.

(** ** Blocks *)

(** A toy scheme: keys have 96 bytes, relays sign digests only, and an aggregate
    verifies if there is a digest for each key. *)
#[local] Instance toy_blst : Blst := {|
  blst_pk := bytes;
  blst_sig := bytes;
  pk_from_bytes b := if Nat.eqb (length b) 96 then Some b else None;
  sig_from_bytes b := Some b;
  blst_aggregate_verify _ msgs _ pks :=
    Nat.eqb (length pks) (length msgs) && forallb (fun m => Nat.eqb (length m) 32) msgs
|}.
Definition toy_signed (pk : blst_pk) (m : bytes) : Prop := length m = 32%nat.

Lemma toy_aggregate_sound : aggregate_sound toy_signed.
Proof.
  intros sig msgs pks. simpl. rewrite andb_true_iff, Nat.eqb_eq, forallb_forall. intros [Hl Hm].
  apply Forall2_same_length_lookup_2; [done|]. intros i pk m _ Hi. apply Nat.eqb_eq, Hm, list_elem_of_In.
  by eapply list_elem_of_lookup_2.
Qed.

Definition toy_relay (i : Z) : TopoStakeRelayPublicRegistryEntry :=
  mkRegistryEntry i None None None None (hex_bytes (replicate 96 (byte_of_Z (i + 1)))).
Definition toy_reg : TopoStakeRelayPublicRegistry := fold_left add_relay (map toy_relay [0; 1; 2; 3]) empty_registry.

(** Epoch 1 is the slots 8 to 15. *)
Definition block_record : InlineEvidenceRecord :=
  mkInlineRecord (replicate 32 Byte.x05) 1 1000000 42000000000000 [0; 1; 2; 3] (replicate 48 Byte.x09).
Definition block_1 : BlockInput := mkBlockInput 9 3 [block_record] 0 (replicate 4 32000000000) None ["http://el:8545"] (fun _ _ => true).
Definition block_2 : BlockInput := mkBlockInput 40 2 [] 4 (replicate 4 32000000000) None ["http://el:8545"] (fun _ _ => true).

Lemma toy_blocks_typed : Forall typed_block ([block_1] ++ [block_2]).
Proof.
  assert (is_u64 1000000) by (unfold is_u64, U64_MAX; lia).
  repeat first [assumption|apply Forall_nil_2|apply Forall_cons_2].
Qed.

Lemma credited_paths_signed_witness :
  exists r, r ∈ [block_record] /\ hash256_hex (replicate 32 Byte.x05) = hash256_hex (ir_tx_hash r)
    /\ ir_epoch r = 9 / 8 /\ NoDup (ir_relay_path r) /\ path_signed toy_signed toy_reg 1 r.
Proof.
  apply (credited_paths_signed client_cfg toy_signed 1 8 toy_reg reset_topostake_evidence_runtime 9 3 [block_record]
           (hash256_hex (replicate 32 Byte.x05))).
  - apply toy_aggregate_sound.
  - apply (bool_decide_unpack _). vm_compute. exact I.
  - apply (bool_decide_unpack _). vm_compute. exact I.
Defined.

Lemma client_statement_binds_witness :
  let nodes := relay_addresses toy_reg [0; 1; 2] in
  replicate 32 Byte.x05 = replicate 32 Byte.x05 /\ 1 = 1 /\ 1 = 1
  /\ map identity_bytes (take (0 + 2) nodes) = map identity_bytes (take (0 + 2) (take 2 nodes)).
Proof.
  cbv zeta.
  apply (client_statement_binds (replicate 32 Byte.x05) (replicate 32 Byte.x05) 1 1 1 1
           (relay_addresses toy_reg [0; 1; 2]) (take 2 (relay_addresses toy_reg [0; 1; 2])) 0 0).
  - apply toy_hash_is_32_bytes.
  - unfold is_u64, U64_MAX; lia.
  - unfold is_u64, U64_MAX; lia.
  - unfold is_u64, U64_MAX; lia.
  - unfold is_u64, U64_MAX; lia.
  - vm_compute; lia.
  - vm_compute; lia.
  - apply collision_check_sound. vm_compute. reflexivity.
  - vm_compute. reflexivity.
Defined.

(** The same record, claiming a fee of 10^18. *)
Lemma claimed_fee_is_credited_witness :
  let rt' := (record_topostake_tx_gossip_metadata_for_block client_cfg 1 8 toy_reg reset_topostake_evidence_runtime 9 3
                [set_amounts 1000000000000000000 0 block_record]).1 in
  credited client_cfg reset_topostake_evidence_runtime rt' 1 3 [hash256_hex (ir_tx_hash block_record)]
    [1000000000000000000].
Proof.
  apply (claimed_fee_is_credited client_cfg 1 8 toy_reg reset_topostake_evidence_runtime 9 3 [block_record]
           (fun _ => 1000000000000000000) (fun _ => 0)).
  - vm_compute; reflexivity.
  - vm_compute; discriminate.
  - by repeat constructor.
  - split; [repeat constructor; vm_compute; reflexivity|].
    split; apply (bool_decide_unpack _); vm_compute; exact I.
  - vm_compute; reflexivity.
Defined.

Definition toy_result : ClientState * list (string * list SettlementRecord) :=
  process_block_evidence client_cfg 1 8 toy_reg (process_blocks client_cfg 1 8 toy_reg [block_1]) block_2.

Lemma submissions_add_up_witness :
  match toy_result.2 with
  | [(url, records)] => zsum (map st_amount_wei records) = 1000000
  | _ => False
  end.
Proof.
  destruct toy_result.2 as [|[url records] [|]] eqn:E; [vm_compute in E; discriminate| |vm_compute in E; discriminate].
  destruct (submissions_add_up client_cfg 1 8 toy_reg [block_1] block_2 url records) as
    (epoch & er & Her & Hep & _ & _ & _ & _ & Hsum & _).
  - unfold fees_configured, is_u64. vm_compute. intuition discriminate.
  - apply toy_blocks_typed.
  - change ((url, records) ∈ toy_result.2). rewrite E. left.
  - assert (map st_epoch records = replicate (length records) 1 /\ records <> []) as [Hr Hne].
    { assert (forallb (fun ur : string * list SettlementRecord =>
        bool_decide (map st_epoch ur.2 = replicate (length ur.2) 1) && negb (Nat.eqb (length ur.2) 0)) toy_result.2 = true)
        as Hc by (vm_compute; reflexivity).
      rewrite E in Hc. apply andb_true_iff in Hc as [Hc _]. apply andb_true_iff in Hc as [Hc1 Hc2].
      apply bool_decide_eq_true in Hc1. split; [exact Hc1|]. intros ->. discriminate Hc2. }
    assert (epoch = 1) as ->.
    { clear E Her Hsum. destruct records as [|st records]; [destruct (Hne eq_refl)|].
      apply Forall_cons in Hep as [<- _]. injection Hr as Hst _. exact Hst. }
    assert (total_credit_budget_scaled <$>
      epochs (recorded client_cfg 1 8 toy_reg (process_blocks client_cfg 1 8 toy_reg [block_1]) block_2) !! 1
      = Some 1000000) as Ht by (vm_compute; reflexivity).
    rewrite Her in Ht. injection Ht as Ht. rewrite <- Ht. apply Hsum. rewrite Ht. reflexivity.
Defined.
