(* ===== verification/WitnessesConsensus.v ===== *)
(** * Witnesses for the consensus rules of the client

    Concrete instances of the theorems about the list shuffle, block production,
    finality, Merkle proofs and the deposit tree: a toy hash with 32-byte digests, a
    registry of four relays, two transactions in epoch 1, and small trees. *)

From Stdlib Require Import Ascii String.
From S2P Require Import ShuffleList BlockProduction SettlementHttp JustificationFacts BodyProof DepositTree.
Local Open Scope rust_scope.
Local Open Scope Z_scope.

#[local] Instance no_env : Env := fun _ => None.

(** A polynomial in the bytes modulo 2^61 - 1, its bytes repeated. *)
Definition polynomial (preimage : bytes) : Z :=
  fold_left (fun acc b => (acc * 257 + Z_of_byte b + 1) mod (2 ^ 61 - 1)) preimage 0.
#[local] Instance toy_digest : EthHash := fun preimage =>
  let h := polynomial preimage in map (fun k => byte_of_Z (h / 256 ^ (Z.of_nat k mod 7) + Z.of_nat k)) (seq 0 32).

Lemma toy_digest_is_32_bytes : hash_is_32_bytes.
Proof. intros preimage. unfold eth_hash, toy_digest. cbv zeta. by rewrite length_map, length_seq. Qed.

(** ** Shuffle *)

Definition seed_32 : bytes := map (fun k => byte_of_Z (Z.of_nat k * 5)) (seq 0 32).

Lemma shuffle_list_agrees_witness :
  exists back fwd,
    shuffle_list [10; 11; 12; 13; 14] 10 seed_32 false = Ret (Some back) /\ length back = 5%nat
    /\ shuffle_list [10; 11; 12; 13; 14] 10 seed_32 true = Ret (Some fwd) /\ length fwd = 5%nat
    /\ forall x, (x < 5)%nat -> exists y,
         compute_shuffled_index x 5 seed_32 10 = Some y
         /\ back !! x = [10; 11; 12; 13; 14] !! y /\ fwd !! y = [10; 11; 12; 13; 14] !! x.
Proof. apply (shuffle_list_agrees [10; 11; 12; 13; 14] 10 seed_32); [reflexivity|discriminate|simpl; lia|lia]. Defined.

Lemma shuffle_list_round_trip_witness :
  exists l, shuffle_list [10; 11; 12; 13; 14] 10 seed_32 true = Ret (Some l)
    /\ shuffle_list l 10 seed_32 false = Ret (Some [10; 11; 12; 13; 14]).
Proof. apply (shuffle_list_round_trip [10; 11; 12; 13; 14] 10 seed_32 true); [reflexivity|discriminate|simpl; lia|lia]. Defined.

(** ** Block production *)

Definition devnet_cfg : TopoStakeConfig := devnet_enabled_at 0.

Definition relay_entry (i : Z) : TopoStakeRelayPublicRegistryEntry :=
  mkRegistryEntry i None None None None (hex_bytes (replicate 96 (byte_of_Z (i + 1)))).
Definition four_relays : TopoStakeRelayPublicRegistry := fold_left add_relay (map relay_entry [0; 1; 2; 3]) empty_registry.

Definition evidence_tx (h : Byte.byte) (origin : Z) (hops : list Z) : TopoStakeTxEvidence :=
  mkTxEvidence None (Some "1000000") None
    (mkTxMetadata 1 (hex_bytes (replicate 32 h)) origin (map mkTxPathEdge hops)).
Definition payload_signature : bytes := replicate 48 Byte.x09.
Definition payload_evidence (txs : list TopoStakeTxEvidence) : TopoStakeBlockEvidence :=
  mkBlockEvidence None (Some (hex_bytes payload_signature)) txs.

Definition short_txs : list TopoStakeTxEvidence := [evidence_tx Byte.x05 0 [1; 2; 3]; evidence_tx Byte.x06 2 [1]].

(** The JSON of a payload is the list of its transactions. *)
#[local] Instance list_json : EvidenceJson := {|
  json_value := list TopoStakeTxEvidence;
  evidence_from_value txs := Some (payload_evidence txs);
  hash256_from_str s := hex_bytes_exact 32 s
|}.

Section scheme.
(** A scheme whose signatures verify for these messages only. *)
Context (expected : list bytes).
#[local] Instance exact_blst : Blst := {|
  blst_pk := bytes;
  blst_sig := bytes;
  pk_from_bytes b := Some b;
  sig_from_bytes b := Some b;
  blst_aggregate_verify _ msgs _ pks := bool_decide (msgs = expected)
|}.
End scheme.

Definition signed_messages (txs : list TopoStakeTxEvidence) : list bytes :=
  map sr_statement (concat (map (statements four_relays 1 payload_signature) txs)).

Lemma short_txs_creditable : Forall (creditable devnet_cfg four_relays 1) short_txs.
Proof.
  repeat apply Forall_cons_2; [..|apply Forall_nil_2]; (split; [split|split; [reflexivity|split]]);
    first [unfold fits; apply Nat.leb_le; vm_compute; reflexivity|apply (bool_decide_unpack _); vm_compute; exact I].
Qed.

Lemma produced_evidence_credited_witness :
  let records := topostake_tx_evidence_records_from_json MainnetEthSpec devnet_cfg (Some short_txs) in
  length records = 2%nat
  /\ credited devnet_cfg reset_topostake_evidence_runtime
       (@record_topostake_tx_gossip_metadata_for_block _ (exact_blst (signed_messages short_txs)) _ devnet_cfg 1 8
          four_relays reset_topostake_evidence_runtime 9 3 records).1
       1 3 (map evidence_hash short_txs) (charged (map (fun tx => amount_or_zero (te_priority_fee_wei tx)) short_txs)).
Proof.
  apply (@produced_evidence_credited toy_digest (exact_blst (signed_messages short_txs)) no_env list_json devnet_cfg MainnetEthSpec four_relays 1
    short_txs (payload_evidence short_txs) (hex_bytes payload_signature) payload_signature
    reset_topostake_evidence_runtime 9 8 3).
  - reflexivity.
  - reflexivity.
  - vm_compute. reflexivity.
  - exact short_txs_creditable.
  - apply (bool_decide_unpack _). vm_compute. exact I.
  - vm_compute. discriminate.
  - apply Nat.leb_le. vm_compute. reflexivity.
  - apply Nat.leb_le. vm_compute. reflexivity.
  - vm_compute. discriminate.
  - vm_compute. discriminate.
  - discriminate.
  - vm_compute. reflexivity.
  - vm_compute. reflexivity.
  - apply (bool_decide_unpack _). vm_compute. exact I.
Defined.

(** One of three transactions has a path longer than a block may carry. *)
Definition long_txs : list TopoStakeTxEvidence :=
  short_txs ++ [evidence_tx Byte.x07 0 (concat (replicate 8 [1; 2; 3; 0]))].

Lemma dropped_path_spoils_block_witness :
  accepted_tx_hashes
    (@record_topostake_tx_gossip_metadata_for_block _ (exact_blst (signed_messages long_txs)) _ devnet_cfg 1 8
       four_relays reset_topostake_evidence_runtime 9 3
       (topostake_tx_evidence_records_from_json MainnetEthSpec devnet_cfg (Some long_txs))).1 = ∅
  /\ length (topostake_tx_evidence_records_from_json MainnetEthSpec devnet_cfg (Some long_txs)) = 2%nat.
Proof.
  split; [|vm_compute; reflexivity].
  apply (@dropped_path_spoils_block toy_digest (exact_blst (signed_messages long_txs)) no_env list_json devnet_cfg MainnetEthSpec four_relays 1
    long_txs (payload_evidence long_txs) (hex_bytes payload_signature) payload_signature
    reset_topostake_evidence_runtime 9 8 3).
  - reflexivity.
  - reflexivity.
  - vm_compute. reflexivity.
  - repeat apply Forall_cons_2; [..|apply Forall_nil_2]; (split; apply (bool_decide_unpack _); vm_compute; exact I).
  - apply Nat.leb_le. vm_compute. reflexivity.
  - apply Nat.leb_le. vm_compute. reflexivity.
  - vm_compute. discriminate.
  - vm_compute. discriminate.
  - vm_compute. discriminate.
  - left. exists (evidence_tx Byte.x07 0 (concat (replicate 8 [1; 2; 3; 0]))). split.
    + apply (list_elem_of_lookup_2 _ 2). reflexivity.
    + apply Nat.ltb_lt. vm_compute. reflexivity.
  - vm_compute. reflexivity.
Defined.

(** ** Settlement records *)

(** Addresses as hexadecimal text, amounts in unary. *)
Fixpoint unary (n : nat) : string := match n with O => "" | S n => String "1" (unary n) end.
#[local] Instance unary_primitives : AlloyPrimitives := {|
  address_from_str s := match str_strip_prefix "0x" s with Some t => parse_hex_pairs t | None => None end;
  address_text := hex_bytes;
  uint256_from_decimal s := Some (Z.of_nat (String.length s));
  uint256_text n := unary (Z.to_nat n)
|}.

Lemma unary_no_space n : no_space (unary n) /\ String.length (unary n) = n.
Proof. induction n as [|n [IH1 IH2]]; [split; [constructor|done]|]. split; [by constructor|]. simpl. by rewrite IH2. Qed.

Lemma unary_addresses_print : addresses_print.
Proof.
  split; [done|]. intros a _. cbn [address_from_str address_text unary_primitives].
  destruct (hex_digits_ok a) as (Hp & _ & _ & Hs). rewrite trim_no_space by (repeat constructor; exact Hs).
  replace (str_strip_prefix "0x" (hex_bytes a)) with (Some (hex_digits a)) by (by destruct a). done.
Qed.

Lemma unary_amounts_print : amounts_print.
Proof.
  intros n Hn. cbn [uint256_from_decimal uint256_text unary_primitives].
  destruct (unary_no_space (Z.to_nat n)) as [Hs Hl]. rewrite trim_no_space, Hl by done. f_equal. lia.
Qed.

Definition payload_settlements : list TopoStakeSettlementRecord :=
  [mkPayloadSettlement 3 1 0 7 (replicate 20 Byte.x11) 12; mkPayloadSettlement 3 1 2 0 Address_ZERO 5].

Lemma settlement_json_round_trip_witness :
  exists json, topostake_settlements_to_json MainnetEthSpec payload_settlements = Ok json
    /\ topostake_settlements_from_json MainnetEthSpec json = Ok payload_settlements.
Proof.
  apply (settlement_json_round_trip MainnetEthSpec payload_settlements).
  - exact unary_addresses_print.
  - exact unary_amounts_print.
  - repeat apply Forall_cons_2; [..|apply Forall_nil_2]; (split; [cbn; lia|split; [reflexivity|cbn; lia]]).
  - apply Nat.leb_le. vm_compute. reflexivity.
Defined.

(** ** Chunked responses *)

Definition two_chunks : list (string * string) := [("3", "abc"); (" 0A", "0123456789")].

Lemma chunked_round_trip_witness :
  decode_chunked_http_body (body_text two_chunks "0" CRLF) = Ret (Ok "abc0123456789").
Proof.
  apply (chunked_round_trip two_chunks "0" CRLF).
  - repeat apply Forall_cons_2; [..|apply Forall_nil_2];
      (split_and!; [repeat constructor; vm_compute; congruence|reflexivity|vm_compute; reflexivity|vm_compute; congruence]).
  - repeat constructor; vm_compute; congruence.
  - reflexivity.
Defined.

Lemma huge_chunk_panics_witness : decode_chunked_http_body ("fffffffffffffffe" +:+ CRLF +:+ "ok") = Panic.
Proof.
  apply (huge_chunk_panics "fffffffffffffffe" "ok" 18446744073709551614).
  - repeat constructor; vm_compute; congruence.
  - vm_compute. reflexivity.
  - vm_compute. reflexivity.
Defined.

(** ** Finality *)

(** Three quarters of a balance of 100 vote for every epoch. *)
Definition full_votes : EpochVotes := mkVotes (fun _ => Ok [Byte.x01]) 100 75 75.

Fixpoint end_epochs (n : nat) (s : FinalityState) : FinalityState :=
  match n with
  | O => s
  | S n => match end_epoch (end_epochs n s) full_votes with Ok s' => s' | Err _ => s end
  end.
Definition after_4 : FinalityState := end_epochs 4 (genesis []).

Lemma after_4_reached : exists h, reach [] after_4 h.
Proof.
  eexists. apply (reach_epoch [] (end_epochs 3 (genesis [])) _ full_votes); [|vm_compute; reflexivity].
  apply (reach_epoch [] (end_epochs 2 (genesis [])) _ full_votes); [|vm_compute; reflexivity].
  apply (reach_epoch [] (end_epochs 1 (genesis [])) _ full_votes); [|vm_compute; reflexivity].
  apply (reach_epoch [] (genesis []) _ full_votes); [|vm_compute; reflexivity]. constructor.
Qed.

Lemma finalized_epochs_justified_witness :
  exists h, cp_epoch (finalized_checkpoint after_4) = 2 /\ supermajority h 2 /\ supermajority h 3.
Proof.
  destruct after_4_reached as [h Hr]. exists h. split; [vm_compute; reflexivity|].
  destruct (finalized_epochs_justified [] after_4 h Hr) as [Hf _]. apply Hf. vm_compute. discriminate.
Defined.

Lemma finality_monotone_witness :
  cp_epoch (finalized_checkpoint after_4) <= cp_epoch (finalized_checkpoint (end_epochs 5 (genesis []))).
Proof.
  destruct after_4_reached as [h Hr].
  destruct (finality_monotone [] after_4 h full_votes (end_epochs 5 (genesis [])) Hr) as (_ & _ & Hf & _);
    [vm_compute; reflexivity|exact Hf].
Defined.

Lemma two_supermajorities_finalize_witness :
  exists s1 s2, end_epoch after_4 full_votes = Ok s1 /\ end_epoch s1 full_votes = Ok s2
    /\ cp_epoch (finalized_checkpoint s2) = 4.
Proof.
  destruct after_4_reached as [h Hr].
  apply (two_supermajorities_finalize [] after_4 h full_votes full_votes Hr);
    [vm_compute; discriminate|vm_compute; discriminate|split_and!; vm_compute; congruence
    |split_and!; vm_compute; congruence|vm_compute; discriminate|vm_compute; discriminate].
Defined.

(** ** Merkle trees *)

Definition leaf_of (k : Z) : bytes := map (fun i => byte_of_Z (k * 3 + Z.of_nat i)) (seq 0 32).
Definition three_leaves : list bytes := map leaf_of [1; 2; 3].

Lemma push_leaf_appends_witness :
  exists t, push_leaf (create 2 three_leaves) (leaf_of 4) 2 = Ok t
    /\ tree_hash t = tree_hash (create 2 (three_leaves ++ [leaf_of 4])).
Proof. apply (push_leaf_appends 2 three_leaves (leaf_of 4)); [lia|simpl; lia]. Defined.

Lemma generated_proof_verifies_witness :
  exists proof, generate_proof (create 2 three_leaves) 2 2 = Ret (Ok (leaf_of 3, proof)) /\ length proof = 2%nat
    /\ verify_merkle_proof (leaf_of 3) proof 2 2 (tree_hash (create 2 three_leaves)) = true.
Proof. apply (generated_proof_verifies 2 2 three_leaves); simpl; lia. Defined.

Lemma proof_binds_leaf_witness : leaf_of 2 = default (zero_hash 0) (three_leaves !! 1%nat).
Proof.
  apply (proof_binds_leaf 2 1 three_leaves (leaf_of 2) (branch 2 three_leaves 1)).
  - exact toy_digest_is_32_bytes.
  - repeat apply Forall_cons_2; [vm_compute; reflexivity..|apply Forall_nil_2].
  - simpl; lia.
  - simpl; lia.
  - apply collision_check_sound. vm_compute. reflexivity.
  - vm_compute. reflexivity.
Defined.

(** ** Block bodies *)

Definition sample_body : BeaconBlockBody :=
  mkBody (leaf_of 1) (leaf_of 2) (leaf_of 3) (leaf_of 4) (leaf_of 5) (leaf_of 6) (leaf_of 7) (leaf_of 8) (leaf_of 9)
    (leaf_of 10) (leaf_of 11) (leaf_of 12) (leaf_of 13) (leaf_of 14) (Some (leaf_of 15)).

Lemma sample_body_typed : body_typed sample_body.
Proof. repeat apply Forall_cons_2; [vm_compute; reflexivity..|apply Forall_nil_2]. Qed.

Lemma commitments_proof_rejected_witness :
  exists proof, kzg_commitments_merkle_proof sample_body = Ret (Ok proof)
    /\ verify_inclusion_proof (leaf_of 12) proof (body_root sample_body) = true
    /\ verify_inclusion_proof (leaf_of 14) proof (body_root sample_body) = false.
Proof.
  destruct (commitments_proof_rejected sample_body toy_digest_is_32_bytes sample_body_typed) as (proof & E & Hv & Hr);
    [vm_compute; discriminate|].
  exists proof. split; [exact E|]. split; [exact Hv|].
  assert (proof = branch 4 (body_merkle_leaves sample_body) 11) as ->.
  { assert (kzg_commitments_merkle_proof sample_body = Ret (Ok (branch 4 (body_merkle_leaves sample_body) 11))) as E'
      by (vm_compute; reflexivity).
    rewrite E' in E. injection E as <-. reflexivity. }
  apply (Hr (branch 4 (body_merkle_leaves sample_body) 11)).
  - repeat apply Forall_cons_2; [vm_compute; reflexivity..|apply Forall_nil_2].
  - apply collision_check_sound. vm_compute. reflexivity.
Defined.

Lemma execution_branch_is_exits_witness :
  exists proof, block_body_merkle_proof sample_body 25 = Ret (Ok proof)
    /\ verify_merkle_proof (leaf_of 10) proof 4 9 (body_root sample_body) = true.
Proof.
  destruct (execution_branch_is_exits sample_body toy_digest_is_32_bytes sample_body_typed) as (proof & E & Hv & _);
    [vm_compute; discriminate|]. exists proof. exact (conj E Hv).
Defined.

(** ** Deposits *)

Definition execution_block (n : nat) : FinalizedExecutionBlock := mkExecutionBlock [] n [] 100.

Lemma deposit_snapshot_resumes_witness :
  exists finalized sn resumed final,
    deposit_finalize (deposit_tree_create three_leaves 3 3) (execution_block 2) = (finalized, Ok ())
    /\ deposit_root finalized = deposit_root (deposit_tree_create three_leaves 3 3)
    /\ get_snapshot finalized = Some sn /\ from_snapshot sn 3 = Ok resumed
    /\ deposit_push_all resumed (drop 2 three_leaves) = Ok final
    /\ deposit_root final = deposit_root (deposit_tree_create three_leaves 3 3).
Proof.
  apply (deposit_snapshot_resumes 3 three_leaves (execution_block 2));
    [lia|simpl; lia|vm_compute; discriminate|simpl; lia].
Defined.

Lemma deposit_proof_verifies_witness :
  exists proof, deposit_proof (deposit_tree_create three_leaves 3 3) 1 = Ret (Ok (leaf_of 2, proof))
    /\ length proof = 4%nat
    /\ verify_merkle_proof (leaf_of 2) proof 4 1 (deposit_root (deposit_tree_create three_leaves 3 3)) = true.
Proof. apply (deposit_proof_verifies 3 1 three_leaves (leaf_of 2)); [simpl; lia|reflexivity]. Defined.
