(* ===== verification/WitnessesFork.v ===== *)
(** * Witnesses: fork choice

    A small chain for the theorems on the fork choice: a genesis block with two
    children, one of which has a child of its own, and three votes. *)

From S2P Require Import FixedPoint.
From S2P Require Export ForkTree.
Local Open Scope rust_scope.
Local Open Scope Z_scope.

Definition fw_spec : ForkSpec := mkForkSpec 32 512 None 4 3 9 40 20.

Definition fw_root (b : Byte.byte) : bytes := b :: repeat Byte.x00 31.
Definition fw_genesis : bytes := fw_root Byte.x01.
Definition fw_left : bytes := fw_root Byte.x02.
Definition fw_right : bytes := fw_root Byte.x03.
Definition fw_tip : bytes := fw_root Byte.x04.
Definition fw_checkpoint : Checkpoint := mkCheckpoint 0 fw_genesis.
Definition fw_shuffling : AttestationShufflingId := mkShufflingId 0 fw_genesis.

Definition fw_block (slot : Z) (root parent : bytes) : Block :=
  mkBlock slot root (Some parent) zero_root fw_genesis fw_shuffling fw_shuffling fw_checkpoint fw_checkpoint (Optimistic root)
    (Some fw_checkpoint) (Some fw_checkpoint) None None (Some 7) false.

Definition fw_start : ProtoArrayForkChoice :=
  match fork_choice_new fw_spec 0 0 zero_root fw_checkpoint fw_checkpoint fw_shuffling fw_shuffling (Irrelevant false) None None 0 with
  | Ok fc => fc
  | Err _ => mkForkChoice (mkProtoArray 0 [] ∅ []) [] (mkBalances [] 0 0)
  end.

Definition fw_add (fc : ProtoArrayForkChoice) (b : Block) : ProtoArrayForkChoice := fst (process_block fw_spec fc b (b_slot b) 0).

Definition fw_blocks : ProtoArrayForkChoice :=
  fw_add (fw_add (fw_add fw_start (fw_block 1 fw_left fw_genesis)) (fw_block 2 fw_right fw_genesis)) (fw_block 3 fw_tip fw_left).

Definition fw_votes : ProtoArrayForkChoice :=
  process_attestation (process_attestation (process_attestation fw_blocks 0 fw_right 3 false) 1 fw_tip 3 false) 2 fw_left 3 false.

Definition fw_balances : JustifiedBalances := mkBalances [32; 32; 32] 96 3.

Lemma fw_reachable : fc_reachable fw_spec fw_votes.
Proof.
  do 3 (eapply reach_step; [|apply step_attestation]).
  do 3 (eapply reach_step; [|apply step_block; [done|apply List.Forall_nil]]).
  apply (reach_new fw_spec 0 0 zero_root fw_checkpoint fw_checkpoint fw_shuffling fw_shuffling (Irrelevant false) None None 0);
    [discriminate|reflexivity].
Qed.

(** Two of three votes are below the left child, so the head is its tip, unless one of
    the two equivocates and the third settles it by weight. *)
Example fw_head_example :
  snd (fork_choice_find_head fw_spec fw_votes fw_checkpoint fw_checkpoint fw_balances zero_root ∅ 4) = Ok (fw_tip, Empty).
Proof. vm_compute. reflexivity. Qed.

Example fw_head_equivocation_example :
  snd (fork_choice_find_head fw_spec fw_votes fw_checkpoint fw_checkpoint fw_balances zero_root {[ 1; 2 ]} 4) = Ok (fw_right, Empty).
Proof. vm_compute. reflexivity. Qed.

Lemma fw_balances_ok : Forall (Z.le 0) (effective_balances fw_balances) /\ zsum (effective_balances fw_balances) < 2 ^ 63.
Proof. split; [repeat constructor; lia|done]. Qed.

Lemma weights_are_lmd_ghost_witness :
  exists fc', update_scores fw_votes fw_balances ∅ = (fc', Ok tt)
    /\ indices (proto_array fc') = indices (proto_array fw_votes)
    /\ length (nodes (proto_array fc')) = length (nodes (proto_array fw_votes))
    /\ forall i n, nodes (proto_array fc') !! i = Some n -> pn_weight n = lmd_at fw_votes fw_balances ∅ i.
Proof. apply (weights_are_lmd_ghost fw_spec); [reflexivity|apply fw_reachable|apply fw_balances_ok|apply fw_balances_ok]. Defined.

Lemma not_cut pa start i : forallb (fun n => negb (execution_invalid n)) (nodes pa) = true -> ~ cut pa start i.
Proof.
  intros H. induction 1 as [i _ Hv|]; [|done]. unfold invalid_at in Hv. destruct (nodes pa !! i) as [n|] eqn:E; [|done].
  rewrite forallb_forall in H. specialize (H n). rewrite Hv in H. discriminate H. by eapply list_elem_of_In, list_elem_of_lookup_2.
Qed.

Lemma fw_viable : viable_branch fw_spec (proto_array fw_votes) 4 fw_checkpoint fw_checkpoint 0 0.
Proof.
  apply (viable_above _ _ _ _ _ _ 0 1); [by apply not_cut|lia|by apply elem_of_children; vm_compute|].
  apply (viable_above _ _ _ _ _ _ 1 3); [by apply not_cut|lia|by apply elem_of_children; vm_compute|].
  eapply (viable_leaf _ _ _ _ _ _ 3); [by apply not_cut|lia|vm_compute; reflexivity| |vm_compute; reflexivity].
  intros c Hc%elem_of_children. exfalso. destruct c as [|[|[|[|c]]]]; vm_compute in Hc; congruence.
Qed.

Lemma find_head_is_lmd_ghost_witness :
  exists fc' h m,
    fork_choice_find_head fw_spec fw_votes fw_checkpoint fw_checkpoint fw_balances zero_root ∅ 4 = (fc', Ok (pn_root m, Empty))
    /\ nodes (proto_array fw_votes) !! h = Some m
    /\ ghost (nodes (proto_array fw_votes)) (lmd_at fw_votes fw_balances ∅)
         (viable_branch fw_spec (proto_array fw_votes) 4 fw_checkpoint fw_checkpoint 0) 0 h.
Proof.
  eapply (find_head_is_lmd_ghost fw_spec fw_votes fw_checkpoint fw_checkpoint fw_balances ∅ 4 0);
    [reflexivity|apply fw_reachable|apply fw_balances_ok|apply fw_balances_ok|vm_compute; reflexivity|vm_compute; reflexivity|reflexivity|].
  apply fw_viable.
Defined.

Lemma filter_pass_is_recursive_witness :
  exists viable, get_filtered_block_tree fw_spec (proto_array fw_votes) 4 fw_checkpoint fw_checkpoint 0 = Ok viable
    /\ forall i, i ∈ viable <-> viable_branch fw_spec (proto_array fw_votes) 4 fw_checkpoint fw_checkpoint 0 i.
Proof. apply filter_pass_is_recursive; [apply fw_reachable|apply Nat.ltb_lt; vm_compute; reflexivity]. Defined.

Lemma head_search_ends_witness :
  ended (find_head fw_spec (proto_array fw_votes) 4 fw_checkpoint fw_checkpoint (cp_root fw_checkpoint) fw_tip fw_balances).
Proof. apply head_search_ends, fw_reachable. Defined.

(** With the threshold lowered the genesis block goes. *)
Definition fw_low : ProtoArrayForkChoice := set_prune_threshold fw_votes 1.

Lemma fw_low_reachable : fc_reachable fw_spec fw_low.
Proof. eapply reach_step; [apply fw_reachable|apply step_threshold]. Qed.

Lemma pruning_keeps_the_rest_witness :
  exists fc', fork_choice_maybe_prune fw_low fw_left = Ret (fc', Ok tt)
    /\ ((1 < prune_threshold (proto_array fw_low))%nat -> fc' = fw_low)
    /\ ((prune_threshold (proto_array fw_low) <= 1)%nat -> forall r i, indices (proto_array fw_low) !! r = Some i ->
         ((i < 1)%nat -> indices (proto_array fc') !! r = None)
         /\ ((1 <= i)%nat -> fork_choice_get_weight fc' r = fork_choice_get_weight fw_low r)
         /\ (forall p, (1 <= p)%nat -> parent_of (nodes (proto_array fw_low)) i = Some p ->
              parent_root (proto_array fc') r = parent_root (proto_array fw_low) r)).
Proof. apply (pruning_keeps_the_rest fw_spec fw_low fw_left 1); [apply fw_low_reachable|vm_compute; reflexivity]. Defined.
