(* ===== verification/WitnessesEpoch.v ===== *)
(** * Witnesses: the end of an epoch

    An Electra state of four validators at the end of epoch 10: one to be ejected, one that
    has exited and is consolidated into another, and three pending deposits, of which
    one is for the ejected validator and one for a new key.  The next epoch starts with
    a block that slashes two validators and has an attestation. *)

From S2P Require Import EpochProcessing EpochStages EpochEquiv.
From S2P Require Export EpochClaims EpochBalances EpochTotals Operations.
Local Open Scope rust_scope.
Local Open Scope Z_scope.

Definition gwei : Z := 1000000000.

(** The parameters of the main network, with a smaller maximum for compounding validators
    and a shorter vector of slashings. *)
Definition ew_spec : EpochSpec :=
  {| fork_epochs := mkForkEpochs (Some 0) (Some 0) (Some 0) (Some 0) (Some 0) None None;
     far_future_epoch := U64_MAX; genesis_slot := 0; es_slots_per_epoch := 32; epochs_per_slashings_vector := 64;
     max_pending_deposits_per_epoch := 16; min_seed_lookahead := 1; proposer_lookahead_slots := 64;
     max_seed_lookahead := 4; min_validator_withdrawability_delay := 256; min_epochs_to_inactivity_penalty := 4;
     effective_balance_increment := gwei; max_effective_balance := 32 * gwei; max_effective_balance_electra := 96 * gwei;
     min_activation_balance := 32 * gwei; ejection_balance := 16 * gwei; hysteresis_quotient := 4;
     hysteresis_downward_multiplier := 1; hysteresis_upward_multiplier := 5; min_per_epoch_churn_limit := 4;
     max_per_epoch_activation_churn_limit := 8; churn_limit_quotient := 65536;
     min_per_epoch_churn_limit_electra := 128 * gwei; max_per_epoch_activation_exit_churn_limit := 256 * gwei;
     churn_limit_quotient_gloas := 32768; max_per_epoch_activation_churn_limit_gloas := 256 * gwei;
     inactivity_score_bias := 4; inactivity_score_recovery_rate := 16; inactivity_penalty_quotient := 2 ^ 26;
     inactivity_penalty_quotient_altair := 3 * 2 ^ 24; inactivity_penalty_quotient_bellatrix := 2 ^ 24;
     proportional_slashing_multiplier := 1; proportional_slashing_multiplier_altair := 2;
     proportional_slashing_multiplier_bellatrix := 3; base_reward_factor := 64; base_rewards_per_epoch := 4;
     compounding_withdrawal_prefix_byte := Byte.x02; builder_payment_threshold_numerator := 6;
     builder_payment_threshold_denominator := 10 |}.

Definition ew_env : EpochEnv :=
  mkEnv [Byte.x0a] [Byte.x0b] (fun _ => true) (fun _ _ => Ok (repeat 0 32)) (fun _ _ => Ok [0]).

Definition ew_validator (key kind : Byte.byte) (balance exit withdrawable : Z) : Validator :=
  mkValidator [key] [kind] (balance * gwei) false 0 0 exit withdrawable.

Definition ew_raw : EpochState :=
  mkState 10 Electra (mkCheckpoint 8 [Byte.x0c]) (repeat 0 64)
    (mkValidators
       [ew_validator Byte.x01 Byte.x01 32 U64_MAX U64_MAX; ew_validator Byte.x02 Byte.x01 16 U64_MAX U64_MAX;
        ew_validator Byte.x03 Byte.x02 40 U64_MAX U64_MAX; ew_validator Byte.x04 Byte.x01 32 5 9]
       [32 * gwei + 5; 16 * gwei; 40 * gwei; 33 * gwei] [0; 3; 0; 0] [7; 0; 7; 0] [7; 1; 3; 0] (mkPubkeys 0 ∅))
    (mkExitQueue (mkExitCache false 0 0) 12 (10 * gwei))
    (mkDepositQueue [mkDeposit [Byte.x02] [Byte.x01] gwei [] 3; mkDeposit [Byte.x01] [Byte.x01] (2 * gwei) [] 4;
                     mkDeposit [Byte.x05] [Byte.x02] (34 * gwei) [] 5; mkDeposit [Byte.x06] [Byte.x02] (34 * gwei) [] 300] 0 1 1)
    (mkCaches None None None) (mkLater [mkConsolidation 3 2] [] [] [] []).

Definition value_or {A} (r : Result A EpochError) (a : A) : A := match r with Ok x => x | Err _ => a end.

Definition ew_state : EpochState := value_or (build_caches ew_spec ew_env ew_raw) ew_raw.
Definition ew_staged : EpochState := value_or (run_parts ew_spec ew_env parts ew_state) ew_raw.
Definition ew_registry : EpochState := value_or (process_epoch_single_pass ew_spec ew_env only_registry_updates ew_state) ew_raw.
Definition ew_final : EpochState := value_or (process_epoch_single_pass ew_spec ew_env enable_all ew_state) ew_raw.

Lemma ew_spec_ok : spec_ok ew_spec.
Proof. by split. Qed.

Lemma ew_is_ready : ready ew_env ew_state.
Proof.
  split; [vm_compute; reflexivity|vm_compute; discriminate|vm_compute; reflexivity|apply not_eq_None_Some; vm_compute; discriminate
         |vm_compute; reflexivity|vm_compute; reflexivity|split; vm_compute; reflexivity].
Qed.

Lemma ew_epoch_ready : epoch_ready ew_spec ew_env ew_state.
Proof.
  split; [apply ew_is_ready|..].
  - repeat (apply Forall_cons_2; [split; [vm_compute; discriminate|by vm_compute]|]). apply Forall_nil_2.
  - intros q e i v. assert (activation_queue (epoch_cache (st_caches ew_state)) = Ok []) as -> by (vm_compute; reflexivity).
    intros [= <-] Hin. destruct (not_elem_of_nil _ Hin).
Qed.

(** The ejected validator leaves, its deposit is postponed, the new key gets a validator
    and the consolidation moves the exited validator's balance. *)
Example ew_final_example :
  process_epoch_single_pass ew_spec ew_env enable_all ew_state = Ok ew_final
  /\ map exit_epoch (validators (st_validators ew_final)) = [U64_MAX; 15; U64_MAX; 5; U64_MAX]
  /\ map (fun v => effective_balance v / gwei) (validators (st_validators ew_final)) = [32; 16; 72; 1; 34]
  /\ map pd_slot (pending_deposits (st_deposits ew_final)) = [300; 3]
  /\ pending_consolidations (st_later ew_final) = [].
Proof. split_and!; vm_compute; reflexivity. Qed.

Lemma single_pass_is_staged_witness :
  process_epoch_single_pass ew_spec ew_env all_but_effective_balances ew_state = Ok ew_staged.
Proof. apply (single_pass_is_staged ew_spec ew_env ew_spec_ok ew_state ew_staged ew_epoch_ready). vm_compute. reflexivity. Defined.

(** The earliest exit is at the delay of five epochs, with a churn of 128 ETH. *)
Lemma exit_churn_bounded_witness :
  exit_total ew_spec 15 (validators (st_validators ew_state)) (validators (st_validators ew_registry)) <= 128 * gwei.
Proof.
  apply (exit_churn_bounded ew_spec ew_env ew_spec_ok ew_state ew_registry 15 (128 * gwei) 15 ew_epoch_ready);
    [vm_compute; reflexivity|vm_compute; discriminate|vm_compute; reflexivity|vm_compute; reflexivity|vm_compute; reflexivity
    |split; [vm_compute; discriminate|vm_compute; reflexivity]].
Defined.

Lemma effective_balances_cached_witness :
  total_active_balance (st_caches ew_final) = Some (11, 120 * gwei).
Proof.
  apply (effective_balances_cached ew_spec ew_env (mkBalancesContext 250000000 1250000000) ew_state ew_final ew_is_ready);
    [vm_compute; reflexivity|split; vm_compute; congruence|vm_compute; reflexivity].
Defined.

Definition ew_finality : FinalityState :=
  mkFinality 10 (mkCheckpoint 8 [Byte.x0c]) (mkCheckpoint 9 [Byte.x0d]) (mkCheckpoint 8 [Byte.x0c]) [true; true; true; true].
Definition ew_root (_ : Z) : Result bytes EpochError := Ok [Byte.x0e].

Definition ew_processed : FinalityState * EpochState :=
  value_or (process_epoch ew_spec ew_env ew_root ew_finality ew_state) (ew_finality, ew_raw).
Definition ew_next : EpochState := value_or (enter_epoch (snd ew_processed)) ew_raw.

(** ** A block in the next epoch *)

Definition ow_spec : OpSpec := mkOpSpec ew_spec 1 128 64 32 4096 512 4096 8.

Definition ew_header (slot : Z) (proposer : nat) (body : Byte.byte) : BeaconBlockHeader := mkHeader slot proposer [] [] [body].
Definition ew_roots (_ : Z) : Result bytes EpochError := Ok [Byte.x0e].

Definition ow_last : BlockState :=
  mkBlockState ew_state ew_finality (mkSlashings None ∅) 351 (ew_header 351 0 Byte.x00) ew_roots [].
Definition ow_first : BlockState :=
  mkBlockState ew_next (fst ew_processed) (bk_slashings_cache ow_last) (bk_slot ow_last + 1) (bk_latest_block_header ow_last)
    ew_roots [].
Definition ow_second : BlockState :=
  mkBlockState (bk_state ow_first) (bk_finality ow_first) (bk_slashings_cache ow_first) (bk_slot ow_first + 1)
    (bk_latest_block_header ow_first) ew_roots [].

(** One committee, of the validators that are active. *)
Definition ow_committees : Committees := fun s slot =>
  Ok [List.filter (fun i => match validators (st_validators (bk_state s)) !! i with Some v => is_active_at v (slot / 32) | None => false end)
        (seq 0 (length (validators (st_validators (bk_state s)))))].
Definition ow_signatures : SignatureCheck := mkSignatureCheck (fun _ _ _ => true) (fun _ _ => true).

Definition ow_data (slot : Z) (root : Byte.byte) (source : Checkpoint) : AttestationData :=
  mkAttestationData slot 0 [root] source (mkCheckpoint (slot / 32) [Byte.x0e]).
Definition ow_vote (root : Byte.byte) : IndexedAttestation :=
  mkIndexed [2%nat] (ow_data 340 root (mkCheckpoint 9 [])) [].

(** Validator 1 proposed twice, validator 2 voted twice; all three active validators attest. *)
Definition ow_block : BlockVotes :=
  mkBlockVotes (ew_header 353 0 Byte.x01)
    [mkProposerSlashing (ew_header 340 1 Byte.x01) (ew_header 340 1 Byte.x02) [] []]
    [mkAttesterSlashing (ow_vote Byte.x01) (ow_vote Byte.x02)]
    [mkAttestation [true; true; true] (ow_data 352 Byte.x0e (current_justified_checkpoint (fst ew_processed))) []
       (ElectraAttestation [true])].

Definition ow_result : Result BlockState EpochError :=
  process_block ow_spec ew_env (fun _ => []) ow_committees ow_signatures true true 0 ow_block ow_second.
Definition ow_final : BlockState := value_or ow_result ow_second.

(** Only the validator that is not slashed counts for the epoch. *)
Example ow_final_example :
  ow_result = Ok ow_final
  /\ map slashed (validators (st_validators (bk_state ow_final))) = [false; true; true; false; false]
  /\ current_epoch_participation (st_validators (bk_state ow_final)) = [7; 7; 7; 0; 0]
  /\ (map bal_raw <$> (current_epoch_cache <$> progressive_balances_cache (st_caches (bk_state ow_final))))
     = Some [32 * gwei; 32 * gwei; 32 * gwei].
Proof. split_and!; vm_compute; reflexivity. Qed.

Definition idle_check (vs : list Validator) (participation : list Z) (epoch : Z) : bool :=
  forallb (fun x => is_active_at (fst x) epoch || (snd x =? 0)) (zip vs participation).

Lemma idle_check_ok vs participation epoch i v bits :
  idle_check vs participation epoch = true -> vs !! i = Some v -> participation !! i = Some bits -> is_active_at v epoch = false ->
  bits = 0.
Proof.
  unfold idle_check. rewrite forallb_forall. intros H Hv Hb Ha. specialize (H (v, bits)). cbn [fst snd] in H. rewrite Ha in H.
  apply Z.eqb_eq, H, list_elem_of_In, (list_elem_of_lookup_2 _ i), lookup_zip_with_Some. by exists v, bits.
Qed.

Definition balances_check (st : EpochState) : bool :=
  match epoch_cache (st_caches st) with
  | Some c => bool_decide (ch_effective_balances c = map effective_balance (validators (st_validators st)))
  | None => true
  end.

Lemma balances_check_ok st c :
  balances_check st = true -> epoch_cache (st_caches st) = Some c ->
  ch_effective_balances c = map effective_balance (validators (st_validators st)).
Proof. unfold balances_check. intros H Hc. rewrite Hc in H. by apply bool_decide_eq_true in H. Qed.

Lemma ow_committees_active : committees_active ow_spec ow_committees.
Proof.
  intros s slot l c i [= <-] ->%list_elem_of_singleton Hi. apply list_elem_of_In, filter_In in Hi as [_ Hi].
  destruct (_ !! i) as [v|]; [|done]. by exists v.
Qed.

Lemma ow_last_agrees : caches_agree ow_spec ow_last.
Proof.
  split.
  - split.
    + vm_compute. reflexivity.
    + vm_compute. discriminate.
    + split; vm_compute; reflexivity.
    + intros i v bits. apply idle_check_ok. vm_compute. reflexivity.
    + intros i v bits. apply idle_check_ok. vm_compute. reflexivity.
    + exact (er_validators _ _ _ ew_epoch_ready).
    + intros pb _. vm_compute. reflexivity.
    + intros c. apply balances_check_ok. vm_compute. reflexivity.
  - intros I. vm_compute in I. discriminate I.
Qed.

(** The end of epoch 10, in which the ninth epoch is finalized, a slot without a block and the block. *)
Lemma caches_agree_always_witness :
  cp_epoch (finalized_checkpoint (fst ew_processed)) = 9 /\ caches_agree ow_spec ow_final.
Proof.
  split; [vm_compute; reflexivity|].
  apply (caches_agree_always ow_spec ew_spec_ok (mkBalancesContext 250000000 1250000000) eq_refl
           ltac:(split; vm_compute; congruence) ow_last ow_final ow_last_agrees).
  apply (rtc_l _ _ ow_first); [|apply (rtc_l _ _ ow_second); [|apply rtc_once]].
  - apply (step_epoch ow_spec ew_env ew_root ow_last (fst ew_processed) (snd ew_processed) ew_next ew_roots []);
      [exact ew_epoch_ready|vm_compute; reflexivity|vm_compute; reflexivity].
  - exact (step_slot ow_spec ow_first ew_roots []).
  - apply (step_block ow_spec ew_env (fun _ => []) ow_committees ow_signatures true true 0 ow_block); [exact ow_committees_active|].
    vm_compute. reflexivity.
Defined.
